(* ===== verification/_CoqProject ===== *)
-Q . S2P
Prelude.v
State.v
Layout.v
Pool.v
Runtime.v
Sandbox.v
Vaults.v
RoundStart.v
Settlement.v
AllocBook.v
Utils.v
Lobby.v
RoundAccounts.v
Sell.v
CloseRound.v
Claim.v
Admin.v
Aat.v
Init.v
Invariant.v
System.v
Scenario.v
Typed.v
Access.v
Operations.v
Params.v
Nft.v
Ledger.v
Closing.v
NoPanic.v
Amounts.v
AdminCli.v
Correctness.v
