(* ===== verification/Prelude.v ===== *)
(** * The ALN floor contract

    A verification development for the Anchor program under
    [src/programs/floor-program/src].  Investors deposit USDC into a lobby; a seller
    sells wALN to the contract at the admin's floor price, in rounds of a fixed size.
    When a round starts, the deposits of eligible investors are locked in proportion to
    the volumes of their AAT NFTs; when it is full it is settled: every lock becomes an
    allocation of wALN, claimable after the lock period, and the next round starts if
    it can.  The admin can close a partially sold round early, cancel one that nobody
    sold into, remove inactive investors, pause, freeze and change the parameters.

    This file holds the vocabulary all others share: the result monad ([Ok], [Err],
    [require], loops as [foldM] and [mapAccM] with their invariant rules), machine
    integers with Rust's checked operations, little-endian bytes, sums over lists and
    finite maps ([sumZ], [sumM]), the hint database [floor], and the logic [errs] of the errors a computation can end in,
    with its database and tactic.

    ** The files

    - [State]: [errors.rs], [seeds.rs], [state.rs].  Errors, account structs as records,
      checked arithmetic that fails with [ArithmeticOverflow], the byte order of keys.
    - [Layout]: the types of [state.rs] and the bytes of its accounts, as codecs built
      from integers, keys, structs and arrays, in their [repr(C)] layout or on Borsh.
    - [Pool]: the searches and writes on [pool.investors[..count]], and their meaning as
      a finite map from investors to records ([pool_map]).
    - [Runtime]: the class [Runtime] of what the handlers use of Solana, Anchor and the
      token programs, the class [RuntimeLaws] of the documented behaviour the theorems
      rely on, and [World], the program's accounts and the chain around them.
    - [Sandbox]: an executable [Runtime] that satisfies [RuntimeLaws].
    - [Vaults]: what transfers do to the two vaults.
    - [RoundStart]: [instructions/start_round.rs].
    - [Settlement]: the loops of [sell_waln.rs] and [close_round.rs] that turn locks into
      allocations, dust included.
    - [AllocBook]: the [RoundLockedWaln] account, written by a settlement and read by
      [claim_waln.rs] with a binary search.
    - [Utils]: [utils.rs], and the decimal numbers of the NFT metadata.
    - [Lobby]: [deposit_usdc.rs], [withdraw_usdc.rs].
    - [RoundAccounts]: creating and writing the two accounts of a settled round.
    - [Sell], [CloseRound], [Claim], [Admin] (with [transfer_authority.rs]), [Aat]
      ([mint_aat_nft.rs], [update_aat_volume.rs]), [Init] ([initialize.rs]): one file per
      handler, composed from the parts above in the order of the source.
    - [Invariant]: the invariant [inv] of a world, and that every handler preserves it.
    - [System]: [lib.rs]; [dispatch], the step relation, [reachable], and [history], the
      runs with the caps of the rounds they filled.
    - [Scenario]: a cast of accounts and concrete runs on the sandbox, for the witnesses.
    - [Typed]: the fields of every account stay values of their Rust types, and the
      accounts read back from their bytes.
    - [NoPanic]: the errors of every instruction, and the two panics there are.
    - [Access], [Operations], [Params], [Correctness]: theorems about [dispatch] and about
      reachable worlds.
    - [Nft], [Ledger]: what becomes of the AAT NFTs in a run ([issued]), and that their
      volumes, those in the pool and the recorded total agree.
    - [Closing]: when a round in progress can be closed.
    - [Amounts]: doubles, and the amounts the client prints with them.
    - [AdminCli]: [src/admin-cli/src], from the command line to the request the admin's
      client sends or the account data it prints.

    ** How the model reads

    A handler is a function from the accounts passed in, the arguments and the world to
    [R World]: an error leaves the world as it was, as a failed transaction does.  Each
    [#[derive(Accounts)]] struct is a record of keys, and its constraints are the
    definition [<struct>_accounts], which the handler runs first.  Cross-program
    invocations are values of [Cpi] given to [invoke] with the signer seeds.  A loop over
    the pool threads its totals through [mapAccM]; the mutable slice it leaves behind is
    the second component of the result.  [Panic] stands for a Rust panic (slice bounds,
    arithmetic under [overflow-checks]).

    [step] is one successful instruction, or any change of the rest of the chain that
    takes nothing from the contract ([keeps]).  [reachable] worlds start with
    [initialize].  The assumptions are stated there: arguments, signers and the clock are
    values of their types; no instruction is signed by the contract's own program-derived
    address, which has no key; and the USDC mint takes no transfer fee, which
    [initialize] checks for the wALN mint only.  An [issued] world is a reachable one whose
    run starts without AAT NFTs and in which the rest of the chain leaves them alone; the
    addresses of the investors concerned do not collide ([NftAddresses]).

    ** What the theorems show

    - Solvency ([Correctness]): the wALN vault always covers the round, the dust and all
      unclaimed allocations; the USDC vault covers the lobby up to the payments of the
      round in progress and the gap of each filled round: the locks of a round may stay
      below its cap by the rounding of the shares, one unit, or up to 99 for a cap under
      200 units ([max_gap]), while a full sale pays the cap; [usdc_shortfall_reachable] is
      a run in which the last investor cannot withdraw.
    - The lobby's books, the round's state machine ([Correctness]), the terms of a round
      in progress ([Access]), viable parameters and the bound on AAT volume ([Params]) as
      invariants of all runs.
    - Types and errors of all runs: every field of every account is a value of its Rust
      type, the accounts take the space allocated for them and read back from their bytes
      ([Typed]), and no instruction aborts, but for a sale with too few hook accounts and
      for lamports that overflow ([NoPanic]).
    - Round start ([RoundStart]): it terminates, it does not overflow on sums that fit,
      who participates and with how much, how far the locks can be from the cap.
    - Settlement ([Settlement]): conservation of USDC and wALN in a full settlement and in
      a forced close, and that a forced close does not fail on amounts that fit.
    - The AAT volumes ([Ledger]): one ledger of volumes is what the NFTs say, what the
      records copy and what the total sums up; so the volumes of the pool are small.
    - Progress: between rounds the next round can be started or has no eligible investor
      ([Ledger]); a round that has bought something can be closed when its cap is at least
      200 units ([Closing]), and [tiny_round_stuck] is a run with a smaller cap in which it
      can neither be closed nor cancelled.
    - Allocations ([AllocBook], [Operations]): the account written by a settlement is
      well formed, claiming from it refines a specification on finite maps, each
      allocation is paid once, in full, to its owner, and all of them can be claimed in
      any order until the account is closed.
    - The instructions of investors and sellers ([Operations]): their exact effects, and
      that withdrawals and claims the rules allow go through once the transfer does.
    - Access control ([Access]): who may change the configuration, how the admin changes,
      what the two switches stop and what freezing does not.
    - Allocations of AAT volume, the transfer hook's accounts and initialization
      ([Utils], [Params]).
    - The admin's client ([AdminCli]): the accounts it derives are the ones the program
      asks for, its setters do what they say, when it can remove an investor, and that
      what it prints of the accounts is what the program stored, the amounts printed
      through floating point to less than a unit of the last decimal.

    ** Bounds

    The eligibility loop of a round start runs with one pass more than there are records;
    [execute_round_start_terminates] shows that this is enough.  The binary search runs
    with the length of the list, which halves in every step.  Twenty digits print any
    [u64].  [powi] takes one step for each bit of its [i32].

    ** What is not modelled

    The runtime, Anchor and the token programs are parameters, as they are not part of
    the repository; so are the addresses and rent they compute, and the primitives of
    Borsh.  Compute budget, account-borrow conflicts and duplicate mutable accounts are
    left to the runtime.  Of the admin's client the parsing of the command line, key
    files, base58, the RPC node and the sending of transactions are libraries.  The
    TypeScript SDK, its tests and the deployment scripts are clients in another language. *)
From coqutil Require Import Datatypes.RecordSettersUsingExistingGetters.
From stdpp Require Import base gmap strings numbers sorting list.
#[local] Open Scope Z_scope.

(** Field updates [r <| f := v |>] reduce under the record's projections. *)
#[global] Arguments RecordSettersUsingExistingGetters.const {E} newValue _ /.

(** ** Results: Rust's [Result<T, E>] and its [?] operator *)

Inductive result (E A : Type) : Type :=
| Ok (a : A)
| Err (e : E).
Arguments Ok {E A} a.
Arguments Err {E A} e.

#[export] Instance result_eq_dec {E A} `{EqDecision E, EqDecision A} : EqDecision (result E A).
Proof. solve_decision. Defined.

#[export] Instance result_ret {E} : MRet (result E) := fun A a => Ok a.
#[export] Instance result_bind {E} : MBind (result E) :=
  fun A B f m => match m with Ok a => f a | Err e => Err e end.
#[export] Instance result_fmap {E} : FMap (result E) :=
  fun A B f m => match m with Ok a => Ok (f a) | Err e => Err e end.

(** [o.ok_or(e)] and [r.map_err(f)] *)
Definition ok_or {E A} (o : option A) (e : E) : result E A :=
  match o with Some a => Ok a | None => Err e end.

Definition map_err {E F A} (f : E -> F) (r : result E A) : result F A :=
  match r with Ok a => Ok a | Err e => Err (f e) end.

(** [require!(P, e)] *)
Definition require {E} (P : Prop) `{Decision P} (e : E) : result E unit :=
  if decide P then Ok tt else Err e.

(** A loop over a slice that threads an accumulator ([for x in xs.iter()]). *)
Fixpoint foldM {E S X} (f : S -> X -> result E S) (s : S) (l : list X) : result E S :=
  match l with
  | [] => Ok s
  | x :: l => s' ← f s x; foldM f s' l
  end.

(** A loop over a mutable slice: every element is replaced by the body's second
    result while an accumulator is threaded ([for x in xs.iter_mut()]). *)
Fixpoint mapAccM {E S X Y} (f : S -> X -> result E (S * Y)) (s : S) (l : list X)
  : result E (S * list Y) :=
  match l with
  | [] => Ok (s, [])
  | x :: l =>
      '(s1, y) ← f s x;
      '(s2, ys) ← mapAccM f s1 l;
      Ok (s2, y :: ys)
  end.

Section Results.
Context {E A B : Type}.

Lemma bind_ok (m : result E A) (f : A -> result E B) b :
  (m ≫= f) = Ok b <-> exists a, m = Ok a /\ f a = Ok b.
Proof. destruct m as [a|e]; simpl; split; naive_solver. Qed.

Lemma bind_err (m : result E A) (f : A -> result E B) e :
  (m ≫= f) = Err e <-> m = Err e \/ exists a, m = Ok a /\ f a = Err e.
Proof. destruct m as [a|e']; simpl; split; naive_solver. Qed.

Lemma require_ok (P : Prop) `{Decision P} (e : E) u : require P e = Ok u <-> P.
Proof. unfold require. destruct u. case_decide; naive_solver. Qed.

Lemma require_err (P : Prop) `{Decision P} (e e' : E) :
  require P e = Err e' <-> ~ P /\ e = e'.
Proof. unfold require. case_decide; naive_solver. Qed.

Lemma require_true (P : Prop) `{Decision P} (e : E) : P -> require P e = Ok tt.
Proof. intros. unfold require. by case_decide. Qed.

Lemma require_false (P : Prop) `{Decision P} (e : E) : ~ P -> require P e = Err e.
Proof. intros. unfold require. by case_decide. Qed.

Lemma ok_or_ok (o : option A) (e : E) a : ok_or o e = Ok a <-> o = Some a.
Proof. destruct o; simpl; naive_solver. Qed.

Lemma map_err_ok {F} (f : E -> F) (r : result E A) a : map_err f r = Ok a <-> r = Ok a.
Proof. destruct r; simpl; naive_solver. Qed.
End Results.

(** ** Loop rules

    [mapAccM_inv] is the partial-correctness rule of a mutable loop: the invariant
    speaks of the elements already visited, the accumulator and the elements already
    written.  [mapAccM_total] is the total one: the body never fails under it. *)
Section Loops.
Context {E S X Y : Type}.

Lemma mapAccM_inv_aux (P : list X -> S -> list Y -> Prop) (f : S -> X -> result E (S * Y)) l :
  (forall pre x s ys s' y, P pre s ys -> f s x = Ok (s', y) -> P (pre ++ [x]) s' (ys ++ [y])) ->
  forall pre s ys s' ys', P pre s ys -> mapAccM f s l = Ok (s', ys') -> P (pre ++ l) s' (ys ++ ys').
Proof.
  intros Hstep. induction l as [|x l IH]; intros pre s ys s' ys' HP; simpl; intros Hl.
  - simplify_eq. by rewrite !app_nil_r.
  - apply bind_ok in Hl as ([s1 y] & Hf & Hl).
    apply bind_ok in Hl as ([s2 ys2] & Hrec & Hl). simplify_eq.
    rewrite (cons_middle x pre l), (cons_middle y ys ys2), !app_assoc. eauto.
Qed.

Lemma mapAccM_inv (P : list X -> S -> list Y -> Prop) (f : S -> X -> result E (S * Y)) l s s' ys :
  P [] s [] ->
  (forall pre x s ys s' y, P pre s ys -> f s x = Ok (s', y) -> P (pre ++ [x]) s' (ys ++ [y])) ->
  mapAccM f s l = Ok (s', ys) -> P l s' ys.
Proof. intros H0 Hstep Hl. apply (mapAccM_inv_aux P f l Hstep [] s [] s' ys H0 Hl). Qed.

(** The same rule when the body's case depends on its place in the list. *)
Lemma mapAccM_inv_split (P : list X -> S -> list Y -> Prop) (f : S -> X -> result E (S * Y)) l s s' ys :
  P [] s [] ->
  (forall pre x post s ys s' y, l = pre ++ x :: post -> P pre s ys -> f s x = Ok (s', y) ->
     P (pre ++ [x]) s' (ys ++ [y])) ->
  mapAccM f s l = Ok (s', ys) -> P l s' ys.
Proof.
  intros H0 Hstep Hl.
  enough (forall l2 pre s ys s' ys', l = pre ++ l2 -> P pre s ys -> mapAccM f s l2 = Ok (s', ys') ->
    P l s' (ys ++ ys')) as Hgen by (apply (Hgen l [] s [] s' ys eq_refl H0 Hl)).
  clear s s' ys H0 Hl. induction l2 as [|x l2 IH]; intros pre s ys s' ys' Hpre HP Hl; simpl in Hl.
  - simplify_eq. by rewrite !app_nil_r in *.
  - apply bind_ok in Hl as ([s1 y] & Hf & Hl). apply bind_ok in Hl as ([s2 ys2] & Hrec & Hl).
    simplify_eq. rewrite (cons_middle y ys ys2), app_assoc.
    apply (IH (pre ++ [x]) s1 (ys ++ [y])); [by rewrite <- app_assoc|by eapply Hstep|done].
Qed.

Lemma mapAccM_total_aux (P : list X -> S -> list Y -> Prop) (f : S -> X -> result E (S * Y)) l :
  forall pre s ys,
  (forall pre' x post s ys, pre ++ l = pre' ++ x :: post -> P pre' s ys ->
     exists s' y, f s x = Ok (s', y) /\ P (pre' ++ [x]) s' (ys ++ [y])) ->
  P pre s ys -> exists s' ys', mapAccM f s l = Ok (s', ys') /\ P (pre ++ l) s' (ys ++ ys').
Proof.
  induction l as [|x l IH]; intros pre s ys Hstep HP; simpl.
  - exists s, []. by rewrite !app_nil_r.
  - destruct (Hstep pre x l s ys eq_refl HP) as (s1 & y & Hf & HP1).
    destruct (IH (pre ++ [x]) s1 (ys ++ [y])) as (s2 & ys2 & Hrec & HP2); [|done|].
    { intros pre' x' post s' ys'. rewrite <- app_assoc. apply Hstep. }
    exists s2, (y :: ys2). rewrite Hf; simpl. rewrite Hrec; simpl.
    split; [done|]. by rewrite <- !app_assoc in HP2.
Qed.

Lemma mapAccM_total (P : list X -> S -> list Y -> Prop) (f : S -> X -> result E (S * Y)) l s :
  P [] s [] ->
  (forall pre x post s ys, l = pre ++ x :: post -> P pre s ys ->
     exists s' y, f s x = Ok (s', y) /\ P (pre ++ [x]) s' (ys ++ [y])) ->
  exists s' ys, mapAccM f s l = Ok (s', ys) /\ P l s' ys.
Proof. intros H0 Hstep. apply (mapAccM_total_aux P f l [] s []); [apply Hstep|done]. Qed.

Lemma mapAccM_err (f : S -> X -> result E (S * Y)) l s e :
  mapAccM f s l = Err e -> exists s' x, x ∈ l /\ f s' x = Err e.
Proof.
  revert s. induction l as [|x l IH]; intros s; simpl; [done|]. intros Hl.
  apply bind_err in Hl as [Hx|([s1 y] & _ & Hl)]; [exists s, x; by split; [left|]|].
  apply bind_err in Hl as [Hrec|([s2 ys] & _ & Hl)]; [|done].
  destruct (IH s1 Hrec) as (s' & x' & ? & ?). exists s', x'. by split; [right|].
Qed.

Lemma foldM_err (f : S -> X -> result E S) l s e :
  foldM f s l = Err e -> exists s' x, x ∈ l /\ f s' x = Err e.
Proof.
  revert s. induction l as [|x l IH]; intros s; simpl; [done|]. intros Hl.
  apply bind_err in Hl as [Hx|(s1 & _ & Hl)]; [exists s, x; by split; [left|]|].
  destruct (IH s1 Hl) as (s' & x' & ? & ?). exists s', x'. by split; [right|].
Qed.

Lemma mapAccM_Forall (P : X -> Prop) (Q : Y -> Prop) (f : S -> X -> result E (S * Y)) l s s' ys :
  (forall s x s' y, P x -> f s x = Ok (s', y) -> Q y) ->
  Forall P l -> mapAccM f s l = Ok (s', ys) -> Forall Q ys.
Proof.
  intros Hstep Hl. revert s ys. induction Hl as [|x l Hx _ IH]; intros s ys; cbn; intros Hf.
  - by injection Hf as <- <-.
  - apply bind_ok in Hf as ([s1 y] & Hy & Hf). apply bind_ok in Hf as ([s2 ys2] & Hf & Heq).
    injection Heq as <- <-. constructor; eauto.
Qed.

(** A loop whose body keeps something of every element. *)
Lemma mapAccM_map {B} (g : X -> B) (h : Y -> B) (f : S -> X -> result E (S * Y)) l s s' ys :
  (forall s x s' y, f s x = Ok (s', y) -> h y = g x) ->
  mapAccM f s l = Ok (s', ys) -> h <$> ys = g <$> l.
Proof.
  intros Hstep. apply (mapAccM_inv (fun pre _ ys => h <$> ys = g <$> pre)); [done|].
  intros pre x s0 ys0 s1 y Heq Hx. rewrite !fmap_app, Heq. cbn. by rewrite (Hstep _ _ _ _ Hx).
Qed.

Lemma mapAccM_elem (f : S -> X -> result E (S * Y)) l s s' ys x :
  x ∈ l -> mapAccM f s l = Ok (s', ys) -> exists s1 s2 y, f s1 x = Ok (s2, y) /\ y ∈ ys.
Proof.
  intros Hx. revert s ys. induction Hx as [|x z l Hx IH]; intros s ys Hl; cbn in Hl;
    apply bind_ok in Hl as ([s1 y] & Hy & Hl); apply bind_ok in Hl as ([s2 ys2] & Hl & Heq);
    injection Heq as <- <-.
  - exists s, s1, y. by split; [|left].
  - destruct (IH _ _ Hl) as (s3 & s4 & y' & ? & ?). exists s3, s4, y'. by split; [|right].
Qed.

Lemma mapAccM_length (f : S -> X -> result E (S * Y)) l s s' ys :
  mapAccM f s l = Ok (s', ys) -> length ys = length l.
Proof.
  apply (mapAccM_inv (fun pre _ ys => length ys = length pre)); [done|].
  intros. rewrite !length_app; simpl; lia.
Qed.

Lemma foldM_inv (P : list X -> S -> Prop) (f : S -> X -> result E S) l s s' :
  P [] s ->
  (forall pre x s s', P pre s -> f s x = Ok s' -> P (pre ++ [x]) s') ->
  foldM f s l = Ok s' -> P l s'.
Proof.
  intros H0 Hstep.
  cut (forall pre s, P pre s -> foldM f s l = Ok s' -> P (pre ++ l) s').
  { intros H. apply (H [] s H0). }
  clear s H0. intros pre s. revert pre s.
  induction l as [|x l IH]; intros pre s HP; simpl; intros Hl.
  - simplify_eq. by rewrite app_nil_r.
  - apply bind_ok in Hl as (s1 & Hf & Hl). rewrite (cons_middle x pre l), app_assoc. eauto.
Qed.

Lemma foldM_total (P : list X -> S -> Prop) (f : S -> X -> result E S) l s :
  P [] s ->
  (forall pre x post s, l = pre ++ x :: post -> P pre s ->
     exists s', f s x = Ok s' /\ P (pre ++ [x]) s') ->
  exists s', foldM f s l = Ok s' /\ P l s'.
Proof.
  intros H0 Hstep.
  cut (forall l2 l1 s, l = l1 ++ l2 -> P l1 s -> exists s', foldM f s l2 = Ok s' /\ P l s').
  { intros H. apply (H l [] s eq_refl H0). }
  clear s H0. induction l2 as [|x l2 IH]; intros l1 s Hl HP; simpl.
  - rewrite app_nil_r in Hl. subst. eauto.
  - destruct (Hstep l1 x l2 s Hl HP) as (s1 & Hf & HP1).
    destruct (IH (l1 ++ [x]) s1) as (s' & Hs & HP'); [by rewrite <- app_assoc|done|].
    exists s'. by rewrite Hf.
Qed.
End Loops.

(** ** Errors

    [errs P m]: whatever error [m] fails with satisfies [P].  The rules follow the
    structure of the computation; [errs] applies them. *)
Definition errs {E A} (P : E -> Prop) (m : result E A) : Prop := forall e, m = Err e -> P e.

Section Errs.
Context {E : Type} (P : E -> Prop).

Lemma errs_ok {A} (a : A) : errs P (Ok a).
Proof. intros e [=]. Qed.
Lemma errs_impl {A} (Q : E -> Prop) (m : result E A) : (forall e, Q e -> P e) -> errs Q m -> errs P m.
Proof. unfold errs. auto. Qed.
Lemma errs_err {A} e : P e -> errs P (Err e : result E A).
Proof. by intros He e' [= <-]. Qed.
Lemma errs_bind {A B} (m : result E A) (f : A -> result E B) :
  errs P m -> (forall a, m = Ok a -> errs P (f a)) -> errs P (m ≫= f).
Proof. intros Hm Hf e [Hx|(a & Ha & Hx)]%bind_err; [by apply Hm|by eapply Hf]. Qed.
Lemma errs_require (Q : Prop) `{Decision Q} e : P e -> errs P (require Q e).
Proof. by intros He e' [_ <-]%require_err. Qed.
Lemma errs_ok_or {A} (o : option A) e : P e -> errs P (ok_or o e).
Proof. destruct o; [intros; apply errs_ok|apply errs_err]. Qed.
Lemma errs_ok_or_some {A} (o : option A) e : is_Some o -> errs P (ok_or o e).
Proof. intros [a ->]. apply errs_ok. Qed.
Lemma errs_mapAccM {S X Y} (f : S -> X -> result E (S * Y)) l s :
  (forall s x, x ∈ l -> errs P (f s x)) -> errs P (mapAccM f s l).
Proof. intros Hf e (s' & x & Hx & He)%mapAccM_err. by eapply Hf. Qed.
Lemma errs_foldM {S X} (f : S -> X -> result E S) l s :
  (forall s x, x ∈ l -> errs P (f s x)) -> errs P (foldM f s l).
Proof. intros Hf e (s' & x & Hx & He)%foldM_err. by eapply Hf. Qed.
End Errs.

(** ** Machine integers

    A Rust integer of type [ty] is the mathematical integer it denotes; the type only
    says which values it can hold.  [checked_*] are the standard library's methods. *)

Inductive int_ty := U8 | U32 | U64 | U128 | I64.

Definition int_min (ty : int_ty) : Z :=
  match ty with I64 => -9223372036854775808 | _ => 0 end.

Definition int_max (ty : int_ty) : Z :=
  match ty with
  | U8 => 255
  | U32 => 4294967295
  | U64 => 18446744073709551615
  | U128 => 340282366920938463463374607431768211455
  | I64 => 9223372036854775807
  end.

Definition in_range (ty : int_ty) (z : Z) : Prop := int_min ty <= z <= int_max ty.
#[export] Instance in_range_dec ty z : Decision (in_range ty z).
Proof. unfold in_range. apply _. Defined.

Definition u64_max : Z := int_max U64.

Definition checked (ty : int_ty) (z : Z) : option Z :=
  if decide (in_range ty z) then Some z else None.

Definition checked_add (ty : int_ty) (a b : Z) : option Z := checked ty (a + b).
Definition checked_sub (ty : int_ty) (a b : Z) : option Z := checked ty (a - b).
Definition checked_mul (ty : int_ty) (a b : Z) : option Z := checked ty (a * b).
(** Unsigned division: [None] for a zero divisor. *)
Definition checked_div (ty : int_ty) (a b : Z) : option Z :=
  if decide (b = 0) then None else checked ty (a / b).

Definition saturating_sub (ty : int_ty) (a b : Z) : Z := Z.max (int_min ty) (a - b).

(** [z as uN]: reduction modulo the width. *)
Definition as_unsigned (ty : int_ty) (z : Z) : Z := z mod (int_max ty + 1).

Lemma checked_Some ty z v : checked ty z = Some v <-> v = z /\ in_range ty z.
Proof. unfold checked. case_decide; naive_solver. Qed.

Lemma checked_div_Some ty a b v :
  checked_div ty a b = Some v <-> b <> 0 /\ v = a / b /\ in_range ty (a / b).
Proof. unfold checked_div. case_decide; [naive_solver|]. rewrite checked_Some. naive_solver. Qed.

Lemma checked_in ty z : in_range ty z -> checked ty z = Some z.
Proof. intros. by apply checked_Some. Qed.

Lemma checked_div_in ty a b : b <> 0 -> in_range ty (a / b) -> checked_div ty a b = Some (a / b).
Proof. intros. by apply checked_div_Some. Qed.

Ltac unfold_range := unfold u64_max, in_range, int_min, int_max in *.

(** ** Little-endian encoding ([to_le_bytes] and its inverse) *)

Fixpoint le_bytes (n : nat) (z : Z) : list Z :=
  match n with
  | O => []
  | S n => z mod 256 :: le_bytes n (z / 256)
  end.

Fixpoint le_value (l : list Z) : Z :=
  match l with
  | [] => 0
  | b :: l => b + 256 * le_value l
  end.

Lemma length_le_bytes n z : length (le_bytes n z) = n.
Proof. revert z. induction n as [|n IH]; intros z; simpl; [done|]. by rewrite IH. Qed.

Lemma le_value_bytes n z : le_value (le_bytes n z) = z mod 256 ^ Z.of_nat n.
Proof.
  revert z. induction n as [|n IH]; intros z.
  - simpl. by rewrite Z.mod_1_r.
  - cbn [le_bytes le_value]. rewrite IH, Nat2Z.inj_succ, Z.pow_succ_r by lia.
    rewrite Z.rem_mul_r by lia. lia.
Qed.

Lemma le_bytes8_roundtrip z : in_range U64 z -> le_value (le_bytes 8 z) = z.
Proof.
  intros H. rewrite le_value_bytes. unfold_range.
  change (256 ^ Z.of_nat 8) with 18446744073709551616. apply Z.mod_small. lia.
Qed.

Lemma le_bytes8_inj a b :
  in_range U64 a -> in_range U64 b -> le_bytes 8 a = le_bytes 8 b -> a = b.
Proof.
  intros Ha Hb Heq. rewrite <- (le_bytes8_roundtrip a), <- (le_bytes8_roundtrip b) by done.
  by rewrite Heq.
Qed.

(** ** Sums over a list *)

Definition sumZ {A} (f : A -> Z) (l : list A) : Z := foldr (fun x acc => f x + acc) 0 l.

Section Sums.
Context {A : Type}.
Implicit Types (f g : A -> Z) (l : list A).

Lemma sumZ_nil f : sumZ f [] = 0.
Proof. done. Qed.
Lemma sumZ_cons f x l : sumZ f (x :: l) = f x + sumZ f l.
Proof. done. Qed.
Lemma sumZ_app f l1 l2 : sumZ f (l1 ++ l2) = sumZ f l1 + sumZ f l2.
Proof. induction l1 as [|x l1 IH]; simpl; rewrite ?sumZ_cons; [done|]. lia. Qed.
Lemma sumZ_snoc f l x : sumZ f (l ++ [x]) = sumZ f l + f x.
Proof. rewrite sumZ_app. simpl. lia. Qed.

#[export] Instance sumZ_perm f : Proper ((≡ₚ) ==> (=)) (sumZ f).
Proof. induction 1; rewrite ?sumZ_cons; lia. Qed.

Lemma sumZ_ext f g l : (forall x, x ∈ l -> f x = g x) -> sumZ f l = sumZ g l.
Proof.
  induction l as [|x l IH]; intros H; [done|]. rewrite !sumZ_cons, (H x), IH; [done| |left].
  intros y Hy. apply H. by right.
Qed.
Lemma sumZ_le f g l : (forall x, x ∈ l -> f x <= g x) -> sumZ f l <= sumZ g l.
Proof.
  induction l as [|x l IH]; intros H; [done|]. rewrite !sumZ_cons.
  pose proof (H x (list_elem_of_here _ _)).
  assert (sumZ f l <= sumZ g l) by (apply IH; intros y Hy; apply H; by right). lia.
Qed.
Lemma sumZ_add f g l : sumZ (fun x => f x + g x) l = sumZ f l + sumZ g l.
Proof. induction l as [|x l IH]; [done|]. rewrite !sumZ_cons, IH. lia. Qed.
Lemma sumZ_scale c f l : sumZ (fun x => c * f x) l = c * sumZ f l.
Proof. induction l as [|x l IH]; [simpl; lia|]. rewrite !sumZ_cons, IH. lia. Qed.
Lemma sumZ_const c l : sumZ (fun _ => c) l = c * Z.of_nat (length l).
Proof. induction l as [|x l IH]; [simpl; lia|]. rewrite sumZ_cons, IH. simpl length. lia. Qed.
Lemma sumZ_zero f l : (forall x, x ∈ l -> f x = 0) -> sumZ f l = 0.
Proof. intros H. rewrite (sumZ_ext f (fun _ => 0)) by done. rewrite sumZ_const. lia. Qed.
Lemma sumZ_nonneg f l : (forall x, x ∈ l -> 0 <= f x) -> 0 <= sumZ f l.
Proof.
  intros H. replace 0 with (sumZ (fun _ => 0) l) by (rewrite sumZ_const; lia).
  by apply sumZ_le.
Qed.
Lemma sumZ_elem f l x : (forall y, y ∈ l -> 0 <= f y) -> x ∈ l -> f x <= sumZ f l.
Proof.
  intros Hnn Hx. apply list_elem_of_split in Hx as (l1 & l2 & ->).
  rewrite sumZ_app, sumZ_cons.
  assert (0 <= sumZ f l1) by (apply sumZ_nonneg; intros; apply Hnn; set_solver).
  assert (0 <= sumZ f l2) by (apply sumZ_nonneg; intros; apply Hnn; set_solver). lia.
Qed.
Lemma sumZ_insert f l i x y :
  l !! i = Some x -> sumZ f (<[i:=y]> l) = sumZ f l - f x + f y.
Proof.
  revert i. induction l as [|z l IH]; intros [|i] H; simplify_eq/=; [lia|].
  rewrite (IH _ H). lia.
Qed.
Lemma sumZ_filter f (P : A -> Prop) `{forall x, Decision (P x)} l :
  (forall x, x ∈ l -> ~ P x -> f x = 0) -> sumZ f (filter P l) = sumZ f l.
Proof.
  induction l as [|x l IH]; intros Hz; [done|].
  assert (sumZ f (filter P l) = sumZ f l) as IH' by (apply IH; intros y Hy; apply Hz; by right).
  rewrite filter_cons. case_decide as HP; rewrite ?sumZ_cons, ?IH'; [done|].
  rewrite (Hz x); [lia|left|done].
Qed.
Lemma sumZ_filter_le f (P : A -> Prop) `{forall x, Decision (P x)} l :
  (forall x, x ∈ l -> 0 <= f x) -> sumZ f (filter P l) <= sumZ f l.
Proof.
  induction l as [|x l IH]; intros Hf; [done|].
  assert (sumZ f (filter P l) <= sumZ f l) by (apply IH; intros y Hy; apply Hf; by right).
  pose proof (Hf x ltac:(by left)). rewrite filter_cons. case_decide; rewrite ?sumZ_cons; lia.
Qed.
End Sums.

Lemma sumZ_map {A B} (h : A -> B) (f : B -> Z) (l : list A) :
  sumZ f (map h l) = sumZ (fun x => f (h x)) l.
Proof. induction l as [|x l IH]; [done|]. simpl map. by rewrite !sumZ_cons, IH. Qed.

Lemma sumZ_Forall2 {A B} (f : A -> Z) (g : B -> Z) l k :
  Forall2 (fun x y => f x = g y) l k -> sumZ f l = sumZ g k.
Proof. induction 1 as [|x y l k Hxy _ IH]; [done|]. by rewrite !sumZ_cons, Hxy, IH. Qed.

Lemma sumZ_lookup {A B} (f : A -> Z) (g : B -> Z) l k :
  length l = length k ->
  (forall i x y, l !! i = Some x -> k !! i = Some y -> f x = g y) -> sumZ f l = sumZ g k.
Proof. intros Hlen Heq. apply sumZ_Forall2, Forall2_same_length_lookup_2; eauto. Qed.

Lemma Forall2_snoc {A B} (P : A -> B -> Prop) l k x y :
  Forall2 P l k -> P x y -> Forall2 P (l ++ [x]) (k ++ [y]).
Proof. intros. apply Forall2_app; [done|]. by constructor. Qed.

Lemma Forall_snoc {A} (P : A -> Prop) l x : Forall P (l ++ [x]) <-> Forall P l /\ P x.
Proof. by rewrite Forall_app, Forall_singleton. Qed.

(** An element and its replacement, up to order. *)
Lemma insert_perm {A} (l : list A) i x :
  l !! i = Some x -> exists rest, l ≡ₚ x :: rest /\ forall y, <[i := y]> l ≡ₚ y :: rest.
Proof.
  intros Hi. apply list_elem_of_split_length in Hi as (l1 & l2 & -> & ->).
  exists (l1 ++ l2). split; [by rewrite Permutation_middle|]. intros y.
  rewrite insert_app_r_alt, Nat.sub_diag by lia. cbn. by rewrite Permutation_middle.
Qed.

(** Overwriting the value at one key of an association list without duplicates. *)
Lemma list_to_map_update `{Countable K} {A} (l : list (K * A)) i k v v' :
  NoDup l.*1 -> l !! i = Some (k, v) ->
  (list_to_map (<[i := (k, v')]> l) : gmap K A) = <[k := v']> (list_to_map l).
Proof.
  intros Hnd Hi. apply list_elem_of_split_length in Hi as (l1 & l2 & -> & ->).
  rewrite insert_app_r_alt by lia. rewrite Nat.sub_diag. simpl.
  assert (NoDup ((k, v) :: l1 ++ l2).*1) as Hnd' by (by rewrite Permutation_middle).
  rewrite <- (list_to_map_proper ((k, v) :: l1 ++ l2) (l1 ++ (k, v) :: l2)) by (done || apply Permutation_middle).
  rewrite <- (list_to_map_proper ((k, v') :: l1 ++ l2) (l1 ++ (k, v') :: l2)) by (done || apply Permutation_middle).
  simpl. by rewrite insert_insert_eq.
Qed.

(** ** Sums over maps *)

Definition sumM `{Countable K} {A} (f : A -> Z) (m : gmap K A) : Z :=
  sumZ (fun kx : K * A => f kx.2) (map_to_list m).

Section SumM.
Context `{Countable K} {A : Type} (f : A -> Z).
Implicit Types m : gmap K A.

Lemma sumM_empty : sumM f (∅ : gmap K A) = 0.
Proof. unfold sumM. by rewrite map_to_list_empty. Qed.

Lemma sumM_insert m k x : m !! k = None -> sumM f (<[k := x]> m) = sumM f m + f x.
Proof. intros Hk. unfold sumM. rewrite map_to_list_insert by done. rewrite sumZ_cons. cbn. lia. Qed.

Lemma sumM_delete m k x : m !! k = Some x -> sumM f (delete k m) = sumM f m - f x.
Proof.
  intros Hk. rewrite <- (insert_delete_id m k x Hk) at 2.
  rewrite sumM_insert by apply lookup_delete_eq. lia.
Qed.

Lemma sumM_update m k x y : m !! k = Some x -> sumM f (<[k := y]> m) = sumM f m - f x + f y.
Proof.
  intros Hk. rewrite <- insert_delete_eq, sumM_insert by apply lookup_delete_eq.
  rewrite (sumM_delete _ _ x) by done. lia.
Qed.

Lemma sumM_nonneg m : (forall k x, m !! k = Some x -> 0 <= f x) -> 0 <= sumM f m.
Proof. intros Hnn. apply sumZ_nonneg. intros [k x] Hx%elem_of_map_to_list. by apply (Hnn k). Qed.

Lemma sumM_elem m k x :
  (forall k x, m !! k = Some x -> 0 <= f x) -> m !! k = Some x -> f x <= sumM f m.
Proof.
  intros Hnn Hk. apply (sumZ_elem (fun kx : K * A => f kx.2) _ (k, x)); [|by apply elem_of_map_to_list].
  intros [k' x'] Hx%elem_of_map_to_list. by apply (Hnn k').
Qed.

(** Distinct entries of a map add up to no more than the map. *)
Lemma sumM_le_list m (l : list (K * A)) :
  NoDup l.*1 -> (forall kx, kx ∈ l -> m !! kx.1 = Some kx.2) ->
  (forall k x, m !! k = Some x -> 0 <= f x) -> sumZ (fun kx => f kx.2) l <= sumM f m.
Proof.
  revert m. induction l as [|[k x] l IH]; intros m Hnd Hl Hnn; [by apply sumM_nonneg|].
  cbn in Hnd. apply NoDup_cons in Hnd as [Hk Hnd]. rewrite sumZ_cons. cbn.
  pose proof (Hl (k, x) (list_elem_of_here _ _)) as Hm. cbn in Hm.
  assert (sumZ (fun kx => f kx.2) l <= sumM f (delete k m)) as Hle.
  { apply IH; [done| |].
    - intros [k' x'] Hin. cbn. rewrite lookup_delete_ne; [by apply (Hl (k', x')); right|].
      intros ->. apply Hk. by apply (list_elem_of_fmap_2 fst) in Hin.
    - intros k' x' [_ Hx]%lookup_delete_Some. by apply (Hnn k'). }
  rewrite (sumM_delete m k x Hm) in Hle. lia.
Qed.
End SumM.

(** ** Floor division *)

Lemma div_mul_le a b : 0 < b -> a / b * b <= a.
Proof. intros. pose proof (Z.mul_div_le a b). lia. Qed.

Lemma div_mul_gt a b : 0 < b -> a < (a / b + 1) * b.
Proof. intros. pose proof (Z.mul_succ_div_gt a b). lia. Qed.

Lemma div_pos_bound a b : 0 <= a -> 0 < b -> 0 <= a / b <= a.
Proof. intros. split; [by apply Z.div_pos|]. apply Z.div_le_upper_bound; nia. Qed.

(** Floors are superadditive: splitting a dividend loses at most one unit per part. *)
Lemma sumZ_div_le {A} (f : A -> Z) (d : Z) (l : list A) :
  0 < d -> sumZ (fun x => f x / d) l * d <= sumZ f l.
Proof.
  intros Hd. induction l as [|x l IH]; [done|]. rewrite !sumZ_cons.
  pose proof (div_mul_le (f x) d Hd). lia.
Qed.

(** ... and at most [d - 1] of the dividend, over [d], per part that is not zero. *)
Lemma sumZ_div_gt {A} (f w : A -> Z) (d : Z) (l : list A) :
  0 < d -> (forall x, w x = 1 \/ w x = 0 /\ f x = 0) ->
  sumZ f l <= sumZ (fun x => f x / d) l * d + (d - 1) * sumZ w l.
Proof.
  intros Hd Hw. induction l as [|x l IH]; [simpl; lia|]. rewrite !sumZ_cons.
  destruct (Hw x) as [->|[-> ->]].
  - pose proof (div_mul_gt (f x) d Hd). lia.
  - rewrite Z.div_0_l by lia. lia.
Qed.

#[global] Arguments sumZ : simpl never.

(** ** Automation *)

(** [inv_ok] runs a successful computation backwards, one [?] at a time. *)
Ltac inv_ok_step :=
  match goal with
  | H : Ok _ = Ok _ |- _ => injection H as H; try subst
  | H : Err _ = Ok _ |- _ => discriminate H
  | H : Ok _ = Err _ |- _ => discriminate H
  | H : Some _ = Some _ |- _ => injection H as H; try subst
  | H : None = Some _ |- _ => discriminate H
  | H : (_, _) = (_, _) |- _ => injection H as; try subst
  | H : mret _ = Ok _ |- _ => injection H as H; try subst
  | H : (_ ≫= _) = Ok _ |- _ => apply bind_ok in H as (? & ? & H)
  | H : require _ _ = Ok _ |- _ => apply require_ok in H
  | H : ok_or _ _ = Ok _ |- _ => apply ok_or_ok in H
  | H : map_err _ _ = Ok _ |- _ => apply map_err_ok in H
  | H : checked_add _ _ _ = Some _ |- _ => apply checked_Some in H as [? ?]; try subst
  | H : checked_sub _ _ _ = Some _ |- _ => apply checked_Some in H as [? ?]; try subst
  | H : checked_mul _ _ _ = Some _ |- _ => apply checked_Some in H as [? ?]; try subst
  | H : checked _ _ = Some _ |- _ => apply checked_Some in H as [? ?]; try subst
  | H : checked_div _ _ _ = Some _ |- _ => apply checked_div_Some in H as (? & ? & ?); try subst
  | H : (let (_, _) := ?p in _) = Ok _ |- _ => destruct p eqn:?
  | H : (match ?p with (_, _) => _ end) = Ok _ |- _ => destruct p eqn:?
  end.
Ltac inv_ok := repeat (inv_ok_step; cbn beta iota in *).

(** [range] closes side conditions on machine integers. *)
Ltac range := unfold_range; try lia; try nia.

(** [by_decide] evaluates a decidable closed goal. *)
Ltac by_decide := refine (bool_decide_unpack _ _); vm_compute; exact I.

(** [errs] walks through a computation; the hint database [errs] has the operations. *)
Create HintDb errs discriminated.
#[export] Hint Resolve errs_ok : errs.
Ltac errs_step :=
  match goal with
  | |- errs _ (_ ≫= _) => apply errs_bind; [|intros ? ?]
  | |- errs _ (require _ _) => apply errs_require; done
  | |- errs _ (Err _) => apply errs_err; done
  | |- errs _ (ok_or _ _) => apply errs_ok_or; done
  | |- errs _ (match ?x with _ => _ end) => destruct x eqn:?
  | |- errs _ _ => solve [eauto 3 with errs]
  end.
Ltac errs := repeat (errs_step; cbn beta iota zeta).

Create HintDb floor discriminated.
#[export] Hint Resolve sumZ_nonneg div_mul_le div_mul_gt Forall2_snoc : floor.
#[export] Hint Rewrite @sumZ_nil @sumZ_cons @sumZ_app @sumZ_snoc : floor.
