(* ===== verification/State.v ===== *)
(** * Data of the program: [errors.rs], [seeds.rs], [state.rs]

    Every struct is a [Record] with the source's fields, prefixed by the struct's
    initials; integers are [Z] constrained to their width by the well-formedness
    predicates of the components that use them, byte strings are [list Z], and
    [Vec]s and slices are lists.  [R] is the program's [Result<T>]. *)
From coqutil Require Import Datatypes.RecordSettersUsingExistingGetters.
From stdpp Require Import base gmap strings numbers list.
From S2P Require Import Prelude.
#[local] Open Scope Z_scope.

(** ** Errors ([errors.rs]) *)

Inductive FloorError :=
| SellPaused
| ContractFrozen
| ZeroAmount
| InsufficientFunds
| NotYetUnlocked
| AlreadyClaimed
| ArithmeticOverflow
| InvalidInvestor
| NoEligibleInvestors
| InvalidAatNft
| InvalidRemainingAccounts
| Unauthorized
| InvalidMintAccountSpace
| InvalidMint
| InvalidParameter
| WalnAllocationLimitExceeded
| InvestorPoolFull
| InvalidHookAccountsCount
| InvalidHookAccounts
| NotPendingAdmin
| NoPendingAdmin
| UsdcLocked
| SellLeavesUnpayableDust
| SellAmountTooSmall
| InvestorNotInactive
| ZeroAatAllocation
| FundsLocked
| NoAatNft.

(** The violations Anchor reports for the account attributes of the source
    ([seeds], [address], [token::*], [associated_token::*], loading an account). *)
Inductive AnchorError :=
| ConstraintSeeds
| ConstraintAddress
| ConstraintTokenMint
| ConstraintTokenOwner
| ConstraintTokenTokenProgram
| ConstraintAssociated
| AccountNotInitialized
| InvalidProgramId.

(** What an instruction can fail with.  [Panic] is an abort: an out-of-range index or
    slice, or an overflow of unchecked arithmetic ([overflow-checks = true]).
    [ProgramError] is an error of another program or of the Solana library.  [OutOfFuel]
    is the marker of a loop bound of the model; it is proved unreachable. *)
Inductive Error :=
| Floor (e : FloorError)
| Anchor (e : AnchorError)
| ProgramError (code : Z)
| Panic
| OutOfFuel.

#[export] Instance FloorError_eq_dec : EqDecision FloorError.
Proof. solve_decision. Defined.
#[export] Instance AnchorError_eq_dec : EqDecision AnchorError.
Proof. solve_decision. Defined.
#[export] Instance Error_eq_dec : EqDecision Error.
Proof. solve_decision. Defined.

Notation R := (result Error).

(** [require!(P, FloorError::e)] *)
Notation ensure P e := (require P (Floor e)).

(** The two idioms of checked arithmetic in the handlers:
    [.checked_op(..).ok_or(FloorError::ArithmeticOverflow)?] and
    [uN::try_from(..).map_err(|_| FloorError::ArithmeticOverflow)?]. *)
Definition cadd (ty : int_ty) (a b : Z) : R Z := ok_or (checked_add ty a b) (Floor ArithmeticOverflow).
Definition csub (ty : int_ty) (a b : Z) : R Z := ok_or (checked_sub ty a b) (Floor ArithmeticOverflow).
Definition cmul (ty : int_ty) (a b : Z) : R Z := ok_or (checked_mul ty a b) (Floor ArithmeticOverflow).
Definition cdiv (ty : int_ty) (a b : Z) : R Z := ok_or (checked_div ty a b) (Floor ArithmeticOverflow).
Definition try_from (ty : int_ty) (z : Z) : R Z := ok_or (checked ty z) (Floor ArithmeticOverflow).

(** [10_u128.pow(d as u32)]: unchecked, so an overflow aborts. *)
Definition pow10_u128 (d : Z) : R Z := ok_or (checked U128 (10 ^ d)) Panic.

(** [&xs[..n]]: a slice beyond the end aborts. *)
Definition slice_to {A} (n : nat) (l : list A) : R (list A) :=
  if decide (n <= length l)%nat then Ok (take n l) else Err Panic.

Section Arith.
Implicit Types (a b v : Z) (ty : int_ty).
Lemma cadd_ok ty a b v : cadd ty a b = Ok v <-> v = a + b /\ in_range ty (a + b).
Proof. unfold cadd, checked_add. by rewrite ok_or_ok, checked_Some. Qed.
Lemma csub_ok ty a b v : csub ty a b = Ok v <-> v = a - b /\ in_range ty (a - b).
Proof. unfold csub, checked_sub. by rewrite ok_or_ok, checked_Some. Qed.
Lemma cmul_ok ty a b v : cmul ty a b = Ok v <-> v = a * b /\ in_range ty (a * b).
Proof. unfold cmul, checked_mul. by rewrite ok_or_ok, checked_Some. Qed.
Lemma cdiv_ok ty a b v : cdiv ty a b = Ok v <-> b <> 0 /\ v = a / b /\ in_range ty (a / b).
Proof. unfold cdiv. by rewrite ok_or_ok, checked_div_Some. Qed.
Lemma try_from_ok ty a v : try_from ty a = Ok v <-> v = a /\ in_range ty a.
Proof. unfold try_from. by rewrite ok_or_ok, checked_Some. Qed.

Lemma cadd_in ty a b : in_range ty (a + b) -> cadd ty a b = Ok (a + b).
Proof. intros. by apply cadd_ok. Qed.
Lemma csub_in ty a b : in_range ty (a - b) -> csub ty a b = Ok (a - b).
Proof. intros. by apply csub_ok. Qed.
Lemma cmul_in ty a b : in_range ty (a * b) -> cmul ty a b = Ok (a * b).
Proof. intros. by apply cmul_ok. Qed.
Lemma cdiv_in ty a b : b <> 0 -> in_range ty (a / b) -> cdiv ty a b = Ok (a / b).
Proof. intros. by apply cdiv_ok. Qed.
Lemma try_from_in ty a : in_range ty a -> try_from ty a = Ok a.
Proof. intros. by apply try_from_ok. Qed.

Lemma cadd_err ty a b e : cadd ty a b = Err e -> e = Floor ArithmeticOverflow.
Proof. unfold cadd. destruct (checked_add _ _ _); naive_solver. Qed.
Lemma csub_err ty a b e : csub ty a b = Err e -> e = Floor ArithmeticOverflow.
Proof. unfold csub. destruct (checked_sub _ _ _); naive_solver. Qed.
Lemma cmul_err ty a b e : cmul ty a b = Err e -> e = Floor ArithmeticOverflow.
Proof. unfold cmul. destruct (checked_mul _ _ _); naive_solver. Qed.
Lemma cdiv_err ty a b e : cdiv ty a b = Err e -> e = Floor ArithmeticOverflow.
Proof. unfold cdiv. destruct (checked_div _ _ _); naive_solver. Qed.
Lemma try_from_err ty a e : try_from ty a = Err e -> e = Floor ArithmeticOverflow.
Proof. unfold try_from. destruct (checked _ _); naive_solver. Qed.

Lemma errs_overflow {A} (P : Error -> Prop) (m : R A) :
  P (Floor ArithmeticOverflow) -> (forall e, m = Err e -> e = Floor ArithmeticOverflow) -> errs P m.
Proof. intros HP Hm e ->%Hm. done. Qed.

Lemma pow10_u128_ok d v : pow10_u128 d = Ok v <-> v = 10 ^ d /\ in_range U128 (10 ^ d).
Proof. unfold pow10_u128. by rewrite ok_or_ok, checked_Some. Qed.

Lemma slice_to_ok {A} n (l l' : list A) :
  slice_to n l = Ok l' <-> (n <= length l)%nat /\ l' = take n l.
Proof. unfold slice_to. case_decide; naive_solver. Qed.
End Arith.

#[export] Hint Resolve cadd_err csub_err cmul_err cdiv_err try_from_err : floor.

(** [inv_arith] extends [inv_ok] with the checked arithmetic of the handlers. *)
Ltac inv_arith_step :=
  match goal with
  | H : cadd _ _ _ = Ok _ |- _ => apply cadd_ok in H as [? ?]; try subst
  | H : csub _ _ _ = Ok _ |- _ => apply csub_ok in H as [? ?]; try subst
  | H : cmul _ _ _ = Ok _ |- _ => apply cmul_ok in H as [? ?]; try subst
  | H : cdiv _ _ _ = Ok _ |- _ => apply cdiv_ok in H as (? & ? & ?); try subst
  | H : try_from _ _ = Ok _ |- _ => apply try_from_ok in H as [? ?]; try subst
  | H : pow10_u128 _ = Ok _ |- _ => apply pow10_u128_ok in H as [? ?]; try subst
  | H : slice_to _ _ = Ok _ |- _ => apply slice_to_ok in H as [? ?]; try subst
  end.
Ltac inv_arith := repeat (first [inv_ok_step | inv_arith_step]; cbn beta iota in *).

(** [inv_err] traces where the error of a failed computation came from. *)
Ltac inv_err_step :=
  match goal with
  | H : (_ ≫= _) = Err _ |- _ => apply bind_err in H as [H|(? & ? & H)]
  | H : require _ _ = Err _ |- _ => apply require_err in H as [? H]
  | H : pow10_u128 _ = Err _ |- _ => unfold pow10_u128 in H; destruct (checked _ _); cbn in H
  | H : cadd _ _ _ = Err _ |- _ => apply cadd_err in H
  | H : csub _ _ _ = Err _ |- _ => apply csub_err in H
  | H : cmul _ _ _ = Err _ |- _ => apply cmul_err in H
  | H : cdiv _ _ _ = Err _ |- _ => apply cdiv_err in H
  | H : try_from _ _ = Err _ |- _ => apply try_from_err in H
  | H : mapAccM _ _ _ = Err _ |- _ => apply mapAccM_err in H as (? & ? & ? & H)
  | H : foldM _ _ _ = Err _ |- _ => apply foldM_err in H as (? & ? & ? & H)
  | H : (let (_, _) := ?p in _) = Err _ |- _ => destruct p
  | H : (if ?b then _ else _) = Err _ |- _ => destruct b
  end.
Ltac inv_err := repeat (inv_err_step; cbn beta iota in *).

(** ** Public keys

    32 bytes; [to_bytes().cmp(..)] is the lexicographic order. *)

Notation Pubkey := (list Z) (only parsing).

(** [Pubkey::default()] *)
Definition default_pubkey : Pubkey := replicate 32 0.

(** The 32-byte key that ends in [b], for concrete inputs. *)
Definition key_of (b : Z) : Pubkey := replicate 31 0 ++ [b].

(** A byte, and the 32 bytes of a key. *)
Notation is_byte := (in_range U8).
Definition is_pubkey (k : list Z) : Prop := length k = 32%nat /\ Forall is_byte k.
#[export] Instance is_pubkey_dec k : Decision (is_pubkey k).
Proof. unfold is_pubkey. apply _. Defined.

(** [[u8]::cmp] *)
Fixpoint bytes_cmp (a b : list Z) : comparison :=
  match a, b with
  | [], [] => Eq
  | [], _ :: _ => Lt
  | _ :: _, [] => Gt
  | x :: a, y :: b =>
      match Z.compare x y with
      | Eq => bytes_cmp a b
      | c => c
      end
  end.

Definition bytes_le (a b : list Z) : Prop := bytes_cmp a b <> Gt.
Definition bytes_lt (a b : list Z) : Prop := bytes_cmp a b = Lt.
#[export] Instance bytes_le_dec a b : Decision (bytes_le a b).
Proof. unfold bytes_le. apply _. Defined.

Lemma bytes_cmp_eq a b : bytes_cmp a b = Eq <-> a = b.
Proof.
  revert b. induction a as [|x a IH]; intros [|y b]; simpl; [done..|].
  destruct (Z.compare_spec x y); [subst; rewrite IH|..]; split; naive_solver lia.
Qed.

Lemma bytes_cmp_refl a : bytes_cmp a a = Eq.
Proof. by apply bytes_cmp_eq. Qed.

Lemma bytes_cmp_antisym a b : bytes_cmp b a = CompOpp (bytes_cmp a b).
Proof.
  revert b. induction a as [|x a IH]; intros [|y b]; simpl; [done..|].
  rewrite (Z.compare_antisym x y). destruct (Z.compare x y); simpl; auto.
Qed.

Lemma bytes_lt_trans a b c : bytes_lt a b -> bytes_lt b c -> bytes_lt a c.
Proof.
  unfold bytes_lt. revert b c.
  induction a as [|x a IH]; intros [|y b] [|z c]; simpl; try done.
  destruct (Z.compare_spec x y), (Z.compare_spec y z), (Z.compare_spec x z);
    subst; intros; try done; try lia; eauto.
Qed.

Lemma bytes_lt_irrefl a : ~ bytes_lt a a.
Proof. unfold bytes_lt. rewrite (proj2 (bytes_cmp_eq a a)); done. Qed.

Lemma bytes_le_lt_eq a b : bytes_le a b <-> bytes_lt a b \/ a = b.
Proof.
  unfold bytes_le, bytes_lt. rewrite <- bytes_cmp_eq. destruct (bytes_cmp a b); naive_solver.
Qed.

#[export] Instance bytes_le_trans : Transitive bytes_le.
Proof.
  intros a b c [?| ->]%bytes_le_lt_eq [?| <-]%bytes_le_lt_eq; apply bytes_le_lt_eq;
    eauto using bytes_lt_trans.
Qed.

#[export] Instance bytes_le_total : Total bytes_le.
Proof.
  intros a b. unfold bytes_le. rewrite (bytes_cmp_antisym a b).
  destruct (bytes_cmp a b); simpl; auto.
Qed.

(** ** Seeds ([seeds.rs]) and program id ([lib.rs]) *)

(** A byte-string literal [b"..."] *)
Definition bytes_of (s : string) : list Z :=
  map (fun c => Z.of_N (Ascii.N_of_ascii c)) (String.list_ascii_of_string s).

Definition CONTRACT_STATE_SEED : list Z := bytes_of "contract_state".
Definition USDC_VAULT_SEED : list Z := bytes_of "usdc_vault".
Definition WALN_VAULT_SEED : list Z := bytes_of "waln_vault".
Definition ROUND_RECORD_SEED : list Z := bytes_of "round_record".
Definition ROUND_LOCKED_WALN_SEED : list Z := bytes_of "round_locked_waln".
Definition AAT_NFT_SEED : list Z := bytes_of "aat_nft".
Definition NFT_AUTHORITY_SEED : list Z := bytes_of "nft_authority".
Definition INVESTOR_POOL_SEED : list Z := bytes_of "investor_pool".
Definition TREASURY_SEED : list Z := bytes_of "treasury".

(** [declare_id!("3tBjDJHPCMmKjxRAxTHiaUmZ9Li1D8YvWCS48pBMjRSe")], base58-decoded *)
Definition ID : Pubkey :=
  [42; 212; 32; 4; 159; 68; 26; 33; 250; 182; 96; 52; 105; 156; 27; 79;
   194; 227; 207; 225; 10; 88; 217; 146; 196; 4; 16; 33; 142; 237; 105; 127].

(** ** Accounts ([state.rs]) *)

Definition MAX_INVESTORS : nat := 100.
Definition MIN_SELL_WALN : Z := 1000000000.

Record InvestorAlloc := mkInvestorAlloc {
  ia_investor : Pubkey;
  ia_waln_amount : Z;
}.

Definition InvestorAlloc_SIZE : Z := 32 + 8.

Record RoundLockedWaln := mkRoundLockedWaln {
  rlw_round_index : Z;
  rlw_bump : Z;
  rlw_unlock : Z;
  rlw_remaining_to_claim : Z;
  rlw_investors : list InvestorAlloc;
}.

Definition RoundLockedWaln_FIXED_SIZE : Z := 8 + 1 + 8 + 4 + 4.

(** [RoundLockedWaln::space(n)] *)
Definition RoundLockedWaln_space (n : Z) : Z :=
  8 + RoundLockedWaln_FIXED_SIZE + n * InvestorAlloc_SIZE.

Record ProgramState := mkProgramState {
  ps_admin : Pubkey;
  ps_usdc_mint : Pubkey;
  ps_waln_mint : Pubkey;
  ps_usdc_vault : Pubkey;
  ps_waln_vault : Pubkey;
  ps_floor_price_usdc : Z;
  ps_round_size_waln : Z;
  ps_current_round_waln : Z;
  ps_total_usdc_in_lobby : Z;
  ps_round_count : Z;
  ps_lock_period_seconds : Z;
  ps_usdc_withdraw_lock_seconds : Z;
  ps_current_round_floor_price : Z;
  ps_current_round_size_waln : Z;
  ps_current_round_lock_period : Z;
  ps_current_round_usdc_spent : Z;
  ps_total_aat_volume : Z;
  ps_waln_dust_carryover : Z;
  ps_total_usdc_locked_for_round : Z;
  ps_pending_admin : Pubkey;
  ps_sell_paused : Z;
  ps_round_started : Z;
  ps_bump : Z;
  ps_usdc_vault_bump : Z;
  ps_waln_vault_bump : Z;
  ps_waln_decimals : Z;
  ps_usdc_decimals : Z;
  ps_frozen : Z;
}.

Record InvestorRecord := mkInvestorRecord {
  ir_investor : Pubkey;
  ir_usdc_deposited : Z;
  ir_usdc_locked_current_round : Z;
  ir_usdc_committed : Z;
  ir_waln_purchased_total : Z;
  ir_aat_volume : Z;
  ir_usdc_unlock_ts : Z;
}.

(** [ip_investors] is the fixed array [[InvestorRecord; MAX_INVESTORS]]; the records in
    use are its first [ip_count]. *)
Record InvestorPool := mkInvestorPool {
  ip_count : Z;
  ip_bump : Z;
  ip_investors : list InvestorRecord;
}.

Record RoundRecord := mkRoundRecord {
  rr_round_index : Z;
  rr_triggered_at : Z;
  rr_waln_purchased : Z;
  rr_usdc_spent : Z;
  rr_total_aat_volume_at_trigger : Z;
  rr_participant_count : Z;
  rr_bump : Z;
}.

(** [RoundRecord::INIT_SPACE], as [#[derive(InitSpace)]] sums the fields' widths *)
Definition RoundRecord_INIT_SPACE : Z := 8 + 8 + 8 + 8 + 8 + 4 + 1.

Inductive Event :=
| InvestorAllocated (round_index : Z) (investor : Pubkey) (waln_amount usdc_spent unlock : Z)
| RoundClosed (round_index waln_purchased usdc_spent participant_count unlock : Z).

#[export] Instance InvestorAlloc_eq_dec : EqDecision InvestorAlloc.
Proof. solve_decision. Defined.
#[export] Instance RoundLockedWaln_eq_dec : EqDecision RoundLockedWaln.
Proof. solve_decision. Defined.
#[export] Instance InvestorRecord_eq_dec : EqDecision InvestorRecord.
Proof. solve_decision. Defined.
#[export] Instance RoundRecord_eq_dec : EqDecision RoundRecord.
Proof. solve_decision. Defined.

(** A zeroed record, the contents of an unused slot of the pool. *)
Definition empty_record (key : Pubkey) : InvestorRecord :=
  mkInvestorRecord key 0 0 0 0 0 0.

(** ** The slice [pool.investors[..pool.count as usize]] *)

Definition active (p : InvestorPool) : R (list InvestorRecord) :=
  slice_to (Z.to_nat (ip_count p)) (ip_investors p).

(** Writing a slice of the same length back in place. *)
Definition write_active (l : list InvestorRecord) (p : InvestorPool) : InvestorPool :=
  p <| ip_investors := l ++ drop (length l) (ip_investors p) |>.

(** The pool's data-type invariant: the array keeps its length, [count] is within it and
    no two records in use belong to the same investor. *)
Definition records (p : InvestorPool) : list InvestorRecord :=
  take (Z.to_nat (ip_count p)) (ip_investors p).

Record pool_wf (p : InvestorPool) : Prop := {
  pwf_length : length (ip_investors p) = MAX_INVESTORS;
  pwf_count : 0 <= ip_count p <= Z.of_nat MAX_INVESTORS;
  pwf_nodup : NoDup (ir_investor <$> records p);
}.

Lemma active_wf p : pool_wf p -> active p = Ok (records p).
Proof.
  intros [Hl Hc _]. unfold active, records. apply slice_to_ok. split; [|done].
  unfold MAX_INVESTORS in *. lia.
Qed.

Lemma active_ok p l : active p = Ok l -> l = records p /\ Z.to_nat (ip_count p) = length l.
Proof.
  unfold active, records. intros H. inv_arith. split; [done|].
  rewrite length_take. lia.
Qed.

Lemma length_records p : pool_wf p -> Z.of_nat (length (records p)) = ip_count p.
Proof.
  intros [Hl Hc _]. unfold records. rewrite length_take. unfold MAX_INVESTORS in *. lia.
Qed.

Lemma length_records_max p : pool_wf p -> (length (records p) <= MAX_INVESTORS)%nat.
Proof. intros Hwf. pose proof (length_records p Hwf). destruct Hwf. lia. Qed.

Lemma records_write_active l p :
  pool_wf p -> length l = length (records p) -> records (write_active l p) = l.
Proof.
  intros Hwf Hlen. pose proof (length_records p Hwf) as Hc. unfold records, write_active in *.
  cbn. rewrite take_app_length'; [done|]. lia.
Qed.

Lemma write_active_wf l p :
  pool_wf p -> ir_investor <$> l = ir_investor <$> records p -> pool_wf (write_active l p).
Proof.
  intros Hwf Hkeys. assert (length l = length (records p)) as Hlen.
  { by rewrite <- (length_fmap ir_investor l), Hkeys, length_fmap. }
  pose proof (length_records_max p Hwf). pose proof (records_write_active l p Hwf Hlen) as Hr.
  destruct Hwf as [Hl Hc Hnd]. constructor; [|done|].
  - cbn. rewrite length_app, length_drop. lia.
  - by rewrite Hr, Hkeys.
Qed.

Lemma ip_count_write_active l p : ip_count (write_active l p) = ip_count p.
Proof. done. Qed.
