(* ===== verification/Layout.v ===== *)
(** * The types and the bytes of the program's accounts: [state.rs]

    A [codec] describes the values of a Rust type, as a predicate on the mathematical
    values that model them, and their bytes.  The zero-copy accounts ([ProgramState],
    [InvestorPool]) lie in memory as [repr(C)] lays them out: their codecs are built
    from little-endian integers, keys and arrays, field after field, and [c_packed] is
    the alignment rule under which no padding goes between.  The accounts that are
    serialized ([RoundLockedWaln], [RoundRecord]) go through Borsh, whose primitives are
    a parameter, the class [Borsh]. *)
From coqutil Require Import Datatypes.RecordSettersUsingExistingGetters.
From stdpp Require Import base gmap strings numbers list.
From S2P Require Import Prelude.
From S2P Require Import State.
#[local] Open Scope Z_scope.

Record codec (A : Type) := mkCodec {
  c_ok : A -> Prop;
  c_enc : A -> list Z;
  c_dec : list Z -> option (A * list Z);
  c_size : Z;
  c_align : Z;
  c_packed : Z -> bool;
}.
Arguments mkCodec {A}.
Arguments c_ok {A}.
Arguments c_enc {A}.
Arguments c_dec {A}.
Arguments c_size {A}.
Arguments c_align {A}.
Arguments c_packed {A}.

(** A codec reads back what it wrote, whatever follows, and writes bytes. *)
Class Lawful {A} (c : codec A) : Prop := {
  dec_enc a rest : c_ok c a -> c_dec c (c_enc c a ++ rest) = Some (a, rest);
  enc_bytes a : c_ok c a -> Forall is_byte (c_enc c a);
}.

(** Every value takes [c_size] bytes. *)
Class Sized {A} (c : codec A) : Prop :=
  enc_size a : c_ok c a -> Z.of_nat (length (c_enc c a)) = c_size c.

(** ** Building codecs *)

(** [n] bytes off the front of the input. *)
Definition split_bytes (n : nat) (l : list Z) : option (list Z * list Z) :=
  if decide (n <= length l)%nat then Some (take n l, drop n l) else None.

(** [uN], and [iN] in two's complement, little-endian; [n] is the size and the alignment. *)
Definition unsigned (ty : int_ty) (n : nat) : codec Z := {|
  c_ok := in_range ty;
  c_enc z := le_bytes n z;
  c_dec l := '(b, rest) ← split_bytes n l; Some (le_value b, rest);
  c_size := Z.of_nat n;
  c_align := Z.of_nat n;
  c_packed off := bool_decide (off mod Z.of_nat n = 0);
|}.

Definition signed (ty : int_ty) (n : nat) : codec Z := {|
  c_ok := in_range ty;
  c_enc z := le_bytes n z;
  c_dec l :=
    '(b, rest) ← split_bytes n l;
    let z := le_value b in
    Some (if decide (2 * z < 256 ^ Z.of_nat n) then z else z - 256 ^ Z.of_nat n, rest);
  c_size := Z.of_nat n;
  c_align := Z.of_nat n;
  c_packed off := bool_decide (off mod Z.of_nat n = 0);
|}.

Definition u8 : codec Z := unsigned U8 1.
Definition u32 : codec Z := unsigned U32 4.
Definition u64 : codec Z := unsigned U64 8.
Definition i64 : codec Z := signed I64 8.

(** [Pubkey], a wrapper of [[u8; 32]] *)
Definition pubkey : codec Pubkey := {|
  c_ok := is_pubkey;
  c_enc k := k;
  c_dec l := split_bytes 32 l;
  c_size := 32;
  c_align := 1;
  c_packed _ := true;
|}.

(** [_padding: [u8; n]], which the program leaves zero *)
Definition padding (n : nat) : codec unit := {|
  c_ok _ := True;
  c_enc _ := replicate n 0;
  c_dec l := '(_, rest) ← split_bytes n l; Some (tt, rest);
  c_size := Z.of_nat n;
  c_align := 1;
  c_packed _ := true;
|}.

(** Two fields, one after the other. *)
Definition pair {A B} (a : codec A) (b : codec B) : codec (A * B) := {|
  c_ok p := c_ok a p.1 /\ c_ok b p.2;
  c_enc p := c_enc a p.1 ++ c_enc b p.2;
  c_dec l := '(x, l) ← c_dec a l; '(y, l) ← c_dec b l; Some ((x, y), l);
  c_size := c_size a + c_size b;
  c_align := Z.max (c_align a) (c_align b);
  c_packed off := c_packed a off && c_packed b (off + c_size a);
|}.
Infix "⊗" := pair (at level 60, right associativity).

(** A struct: its fields in order. *)
Definition struct {A B} (fields : A -> B) (make : B -> A) (c : codec B) : codec A := {|
  c_ok a := c_ok c (fields a);
  c_enc a := c_enc c (fields a);
  c_dec l := '(x, l) ← c_dec c l; Some (make x, l);
  c_size := c_size c;
  c_align := c_align c;
  c_packed := c_packed c;
|}.

(** [n] values read one after the other. *)
Fixpoint dec_list {A} (c : codec A) (n : nat) (l : list Z) : option (list A * list Z) :=
  match n with
  | O => Some ([], l)
  | S n => '(x, l) ← c_dec c l; '(xs, l) ← dec_list c n l; Some (x :: xs, l)
  end.

Definition enc_list {A} (c : codec A) (xs : list A) : list Z := concat (map (c_enc c) xs).

(** [[T; n]] *)
Definition array {A} (n : nat) (c : codec A) : codec (list A) := {|
  c_ok xs := length xs = n /\ Forall (c_ok c) xs;
  c_enc := enc_list c;
  c_dec := dec_list c n;
  c_size := Z.of_nat n * c_size c;
  c_align := c_align c;
  c_packed off := c_packed c off && bool_decide (c_size c mod c_align c = 0);
|}.

(** ** The laws *)

Lemma split_bytes_app (b rest : list Z) n : length b = n -> split_bytes n (b ++ rest) = Some (b, rest).
Proof.
  intros <-. unfold split_bytes. rewrite length_app, decide_True by lia.
  by rewrite take_app_length, drop_app_length.
Qed.

Lemma le_bytes_byte n z : Forall is_byte (le_bytes n z).
Proof.
  revert z. induction n as [|n IH]; intros z; cbn [le_bytes]; constructor; [|done].
  pose proof (Z.mod_pos_bound z 256). unfold_range. lia.
Qed.

Lemma unsigned_lawful ty n :
  int_min ty = 0 -> int_max ty < 256 ^ Z.of_nat n -> Lawful (unsigned ty n).
Proof.
  intros Hmin Hmax. split; cbn; [|intros; apply le_bytes_byte].
  intros z rest Hz. rewrite split_bytes_app by apply length_le_bytes. cbn.
  rewrite le_value_bytes, Z.mod_small; [done|]. unfold in_range in Hz. lia.
Qed.

Lemma signed_lawful ty n :
  - 256 ^ Z.of_nat n <= 2 * int_min ty -> 2 * int_max ty < 256 ^ Z.of_nat n -> Lawful (signed ty n).
Proof.
  intros Hmin Hmax. split; cbn; [|intros; apply le_bytes_byte].
  intros z rest Hz. rewrite split_bytes_app by apply length_le_bytes. cbn.
  rewrite le_value_bytes. unfold in_range in Hz. set (m := 256 ^ Z.of_nat n) in *.
  destruct (decide (0 <= z)) as [Hp|Hn].
  - rewrite Z.mod_small by lia. by rewrite decide_True by lia.
  - rewrite <- (Z.mod_unique_pos z m (-1) (z + m)) by lia. rewrite decide_False by lia. do 2 f_equal. lia.
Qed.

#[export] Instance u8_lawful : Lawful u8.
Proof. by apply unsigned_lawful. Qed.
#[export] Instance u32_lawful : Lawful u32.
Proof. by apply unsigned_lawful. Qed.
#[export] Instance u64_lawful : Lawful u64.
Proof. by apply unsigned_lawful. Qed.
#[export] Instance i64_lawful : Lawful i64.
Proof. by apply signed_lawful. Qed.

#[export] Instance unsigned_sized ty n : Sized (unsigned ty n).
Proof. intros z _. cbn. by rewrite length_le_bytes. Qed.
#[export] Instance signed_sized ty n : Sized (signed ty n).
Proof. intros z _. cbn. by rewrite length_le_bytes. Qed.

#[export] Instance pubkey_lawful : Lawful pubkey.
Proof. split; cbn; [|by intros k []]. intros k rest [Hk _]. by apply split_bytes_app. Qed.
#[export] Instance pubkey_sized : Sized pubkey.
Proof. intros k [Hk _]. cbn. by rewrite Hk. Qed.

#[export] Instance padding_lawful n : Lawful (padding n).
Proof.
  split; cbn.
  - intros [] rest _. by rewrite split_bytes_app by apply length_replicate.
  - intros _ _. apply Forall_replicate. range.
Qed.
#[export] Instance padding_sized n : Sized (padding n).
Proof. intros [] _. cbn. by rewrite length_replicate. Qed.

Section Combinators.
Context {A B : Type}.

#[export] Instance pair_lawful (a : codec A) (b : codec B) : Lawful a -> Lawful b -> Lawful (a ⊗ b).
Proof.
  intros Ha Hb. split; cbn.
  - intros [x y] rest [Hx Hy]. rewrite <- app_assoc, dec_enc by done. cbn. by rewrite dec_enc.
  - intros [x y] [Hx Hy]. apply Forall_app. auto using enc_bytes.
Qed.
#[export] Instance pair_sized (a : codec A) (b : codec B) : Sized a -> Sized b -> Sized (a ⊗ b).
Proof. intros Ha Hb [x y] [Hx Hy]. cbn. by rewrite length_app, Nat2Z.inj_add, !enc_size. Qed.

Lemma struct_lawful (fields : A -> B) make c :
  (forall a, make (fields a) = a) -> Lawful c -> Lawful (struct fields make c).
Proof.
  intros Hm Hc. split; cbn; [|intros; by apply enc_bytes].
  intros a rest Ha. rewrite dec_enc by done. cbn. by rewrite Hm.
Qed.
#[export] Instance struct_sized (fields : A -> B) make c : Sized c -> Sized (struct fields make c).
Proof. intros Hc a Ha. by apply (enc_size (c := c)). Qed.

Section Lists.
Context (c : codec A) (Hc : Lawful c).

Lemma dec_enc_list xs rest :
  Forall (c_ok c) xs -> dec_list c (length xs) (enc_list c xs ++ rest) = Some (xs, rest).
Proof.
  unfold enc_list. induction 1 as [|x xs Hx _ IH]; cbn; [done|].
  rewrite <- app_assoc, dec_enc by done. cbn. by rewrite IH.
Qed.

Lemma enc_list_bytes xs : Forall (c_ok c) xs -> Forall is_byte (enc_list c xs).
Proof.
  unfold enc_list. induction 1 as [|x xs Hx _ IH]; cbn; [done|]. apply Forall_app. auto using enc_bytes.
Qed.

Lemma enc_list_size xs :
  Sized c -> Forall (c_ok c) xs -> Z.of_nat (length (enc_list c xs)) = Z.of_nat (length xs) * c_size c.
Proof.
  unfold enc_list. intros Hs. induction 1 as [|x xs Hx _ IH]; cbn; [done|].
  rewrite length_app, Nat2Z.inj_add, (enc_size x), IH by done. lia.
Qed.
End Lists.

#[export] Instance array_lawful n (c : codec A) : Lawful c -> Lawful (array n c).
Proof.
  intros Hc. split; cbn.
  - intros xs rest [<- Hxs]. by apply dec_enc_list.
  - intros xs [_ Hxs]. by apply enc_list_bytes.
Qed.
#[export] Instance array_sized n (c : codec A) : Lawful c -> Sized c -> Sized (array n c).
Proof. intros Hc Hs xs [<- Hxs]. by apply enc_list_size. Qed.
End Combinators.

(** ** Zero-copy accounts *)

Definition program_state : codec ProgramState :=
  struct
    (fun s => (ps_admin s, (ps_usdc_mint s, (ps_waln_mint s, (ps_usdc_vault s, (ps_waln_vault s,
       (ps_floor_price_usdc s, (ps_round_size_waln s, (ps_current_round_waln s,
       (ps_total_usdc_in_lobby s, (ps_round_count s, (ps_lock_period_seconds s,
       (ps_usdc_withdraw_lock_seconds s, (ps_current_round_floor_price s,
       (ps_current_round_size_waln s, (ps_current_round_lock_period s,
       (ps_current_round_usdc_spent s, (ps_total_aat_volume s, (ps_waln_dust_carryover s,
       (ps_total_usdc_locked_for_round s, (ps_pending_admin s, (ps_sell_paused s,
       (ps_round_started s, (ps_bump s, (ps_usdc_vault_bump s, (ps_waln_vault_bump s,
       (ps_waln_decimals s, (ps_usdc_decimals s, ps_frozen s))))))))))))))))))))))))))))
    (fun '(admin, (usdc_mint, (waln_mint, (usdc_vault, (waln_vault, (price, (size, (round_waln,
       (lobby, (count, (lock, (withdraw_lock, (round_price, (round_size, (round_lock, (spent,
       (volume, (dust, (locked, (pending, (paused, (started, (bump, (usdc_bump, (waln_bump,
       (waln_decimals, (usdc_decimals, frozen))))))))))))))))))))))))))) =>
       mkProgramState admin usdc_mint waln_mint usdc_vault waln_vault price size round_waln lobby
         count lock withdraw_lock round_price round_size round_lock spent volume dust locked pending
         paused started bump usdc_bump waln_bump waln_decimals usdc_decimals frozen)
    (pubkey ⊗ pubkey ⊗ pubkey ⊗ pubkey ⊗ pubkey ⊗ u64 ⊗ u64 ⊗ u64 ⊗ u64 ⊗ u64 ⊗ i64 ⊗ i64
     ⊗ u64 ⊗ u64 ⊗ i64 ⊗ u64 ⊗ u64 ⊗ u64 ⊗ u64 ⊗ pubkey ⊗ u8 ⊗ u8 ⊗ u8 ⊗ u8 ⊗ u8 ⊗ u8 ⊗ u8 ⊗ u8).

Definition investor_record : codec InvestorRecord :=
  struct
    (fun r => (ir_investor r, (ir_usdc_deposited r, (ir_usdc_locked_current_round r,
       (ir_usdc_committed r, (ir_waln_purchased_total r, (ir_aat_volume r, ir_usdc_unlock_ts r)))))))
    (fun '(investor, (deposited, (locked, (committed, (purchased, (volume, unlock)))))) =>
       mkInvestorRecord investor deposited locked committed purchased volume unlock)
    (pubkey ⊗ u64 ⊗ u64 ⊗ u64 ⊗ u64 ⊗ u64 ⊗ i64).

Definition investor_pool : codec InvestorPool :=
  struct
    (fun p => (ip_count p, (ip_bump p, (tt, ip_investors p))))
    (fun '(count, (bump, (_, investors))) => mkInvestorPool count bump investors)
    (u32 ⊗ u8 ⊗ padding 3 ⊗ array MAX_INVESTORS investor_record).

#[export] Instance program_state_lawful : Lawful program_state.
Proof. apply struct_lawful; [by intros []|apply _]. Qed.
#[export] Instance program_state_sized : Sized program_state.
Proof. apply _. Qed.
#[export] Instance investor_record_lawful : Lawful investor_record.
Proof. apply struct_lawful; [by intros []|apply _]. Qed.
#[export] Instance investor_record_sized : Sized investor_record.
Proof. apply _. Qed.
#[export] Instance investor_pool_lawful : Lawful investor_pool.
Proof. apply struct_lawful; [by intros []|apply _]. Qed.
#[export] Instance investor_pool_sized : Sized investor_pool.
Proof. apply _. Qed.

(** [std::mem::size_of] *)
Definition ProgramState_SIZE : Z := c_size program_state.
Definition InvestorRecord_SIZE : Z := c_size investor_record.
Definition InvestorPool_SIZE : Z := c_size investor_pool.

(** A type is laid out without padding: at offset 0 every field is aligned, and the size
    is a multiple of the alignment. *)
Definition no_padding {A} (c : codec A) : bool :=
  c_packed c 0 && bool_decide (c_size c mod c_align c = 0).

Example ProgramState_layout : (ProgramState_SIZE, no_padding program_state) = (312, true).
Proof. reflexivity. Qed.
Example InvestorPool_layout : (InvestorPool_SIZE, no_padding investor_pool) = (8008, true).
Proof. reflexivity. Qed.

(** The three bytes of [_padding] are what the pool needs. *)
Example InvestorPool_needs_padding :
  no_padding (u32 ⊗ u8 ⊗ array MAX_INVESTORS investor_record) = false.
Proof. reflexivity. Qed.

(** ** Serialized accounts *)

(** Borsh, which is not part of the repository: the encodings of the primitive types and
    of a [Vec].  [derive(AnchorSerialize)] concatenates the fields in order. *)
Class Borsh := {
  borsh_u8 : codec Z;
  borsh_u32 : codec Z;
  borsh_u64 : codec Z;
  borsh_i64 : codec Z;
  borsh_pubkey : codec Pubkey;
  borsh_vec : forall {A}, codec A -> codec (list A);
}.

(** A primitive: all values of its type, in a fixed number of bytes. *)
Class BorshPrimitive {A} (c : codec A) (ok : A -> Prop) (n : Z) : Prop := {
  #[global] prim_lawful :: Lawful c;
  #[global] prim_sized :: Sized c;
  prim_ok a : c_ok c a <-> ok a;
  prim_size : c_size c = n;
}.

(** The specification of the format: fixed-width integers and keys take their width, a
    [Vec] is its length in four bytes and then its elements. *)
Class BorshLaws `{Borsh} : Prop := {
  #[global] borsh_u8_prim :: BorshPrimitive borsh_u8 (in_range U8) 1;
  #[global] borsh_u32_prim :: BorshPrimitive borsh_u32 (in_range U32) 4;
  #[global] borsh_u64_prim :: BorshPrimitive borsh_u64 (in_range U64) 8;
  #[global] borsh_i64_prim :: BorshPrimitive borsh_i64 (in_range I64) 8;
  #[global] borsh_pubkey_prim :: BorshPrimitive borsh_pubkey is_pubkey 32;
  #[global] borsh_vec_lawful A (c : codec A) :: Lawful c -> Lawful (borsh_vec c);
  borsh_vec_ok A (c : codec A) xs :
    c_ok (borsh_vec c) xs <-> in_range U32 (Z.of_nat (length xs)) /\ Forall (c_ok c) xs;
  borsh_vec_size A (c : codec A) xs :
    Sized c -> c_ok (borsh_vec c) xs ->
    Z.of_nat (length (c_enc (borsh_vec c) xs)) = 4 + Z.of_nat (length xs) * c_size c;
}.

Section Serialized.
Context `{Borsh}.

Definition investor_alloc : codec InvestorAlloc :=
  struct (fun a => (ia_investor a, ia_waln_amount a)) (fun '(k, n) => mkInvestorAlloc k n)
    (borsh_pubkey ⊗ borsh_u64).

Definition round_locked_waln : codec RoundLockedWaln :=
  struct
    (fun b => (rlw_round_index b, (rlw_bump b, (rlw_unlock b, (rlw_remaining_to_claim b,
       rlw_investors b)))))
    (fun '(i, (bump, (unlock, (remaining, investors)))) =>
       mkRoundLockedWaln i bump unlock remaining investors)
    (borsh_u64 ⊗ borsh_u8 ⊗ borsh_i64 ⊗ borsh_u32 ⊗ borsh_vec investor_alloc).

Definition round_record : codec RoundRecord :=
  struct
    (fun r => (rr_round_index r, (rr_triggered_at r, (rr_waln_purchased r, (rr_usdc_spent r,
       (rr_total_aat_volume_at_trigger r, (rr_participant_count r, rr_bump r)))))))
    (fun '(i, (at_, (waln, (usdc, (volume, (count, bump)))))) =>
       mkRoundRecord i at_ waln usdc volume count bump)
    (borsh_u64 ⊗ borsh_i64 ⊗ borsh_u64 ⊗ borsh_u64 ⊗ borsh_u64 ⊗ borsh_u32 ⊗ borsh_u8).
End Serialized.

(** The fields of a book and of a round's record are of their types. *)
Definition alloc_typed (a : InvestorAlloc) : Prop :=
  is_pubkey (ia_investor a) /\ in_range U64 (ia_waln_amount a).

Record book_typed (b : RoundLockedWaln) : Prop := {
  bt_index : in_range U64 (rlw_round_index b);
  bt_bump : in_range U8 (rlw_bump b);
  bt_unlock : in_range I64 (rlw_unlock b);
  bt_remaining : in_range U32 (rlw_remaining_to_claim b);
  bt_length : in_range U32 (Z.of_nat (length (rlw_investors b)));
  bt_investors : Forall alloc_typed (rlw_investors b);
}.

Record round_record_typed (r : RoundRecord) : Prop := {
  rt_index : in_range U64 (rr_round_index r);
  rt_at : in_range I64 (rr_triggered_at r);
  rt_waln : in_range U64 (rr_waln_purchased r);
  rt_usdc : in_range U64 (rr_usdc_spent r);
  rt_volume : in_range U64 (rr_total_aat_volume_at_trigger r);
  rt_count : in_range U32 (rr_participant_count r);
  rt_bump : in_range U8 (rr_bump r);
}.

(** The types of the zero-copy accounts. *)
Notation state_typed := (c_ok program_state).
Notation record_typed := (c_ok investor_record).
Notation pool_typed := (c_ok investor_pool).

Section SerializedLaws.
Context `{BorshLaws}.

#[export] Instance investor_alloc_lawful : Lawful investor_alloc.
Proof. apply struct_lawful; [by intros []|apply _]. Qed.
#[export] Instance investor_alloc_sized : Sized investor_alloc.
Proof. apply _. Qed.
#[export] Instance round_locked_waln_lawful : Lawful round_locked_waln.
Proof. apply struct_lawful; [by intros []|apply _]. Qed.
#[export] Instance round_record_lawful : Lawful round_record.
Proof. apply struct_lawful; [by intros []|apply _]. Qed.
#[export] Instance round_record_sized : Sized round_record.
Proof. apply _. Qed.

Lemma investor_alloc_ok a : c_ok investor_alloc a <-> alloc_typed a.
Proof. unfold alloc_typed. cbn. by rewrite !prim_ok. Qed.

Lemma round_locked_waln_ok b : c_ok round_locked_waln b <-> book_typed b.
Proof.
  cbn. rewrite !prim_ok, borsh_vec_ok. split.
  - intros (? & ? & ? & ? & ? & Hl). constructor; try done.
    eapply Forall_impl; [exact Hl|]. intros a Ha. by apply investor_alloc_ok.
  - intros [? ? ? ? ? Hl]. split_and!; try done.
    eapply Forall_impl; [exact Hl|]. intros a Ha. by apply investor_alloc_ok.
Qed.

Lemma round_record_ok r : c_ok round_record r <-> round_record_typed r.
Proof. cbn. rewrite !prim_ok. split; [by intros (? & ? & ? & ? & ? & ? & ?)|by intros []]. Qed.

(** The space the program allocates for an account is what its bytes take, behind the
    eight of the discriminator. *)
Lemma round_locked_waln_space b :
  book_typed b ->
  8 + Z.of_nat (length (c_enc round_locked_waln b))
  = RoundLockedWaln_space (Z.of_nat (length (rlw_investors b))).
Proof.
  intros Hb%round_locked_waln_ok. destruct Hb as (H1 & H2 & H3 & H4 & H5). cbn [snd fst] in *.
  unfold round_locked_waln. cbn [struct pair c_enc fst snd].
  rewrite !length_app, !Nat2Z.inj_add, borsh_vec_size by (done || apply _).
  rewrite (enc_size (c := borsh_u64)), (enc_size (c := borsh_u8)), (enc_size (c := borsh_i64)),
    (enc_size (c := borsh_u32)) by done.
  cbn [c_size investor_alloc struct pair]. rewrite !prim_size.
  unfold RoundLockedWaln_space, RoundLockedWaln_FIXED_SIZE, InvestorAlloc_SIZE. lia.
Qed.

Lemma round_record_space r :
  round_record_typed r -> Z.of_nat (length (c_enc round_record r)) = RoundRecord_INIT_SPACE.
Proof.
  intros Hr%round_record_ok. rewrite enc_size by done. cbn. by rewrite !prim_size.
Qed.
End SerializedLaws.

(** Borsh with the codecs of this file: the laws can hold. *)
Definition vec {A} (c : codec A) : codec (list A) := {|
  c_ok xs := in_range U32 (Z.of_nat (length xs)) /\ Forall (c_ok c) xs;
  c_enc xs := c_enc u32 (Z.of_nat (length xs)) ++ enc_list c xs;
  c_dec l := '(n, l) ← c_dec u32 l; dec_list c (Z.to_nat n) l;
  c_size := 0;
  c_align := 1;
  c_packed _ := true;
|}.

#[export] Instance little_endian : Borsh := {|
  borsh_u8 := u8;
  borsh_u32 := u32;
  borsh_u64 := u64;
  borsh_i64 := i64;
  borsh_pubkey := pubkey;
  borsh_vec := @vec;
|}.

#[export] Instance little_endian_laws : BorshLaws.
Proof.
  split; try (split; [apply _..|done|done]); cbn -[u32].
  - intros A c Hc. split; cbn -[u32].
    + intros xs rest [Hn Hxs]. rewrite <- app_assoc, dec_enc by done. cbn -[u32].
      rewrite Nat2Z.id. by apply dec_enc_list.
    + intros xs [Hn Hxs]. apply Forall_app. split; [by apply enc_bytes|by apply enc_list_bytes].
  - intros A c xs Hs [Hn Hxs]. rewrite length_app, Nat2Z.inj_add, enc_list_size by done.
    by rewrite (enc_size (c := u32)).
Qed.
