(* ===== verification/Pool.v ===== *)
(** * The investor pool as a finite map

    The pool is an array searched linearly by key.  The handlers use it in four ways:
    they find an investor's record ([find_record]), overwrite one in place, append one
    and remove one by moving the last into its place ([remove_slot]).  [pool_map] reads
    the array as a map from investors to records; the lemmas relate the four uses to
    lookup, insert and delete. *)
From coqutil Require Import Datatypes.RecordSettersUsingExistingGetters.
From stdpp Require Import base gmap strings numbers list.
From S2P Require Import Prelude.
From S2P Require Import State.
#[local] Open Scope Z_scope.

(** [pool.investors[..count].iter().find(|r| r.investor == key)], with its position *)
Definition find_record (key : Pubkey) (p : InvestorPool) : R (option (nat * InvestorRecord)) :=
  l ← active p;
  Ok (list_find (fun r => ir_investor r = key) l).

(** A write to [pool.investors[i]] *)
Definition set_slot (i : nat) (r : InvestorRecord) (p : InvestorPool) : R InvestorPool :=
  _ ← require (i < length (ip_investors p))%nat Panic;
  Ok (p <| ip_investors := <[i := r]> (ip_investors p) |>).

(** The record appended by [deposit_usdc] for a new investor; [pool.count += 1] is
    unchecked arithmetic on a [u32]. *)
Definition push_record (key : Pubkey) (p : InvestorPool) : R (nat * InvestorPool) :=
  let idx := Z.to_nat (ip_count p) in
  p ← set_slot idx (empty_record key) p;
  count ← ok_or (checked_add U32 (ip_count p) 1) Panic;
  Ok (idx, p <| ip_count := count |>).

(** The last block of [remove_investor_from_pool]. *)
Definition remove_slot (investor : Pubkey) (p : InvestorPool) : R InvestorPool :=
  found ← find_record investor p;
  '(idx, _) ← ok_or found (Floor InvalidInvestor);
  last ← ok_or (checked_sub U32 (ip_count p) 1) Panic;
  moved ← ok_or (ip_investors p !! Z.to_nat last) Panic;
  p ← set_slot idx moved p;
  p ← set_slot (Z.to_nat last) (empty_record default_pubkey) p;
  Ok (p <| ip_count := last |>).

(** ** The map *)

Definition keyed (r : InvestorRecord) : list Z * InvestorRecord := (ir_investor r, r).
Definition record_map (l : list InvestorRecord) : gmap Pubkey InvestorRecord :=
  list_to_map (keyed <$> l).
Definition pool_map (p : InvestorPool) : gmap Pubkey InvestorRecord := record_map (records p).

Lemma keyed_keys (l : list InvestorRecord) : (keyed <$> l).*1 = ir_investor <$> l.
Proof. by rewrite <- list_fmap_compose. Qed.

Section RecordMap.
Context (l : list InvestorRecord) (Hnd : NoDup (ir_investor <$> l)).

Lemma record_map_at i r : l !! i = Some r -> record_map l !! ir_investor r = Some r.
Proof.
  intros Hi. apply elem_of_list_to_map; [by rewrite keyed_keys|].
  by eapply (list_elem_of_fmap_2 keyed), list_elem_of_lookup_2.
Qed.

Lemma record_map_None k : k ∉ ir_investor <$> l -> record_map l !! k = None.
Proof. intros Hk. apply not_elem_of_list_to_map. by rewrite keyed_keys. Qed.

Lemma record_map_insert i r r' :
  l !! i = Some r -> ir_investor r' = ir_investor r ->
  record_map (<[i := r']> l) = <[ir_investor r := r']> (record_map l).
Proof.
  intros Hi Hk. unfold record_map. rewrite list_fmap_insert. unfold keyed at 1. rewrite Hk.
  apply (list_to_map_update _ i _ r); [by rewrite keyed_keys|]. by rewrite list_lookup_fmap, Hi.
Qed.
End RecordMap.

Lemma record_map_perm l l' :
  NoDup (ir_investor <$> l) -> l ≡ₚ l' -> record_map l = record_map l'.
Proof.
  intros Hnd Hp. apply list_to_map_proper; [by rewrite keyed_keys|]. by apply fmap_Permutation.
Qed.

Lemma keys_insert (l : list InvestorRecord) i r r' :
  l !! i = Some r -> ir_investor r' = ir_investor r ->
  ir_investor <$> <[i := r']> l = ir_investor <$> l.
Proof.
  intros Hi Hk. rewrite list_fmap_insert, Hk. apply list_insert_id. by rewrite list_lookup_fmap, Hi.
Qed.

(** ** The four uses *)
Section Slots.
Context (p : InvestorPool) (Hwf : pool_wf p).

Lemma find_record_cases k :
  (exists i r, find_record k p = Ok (Some (i, r)) /\ records p !! i = Some r
     /\ ir_investor r = k /\ pool_map p !! k = Some r)
  \/ (find_record k p = Ok None /\ k ∉ ir_investor <$> records p /\ pool_map p !! k = None).
Proof.
  unfold find_record. rewrite active_wf by done. simpl.
  destruct (list_find _ (records p)) as [[i r]|] eqn:Hf.
  - left. apply list_find_Some in Hf as (Hi & Hk & _). exists i, r. split_and!; [done..|].
    rewrite <- Hk. apply (record_map_at _ (pwf_nodup _ Hwf) i). done.
  - right. apply list_find_None in Hf. rewrite Forall_forall in Hf.
    assert (k ∉ ir_investor <$> records p) as Hk.
    { intros (r & -> & Hr)%list_elem_of_fmap. by apply (Hf r Hr). }
    split_and!; [done..|]. by apply record_map_None.
Qed.

Lemma records_lt i r : records p !! i = Some r ->
  (i < Z.to_nat (ip_count p))%nat /\ ip_investors p !! i = Some r.
Proof. unfold records. intros [? ?]%lookup_take_Some. done. Qed.

Lemma set_slot_spec i r r' :
  records p !! i = Some r -> ir_investor r' = ir_investor r ->
  exists p', set_slot i r' p = Ok p' /\ pool_wf p' /\ ip_count p' = ip_count p
    /\ records p' = <[i := r']> (records p) /\ pool_map p' = <[ir_investor r := r']> (pool_map p).
Proof.
  intros Hi Hk. destruct (records_lt i r Hi) as [Hlt Hi'].
  unfold set_slot. rewrite require_true by (by apply lookup_lt_Some in Hi'). simpl.
  eexists. split; [done|].
  assert (records (p <| ip_investors := <[i := r']> (ip_investors p) |>) = <[i := r']> (records p)) as Hrec.
  { unfold records. cbn. by rewrite take_insert_lt by done. }
  split_and!; [|done|done|].
  - destruct Hwf. constructor; cbn; [by rewrite length_insert|done|].
    rewrite Hrec, (keys_insert _ i r) by done. done.
  - unfold pool_map. rewrite Hrec. apply record_map_insert; [apply Hwf|done..].
Qed.

Lemma push_record_spec k :
  ip_count p < Z.of_nat MAX_INVESTORS -> k ∉ ir_investor <$> records p ->
  exists p', push_record k p = Ok (length (records p), p') /\ pool_wf p'
    /\ records p' = records p ++ [empty_record k]
    /\ pool_map p' = <[k := empty_record k]> (pool_map p).
Proof.
  intros Hc Hk. pose proof (length_records p Hwf) as Hlen. unfold push_record, set_slot.
  destruct Hwf as [Hl Hcount Hnd]. unfold MAX_INVESTORS in *.
  rewrite require_true by lia. cbn. unfold checked_add. rewrite checked_in by (unfold_range; lia). cbn.
  replace (Z.to_nat (ip_count p)) with (length (records p)) by lia. eexists. split; [done|].
  match goal with |- pool_wf ?q /\ _ => assert (records q = records p ++ [empty_record k]) as Hrec end.
  { unfold records at 1. cbn. replace (Z.to_nat (ip_count p + 1)) with (S (length (records p))) by lia.
    rewrite (take_S_r _ _ (empty_record k)).
    - f_equal. rewrite take_insert_ge by done. unfold records. f_equal. rewrite length_take. lia.
    - apply list_lookup_insert_eq. lia. }
  split_and!; [|done|].
  - constructor; cbn; [by rewrite length_insert|unfold MAX_INVESTORS; lia|]. rewrite Hrec, fmap_app. cbn.
    apply NoDup_app. split_and!; [done|set_solver|apply NoDup_singleton].
  - unfold pool_map. rewrite Hrec.
    rewrite (record_map_perm _ (empty_record k :: records p)).
    + done.
    + rewrite fmap_app. cbn. apply NoDup_app. split_and!; [done|set_solver|apply NoDup_singleton].
    + by rewrite Permutation_app_comm.
Qed.
End Slots.

(** Moving the last element of a list over one of its elements removes that one. *)
Lemma swap_remove_perm {A} (l : list A) (m : A) i x :
  (l ++ [m]) !! i = Some x ->
  l ++ [m] ≡ₚ x :: take (length l) (<[i := m]> (l ++ [m])).
Proof.
  intros Hi. destruct (decide (i < length l)%nat) as [Hlt|Hge].
  - rewrite lookup_app_l in Hi by done. rewrite insert_app_l by done.
    rewrite take_app_length' by (by rewrite length_insert).
    apply list_elem_of_split_length in Hi as (a & b & -> & ->).
    rewrite insert_app_r_alt, Nat.sub_diag by lia. cbn.
    rewrite <- app_assoc. cbn. rewrite <- Permutation_middle. do 2 f_equiv.
    by rewrite (Permutation_app_comm b [m]).
  - assert (i = length l) as -> by (apply lookup_lt_Some in Hi; rewrite length_app in Hi; simpl in Hi; lia).
    rewrite lookup_app_r, Nat.sub_diag in Hi by done. simplify_eq/=.
    rewrite list_insert_id by (by rewrite lookup_app_r, Nat.sub_diag).
    rewrite take_app_length. by rewrite Permutation_app_comm.
Qed.

Section Remove.
Context (p : InvestorPool) (Hwf : pool_wf p).

Lemma remove_slot_spec k i r :
  find_record k p = Ok (Some (i, r)) ->
  exists p', remove_slot k p = Ok p' /\ pool_wf p' /\ ip_count p' = ip_count p - 1
    /\ records p ≡ₚ r :: records p' /\ pool_map p' = delete k (pool_map p).
Proof.
  intros Hf. destruct (find_record_cases p Hwf k) as [(i' & r' & Hf' & Hi & Hk & _)|(Hf' & _)];
    [|congruence]. assert (i' = i /\ r' = r) as [-> ->] by (split; congruence). clear Hf'.
  pose proof (length_records p Hwf) as Hlen. pose proof (lookup_lt_Some _ _ _ Hi) as Hlt.
  destruct (records_lt p i r Hi) as [Hlt' Hi'].
  destruct (exists_last (l := records p)) as (l & m & Hl); [by intros E; rewrite E in Hi|].
  rewrite Hl in Hlen, Hlt, Hi. rewrite length_app in Hlen, Hlt. simpl in Hlen, Hlt.
  assert (ip_investors p !! length l = Some m) as Hm.
  { apply (records_lt p). by rewrite Hl, lookup_app_r, Nat.sub_diag. }
  unfold remove_slot. rewrite Hf. simpl. unfold checked_sub.
  pose proof (pwf_count _ Hwf). pose proof (pwf_length _ Hwf). unfold MAX_INVESTORS in *.
  rewrite checked_in by (unfold_range; lia). cbn.
  replace (Z.to_nat (ip_count p - 1)) with (length l) by lia. rewrite Hm. cbn.
  unfold set_slot. rewrite require_true by lia. cbn.
  rewrite require_true by (rewrite length_insert; lia). cbn. eexists. split; [done|].
  match goal with |- pool_wf ?q /\ _ =>
    assert (records q = take (length l) (<[i := m]> (records p))) as Hrec end.
  { unfold records. cbn. replace (Z.to_nat (ip_count p - 1)) with (length l) by lia.
    rewrite take_insert_ge by lia. rewrite <- take_insert_lt, take_take by lia.
    f_equal. lia. }
  assert (records p ≡ₚ r :: take (length l) (<[i := m]> (records p))) as Hperm
    by (rewrite Hl; by apply swap_remove_perm).
  assert (NoDup (ir_investor <$> r :: take (length l) (<[i := m]> (records p)))) as Hnd
    by (rewrite <- Hperm; apply Hwf).
  split_and!; [|done|by rewrite Hrec|].
  - constructor; cbn; [by rewrite !length_insert|unfold MAX_INVESTORS; lia|].
    rewrite Hrec. by apply NoDup_cons in Hnd as [_ Hnd].
  - unfold pool_map at 2. rewrite (record_map_perm _ _ (pwf_nodup _ Hwf) Hperm).
    unfold pool_map. rewrite Hrec. unfold record_map at 2. rewrite fmap_cons. cbn. rewrite Hk.
    symmetry. apply delete_insert_id. apply record_map_None.
    apply NoDup_cons in Hnd as [Hnin _]. by rewrite <- Hk.
Qed.
End Remove.

Lemma pool_map_key p k r : pool_wf p -> pool_map p !! k = Some r -> ir_investor r = k.
Proof.
  intros Hwf Hr. destruct (find_record_cases p Hwf k) as [(i & r0 & _ & _ & Hk & Hr0)|(_ & _ & Hn)]; congruence.
Qed.

(** ** One record replaced

    [pool_update k r r' p p']: the pool [p'] is [p] with the record [r] of investor [k]
    replaced by [r'], where [r] is an empty record when [k] had none. *)
Record pool_update (k : Pubkey) (r r' : InvestorRecord) (p p' : InvestorPool) : Prop := {
  pu_wf : pool_wf p';
  pu_map : pool_map p' = <[k := r']> (pool_map p);
  pu_before : pool_map p !! k = Some r \/ pool_map p !! k = None /\ r = empty_record k;
  pu_records : exists rest, records p' ≡ₚ r' :: rest
    /\ (records p ≡ₚ r :: rest \/ records p ≡ₚ rest /\ r = empty_record k);
}.

Lemma set_slot_update p i k r r' :
  pool_wf p -> find_record k p = Ok (Some (i, r)) -> ir_investor r' = k ->
  exists p', set_slot i r' p = Ok p' /\ ip_count p' = ip_count p /\ pool_update k r r' p p'
    /\ pool_map p !! k = Some r.
Proof.
  intros Hwf Hf Hk. destruct (find_record_cases p Hwf k) as [(i0 & r0 & Hf0 & Hi & Hk0 & Hm)|(Hf0 & _)];
    [|congruence]. assert (i0 = i /\ r0 = r) as [-> ->] by (split; congruence).
  destruct (set_slot_spec p Hwf i r r' Hi) as (p' & Hs & Hwf' & Hc & Hr & Hm'); [congruence|].
  exists p'. split_and!; [done..| |done]. rewrite Hk0 in Hm'. constructor; [done|done|by left|].
  destruct (insert_perm _ _ _ Hi) as (rest & H1 & H2). exists rest. rewrite Hr, H2. auto.
Qed.

Lemma push_slot_update p k r' :
  pool_wf p -> find_record k p = Ok None -> ip_count p < Z.of_nat MAX_INVESTORS ->
  ir_investor r' = k ->
  exists i p1 p', push_record k p = Ok (i, p1) /\ set_slot i r' p1 = Ok p'
    /\ pool_update k (empty_record k) r' p p' /\ pool_map p !! k = None.
Proof.
  intros Hwf Hf Hc Hk. destruct (find_record_cases p Hwf k) as [(? & ? & ? & _)|(_ & Hnin & Hm)];
    [congruence|].
  destruct (push_record_spec p Hwf k Hc Hnin) as (p1 & Hp & Hwf1 & Hr1 & Hm1).
  assert (records p1 !! length (records p) = Some (empty_record k)) as Hi
    by (by rewrite Hr1, lookup_app_r, Nat.sub_diag).
  destruct (set_slot_spec p1 Hwf1 _ _ r' Hi) as (p' & Hs & Hwf' & _ & Hr & Hm'); [done|].
  eexists _, p1, p'. split_and!; [done..| |done]. constructor; [done| |by right|].
  - rewrite Hm', Hm1. cbn. apply insert_insert_eq.
  - destruct (insert_perm _ _ _ Hi) as (rest & H1 & H2). exists rest. rewrite Hr, H2. split; [done|].
    right. split; [|done]. rewrite Hr1, Permutation_app_comm in H1. by apply (inj (cons _)) in H1.
Qed.

(** What an update does to a sum over the pool. *)
Lemma pool_update_sum k r r' p p' (f : InvestorRecord -> Z) :
  pool_update k r r' p p' -> f (empty_record k) = 0 ->
  sumZ f (records p') = sumZ f (records p) - f r + f r'.
Proof.
  intros [_ _ _ (rest & H1 & [H2|[H2 ->]])] Hf; rewrite H1, H2, ?sumZ_cons, ?Hf; lia.
Qed.

Lemma pool_update_Forall k r r' p p' (P : InvestorRecord -> Prop) :
  pool_update k r r' p p' -> Forall P (records p) -> P r' -> Forall P (records p').
Proof.
  intros [_ _ _ (rest & H1 & H2)] Hall Hr'. rewrite H1. apply Forall_cons. split; [done|].
  destruct H2 as [H2|[H2 _]]; rewrite H2 in Hall; [by apply Forall_cons in Hall as [_ ?]|done].
Qed.

Lemma pool_update_before k r r' p p' (P : InvestorRecord -> Prop) :
  pool_update k r r' p p' -> Forall P (records p) -> P (empty_record k) -> P r.
Proof.
  intros [_ _ _ (rest & _ & H2)] Hall He.
  destruct H2 as [H2|[H2 ->]]; [|done]. rewrite H2 in Hall. by apply Forall_cons in Hall as [? _].
Qed.
