(* ===== verification/Runtime.v ===== *)
(** * The programs around the floor contract

    The Solana runtime, the token programs, the system program and Anchor are not part
    of the repository.  [Runtime] lists what the handlers use of them: observers of the
    accounts those programs own, program-derived addresses, rent, and [invoke], the
    cross-program invocation of one instruction.  [RuntimeLaws] states the documented
    behaviour the theorems rely on; every theorem that relies on it takes the class as
    an argument, and [Sandbox.v] has a concrete instance.

    [World] is the state of a handler: the program's own accounts and the rest of the
    chain. *)
From coqutil Require Import Datatypes.RecordSettersUsingExistingGetters.
From stdpp Require Import base gmap strings numbers list.
From S2P Require Import Prelude.
From S2P Require Import State.
#[local] Open Scope Z_scope.

(** A token account and a mint, as the token interface reads them.
    [mi_transfer_hook] is the [TransferHook] extension (its program id may be unset),
    [mi_transfer_fee] the presence of [TransferFeeConfig], and [mi_metadata] the
    [additional_metadata] of the [TokenMetadata] extension. *)
Record TokenAccount := mkTokenAccount {
  ta_mint : Pubkey;
  ta_owner : Pubkey;
  ta_amount : Z;
  ta_program : Pubkey;
}.

Record Mint := mkMint {
  mi_decimals : Z;
  mi_transfer_hook : option (option Pubkey);
  mi_transfer_fee : bool;
  mi_metadata : option (list (string * string));
}.

Inductive AuthorityType := MintTokens | FreezeAccountAuthority.

(** The instructions the program invokes on other programs. *)
Inductive Cpi :=
| TransferChecked (program from mint to authority : Pubkey) (hook_accounts : list Pubkey)
    (amount decimals : Z)
| SystemTransfer (from to : Pubkey) (amount : Z)
| SystemCreateAccount (from to : Pubkey) (amount space : Z) (owner : Pubkey)
| SystemAllocate (account : Pubkey) (space : Z)
| SystemAssign (account owner : Pubkey)
| InitializeAccount3 (program account mint authority : Pubkey)
| InitializeMetadataPointer (mint authority metadata_address : Pubkey)
| InitializeNonTransferableMint (mint : Pubkey)
| InitializeMint2 (mint : Pubkey) (decimals : Z) (mint_authority : Pubkey)
    (freeze_authority : option Pubkey)
| MetadataInitialize (metadata update_authority mint mint_authority : Pubkey)
    (name symbol uri : string)
| MetadataUpdateField (metadata update_authority : Pubkey) (key value : string)
| AssociatedTokenCreate (payer associated_token authority mint : Pubkey)
| MintTo (mint to authority : Pubkey) (amount : Z)
| FreezeAccount (account mint authority : Pubkey)
| SetAuthority (account_or_mint current_authority : Pubkey) (kind : AuthorityType)
    (new_authority : option Pubkey).

(** The seeds of one signing program-derived address, and of all of them. *)
Notation Seeds := (list (list Z)) (only parsing).

Class Runtime := {
  Chain : Type;
  find_program_address : Seeds -> Pubkey -> Pubkey * Z;
  create_program_address : Seeds -> Pubkey -> option Pubkey;
  associated_token_address : Pubkey -> Pubkey -> Pubkey -> Pubkey;
  token_id : Pubkey;
  token_2022_id : Pubkey;
  associated_token_program_id : Pubkey;
  system_program_id : Pubkey;
  InvestorAllocated_DISCRIMINATOR : list Z;
  rent_minimum_balance : Z -> Z;
  mint_account_len : Z;
  token_account_len : Chain -> Pubkey -> Z;
  lamports : Chain -> Pubkey -> Z;
  account_owner : Chain -> Pubkey -> Pubkey;
  account_data : Chain -> Pubkey -> list Z;
  token_account : Chain -> Pubkey -> option TokenAccount;
  mint_account : Chain -> Pubkey -> option Mint;
  programdata_address : Chain -> Pubkey -> R (option Pubkey);
  upgrade_authority : Chain -> Pubkey -> option (option Pubkey);
  invoke : list Seeds -> Cpi -> Chain -> R Chain;
  set_lamports : Pubkey -> Z -> Chain -> Chain;
  assign_account : Pubkey -> Pubkey -> Chain -> Chain;
  clear_data : Pubkey -> Chain -> Chain;
}.

Section Addresses.
Context `{Runtime}.

(** The addresses of the program's singleton accounts. *)
Definition contract_state_address : Pubkey := (find_program_address [CONTRACT_STATE_SEED] ID).1.
Definition investor_pool_address : Pubkey := (find_program_address [INVESTOR_POOL_SEED] ID).1.
Definition usdc_vault_address : Pubkey := (find_program_address [USDC_VAULT_SEED] ID).1.
Definition waln_vault_address : Pubkey := (find_program_address [WALN_VAULT_SEED] ID).1.
Definition treasury_address : Pubkey := (find_program_address [TREASURY_SEED] ID).1.
Definition round_record_address (i : Z) : Pubkey :=
  (find_program_address [ROUND_RECORD_SEED; le_bytes 8 i] ID).1.
Definition round_locked_waln_address (i : Z) : Pubkey :=
  (find_program_address [ROUND_LOCKED_WALN_SEED; le_bytes 8 i] ID).1.

(** The balance of a token account; an account that does not exist holds nothing. *)
Definition token_amount (c : Chain) (k : Pubkey) : Z :=
  match token_account c k with Some a => ta_amount a | None => 0 end.

(** [#[account(seeds = [..], bump)]] *)
Definition check_seeds (seeds : Seeds) (key : Pubkey) : R unit :=
  require ((find_program_address seeds ID).1 = key) (Anchor ConstraintSeeds).

(** [#[account(address = ..)]] *)
Definition check_address (expected key : Pubkey) : R unit :=
  require (key = expected) (Anchor ConstraintAddress).

(** [#[account(token::mint = .., token::authority = .., token::token_program = ..)]] *)
Definition check_token (c : Chain) (key mint authority program : Pubkey) : R TokenAccount :=
  a ← ok_or (token_account c key) (Anchor AccountNotInitialized);
  _ ← require (ta_mint a = mint) (Anchor ConstraintTokenMint);
  _ ← require (ta_owner a = authority) (Anchor ConstraintTokenOwner);
  _ ← require (ta_program a = program) (Anchor ConstraintTokenTokenProgram);
  Ok a.

(** [#[account(associated_token::mint = .., associated_token::authority = ..)]] *)
Definition check_associated (c : Chain) (key mint authority program : Pubkey) : R TokenAccount :=
  a ← ok_or (token_account c key) (Anchor AccountNotInitialized);
  _ ← require (ta_owner a = authority) (Anchor ConstraintTokenOwner);
  _ ← require (associated_token_address authority mint program = key) (Anchor ConstraintAssociated);
  _ ← require (ta_program a = program) (Anchor ConstraintTokenTokenProgram);
  Ok a.

(** [Program<'info, T>] and [Interface<'info, TokenInterface>] *)
Definition check_program (expected key : Pubkey) : R unit :=
  require (key = expected) (Anchor InvalidProgramId).
Definition check_token_program (key : Pubkey) : R unit :=
  require (key = token_id \/ key = token_2022_id) (Anchor InvalidProgramId).

(** Loading an [InterfaceAccount<Mint>] *)
Definition load_mint (c : Chain) (key : Pubkey) : R Mint :=
  ok_or (mint_account c key) (Anchor AccountNotInitialized).

(** Nothing the contract's address owns is lost between two states of the chain: its
    token accounts keep their mint and owner and hold at least as much, and mints keep
    what the contract read of them. *)
Record keeps (c c' : Chain) : Prop := {
  keeps_tokens k a :
    token_account c k = Some a -> ta_owner a = contract_state_address ->
    exists a', token_account c' k = Some a' /\ ta_owner a' = ta_owner a
               /\ ta_mint a' = ta_mint a /\ ta_amount a <= ta_amount a';
  keeps_mints k m :
    mint_account c k = Some m ->
    exists m', mint_account c' k = Some m' /\ mi_decimals m' = mi_decimals m
               /\ mi_transfer_fee m' = mi_transfer_fee m;
}.

(** An invocation carries the contract state's signature when one of its seed lists is
    that address's. *)
Definition signed_by_contract (seeds : list Seeds) : Prop :=
  exists s, s ∈ seeds /\ head s = Some CONTRACT_STATE_SEED.
End Addresses.

(** The seeds of the program's state, vault, pool, treasury and round accounts. *)
Inductive program_seeds : Seeds -> Prop :=
| seeds_contract_state : program_seeds [CONTRACT_STATE_SEED]
| seeds_investor_pool : program_seeds [INVESTOR_POOL_SEED]
| seeds_usdc_vault : program_seeds [USDC_VAULT_SEED]
| seeds_waln_vault : program_seeds [WALN_VAULT_SEED]
| seeds_treasury : program_seeds [TREASURY_SEED]
| seeds_round_record i : in_range U64 i -> program_seeds [ROUND_RECORD_SEED; le_bytes 8 i]
| seeds_round_locked_waln i :
    in_range U64 i -> program_seeds [ROUND_LOCKED_WALN_SEED; le_bytes 8 i].

(** ** Documented behaviour the theorems rely on *)
Class RuntimeLaws `{Runtime} : Prop := {
  (** Program-derived addresses are SHA-256 hashes of the seeds: the program's own seeds
      do not collide.  A bump found for some seeds derives the same address. *)
  pda_inj s1 s2 :
    program_seeds s1 -> program_seeds s2 ->
    (find_program_address s1 ID).1 = (find_program_address s2 ID).1 -> s1 = s2;
  pda_bump s k b :
    find_program_address s ID = (k, b) -> create_program_address (s ++ [[b]]) ID = Some k;
  pda_bump_u8 s program : in_range U8 (find_program_address s program).2;
  (** Without the contract's signature no invocation debits what it owns. *)
  unsigned_keeps seeds i c c' :
    ~ signed_by_contract seeds -> invoke seeds i c = Ok c' -> keeps c c';
  (** A transfer moves the amount, when the mint takes no transfer fee. *)
  transfer_effect seeds prog from mint to auth hooks amt dec c c' :
    invoke seeds (TransferChecked prog from mint to auth hooks amt dec) c = Ok c' ->
    (forall m, mint_account c mint = Some m -> mi_transfer_fee m = false) ->
    from <> to ->
    exists a b, token_account c from = Some a /\ token_account c to = Some b
      /\ amt <= ta_amount a
      /\ token_account c' from = Some (a <| ta_amount := ta_amount a - amt |>)
      /\ token_account c' to = Some (b <| ta_amount := ta_amount b + amt |>);
  (** A transfer signed by the contract touches no other account it owns. *)
  transfer_frame seeds prog from mint to auth hooks amt dec c c' k a :
    invoke seeds (TransferChecked prog from mint to auth hooks amt dec) c = Ok c' ->
    token_account c k = Some a -> ta_owner a = contract_state_address -> k <> from ->
    exists a', token_account c' k = Some a' /\ ta_owner a' = ta_owner a
               /\ ta_mint a' = ta_mint a /\ ta_amount a <= ta_amount a';
  transfer_mints seeds prog from mint to auth hooks amt dec c c' k m :
    invoke seeds (TransferChecked prog from mint to auth hooks amt dec) c = Ok c' ->
    mint_account c k = Some m ->
    exists m', mint_account c' k = Some m' /\ mi_decimals m' = mi_decimals m
               /\ mi_transfer_fee m' = mi_transfer_fee m;
  (** A token account starts empty. *)
  initialize_account_effect seeds prog account mint auth c c' :
    invoke seeds (InitializeAccount3 prog account mint auth) c = Ok c' ->
    token_account c' account = Some (mkTokenAccount mint auth 0 prog);
  (** [update_field] makes the value the first one under its key. *)
  metadata_update_effect seeds mint auth key value c c' :
    invoke seeds (MetadataUpdateField mint auth key value) c = Ok c' ->
    account_owner c' mint = account_owner c mint
    /\ exists m f1 f2, mint_account c' mint = Some m
         /\ mi_metadata m = Some (f1 ++ (key, value) :: f2) /\ key ∉ f1.*1;
  (** An invocation fails with an error of the program it is made to. *)
  invoke_error seeds i c e : invoke seeds i c = Err e -> exists code, e = ProgramError code;
  programdata_error c k e : programdata_address c k = Err e -> exists code, e = ProgramError code;
  (** Lamports, owner and data of an account say nothing of the token accounts. *)
  set_lamports_keeps k v c : keeps c (set_lamports k v c);
  assign_account_keeps k o c : keeps c (assign_account k o c);
  clear_data_keeps k c : keeps c (clear_data k c);
}.

(** ** The state a handler works on *)

(** A program log line: raw bytes ([sol_log_data]) or an event ([emit!]). *)
Inductive LogEntry :=
| LogData (buf : list Z)
| Emit (e : Event).

Record World `{Runtime} := mkWorld {
  w_state : ProgramState;
  w_pool : InvestorPool;
  w_round_locked_waln : gmap Pubkey RoundLockedWaln;
  w_round_record : gmap Pubkey RoundRecord;
  w_chain : Chain;
  w_log : list LogEntry;
}.

(** The [contract_state] account of an admin instruction:
    [constraint = contract_state.load()?.admin == admin.key() @ FloorError::Unauthorized] *)
Definition check_admin `{Runtime} (admin contract_state : Pubkey) (w : World) : R unit :=
  _ ← check_seeds [CONTRACT_STATE_SEED] contract_state;
  ensure (ps_admin (w_state w) = admin) Unauthorized.

Section Keeps.
Context `{RuntimeLaws}.

Lemma keeps_refl c : keeps c c.
Proof. constructor; eauto 10 with lia. Qed.

Lemma keeps_trans c1 c2 c3 : keeps c1 c2 -> keeps c2 c3 -> keeps c1 c3.
Proof.
  intros [Ht1 Hm1] [Ht2 Hm2]. constructor.
  - intros k a Hk Ho. destruct (Ht1 k a Hk Ho) as (a1 & Hk1 & Ho1 & Hi1 & Ha1).
    destruct (Ht2 k a1 Hk1) as (a2 & Hk2 & Ho2 & Hi2 & Ha2); [congruence|].
    exists a2. repeat split; [done|congruence|congruence|lia].
  - intros k m Hk. destruct (Hm1 k m Hk) as (m1 & Hk1 & Hd1 & Hf1).
    destruct (Hm2 k m1 Hk1) as (m2 & Hk2 & Hd2 & Hf2). exists m2. split_and!; congruence.
Qed.

#[export] Instance keeps_preorder : PreOrder keeps.
Proof. split; [exact keeps_refl|exact keeps_trans]. Qed.

Lemma check_token_ok c key mint authority program a :
  check_token c key mint authority program = Ok a <->
  token_account c key = Some a /\ ta_mint a = mint /\ ta_owner a = authority
  /\ ta_program a = program.
Proof.
  unfold check_token. split; [intros; inv_ok; naive_solver|].
  intros (-> & <- & <- & <-). simpl. by rewrite !require_true.
Qed.

Lemma check_seeds_ok seeds key u :
  check_seeds seeds key = Ok u <-> (find_program_address seeds ID).1 = key.
Proof. unfold check_seeds. by rewrite require_ok. Qed.
End Keeps.

Section Pda.
Context `{RuntimeLaws}.

Lemma round_locked_waln_address_inj i j :
  in_range U64 i -> in_range U64 j ->
  round_locked_waln_address i = round_locked_waln_address j -> i = j.
Proof.
  intros Hi Hj Heq. apply pda_inj in Heq; [|by constructor..].
  apply le_bytes8_inj; [done..|]. congruence.
Qed.

Lemma round_record_address_inj i j :
  in_range U64 i -> in_range U64 j -> round_record_address i = round_record_address j -> i = j.
Proof.
  intros Hi Hj Heq. apply pda_inj in Heq; [|by constructor..].
  apply le_bytes8_inj; [done..|]. congruence.
Qed.

Lemma vault_addresses_ne : usdc_vault_address <> waln_vault_address.
Proof. intros Heq. apply pda_inj in Heq; [discriminate|constructor..]. Qed.
End Pda.

#[export] Hint Resolve keeps_refl : floor.
