(* ===== verification/Sandbox.v ===== *)
(** * A concrete runtime

    An executable instance of [Runtime] that satisfies [RuntimeLaws]: token accounts,
    mints, lamports, owners and data in finite maps, and program-derived addresses that
    spell out their seeds, a key among them by its last eight bytes, in 32 bytes.  It shows that the laws
    can hold and lets the concrete inputs of the development be evaluated. *)
From coqutil Require Import Datatypes.RecordSettersUsingExistingGetters.
From stdpp Require Import base gmap strings numbers list.
From S2P Require Import Prelude.
From S2P Require Import State.
From S2P Require Import Runtime.
#[local] Open Scope Z_scope.

Record SandboxChain := mkSandboxChain {
  sb_tokens : gmap Pubkey TokenAccount;
  sb_mints : gmap Pubkey Mint;
  sb_lamports : gmap Pubkey Z;
  sb_owners : gmap Pubkey Pubkey;
  sb_data : gmap Pubkey (list Z);
  sb_programdata : option Pubkey;
  sb_upgrade_authority : option Pubkey;
}.

(** A seed behind its length; a key is cut to its last eight bytes. *)
Definition encode_seed (s : list Z) : list Z :=
  let s := if decide (length s < 32)%nat then s else drop (length s - 8) s in
  Z.of_nat (length s) :: s.

(** Seeds spelled out, in 32 bytes. *)
Definition encode_seeds (seeds : Seeds) : Pubkey :=
  let l := concat (map encode_seed seeds) in
  replicate (32 - length l) 0 ++ l.

(** Every program shares one space of addresses. *)
Definition sandbox_pda (seeds : Seeds) (_ : Pubkey) : Pubkey := encode_seeds seeds.

Definition sandbox_create_pda (seeds : Seeds) (program : Pubkey) : option Pubkey :=
  match reverse seeds with
  | b :: rest => if decide (b = [255]) then Some (sandbox_pda (reverse rest) program) else None
  | [] => None
  end.

Definition sandbox_token_id : Pubkey := key_of 201.
Definition sandbox_token_2022_id : Pubkey := key_of 202.
Definition sandbox_ata_program_id : Pubkey := key_of 203.
Definition sandbox_system_id : Pubkey := default_pubkey.

Definition sandbox_contract : Pubkey := sandbox_pda [CONTRACT_STATE_SEED] ID.

Definition sandbox_error : Error := ProgramError 1.

(** The authority of a transfer has signed, when it is the contract's address. *)
Definition sandbox_signed (seeds : list Seeds) (authority : Pubkey) : Prop :=
  authority = sandbox_contract -> [CONTRACT_STATE_SEED; [255]] ∈ seeds.
#[export] Instance sandbox_signed_dec seeds authority : Decision (sandbox_signed seeds authority).
Proof. unfold sandbox_signed. apply _. Defined.

Definition sandbox_transfer (seeds : list Seeds) (program from mint to authority : Pubkey)
  (amount decimals : Z) (c : SandboxChain) : R SandboxChain :=
  m ← ok_or (sb_mints c !! mint) sandbox_error;
  _ ← require (mi_decimals m = decimals /\ mi_transfer_fee m = false) sandbox_error;
  a ← ok_or (sb_tokens c !! from) sandbox_error;
  b ← ok_or (sb_tokens c !! to) sandbox_error;
  _ ← require (ta_mint a = mint /\ ta_mint b = mint /\ ta_owner a = authority) sandbox_error;
  _ ← require (ta_program a = program /\ ta_program b = program) sandbox_error;
  _ ← require (sandbox_signed seeds authority) sandbox_error;
  _ ← require (0 <= amount <= ta_amount a) sandbox_error;
  if decide (from = to) then Ok c
  else Ok (c <| sb_tokens := <[to := b <| ta_amount := ta_amount b + amount |>]>
                               (<[from := a <| ta_amount := ta_amount a - amount |>]> (sb_tokens c)) |>).

Definition sandbox_lamports (c : SandboxChain) (k : Pubkey) : Z := default 0 (sb_lamports c !! k).

Definition sandbox_move_lamports (from to : Pubkey) (amount : Z) (c : SandboxChain) : R SandboxChain :=
  _ ← require (0 <= amount <= sandbox_lamports c from) sandbox_error;
  let l1 := <[from := sandbox_lamports c from - amount]> (sb_lamports c) in
  Ok (c <| sb_lamports := <[to := default 0 (l1 !! to) + amount]> l1 |>).

(** [update_field] replaces the first field with the key, or appends one. *)
Fixpoint set_field (key value : string) (fields : list (string * string)) : list (string * string) :=
  match fields with
  | [] => [(key, value)]
  | (k, v) :: fields =>
      if decide (k = key) then (k, value) :: fields else (k, v) :: set_field key value fields
  end.

Definition sandbox_new_token (account mint owner program : Pubkey) (c : SandboxChain) : R SandboxChain :=
  _ ← require (sb_tokens c !! account = None) sandbox_error;
  Ok (c <| sb_tokens := <[account := mkTokenAccount mint owner 0 program]> (sb_tokens c) |>).

Definition sandbox_ata (authority mint program : Pubkey) : Pubkey :=
  encode_seeds [authority; mint; program].

Definition sandbox_invoke (seeds : list Seeds) (i : Cpi) (c : SandboxChain) : R SandboxChain :=
  match i with
  | TransferChecked program from mint to authority _ amount decimals =>
      sandbox_transfer seeds program from mint to authority amount decimals c
  | SystemTransfer from to amount => sandbox_move_lamports from to amount c
  | SystemCreateAccount from to amount space owner =>
      _ ← require (sandbox_lamports c to = 0) sandbox_error;
      c ← sandbox_move_lamports from to amount c;
      Ok (c <| sb_owners := <[to := owner]> (sb_owners c) |>
            <| sb_data := <[to := replicate (Z.to_nat space) 0]> (sb_data c) |>)
  | SystemAllocate account space =>
      _ ← require (default [] (sb_data c !! account) = []
                   /\ default sandbox_system_id (sb_owners c !! account) = sandbox_system_id) sandbox_error;
      Ok (c <| sb_data := <[account := replicate (Z.to_nat space) 0]> (sb_data c) |>)
  | SystemAssign account owner => Ok (c <| sb_owners := <[account := owner]> (sb_owners c) |>)
  | InitializeAccount3 program account mint authority =>
      sandbox_new_token account mint authority program c
  | InitializeMetadataPointer _ _ _ | InitializeNonTransferableMint _ => Ok c
  | InitializeMint2 mint decimals _ _ =>
      _ ← require (sb_mints c !! mint = None) sandbox_error;
      Ok (c <| sb_mints := <[mint := mkMint decimals None false None]> (sb_mints c) |>)
  | MetadataInitialize _ _ mint _ _ _ _ =>
      m ← ok_or (sb_mints c !! mint) sandbox_error;
      Ok (c <| sb_mints := <[mint := m <| mi_metadata := Some [] |>]> (sb_mints c) |>)
  | MetadataUpdateField mint _ key value =>
      m ← ok_or (sb_mints c !! mint) sandbox_error;
      fields ← ok_or (mi_metadata m) sandbox_error;
      Ok (c <| sb_mints := <[mint := m <| mi_metadata := Some (set_field key value fields) |>]>
                             (sb_mints c) |>)
  | AssociatedTokenCreate _ account authority mint =>
      _ ← require (account = sandbox_ata authority mint sandbox_token_2022_id) sandbox_error;
      sandbox_new_token account mint authority sandbox_token_2022_id c
  | MintTo mint to _ amount =>
      a ← ok_or (sb_tokens c !! to) sandbox_error;
      _ ← require (ta_mint a = mint /\ 0 <= amount) sandbox_error;
      Ok (c <| sb_tokens := <[to := a <| ta_amount := ta_amount a + amount |>]> (sb_tokens c) |>)
  | FreezeAccount _ _ _ | SetAuthority _ _ _ _ => Ok c
  end.

#[export] Instance sandbox : Runtime := {|
  Chain := SandboxChain;
  find_program_address seeds program := (sandbox_pda seeds program, 255);
  create_program_address := sandbox_create_pda;
  associated_token_address := sandbox_ata;
  token_id := sandbox_token_id;
  token_2022_id := sandbox_token_2022_id;
  associated_token_program_id := sandbox_ata_program_id;
  system_program_id := sandbox_system_id;
  InvestorAllocated_DISCRIMINATOR := [1; 2; 3; 4; 5; 6; 7; 8];
  rent_minimum_balance space := 3480 * (space + 128) * 2;
  mint_account_len := 234;
  token_account_len _ _ := 165;
  lamports := sandbox_lamports;
  account_owner c k := default sandbox_system_id (sb_owners c !! k);
  account_data c k := default [] (sb_data c !! k);
  token_account c k := sb_tokens c !! k;
  mint_account c k := sb_mints c !! k;
  programdata_address c _ := Ok (sb_programdata c);
  upgrade_authority c _ := Some (sb_upgrade_authority c);
  invoke := sandbox_invoke;
  set_lamports k v c := c <| sb_lamports := <[k := v]> (sb_lamports c) |>;
  assign_account k o c := c <| sb_owners := <[k := o]> (sb_owners c) |>;
  clear_data k c := c <| sb_data := delete k (sb_data c) |>;
|}.

(** ** The laws hold *)

(** Eight bytes written out. *)
Lemma eight_bytes (l : list Z) :
  length l = 8%nat -> exists a b c d e f g h, l = [a; b; c; d; e; f; g; h].
Proof. do 9 (destruct l as [|? l]; try done). by do 8 eexists. Qed.

Lemma sandbox_pda_inj s1 s2 :
  program_seeds s1 -> program_seeds s2 -> encode_seeds s1 = encode_seeds s2 -> s1 = s2.
Proof.
  assert (forall i, exists a b c d e f g h, le_bytes 8 i = [a; b; c; d; e; f; g; h]) as Hl
    by (intros i; apply eight_bytes, length_le_bytes).
  intros [| | | | |i _|i _] [| | | | |j _|j _]; try done;
    try destruct (Hl i) as (? & ? & ? & ? & ? & ? & ? & ? & ->);
    try destruct (Hl j) as (? & ? & ? & ? & ? & ? & ? & ? & ->);
    unfold encode_seeds; cbn; intros Heq; try discriminate Heq; by injection Heq as -> -> -> -> -> -> -> ->.
Qed.

Lemma sandbox_pda_bump s k b :
  find_program_address s ID = (k, b) -> create_program_address (s ++ [[b]]) ID = Some k.
Proof.
  cbn. intros [= <- <-]. unfold sandbox_create_pda. rewrite reverse_snoc.
  by rewrite decide_True, reverse_involutive by done.
Qed.

Lemma keeps_same (c c' : SandboxChain) :
  sb_tokens c' = sb_tokens c -> sb_mints c' = sb_mints c -> keeps c c'.
Proof. intros Ht Hm. constructor; cbn; rewrite ?Ht, ?Hm; eauto 10 with lia. Qed.

Lemma keeps_token (c : SandboxChain) k a :
  (forall b, sb_tokens c !! k = Some b -> ta_owner b = sandbox_contract ->
     ta_owner a = ta_owner b /\ ta_mint a = ta_mint b /\ ta_amount b <= ta_amount a) ->
  keeps c (c <| sb_tokens := <[k := a]> (sb_tokens c) |>).
Proof.
  intros Hk. constructor; cbn; [|eauto 10].
  intros k' b Hb Ho. destruct (decide (k = k')) as [<-|Hne].
  - exists a. rewrite lookup_insert_eq. destruct (Hk b Hb Ho) as (? & ? & ?). auto.
  - exists b. rewrite lookup_insert_ne by done. auto with lia.
Qed.

Lemma keeps_mint (c : SandboxChain) k m :
  (forall m0, sb_mints c !! k = Some m0 ->
     mi_decimals m = mi_decimals m0 /\ mi_transfer_fee m = mi_transfer_fee m0) ->
  keeps c (c <| sb_mints := <[k := m]> (sb_mints c) |>).
Proof.
  intros Hk. constructor; cbn; [eauto 10 with lia|].
  intros k' b Hb. destruct (decide (k = k')) as [<-|Hne].
  - exists m. rewrite lookup_insert_eq. destruct (Hk b Hb) as (? & ?). auto.
  - exists b. rewrite lookup_insert_ne by done. auto.
Qed.

Lemma sandbox_new_token_keeps account mint owner program c c' :
  sandbox_new_token account mint owner program c = Ok c' -> keeps c c'.
Proof. unfold sandbox_new_token. intros Hx. inv_ok. apply keeps_token. congruence. Qed.

Lemma sandbox_move_keeps from to amount c c' :
  sandbox_move_lamports from to amount c = Ok c' ->
  sb_tokens c' = sb_tokens c /\ sb_mints c' = sb_mints c.
Proof. unfold sandbox_move_lamports. intros Hx. by inv_ok. Qed.

Lemma sandbox_transfer_ok seeds program from mint to authority amount decimals c c' :
  sandbox_transfer seeds program from mint to authority amount decimals c = Ok c' ->
  exists a b, sb_tokens c !! from = Some a /\ sb_tokens c !! to = Some b
    /\ ta_owner a = authority /\ ta_mint a = mint /\ sandbox_signed seeds authority
    /\ 0 <= amount <= ta_amount a
    /\ c' = (if decide (from = to) then c
             else c <| sb_tokens := <[to := b <| ta_amount := ta_amount b + amount |>]>
                    (<[from := a <| ta_amount := ta_amount a - amount |>]> (sb_tokens c)) |>).
Proof.
  unfold sandbox_transfer. intros Hx. inv_ok. eexists _, _. split_and!; eauto; try tauto.
  by case_decide; inv_ok.
Qed.

(** A transfer keeps everything but its source. *)
Lemma sandbox_transfer_frame seeds program from mint to authority amount decimals c c' k x :
  sandbox_transfer seeds program from mint to authority amount decimals c = Ok c' ->
  sb_tokens c !! k = Some x -> k <> from ->
  exists y, sb_tokens c' !! k = Some y /\ ta_owner y = ta_owner x /\ ta_mint y = ta_mint x
            /\ ta_amount x <= ta_amount y.
Proof.
  intros (a & b & Ha & Hb & _ & _ & _ & Hamt & ->)%sandbox_transfer_ok Hk Hne.
  case_decide; [exists x; auto with lia|]. cbn. destruct (decide (k = to)) as [->|Hto].
  - eexists. rewrite lookup_insert_eq. split; [done|]. simplify_eq. cbn. auto with lia.
  - exists x. rewrite !lookup_insert_ne by done. auto with lia.
Qed.

Lemma set_field_spec key value fields :
  exists f1 f2, set_field key value fields = f1 ++ (key, value) :: f2 /\ key ∉ f1.*1.
Proof.
  induction fields as [|[k v] fields (f1 & f2 & Heq & Hk)]; cbn [set_field].
  - exists [], []. split; [done|]. apply not_elem_of_nil.
  - case_decide as Hd.
    + subst. exists [], fields. split; [done|]. apply not_elem_of_nil.
    + exists ((k, v) :: f1), f2. rewrite Heq. split; [done|]. set_solver.
Qed.

Lemma sandbox_unsigned seeds i c c' :
  ~ signed_by_contract seeds -> sandbox_invoke seeds i c = Ok c' -> keeps c c'.
Proof.
  intros Hs Hx. destruct i; cbn in Hx; inv_ok; try (by apply keeps_same);
    try (by eapply sandbox_new_token_keeps).
  - constructor; cbn.
    + intros k x Hk Ho. eapply sandbox_transfer_frame; [done..|]. intros ->. apply Hs.
      apply sandbox_transfer_ok in Hx as (a & b & Ha & _ & Hoa & _ & Hsig & _).
      exists [CONTRACT_STATE_SEED; [255]]. split; [|done]. apply Hsig. simplify_eq. done.
    + apply sandbox_transfer_ok in Hx as (a & b & _ & _ & _ & _ & _ & _ & ->).
      intros k m Hk. case_decide; eauto.
  - apply sandbox_move_keeps in Hx as [? ?]. by apply keeps_same.
  - match goal with H : sandbox_move_lamports _ _ _ _ = _ |- _ =>
      apply sandbox_move_keeps in H as [? ?] end. by apply keeps_same.
  - apply keeps_mint. congruence.
  - apply keeps_mint. intros. by simplify_eq.
  - apply keeps_mint. intros. by simplify_eq.
  - apply keeps_token. intros. simplify_eq. cbn. destruct_and!. split_and!; [done..|lia].
Qed.

Lemma sandbox_invoke_error seeds i c : errs (fun e => exists code, e = ProgramError code) (sandbox_invoke seeds i c).
Proof.
  assert (exists code, sandbox_error = ProgramError code) by (by exists 1).
  destruct i; cbn; unfold sandbox_transfer, sandbox_move_lamports, sandbox_new_token; errs.
Qed.

#[export] Instance sandbox_laws : RuntimeLaws.
Proof.
  constructor.
  - exact sandbox_pda_inj.
  - apply sandbox_pda_bump.
  - intros. cbn. range.
  - apply sandbox_unsigned.
  - cbn. intros seeds prog from mint to auth hooks amt dec c c' Hx _ Hne.
    apply sandbox_transfer_ok in Hx as (a & b & Ha & Hb & _ & _ & _ & Hamt & ->).
    rewrite decide_False by done. exists a, b. cbn.
    rewrite lookup_insert_eq, lookup_insert_ne, lookup_insert_eq by done. auto with lia.
  - cbn. intros. by eapply sandbox_transfer_frame.
  - cbn. intros seeds prog from mint to auth hooks amt dec c c' k m Hx Hk.
    apply sandbox_transfer_ok in Hx as (a & b & _ & _ & _ & _ & _ & _ & ->).
    case_decide; eauto.
  - cbn. unfold sandbox_new_token. intros. inv_ok. cbn. by rewrite lookup_insert_eq.
  - cbn. intros seeds mint auth key value c c' Hx. inv_ok. cbn. split; [done|].
    match goal with |- context [set_field _ _ ?fs] =>
      destruct (set_field_spec key value fs) as (f1 & f2 & -> & Hk) end.
    eexists _, f1, f2. rewrite lookup_insert_eq. cbn. auto.
  - intros seeds i c. exact (sandbox_invoke_error seeds i c).
  - done.
  - intros. by apply keeps_same.
  - intros. by apply keeps_same.
  - intros. by apply keeps_same.
Qed.
