(* ===== verification/Vaults.v ===== *)
(** * The vaults

    The two token accounts the contract's address owns, and what the instructions of
    other programs can do to them: an invocation without the contract's signature never
    takes anything out, and a transfer moves exactly its amount. *)
From coqutil Require Import Datatypes.RecordSettersUsingExistingGetters.
From stdpp Require Import base gmap strings numbers list.
From S2P Require Import Prelude.
From S2P Require Import State.
From S2P Require Import Runtime.
#[local] Open Scope Z_scope.

Section Vaults.
Context `{RuntimeLaws}.

Definition is_vault (k : Pubkey) : Prop := k = usdc_vault_address \/ k = waln_vault_address.

Definition vault_mint (s : ProgramState) (k : Pubkey) : Pubkey :=
  if decide (k = usdc_vault_address) then ps_usdc_mint s else ps_waln_mint s.

(** The vaults exist, belong to the contract and hold the right mint; neither mint takes
    a transfer fee, and the wALN mint has the decimals the state remembers. *)
Record vaults (s : ProgramState) (c : Chain) : Prop := {
  va_account k : is_vault k ->
    exists a, token_account c k = Some a /\ ta_owner a = contract_state_address
              /\ ta_mint a = vault_mint s k;
  va_fee k : is_vault k ->
    exists m, mint_account c (vault_mint s k) = Some m /\ mi_transfer_fee m = false;
  va_decimals : exists m, mint_account c (ps_waln_mint s) = Some m
                          /\ mi_decimals m = ps_waln_decimals s;
}.

(** Two states with the same mints and decimals. *)
Definition same_mints (s s' : ProgramState) : Prop :=
  ps_usdc_mint s' = ps_usdc_mint s /\ ps_waln_mint s' = ps_waln_mint s
  /\ ps_waln_decimals s' = ps_waln_decimals s.

Lemma vaults_state s s' c : same_mints s s' -> vaults s c -> vaults s' c.
Proof.
  intros (Hu & Hw & Hd) [Ha Hf Hdec].
  assert (forall k, vault_mint s' k = vault_mint s k) as Hm
    by (intros k; unfold vault_mint; by rewrite Hu, Hw).
  constructor.
  - intros k Hk. rewrite Hm. auto.
  - intros k Hk. rewrite Hm. auto.
  - rewrite Hw, Hd. done.
Qed.

Definition at_least (c c' : Chain) (k : Pubkey) (change : Z) : Prop :=
  token_amount c k + change <= token_amount c' k.

Lemma vaults_keeps s c c' :
  keeps c c' -> vaults s c -> vaults s c' /\ forall k, is_vault k -> at_least c c' k 0.
Proof.
  intros [Ht Hm] [Ha Hf (m & Hdm & Hd)]. split; [constructor|].
  - intros k Hk. destruct (Ha k Hk) as (a & H1 & H2 & H3).
    destruct (Ht k a H1 H2) as (a' & ? & ? & ? & _). exists a'. split_and!; congruence.
  - intros k Hk. destruct (Hf k Hk) as (m1 & H1 & H2).
    destruct (Hm _ m1 H1) as (m' & ? & _ & ?). exists m'. split; congruence.
  - destruct (Hm _ m Hdm) as (m' & ? & ? & _). exists m'. split; congruence.
  - intros k Hk. destruct (Ha k Hk) as (a & H1 & H2 & _).
    destruct (Ht k a H1 H2) as (a' & H1' & _ & _ & ?).
    unfold at_least, token_amount. rewrite H1, H1'. lia.
Qed.

(** A transfer of one of the two mints between different accounts. *)
Lemma vaults_transfer s seeds prog from mint to auth hooks amt dec c c' :
  invoke seeds (TransferChecked prog from mint to auth hooks amt dec) c = Ok c' ->
  vaults s c -> (exists k, is_vault k /\ mint = vault_mint s k) -> from <> to ->
  vaults s c' /\ forall k, is_vault k ->
    at_least c c' k ((if decide (k = to) then amt else 0) - (if decide (k = from) then amt else 0)).
Proof.
  intros Hx Hv (k0 & Hk0 & ->) Hne.
  destruct (transfer_effect _ _ _ _ _ _ _ _ _ _ _ Hx) as (a & b & Hfrom & Hto & _ & Hfrom' & Hto');
    [|done|].
  { destruct (va_fee _ _ Hv k0 Hk0) as (m & H1 & H2). intros m' Hm'. congruence. }
  assert (forall k x, token_account c k = Some x -> ta_owner x = contract_state_address ->
    exists y, token_account c' k = Some y /\ ta_owner y = ta_owner x /\ ta_mint y = ta_mint x
      /\ ta_amount x + (if decide (k = to) then amt else 0) - (if decide (k = from) then amt else 0)
         <= ta_amount y) as Hacc.
  { intros k x Hk Ho. destruct (decide (k = from)) as [->|Hf].
    - rewrite decide_False by done. eexists. split; [exact Hfrom'|]. simplify_eq. cbn. auto with lia.
    - destruct (decide (k = to)) as [->|Ht].
      + eexists. split; [exact Hto'|]. simplify_eq. cbn. auto with lia.
      + destruct (transfer_frame _ _ _ _ _ _ _ _ _ _ _ _ _ Hx Hk Ho Hf) as (y & ? & ? & ? & ?).
        exists y. split_and!; [done..|lia]. }
  assert (forall k m, mint_account c k = Some m -> exists m', mint_account c' k = Some m'
    /\ mi_decimals m' = mi_decimals m /\ mi_transfer_fee m' = mi_transfer_fee m) as Hmints
    by (intros k m Hk; by eapply transfer_mints).
  destruct Hv as [Ha Hf (m & Hdm & Hd)]. split; [constructor|].
  - intros k Hk. destruct (Ha k Hk) as (x & H1 & H2 & H3).
    destruct (Hacc k x H1 H2) as (y & ? & ? & ? & _). exists y. split_and!; congruence.
  - intros k Hk. destruct (Hf k Hk) as (m1 & H1 & H2).
    destruct (Hmints _ m1 H1) as (m' & ? & _ & ?). exists m'. split; congruence.
  - destruct (Hmints _ m Hdm) as (m' & ? & ? & _). exists m'. split; congruence.
  - intros k Hk. destruct (Ha k Hk) as (x & H1 & H2 & _).
    destruct (Hacc k x H1 H2) as (y & H1' & _ & _ & ?).
    unfold at_least, token_amount. rewrite H1, H1'. lia.
Qed.

(** The mint of a vault, as the accounts struct of an instruction identifies it. *)
Lemma vault_mint_usdc s : vault_mint s usdc_vault_address = ps_usdc_mint s.
Proof. unfold vault_mint. by rewrite decide_True. Qed.
Lemma vault_mint_waln s : vault_mint s waln_vault_address = ps_waln_mint s.
Proof.
  unfold vault_mint. rewrite decide_False; [done|]. intros Heq. by apply vault_addresses_ne.
Qed.

Lemma is_vault_usdc : is_vault usdc_vault_address.
Proof. by left. Qed.
Lemma is_vault_waln : is_vault waln_vault_address.
Proof. by right. Qed.

(** An account of somebody else is not a vault. *)
Lemma not_vault s c k a :
  vaults s c -> token_account c k = Some a -> ta_owner a <> contract_state_address -> ~ is_vault k.
Proof. intros Hv Hk Ho Hvk. destruct (va_account _ _ Hv k Hvk) as (a' & ? & ? & _). congruence. Qed.

(** A transfer of a vault's mint from somebody else's account into the vault. *)
Lemma vault_credit s v seeds prog from auth hooks amt dec c c' x :
  vaults s c -> is_vault v -> token_account c from = Some x ->
  ta_owner x <> contract_state_address ->
  invoke seeds (TransferChecked prog from (vault_mint s v) v auth hooks amt dec) c = Ok c' ->
  vaults s c' /\ forall k, is_vault k -> at_least c c' k (if decide (k = v) then amt else 0).
Proof.
  intros Hv Hvv Hx Ho Hinv. pose proof (not_vault _ _ _ _ Hv Hx Ho) as Hn.
  destruct (vaults_transfer _ _ _ _ _ _ _ _ _ _ _ _ Hinv Hv) as [Hv' Hat]; [eauto|congruence|].
  split; [done|]. intros k Hk. specialize (Hat k Hk). unfold at_least in *.
  rewrite (decide_False (P := k = from)) in Hat by congruence. lia.
Qed.

(** ... and out of it. *)
Lemma vault_debit s v seeds prog to auth hooks amt dec c c' x :
  vaults s c -> is_vault v -> token_account c to = Some x ->
  ta_owner x <> contract_state_address ->
  invoke seeds (TransferChecked prog v (vault_mint s v) to auth hooks amt dec) c = Ok c' ->
  vaults s c' /\ forall k, is_vault k -> at_least c c' k (if decide (k = v) then - amt else 0).
Proof.
  intros Hv Hvv Hx Ho Hinv. pose proof (not_vault _ _ _ _ Hv Hx Ho) as Hn.
  destruct (vaults_transfer _ _ _ _ _ _ _ _ _ _ _ _ Hinv Hv) as [Hv' Hat]; [eauto|congruence|].
  split; [done|]. intros k Hk. specialize (Hat k Hk). unfold at_least in *.
  rewrite (decide_False (P := k = to)) in Hat by congruence. case_decide; lia.
Qed.
End Vaults.

#[export] Hint Resolve is_vault_usdc is_vault_waln : floor.
