(* ===== verification/RoundStart.v ===== *)
(** * Starting a round: [instructions/start_round.rs]

    [execute_round_start] chooses the eligible investors of a round, locks each one's
    share of the round's USDC cap and moves the rounding gap to the first of them that
    can pay it.  The slice it mutates is passed in and returned; on an error nothing has
    been written, except for the overflow errors, which abort the transaction.

    A [candidate] pairs a record with its entry of the source's [eligible] array. *)
From coqutil Require Import Datatypes.RecordSettersUsingExistingGetters.
From stdpp Require Import base gmap strings numbers list.
From S2P Require Import Prelude.
From S2P Require Import State.
#[local] Open Scope Z_scope.

Notation candidate := (InvestorRecord * bool)%type.

(** The round's cap in USDC, [round_size_waln * floor_price_usdc / 10^waln_decimals]. *)
Definition round_cap (round_size_waln floor_price_usdc waln_decimals : Z) : R Z :=
  waln_scale ← pow10_u128 waln_decimals;
  product ← cmul U128 round_size_waln floor_price_usdc;
  cdiv U128 product waln_scale.

Definition initially_eligible (min_deposit : Z) (r : InvestorRecord) : bool :=
  bool_decide (0 < ir_usdc_deposited r) && bool_decide (0 < ir_aat_volume r)
  && bool_decide (min_deposit <= ir_usdc_deposited r).

(** The first inner loop: the volume of the candidates still eligible. *)
Definition sum_volumes (l : list candidate) : R Z :=
  foldM (fun total (c : candidate) =>
           if c.2 then cadd U64 total (ir_aat_volume c.1) else Ok total) 0 l.

Definition required_lock (cap total_aat_volume : Z) (r : InvestorRecord) : R Z :=
  product ← cmul U128 cap (ir_aat_volume r);
  cdiv U128 product total_aat_volume.

(** The second inner loop's body: drop a candidate whose share is nothing or more than
    its deposit, and remember that something changed. *)
Definition recheck (cap total_aat_volume : Z) (changed : bool) (c : candidate)
  : R (bool * candidate) :=
  if negb c.2 then Ok (changed, c)
  else
    required ← required_lock cap total_aat_volume c.1;
    if decide (required = 0 \/ ir_usdc_deposited c.1 < required)
    then Ok (true, (c.1, false))
    else Ok (changed, c).

(** [loop { .. if !changed { break; } }] *)
Fixpoint eligibility_loop (fuel : nat) (cap : Z) (l : list candidate)
  : R (Z * list candidate) :=
  match fuel with
  | O => Err OutOfFuel
  | S fuel =>
      total_aat_volume ← sum_volumes l;
      _ ← ensure (0 < total_aat_volume) NoEligibleInvestors;
      '(changed, l') ← mapAccM (recheck cap total_aat_volume) false l;
      if (changed : bool) then eligibility_loop fuel cap l'
      else Ok (total_aat_volume, l')
  end.

(** The locking loop's body. *)
Definition lock_share (cap total_aat_volume : Z) (total_usdc_locked : Z) (c : candidate)
  : R (Z * candidate) :=
  if negb c.2 then Ok (total_usdc_locked, c)
  else
    usdc_locked_u128 ← required_lock cap total_aat_volume c.1;
    let usdc_locked := as_unsigned U64 (Z.min usdc_locked_u128 (ir_usdc_deposited c.1)) in
    if decide (usdc_locked = 0) then Ok (total_usdc_locked, c)
    else
      deposited ← csub U64 (ir_usdc_deposited c.1) usdc_locked;
      total ← cadd U64 total_usdc_locked usdc_locked;
      Ok (total, (c.1 <| ir_usdc_deposited := deposited |>
                      <| ir_usdc_locked_current_round := usdc_locked |>, c.2)).

(** The gap loop: the first eligible record that can pay the gap pays it. *)
Fixpoint cover_gap (gap total_usdc_locked : Z) (l : list candidate) : R (Z * list candidate) :=
  match l with
  | [] => Ok (total_usdc_locked, [])
  | c :: l =>
      if c.2 && bool_decide (gap <= ir_usdc_deposited c.1) then
        deposited ← csub U64 (ir_usdc_deposited c.1) gap;
        locked ← cadd U64 (ir_usdc_locked_current_round c.1) gap;
        total ← cadd U64 total_usdc_locked gap;
        Ok (total, (c.1 <| ir_usdc_deposited := deposited |>
                        <| ir_usdc_locked_current_round := locked |>, c.2) :: l)
      else
        '(total, l') ← cover_gap gap total_usdc_locked l;
        Ok (total, c :: l')
  end.

(** [execute_round_start]: the result [(total_aat_volume, total_usdc_locked)] and the
    slice as it is left. *)
Definition execute_round_start (investors : list InvestorRecord)
  (round_size_waln floor_price_usdc waln_decimals : Z) : R ((Z * Z) * list InvestorRecord) :=
  cap ← round_cap round_size_waln floor_price_usdc waln_decimals;
  _ ← ensure (0 < cap) InvalidParameter;
  let min_deposit := cap / 2 in
  _ ← require (length investors <= MAX_INVESTORS)%nat Panic;
  let el := map (fun r => (r, initially_eligible min_deposit r)) investors in
  '(total_aat_volume, el) ← eligibility_loop (S (length investors)) cap el;
  '(total_usdc_locked, el) ← mapAccM (lock_share cap total_aat_volume) 0 el;
  let gap_u128 := saturating_sub U128 cap total_usdc_locked in
  '(total_usdc_locked, el) ←
     (if decide (0 < gap_u128)
      then gap ← try_from U64 gap_u128; cover_gap gap total_usdc_locked el
      else Ok (total_usdc_locked, el));
  Ok ((total_aat_volume, total_usdc_locked), map fst el).

(** [require_viable_round_params] *)
Definition require_viable_round_params (round_size_waln floor_price_usdc waln_decimals : Z)
  : R unit :=
  cap ← round_cap round_size_waln floor_price_usdc waln_decimals;
  _ ← ensure (0 < cap) InvalidParameter;
  ensure (MIN_SELL_WALN <= round_size_waln) InvalidParameter.

(** ** Well-formed records and what a start does to one *)

Definition record_wf (r : InvestorRecord) : Prop :=
  in_range U64 (ir_usdc_deposited r) /\ in_range U64 (ir_usdc_locked_current_round r)
  /\ in_range U64 (ir_aat_volume r).

(** [lock l r]: [l] of the deposit of [r] is locked for the round. *)
Definition lock (l : Z) (r : InvestorRecord) : InvestorRecord :=
  r <| ir_usdc_deposited := ir_usdc_deposited r - l |> <| ir_usdc_locked_current_round := l |>.

Lemma lock_0 r : ir_usdc_locked_current_round r = 0 -> lock 0 r = r.
Proof. destruct r; unfold lock; cbn; intros ->. by rewrite Z.sub_0_r. Qed.

Lemma deposited_lock l r : ir_usdc_deposited (lock l r) = ir_usdc_deposited r - l.
Proof. done. Qed.
Lemma locked_lock l r : ir_usdc_locked_current_round (lock l r) = l.
Proof. done. Qed.
#[export] Hint Rewrite deposited_lock locked_lock : floor.

(** The volume a candidate contributes, and the floor of its share of the cap. *)
Definition volume (c : candidate) : Z := if c.2 then ir_aat_volume c.1 else 0.
Definition share (cap total : Z) (c : candidate) : Z := cap * volume c / total.

Definition n_eligible (l : list candidate) : Z := sumZ (fun c : candidate => if c.2 then 1 else 0) l.

Lemma round_cap_ok size price d cap :
  round_cap size price d = Ok cap <->
  cap = size * price / 10 ^ d /\ in_range U128 (10 ^ d) /\ in_range U128 (size * price)
  /\ 10 ^ d <> 0 /\ in_range U128 (size * price / 10 ^ d).
Proof.
  unfold round_cap. split; [intros; inv_arith; naive_solver|].
  intros (-> & ? & ? & ? & ?). rewrite (proj2 (pow10_u128_ok d _)) by eauto. simpl.
  rewrite cmul_in by done. simpl. by apply cdiv_in.
Qed.

Lemma required_lock_ok cap total r v :
  required_lock cap total r = Ok v ->
  v = cap * ir_aat_volume r / total /\ total <> 0 /\ in_range U128 (cap * ir_aat_volume r).
Proof. unfold required_lock. intros. inv_arith. naive_solver. Qed.

(** ** The eligibility loop *)

Lemma sum_volumes_ok l t : sum_volumes l = Ok t -> t = sumZ volume l.
Proof.
  apply (foldM_inv (fun pre t => t = sumZ volume pre)); [done|].
  intros pre c s s' ->. rewrite sumZ_snoc. unfold volume. destruct c as [r []]; simpl; intros.
  - by inv_arith.
  - simplify_eq. lia.
Qed.

(** A pass keeps the records and only ever clears flags. *)
Definition narrows (c c' : candidate) : Prop := c'.1 = c.1 /\ (c'.2 = true -> c.2 = true).

(** The condition a candidate still eligible satisfied when it was last examined. *)
Definition affordable (cap total : Z) (c : candidate) : Prop :=
  c.2 = true -> cap * ir_aat_volume c.1 / total <> 0
                /\ cap * ir_aat_volume c.1 / total <= ir_usdc_deposited c.1.

Lemma recheck_pass cap total l b b' l' :
  mapAccM (recheck cap total) b l = Ok (b', l') ->
  Forall2 narrows l l'
  /\ n_eligible l' <= n_eligible l
  /\ (b' = true -> b = true \/ n_eligible l' < n_eligible l)
  /\ (b' = false -> l' = l /\ Forall (affordable cap total) l).
Proof.
  apply (mapAccM_inv (fun pre b' ys => Forall2 narrows pre ys
    /\ n_eligible ys <= n_eligible pre
    /\ (b' = true -> b = true \/ n_eligible ys < n_eligible pre)
    /\ (b' = false -> ys = pre /\ Forall (affordable cap total) pre))).
  { split_and!; auto with lia. }
  intros pre [r e] s ys s' y (HF & Hle & Ht & Hf) Hx. unfold recheck in Hx. simpl in Hx.
  unfold n_eligible in *. rewrite !sumZ_snoc. destruct e; simpl in *.
  - apply bind_ok in Hx as (req & Hreq & Hx). apply required_lock_ok in Hreq as (-> & _ & _).
    case_decide as Hd; simplify_eq; simpl; split_and!;
      [by apply Forall2_snoc|lia|lia|done|by apply Forall2_snoc|lia|naive_solver lia|].
    intros [-> Hall]%Hf. rewrite Forall_snoc. unfold affordable; simpl. split_and!; [done..|lia].
  - simplify_eq; simpl.
    split_and!; [by apply Forall2_snoc|lia|naive_solver lia|].
    intros [-> Hall]%Hf. by rewrite Forall_snoc.
Qed.

#[export] Instance narrows_preorder : PreOrder narrows.
Proof. split; [done|]. intros c1 c2 c3 [? ?] [? ?]. split; [congruence|eauto]. Qed.

(** What the loop ends with: the flags of a subset of the candidates, whose total
    volume it reports and who can all afford their share of it. *)
Lemma eligibility_loop_ok fuel cap l total l' :
  eligibility_loop fuel cap l = Ok (total, l') ->
  Forall2 narrows l l' /\ total = sumZ volume l' /\ 0 < total /\ Forall (affordable cap total) l'.
Proof.
  revert l. induction fuel as [|fuel IH]; intros l; simpl; [done|]. intros Hl.
  apply bind_ok in Hl as (t & Ht & Hl). apply bind_ok in Hl as (u & Hpos & Hl).
  apply require_ok in Hpos. apply bind_ok in Hl as ([b l1] & Hpass & Hl).
  destruct (recheck_pass _ _ _ _ _ _ Hpass) as (HF & _ & _ & Hf). destruct b.
  - destruct (IH _ Hl) as (HF' & Hrest). split; [by etrans|done].
  - simplify_eq. destruct (Hf eq_refl) as [-> Hall].
    split_and!; [done|by apply sum_volumes_ok|done|done].
Qed.

Lemma n_eligible_bound l : 0 <= n_eligible l <= Z.of_nat (length l).
Proof.
  unfold n_eligible. split; [apply sumZ_nonneg; intros [r []] _; simpl; lia|].
  transitivity (sumZ (fun _ : candidate => 1) l); [|rewrite sumZ_const; lia].
  apply sumZ_le. intros [r []] _; simpl; lia.
Qed.

Lemma required_lock_err cap total r e : required_lock cap total r = Err e -> e = Floor ArithmeticOverflow.
Proof.
  unfold required_lock. intros [He|(v & _ & He)]%bind_err; eauto with floor.
Qed.

Lemma sum_volumes_err l e : sum_volumes l = Err e -> e = Floor ArithmeticOverflow.
Proof.
  intros (s & [r []] & _ & He)%foldM_err; simpl in He; [|done]. eauto with floor.
Qed.

Lemma recheck_err cap total b c e : recheck cap total b c = Err e -> e = Floor ArithmeticOverflow.
Proof.
  unfold recheck. destruct (negb c.2); [done|].
  intros [He|(v & _ & He)]%bind_err; [by eapply required_lock_err|]. by case_decide.
Qed.

(** The loop terminates: every pass that asks for another one drops a candidate. *)
Lemma eligibility_loop_fuel fuel cap l :
  n_eligible l < Z.of_nat fuel -> eligibility_loop fuel cap l <> Err OutOfFuel.
Proof.
  revert l. induction fuel as [|fuel IH]; intros l Hn; simpl.
  { pose proof (n_eligible_bound l). lia. }
  intros [He|(t & Ht & Hl)]%bind_err; [by apply sum_volumes_err in He|].
  apply bind_err in Hl as [He|(u & _ & Hl)]; [by apply require_err in He as [_ ?]|].
  apply bind_err in Hl as [He|([b l'] & Hpass & Hl)].
  { apply mapAccM_err in He as (? & ? & _ & He). by apply recheck_err in He. }
  apply recheck_pass in Hpass as (_ & _ & Hdec & _). destruct b; [|done].
  revert Hl. apply IH. destruct (Hdec eq_refl); [done|lia].
Qed.

(** ** Locking the shares *)

Definition lock_candidate (cap total : Z) (c : candidate) : candidate :=
  (if c.2 then lock (share cap total c) c.1 else c.1, c.2).

Lemma lock_share_ok cap total acc c s' c' :
  0 <= cap -> 0 < total -> record_wf c.1 -> affordable cap total c ->
  lock_share cap total acc c = Ok (s', c') ->
  s' = acc + share cap total c /\ c' = lock_candidate cap total c.
Proof.
  destruct c as [r []]; unfold lock_share, lock_candidate, share, volume, affordable; simpl;
    intros Hcap Htot (Hd & _ & Hv) Haff Hc; [|simplify_eq; by rewrite Z.mul_0_r, Z.div_0_l, Z.add_0_r by lia].
  destruct (Haff eq_refl) as [Hne Hle].
  apply bind_ok in Hc as (v & Hv' & Hc). apply required_lock_ok in Hv' as (-> & _ & _).
  assert (as_unsigned U64 (Z.min (cap * ir_aat_volume r / total) (ir_usdc_deposited r))
          = cap * ir_aat_volume r / total) as Heq.
  { rewrite Z.min_l by lia. unfold as_unsigned. apply Z.mod_small.
    pose proof (Z.div_pos (cap * ir_aat_volume r) total). unfold_range. nia. }
  rewrite Heq in Hc. case_decide; [done|]. inv_arith. done.
Qed.

Lemma lock_pass cap total l tl l' :
  0 <= cap -> 0 < total -> Forall (fun c => record_wf c.1) l -> Forall (affordable cap total) l ->
  mapAccM (lock_share cap total) 0 l = Ok (tl, l') ->
  tl = sumZ (share cap total) l /\ l' = map (lock_candidate cap total) l.
Proof.
  intros Hcap Htot Hwf Haff Hl. revert Hwf Haff.
  refine (mapAccM_inv (fun pre s ys =>
    Forall (fun c : candidate => record_wf c.1) pre -> Forall (affordable cap total) pre ->
    s = sumZ (share cap total) pre /\ ys = map (lock_candidate cap total) pre)
    _ l 0 tl l' _ _ Hl); [done|].
  intros pre c s ys s' y IH Hc [Hw1 Hw2]%Forall_snoc [Ha1 Ha2]%Forall_snoc.
  destruct (IH Hw1 Ha1) as [-> ->]. apply lock_share_ok in Hc as [-> ->]; [|done..].
  by rewrite sumZ_snoc, map_app.
Qed.

Lemma volume_eligible l : 0 < sumZ volume l -> 0 < n_eligible l.
Proof.
  pose proof (n_eligible_bound l). intros Hv.
  destruct (decide (n_eligible l = 0)) as [Hz|]; [exfalso|lia].
  revert Hz. clear H. induction l as [|[r []] l IH]; [rewrite sumZ_nil in Hv; lia| |].
  - pose proof (n_eligible_bound l). unfold n_eligible in *. rewrite sumZ_cons; simpl. lia.
  - apply IH. by rewrite sumZ_cons in Hv.
Qed.

(** The shares are floors of a proportional split: they never exceed the cap and miss
    less than one unit per eligible candidate. *)
Lemma shares_bound cap total l :
  0 < cap -> total = sumZ volume l -> 0 < total -> Forall (fun c => 0 <= volume c) l ->
  sumZ (share cap total) l <= cap /\ cap - sumZ (share cap total) l < n_eligible l.
Proof.
  intros Hcap Htot Hpos Hnn. unfold share.
  pose proof (sumZ_div_le (fun c => cap * volume c) total l Hpos) as Hle.
  assert (sumZ (fun c => cap * volume c) l = cap * total) as Hs by (rewrite sumZ_scale; lia).
  rewrite Hs in Hle.
  assert (cap * total <= sumZ (fun c => cap * volume c / total) l * total + (total - 1) * n_eligible l) as Hge.
  { rewrite <- Hs. apply sumZ_div_gt; [done|]. intros [r []]; [by left|right].
    unfold volume; simpl. split; [done|lia]. }
  split; [nia|].
  destruct (decide (n_eligible l <= cap - sumZ (fun c => cap * volume c / total) l)); [|lia].
  assert (0 < n_eligible l) by (apply volume_eligible; lia). nia.
Qed.

(** ** The gap *)

Definition pay_gap (gap : Z) (c : candidate) : candidate :=
  (c.1 <| ir_usdc_deposited := ir_usdc_deposited c.1 - gap |>
       <| ir_usdc_locked_current_round := ir_usdc_locked_current_round c.1 + gap |>, c.2).

Lemma cover_gap_ok gap t l t' l' :
  cover_gap gap t l = Ok (t', l') ->
  (t' = t /\ l' = l /\ forall i c, l !! i = Some c -> c.2 = true -> ir_usdc_deposited c.1 < gap)
  \/ (exists i c, l !! i = Some c /\ c.2 = true /\ gap <= ir_usdc_deposited c.1
        /\ t' = t + gap /\ l' = <[i := pay_gap gap c]> l).
Proof.
  revert t' l'. induction l as [|c l IH]; intros t' l' Hl; simpl in Hl.
  { simplify_eq. left. split_and!; [done..|]. by intros []. }
  destruct (c.2 && bool_decide (gap <= ir_usdc_deposited c.1)) eqn:Hc.
  - apply andb_true_iff in Hc as [Hf Hd%bool_decide_eq_true]. inv_arith.
    right. exists 0%nat, c. done.
  - apply bind_ok in Hl as ([t1 l1] & Hrec & Hl). simplify_eq.
    destruct (IH _ _ Hrec) as [(-> & -> & Hall)|(i & c' & ? & ? & ? & -> & ->)].
    + left. split_and!; [done..|]. intros [|i] c' Hi Hf; simplify_eq/=; [|by eapply Hall].
      rewrite Hf in Hc. simpl in Hc. apply bool_decide_eq_false in Hc. lia.
    + right. by exists (S i), c'.
Qed.

Lemma pay_gap_lock gap s r e : pay_gap gap (lock s r, e) = (lock (s + gap) r, e).
Proof. destruct r. unfold pay_gap, lock, set; cbn. do 2 f_equal; lia. Qed.

(** ** What a successful start does

    [participant cap total r l] holds of a record that takes part with [l] locked. *)
Record participant (cap total : Z) (r : InvestorRecord) (l : Z) : Prop := {
  part_volume : 0 < ir_aat_volume r;
  part_min_deposit : cap / 2 <= ir_usdc_deposited r;
  part_share : cap * ir_aat_volume r / total <= l;
}.

Record start_spec (cap : Z) (before : list InvestorRecord) (ta tl : Z) (ls : list Z) : Prop := {
  ss_cap : 0 < cap;
  ss_length : length ls = length before;
  ss_bounds i l r : ls !! i = Some l -> before !! i = Some r -> 0 <= l <= ir_usdc_deposited r;
  ss_participant i l r :
    ls !! i = Some l -> before !! i = Some r -> 0 < l -> participant cap ta r l;
  ss_total : tl = sumZ id ls;
  ss_le_cap : tl <= cap;
  ss_gap : cap - tl < sumZ (fun l => if decide (0 < l) then 1 else 0) ls;
  ss_volume : ta = sumZ (fun p : Z * InvestorRecord =>
                           if decide (0 < p.1) then ir_aat_volume p.2 else 0) (zip ls before);
  ss_uncovered i l r :
    tl < cap -> ls !! i = Some l -> before !! i = Some r -> 0 < l ->
    ir_usdc_deposited r - l < cap - tl;
}.

(** How far the locks can stay below the cap.  Everyone who takes part has deposited half
    the cap, so among three or more somebody can pay the rounding of the shares, unless the
    cap is tiny. *)
Definition max_gap (cap : Z) : Z := if decide (200 <= cap) then 1 else 99.

Lemma max_gap_bound cap : 1 <= max_gap cap <= 99.
Proof. unfold max_gap. case_decide; lia. Qed.

Lemma start_gap cap before ta tl ls :
  start_spec cap before ta tl ls -> (length before <= MAX_INVESTORS)%nat -> cap - tl <= max_gap cap.
Proof.
  intros Hss Hlen. pose proof (ss_gap _ _ _ _ _ Hss) as Hgap. pose proof (ss_le_cap _ _ _ _ _ Hss).
  set (locking := fun l => if decide (0 < l) then 1 else 0) in *. set (n := sumZ locking ls) in *.
  assert (n <= 100) as Hn.
  { transitivity (sumZ (fun _ : Z => 1) ls).
    - apply sumZ_le. intros l _. unfold locking. case_decide; lia.
    - rewrite sumZ_const, (ss_length _ _ _ _ _ Hss). unfold MAX_INVESTORS in Hlen. lia. }
  unfold max_gap. case_decide as Hcap; [|lia].
  destruct (decide (tl = cap)) as [|Hne]; [lia|].
  assert (n * (cap / 2 - (cap - tl) + 1) <= tl) as Hall.
  { rewrite (ss_total _ _ _ _ _ Hss) at 2. unfold n. rewrite Z.mul_comm, <- sumZ_scale.
    apply sumZ_le. intros l [i Hi]%list_elem_of_lookup.
    assert (i < length before)%nat as [r Hr]%lookup_lt_is_Some
      by (rewrite <- (ss_length _ _ _ _ _ Hss); by eapply lookup_lt_Some).
    unfold locking, id. case_decide as Hl; [|pose proof (ss_bounds _ _ _ _ _ Hss i l r Hi Hr); lia].
    pose proof (part_min_deposit _ _ _ _ (ss_participant _ _ _ _ _ Hss i l r Hi Hr Hl)).
    pose proof (ss_uncovered _ _ _ _ _ Hss i l r ltac:(lia) Hi Hr Hl). lia. }
  pose proof (div_mul_gt cap 2 ltac:(lia)). nia.
Qed.

(** The candidates the loop is left with, seen as the slice and its shares. *)
Record final_candidates (cap total : Z) (before : list InvestorRecord) (l : list candidate) : Prop := {
  fc_records : map fst l = before;
  fc_total : total = sumZ volume l;
  fc_pos : 0 < total;
  fc_afford : Forall (affordable cap total) l;
  fc_initial : Forall (fun c => c.2 = true -> initially_eligible (cap / 2) c.1 = true) l;
}.

Lemma eligibility_final fuel cap before total l :
  eligibility_loop fuel cap (map (fun r => (r, initially_eligible (cap / 2) r)) before) = Ok (total, l) ->
  final_candidates cap total before l.
Proof.
  intros (HF & Ht & Hpos & Haff)%eligibility_loop_ok. constructor; [|done..|].
  - clear Ht Haff. revert l HF. induction before as [|r before IH]; intros l HF; inv HF; [done|].
    destruct H1 as [? _]. simpl in *. f_equal; auto.
  - apply Forall_lookup. intros i c Hi Hc.
    destruct (Forall2_lookup_r _ _ _ _ _ HF Hi) as (c0 & Hc0 & Heq & Himp).
    rewrite list_lookup_fmap in Hc0. destruct (before !! i) as [r|]; simplify_eq/=.
    auto.
Qed.

Section Final.
Context (cap total : Z) (before : list InvestorRecord) (l : list candidate).
Context (Hcap : 0 < cap) (Hfc : final_candidates cap total before l).
Context (Hwf : Forall record_wf before)
        (Hfree : Forall (fun r => ir_usdc_locked_current_round r = 0) before).

Lemma final_lookup i c :
  l !! i = Some c -> before !! i = Some c.1 /\ record_wf c.1 /\ ir_usdc_locked_current_round c.1 = 0.
Proof.
  intros Hi. assert (before !! i = Some c.1) as Hb.
  { rewrite <- (fc_records _ _ _ _ Hfc), list_lookup_fmap. by rewrite Hi. }
  split_and!; [done|by eapply (Forall_lookup_1 _ _ _ _ Hwf)|by eapply (Forall_lookup_1 _ _ _ _ Hfree)].
Qed.

Lemma final_length : length l = length before.
Proof. rewrite <- (fc_records _ _ _ _ Hfc). by rewrite length_map. Qed.

Lemma final_share i c :
  l !! i = Some c ->
  0 <= share cap total c <= ir_usdc_deposited c.1
  /\ (c.2 = true <-> 0 < share cap total c)
  /\ (c.2 = true -> share cap total c = cap * ir_aat_volume c.1 / total
      /\ 0 < ir_aat_volume c.1 /\ cap / 2 <= ir_usdc_deposited c.1).
Proof.
  intros Hi. destruct (final_lookup i c Hi) as (_ & (Hd & _ & Hv) & _).
  pose proof (Forall_lookup_1 _ _ _ _ (fc_afford _ _ _ _ Hfc) Hi) as Ha.
  pose proof (Forall_lookup_1 _ _ _ _ (fc_initial _ _ _ _ Hfc) Hi) as He.
  pose proof (fc_pos _ _ _ _ Hfc) as Hpos.
  destruct c as [r []]; unfold share, volume, affordable in *; simpl in *.
  - destruct (Ha eq_refl) as [Hne Hle]. specialize (He eq_refl).
    unfold initially_eligible in He. apply andb_true_iff in He as [He H3%bool_decide_eq_true].
    apply andb_true_iff in He as [H1%bool_decide_eq_true H2%bool_decide_eq_true].
    assert (0 <= cap * ir_aat_volume r / total) by (apply Z.div_pos; nia).
    split_and!; try done; lia.
  - rewrite Z.mul_0_r, Z.div_0_l by lia. unfold_range. split_and!; try done; lia.
Qed.

Lemma final_volumes :
  Forall (fun c => 0 <= volume c) l /\ Forall (fun c => record_wf c.1) l.
Proof.
  split; apply Forall_lookup; intros i c Hi; destruct (final_lookup i c Hi) as (_ & Hr & _); [|done].
  destruct Hr as (_ & _ & Hv). unfold volume. destruct c.2; unfold_range; lia.
Qed.

(** After the locking loop. *)
Lemma final_locked :
  map fst (map (lock_candidate cap total) l) = zip_with lock (map (share cap total) l) before.
Proof.
  apply list_eq. intros i. rewrite lookup_zip_with, !list_lookup_fmap.
  destruct (l !! i) as [c|] eqn:Hi; simpl; [|done].
  destruct (final_lookup i c Hi) as (-> & _ & Hz). simpl.
  unfold lock_candidate, share, volume. destruct c as [r []]; simpl; [done|].
  rewrite Z.mul_0_r, Z.div_0_l by (pose proof (fc_pos _ _ _ _ Hfc); lia).
  by rewrite lock_0.
Qed.
(** Any locks that give every eligible candidate at least its share. *)
Lemma final_spec ls :
  length ls = length l ->
  (forall i c x, l !! i = Some c -> ls !! i = Some x ->
     share cap total c <= x <= ir_usdc_deposited c.1 /\ (c.2 = true <-> 0 < x)) ->
  sumZ id ls <= cap -> cap - sumZ id ls < n_eligible l ->
  (forall i c x, sumZ id ls < cap -> l !! i = Some c -> ls !! i = Some x -> c.2 = true ->
     ir_usdc_deposited c.1 - x < cap - sumZ id ls) ->
  start_spec cap before total (sumZ id ls) ls.
Proof.
  intros Hlen Hls Hle Hgap Hun.
  assert (forall i r, before !! i = Some r -> exists c, l !! i = Some c /\ c.1 = r) as Hcand.
  { intros i r Hr. rewrite <- (fc_records _ _ _ _ Hfc), list_lookup_fmap in Hr.
    destruct (l !! i) as [c|] eqn:Hc; simplify_eq/=. eauto. }
  constructor; [done| | | |done|done| | |].
  - by rewrite Hlen, final_length.
  - intros i x r Hx (c & Hc & <-)%Hcand. destruct (Hls i c x Hc Hx). destruct (final_share i c Hc). lia.
  - intros i x r Hx (c & Hc & <-)%Hcand Hpos. destruct (Hls i c x Hc Hx) as [Hb Hf].
    apply Hf in Hpos. destruct (final_share i c Hc) as (_ & _ & Hs).
    destruct (Hs Hpos) as (Heq & ? & ?). constructor; [done..|]. lia.
  - rewrite (sumZ_lookup (fun l => if decide (0 < l) then 1 else 0) (fun c : candidate => if c.2 then 1 else 0) ls l); [exact Hgap|done|].
    intros i x c Hx Hc. destruct (Hls i c x Hc Hx) as [_ Hf].
    case_decide; destruct c.2; naive_solver.
  - rewrite (fc_total _ _ _ _ Hfc). apply sumZ_lookup.
    { rewrite length_zip_with_l_eq; rewrite ?Hlen; [done|]. by rewrite final_length. }
    intros i c p Hc Hz. apply lookup_zip_with_Some in Hz as (x & r & -> & Hx & Hr).
    simpl. destruct (final_lookup i c Hc) as [Hr' _]. simplify_eq.
    destruct (Hls i c x Hc Hx) as [_ Hf]. unfold volume. case_decide; destruct c.2; naive_solver.
  - intros i x r Hlt Hx (c & Hc & <-)%Hcand Hpos. destruct (Hls i c x Hc Hx) as [_ Hf].
    apply (Hun i); [done..|]. by apply Hf.
Qed.

Let shares : list Z := map (share cap total) l.

Lemma final_shares_bound : sumZ id shares <= cap /\ cap - sumZ id shares < n_eligible l.
Proof.
  unfold shares. rewrite sumZ_map. apply shares_bound; [done|apply Hfc|apply Hfc|].
  apply final_volumes.
Qed.

(** The slice after the locking and the gap loops. *)
Lemma final_gap tl tl' l' :
  tl = sumZ id shares ->
  (if decide (0 < saturating_sub U128 cap tl)
   then gap ← try_from U64 (saturating_sub U128 cap tl);
        cover_gap gap tl (map (lock_candidate cap total) l)
   else Ok (tl, map (lock_candidate cap total) l)) = Ok (tl', l') ->
  exists ls, start_spec cap before total tl' ls /\ map fst l' = zip_with lock ls before.
Proof.
  intros -> Hg. pose proof final_shares_bound as [Hle Hlt].
  assert (forall i c x, l !! i = Some c -> shares !! i = Some x ->
    share cap total c <= x <= ir_usdc_deposited c.1 /\ (c.2 = true <-> 0 < x)) as Hls.
  { intros i c x Hc Hx. unfold shares in Hx. rewrite list_lookup_fmap, Hc in Hx. simplify_eq/=.
    destruct (final_share i c Hc) as (? & ? & _). split; [lia|done]. }
  assert (saturating_sub U128 cap (sumZ id shares) = cap - sumZ id shares) as Hsat.
  { unfold saturating_sub, int_min. lia. }
  rewrite Hsat in Hg. case_decide as Hpos.
  - apply bind_ok in Hg as (gap & Hgap & Hg). inv_arith.
    apply cover_gap_ok in Hg as [(-> & -> & Hun)|(i & c & Hc & Hf & Hd & -> & ->)].
    + exists shares. split; [|by apply final_locked]. apply final_spec; [by unfold shares; rewrite length_map|done..|].
      intros i [r e] x _ Hc Hx Hf. unfold shares in Hx. rewrite list_lookup_fmap, Hc in Hx.
      simplify_eq/=. apply (Hun i (lock_candidate cap total (r, true))); [|done].
      by rewrite list_lookup_fmap, Hc.
    + rewrite list_lookup_fmap in Hc. destruct (l !! i) as [[r e]|] eqn:Hi; simplify_eq/=.
      assert (shares !! i = Some (share cap total (r, true))) as Hsh
        by (unfold shares; by rewrite list_lookup_fmap, Hi).
      set (gap := cap - sumZ id shares) in *.
      set (ls := <[i := share cap total (r, true) + gap]> shares).
      assert (sumZ id ls = cap) as Hsum by (unfold ls, gap; rewrite (sumZ_insert _ _ _ _ _ Hsh); unfold id; lia).
      exists ls. replace (sumZ id shares + gap) with (sumZ id ls) by (unfold gap; lia). split.
      * apply final_spec; [unfold ls, shares; by rewrite length_insert, length_map| |lia|lia|lia].
        intros j c x Hj Hx. apply list_lookup_insert_Some in Hx as [(<- & <- & _)|[_ Hx]]; [|by eapply Hls].
        simplify_eq. destruct (Hls i _ _ Hi Hsh) as [? Hp]. cbn in Hd, Hp |- *. naive_solver lia.
      * rewrite list_fmap_insert.
        change (fst <$> map (lock_candidate cap total) l) with (map fst (map (lock_candidate cap total) l)).
        rewrite final_locked by done. unfold ls. fold shares.
        unfold lock_candidate at 1. cbn [fst snd]. rewrite pay_gap_lock. cbn [fst].
        destruct (final_lookup i _ Hi) as [Hb _].
        apply list_eq. intros j. rewrite lookup_zip_with.
        destruct (decide (i = j)) as [<-|Hne].
        { rewrite Hb, !list_lookup_insert_eq; [done|..].
          - by apply lookup_lt_Some in Hsh.
          - rewrite length_zip_with. apply lookup_lt_Some in Hsh, Hb. lia. }
        by rewrite !list_lookup_insert_ne, lookup_zip_with.
  - simplify_eq. exists shares. split; [|by apply final_locked].
    apply final_spec; [by unfold shares; rewrite length_map|done..|lia].
Qed.
End Final.

Lemma execute_round_start_spec before size price d ta tl after :
  Forall record_wf before ->
  Forall (fun r => ir_usdc_locked_current_round r = 0) before ->
  execute_round_start before size price d = Ok ((ta, tl), after) ->
  exists cap ls, round_cap size price d = Ok cap /\ start_spec cap before ta tl ls
    /\ after = zip_with lock ls before /\ (length before <= MAX_INVESTORS)%nat.
Proof.
  intros Hwf Hfree Hx. unfold execute_round_start in Hx.
  apply bind_ok in Hx as (cap & Hcap & Hx). apply bind_ok in Hx as (u1 & Hpos%require_ok & Hx).
  apply bind_ok in Hx as (u2 & Hlen%require_ok & Hx).
  apply bind_ok in Hx as ([total l] & Hloop & Hx).
  apply bind_ok in Hx as ([tl1 l1] & Hpass & Hx).
  apply bind_ok in Hx as ([tl2 l2] & Hgap & Hx). simplify_eq.
  apply eligibility_final in Hloop as Hfc.
  destruct (final_volumes _ _ _ _ Hfc Hwf Hfree) as [_ Hwfl].
  apply lock_pass in Hpass as [-> ->]; [|lia|apply Hfc|done|apply Hfc].
  apply (final_gap _ _ _ _ Hpos Hfc Hwf Hfree) in Hgap as (ls & Hss & Hmap);
    [|by rewrite sumZ_map].
  exists cap, ls. auto.
Qed.

(** ** Locks in general: what any consumer of a started round needs *)

Lemma lock_keys ls before :
  length ls = length before -> ir_investor <$> zip_with lock ls before = ir_investor <$> before.
Proof.
  intros Hlen. apply list_eq. intros i. rewrite !list_lookup_fmap, lookup_zip_with.
  destruct (before !! i) as [r|] eqn:Hr; simpl; [|by destruct (ls !! i)].
  apply lookup_lt_Some in Hr as Hlt. rewrite <- Hlen in Hlt.
  by apply lookup_lt_is_Some in Hlt as [x ->].
Qed.

Lemma lock_sums ls before :
  length ls = length before ->
  sumZ ir_usdc_locked_current_round (zip_with lock ls before) = sumZ id ls
  /\ sumZ ir_usdc_deposited (zip_with lock ls before) = sumZ ir_usdc_deposited before - sumZ id ls.
Proof.
  revert before. induction ls as [|x ls IH]; intros [|r before] Hlen; simplify_eq/=; [done|].
  destruct (IH before) as [IH1 IH2]; [done|]. unfold zip_with in *.
  rewrite !sumZ_cons, IH1, IH2, deposited_lock, locked_lock. unfold id. lia.
Qed.

Lemma lock_wf cap before ta tl ls :
  Forall record_wf before -> start_spec cap before ta tl ls ->
  Forall record_wf (zip_with lock ls before).
Proof.
  intros Hwf Hss. apply Forall_lookup. intros i r' Hi.
  apply lookup_zip_with_Some in Hi as (x & r & -> & Hx & Hr).
  pose proof (ss_bounds _ _ _ _ _ Hss i x r Hx Hr).
  destruct (Forall_lookup_1 _ _ _ _ Hwf Hr) as (? & ? & ?).
  unfold record_wf, lock; cbn. unfold_range. lia.
Qed.

(** ** The round starts unless there is a reason not to *)

Section Progress.
Context (cap : Z) (before : list InvestorRecord).
Context (Hcap : 0 < cap).
Context (Hwf : Forall record_wf before)
        (Hfree : Forall (fun r => ir_usdc_locked_current_round r = 0) before).
Context (Hvol : sumZ ir_aat_volume before <= u64_max)
        (Hprod : cap * sumZ ir_aat_volume before <= int_max U128)
        (Hdep : sumZ ir_usdc_deposited before <= u64_max).

Lemma before_wf r : r ∈ before -> record_wf r.
Proof. rewrite Forall_forall in Hwf. apply Hwf. Qed.

Lemma volume_le_total r : r ∈ before -> 0 <= ir_aat_volume r <= sumZ ir_aat_volume before.
Proof using Hwf.
  intros Hr. split; [destruct (before_wf r Hr) as (_ & _ & ?); unfold_range; lia|].
  apply sumZ_elem; [|done]. intros r' (_ & _ & ?)%before_wf. unfold_range. lia.
Qed.

Lemma required_lock_in total r :
  r ∈ before -> 0 < total -> required_lock cap total r = Ok (cap * ir_aat_volume r / total).
Proof.
  intros Hr Htot. pose proof (volume_le_total r Hr).
  assert (0 <= cap * ir_aat_volume r <= int_max U128) by nia.
  pose proof (div_pos_bound (cap * ir_aat_volume r) total).
  unfold required_lock. rewrite cmul_in by (unfold in_range, int_min; lia). simpl.
  apply cdiv_in; [lia|]. unfold in_range, int_min. lia.
Qed.

Lemma candidate_in (l : list candidate) c : map fst l = before -> c ∈ l -> c.1 ∈ before.
Proof using. intros Hl Hc. rewrite <- Hl. by apply list_elem_of_fmap_2. Qed.

Lemma sum_volumes_in l : map fst l = before -> exists t, sum_volumes l = Ok t.
Proof using Hwf Hvol.
  clear Hcap Hfree Hprod Hdep. intros Hl. unfold sum_volumes.
  assert (forall c, c ∈ l -> 0 <= ir_aat_volume c.1) as Hnn.
  { intros c Hc. apply (volume_le_total c.1), (candidate_in l c Hl Hc). }
  destruct (foldM_total (fun pre t => 0 <= t <= sumZ (fun c : candidate => ir_aat_volume c.1) pre)
    (fun total (c : candidate) =>
       if c.2 then cadd U64 total (ir_aat_volume c.1) else Ok total) l 0) as (t & Ht & _);
    [done| |by exists t].
  intros pre c post t Hsplit Ht. rewrite sumZ_snoc.
  assert (0 <= ir_aat_volume c.1) by (apply Hnn; set_solver).
  destruct c.2; [|exists t; split; [done|lia]].
  assert (sumZ (fun c : candidate => ir_aat_volume c.1) l <= u64_max) as Hle
    by (rewrite <- (sumZ_map (fst : candidate -> InvestorRecord) ir_aat_volume), Hl; done).
  rewrite Hsplit, sumZ_app, sumZ_cons in Hle.
  assert (0 <= sumZ (fun c : candidate => ir_aat_volume c.1) post)
    by (apply sumZ_nonneg; intros; apply Hnn; set_solver).
  exists (t + ir_aat_volume c.1). split; [apply cadd_in; unfold_range; lia|lia].
Qed.

Lemma eligibility_loop_in fuel l :
  map fst l = before ->
  (exists total l', eligibility_loop fuel cap l = Ok (total, l'))
  \/ eligibility_loop fuel cap l = Err (Floor NoEligibleInvestors)
  \/ eligibility_loop fuel cap l = Err OutOfFuel.
Proof.
  revert l. induction fuel as [|fuel IH]; intros l Hl; simpl; [auto|].
  destruct (sum_volumes_in l Hl) as [total ->]. simpl.
  destruct (decide (0 < total)) as [Hpos|]; [|rewrite require_false by done; auto].
  rewrite require_true by done. simpl.
  destruct (mapAccM_total (fun _ _ _ => True) (recheck cap total) l false)
    as ([] & l' & Hpass & _); [done| | |].
  - intros pre c post b ys Hsplit _. unfold recheck. destruct (negb c.2); [eauto|].
    rewrite required_lock_in; [|apply (candidate_in l); [done|set_solver]|done].
    simpl. case_decide; eauto.
  - rewrite Hpass. simpl. apply IH. apply recheck_pass in Hpass as (HF & _).
    rewrite <- Hl. clear -HF. induction HF as [|c c' l l' [? _] _ IH]; [done|].
    simpl. congruence.
  - rewrite Hpass. simpl. eauto.
Qed.
Context (total : Z) (l : list candidate) (Hfc : final_candidates cap total before l).

Lemma final_deposits : sumZ (fun c : candidate => ir_usdc_deposited c.1) l <= u64_max.
Proof.
  rewrite <- (sumZ_map (fst : candidate -> InvestorRecord) ir_usdc_deposited).
  by rewrite (fc_records _ _ _ _ Hfc).
Qed.

Lemma final_share_in c :
  c ∈ l -> 0 <= share cap total c <= ir_usdc_deposited c.1 /\ c.1 ∈ before
           /\ ir_usdc_deposited c.1 <= u64_max
           /\ (c.2 = true -> share cap total c = cap * ir_aat_volume c.1 / total).
Proof.
  intros [i Hi]%list_elem_of_lookup.
  destruct (final_share _ _ _ _ Hcap Hfc Hwf Hfree i c Hi) as (? & _ & Hs).
  destruct (final_lookup _ _ _ _ Hfc Hwf Hfree i c Hi) as (Hb & (Hd & _ & _) & _).
  split_and!; [lia|lia|by eapply list_elem_of_lookup_2|unfold_range; lia|naive_solver].
Qed.

Lemma lock_pass_in : exists tl l', mapAccM (lock_share cap total) 0 l = Ok (tl, l').
Proof.
  pose proof final_deposits as Hds. pose proof (fc_pos _ _ _ _ Hfc) as Htot.
  destruct (mapAccM_total (fun pre s _ =>
      0 <= s <= sumZ (fun c : candidate => ir_usdc_deposited c.1) pre)
    (lock_share cap total) l 0) as (s & ys & Hok & _); [done| |eauto].
  intros pre c post s ys Hsplit Hs. rewrite sumZ_snoc.
  assert (c ∈ l) as Hc by (subst; set_solver).
  destruct (final_share_in c Hc) as (Hsh & Hb & Hd & Heq). unfold lock_share.
  destruct c.2 eqn:Hf; simpl; [|exists s, c; split; [done|lia]].
  rewrite required_lock_in by done. simpl. rewrite <- Heq, Z.min_l by (done || lia).
  unfold as_unsigned. rewrite Z.mod_small by (unfold_range; lia).
  case_decide; [exists s, c; split; [done|lia]|].
  rewrite csub_in by (unfold_range; lia). simpl.
  assert (0 <= sumZ (fun c : candidate => ir_usdc_deposited c.1) post).
  { apply sumZ_nonneg. intros c' Hc'. assert (c' ∈ l) as Hc'' by (subst; set_solver).
    destruct (final_share_in c' Hc''). lia. }
  rewrite Hsplit, sumZ_app, sumZ_cons in Hds.
  rewrite cadd_in by (unfold_range; lia). simpl. eexists _, _. split; [done|lia].
Qed.

Lemma cover_gap_in gap tl :
  0 <= gap -> 0 <= tl -> tl + gap <= u64_max ->
  exists tl' l', cover_gap gap tl (map (lock_candidate cap total) l) = Ok (tl', l').
Proof.
  intros Hgap Htl Hsum.
  assert (forall c, c ∈ l -> 0 <= share cap total c <= ir_usdc_deposited c.1
                     /\ ir_usdc_deposited c.1 <= u64_max) as Hall
    by (intros c Hc; destruct (final_share_in c Hc) as (? & ? & ? & ?); lia).
  clear Hfc. induction l as [|c l' IH]; simpl; [eauto|].
  destruct IH as (tl' & l2 & IH); [intros; apply Hall; by right|].
  destruct (Hall c) as [Hs Hd]; [left|].
  destruct c as [r []]; cbn [lock_candidate fst snd andb].
  - case_bool_decide as Hle; simpl; [|rewrite IH; simpl; eauto].
    cbn [fst] in *. rewrite ?deposited_lock, ?locked_lock in *.
    rewrite csub_in by (unfold_range; lia). simpl.
    rewrite cadd_in by (unfold_range; lia). simpl.
    rewrite cadd_in by (unfold_range; lia). simpl. eauto.
  - rewrite IH. simpl. eauto.
Qed.
End Progress.

#[local] Arguments eligibility_loop : simpl never.

(** The whole start: with sums that fit their types, and a cap whose products with the
    volumes fit, it locks the round or reports that nobody is eligible. *)
Lemma execute_round_start_in size price d cap before :
  round_cap size price d = Ok cap -> 0 < cap <= u64_max ->
  (length before <= MAX_INVESTORS)%nat ->
  Forall record_wf before ->
  Forall (fun r => ir_usdc_locked_current_round r = 0) before ->
  sumZ ir_aat_volume before <= u64_max ->
  sumZ ir_usdc_deposited before <= u64_max ->
  (exists res, execute_round_start before size price d = Ok res)
  \/ execute_round_start before size price d = Err (Floor NoEligibleInvestors).
Proof.
  intros Hcap [Hpos Hmax] Hlen Hwf Hfree Hvol Hdep.
  assert (0 <= sumZ ir_aat_volume before).
  { apply sumZ_nonneg. intros r (_ & _ & ?)%(before_wf before Hwf). unfold_range. lia. }
  assert (cap * sumZ ir_aat_volume before <= int_max U128) as Hprod by (unfold_range; nia).
  unfold execute_round_start. rewrite Hcap. simpl.
  rewrite !require_true by done. simpl.
  set (el := map (fun r => (r, initially_eligible (cap / 2) r)) before).
  assert (map fst el = before) as Hel by (unfold el; rewrite map_map; apply map_id).
  destruct (eligibility_loop_in cap before Hpos Hwf Hfree Hvol Hprod Hdep (S (length before)) el Hel)
    as [(total & l & Hl)|[Hl|Hl]]; rewrite Hl; simpl; [|auto|].
  - left. pose proof (eligibility_final _ _ _ _ _ Hl) as Hfc.
    edestruct lock_pass_in as (tl & l' & Hp); eauto.
    rewrite Hp. simpl.
    destruct (final_volumes _ _ _ _ Hfc Hwf Hfree) as [Hnn Hwfl].
    apply lock_pass in Hp as [-> ->]; [|lia|apply Hfc|done|apply Hfc].
    destruct (shares_bound cap total l Hpos (fc_total _ _ _ _ Hfc) (fc_pos _ _ _ _ Hfc) Hnn) as [Hle Hlt].
    pose proof (n_eligible_bound l) as Hn. rewrite (final_length _ _ _ _ Hfc) in Hn.
    unfold MAX_INVESTORS in Hlen.
    assert (0 <= sumZ (share cap total) l).
    { apply sumZ_nonneg. intros c Hc.
      edestruct final_share_in as [? _]; eauto; lia. }
    unfold saturating_sub, int_min. rewrite Z.max_r by lia.
    case_decide; simpl; [|eauto].
    rewrite try_from_in by (unfold_range; lia). simpl.
    edestruct (cover_gap_in cap before) with (gap := cap - sumZ (share cap total) l)
      as (tl' & l' & ->); eauto with lia.
  - exfalso. revert Hl. apply eligibility_loop_fuel.
    pose proof (n_eligible_bound el). rewrite <- (length_map fst el), Hel in *. lia.
Qed.

Lemma cover_gap_err gap t l e : cover_gap gap t l = Err e -> e = Floor ArithmeticOverflow.
Proof. induction l as [|c l IH]; simpl; intros Hx; [done|]. inv_err; auto; by simplify_eq. Qed.

Lemma lock_share_err cap total t c e : lock_share cap total t c = Err e -> e = Floor ArithmeticOverflow.
Proof. unfold lock_share, required_lock. intros Hx. inv_err; by simplify_eq. Qed.

#[local] Arguments eligibility_loop : simpl nomatch.

(** *** Caps beyond a [u64]

    Deposits fit a [u64] together, so nobody can be eligible for such a cap. *)

Section BigCap.
Context (cap : Z) (before : list InvestorRecord).
Context (Hbig : u64_max < cap) (Hwf : Forall record_wf before)
        (Hfree : Forall (fun r => ir_usdc_locked_current_round r = 0) before)
        (Hdep : sumZ ir_usdc_deposited before <= u64_max).

Lemma big_cap_final total l : ~ final_candidates cap total before l.
Proof.
  intros Hfc. assert (0 < cap) as Hcap by (unfold_range; lia).
  destruct (final_volumes _ _ _ _ Hfc Hwf Hfree) as [Hnn _].
  destruct (shares_bound cap total l Hcap (fc_total _ _ _ _ Hfc) (fc_pos _ _ _ _ Hfc) Hnn) as [_ Hlt].
  pose proof (final_deposits cap before Hdep total l Hfc) as Hds.
  assert (forall c, c ∈ l -> share cap total c <= ir_usdc_deposited c.1
            /\ (if c.2 then 1 else 0) * (cap / 2) <= ir_usdc_deposited c.1) as Hall.
  { intros c [i Hi]%list_elem_of_lookup.
    destruct (final_share _ _ _ _ Hcap Hfc Hwf Hfree i c Hi) as ([? ?] & _ & Hs).
    split; [done|]. destruct c.2; [destruct (Hs eq_refl) as (_ & _ & ?); lia|].
    destruct (final_lookup _ _ _ _ Hfc Hwf Hfree i c Hi) as (_ & (? & _ & _) & _). unfold_range. lia. }
  assert (sumZ (share cap total) l <= u64_max).
  { etrans; [|exact Hds]. apply sumZ_le. intros c Hc. by apply Hall. }
  assert (n_eligible l * (cap / 2) <= u64_max) as Hn.
  { etrans; [|exact Hds]. unfold n_eligible. rewrite Z.mul_comm, <- sumZ_scale.
    apply sumZ_le. intros c Hc. rewrite Z.mul_comm. by apply Hall. }
  assert (2 ^ 63 <= cap / 2) by (apply Z.div_le_lower_bound; unfold_range; lia).
  assert (n_eligible l <= 1) by (unfold_range; nia). lia.
Qed.

Lemma execute_round_start_big size price d :
  round_cap size price d = Ok cap -> (length before <= MAX_INVESTORS)%nat ->
  2 * sumZ ir_aat_volume before <= u64_max ->
  execute_round_start before size price d = Err (Floor NoEligibleInvestors).
Proof.
  intros Hcap Hlen Hvol. unfold execute_round_start. rewrite Hcap. cbn [mbind result_bind].
  rewrite (require_true (0 < cap)) by (unfold_range; lia). cbn [mbind result_bind].
  rewrite require_true by done. cbn [mbind result_bind].
  set (el := map (fun r => (r, initially_eligible (cap / 2) r)) before).
  assert (map fst el = before) as Hel by (unfold el; rewrite map_map; apply map_id).
  assert (0 <= sumZ ir_aat_volume before) as Hnn.
  { apply sumZ_nonneg. intros r (_ & _ & ?)%(before_wf before Hwf). unfold_range. lia. }
  enough (eligibility_loop (S (length before)) cap el = Err (Floor NoEligibleInvestors)) as -> by done.
  destruct (decide (cap <= 2 * u64_max + 1)) as [Hle|Hgt].
  - destruct (eligibility_loop_in cap before) with (fuel := S (length before)) (l := el)
      as [(total & l & Hl)|[Hl|Hl]]; [unfold_range; lia|done|done|lia|unfold_range; nia|done|done| |exact Hl|].
    + exfalso. eapply big_cap_final, eligibility_final, Hl.
    + exfalso. revert Hl. apply eligibility_loop_fuel.
      pose proof (n_eligible_bound el). rewrite <- (length_map fst el), Hel in *. lia.
  - destruct (sum_volumes_in before Hwf) with (l := el) as [t Ht]; [lia|done|].
    cbn [eligibility_loop]. rewrite Ht. cbn [mbind result_bind].
    rewrite require_false; [done|]. rewrite (sum_volumes_ok _ _ Ht), sumZ_zero; [lia|].
    intros c (r & -> & Hr)%list_elem_of_fmap. unfold volume, initially_eligible. cbn [fst snd].
    assert (ir_usdc_deposited r <= u64_max)
      by (destruct (before_wf before Hwf r Hr) as (? & _ & _); unfold_range; lia).
    assert (u64_max + 1 <= cap / 2) by (apply Z.div_le_lower_bound; lia).
    rewrite (bool_decide_eq_false_2 (cap / 2 <= _)) by lia. by rewrite andb_false_r.
Qed.
End BigCap.

(** The start, whatever its cap. *)
Lemma execute_round_start_any_cap size price d cap before :
  round_cap size price d = Ok cap -> 0 < cap -> (length before <= MAX_INVESTORS)%nat ->
  Forall record_wf before -> Forall (fun r => ir_usdc_locked_current_round r = 0) before ->
  2 * sumZ ir_aat_volume before <= u64_max -> sumZ ir_usdc_deposited before <= u64_max ->
  (exists res, execute_round_start before size price d = Ok res)
  \/ execute_round_start before size price d = Err (Floor NoEligibleInvestors).
Proof.
  intros. destruct (decide (cap <= u64_max)).
  - assert (0 <= sumZ ir_aat_volume before).
    { apply sumZ_nonneg. intros r (_ & _ & ?)%(before_wf before); [unfold_range; lia|done]. }
    by eapply execute_round_start_in; eauto; lia.
  - right. eapply execute_round_start_big; eauto; lia.
Qed.

(** *** An investor who can pay the whole cap

    is never dropped, when the cap has a unit for every unit of volume; so a round with
    one starts. *)
Lemma recheck_keeps cap total b c b' c' :
  c.2 = true -> 0 < ir_aat_volume c.1 <= total -> total <= cap <= ir_usdc_deposited c.1 ->
  recheck cap total b c = Ok (b', c') -> c' = c.
Proof.
  intros Hc Hv Htot. unfold recheck. rewrite Hc. cbn [negb]. intros Hx.
  apply bind_ok in Hx as (req & (-> & _ & _)%required_lock_ok & Hx).
  assert (1 <= cap * ir_aat_volume c.1 / total) by (apply Z.div_le_lower_bound; nia).
  assert (cap * ir_aat_volume c.1 / total <= cap) by (apply Z.div_le_upper_bound; nia).
  rewrite decide_False in Hx by lia. by injection Hx as _ <-.
Qed.

Lemma eligibility_loop_rich fuel cap l c :
  c ∈ l -> c.2 = true -> 0 < ir_aat_volume c.1 -> cap <= ir_usdc_deposited c.1 ->
  (forall x, x ∈ l -> 0 <= ir_aat_volume x.1) -> sumZ (fun x : candidate => ir_aat_volume x.1) l <= cap ->
  eligibility_loop fuel cap l <> Err (Floor NoEligibleInvestors).
Proof.
  revert l. induction fuel as [|fuel IH]; intros l Hin Hc Hv Hd Hnn Hsum; cbn [eligibility_loop]; [done|].
  intros [He|(t & ->%sum_volumes_ok & Hx)]%bind_err; [by apply sum_volumes_err in He|].
  assert (forall x, x ∈ l -> 0 <= volume x) as Hnn'.
  { intros x Hx'. unfold volume. specialize (Hnn x Hx'). destruct x.2; lia. }
  assert (ir_aat_volume c.1 <= sumZ volume l) as Hle.
  { pose proof (sumZ_elem volume l c Hnn' Hin) as Hl. unfold volume in Hl at 1. by rewrite Hc in Hl. }
  assert (sumZ volume l <= cap) as Hcap.
  { etrans; [|exact Hsum]. apply sumZ_le. intros x Hx'. unfold volume. specialize (Hnn x Hx').
    destruct x.2; lia. }
  rewrite require_true in Hx by lia. cbn [mbind result_bind] in Hx.
  apply bind_err in Hx as [He|([b l'] & Hp & Hx)].
  { apply mapAccM_err in He as (? & ? & _ & He). by apply recheck_err in He. }
  destruct b; [|done].
  assert (fst <$> l' = fst <$> l) as Hfst.
  { eapply (mapAccM_map fst fst); [|exact Hp]. intros b x b' y. unfold recheck.
    destruct (negb x.2); [by intros [= _ ->]|]. intros Hy. apply bind_ok in Hy as (req & _ & Hy).
    case_decide; by injection Hy as _ <-. }
  revert Hx. apply IH; [|done..| |].
  - apply mapAccM_elem with (x := c) in Hp as (b1 & b2 & y & Hy & Hyin); [|done].
    by apply recheck_keeps in Hy as ->; [|done|lia|lia].
  - intros x Hx. apply (list_elem_of_fmap_2 fst) in Hx. rewrite Hfst in Hx.
    apply list_elem_of_fmap in Hx as (x' & -> & Hx'). by apply Hnn.
  - rewrite <- (sumZ_map (fst : candidate -> InvestorRecord) ir_aat_volume) in Hsum |- *.
    change (map fst l') with (fst <$> l'). by rewrite Hfst.
Qed.

Lemma execute_round_start_rich size price d cap before r :
  round_cap size price d = Ok cap -> 0 < cap -> Forall record_wf before ->
  r ∈ before -> 0 < ir_aat_volume r -> cap <= ir_usdc_deposited r ->
  sumZ ir_aat_volume before <= cap ->
  execute_round_start before size price d <> Err (Floor NoEligibleInvestors).
Proof.
  intros Hcap Hpos Hwf Hr Hv Hd Hsum. unfold execute_round_start. rewrite Hcap. cbn [mbind result_bind].
  rewrite (require_true (0 < cap)) by done. cbn [mbind result_bind].
  intros [He|(u & _ & Hx)]%bind_err; [by apply require_err in He as [_ ?]|].
  apply bind_err in Hx as [He|([t l] & _ & Hx)].
  - revert He. apply eligibility_loop_rich with (c := (r, true)); cbn; [|done..| |].
    + apply list_elem_of_fmap. exists r. split; [|done]. unfold initially_eligible. f_equal. symmetry.
      assert (cap / 2 <= cap) by (apply Z.div_le_upper_bound; lia).
      rewrite !bool_decide_eq_true_2; [done|lia..].
    + intros x (r' & -> & Hr')%list_elem_of_fmap. cbn.
      destruct (before_wf before Hwf r' Hr') as (_ & _ & ?). unfold_range. lia.
    + by rewrite sumZ_map.
  - inv_err; try done; [by apply lock_share_err in Hx|by apply cover_gap_err in Hx].
Qed.

(** ** Properties *)

(** C22: the eligibility loop of a round start terminates: with one pass more than there
    are records the loop bound is never reached, whatever the pool and the parameters
    (every pass that asks for another one has dropped a candidate). *)
Theorem execute_round_start_terminates investors size price d :
  execute_round_start investors size price d <> Err OutOfFuel.
Proof.
  unfold execute_round_start, round_cap. intros Hx. inv_err; try done.
  - revert Hx. apply eligibility_loop_fuel.
    match goal with |- n_eligible ?l < _ => pose proof (n_eligible_bound l) as Hn end.
    rewrite length_map in Hn. lia.
  - by apply lock_share_err in Hx.
  - by apply cover_gap_err in Hx.
Qed.

(** A round start with at most 100 well-formed records, no stale locks, sums that
    fit a [u64] and a positive cap that does too either locks the round or reports
    [NoEligibleInvestors]: it neither overflows nor aborts. *)
Theorem execute_round_start_progress size price d cap before :
  round_cap size price d = Ok cap -> 0 < cap <= u64_max ->
  (length before <= MAX_INVESTORS)%nat -> Forall record_wf before ->
  Forall (fun r => ir_usdc_locked_current_round r = 0) before ->
  sumZ ir_aat_volume before <= u64_max -> sumZ ir_usdc_deposited before <= u64_max ->
  (exists res, execute_round_start before size price d = Ok res)
  \/ execute_round_start before size price d = Err (Floor NoEligibleInvestors).
Proof. apply execute_round_start_in. Qed.

Lemma round_start_locks before size price d ta tl after :
  Forall record_wf before -> Forall (fun r => ir_usdc_locked_current_round r = 0) before ->
  execute_round_start before size price d = Ok ((ta, tl), after) ->
  exists cap ls, round_cap size price d = Ok cap /\ after = zip_with lock ls before
    /\ Forall2 (fun l r => 0 <= l <= ir_usdc_deposited r) ls before
    /\ Forall record_wf after
    /\ sumZ ir_usdc_locked_current_round after = tl
    /\ sumZ ir_usdc_deposited after = sumZ ir_usdc_deposited before - tl
    /\ tl <= cap /\ cap - tl <= max_gap cap.
Proof.
  intros Hwf Hfree Hx.
  destruct (execute_round_start_spec _ _ _ _ _ _ _ Hwf Hfree Hx) as (cap & ls & Hcap & Hss & -> & Hlen).
  destruct (lock_sums ls before (ss_length _ _ _ _ _ Hss)) as [H1 H2].
  exists cap, ls. rewrite H1, H2, <- (ss_total _ _ _ _ _ Hss).
  split_and!; [done|done| |by eapply lock_wf|done|done|apply Hss|].
  - apply Forall2_same_length_lookup_2; [apply Hss|]. intros. by eapply (ss_bounds _ _ _ _ _ Hss).
  - by eapply start_gap.
Qed.

(** C8: a started round moves USDC from deposits to locks and nothing else.  Every
    record keeps its identity and its deposit plus lock; no lock exceeds the deposit it
    is taken from; the reported total is the sum of the locks, is at most the cap, and
    misses a cap of at least 200 units by at most one unit, and a smaller one by at most
    99 ([max_gap]). *)
Theorem execute_round_start_locks before size price d ta tl after :
  Forall record_wf before -> Forall (fun r => ir_usdc_locked_current_round r = 0) before ->
  execute_round_start before size price d = Ok ((ta, tl), after) ->
  exists cap ls, round_cap size price d = Ok cap /\ after = zip_with lock ls before
    /\ Forall2 (fun l r => 0 <= l <= ir_usdc_deposited r) ls before
    /\ Forall record_wf after
    /\ sumZ ir_usdc_locked_current_round after = tl
    /\ sumZ ir_usdc_deposited after = sumZ ir_usdc_deposited before - tl
    /\ tl <= cap /\ cap - tl <= max_gap cap.
Proof. apply round_start_locks. Qed.

(** C23: who takes part in a round and with how much.  A record with a positive lock has
    AAT volume and a deposit of at least half the cap, and locks at least its
    proportional share [cap * volume / total], where the reported total is the volume of
    exactly the records that lock; and when the cap is not reached, no participant has
    the missing amount left in its deposit. *)
Theorem execute_round_start_participants before size price d ta tl after :
  Forall record_wf before -> Forall (fun r => ir_usdc_locked_current_round r = 0) before ->
  execute_round_start before size price d = Ok ((ta, tl), after) ->
  exists cap ls, round_cap size price d = Ok cap /\ after = zip_with lock ls before
    /\ (forall i l r, ls !! i = Some l -> before !! i = Some r -> 0 < l ->
         0 < ir_aat_volume r /\ cap / 2 <= ir_usdc_deposited r
         /\ cap * ir_aat_volume r / ta <= l
         /\ (tl < cap -> ir_usdc_deposited r - l < cap - tl))
    /\ ta = sumZ (fun p : Z * InvestorRecord =>
                    if decide (0 < p.1) then ir_aat_volume p.2 else 0) (zip ls before).
Proof.
  intros Hwf Hfree Hx.
  destruct (execute_round_start_spec _ _ _ _ _ _ _ Hwf Hfree Hx) as (cap & ls & Hcap & Hss & -> & _).
  exists cap, ls. split_and!; [done..| |apply Hss]. intros i l r Hl Hr Hpos.
  destruct (ss_participant _ _ _ _ _ Hss i l r Hl Hr Hpos).
  split_and!; [done..|]. intros Hlt. by apply (ss_uncovered _ _ _ _ _ Hss i).
Qed.

(** *** Concrete pools *)

(** A record that holds a deposit and AAT volume and has no lock. *)
Definition depositor (b deposited volume : Z) : InvestorRecord :=
  mkInvestorRecord (key_of b) deposited 0 0 0 volume 0.

(** At 0.5 USDC per wALN and 9 decimals, 10 wALN cap the round at 5 000 000 units; the
    third investor has no volume and the fourth too small a deposit. *)
Definition sample_pool : list InvestorRecord :=
  [depositor 1 9000000 2; depositor 2 4000000 1; depositor 3 8000000 0; depositor 4 2499999 5].

Lemma sample_pool_wf :
  Forall record_wf sample_pool /\ Forall (fun r => ir_usdc_locked_current_round r = 0) sample_pool.
Proof. split; repeat constructor; cbn; lia. Qed.

Lemma sample_start :
  execute_round_start sample_pool 10000000000 500000 9
  = Ok ((3, 5000000), zip_with lock [3333334; 1666666; 0; 0] sample_pool).
Proof. vm_compute. reflexivity. Qed.

Lemma execute_round_start_progress_witness :
  (exists res, execute_round_start sample_pool 10000000000 500000 9 = Ok res)
  \/ execute_round_start sample_pool 10000000000 500000 9 = Err (Floor NoEligibleInvestors).
Proof.
  apply (execute_round_start_progress 10000000000 500000 9 5000000 sample_pool);
    [vm_compute; reflexivity|unfold_range; lia|vm_compute; lia|apply sample_pool_wf|apply sample_pool_wf
    |by_decide|by_decide].
Defined.

Lemma execute_round_start_locks_witness :
  exists cap ls, round_cap 10000000000 500000 9 = Ok cap
    /\ zip_with lock [3333334; 1666666; 0; 0] sample_pool = zip_with lock ls sample_pool
    /\ 5000000 <= cap.
Proof.
  destruct (execute_round_start_locks sample_pool 10000000000 500000 9 3 5000000
    (zip_with lock [3333334; 1666666; 0; 0] sample_pool)
    (proj1 sample_pool_wf) (proj2 sample_pool_wf) sample_start)
    as (cap & ls & Hcap & Hls & _ & _ & _ & _ & Hle & _).
  exists cap, ls. auto.
Defined.

Lemma execute_round_start_participants_witness :
  exists cap ls, round_cap 10000000000 500000 9 = Ok cap
    /\ zip_with lock [3333334; 1666666; 0; 0] sample_pool = zip_with lock ls sample_pool
    /\ 3 = sumZ (fun p : Z * InvestorRecord =>
                   if decide (0 < p.1) then ir_aat_volume p.2 else 0) (zip ls sample_pool).
Proof.
  destruct (execute_round_start_participants sample_pool 10000000000 500000 9 3 5000000
    (zip_with lock [3333334; 1666666; 0; 0] sample_pool)
    (proj1 sample_pool_wf) (proj2 sample_pool_wf) sample_start) as (cap & ls & Hcap & Hls & _ & Hta).
  exists cap, ls. auto.
Defined.

(** The locks of a round need not sum to its cap.  Two equal investors whose
    deposits are exactly half of an odd cap, rounded down, both take part, and neither
    has anything left for the last unit: one wALN at price 5 000 003 caps the round at
    5 000 003, deposits of 2 500 001 are enough to be eligible, and the round starts one
    unit short. *)
Theorem round_start_cap_not_locked :
  exists before ta tl after cap,
    execute_round_start before 1000000000 5000003 9 = Ok ((ta, tl), after)
    /\ round_cap 1000000000 5000003 9 = Ok cap /\ tl = cap - 1
    /\ before = [depositor 1 2500001 1; depositor 2 2500001 1]
    /\ sumZ ir_usdc_locked_current_round after = tl.
Proof.
  eexists _, _, _, _, _. split_and!; [|vm_compute; reflexivity|..|reflexivity|];
    [vm_compute; reflexivity|vm_compute; reflexivity..].
Qed.
