(* ===== verification/Settlement.v ===== *)
(** * Settling a round: the pool arithmetic of [sell_waln.rs] and [close_round.rs]

    A round is settled in one of two ways.  When its last wALN is sold, [sell_waln]
    converts every lock at the round's price ([settle_record]) and gives the dust carried
    over from earlier rounds to one participant ([distribute_dust]).  When the admin
    closes it early, [close_round] splits the wALN bought and the USDC paid pro rata
    ([measure_record], [base_spent_record], [close_record]).  The loops run over the
    slice [pool.investors[..count]], which they return as they leave it. *)
From coqutil Require Import Datatypes.RecordSettersUsingExistingGetters.
From stdpp Require Import base gmap strings numbers list.
From S2P Require Import Prelude.
From S2P Require Import State.
From S2P Require Import RoundStart.
#[local] Open Scope Z_scope.

(** An entry of [participant_data: Vec<(Pubkey, u64)>] *)
Notation allocation := (list Z * Z)%type.

(** [(locked as u128) * waln_scale / floor_price], the wALN a lock buys. *)
Definition full_waln (waln_scale floor_price locked : Z) : R Z :=
  product ← cmul U128 locked waln_scale;
  cdiv U128 product floor_price.

(** ** A full round *)

Record SettleTotals := mkSettleTotals {
  st_participant_count : Z;
  st_usdc_spent : Z;
  st_waln_purchased : Z;
  st_aat_volume : Z;
  st_participants : list allocation;
}.

Definition settle_start : SettleTotals := mkSettleTotals 0 0 0 0 [].

(** The body of the loop over the pool. *)
Definition settle_record (waln_scale floor_price : Z) (t : SettleTotals) (r : InvestorRecord)
  : R (SettleTotals * InvestorRecord) :=
  if decide (ir_usdc_locked_current_round r = 0) then Ok (t, r)
  else
    count ← cadd U64 (st_participant_count t) 1;
    aat ← cadd U64 (st_aat_volume t) (ir_aat_volume r);
    let usdc_locked := ir_usdc_locked_current_round r in
    full ← full_waln waln_scale floor_price usdc_locked;
    base_waln ← try_from U64 full;
    committed ← cadd U64 (ir_usdc_committed r) usdc_locked;
    purchased ← cadd U64 (ir_waln_purchased_total r) base_waln;
    usdc ← cadd U64 (st_usdc_spent t) usdc_locked;
    waln ← cadd U64 (st_waln_purchased t) base_waln;
    Ok (mkSettleTotals count usdc waln aat (st_participants t ++ [(ir_investor r, base_waln)]),
        r <| ir_usdc_committed := committed |>
          <| ir_usdc_locked_current_round := 0 |>
          <| ir_waln_purchased_total := purchased |>).

Definition settle_records (waln_scale floor_price : Z) (investors : list InvestorRecord)
  : R (SettleTotals * list InvestorRecord) :=
  mapAccM (settle_record waln_scale floor_price) settle_start investors.

(** The pseudo-random recipient of the carried dust and the credit to its record. *)
Definition distribute_dust (unix_timestamp dust_pool : Z) (t : SettleTotals)
  (investors : list InvestorRecord) : R (SettleTotals * list InvestorRecord) :=
  if decide (0 < dust_pool /\ 0 < st_participant_count t) then
    let idx := Z.to_nat (as_unsigned U64 unix_timestamp mod st_participant_count t) in
    winner ← ok_or (st_participants t !! idx) Panic;
    amount ← cadd U64 winner.2 dust_pool;
    waln ← cadd U64 (st_waln_purchased t) dust_pool;
    let t' := t <| st_participants := <[idx := (winner.1, amount)]> (st_participants t) |>
                <| st_waln_purchased := waln |> in
    match list_find (fun r => ir_investor r = winner.1) investors with
    | Some (i, r) =>
        purchased ← cadd U64 (ir_waln_purchased_total r) dust_pool;
        Ok (t', <[i := r <| ir_waln_purchased_total := purchased |>]> investors)
    | None => Ok (t', investors)
    end
  else Ok (t, investors).

(** ** A forced close *)

Record CloseMeasure := mkCloseMeasure {
  cm_total_full_waln : Z;
  cm_total_locked_usdc : Z;
  cm_eligible_count : Z;
}.

(** The first pass. *)
Definition measure_record (waln_scale floor_price : Z) (m : CloseMeasure) (r : InvestorRecord)
  : R CloseMeasure :=
  if decide (ir_usdc_locked_current_round r = 0) then Ok m
  else
    full ← full_waln waln_scale floor_price (ir_usdc_locked_current_round r);
    total_full ← cadd U128 (cm_total_full_waln m) full;
    total_locked ← cadd U128 (cm_total_locked_usdc m) (ir_usdc_locked_current_round r);
    count ← cadd U64 (cm_eligible_count m) 1;
    Ok (mkCloseMeasure total_full total_locked count).

Definition measure_records (waln_scale floor_price : Z) (investors : list InvestorRecord)
  : R CloseMeasure :=
  foldM (measure_record waln_scale floor_price) (mkCloseMeasure 0 0 0) investors.

(** [u64::try_from(usdc_paid_for_round * locked / total_locked_usdc)] *)
Definition base_usdc_spent (usdc_paid_for_round total_locked_usdc locked : Z) : R Z :=
  product ← cmul U128 usdc_paid_for_round locked;
  quotient ← cdiv U128 product total_locked_usdc;
  try_from U64 quotient.

(** The pass that sums the floors. *)
Definition base_spent_record (usdc_paid_for_round total_locked_usdc : Z) (total : Z)
  (r : InvestorRecord) : R Z :=
  if decide (ir_usdc_locked_current_round r = 0) then Ok total
  else
    base ← base_usdc_spent usdc_paid_for_round total_locked_usdc (ir_usdc_locked_current_round r);
    cadd U64 total base.

Definition total_base_usdc_spent (usdc_paid_for_round total_locked_usdc : Z)
  (investors : list InvestorRecord) : R Z :=
  foldM (base_spent_record usdc_paid_for_round total_locked_usdc) 0 investors.

(** [close_round_usdc_spent]: the floor, plus one unit of the remainder while there is
    one and the lock has room for it; the second component is the remainder left. *)
Definition close_round_usdc_spent (usdc_paid_for_round locked total_locked_usdc
  remaining_usdc_remainder : Z) : R (Z * Z) :=
  usdc_spent ← base_usdc_spent usdc_paid_for_round total_locked_usdc locked;
  if decide (0 < remaining_usdc_remainder /\ usdc_spent < locked) then
    usdc_spent ← cadd U64 usdc_spent 1;
    remaining ← csub U64 remaining_usdc_remainder 1;
    Ok (usdc_spent, remaining)
  else Ok (usdc_spent, remaining_usdc_remainder).

Record CloseTotals := mkCloseTotals {
  ct_processed_eligible : Z;
  ct_remaining_waln : Z;
  ct_remaining_usdc_remainder : Z;
  ct_usdc_spent : Z;
  ct_waln_purchased : Z;
  ct_aat_volume : Z;
  ct_participants : list allocation;
}.

(** The last pass: the pro-rata wALN, the USDC spent and the refund of one record. *)
Definition close_record (waln_scale floor_price waln_available usdc_paid_for_round : Z)
  (m : CloseMeasure) (t : CloseTotals) (r : InvestorRecord) : R (CloseTotals * InvestorRecord) :=
  if decide (ir_usdc_locked_current_round r = 0) then Ok (t, r)
  else
    processed ← cadd U64 (ct_processed_eligible t) 1;
    let locked := ir_usdc_locked_current_round r in
    full ← full_waln waln_scale floor_price locked;
    waln_alloc ←
      (if decide (processed = cm_eligible_count m) then try_from U64 (ct_remaining_waln t)
       else product ← cmul U128 waln_available full;
            quotient ← cdiv U128 product (cm_total_full_waln m);
            try_from U64 quotient);
    remaining_waln ← csub U128 (ct_remaining_waln t) waln_alloc;
    '(usdc_spent, remainder) ←
      close_round_usdc_spent usdc_paid_for_round locked (cm_total_locked_usdc m)
        (ct_remaining_usdc_remainder t);
    refund ← csub U64 locked usdc_spent;
    deposited ← cadd U64 (ir_usdc_deposited r) refund;
    committed ← cadd U64 (ir_usdc_committed r) usdc_spent;
    purchased ← cadd U64 (ir_waln_purchased_total r) waln_alloc;
    usdc ← cadd U64 (ct_usdc_spent t) usdc_spent;
    waln ← cadd U64 (ct_waln_purchased t) waln_alloc;
    aat ← cadd U64 (ct_aat_volume t) (ir_aat_volume r);
    Ok (mkCloseTotals processed remaining_waln remainder usdc waln aat
          (if decide (0 < waln_alloc) then ct_participants t ++ [(ir_investor r, waln_alloc)]
           else ct_participants t),
        r <| ir_usdc_locked_current_round := 0 |>
          <| ir_usdc_deposited := deposited |>
          <| ir_usdc_committed := committed |>
          <| ir_waln_purchased_total := purchased |>).

(** The three passes with the checks between and after them. *)
Definition close_records (waln_scale floor_price waln_in_round usdc_paid_for_round : Z)
  (investors : list InvestorRecord) : R (CloseTotals * list InvestorRecord) :=
  m ← measure_records waln_scale floor_price investors;
  _ ← ensure (0 < cm_total_full_waln m) NoEligibleInvestors;
  _ ← ensure (0 < usdc_paid_for_round) InvalidParameter;
  _ ← ensure (usdc_paid_for_round <= cm_total_locked_usdc m) ArithmeticOverflow;
  total_base ← total_base_usdc_spent usdc_paid_for_round (cm_total_locked_usdc m) investors;
  remainder ← csub U64 usdc_paid_for_round total_base;
  '(t, investors') ←
    mapAccM (close_record waln_scale floor_price waln_in_round usdc_paid_for_round m)
      (mkCloseTotals 0 waln_in_round remainder 0 0 0 []) investors;
  _ ← ensure (ct_remaining_usdc_remainder t = 0) ArithmeticOverflow;
  _ ← ensure (ct_usdc_spent t = usdc_paid_for_round) ArithmeticOverflow;
  Ok (t, investors').

(** ** The records that take part *)

Definition lockers (l : list InvestorRecord) : list InvestorRecord :=
  filter (fun r => ir_usdc_locked_current_round r <> 0) l.

Lemma sumZ_lockers f l :
  (forall r, ir_usdc_locked_current_round r = 0 -> f r = 0) -> sumZ f (lockers l) = sumZ f l.
Proof. intros Hf. apply sumZ_filter. intros r _ Hr. apply Hf. destruct (decide (ir_usdc_locked_current_round r = 0)); tauto. Qed.

Lemma lockers_snoc l r :
  lockers (l ++ [r]) = if decide (ir_usdc_locked_current_round r = 0) then lockers l else lockers l ++ [r].
Proof.
  unfold lockers. rewrite filter_app, filter_cons, filter_nil.
  destruct (decide (ir_usdc_locked_current_round r = 0)); case_decide; try done.
  by rewrite app_nil_r.
Qed.

Lemma lockers_split l pre r post :
  l = pre ++ r :: post -> ir_usdc_locked_current_round r <> 0 ->
  lockers l = lockers pre ++ r :: lockers post.
Proof. intros -> Hr. unfold lockers. rewrite filter_app, filter_cons. by case_decide. Qed.

Lemma sumZ_locked_lockers l :
  sumZ ir_usdc_locked_current_round (lockers l) = sumZ ir_usdc_locked_current_round l.
Proof. by apply sumZ_lockers. Qed.

(** ** Results of the full settlement *)

Definition base_waln (waln_scale floor_price : Z) (r : InvestorRecord) : Z :=
  ir_usdc_locked_current_round r * waln_scale / floor_price.

Definition settled (waln_scale floor_price : Z) (r : InvestorRecord) : InvestorRecord :=
  if decide (ir_usdc_locked_current_round r = 0) then r
  else r <| ir_usdc_committed := ir_usdc_committed r + ir_usdc_locked_current_round r |>
         <| ir_usdc_locked_current_round := 0 |>
         <| ir_waln_purchased_total :=
              ir_waln_purchased_total r + base_waln waln_scale floor_price r |>.

Definition settle_totals (waln_scale floor_price : Z) (l : list InvestorRecord) : SettleTotals :=
  mkSettleTotals (Z.of_nat (length (lockers l))) (sumZ ir_usdc_locked_current_round l)
    (sumZ (base_waln waln_scale floor_price) (lockers l)) (sumZ ir_aat_volume (lockers l))
    (map (fun r => (ir_investor r, base_waln waln_scale floor_price r)) (lockers l)).

Lemma full_waln_ok waln_scale floor_price locked v :
  full_waln waln_scale floor_price locked = Ok v <->
  v = locked * waln_scale / floor_price /\ floor_price <> 0
  /\ in_range U128 (locked * waln_scale) /\ in_range U128 (locked * waln_scale / floor_price).
Proof.
  unfold full_waln. split; [intros; inv_arith; naive_solver|].
  intros (-> & ? & ? & ?). rewrite cmul_in by done. simpl. by rewrite cdiv_in.
Qed.

Lemma settle_record_ok scale price t r t' r' :
  settle_record scale price t r = Ok (t', r') ->
  r' = settled scale price r
  /\ t' = (if decide (ir_usdc_locked_current_round r = 0) then t else
             mkSettleTotals (st_participant_count t + 1)
               (st_usdc_spent t + ir_usdc_locked_current_round r)
               (st_waln_purchased t + base_waln scale price r)
               (st_aat_volume t + ir_aat_volume r)
               (st_participants t ++ [(ir_investor r, base_waln scale price r)]))
  /\ (ir_usdc_locked_current_round r <> 0 -> in_range U64 (base_waln scale price r)).
Proof.
  unfold settle_record, settled. case_decide as Hz; intros H; [by inv_ok|].
  unfold full_waln in H. inv_arith. done.
Qed.

Lemma settle_records_ok scale price l t l' :
  settle_records scale price l = Ok (t, l') ->
  t = settle_totals scale price l /\ l' = map (settled scale price) l
  /\ Forall (fun r => in_range U64 (base_waln scale price r)) (lockers l).
Proof.
  apply (mapAccM_inv (fun pre t ys => t = settle_totals scale price pre
    /\ ys = map (settled scale price) pre
    /\ Forall (fun r => in_range U64 (base_waln scale price r)) (lockers pre))); [done|].
  intros pre r t0 ys t1 r1 (-> & -> & Hall) (-> & -> & Hr)%settle_record_ok.
  rewrite map_app. split_and!; [|done|].
  - unfold settle_totals. rewrite sumZ_snoc, lockers_snoc. case_decide as Hz; [f_equal; lia|].
    rewrite length_app, map_app, !sumZ_snoc. cbn [length map st_participant_count st_usdc_spent
      st_waln_purchased st_aat_volume st_participants]. f_equal; lia.
  - rewrite lockers_snoc. case_decide; [done|]. rewrite Forall_snoc. auto.
Qed.

(** Splitting a lock total within the cap buys at most the round's wALN. *)
Lemma base_waln_bound scale price size l :
  0 < scale -> 0 < price ->
  sumZ ir_usdc_locked_current_round l <= size * price / scale ->
  sumZ (base_waln scale price) (lockers l) <= size.
Proof.
  intros Hs Hp Hsum. unfold base_waln. rewrite <- sumZ_locked_lockers in Hsum.
  pose proof (sumZ_div_le (fun r => ir_usdc_locked_current_round r * scale) price (lockers l) Hp) as Hd.
  assert (sumZ (fun r => ir_usdc_locked_current_round r * scale) (lockers l)
          = scale * sumZ ir_usdc_locked_current_round (lockers l)) as Heq.
  { rewrite <- sumZ_scale. apply sumZ_ext. intros; lia. }
  rewrite Heq in Hd. pose proof (div_mul_le (size * price) scale Hs). nia.
Qed.

(** ** Results of the dust distribution *)

(** Two slices that differ at most in the wALN bought. *)
Definition same_funds (r r' : InvestorRecord) : Prop :=
  ir_investor r' = ir_investor r /\ ir_usdc_deposited r' = ir_usdc_deposited r
  /\ ir_usdc_locked_current_round r' = ir_usdc_locked_current_round r
  /\ ir_aat_volume r' = ir_aat_volume r /\ ir_usdc_unlock_ts r' = ir_usdc_unlock_ts r
  /\ ir_usdc_committed r' = ir_usdc_committed r.

#[export] Instance same_funds_refl : Reflexive same_funds.
Proof. intros r. by repeat split. Qed.

Lemma distribute_dust_ok now dust t l t' l' :
  0 <= dust ->
  distribute_dust now dust t l = Ok (t', l') ->
  Forall2 same_funds l l'
  /\ st_usdc_spent t' = st_usdc_spent t /\ st_aat_volume t' = st_aat_volume t
  /\ map fst (st_participants t') = map fst (st_participants t)
  /\ st_participant_count t' = st_participant_count t
  /\ exists given, (given = dust \/ given = 0 /\ (dust = 0 \/ st_participant_count t <= 0))
     /\ st_waln_purchased t' = st_waln_purchased t + given
     /\ sumZ snd (st_participants t') = sumZ snd (st_participants t) + given
     /\ (Forall (fun p => in_range U64 p.2) (st_participants t) ->
         Forall (fun p => in_range U64 p.2) (st_participants t')).
Proof.
  intros Hd Hx. unfold distribute_dust in Hx. case_decide as Hc.
  2: { simplify_eq. split_and!; [by apply Forall2_same_length_lookup_2; [|intros; simplify_eq]|done..|].
       exists 0. split_and!; [right; lia|lia|lia|done]. }
  set (idx := Z.to_nat _) in Hx. inv_arith.
  match goal with H : st_participants t !! idx = Some ?w |- _ => rename w into winner; rename H into Hw end.
  destruct (list_find _ l) as [[i r]|] eqn:Hfind; inv_arith.
  - apply list_find_Some in Hfind as (Hi & _ & _). split.
    { rewrite <- (list_insert_id l i r Hi) at 1. apply Forall2_insert; [|by repeat split].
      by apply Forall2_same_length_lookup_2; [|intros; simplify_eq]. }
    cbn. split_and!; [done..| |done|].
    { change (map fst ?x) with (fst <$> x). rewrite list_fmap_insert. apply list_insert_id.
      by rewrite list_lookup_fmap, Hw. }
    exists dust. split_and!; [by left|done|rewrite (sumZ_insert _ _ _ _ _ Hw); simpl; lia|].
    intros Hall. by apply Forall_insert.
  - split; [by apply Forall2_same_length_lookup_2; [|intros; simplify_eq]|].
    cbn. split_and!; [done..| |done|].
    { change (map fst ?x) with (fst <$> x). rewrite list_fmap_insert. apply list_insert_id.
      by rewrite list_lookup_fmap, Hw. }
    exists dust. split_and!; [by left|done|rewrite (sumZ_insert _ _ _ _ _ Hw); simpl; lia|].
    intros Hall. by apply Forall_insert.
Qed.

(** ** Results of the forced close *)

(** What the close leaves of a record: [s] of the lock is spent, the rest refunded, and
    [a] wALN is credited. *)
Definition close_out (s a : Z) (r : InvestorRecord) : InvestorRecord :=
  r <| ir_usdc_locked_current_round := 0 |>
    <| ir_usdc_deposited := ir_usdc_deposited r + (ir_usdc_locked_current_round r - s) |>
    <| ir_usdc_committed := ir_usdc_committed r + s |>
    <| ir_waln_purchased_total := ir_waln_purchased_total r + a |>.

Section Close.
Context (scale price W paid : Z) (l : list InvestorRecord).

Definition locked_total : Z := sumZ ir_usdc_locked_current_round l.
Definition full_total : Z := sumZ (base_waln scale price) (lockers l).
Definition n_lockers : Z := Z.of_nat (length (lockers l)).
Definition close_measure : CloseMeasure := mkCloseMeasure full_total locked_total n_lockers.

(** The floors of the two pro-rata splits, and the units of the remainder. *)
Definition floor_spent (r : InvestorRecord) : Z :=
  paid * ir_usdc_locked_current_round r / locked_total.
Definition floor_waln (r : InvestorRecord) : Z := W * base_waln scale price r / full_total.
Definition has_room (r : InvestorRecord) : Z :=
  if decide (floor_spent r < ir_usdc_locked_current_round r) then 1 else 0.
Definition remainder : Z := paid - sumZ floor_spent (lockers l).

(** One record before and after: a locker spends its floor or one more, within its
    lock, and gets at least the floor of its wALN. *)
Definition closed (r r' : InvestorRecord) : Prop :=
  if decide (ir_usdc_locked_current_round r = 0) then r' = r
  else exists s a, r' = close_out s a r /\ floor_spent r <= s <= floor_spent r + 1
    /\ 0 <= s <= ir_usdc_locked_current_round r /\ floor_waln r <= a /\ 0 <= a.

Record close_inv (pre : list InvestorRecord) (t : CloseTotals) : Prop := {
  ci_processed : ct_processed_eligible t = Z.of_nat (length (lockers pre));
  ci_remaining : ct_remaining_waln t = W - ct_waln_purchased t;
  ci_remainder : ct_remaining_usdc_remainder t
                 = Z.max 0 (remainder - sumZ has_room (lockers pre));
  ci_usdc : ct_usdc_spent t
            = sumZ floor_spent (lockers pre) + (remainder - ct_remaining_usdc_remainder t);
  ci_waln : ct_waln_purchased t
            = if decide (ct_processed_eligible t = n_lockers) then W
              else sumZ floor_waln (lockers pre);
  ci_aat : ct_aat_volume t = sumZ ir_aat_volume (lockers pre);
  ci_participants : sumZ snd (ct_participants t) = ct_waln_purchased t;
  ci_keys : map fst (ct_participants t) `sublist_of` (ir_investor <$> lockers pre);
  ci_positive : Forall (fun p : allocation => 0 < p.2) (ct_participants t);
}.

Context (Hlocked : Forall (fun r => 0 <= ir_usdc_locked_current_round r) l)
        (Hbase : Forall (fun r => 0 <= base_waln scale price r) l)
        (Hpaid : 0 < paid <= locked_total) (HW : 0 <= W) (Hfull : 0 < full_total).

Lemma lockers_in r : r ∈ lockers l -> r ∈ l /\ 0 < ir_usdc_locked_current_round r
                                     /\ 0 <= base_waln scale price r.
Proof.
  intros [Hne Hr]%list_elem_of_filter. rewrite Forall_forall in Hlocked, Hbase.
  specialize (Hlocked r Hr). specialize (Hbase r Hr). split_and!; [done|lia|done].
Qed.

Lemma floor_spent_bound r :
  r ∈ lockers l -> 0 <= floor_spent r <= ir_usdc_locked_current_round r.
Proof.
  intros (_ & Hr & _)%lockers_in. unfold floor_spent. split; [apply Z.div_pos; nia|].
  apply Z.div_le_upper_bound; nia.
Qed.

Lemma floor_waln_bound r : r ∈ lockers l -> 0 <= floor_waln r.
Proof. intros (_ & _ & Hr)%lockers_in. apply Z.div_pos; nia. Qed.

Lemma floor_waln_sum : sumZ floor_waln (lockers l) <= W.
Proof.
  pose proof (sumZ_div_le (fun r => W * base_waln scale price r) full_total (lockers l) Hfull) as H.
  rewrite sumZ_scale in H. fold full_total in H. unfold floor_waln. nia.
Qed.

Lemma floor_spent_sum : sumZ floor_spent (lockers l) <= paid.
Proof.
  assert (0 < locked_total) as HT by lia.
  pose proof (sumZ_div_le (fun r => paid * ir_usdc_locked_current_round r) locked_total (lockers l) HT) as H.
  rewrite sumZ_scale, sumZ_locked_lockers in H. fold locked_total in H. unfold floor_spent. nia.
Qed.

(** There is room for every unit of the remainder. *)
Lemma remainder_fits : 0 <= remainder <= sumZ has_room (lockers l).
Proof.
  pose proof floor_spent_sum as Hle. unfold remainder. split; [lia|].
  assert (0 < locked_total) as HT by lia.
  destruct (decide (paid = locked_total)) as [Heq|Hne].
  - assert (sumZ floor_spent (lockers l) = locked_total) as ->.
    { unfold locked_total. rewrite <- sumZ_locked_lockers. apply sumZ_ext. intros r _.
      unfold floor_spent. rewrite Heq, Z.mul_comm. apply Z.div_mul. lia. }
    rewrite Heq, Z.sub_diag. apply sumZ_nonneg. intros r _. unfold has_room. case_decide; lia.
  - rewrite (sumZ_ext has_room (fun _ => 1)).
    2: { intros r (_ & Hr & _)%lockers_in. unfold has_room, floor_spent.
         rewrite decide_True; [done|]. apply Z.div_lt_upper_bound; nia. }
    assert (paid * locked_total
            <= sumZ floor_spent (lockers l) * locked_total
               + (locked_total - 1) * sumZ (fun _ => 1) (lockers l)) as Hge.
    { unfold locked_total at 1. rewrite <- sumZ_locked_lockers, <- sumZ_scale.
      apply sumZ_div_gt; [done|by left]. }
    assert (0 <= sumZ (fun _ : InvestorRecord => 1) (lockers l)) by (apply sumZ_nonneg; lia).
    nia.
Qed.

Lemma base_usdc_spent_ok locked v :
  base_usdc_spent paid locked_total locked = Ok v -> v = paid * locked / locked_total.
Proof. unfold base_usdc_spent. intros. by inv_arith. Qed.

Lemma close_round_usdc_spent_ok locked rem v rem' :
  close_round_usdc_spent paid locked locked_total rem = Ok (v, rem') ->
  let room := if decide (paid * locked / locked_total < locked) then 1 else 0 in
  let one := if decide (0 < rem) then room else 0 in
  v = paid * locked / locked_total + one /\ rem' = rem - one.
Proof.
  unfold close_round_usdc_spent. intros H. apply bind_ok in H as (b & ->%base_usdc_spent_ok & H).
  case_decide as Hc; inv_arith; simpl.
  - by rewrite !decide_True by lia.
  - destruct (decide (0 < rem')), (decide (paid * locked / locked_total < locked));
      try (exfalso; lia); split; lia.
Qed.

Lemma has_room_bound r :
  0 <= has_room r <= 1 /\ (has_room r = 1 -> floor_spent r + 1 <= ir_usdc_locked_current_round r).
Proof. unfold has_room. case_decide; lia. Qed.

(** The wALN of the next locker: its floor, or all that is left for the last one. *)
Lemma close_alloc_step pre r post t alloc :
  l = pre ++ r :: post -> ir_usdc_locked_current_round r <> 0 -> close_inv pre t ->
  (if decide (ct_processed_eligible t + 1 = cm_eligible_count close_measure)
   then try_from U64 (ct_remaining_waln t)
   else product ← cmul U128 W (base_waln scale price r);
        quotient ← cdiv U128 product (cm_total_full_waln close_measure);
        try_from U64 quotient) = Ok alloc ->
  floor_waln r <= alloc
  /\ ct_waln_purchased t + alloc
     = if decide (ct_processed_eligible t + 1 = n_lockers) then W
       else sumZ floor_waln (lockers pre) + floor_waln r.
Proof.
  intros Hsplit Hz Hinv Halloc. pose proof (lockers_split _ _ _ _ Hsplit Hz) as HL.
  pose proof floor_waln_sum as Hws. rewrite HL, sumZ_app, sumZ_cons in Hws.
  assert (0 <= sumZ floor_waln (lockers post)) as Hpost.
  { apply sumZ_nonneg. intros r' Hr'. apply floor_waln_bound. rewrite HL. set_solver. }
  destruct Hinv as [Hproc Hremaining _ _ Hwaln _ _ _ _].
  assert (n_lockers = Z.of_nat (length (lockers pre)) + 1 + Z.of_nat (length (lockers post))) as HN.
  { unfold n_lockers. rewrite HL, length_app. simpl. lia. }
  rewrite decide_False in Hwaln by lia. change (cm_eligible_count close_measure) with n_lockers in Halloc.
  destruct (decide (ct_processed_eligible t + 1 = n_lockers)) as [Hlast|Hlast]; inv_arith; [lia|].
  change (cm_total_full_waln close_measure) with full_total. fold (floor_waln r). lia.
Qed.

Lemma close_step pre r post t t' r' :
  l = pre ++ r :: post -> close_inv pre t ->
  close_record scale price W paid close_measure t r = Ok (t', r') ->
  close_inv (pre ++ [r]) t' /\ closed r r'.
Proof.
  intros Hsplit Hinv Hx. unfold close_record in Hx. unfold closed.
  case_decide as Hz.
  { simplify_eq. split; [|done].
    destruct Hinv. constructor; by rewrite ?lockers_snoc, ?(decide_True _ _ Hz). }
  apply bind_ok in Hx as (processed & [-> _]%cadd_ok & Hx).
  apply bind_ok in Hx as (full & (-> & _)%full_waln_ok & Hx).
  fold (base_waln scale price r) in Hx.
  apply bind_ok in Hx as (alloc & Halloc & Hx).
  apply bind_ok in Hx as (remw & [-> Hremw]%csub_ok & Hx).
  apply bind_ok in Hx as ([spent rem] & Hspent%close_round_usdc_spent_ok & Hx).
  simpl in Hspent. fold (floor_spent r) in Hspent. fold (has_room r) in Hspent.
  destruct Hspent as [Hspent Hrem]. pose proof (has_room_bound r) as [Hroom Hroom'].
  set (one := if decide (0 < ct_remaining_usdc_remainder t) then has_room r else 0) in *.
  assert (0 < ct_remaining_usdc_remainder t /\ one = has_room r
          \/ ct_remaining_usdc_remainder t <= 0 /\ one = 0) as Hone
    by (unfold one; destruct (decide (0 < ct_remaining_usdc_remainder t)); lia).
  clearbody one.
  destruct (close_alloc_step _ _ _ _ _ Hsplit Hz Hinv Halloc) as [Hal Hpur]. clear Halloc. inv_arith.
  assert (r ∈ lockers l) as Hr by (rewrite (lockers_split _ _ _ _ Hsplit Hz); set_solver).
  pose proof (floor_spent_bound r Hr) as Hfs. pose proof (floor_waln_bound r Hr) as Hfw.
  destruct Hinv as [Hproc Hremaining Hremainder Husdc _ Haat Hparts Hkeys Hposs].
  split.
  - constructor; cbn; rewrite ?lockers_snoc, ?(decide_False _ _ Hz), ?sumZ_snoc.
    1: rewrite length_app; simpl.
    1-4: lia.
    + done.
    + lia.
    + destruct (decide (0 < alloc)); rewrite ?sumZ_snoc; simpl; lia.
    + rewrite fmap_app. destruct (decide (0 < alloc)); [rewrite map_app; by apply sublist_app|].
      by apply sublist_inserts_r.
    + destruct (decide (0 < alloc)); [|done]. by rewrite Forall_snoc.
  - exists (floor_spent r + one), alloc. split_and!; [done|lia..].
Qed.
End Close.

Lemma measure_records_ok scale price l m :
  measure_records scale price l = Ok m -> m = close_measure scale price l.
Proof.
  apply (foldM_inv (fun pre m => m = close_measure scale price pre)); [done|].
  intros pre r m0 m1 -> Hr. unfold measure_record in Hr.
  unfold close_measure, full_total, locked_total, n_lockers.
  rewrite lockers_snoc, sumZ_snoc. destruct (decide (ir_usdc_locked_current_round r = 0)) as [Hz|Hz]; [inv_ok; rewrite Hz, Z.add_0_r; done|].
  apply bind_ok in Hr as (full & (-> & _)%full_waln_ok & Hr). inv_arith.
  rewrite length_app, sumZ_snoc. unfold base_waln, close_measure, n_lockers. simpl. f_equal; lia.
Qed.

Lemma total_base_usdc_spent_ok paid l total :
  total_base_usdc_spent paid (locked_total l) l = Ok total ->
  total = sumZ (floor_spent paid l) (lockers l).
Proof.
  unfold total_base_usdc_spent.
  apply (foldM_inv (fun pre total => total = sumZ (floor_spent paid l) (lockers pre))); [done|].
  intros pre r s s' -> Hr. unfold base_spent_record in Hr. rewrite lockers_snoc.
  case_decide as Hz; [by inv_ok|].
  apply bind_ok in Hr as (b & ->%base_usdc_spent_ok & Hr). inv_arith. by rewrite sumZ_snoc.
Qed.

(** The outcome of a close, whatever the slice. *)
Record close_spec (scale price W paid : Z) (l : list InvestorRecord) (t : CloseTotals)
  (l' : list InvestorRecord) : Prop := {
  cs_paid : 0 < paid <= locked_total l;
  cs_full : 0 < full_total scale price l;
  cs_closed : Forall2 (closed scale price W paid l) l l';
  cs_usdc : ct_usdc_spent t = paid;
  cs_waln : ct_waln_purchased t = W;
  cs_remaining : ct_remaining_waln t = 0;
  cs_aat : ct_aat_volume t = sumZ ir_aat_volume (lockers l);
  cs_participants : sumZ snd (ct_participants t) = W;
  cs_keys : map fst (ct_participants t) `sublist_of` (ir_investor <$> lockers l);
  cs_positive : Forall (fun p : allocation => 0 < p.2) (ct_participants t);
}.

Section CloseRecords.
Context (scale price W paid : Z) (l : list InvestorRecord).
Context (Hlocked : Forall (fun r => 0 <= ir_usdc_locked_current_round r) l)
        (Hbase : Forall (fun r => 0 <= base_waln scale price r) l) (HW : 0 <= W).

Let start : CloseTotals := mkCloseTotals 0 W (remainder paid l) 0 0 0 [].

Lemma close_start :
  0 < paid <= locked_total l -> 0 < full_total scale price l ->
  close_inv scale price W paid l [] start.
Proof.
  intros Hpaid Hfull. pose proof (remainder_fits scale price paid l Hlocked Hbase Hpaid) as Hrem.
  constructor; unfold start; cbn; rewrite ?sumZ_nil; try done; try lia.
  rewrite decide_False; [done|]. intros Hn. unfold full_total, n_lockers in *.
  destruct (lockers l); [by rewrite sumZ_nil in Hfull|done].
Qed.

Lemma close_fold t l' :
  0 < paid <= locked_total l -> 0 < full_total scale price l ->
  mapAccM (close_record scale price W paid (close_measure scale price l)) start l = Ok (t, l') ->
  close_inv scale price W paid l l t /\ Forall2 (closed scale price W paid l) l l'.
Proof.
  intros Hpaid Hfull.
  apply (mapAccM_inv_split (fun pre t ys => close_inv scale price W paid l pre t
    /\ Forall2 (closed scale price W paid l) pre ys)); [split; [by apply close_start|done]|].
  intros pre r post s ys s' r' Hsplit [Hinv HF] Hr.
  destruct (close_step scale price W paid l Hlocked Hbase Hpaid HW Hfull _ _ _ _ _ _ Hsplit Hinv Hr).
  auto using Forall2_snoc.
Qed.

Lemma close_inv_end t :
  0 < paid <= locked_total l -> 0 < full_total scale price l ->
  close_inv scale price W paid l l t ->
  ct_remaining_usdc_remainder t = 0 /\ ct_usdc_spent t = paid
  /\ ct_waln_purchased t = W /\ ct_remaining_waln t = 0.
Proof.
  intros Hpaid Hfull Hinv. pose proof (remainder_fits scale price paid l Hlocked Hbase Hpaid) as Hrem.
  destruct Hinv as [Hproc Hremw Hremu Husdc Hwaln _ _ _ _].
  rewrite decide_True in Hwaln by done. unfold remainder in *. lia.
Qed.

Lemma close_records_ok t l' :
  close_records scale price W paid l = Ok (t, l') -> close_spec scale price W paid l t l'.
Proof.
  intros Hx. unfold close_records in Hx.
  apply bind_ok in Hx as (m & ->%measure_records_ok & Hx). cbn [cm_total_full_waln cm_total_locked_usdc close_measure] in Hx.
  apply bind_ok in Hx as (u1 & Hfull%require_ok & Hx).
  apply bind_ok in Hx as (u2 & Hpaid%require_ok & Hx).
  apply bind_ok in Hx as (u3 & Hpaid'%require_ok & Hx).
  apply bind_ok in Hx as (tb & ->%total_base_usdc_spent_ok & Hx).
  apply bind_ok in Hx as (rem & [-> _]%csub_ok & Hx).
  apply bind_ok in Hx as ([t1 l1] & Hfold & Hx).
  apply bind_ok in Hx as (u4 & _ & Hx). apply bind_ok in Hx as (u5 & _ & Hx). simplify_eq.
  apply close_fold in Hfold as [Hinv HF]; [|done..].
  destruct (close_inv_end t (conj Hpaid Hpaid') Hfull Hinv) as (_ & Hu & Hw & Hr).
  destruct Hinv. constructor; try done. congruence.
Qed.
End CloseRecords.

(** ** A close that has something to settle does not fail

    [close_fits] bounds what the close adds up: the round's own totals fit a [u64], and
    every record has room for its share of them. *)
Record close_fits (scale price W paid : Z) (l : list InvestorRecord) : Prop := {
  cf_length : (length l <= MAX_INVESTORS)%nat;
  cf_scale : 0 < scale;
  cf_price : 0 < price;
  cf_waln : in_range U64 W;
  cf_paid : 0 < paid <= locked_total l;
  cf_locked : locked_total l <= u64_max;
  cf_full : 0 < full_total scale price l <= u64_max;
  cf_volume : sumZ ir_aat_volume (lockers l) <= u64_max;
  cf_records : Forall (fun r => record_wf r
    /\ ir_usdc_locked_current_round r * scale <= int_max U128
    /\ ir_usdc_deposited r + ir_usdc_locked_current_round r <= u64_max
    /\ 0 <= ir_usdc_committed r
    /\ ir_usdc_committed r + ir_usdc_locked_current_round r <= u64_max
    /\ 0 <= ir_waln_purchased_total r /\ ir_waln_purchased_total r + W <= u64_max) l;
}.

Section CloseTotal.
Context (scale price W paid : Z) (l : list InvestorRecord).
Context (Hfits : close_fits scale price W paid l).

Lemma fits_record r : r ∈ l ->
  record_wf r /\ ir_usdc_locked_current_round r * scale <= int_max U128
  /\ ir_usdc_deposited r + ir_usdc_locked_current_round r <= u64_max
  /\ 0 <= ir_usdc_committed r
  /\ ir_usdc_committed r + ir_usdc_locked_current_round r <= u64_max
  /\ 0 <= ir_waln_purchased_total r /\ ir_waln_purchased_total r + W <= u64_max.
Proof. pose proof (cf_records _ _ _ _ _ Hfits) as H. rewrite Forall_forall in H. apply H. Qed.

Lemma fits_locked : Forall (fun r => 0 <= ir_usdc_locked_current_round r) l.
Proof.
  apply Forall_forall. intros r ((_ & Hr & _) & _)%fits_record. unfold_range. lia.
Qed.

Lemma fits_base : Forall (fun r => 0 <= base_waln scale price r) l.
Proof.
  apply Forall_forall. intros r ((_ & Hr & _) & _)%fits_record. unfold base_waln.
  destruct Hfits. apply Z.div_pos; unfold_range; nia.
Qed.

Lemma locker_parts r :
  r ∈ lockers l -> 0 < ir_usdc_locked_current_round r <= locked_total l
                   /\ 0 <= base_waln scale price r <= full_total scale price l.
Proof.
  intros Hr. destruct (lockers_in scale price l fits_locked fits_base r Hr) as (Hin & Hpos & Hb).
  split; split; [done| |done|].
  - apply sumZ_elem; [|done]. pose proof fits_locked as H. by rewrite Forall_forall in H.
  - apply sumZ_elem; [|done]. intros r'. apply lockers_in; [apply fits_locked|apply fits_base].
Qed.

Lemma n_lockers_bound : n_lockers l <= 100.
Proof.
  unfold n_lockers, lockers. pose proof (length_filter (fun r => ir_usdc_locked_current_round r <> 0) l).
  pose proof (cf_length _ _ _ _ _ Hfits). unfold MAX_INVESTORS in *. lia.
Qed.

Lemma full_waln_in r :
  r ∈ lockers l ->
  full_waln scale price (ir_usdc_locked_current_round r) = Ok (base_waln scale price r).
Proof.
  intros Hr. destruct (locker_parts r Hr) as [? ?]. apply list_elem_of_filter in Hr as [_ Hr].
  destruct (fits_record r Hr) as (_ & Hs & _). destruct Hfits.
  apply full_waln_ok. fold (base_waln scale price r).
  split_and!; [done|lia|unfold_range; nia|unfold_range; lia].
Qed.

Lemma base_usdc_spent_in r :
  r ∈ lockers l ->
  base_usdc_spent paid (locked_total l) (ir_usdc_locked_current_round r) = Ok (floor_spent paid l r)
  /\ 0 <= floor_spent paid l r <= ir_usdc_locked_current_round r.
Proof.
  intros Hr. destruct (locker_parts r Hr) as [Hl _].
  assert (0 <= floor_spent paid l r <= ir_usdc_locked_current_round r) as Hb.
  { eapply floor_spent_bound; [apply fits_locked|apply fits_base|apply Hfits|done]. }
  split; [|done]. unfold base_usdc_spent. destruct Hfits.
  rewrite cmul_in by (unfold_range; nia). simpl.
  assert (0 <= paid * ir_usdc_locked_current_round r / locked_total l <= u64_max)
    by (fold (floor_spent paid l r); lia).
  rewrite cdiv_in by (unfold_range; lia). simpl. apply try_from_in. unfold_range. lia.
Qed.

Lemma close_round_usdc_spent_in r rem :
  r ∈ lockers l -> 0 <= rem <= u64_max ->
  exists s rem', close_round_usdc_spent paid (ir_usdc_locked_current_round r) (locked_total l) rem
                 = Ok (s, rem') /\ 0 <= s <= ir_usdc_locked_current_round r.
Proof.
  intros Hr Hrem. destruct (base_usdc_spent_in r Hr) as [Hb ?]. destruct (locker_parts r Hr) as [? _].
  unfold close_round_usdc_spent. rewrite Hb. simpl. destruct Hfits.
  case_decide; [|eauto].
  rewrite cadd_in by (unfold_range; lia). simpl. rewrite csub_in by (unfold_range; lia). simpl.
  eexists _, _. split; [done|lia].
Qed.

Lemma waln_alloc_in r t (last : bool) :
  r ∈ lockers l -> 0 <= ct_remaining_waln t <= W ->
  exists a, (if last then try_from U64 (ct_remaining_waln t)
             else product ← cmul U128 W (base_waln scale price r);
                  quotient ← cdiv U128 product (full_total scale price l);
                  try_from U64 quotient) = Ok a
    /\ 0 <= a <= W /\ a = if last then ct_remaining_waln t else floor_waln scale price W l r.
Proof.
  intros Hr Hrem. destruct (locker_parts r Hr) as [_ Hb].
  pose proof (cf_waln _ _ _ _ _ Hfits) as HW. pose proof (cf_full _ _ _ _ _ Hfits) as HF.
  destruct last; [rewrite try_from_in by (unfold_range; lia); eauto|].
  assert (0 <= floor_waln scale price W l r <= W) as Ha.
  { unfold floor_waln. split; [apply Z.div_pos; unfold_range; nia|].
    apply Z.div_le_upper_bound; unfold_range; nia. }
  rewrite cmul_in by (unfold_range; nia). simpl. fold (floor_waln scale price W l r).
  rewrite cdiv_in by (unfold floor_waln in *; unfold_range; lia). simpl.
  fold (floor_waln scale price W l r). rewrite try_from_in by (unfold_range; lia). eauto.
Qed.

Lemma measure_records_in : measure_records scale price l = Ok (close_measure scale price l).
Proof.
  destruct (foldM_total (fun pre m => m = close_measure scale price pre)
    (measure_record scale price) l (mkCloseMeasure 0 0 0)) as (m & Hm & ->); [done| |done].
  intros pre r post m Hsplit ->. unfold measure_record.
  assert (forall r', r' ∈ lockers l -> 0 <= base_waln scale price r') as Hnn
    by (intros r' Hr'; apply locker_parts in Hr'; lia).
  assert (forall r', r' ∈ l -> 0 <= ir_usdc_locked_current_round r') as Hnl
    by (intros r' Hr'; pose proof fits_locked as H; rewrite Forall_forall in H; auto).
  destruct (decide (ir_usdc_locked_current_round r = 0)) as [Hz|Hz].
  { eexists. split; [done|]. unfold close_measure, full_total, locked_total, n_lockers.
    rewrite lockers_snoc, decide_True, sumZ_snoc by done. f_equal; lia. }
  assert (lockers l = lockers pre ++ r :: lockers post) as HL by (by apply lockers_split).
  assert (r ∈ lockers l) as Hr by (rewrite HL; set_solver).
  rewrite full_waln_in by done. simpl.
  pose proof n_lockers_bound as HN. unfold n_lockers in HN. rewrite HL, length_app in HN. simpl in HN.
  pose proof (cf_full _ _ _ _ _ Hfits) as HF. unfold full_total in HF.
  pose proof (cf_locked _ _ _ _ _ Hfits) as HT. unfold locked_total in HT.
  rewrite HL, sumZ_app, sumZ_cons in HF. rewrite Hsplit, sumZ_app, sumZ_cons in HT.
  assert (0 <= sumZ (base_waln scale price) (lockers pre)
          /\ 0 <= sumZ (base_waln scale price) (lockers post)
          /\ 0 <= base_waln scale price r) as (? & ? & ?).
  { split_and!; [apply sumZ_nonneg; intros; apply Hnn; rewrite HL; set_solver..|by apply Hnn]. }
  assert (0 <= sumZ ir_usdc_locked_current_round pre
          /\ 0 <= sumZ ir_usdc_locked_current_round post
          /\ 0 <= ir_usdc_locked_current_round r) as (? & ? & ?).
  { split_and!; [apply sumZ_nonneg; intros; apply Hnl; rewrite Hsplit; set_solver..|].
    apply Hnl. rewrite Hsplit. set_solver. }
  cbn [cm_total_full_waln cm_total_locked_usdc cm_eligible_count close_measure].
  unfold full_total, locked_total, n_lockers.
  repeat (rewrite cadd_in by (unfold_range; lia); simpl).
  eexists. split; [done|]. unfold close_measure, full_total, locked_total, n_lockers.
  rewrite lockers_snoc, decide_False, !sumZ_snoc, length_app by done. simpl. f_equal; lia.
Qed.

Lemma total_base_usdc_spent_in :
  total_base_usdc_spent paid (locked_total l) l = Ok (sumZ (floor_spent paid l) (lockers l)).
Proof.
  destruct (foldM_total (fun pre t => t = sumZ (floor_spent paid l) (lockers pre))
    (base_spent_record paid (locked_total l)) l 0) as (t & Ht & ->); [done| |done].
  intros pre r post t Hsplit ->. unfold base_spent_record. rewrite lockers_snoc.
  destruct (decide (ir_usdc_locked_current_round r = 0)) as [Hz|Hz]; [eauto|].
  pose proof (lockers_split _ _ _ _ Hsplit Hz) as HL.
  assert (forall r', r' ∈ lockers l -> 0 <= floor_spent paid l r') as Hnn
    by (intros r' Hr'; apply base_usdc_spent_in in Hr'; lia).
  assert (r ∈ lockers l) as Hr by (rewrite HL; set_solver).
  destruct (base_usdc_spent_in r Hr) as [-> ?]. simpl. rewrite sumZ_snoc.
  assert (sumZ (floor_spent paid l) (lockers l) <= paid) as Hsum
    by (eapply floor_spent_sum; apply Hfits).
  rewrite HL, sumZ_app, sumZ_cons in Hsum.
  assert (0 <= sumZ (floor_spent paid l) (lockers pre)
          /\ 0 <= sumZ (floor_spent paid l) (lockers post)) as [? ?]
    by (split; apply sumZ_nonneg; intros; apply Hnn; rewrite HL; set_solver).
  destruct Hfits. eexists. split; [apply cadd_in; unfold_range; lia|done].
Qed.

(** Every sum over the records visited so far is within the sum over all of them. *)
Lemma prefix_sum (f : InvestorRecord -> Z) pre r post :
  (forall r', r' ∈ lockers l -> 0 <= f r') -> l = pre ++ r :: post ->
  ir_usdc_locked_current_round r <> 0 ->
  0 <= sumZ f (lockers pre) /\ 0 <= f r
  /\ sumZ f (lockers pre) + f r <= sumZ f (lockers l).
Proof.
  intros Hnn Hsplit Hz. rewrite (lockers_split _ _ _ _ Hsplit Hz) in *.
  rewrite sumZ_app, sumZ_cons.
  assert (0 <= sumZ f (lockers pre) /\ 0 <= sumZ f (lockers post)) as [? ?]
    by (split; apply sumZ_nonneg; intros; apply Hnn; set_solver).
  assert (0 <= f r) by (apply Hnn; set_solver). lia.
Qed.

Lemma floor_waln_in r : r ∈ lockers l -> 0 <= floor_waln scale price W l r.
Proof.
  pose proof (cf_waln _ _ _ _ _ Hfits) as HW. intros Hr.
  destruct (waln_alloc_in r (mkCloseTotals 0 0 0 0 0 0 []) false Hr) as (a & _ & ? & ->);
    [cbn; unfold_range; lia|lia].
Qed.

Lemma close_sums :
  sumZ (floor_waln scale price W l) (lockers l) <= W
  /\ sumZ (floor_spent paid l) (lockers l) <= paid
  /\ 0 <= remainder paid l <= sumZ (has_room paid l) (lockers l).
Proof.
  destruct Hfits. split_and!.
  - eapply floor_waln_sum. lia.
  - by eapply floor_spent_sum.
  - eapply remainder_fits; eauto using fits_locked, fits_base.
  - eapply remainder_fits; eauto using fits_locked, fits_base.
Qed.

Lemma close_record_in pre r post t :
  l = pre ++ r :: post -> close_inv scale price W paid l pre t ->
  exists t' r', close_record scale price W paid (close_measure scale price l) t r = Ok (t', r').
Proof.
  intros Hsplit Hinv. unfold close_record.
  destruct (decide (ir_usdc_locked_current_round r = 0)) as [Hz|Hz]; [eauto|].
  pose proof (lockers_split _ _ _ _ Hsplit Hz) as HL.
  assert (r ∈ lockers l) as Hr by (rewrite HL; set_solver).
  destruct (fits_record r) as ((Hd & _ & Hv) & _ & Hdep & Hc0 & Hc & Hp0 & Hp);
    [rewrite Hsplit; set_solver|].
  destruct (locker_parts r Hr) as [Hlk _]. destruct close_sums as (Hsw & Hss & Hrem).
  destruct (prefix_sum (floor_waln scale price W l) pre r post) as (? & ? & ?);
    [apply floor_waln_in|done..|].
  destruct (prefix_sum (floor_spent paid l) pre r post) as (? & ? & ?);
    [intros r' Hr'; apply base_usdc_spent_in in Hr'; lia|done..|].
  destruct (prefix_sum ir_aat_volume pre r post) as (? & ? & ?);
    [intros r' [_ Hr']%list_elem_of_filter; destruct (fits_record r' Hr') as ((_ & _ & ?) & _);
     unfold_range; lia|done..|].
  assert (0 <= sumZ (has_room paid l) (lockers pre)) as Hroom
    by (apply sumZ_nonneg; intros; unfold has_room; case_decide; lia).
  pose proof n_lockers_bound as HN. pose proof (cf_volume _ _ _ _ _ Hfits) as Hvol.
  pose proof (cf_waln _ _ _ _ _ Hfits) as HW. pose proof (cf_paid _ _ _ _ _ Hfits) as Hpaid.
  pose proof (cf_locked _ _ _ _ _ Hfits) as Htot.
  destruct Hinv as [Hproc Hremw Hremu Husdc Hwaln Haat _ _ _].
  assert (ct_processed_eligible t < n_lockers l) as Hlt
    by (unfold n_lockers; rewrite HL, length_app; simpl; lia).
  rewrite decide_False in Hwaln by lia. unfold remainder in *.
  rewrite (cadd_in U64 (ct_processed_eligible t) 1) by (unfold_range; lia). simpl.
  rewrite full_waln_in by done. simpl.
  destruct (waln_alloc_in r t (bool_decide (ct_processed_eligible t + 1 = n_lockers l)) Hr)
    as (a & Ha & Ha1 & Ha2); [lia|].
  rewrite decide_bool_decide, Ha. simpl.
  assert (a <= ct_remaining_waln t)
    by (destruct (bool_decide (ct_processed_eligible t + 1 = n_lockers l)); lia).
  rewrite csub_in by (unfold_range; lia). simpl.
  destruct (close_round_usdc_spent_in r (ct_remaining_usdc_remainder t) Hr)
    as (s & rem & Hs & Hs1); [unfold_range; lia|].
  rewrite Hs. simpl. eapply close_round_usdc_spent_ok in Hs as [Hs2 _].
  fold (floor_spent paid l r) in Hs2.
  rewrite csub_in by (unfold_range; lia). simpl.
  assert (ct_usdc_spent t + s <= paid) as Hsp
    by (revert Hs2; repeat case_decide; lia).
  unfold_range. repeat (rewrite cadd_in by (unfold_range; lia); simpl). eauto.
Qed.

Lemma close_records_in :
  exists t l', close_records scale price W paid l = Ok (t, l').
Proof.
  pose proof (cf_paid _ _ _ _ _ Hfits) as Hpaid. pose proof (cf_full _ _ _ _ _ Hfits) as [Hfull _].
  pose proof (cf_waln _ _ _ _ _ Hfits) as HW. destruct close_sums as (_ & Hss & Hrem).
  pose proof (cf_locked _ _ _ _ _ Hfits) as Htot.
  unfold close_records. rewrite measure_records_in. simpl. rewrite !require_true by lia. simpl.
  rewrite total_base_usdc_spent_in. simpl. unfold remainder in Hrem.
  assert (0 <= sumZ (floor_spent paid l) (lockers l))
    by (apply sumZ_nonneg; intros r Hr; apply base_usdc_spent_in in Hr; lia).
  rewrite csub_in by (unfold_range; lia). simpl. fold (remainder paid l).
  destruct (mapAccM_total (fun pre t _ => close_inv scale price W paid l pre t)
    (close_record scale price W paid (close_measure scale price l)) l
    (mkCloseTotals 0 W (remainder paid l) 0 0 0 [])) as (t & l' & Hok & Hinv).
  - apply close_start; auto using fits_locked, fits_base.
  - intros pre r post t ys Hsplit Hinv.
    destruct (close_record_in _ _ _ _ Hsplit Hinv) as (t' & r' & Hr).
    exists t', r'. split; [done|].
    eapply close_step in Hr as [? _]; eauto using fits_locked, fits_base. unfold_range. lia.
  - rewrite Hok. simpl.
    destruct (close_inv_end scale price W paid l fits_locked fits_base t Hpaid Hfull Hinv)
      as (-> & -> & _ & _).
    rewrite !require_true by done. simpl. eauto.
Qed.
End CloseTotal.

(** ** What the settlements do to the pool's sums *)

(** The lobby's USDC: deposits and locks. *)
Definition lobby_usdc (l : list InvestorRecord) : Z :=
  sumZ ir_usdc_deposited l + sumZ ir_usdc_locked_current_round l.

Lemma settled_sums scale price l :
  sumZ ir_usdc_locked_current_round (map (settled scale price) l) = 0
  /\ sumZ ir_usdc_deposited (map (settled scale price) l) = sumZ ir_usdc_deposited l
  /\ sumZ ir_usdc_committed (map (settled scale price) l)
     = sumZ ir_usdc_committed l + sumZ ir_usdc_locked_current_round l
  /\ sumZ ir_waln_purchased_total (map (settled scale price) l)
     = sumZ ir_waln_purchased_total l + sumZ (base_waln scale price) (lockers l).
Proof.
  unfold lockers. induction l as [|r l (IH1 & IH2 & IH3 & IH4)]; [done|].
  rewrite map_cons, filter_cons, !sumZ_cons, IH1, IH2, IH3, IH4. unfold settled.
  destruct (decide (ir_usdc_locked_current_round r = 0)) as [Hz|Hz].
  - rewrite decide_False by tauto. rewrite Hz. lia.
  - rewrite decide_True by done. rewrite sumZ_cons. cbn. lia.
Qed.

Lemma settled_keys scale price l : ir_investor <$> map (settled scale price) l = ir_investor <$> l.
Proof.
  change (map (settled scale price) l) with (settled scale price <$> l).
  rewrite <- list_fmap_compose. apply list_fmap_ext. intros i r _. unfold compose, settled.
  by case_decide.
Qed.

Lemma same_funds_sums l l' :
  Forall2 same_funds l l' ->
  sumZ ir_usdc_locked_current_round l' = sumZ ir_usdc_locked_current_round l
  /\ sumZ ir_usdc_deposited l' = sumZ ir_usdc_deposited l
  /\ ir_investor <$> l' = ir_investor <$> l
  /\ Forall2 (fun r r' => ir_aat_volume r' = ir_aat_volume r) l l'.
Proof.
  induction 1 as [|r r' l l' (? & ? & ? & ? & ?) _ (IH1 & IH2 & IH3 & IH4)]; [done|].
  rewrite !fmap_cons, !sumZ_cons, IH1, IH2, IH3. split_and!; [lia|lia|congruence|by constructor].
Qed.

(** The dust goes to the record of a participant. *)
Lemma distribute_dust_credit now dust t l t' l' :
  (forall p, p ∈ st_participants t -> p.1 ∈ ir_investor <$> l) ->
  distribute_dust now dust t l = Ok (t', l') ->
  sumZ ir_waln_purchased_total l'
  = sumZ ir_waln_purchased_total l + (st_waln_purchased t' - st_waln_purchased t).
Proof.
  intros Hkeys Hx. unfold distribute_dust in Hx. case_decide as Hc; [|inv_ok; lia].
  set (idx := Z.to_nat _) in Hx. inv_arith.
  destruct (list_find _ l) as [[i r]|] eqn:Hfind; inv_arith.
  - apply list_find_Some in Hfind as (Hi & _ & _). rewrite (sumZ_insert _ _ _ _ _ Hi). cbn. lia.
  - exfalso. apply list_find_None in Hfind. rewrite Forall_forall in Hfind.
    match goal with H : st_participants t !! _ = Some ?w |- _ =>
      apply list_elem_of_lookup_2, Hkeys, list_elem_of_fmap in H as (r & Heq & Hr) end.
    by apply (Hfind r Hr).
Qed.

(** What the last pass of a close adds up, record by record. *)
Lemma close_credits scale price W paid m t0 l t l' :
  mapAccM (close_record scale price W paid m) t0 l = Ok (t, l') ->
  sumZ ir_usdc_locked_current_round l' = 0
  /\ sumZ ir_usdc_deposited l' = lobby_usdc l - (ct_usdc_spent t - ct_usdc_spent t0)
  /\ sumZ ir_usdc_committed l' = sumZ ir_usdc_committed l + (ct_usdc_spent t - ct_usdc_spent t0)
  /\ sumZ ir_waln_purchased_total l'
     = sumZ ir_waln_purchased_total l + (ct_waln_purchased t - ct_waln_purchased t0)
  /\ ir_investor <$> l' = ir_investor <$> l
  /\ Forall2 (fun r r' => ir_aat_volume r' = ir_aat_volume r) l l'.
Proof.
  apply (mapAccM_inv (fun pre t ys => sumZ ir_usdc_locked_current_round ys = 0
    /\ sumZ ir_usdc_deposited ys = lobby_usdc pre - (ct_usdc_spent t - ct_usdc_spent t0)
    /\ sumZ ir_usdc_committed ys = sumZ ir_usdc_committed pre + (ct_usdc_spent t - ct_usdc_spent t0)
    /\ sumZ ir_waln_purchased_total ys
       = sumZ ir_waln_purchased_total pre + (ct_waln_purchased t - ct_waln_purchased t0)
    /\ ir_investor <$> ys = ir_investor <$> pre
    /\ Forall2 (fun r r' => ir_aat_volume r' = ir_aat_volume r) pre ys)).
  { unfold lobby_usdc. rewrite !sumZ_nil. split_and!; (done || lia). }
  intros pre r s ys s' y (H1 & H2 & H3 & H4 & H5 & H6) Hx. unfold lobby_usdc in *.
  rewrite !fmap_app, !sumZ_snoc, H1, H2, H3, H4, H5. unfold close_record in Hx.
  destruct (decide (ir_usdc_locked_current_round r = 0)) as [Hz|Hz].
  - inv_ok. rewrite Hz. split_and!; try done; try lia. by apply Forall2_snoc.
  - apply bind_ok in Hx as (p & _ & Hx). apply bind_ok in Hx as (f & _ & Hx).
    apply bind_ok in Hx as (a & _ & Hx). apply bind_ok in Hx as (w & _ & Hx).
    apply bind_ok in Hx as ([u rem] & _ & Hx). inv_arith. cbn.
    split_and!; try done; try lia. by apply Forall2_snoc.
Qed.

Lemma close_records_credits scale price W paid l t l' :
  close_records scale price W paid l = Ok (t, l') ->
  sumZ ir_usdc_locked_current_round l' = 0
  /\ sumZ ir_usdc_deposited l' = lobby_usdc l - ct_usdc_spent t
  /\ sumZ ir_usdc_committed l' = sumZ ir_usdc_committed l + ct_usdc_spent t
  /\ sumZ ir_waln_purchased_total l' = sumZ ir_waln_purchased_total l + ct_waln_purchased t
  /\ ir_investor <$> l' = ir_investor <$> l
  /\ Forall2 (fun r r' => ir_aat_volume r' = ir_aat_volume r) l l'.
Proof.
  intros Hx. unfold close_records in Hx. inv_arith.
  match goal with H : mapAccM _ _ _ = _ |- _ => apply close_credits in H as (? & ? & ? & ? & ? & ?) end.
  cbn in *. split_and!; (done || lia).
Qed.

(** ** Properties *)

Lemma settle_participant_keys scale price l p :
  p ∈ st_participants (settle_totals scale price l) -> p.1 ∈ ir_investor <$> l.
Proof.
  cbn. intros (r & -> & [_ Hr]%list_elem_of_filter)%list_elem_of_fmap.
  cbn. by apply (list_elem_of_fmap_2 ir_investor).
Qed.

Lemma full_settlement_sums scale price size now dust l t1 l1 t2 l2 :
  0 < scale -> 0 < price -> 0 <= dust ->
  sumZ ir_usdc_locked_current_round l <= size * price / scale ->
  settle_records scale price l = Ok (t1, l1) ->
  distribute_dust now dust t1 l1 = Ok (t2, l2) ->
  st_waln_purchased t2 = sumZ snd (st_participants t2)
  /\ st_waln_purchased t2 <= size + dust
  /\ st_usdc_spent t2 = sumZ ir_usdc_locked_current_round l
  /\ sumZ ir_usdc_locked_current_round l2 = 0
  /\ sumZ ir_usdc_deposited l2 = sumZ ir_usdc_deposited l
  /\ sumZ ir_waln_purchased_total l2
     = sumZ ir_waln_purchased_total l + st_waln_purchased t2
  /\ ir_investor <$> l2 = ir_investor <$> l.
Proof.
  intros Hs Hp Hd Hcap (-> & -> & Hrange)%settle_records_ok Hdust.
  pose proof (base_waln_bound scale price size l Hs Hp Hcap) as Hb.
  apply distribute_dust_credit in Hdust as Hcr.
  2: { intros p Hp'. rewrite settled_keys. by apply (settle_participant_keys scale price). }
  apply distribute_dust_ok in Hdust as (HF & Hu & _ & _ & _ & given & Hg & Hw & Hsum & _); [|done].
  destruct (same_funds_sums _ _ HF) as (-> & -> & Hk & _).
  destruct (settled_sums scale price l) as (-> & -> & _ & Hpur).
  rewrite settled_keys in Hk. cbn in *.
  assert (sumZ snd (map (fun r => (ir_investor r, base_waln scale price r)) (lockers l))
          = sumZ (base_waln scale price) (lockers l)) as Hm by (rewrite sumZ_map; done).
  split_and!; [lia|lia|done|done|done|lia|done].
Qed.

(** C9: settling a full round conserves both currencies.  With locks within the round's
    cap, what the participants are allotted adds up to the reported total, which is at
    most the wALN of the round and the carried dust, so that the new dust does not
    underflow; the USDC spent is the sum of the locks, which are all released into
    [usdc_committed]; deposits stay, and the wALN credited to the pool's records is
    exactly what is allotted. *)
Theorem full_settlement_conserves scale price size now dust l t1 l1 t2 l2 :
  0 < scale -> 0 < price -> 0 <= dust ->
  sumZ ir_usdc_locked_current_round l <= size * price / scale ->
  settle_records scale price l = Ok (t1, l1) ->
  distribute_dust now dust t1 l1 = Ok (t2, l2) ->
  st_waln_purchased t2 = sumZ snd (st_participants t2)
  /\ st_waln_purchased t2 <= size + dust
  /\ st_usdc_spent t2 = sumZ ir_usdc_locked_current_round l
  /\ sumZ ir_usdc_locked_current_round l2 = 0
  /\ sumZ ir_usdc_deposited l2 = sumZ ir_usdc_deposited l
  /\ sumZ ir_waln_purchased_total l2
     = sumZ ir_waln_purchased_total l + st_waln_purchased t2
  /\ ir_investor <$> l2 = ir_investor <$> l.
Proof. apply full_settlement_sums. Qed.

(** Locks of 3 333 334 and 1 666 666 at price 500 000, with 7 units of dust. *)
Definition locked_pool : list InvestorRecord :=
  zip_with lock [3333334; 1666666; 0; 0] sample_pool.

Lemma full_settlement_conserves_witness :
  exists t1 l1 t2 l2, settle_records 1000000000 500000 locked_pool = Ok (t1, l1)
    /\ distribute_dust 1700000001 7 t1 l1 = Ok (t2, l2)
    /\ st_waln_purchased t2 <= 10000000000 + 7.
Proof.
  destruct (settle_records 1000000000 500000 locked_pool) as [[t1 l1]|] eqn:H1; [|vm_compute in H1; discriminate].
  destruct (distribute_dust 1700000001 7 t1 l1) as [[t2 l2]|] eqn:H2;
    [|vm_compute in H1; injection H1 as <- <-; vm_compute in H2; discriminate].
  exists t1, l1, t2, l2. split; [done|]. split; [done|].
  refine (proj1 (proj2 (full_settlement_conserves 1000000000 500000 10000000000 1700000001 7
    locked_pool t1 l1 t2 l2 _ _ _ _ H1 H2))); [lia|lia|lia|vm_compute; discriminate].
Defined.

(** C10: a forced close conserves both currencies.  The wALN bought so far is allotted in
    full and the USDC spent is exactly what the sellers were paid; every participant
    spends the floor of its pro-rata share or one unit more, never more than its lock,
    gets the rest of the lock back as a deposit and at least the floor of its wALN; the
    other records do not change. *)
Theorem close_records_conserves scale price W paid l t l' :
  Forall (fun r => 0 <= ir_usdc_locked_current_round r) l -> 0 < scale -> 0 < price -> 0 <= W ->
  close_records scale price W paid l = Ok (t, l') ->
  sumZ snd (ct_participants t) = W /\ ct_waln_purchased t = W /\ ct_usdc_spent t = paid
  /\ Forall (fun p : allocation => 0 < p.2) (ct_participants t)
  /\ sumZ ir_usdc_locked_current_round l' = 0
  /\ sumZ ir_usdc_deposited l' = lobby_usdc l - paid
  /\ sumZ ir_waln_purchased_total l' = sumZ ir_waln_purchased_total l + W
  /\ Forall2 (closed scale price W paid l) l l'.
Proof.
  intros Hl Hs Hp HW Hx.
  assert (Forall (fun r => 0 <= base_waln scale price r) l) as Hb.
  { eapply Forall_impl; [exact Hl|]. cbn. intros r Hr. apply Z.div_pos; [|done]. nia. }
  apply close_records_credits in Hx as Hcr. destruct Hcr as (Hz & Hd & _ & Hpur & _).
  apply (close_records_ok _ _ _ _ _ Hl Hb HW) in Hx as [].
  split_and!; [done..|congruence|congruence|done].
Qed.

(** A forced close with something to settle goes through: when the wALN and the
    totals fit a [u64], the amount paid is positive and within the locks, and every
    record has room for its share, the three passes succeed; in particular the
    remainder of the USDC division is always used up. *)
Theorem close_records_progress scale price W paid l :
  close_fits scale price W paid l ->
  exists t l', close_records scale price W paid l = Ok (t, l').
Proof. apply close_records_in. Qed.

Lemma locked_pool_fits : close_fits 1000000000 500000 2000000001 1000000 locked_pool.
Proof. constructor; by_decide. Qed.

Lemma close_records_progress_witness :
  exists t l', close_records 1000000000 500000 2000000001 1000000 locked_pool = Ok (t, l')
    /\ ct_participants t = [(key_of 1, 1333333600); (key_of 2, 666666401)]
    /\ map ir_usdc_deposited l' = [8333333; 3666667; 8000000; 2499999].
Proof.
  destruct (close_records_progress 1000000000 500000 2000000001 1000000 locked_pool locked_pool_fits)
    as (t & l' & Hx).
  exists t, l'. split; [done|]. vm_compute in Hx. injection Hx as <- <-. done.
Defined.

Lemma close_records_conserves_witness :
  exists t l', close_records 1000000000 500000 2000000001 1000000 locked_pool = Ok (t, l')
    /\ sumZ snd (ct_participants t) = 2000000001.
Proof.
  destruct (close_records_in 1000000000 500000 2000000001 1000000 locked_pool locked_pool_fits)
    as (t & l' & Hx).
  exists t, l'. split; [done|].
  refine (proj1 (close_records_conserves 1000000000 500000 2000000001 1000000 locked_pool t l' _ _ _ _ Hx));
    [apply fits_locked with 1000000000 500000 2000000001 1000000; apply locked_pool_fits|lia..].
Defined.

(** The source's unit test, over its locks and its payment: what is left of the remainder,
    the total spent, and the amounts. *)
Definition remainder_test (locks : list Z) (usdc_paid_for_round : Z) : R ((Z * Z) * list Z) :=
  let total_locked_usdc := sumZ id locks in
  let total_base_usdc_spent :=
    sumZ (fun locked => as_unsigned U64 (usdc_paid_for_round * locked / total_locked_usdc)) locks in
  mapAccM (fun '(remainder, total_spent) locked =>
             '(spent, remainder) ←
               close_round_usdc_spent usdc_paid_for_round locked total_locked_usdc remainder;
             Ok ((remainder, total_spent + spent), spent))
    (usdc_paid_for_round - total_base_usdc_spent, 0) locks.

(** Its assertions: 99 units over 100 locks of one unit. *)
Example remainder_test_passes :
  match remainder_test (replicate 100 1) 99 with
  | Ok ((remainder, total_spent), spent) =>
      remainder = 0 /\ total_spent = 99 /\ Forall (fun s => s <= 1) spent
  | Err _ => False
  end.
Proof. by_decide. Qed.

(** The same case for the whole close. *)
Example close_round_usdc_remainder_is_capped_by_locked_amount :
  let locks := replicate 100 (lock 1 (depositor 1 1 1)) in
  match close_records 1 1 99 99 locks with
  | Ok (t, l') => ct_usdc_spent t = 99 /\ ct_remaining_usdc_remainder t = 0
                  /\ sumZ ir_usdc_deposited l' = 1
  | Err _ => False
  end.
Proof. vm_compute. auto. Qed.
