(* ===== verification/AllocBook.v ===== *)
(** * The allocation book of a settled round

    Settling a round leaves a [RoundLockedWaln] account: the participants' allocations,
    sorted by key, and the number of them still to be claimed.  [open_book] is the code
    of [sell_waln] and [close_round] that fills it, [claim_entry] the code of
    [claim_waln] that takes one entry out.  The keys are looked up by binary search; the
    theorems relate the book to a finite map from investors to amounts ([alloc_map]),
    and describe the log line written for every allocation. *)
From coqutil Require Import Datatypes.RecordSettersUsingExistingGetters.
From stdpp Require Import base gmap strings numbers sorting list.
From S2P Require Import Prelude.
From S2P Require Import State.
From S2P Require Import Settlement.
#[local] Open Scope Z_scope.

(** ** Filling the book *)

(** [retain(|(_, waln_amount)| *waln_amount > 0)] *)
Definition retain_positive (l : list allocation) : list allocation :=
  filter (fun p : allocation => 0 < p.2) l.

(** [sort_unstable_by(|a, b| a.0.to_bytes().cmp(&b.0.to_bytes()))] *)
Definition alloc_le (a b : allocation) : Prop := bytes_le a.1 b.1.
#[export] Instance alloc_le_dec a b : Decision (alloc_le a b).
Proof. unfold alloc_le. apply _. Defined.
#[export] Instance alloc_le_trans : Transitive alloc_le.
Proof. intros a b c. unfold alloc_le. apply bytes_le_trans. Qed.
#[export] Instance alloc_le_total : Total alloc_le.
Proof. intros a b. unfold alloc_le. apply bytes_le_total. Qed.

Definition sort_by_key (l : list allocation) : list allocation := merge_sort alloc_le l.

(** The [RoundLockedWaln] written for the sorted [participant_data]. *)
Definition open_book (round_index bump unlock : Z) (participant_data : list allocation)
  : RoundLockedWaln :=
  mkRoundLockedWaln round_index bump unlock
    (as_unsigned U32 (Z.of_nat (length participant_data)))
    (map (fun p : allocation => mkInvestorAlloc p.1 p.2) participant_data).

(** ** Looking an investor up: [slice::binary_search_by_key]

    The loop halves [size] and keeps the answer, if there is one, in
    [base .. base + size]; the comparator reads an index that is always in range. *)
Fixpoint search_loop (fuel : nat) (k : Pubkey) (keys : list Pubkey) (base size : nat)
  : R nat :=
  if decide (size <= 1)%nat then Ok base
  else
    match fuel with
    | O => Err OutOfFuel
    | S fuel =>
        let half := (size / 2)%nat in
        let mid := (base + half)%nat in
        probe ← ok_or (keys !! mid) Panic;
        let base := match bytes_cmp probe k with Gt => base | _ => mid end in
        search_loop fuel k keys base (size - half)
    end.

Definition binary_search_by_key (k : Pubkey) (keys : list Pubkey) : R (option nat) :=
  match keys with
  | [] => Ok None
  | _ =>
      base ← search_loop (length keys) k keys 0 (length keys);
      probe ← ok_or (keys !! base) Panic;
      match bytes_cmp probe k with Eq => Ok (Some base) | _ => Ok None end
  end.

(** ** Claiming: the part of [claim_waln]'s handler that works on the account *)
Definition claim_entry (now : Z) (investor_key : Pubkey) (rlw : RoundLockedWaln)
  : R (Z * bool * RoundLockedWaln) :=
  _ ← ensure (rlw_unlock rlw <= now) NotYetUnlocked;
  found ← binary_search_by_key investor_key (map ia_investor (rlw_investors rlw));
  idx ← ok_or found (Floor InvalidInvestor);
  alloc ← ok_or (rlw_investors rlw !! idx) Panic;
  _ ← ensure (0 < ia_waln_amount alloc) AlreadyClaimed;
  let waln_amount := ia_waln_amount alloc in
  remaining ← csub U32 (rlw_remaining_to_claim rlw) 1;
  Ok (waln_amount, bool_decide (remaining = 0),
      rlw <| rlw_investors := <[idx := alloc <| ia_waln_amount := 0 |>]> (rlw_investors rlw) |>
          <| rlw_remaining_to_claim := remaining |>).

(** ** The log line of an allocation ([InvestorAllocated], 72 bytes) *)

Definition alloc_log (discriminator : list Z) (round_index : Z) (investor : Pubkey)
  (waln_amount usdc_spent unlock : Z) : list Z :=
  discriminator ++ le_bytes 8 round_index ++ investor ++ le_bytes 8 waln_amount
  ++ le_bytes 8 usdc_spent ++ le_bytes 8 unlock.

(** ** Binary search on sorted keys *)

#[local] Arguments Nat.div : simpl never.

Definition sorted_keys (keys : list Pubkey) : Prop :=
  forall i j a b, (i < j)%nat -> keys !! i = Some a -> keys !! j = Some b -> bytes_lt a b.

(** Where [k] can be: nowhere below [base] or from [base + size] on. *)
Definition search_inv (k : Pubkey) (keys : list Pubkey) (base size : nat) : Prop :=
  (base + size <= length keys)%nat /\ (0 < size)%nat
  /\ forall i, keys !! i = Some k -> (base <= i < base + size)%nat.

Lemma search_loop_ok fuel k keys base size :
  sorted_keys keys -> search_inv k keys base size -> (size <= S fuel)%nat ->
  exists b, search_loop fuel k keys base size = Ok b /\ search_inv k keys b 1.
Proof.
  intros Hs. revert base size. induction fuel as [|fuel IH]; intros base size Hinv Hf; simpl.
  { rewrite decide_True by lia. exists base. split; [done|].
    destruct Hinv as (? & ? & Hk). split_and!; [lia|lia|]. intros i Hi. specialize (Hk i Hi). lia. }
  destruct (decide (size <= 1)%nat) as [Hle|Hgt].
  { exists base. split; [done|]. destruct Hinv as (? & ? & Hk).
    split_and!; [lia|lia|]. intros i Hi. specialize (Hk i Hi). lia. }
  pose proof (Nat.div_lt size 2). assert (1 <= size / 2)%nat by (apply (Nat.Div0.div_le_mono 2 size 2); lia).
  destruct Hinv as (Hlen & Hpos & Hk).
  destruct (keys !! (base + size / 2)%nat) as [p|] eqn:Hp; [|apply lookup_ge_None in Hp; lia].
  simpl. apply IH; [|lia]. split_and!; [destruct (bytes_cmp p k); lia|lia|].
  intros i Hi. specialize (Hk i Hi). destruct (bytes_cmp p k) eqn:Hc.
  - apply bytes_cmp_eq in Hc as ->. destruct (lt_eq_lt_dec i (base + size / 2)) as [[Hlt|]|]; [|lia..].
    exfalso. eapply bytes_lt_irrefl, Hs; eauto.
  - destruct (decide (i < base + size / 2)%nat); [|lia]. exfalso.
    eapply bytes_lt_irrefl, bytes_lt_trans; [exact Hc|]. eapply Hs; eauto.
  - destruct (decide (base + (size - size / 2) <= i)%nat) as [Hge|]; [|lia]. exfalso.
    assert (base + size / 2 <= i)%nat by (pose proof (Nat.div_mod_eq size 2); pose proof (Nat.mod_upper_bound size 2); lia).
    destruct (decide (i = base + size / 2)%nat) as [->|].
    { replace p with k in Hc by congruence. by rewrite bytes_cmp_refl in Hc. }
    assert (bytes_lt p k) as Hlt by (eapply Hs; [|done..]; lia). unfold bytes_lt in Hlt. congruence.
Qed.

Lemma binary_search_ok k keys :
  sorted_keys keys ->
  exists o, binary_search_by_key k keys = Ok o
    /\ match o with Some i => keys !! i = Some k | None => k ∉ keys end.
Proof.
  intros Hs. unfold binary_search_by_key. destruct keys as [|k0 keys0] eqn:He.
  { exists None. split; [done|]. apply not_elem_of_nil. }
  rewrite <- He in *.
  destruct (search_loop_ok (length keys) k keys 0 (length keys) Hs) as (b & Hb & Hlen & _ & Hk);
    [subst; split_and!; simpl; [lia|lia|]; intros i Hi%lookup_lt_Some; simpl in Hi; lia|lia|].
  rewrite Hb. simpl. destruct (keys !! b) as [p|] eqn:Hp; [|apply lookup_ge_None in Hp; lia].
  simpl. destruct (bytes_cmp p k) eqn:Hc.
  - apply bytes_cmp_eq in Hc as ->. eauto.
  - exists None. split; [done|]. intros [i Hi]%list_elem_of_lookup.
    assert (i = b) as -> by (specialize (Hk i Hi); lia).
    replace p with k in Hc by congruence. by rewrite bytes_cmp_refl in Hc.
  - exists None. split; [done|]. intros [i Hi]%list_elem_of_lookup.
    assert (i = b) as -> by (specialize (Hk i Hi); lia).
    replace p with k in Hc by congruence. by rewrite bytes_cmp_refl in Hc.
Qed.

(** ** The book as a finite map *)

Definition entry (a : InvestorAlloc) : allocation := (ia_investor a, ia_waln_amount a).

(** What the account means: the amount each participant can still claim. *)
Definition alloc_map (rlw : RoundLockedWaln) : gmap Pubkey Z :=
  list_to_map (map entry (rlw_investors rlw)).

Definition n_claimable (l : list InvestorAlloc) : Z :=
  sumZ (fun a => if decide (0 < ia_waln_amount a) then 1 else 0) l.

(** The wALN of the vault the account reserves. *)
Definition unclaimed (rlw : RoundLockedWaln) : Z := sumZ ia_waln_amount (rlw_investors rlw).

Record book_wf (rlw : RoundLockedWaln) : Prop := {
  bwf_sorted : sorted_keys (map ia_investor (rlw_investors rlw));
  bwf_count : rlw_remaining_to_claim rlw = n_claimable (rlw_investors rlw);
  bwf_width : in_range U32 (rlw_remaining_to_claim rlw);
  bwf_amounts : Forall (fun a => in_range U64 (ia_waln_amount a)) (rlw_investors rlw);
}.

(** The specification of a claim on the map. *)
Definition spec_claim (now unlock : Z) (k : Pubkey) (m : gmap Pubkey Z)
  : R (Z * gmap Pubkey Z) :=
  if decide (now < unlock) then Err (Floor NotYetUnlocked)
  else match m !! k with
       | None => Err (Floor InvalidInvestor)
       | Some a => if decide (a = 0) then Err (Floor AlreadyClaimed) else Ok (a, <[k := 0]> m)
       end.

Lemma sorted_keys_NoDup keys : sorted_keys keys -> NoDup keys.
Proof.
  intros Hs. apply NoDup_alt. intros i j k Hi Hj.
  destruct (lt_eq_lt_dec i j) as [[Hlt|]|Hlt]; [|done|];
    exfalso; eapply bytes_lt_irrefl, Hs; eauto.
Qed.

Lemma map_entry_keys (l : list InvestorAlloc) : (map entry l).*1 = map ia_investor l.
Proof. apply (map_map entry fst). Qed.

Lemma book_NoDup rlw : book_wf rlw -> NoDup (map entry (rlw_investors rlw)).*1.
Proof. intros []. rewrite map_entry_keys. by apply sorted_keys_NoDup. Qed.

Lemma alloc_map_lookup rlw k x :
  book_wf rlw -> alloc_map rlw !! k = Some x <-> (k, x) ∈ map entry (rlw_investors rlw).
Proof. intros Hwf. unfold alloc_map. by rewrite elem_of_list_to_map by by apply book_NoDup. Qed.

Lemma n_claimable_nonneg l : 0 <= n_claimable l.
Proof. apply sumZ_nonneg. intros a _. case_decide; lia. Qed.

(** ** Claims refine the map's specification *)

Section Claim.
Context (rlw : RoundLockedWaln) (Hwf : book_wf rlw).

Lemma alloc_map_at i a :
  rlw_investors rlw !! i = Some a -> alloc_map rlw !! ia_investor a = Some (ia_waln_amount a).
Proof.
  intros Hi. apply alloc_map_lookup; [done|]. apply list_elem_of_lookup. exists i.
  change (map entry ?l) with (entry <$> l). by rewrite list_lookup_fmap, Hi.
Qed.

Lemma alloc_map_absent k : k ∉ map ia_investor (rlw_investors rlw) -> alloc_map rlw !! k = None.
Proof. intros Hk. apply not_elem_of_list_to_map. by rewrite map_entry_keys. Qed.

(** The account after entry [i] has been paid out. *)
Definition paid_out (i : nat) (a : InvestorAlloc) : RoundLockedWaln :=
  rlw <| rlw_investors := <[i := a <| ia_waln_amount := 0 |>]> (rlw_investors rlw) |>
      <| rlw_remaining_to_claim := rlw_remaining_to_claim rlw - 1 |>.

Lemma paid_out_map i a :
  rlw_investors rlw !! i = Some a ->
  alloc_map (paid_out i a) = <[ia_investor a := 0]> (alloc_map rlw).
Proof.
  intros Hi. unfold alloc_map, paid_out. cbn.
  change (map entry ?l) with (entry <$> l). rewrite list_fmap_insert. cbn.
  apply (list_to_map_update _ i _ (ia_waln_amount a)); [by apply book_NoDup|].
  by rewrite list_lookup_fmap, Hi.
Qed.

Lemma claimable_entry i a :
  rlw_investors rlw !! i = Some a -> 0 < ia_waln_amount a ->
  n_claimable (<[i := a <| ia_waln_amount := 0 |>]> (rlw_investors rlw))
    = rlw_remaining_to_claim rlw - 1 /\ 1 <= rlw_remaining_to_claim rlw.
Proof.
  intros Hi Ha. assert (n_claimable (<[i := a <| ia_waln_amount := 0 |>]> (rlw_investors rlw))
    = rlw_remaining_to_claim rlw - 1) as Heq.
  { rewrite (bwf_count _ Hwf). unfold n_claimable. rewrite (sumZ_insert _ _ _ _ _ Hi). cbn [ia_waln_amount].
    rewrite (decide_True (P := 0 < ia_waln_amount a)), decide_False by (cbn; lia). lia. }
  split; [done|]. pose proof (n_claimable_nonneg (<[i := a <| ia_waln_amount := 0 |>]> (rlw_investors rlw))).
  lia.
Qed.

Lemma paid_out_wf i a :
  rlw_investors rlw !! i = Some a -> 0 < ia_waln_amount a -> book_wf (paid_out i a).
Proof.
  intros Hi Ha. destruct (claimable_entry i a Hi Ha) as [Hn Hpos].
  destruct Hwf as [Hs Hc Hw Hall]. constructor; cbn.
  - change (map ia_investor ?l) with (ia_investor <$> l) in *. rewrite list_fmap_insert. cbn.
    rewrite list_insert_id; [done|]. by rewrite list_lookup_fmap, Hi.
  - done.
  - unfold_range. lia.
  - apply Forall_insert; [done|]. unfold_range; cbn; lia.
Qed.

Lemma paid_out_unclaimed i a :
  rlw_investors rlw !! i = Some a -> unclaimed (paid_out i a) = unclaimed rlw - ia_waln_amount a.
Proof. intros Hi. unfold unclaimed, paid_out. cbn. rewrite (sumZ_insert _ _ _ _ _ Hi). cbn. lia. Qed.

(** A claim, case by case. *)
Lemma claim_entry_cases now k :
  (now < rlw_unlock rlw /\ claim_entry now k rlw = Err (Floor NotYetUnlocked))
  \/ (rlw_unlock rlw <= now /\ alloc_map rlw !! k = None
      /\ claim_entry now k rlw = Err (Floor InvalidInvestor))
  \/ (rlw_unlock rlw <= now /\ alloc_map rlw !! k = Some 0
      /\ claim_entry now k rlw = Err (Floor AlreadyClaimed))
  \/ (exists i a, rlw_unlock rlw <= now /\ rlw_investors rlw !! i = Some a /\ ia_investor a = k
      /\ 0 < ia_waln_amount a /\ alloc_map rlw !! k = Some (ia_waln_amount a)
      /\ claim_entry now k rlw
         = Ok (ia_waln_amount a, bool_decide (rlw_remaining_to_claim rlw - 1 = 0), paid_out i a)).
Proof.
  unfold claim_entry. destruct (decide (rlw_unlock rlw <= now)) as [Hu|Hu];
    [rewrite require_true by done|left; rewrite require_false by done; split; [lia|done]].
  right. simpl. destruct (binary_search_ok k _ (bwf_sorted _ Hwf)) as ([i|] & -> & Hi); simpl.
  2: { left. split_and!; [done|by apply alloc_map_absent|done]. }
  right. change (map ia_investor ?l) with (ia_investor <$> l) in Hi.
  rewrite list_lookup_fmap in Hi. destruct (rlw_investors rlw !! i) as [a|] eqn:Ha; [|done].
  simpl in Hi. injection Hi as <-. simpl. pose proof (alloc_map_at i a Ha) as Hm.
  pose proof (Forall_lookup_1 _ _ _ _ (bwf_amounts _ Hwf) Ha) as Hw.
  destruct (decide (0 < ia_waln_amount a)) as [Hp|Hp].
  - right. exists i, a. split_and!; [done..|]. rewrite require_true by done. simpl.
    destruct (claimable_entry i a Ha Hp) as [_ Hpos]. pose proof (bwf_width _ Hwf).
    rewrite csub_in by (unfold_range; lia). done.
  - left. rewrite require_false by done. replace (ia_waln_amount a) with 0 in Hm by (unfold_range; lia). done.
Qed.
End Claim.

(** ** A book opened from the participants of a round *)

Lemma strongly_sorted_keys (l : list allocation) :
  StronglySorted alloc_le l -> NoDup l.*1 -> sorted_keys l.*1.
Proof.
  induction 1 as [|p l _ IH Hall]; intros Hnd i j a b Hij Hi Hj; [done|].
  cbn in Hnd, Hi, Hj. apply NoDup_cons in Hnd as [Hp Hnd]. destruct j as [|j]; [lia|].
  destruct i as [|i]; simpl in *; [|apply (IH Hnd i j); [lia|done..]].
  injection Hi as <-. rewrite list_lookup_fmap in Hj.
  destruct (l !! j) as [q|] eqn:Hq; simplify_eq/=.
  pose proof (Forall_lookup_1 _ _ _ _ Hall Hq) as [Hlt|Heq]%bytes_le_lt_eq; [done|].
  exfalso. apply Hp. rewrite Heq. by eapply list_elem_of_fmap_2, list_elem_of_lookup_2.
Qed.

Lemma sort_by_key_perm l : sort_by_key l ≡ₚ l.
Proof. apply merge_sort_Permutation. Qed.

Lemma n_claimable_positive (l : list allocation) :
  Forall (fun p : allocation => 0 < p.2) l ->
  n_claimable (map (fun p : allocation => mkInvestorAlloc p.1 p.2) l) = Z.of_nat (length l).
Proof.
  intros Hall. unfold n_claimable. rewrite sumZ_map. rewrite (sumZ_ext _ (fun _ => 1)).
  { rewrite sumZ_const. lia. }
  intros p Hp. rewrite Forall_forall in Hall. cbn. by rewrite decide_True by auto.
Qed.

Lemma map_entry_open (l : list allocation) :
  map entry (map (fun p : allocation => mkInvestorAlloc p.1 p.2) l) = l.
Proof. rewrite map_map. erewrite map_ext; [apply map_id|]. by intros []. Qed.

Lemma open_book_spec round_index bump unlock l :
  NoDup l.*1 -> Forall (fun p : allocation => 0 < p.2 <= u64_max) l -> Z.of_nat (length l) <= 100 ->
  let rlw := open_book round_index bump unlock (sort_by_key l) in
  book_wf rlw /\ alloc_map rlw = list_to_map l /\ unclaimed rlw = sumZ snd l.
Proof.
  intros Hnd Hall Hlen rlw. pose proof (sort_by_key_perm l) as Hperm.
  assert (NoDup (sort_by_key l).*1) as Hnd' by (by rewrite Hperm).
  assert (sorted_keys (sort_by_key l).*1) as Hs.
  { apply strongly_sorted_keys; [|done]. apply StronglySorted_merge_sort; apply _. }
  assert (Forall (fun p : allocation => 0 < p.2 <= u64_max) (sort_by_key l)) as Hall' by (by rewrite Hperm).
  assert (as_unsigned U32 (Z.of_nat (length (sort_by_key l))) = Z.of_nat (length l)) as Hcount.
  { rewrite Hperm. unfold as_unsigned, int_max. apply Z.mod_small. lia. }
  unfold rlw, open_book. rewrite Hcount. split_and!.
  - constructor; cbn.
    + rewrite <- map_entry_keys, map_entry_open. done.
    + rewrite n_claimable_positive; [by rewrite Hperm|]. eapply Forall_impl; [exact Hall'|]. cbn. lia.
    + unfold_range. lia.
    + apply Forall_map. eapply Forall_impl; [exact Hall'|]. cbn. unfold_range. lia.
  - unfold alloc_map. cbn. rewrite map_entry_open. by apply list_to_map_proper.
  - unfold unclaimed. cbn. rewrite sumZ_map. cbn. by rewrite Hperm.
Qed.

(** Nothing is reserved exactly when nothing is left to claim. *)
Lemma unclaimed_zero rlw :
  book_wf rlw -> unclaimed rlw = 0 <-> rlw_remaining_to_claim rlw = 0.
Proof.
  intros Hwf. rewrite (bwf_count _ Hwf). unfold unclaimed, n_claimable.
  pose proof (bwf_amounts _ Hwf) as Hall. clear Hwf.
  induction (rlw_investors rlw) as [|a l IH]; [done|].
  apply Forall_cons in Hall as [Ha Hall]. specialize (IH Hall). rewrite !sumZ_cons.
  pose proof (n_claimable_nonneg l). unfold n_claimable in *.
  assert (0 <= sumZ ia_waln_amount l).
  { apply sumZ_nonneg. intros x Hx. rewrite Forall_forall in Hall. specialize (Hall x Hx). unfold_range. lia. }
  unfold_range. destruct (decide (0 < ia_waln_amount a)); lia.
Qed.

(** ** A run of claims *)

(** The investors who still have something to claim. *)
Definition claimants (rlw : RoundLockedWaln) : list Pubkey :=
  ia_investor <$> filter (fun a => 0 < ia_waln_amount a) (rlw_investors rlw).

(** Claims one after the other: the amount each pays and whether it closes the book. *)
Definition claim_all (now : Z) (ks : list Pubkey) (rlw : RoundLockedWaln)
  : R (RoundLockedWaln * list (Z * bool)) :=
  mapAccM (fun rlw k => '(amount, closes, rlw) ← claim_entry now k rlw; Ok (rlw, (amount, closes))) rlw ks.

Lemma n_claimable_length l :
  n_claimable l = Z.of_nat (length (filter (fun a => 0 < ia_waln_amount a) l)).
Proof.
  unfold n_claimable. induction l as [|a l IH]; [done|]. rewrite sumZ_cons, IH, filter_cons.
  case_decide; cbn [length]; lia.
Qed.

Lemma claimants_length rlw : book_wf rlw -> Z.of_nat (length (claimants rlw)) = rlw_remaining_to_claim rlw.
Proof. intros Hwf. rewrite (bwf_count _ Hwf), n_claimable_length. unfold claimants. by rewrite length_fmap. Qed.

Lemma claimants_NoDup rlw : book_wf rlw -> NoDup (claimants rlw).
Proof.
  intros Hwf. eapply sublist_NoDup; [exact (sorted_keys_NoDup _ (bwf_sorted _ Hwf))|].
  apply fmap_sublist, sublist_filter.
Qed.

Lemma claimants_paid_out rlw i a :
  rlw_investors rlw !! i = Some a -> 0 < ia_waln_amount a ->
  claimants rlw ≡ₚ ia_investor a :: claimants (paid_out rlw i a).
Proof.
  intros Hi Ha. destruct (insert_perm _ _ _ Hi) as (rest & Hl & Hins). unfold claimants.
  change (rlw_investors (paid_out rlw i a)) with (<[i := a <| ia_waln_amount := 0 |>]> (rlw_investors rlw)).
  rewrite (Hins (a <| ia_waln_amount := 0 |>)), Hl, !filter_cons. cbn.
  rewrite (decide_True (P := 0 < ia_waln_amount a)) by done. by rewrite decide_False by lia.
Qed.

Lemma claimant_entry now k rlw :
  book_wf rlw -> rlw_unlock rlw <= now -> k ∈ claimants rlw ->
  exists i a, rlw_investors rlw !! i = Some a /\ ia_investor a = k /\ 0 < ia_waln_amount a
    /\ alloc_map rlw !! k = Some (ia_waln_amount a)
    /\ claim_entry now k rlw
       = Ok (ia_waln_amount a, bool_decide (rlw_remaining_to_claim rlw - 1 = 0), paid_out rlw i a).
Proof.
  intros Hwf Hu (a & -> & [Hp Hin]%list_elem_of_filter)%list_elem_of_fmap.
  apply list_elem_of_lookup in Hin as [i Hi]. pose proof (alloc_map_at rlw Hwf i a Hi) as Hm.
  destruct (claim_entry_cases rlw Hwf now (ia_investor a)) as [(? & _)|[(_ & Hn & _)|[(_ & Hz & _)|Hc]]];
    [lia|congruence|rewrite Hm in Hz; injection Hz; lia|].
  destruct Hc as (j & b & _ & ? & ? & ? & ? & ?). eauto 10.
Qed.

Lemma claim_all_ok now ks rlw :
  book_wf rlw -> rlw_unlock rlw <= now -> ks ≡ₚ claimants rlw ->
  exists rlw' rs, claim_all now ks rlw = Ok (rlw', rs)
    /\ Forall2 (fun k r => alloc_map rlw !! k = Some r.1) ks rs
    /\ rs.*2 = (fun i => bool_decide (S i = length ks)) <$> seq 0 (length ks)
    /\ unclaimed rlw' = 0 /\ sumZ fst rs = unclaimed rlw.
Proof.
  revert rlw. induction ks as [|k ks IH]; intros rlw Hwf Hu Hks.
  - exists rlw, []. assert (unclaimed rlw = 0) as Hz.
    { apply unclaimed_zero; [done|]. by rewrite <- claimants_length, <- Hks. }
    split_and!; [done|constructor|done|done|by rewrite Hz].
  - pose proof (claimants_NoDup _ Hwf) as Hnd. rewrite <- Hks in Hnd. apply NoDup_cons in Hnd as [Hk Hnd].
    destruct (claimant_entry now k rlw Hwf Hu) as (i & a & Hi & Hka & Ha & Hm & Hx); [rewrite <- Hks; by left|].
    pose proof (paid_out_wf rlw Hwf i a Hi Ha) as Hwf'.
    assert (ks ≡ₚ claimants (paid_out rlw i a)) as Hks'.
    { apply (Permutation_cons_inv (a := k)). rewrite Hks, (claimants_paid_out rlw i a) by done. by rewrite Hka. }
    destruct (IH (paid_out rlw i a) Hwf' Hu Hks') as (rlw' & rs & Hrs & HF & Hlast & Hz & Hsum).
    exists rlw', ((ia_waln_amount a, bool_decide (rlw_remaining_to_claim rlw - 1 = 0)) :: rs).
    unfold claim_all in *. cbn [mapAccM]. rewrite Hx. cbn [mbind result_bind]. rewrite Hrs.
    split_and!; [done| | |done|].
    + constructor; [done|]. apply Forall2_same_length_lookup_2; [by eapply Forall2_length|].
      intros j k' r Hk' Hr. pose proof (Forall2_lookup_lr _ _ _ _ _ _ HF Hk' Hr) as He. cbn beta in He.
      apply list_elem_of_lookup_2 in Hk'. rewrite paid_out_map, lookup_insert_ne in He; [done| |done..].
      rewrite Hka. by intros ->.
    + cbn. f_equal.
      * apply bool_decide_ext. rewrite <- claimants_length, <- Hks by done. cbn. lia.
      * rewrite Hlast, <- fmap_S_seq, <- list_fmap_compose. apply list_fmap_ext. intros j x _. cbn.
        apply bool_decide_ext. lia.
    + rewrite sumZ_cons, Hsum, (paid_out_unclaimed rlw i a Hi). cbn. lia.
Qed.

(** ** Properties *)

(** C13: a claim does what the book's finite map says: it fails before the unlock time,
    for a key that has no allocation and for one already paid out; otherwise it pays
    exactly the recorded amount and leaves zero for that key and everything else as it
    was, and the account stays well formed, with the amount taken off the reserve and
    flagged for closing exactly when nothing is left to claim. *)
Theorem claim_entry_refines_map now k rlw :
  book_wf rlw ->
  (match claim_entry now k rlw with
   | Ok (a, _, rlw') => Ok (a, alloc_map rlw')
   | Err e => Err e
   end) = spec_claim now (rlw_unlock rlw) k (alloc_map rlw)
  /\ forall a closes rlw', claim_entry now k rlw = Ok (a, closes, rlw') ->
     book_wf rlw' /\ unclaimed rlw' = unclaimed rlw - a /\ 0 < a
     /\ (closes = true <-> unclaimed rlw' = 0).
Proof.
  intros Hwf. unfold spec_claim.
  destruct (claim_entry_cases rlw Hwf now k)
    as [(? & ->)|[(? & Hm & ->)|[(? & Hm & ->)|(i & x & ? & Hi & Hk & Hx & Hm & ->)]]].
  - by rewrite decide_True by done.
  - by rewrite decide_False, Hm by lia.
  - by rewrite decide_False, Hm by lia.
  - rewrite decide_False, Hm, decide_False, paid_out_map, Hk by (done || lia). split; [done|].
    intros a closes rlw' [= <- <- <-]. pose proof (paid_out_wf rlw Hwf i x Hi Hx) as Hwf'.
    split_and!; [done|by apply paid_out_unclaimed|done|].
    by rewrite bool_decide_eq_true, unclaimed_zero.
Qed.

(** A book of three participants, unlocked at time 100; the second has claimed. *)
Definition sample_book : RoundLockedWaln :=
  mkRoundLockedWaln 7 255 100 2
    [mkInvestorAlloc (key_of 1) 10; mkInvestorAlloc (key_of 2) 0; mkInvestorAlloc (key_of 3) 5].

Lemma sample_book_wf : book_wf sample_book.
Proof.
  constructor; [|done|by unfold_range|repeat constructor; by unfold_range].
  intros [|[|[|i]]] [|[|[|j]]] a b Hij Ha Hb; try lia; by simplify_eq/=.
Qed.

Lemma claim_entry_refines_map_witness :
  claim_entry 100 (key_of 3) sample_book
  = Ok (5, false, paid_out sample_book 2 (mkInvestorAlloc (key_of 3) 5))
  /\ (match claim_entry 100 (key_of 3) sample_book with
       | Ok (a, _, rlw') => Ok (a, alloc_map rlw')
       | Err e => Err e
       end) = spec_claim 100 100 (key_of 3) (alloc_map sample_book).
Proof.
  split; [vm_compute; reflexivity|].
  exact (proj1 (claim_entry_refines_map 100 (key_of 3) sample_book sample_book_wf)).
Defined.

(** C32: the account a settlement writes is well formed and records exactly the
    participants' allocations, whatever the order they were collected in: its map is the
    map of the participants and it reserves the sum of their wALN. *)
Theorem open_book_records round_index bump unlock l :
  NoDup l.*1 -> Forall (fun p : allocation => 0 < p.2 <= u64_max) l -> (length l <= MAX_INVESTORS)%nat ->
  let rlw := open_book round_index bump unlock (sort_by_key l) in
  book_wf rlw /\ alloc_map rlw = list_to_map l /\ unclaimed rlw = sumZ snd l
  /\ rlw_remaining_to_claim rlw = Z.of_nat (length l).
Proof.
  intros Hnd Hall Hlen rlw.
  destruct (open_book_spec round_index bump unlock l Hnd Hall) as (? & ? & ?);
    [unfold MAX_INVESTORS in *; lia|].
  split_and!; [done..|]. unfold rlw, open_book, as_unsigned, int_max. cbn.
  rewrite sort_by_key_perm. apply Z.mod_small. unfold MAX_INVESTORS in *. lia.
Qed.

Lemma open_book_records_witness :
  let l := [(key_of 3, 5); (key_of 1, 10)] in
  book_wf (open_book 7 255 100 (sort_by_key l))
  /\ rlw_investors (open_book 7 255 100 (sort_by_key l))
     = [mkInvestorAlloc (key_of 1) 10; mkInvestorAlloc (key_of 3) 5].
Proof.
  split; [|vm_compute; reflexivity].
  refine (proj1 (open_book_records 7 255 100 [(key_of 3, 5); (key_of 1, 10)] _ _ _)).
  - by_decide.
  - by_decide.
  - by_decide.
Defined.

(** C14: every book is paid out to the end.  From the unlock time on the participants who
    have not claimed can claim in any order: every claim succeeds and pays the recorded
    amount, only the last one closes the account, and together they pay exactly what
    the book reserved. *)
Theorem claims_pay_out_book now ks rlw :
  book_wf rlw -> rlw_unlock rlw <= now -> ks ≡ₚ claimants rlw ->
  exists rlw' rs, claim_all now ks rlw = Ok (rlw', rs)
    /\ Forall2 (fun k r => alloc_map rlw !! k = Some r.1) ks rs
    /\ rs.*2 = (fun i => bool_decide (S i = length ks)) <$> seq 0 (length ks)
    /\ unclaimed rlw' = 0 /\ sumZ fst rs = unclaimed rlw.
Proof. apply claim_all_ok. Qed.

Lemma claims_pay_out_book_witness :
  (exists rlw' rs, claim_all 100 [key_of 3; key_of 1] sample_book = Ok (rlw', rs) /\ unclaimed rlw' = 0)
  /\ (r ← claim_all 100 [key_of 3; key_of 1] sample_book; Ok r.2) = Ok [(5, false); (10, true)].
Proof.
  split; [|vm_compute; reflexivity].
  destruct (claims_pay_out_book 100 [key_of 3; key_of 1] sample_book sample_book_wf) as (b & rs & H1 & _ & _ & H2 & _).
  - by_decide.
  - apply perm_swap.
  - exists b, rs. split; [exact H1|exact H2].
Defined.
