(* ===== verification/Utils.v ===== *)
(** * [utils.rs]: AAT allocations and transfer-hook accounts

    An investor's AAT allocation is the decimal string under ["aat_volume"] in the
    metadata of the investor's NFT mint; [to_string] and [parse] are the conversions of
    Rust's standard library.  [get_hook_program_id] and [validate_hook_accounts] check
    the extra accounts of a transfer with a hook. *)
From coqutil Require Import Datatypes.RecordSettersUsingExistingGetters.
From stdpp Require Import base gmap strings numbers list.
From S2P Require Import Prelude.
From S2P Require Import State.
From S2P Require Import Runtime.
From S2P Require Import Sandbox.
#[local] Open Scope Z_scope.

(** ** Decimal numbers *)

Definition digit_of (d : Z) : Ascii.ascii := Ascii.ascii_of_N (Z.to_N (48 + d)).

Definition digit_value (c : Ascii.ascii) : option Z :=
  let n := Z.of_N (Ascii.N_of_ascii c) in
  if decide (48 <= n <= 57) then Some (n - 48) else None.

(** [u64::to_string]: the digits, most significant first; 20 are enough for any [u64]. *)
Fixpoint digits (fuel : nat) (n : Z) (acc : list Ascii.ascii) : list Ascii.ascii :=
  match fuel with
  | O => acc
  | S fuel =>
      let acc := digit_of (n mod 10) :: acc in
      if decide (n / 10 = 0) then acc else digits fuel (n / 10) acc
  end.

Definition u64_to_string (n : Z) : string := String.string_of_list_ascii (digits 20 n []).

Definition plus_sign : Ascii.ascii := Ascii.ascii_of_N 43.

(** [str::parse::<u64>]: an optional [+], then at least one digit; [None] on any other
    character and on overflow. *)
Fixpoint parse_digits (acc : Z) (l : list Ascii.ascii) : option Z :=
  match l with
  | [] => Some acc
  | c :: l =>
      d ← digit_value c;
      acc ← checked_mul U64 acc 10;
      acc ← checked_add U64 acc d;
      parse_digits acc l
  end.

Definition parse_u64 (s : string) : option Z :=
  match String.list_ascii_of_string s with
  | [] => None
  | [c] => if decide (c = plus_sign) then None else parse_digits 0 [c]
  | c :: l => if decide (c = plus_sign) then parse_digits 0 l else parse_digits 0 (c :: l)
  end.

Definition aat_volume_key : string := "aat_volume".

Section Utils.
Context `{Runtime}.

(** The loop over [additional_metadata]: the first entry with the key decides. *)
Fixpoint find_aat_volume (fields : list (string * string)) : R Z :=
  match fields with
  | [] => Err (Floor InvalidAatNft)
  | (key, value) :: fields =>
      if decide (key = aat_volume_key) then ok_or (parse_u64 value) (Floor InvalidAatNft)
      else find_aat_volume fields
  end.

Definition aat_nft_address (investor : Pubkey) : Pubkey :=
  (find_program_address [AAT_NFT_SEED; investor] ID).1.

Definition verify_aat_nft_and_get_allocation (c : Chain) (aat_nft_mint investor : Pubkey) : R Z :=
  _ ← ensure (aat_nft_address investor = aat_nft_mint) InvalidAatNft;
  _ ← ensure (account_owner c aat_nft_mint = token_2022_id) InvalidAatNft;
  m ← ok_or (mint_account c aat_nft_mint) (Floor InvalidAatNft);
  metadata ← ok_or (mi_metadata m) (Floor InvalidAatNft);
  find_aat_volume metadata.

(** [get_hook_program_id]: only whether it succeeds, and with what, is used. *)
Definition get_hook_program_id (c : Chain) (mint : Pubkey) : option Pubkey :=
  m ← mint_account c mint;
  hook ← mi_transfer_hook m;
  hook.

(** [&data[a..b]] as a [[u8; 32]] *)
Definition bytes_at (a n : nat) (data : list Z) : list Z := take n (drop a data).

Definition validate_hook_accounts (c : Chain) (remaining : list Pubkey)
  (mint owner hook_program_id : Pubkey) : R unit :=
  match remaining with
  | [config; r1; r2; r3; r4; r5; r6; r7] =>
      let expected_config := (find_program_address [bytes_of "config"; mint] hook_program_id).1 in
      _ ← ensure (config = expected_config) InvalidHookAccounts;
      let config_data := account_data c config in
      _ ← ensure (136 <= length config_data)%nat InvalidHookAccounts;
      let credential := bytes_at 40 32 config_data in
      let schema := bytes_at 72 32 config_data in
      let sas_program := bytes_at 104 32 config_data in
      _ ← ensure (r1 = credential) InvalidHookAccounts;
      _ ← ensure (r2 = schema) InvalidHookAccounts;
      _ ← ensure (r3 = sas_program) InvalidHookAccounts;
      let expected_attestation :=
        (find_program_address [bytes_of "attestation"; credential; schema; owner] sas_program).1 in
      _ ← ensure (r4 = expected_attestation) InvalidHookAccounts;
      let expected_whitelist :=
        (find_program_address [bytes_of "whitelist"; mint; owner] hook_program_id).1 in
      _ ← ensure (r5 = expected_whitelist) InvalidHookAccounts;
      _ ← ensure (r6 = hook_program_id) InvalidHookAccounts;
      let expected_extra_meta :=
        (find_program_address [bytes_of "extra-account-metas"; mint] hook_program_id).1 in
      ensure (r7 = expected_extra_meta) InvalidHookAccounts
  | _ => Err (Floor InvalidHookAccountsCount)
  end.
End Utils.

(** ** The decimal round trip *)

Lemma digit_value_of d : 0 <= d < 10 -> digit_value (digit_of d) = Some d.
Proof.
  intros Hd. unfold digit_value, digit_of.
  rewrite Ascii.N_ascii_embedding by lia. rewrite Z2N.id by lia.
  rewrite decide_True by lia. f_equal. lia.
Qed.

(** Printing [n] in front of [acc] and reading it back leaves [n] to be extended by [acc]. *)
Lemma parse_digits_digits fuel n acc :
  in_range U64 n -> n < 10 ^ Z.of_nat fuel ->
  parse_digits 0 (digits fuel n acc) = parse_digits n acc.
Proof.
  revert n acc. induction fuel as [|fuel IH]; intros n acc Hr Hn; cbn [digits].
  { replace n with 0; [done|]. unfold_range. change (10 ^ Z.of_nat 0) with 1 in Hn. lia. }
  pose proof (Z.mod_pos_bound n 10). pose proof (Z.div_mod n 10).
  assert (parse_digits (n / 10) (digit_of (n mod 10) :: acc) = parse_digits n acc) as Hstep.
  { cbn [parse_digits]. rewrite digit_value_of by lia. cbn.
    unfold checked_mul, checked_add. rewrite checked_in by (unfold_range; lia). cbn.
    rewrite checked_in by (unfold_range; lia). cbn. f_equal. lia. }
  destruct (decide (n / 10 = 0)) as [Hz|Hz]; [by rewrite <- Hstep, Hz|].
  rewrite IH; [done|unfold_range; lia|].
  rewrite Nat2Z.inj_succ, Z.pow_succ_r in Hn by lia. apply Z.div_lt_upper_bound; lia.
Qed.

Lemma digits_cons fuel n acc : exists c l, digits (S fuel) n acc = digit_of c :: l /\ 0 <= c < 10.
Proof.
  revert n acc. induction fuel as [|fuel IH]; intros n acc.
  - exists (n mod 10), acc. cbn. pose proof (Z.mod_pos_bound n 10). split; [by case_decide|lia].
  - cbn [digits]. case_decide; [|apply IH]. exists (n mod 10), acc.
    pose proof (Z.mod_pos_bound n 10). split; [done|lia].
Qed.

Lemma digit_not_plus d : 0 <= d < 10 -> digit_of d <> plus_sign.
Proof.
  intros Hd Heq. apply (f_equal digit_value) in Heq. rewrite digit_value_of in Heq by done.
  vm_compute in Heq. discriminate.
Qed.

Lemma parse_u64_to_string_ok n : in_range U64 n -> parse_u64 (u64_to_string n) = Some n.
Proof.
  intros Hr. unfold parse_u64, u64_to_string. rewrite String.list_ascii_of_string_of_list_ascii.
  pose proof (parse_digits_digits 20 n [] Hr) as Hp.
  destruct (digits_cons 19 n []) as (c & l & Heq & Hc). rewrite Heq in *.
  assert (parse_digits 0 (digit_of c :: l) = Some n) as Hs
    by (apply Hp; unfold_range; change (10 ^ Z.of_nat 20) with 100000000000000000000; lia).
  destruct l; by rewrite decide_False by (by apply digit_not_plus).
Qed.

(** What [parse] returns fits a [u64]. *)
Lemma parse_digits_range acc l v : in_range U64 acc -> parse_digits acc l = Some v -> in_range U64 v.
Proof.
  revert acc. induction l as [|c l IH]; intros acc Ha Hx; cbn in Hx; [by simplify_eq|].
  destruct (digit_value c) as [d|]; [|done]. cbn in Hx.
  destruct (checked_mul U64 acc 10) as [m|]; [|done]. cbn in Hx.
  destruct (checked_add U64 m d) as [s|] eqn:Hs; [|done]. cbn in Hx.
  apply (IH s); [|done]. apply checked_Some in Hs as [-> ?]. done.
Qed.

Lemma parse_u64_range s v : parse_u64 s = Some v -> in_range U64 v.
Proof.
  assert (in_range U64 0) by (unfold_range; lia). unfold parse_u64.
  destruct (String.list_ascii_of_string s) as [|c [|c' l]]; [done|..];
    case_decide; try done; by apply parse_digits_range.
Qed.

Lemma find_aat_volume_range fields v : find_aat_volume fields = Ok v -> in_range U64 v.
Proof.
  induction fields as [|[k s] fields IH]; cbn; [done|]. case_decide; [|done].
  rewrite ok_or_ok. apply parse_u64_range.
Qed.

Lemma verify_aat_range `{Runtime} c mint investor v :
  verify_aat_nft_and_get_allocation c mint investor = Ok v -> in_range U64 v.
Proof.
  unfold verify_aat_nft_and_get_allocation. intros Hx. inv_ok. by eapply find_aat_volume_range.
Qed.

(** ** Properties *)

Section UtilsProperties.
Context `{Runtime}.

(** C31: an allocation survives its trip through the NFT's metadata: reading back a
    metadata list whose first ["aat_volume"] field was written with [to_string] from a
    [u64] gives that number. *)
Theorem aat_volume_roundtrip c investor m fields1 fields2 volume :
  in_range U64 volume ->
  account_owner c (aat_nft_address investor) = token_2022_id ->
  mint_account c (aat_nft_address investor) = Some m ->
  aat_volume_key ∉ fields1.*1 ->
  mi_metadata m = Some (fields1 ++ (aat_volume_key, u64_to_string volume) :: fields2) ->
  verify_aat_nft_and_get_allocation c (aat_nft_address investor) investor = Ok volume.
Proof.
  intros Hr Ho Hm Hk Hf. unfold verify_aat_nft_and_get_allocation.
  rewrite !require_true by done. simpl. rewrite Hm. simpl. rewrite Hf. simpl. clear Hf Hm Ho.
  induction fields1 as [|[key value] fields IH]; cbn [app find_aat_volume].
  - rewrite decide_True by done. by rewrite parse_u64_to_string_ok.
  - rewrite decide_False by set_solver. apply IH. set_solver.
Qed.
End UtilsProperties.

(** A chain with the NFT of one investor: the name comes first, then the volume. *)
Definition nft_chain (volume : Z) : SandboxChain :=
  let nft := aat_nft_address (key_of 1) in
  mkSandboxChain ∅
    {[ nft := mkMint 0 None false
                (Some [("name"%string, "AAT"%string); (aat_volume_key, u64_to_string volume)]) ]}
    ∅ {[ nft := sandbox_token_2022_id ]} ∅ None None.

Lemma aat_volume_roundtrip_witness :
  u64_to_string 250000 = "250000"%string
  /\ verify_aat_nft_and_get_allocation (nft_chain 250000 : Chain) (aat_nft_address (key_of 1)) (key_of 1)
     = Ok 250000.
Proof.
  split; [vm_compute; reflexivity|].
  refine (aat_volume_roundtrip (nft_chain 250000 : Chain) (key_of 1) _ [("name"%string, "AAT"%string)] []
    250000 _ _ (lookup_singleton_eq _ _) _ eq_refl).
  - unfold_range. lia.
  - vm_compute. reflexivity.
  - by_decide.
Defined.
