(* ===== verification/Lobby.v ===== *)
(** * The lobby: [instructions/deposit_usdc.rs] and [instructions/withdraw_usdc.rs]

    Investors with an AAT NFT deposit USDC into the vault and withdraw what is not locked
    in a round.  Each accounts struct is a record of the account keys passed in, with a
    [*_accounts] definition for the checks Anchor makes before the handler runs; [now] is
    [Clock::get()?.unix_timestamp]. *)
From coqutil Require Import Datatypes.RecordSettersUsingExistingGetters.
From stdpp Require Import base gmap strings numbers list.
From S2P Require Import Prelude.
From S2P Require Import State.
From S2P Require Import Pool.
From S2P Require Import Runtime.
From S2P Require Import Utils.
#[local] Open Scope Z_scope.

Record DepositUsdc := mkDepositUsdc {
  du_investor : Pubkey;
  du_contract_state : Pubkey;
  du_investor_pool : Pubkey;
  du_usdc_mint : Pubkey;
  du_investor_usdc_account : Pubkey;
  du_usdc_vault : Pubkey;
  du_aat_nft : Pubkey;
  du_investor_aat_account : Pubkey;
  du_aat_token_program : Pubkey;
  du_usdc_token_program : Pubkey;
  du_system_program : Pubkey;
}.

Record WithdrawUsdc := mkWithdrawUsdc {
  wu_investor : Pubkey;
  wu_contract_state : Pubkey;
  wu_investor_pool : Pubkey;
  wu_usdc_mint : Pubkey;
  wu_investor_usdc_account : Pubkey;
  wu_usdc_vault : Pubkey;
  wu_usdc_token_program : Pubkey;
}.

(** What a deposit does to the investor's record. *)
Definition deposit_record (now usdc_withdraw_lock_seconds aat_vol usdc_amount : Z)
  (record : InvestorRecord) : R InvestorRecord :=
  let record := record <| ir_aat_volume := aat_vol |> in
  deposited ← cadd U64 (ir_usdc_deposited record) usdc_amount;
  let record := record <| ir_usdc_deposited := deposited |> in
  if decide (0 < usdc_withdraw_lock_seconds) then
    new_unlock_ts ← cadd I64 now usdc_withdraw_lock_seconds;
    Ok (record <| ir_usdc_unlock_ts := Z.max (ir_usdc_unlock_ts record) new_unlock_ts |>)
  else Ok record.

(** The pool part of the deposit: find the record or append one, then credit it. *)
Definition deposit_pool (now usdc_withdraw_lock_seconds aat_vol usdc_amount : Z)
  (investor_key : Pubkey) (pool : InvestorPool) : R InvestorPool :=
  found ← find_record investor_key pool;
  '(idx, record, pool) ←
    match found with
    | Some (idx, record) => Ok (idx, record, pool)
    | None => '(idx, pool) ← push_record investor_key pool;
              Ok (idx, empty_record investor_key, pool)
    end;
  record ← deposit_record now usdc_withdraw_lock_seconds aat_vol usdc_amount record;
  set_slot idx record pool.

(** The check that there is a slot for the investor. *)
Definition has_slot (investor_key : Pubkey) (pool : InvestorPool) : R unit :=
  if decide (ip_count pool < Z.of_nat MAX_INVESTORS) then Ok tt
  else
    found ← find_record investor_key pool;
    ensure (is_Some found) InvestorPoolFull.

(** What a withdrawal does to the pool; the result is the amount to pay out. *)
Definition withdraw_pool (now : Z) (investor_key : Pubkey) (amount : Z) (pool : InvestorPool)
  : R (Z * InvestorPool) :=
  found ← find_record investor_key pool;
  '(idx, record) ← ok_or found (Floor InvalidInvestor);
  _ ← ensure (ir_usdc_unlock_ts record <= now) UsdcLocked;
  let available := ir_usdc_deposited record in
  let withdraw_amount := if decide (amount = u64_max) then available else amount in
  _ ← ensure (0 < withdraw_amount) ZeroAmount;
  _ ← ensure (withdraw_amount <= available) InsufficientFunds;
  deposited ← csub U64 available withdraw_amount;
  pool ← set_slot idx (record <| ir_usdc_deposited := deposited |>) pool;
  Ok (withdraw_amount, pool).

Section Lobby.
Context `{Runtime}.

Definition DepositUsdc_accounts (a : DepositUsdc) (w : World) : R (Mint * TokenAccount) :=
  let c := w_chain w in
  _ ← check_seeds [CONTRACT_STATE_SEED] (du_contract_state a);
  _ ← check_seeds [INVESTOR_POOL_SEED] (du_investor_pool a);
  usdc_mint ← load_mint c (du_usdc_mint a);
  _ ← check_token c (du_investor_usdc_account a) (du_usdc_mint a) (du_investor a)
        (du_usdc_token_program a);
  _ ← check_seeds [USDC_VAULT_SEED] (du_usdc_vault a);
  _ ← check_token c (du_usdc_vault a) (du_usdc_mint a) (du_contract_state a)
        (du_usdc_token_program a);
  investor_aat_account ←
    check_associated c (du_investor_aat_account a) (du_aat_nft a) (du_investor a)
      (du_aat_token_program a);
  _ ← check_program token_2022_id (du_aat_token_program a);
  _ ← check_token_program (du_usdc_token_program a);
  _ ← check_program system_program_id (du_system_program a);
  Ok (usdc_mint, investor_aat_account).

Definition deposit_usdc (now : Z) (a : DepositUsdc) (usdc_amount : Z) (w : World) : R World :=
  '(usdc_mint, investor_aat_account) ← DepositUsdc_accounts a w;
  let state := w_state w in
  _ ← ensure (ps_frozen state = 0) ContractFrozen;
  _ ← ensure (0 < usdc_amount) ZeroAmount;
  let usdc_decimals := mi_decimals usdc_mint in
  _ ← ensure (du_usdc_mint a = ps_usdc_mint state) InvalidMint;
  aat_vol ← verify_aat_nft_and_get_allocation (w_chain w) (du_aat_nft a) (du_investor a);
  _ ← ensure (0 < aat_vol) ZeroAatAllocation;
  _ ← ensure (ta_amount investor_aat_account = 1) NoAatNft;
  let usdc_withdraw_lock_seconds := ps_usdc_withdraw_lock_seconds state in
  _ ← has_slot (du_investor a) (w_pool w);
  c ← invoke []
        (TransferChecked (du_usdc_token_program a) (du_investor_usdc_account a) (du_usdc_mint a)
           (du_usdc_vault a) (du_investor a) [] usdc_amount usdc_decimals) (w_chain w);
  pool ← deposit_pool now usdc_withdraw_lock_seconds aat_vol usdc_amount (du_investor a) (w_pool w);
  lobby ← cadd U64 (ps_total_usdc_in_lobby state) usdc_amount;
  Ok (w <| w_state := state <| ps_total_usdc_in_lobby := lobby |> |>
        <| w_pool := pool |> <| w_chain := c |>).

Definition WithdrawUsdc_accounts (a : WithdrawUsdc) (w : World) : R Mint :=
  let c := w_chain w in
  _ ← check_seeds [CONTRACT_STATE_SEED] (wu_contract_state a);
  _ ← check_seeds [INVESTOR_POOL_SEED] (wu_investor_pool a);
  usdc_mint ← load_mint c (wu_usdc_mint a);
  _ ← check_token c (wu_investor_usdc_account a) (wu_usdc_mint a) (wu_investor a)
        (wu_usdc_token_program a);
  _ ← check_seeds [USDC_VAULT_SEED] (wu_usdc_vault a);
  _ ← check_token c (wu_usdc_vault a) (wu_usdc_mint a) (wu_contract_state a)
        (wu_usdc_token_program a);
  _ ← check_token_program (wu_usdc_token_program a);
  Ok usdc_mint.

Definition withdraw_usdc (now : Z) (a : WithdrawUsdc) (amount : Z) (w : World) : R World :=
  usdc_mint ← WithdrawUsdc_accounts a w;
  let state := w_state w in
  _ ← ensure (ps_frozen state = 0) ContractFrozen;
  _ ← ensure (wu_usdc_mint a = ps_usdc_mint state) InvalidMint;
  let state_bump := ps_bump state in
  let usdc_decimals := mi_decimals usdc_mint in
  '(withdraw_amount, pool) ← withdraw_pool now (wu_investor a) amount (w_pool w);
  c ← invoke [[CONTRACT_STATE_SEED; [state_bump]]]
        (TransferChecked (wu_usdc_token_program a) (wu_usdc_vault a) (wu_usdc_mint a)
           (wu_investor_usdc_account a) (wu_contract_state a) [] withdraw_amount usdc_decimals)
        (w_chain w);
  lobby ← csub U64 (ps_total_usdc_in_lobby state) withdraw_amount;
  Ok (w <| w_state := state <| ps_total_usdc_in_lobby := lobby |> |>
        <| w_pool := pool |> <| w_chain := c |>).
End Lobby.

(** ** The pool parts *)

Lemma deposit_record_ok now s v amt r r' :
  deposit_record now s v amt r = Ok r' ->
  ir_investor r' = ir_investor r
  /\ ir_usdc_deposited r' = ir_usdc_deposited r + amt /\ in_range U64 (ir_usdc_deposited r')
  /\ ir_usdc_locked_current_round r' = ir_usdc_locked_current_round r
  /\ ir_usdc_committed r' = ir_usdc_committed r
  /\ ir_waln_purchased_total r' = ir_waln_purchased_total r
  /\ ir_aat_volume r' = v
  /\ ir_usdc_unlock_ts r' = (if decide (0 < s) then Z.max (ir_usdc_unlock_ts r) (now + s)
                             else ir_usdc_unlock_ts r).
Proof. unfold deposit_record. intros Hx. inv_arith. case_decide; inv_arith; done. Qed.

Lemma deposit_pool_ok now s v amt k p p' :
  pool_wf p -> deposit_pool now s v amt k p = Ok p' ->
  exists r r', pool_update k r r' p p' /\ deposit_record now s v amt r = Ok r'.
Proof.
  intros Hwf Hx. unfold deposit_pool in Hx. apply bind_ok in Hx as (found & Hf & Hx).
  apply bind_ok in Hx as ([[i r] p1] & Hsel & Hx). apply bind_ok in Hx as (r' & Hr & Hx).
  exists r, r'. split; [|done]. destruct (deposit_record_ok _ _ _ _ _ _ Hr) as (Hk & _).
  destruct found as [[i0 r0]|].
  - injection Hsel as -> -> ->.
    destruct (find_record_cases p1 Hwf k) as [(i1 & r1 & Hf1 & _ & Hk1 & _)|(Hf1 & _)]; [|congruence].
    assert (r1 = r) as -> by congruence.
    destruct (set_slot_update p1 i k r r' Hwf Hf) as (p2 & Hs & _ & Hu & _); congruence.
  - apply bind_ok in Hsel as ([i1 p2] & Hp & Hsel). injection Hsel as -> <- ->.
    assert (ip_count p < Z.of_nat MAX_INVESTORS) as Hc.
    { unfold push_record, set_slot in Hp. inv_ok. destruct Hwf. unfold MAX_INVESTORS in *. lia. }
    destruct (push_slot_update p k r' Hwf Hf Hc Hk) as (i2 & p3 & p4 & Hp' & Hs & Hu & _).
    congruence.
Qed.

Lemma withdraw_pool_ok now k amount p amt p' :
  pool_wf p -> withdraw_pool now k amount p = Ok (amt, p') ->
  exists r, pool_map p !! k = Some r
    /\ pool_update k r (r <| ir_usdc_deposited := ir_usdc_deposited r - amt |>) p p'
    /\ amt = (if decide (amount = u64_max) then ir_usdc_deposited r else amount)
    /\ 0 < amt <= ir_usdc_deposited r /\ ir_usdc_unlock_ts r <= now
    /\ in_range U64 (ir_usdc_deposited r - amt).
Proof.
  intros Hwf Hx. unfold withdraw_pool in Hx. apply bind_ok in Hx as (found & Hf & Hx).
  apply bind_ok in Hx as ([i r] & ->%ok_or_ok & Hx).
  destruct (find_record_cases p Hwf k) as [(i1 & r1 & Hf1 & _ & Hk1 & Hm)|(Hf1 & _)]; [|congruence].
  assert (r1 = r) as -> by congruence. inv_arith.
  match goal with H : set_slot _ ?r' _ = _ |- _ =>
    destruct (set_slot_update p i _ r r' Hwf Hf) as (p2 & Hs & _ & Hu & _); [done|] end.
  exists r. split_and!; [done|congruence|done|lia|lia|lia|done].
Qed.

(** A withdrawal the rules allow goes through, up to the transfer itself. *)
Lemma withdraw_pool_in now k amount p r :
  pool_wf p -> pool_map p !! k = Some r -> in_range U64 (ir_usdc_deposited r) ->
  ir_usdc_unlock_ts r <= now -> 0 < ir_usdc_deposited r ->
  0 < amount <= ir_usdc_deposited r \/ amount = u64_max ->
  exists p', withdraw_pool now k amount p
             = Ok ((if decide (amount = u64_max) then ir_usdc_deposited r else amount), p').
Proof.
  intros Hwf Hm Hr Hts Hpos Hamt. unfold withdraw_pool.
  destruct (find_record_cases p Hwf k) as [(i & r1 & Hf & _ & Hk & Hm')|(_ & _ & ?)]; [|congruence].
  assert (r1 = r) as -> by congruence. rewrite Hf. simpl. rewrite (require_true (ir_usdc_unlock_ts r <= now)) by done. simpl.
  set (amt := if decide (amount = u64_max) then ir_usdc_deposited r else amount).
  assert (0 < amt <= ir_usdc_deposited r) by (unfold amt; case_decide; lia).
  rewrite !require_true by lia. simpl. rewrite csub_in by (unfold_range; lia). simpl.
  assert (ir_investor (r <| ir_usdc_deposited := ir_usdc_deposited r - amt |>) = k) as Hk' by done.
  destruct (set_slot_update p i k r _ Hwf Hf Hk') as (p2 & -> & _). simpl. eauto.
Qed.

(** ** The handlers *)

Section LobbyLemmas.
Context `{RuntimeLaws}.

Record deposit_spec (now : Z) (a : DepositUsdc) (amount : Z) (w w' : World)
  (v : Z) (r r' : InvestorRecord) : Prop := {
  dep_open : ps_frozen (w_state w) = 0;
  dep_amount : 0 < amount;
  dep_mint : du_usdc_mint a = ps_usdc_mint (w_state w);
  dep_vault : du_usdc_vault a = usdc_vault_address;
  dep_source : exists x, token_account (w_chain w) (du_investor_usdc_account a) = Some x
                         /\ ta_owner x = du_investor a;
  dep_volume : verify_aat_nft_and_get_allocation (w_chain w) (du_aat_nft a) (du_investor a) = Ok v
               /\ 0 < v;
  dep_nft : exists x, token_account (w_chain w) (du_investor_aat_account a) = Some x
                      /\ ta_owner x = du_investor a /\ ta_amount x = 1;
  dep_record : deposit_record now (ps_usdc_withdraw_lock_seconds (w_state w)) v amount r = Ok r';
  dep_pool : pool_update (du_investor a) r r' (w_pool w) (w_pool w');
  dep_transfer : exists dec, invoke []
    (TransferChecked (du_usdc_token_program a) (du_investor_usdc_account a) (du_usdc_mint a)
       (du_usdc_vault a) (du_investor a) [] amount dec) (w_chain w) = Ok (w_chain w');
  dep_state : w_state w' = (w_state w) <| ps_total_usdc_in_lobby :=
                                           ps_total_usdc_in_lobby (w_state w) + amount |>;
  dep_lobby : in_range U64 (ps_total_usdc_in_lobby (w_state w) + amount);
  dep_books : w_round_locked_waln w' = w_round_locked_waln w;
}.

Lemma deposit_usdc_ok now a amount w w' :
  pool_wf (w_pool w) -> deposit_usdc now a amount w = Ok w' ->
  exists v r r', deposit_spec now a amount w w' v r r'.
Proof.
  intros Hwf Hx. unfold deposit_usdc in Hx. apply bind_ok in Hx as ([um aat] & Hacc & Hx).
  unfold DepositUsdc_accounts, check_seeds, check_associated in Hacc. inv_arith.
  match goal with H : deposit_pool _ _ _ _ _ _ = Ok _ |- _ =>
    apply (deposit_pool_ok _ _ _ _ _ _ _ Hwf) in H as (r & r' & Hu & Hr) end.
  repeat match goal with H : check_token _ _ _ _ _ = Ok _ |- _ =>
    apply check_token_ok in H as (? & ? & ? & ?) end.
  eexists _, r, r'. constructor; cbn; eauto.
Qed.

Record withdraw_spec (now : Z) (a : WithdrawUsdc) (amount : Z) (w w' : World)
  (r : InvestorRecord) (amt : Z) : Prop := {
  wd_open : ps_frozen (w_state w) = 0;
  wd_mint : wu_usdc_mint a = ps_usdc_mint (w_state w);
  wd_vault : wu_usdc_vault a = usdc_vault_address;
  wd_target : exists x, token_account (w_chain w) (wu_investor_usdc_account a) = Some x
                        /\ ta_owner x = wu_investor a;
  wd_record : pool_map (w_pool w) !! wu_investor a = Some r;
  wd_unlocked : ir_usdc_unlock_ts r <= now;
  wd_amount : amt = if decide (amount = u64_max) then ir_usdc_deposited r else amount;
  wd_bounds : 0 < amt <= ir_usdc_deposited r;
  wd_pool : pool_update (wu_investor a) r
              (r <| ir_usdc_deposited := ir_usdc_deposited r - amt |>) (w_pool w) (w_pool w');
  wd_transfer : exists seeds dec, invoke seeds
    (TransferChecked (wu_usdc_token_program a) (wu_usdc_vault a) (wu_usdc_mint a)
       (wu_investor_usdc_account a) (wu_contract_state a) [] amt dec) (w_chain w) = Ok (w_chain w');
  wd_state : w_state w' = (w_state w) <| ps_total_usdc_in_lobby :=
                                          ps_total_usdc_in_lobby (w_state w) - amt |>;
  wd_books : w_round_locked_waln w' = w_round_locked_waln w;
}.

Lemma withdraw_usdc_ok now a amount w w' :
  pool_wf (w_pool w) -> withdraw_usdc now a amount w = Ok w' ->
  exists r amt, withdraw_spec now a amount w w' r amt.
Proof.
  intros Hwf Hx. unfold withdraw_usdc in Hx. apply bind_ok in Hx as (um & Hacc & Hx).
  unfold WithdrawUsdc_accounts, check_seeds in Hacc. inv_arith.
  match goal with H : withdraw_pool _ _ _ _ = Ok _ |- _ =>
    apply (withdraw_pool_ok _ _ _ _ _ _ Hwf) in H as (r & Hm & Hu & Ha & Hb & Hts & Hr) end.
  repeat match goal with H : check_token _ _ _ _ _ = Ok _ |- _ =>
    apply check_token_ok in H as (? & ? & ? & ?) end.
  eexists r, _. constructor; cbn; eauto.
Qed.

(** All that a withdrawal writes: one record, the lobby total and the chain. *)
Lemma withdraw_usdc_writes now a amount w w' :
  withdraw_usdc now a amount w = Ok w' ->
  exists i r, find_record (wu_investor a) (w_pool w) = Ok (Some (i, r))
    /\ let amt := if decide (amount = u64_max) then ir_usdc_deposited r else amount in
       w' = w <| w_state := (w_state w) <| ps_total_usdc_in_lobby := ps_total_usdc_in_lobby (w_state w) - amt |> |>
              <| w_pool := (w_pool w) <| ip_investors :=
                   <[i := r <| ir_usdc_deposited := ir_usdc_deposited r - amt |>]> (ip_investors (w_pool w)) |> |>
              <| w_chain := w_chain w' |>.
Proof.
  unfold withdraw_usdc, withdraw_pool, set_slot. intros Hx.
  apply bind_ok in Hx as (um & _ & Hx). apply bind_ok in Hx as (u1 & _ & Hx).
  apply bind_ok in Hx as (u2 & _ & Hx). apply bind_ok in Hx as ([amt p] & Hp & Hx).
  apply bind_ok in Hp as (found & Hf & Hp). apply bind_ok in Hp as ([i r] & ->%ok_or_ok & Hp).
  exists i, r. split; [exact Hf|]. clear Hf. inv_arith. reflexivity.
Qed.
End LobbyLemmas.
