(* ===== verification/RoundAccounts.v ===== *)
(** * The accounts of a settled round

    [sell_waln] and [close_round] leave two accounts per round: the [RoundLockedWaln]
    book of allocations (none, if there are no allocations) and the [RoundRecord]
    summary.  Both are program-derived addresses of the round index, paid for by the
    treasury; an address that already holds lamports is topped up and taken over. *)
From coqutil Require Import Datatypes.RecordSettersUsingExistingGetters.
From stdpp Require Import base gmap strings numbers list.
From S2P Require Import Prelude.
From S2P Require Import State.
From S2P Require Import Runtime.
From S2P Require Import RoundStart.
From S2P Require Import Settlement.
From S2P Require Import AllocBook.
#[local] Open Scope Z_scope.

Section RoundAccounts.
Context `{Runtime}.

(** [ctx.bumps.treasury] *)
Definition treasury_bump : Z := (find_program_address [TREASURY_SEED] ID).2.

(** Create the account, or top it up, allocate it and assign it to the program. *)
Definition fund_round_account (treasury key : Pubkey) (seeds : Seeds) (space : Z) (c : Chain)
  : R Chain :=
  let rent := rent_minimum_balance space in
  let existing := lamports c key in
  if decide (existing = 0) then
    invoke [[TREASURY_SEED; [treasury_bump]]; seeds]
      (SystemCreateAccount treasury key rent space ID) c
  else
    c ← (if decide (existing < rent)
         then invoke [[TREASURY_SEED; [treasury_bump]]]
                (SystemTransfer treasury key (rent - existing)) c
         else Ok c);
    c ← invoke [seeds] (SystemAllocate key space) c;
    invoke [seeds] (SystemAssign key ID) c.

(** The [RoundLockedWaln] account, unless nobody has anything to claim. *)
Definition write_round_locked_waln (treasury round_locked_waln : Pubkey)
  (round_index bump unlock_timestamp : Z) (participant_data : list allocation) (w : World)
  : R World :=
  if decide (participant_data = []) then Ok w
  else
    c ← fund_round_account treasury round_locked_waln
          [ROUND_LOCKED_WALN_SEED; le_bytes 8 round_index; [bump]]
          (RoundLockedWaln_space (Z.of_nat (length participant_data))) (w_chain w);
    let rlw := open_book round_index bump unlock_timestamp participant_data in
    Ok (w <| w_chain := c |>
          <| w_round_locked_waln := <[round_locked_waln := rlw]> (w_round_locked_waln w) |>).

(** The [RoundRecord] account. *)
Definition write_round_record (treasury round_record : Pubkey) (record : RoundRecord) (w : World)
  : R World :=
  c ← fund_round_account treasury round_record
        [ROUND_RECORD_SEED; le_bytes 8 (rr_round_index record); [rr_bump record]]
        (8 + RoundRecord_INIT_SPACE) (w_chain w);
  Ok (w <| w_chain := c |>
        <| w_round_record := <[round_record := record]> (w_round_record w) |>).
End RoundAccounts.

Section RoundAccountsLemmas.
Context `{RuntimeLaws}.

Lemma not_signed_cons s seeds :
  head s <> Some CONTRACT_STATE_SEED -> ~ signed_by_contract seeds -> ~ signed_by_contract (s :: seeds).
Proof.
  intros Hs Hn (s' & Hin & Hh). apply elem_of_cons in Hin as [->|Hin]; [done|].
  apply Hn. by exists s'.
Qed.

Lemma not_signed_nil : ~ signed_by_contract [].
Proof. intros (s & Hs & _). by apply elem_of_nil in Hs. Qed.

Lemma fund_round_account_keeps treasury key seeds space c c' :
  head seeds <> Some CONTRACT_STATE_SEED ->
  fund_round_account treasury key seeds space c = Ok c' -> keeps c c'.
Proof.
  intros Hs Hx. unfold fund_round_account in Hx.
  assert (forall ss i c1 c2, Forall (fun s : Seeds => head s <> Some CONTRACT_STATE_SEED) ss ->
    invoke ss i c1 = Ok c2 -> keeps c1 c2) as Hk.
  { intros ss i c1 c2 Hss Hi. eapply unsigned_keeps; [|exact Hi].
    clear Hi. induction Hss; auto using not_signed_nil, not_signed_cons. }
  case_decide.
  { eapply Hk; [|exact Hx]. by repeat constructor. }
  apply bind_ok in Hx as (c1 & Hc1 & Hx). apply bind_ok in Hx as (c2 & Hc2 & Hx).
  transitivity c1; [case_decide; [|by simplify_eq]|transitivity c2].
  - eapply Hk; [|exact Hc1]. by repeat constructor.
  - eapply Hk; [|exact Hc2]. by repeat constructor.
  - eapply Hk; [|exact Hx]. by repeat constructor.
Qed.

(** Only the book and the chain change, and nothing the contract owns is lost. *)
Lemma write_round_locked_waln_ok treasury key i b u l w w' :
  write_round_locked_waln treasury key i b u l w = Ok w' ->
  w_state w' = w_state w /\ w_pool w' = w_pool w /\ w_round_record w' = w_round_record w
  /\ w_log w' = w_log w /\ keeps (w_chain w) (w_chain w')
  /\ w_round_locked_waln w' = (if decide (l = []) then w_round_locked_waln w
                               else <[key := open_book i b u l]> (w_round_locked_waln w)).
Proof.
  unfold write_round_locked_waln. intros Hx. case_decide; [by simplify_eq|].
  apply bind_ok in Hx as (c & Hc & Hx). simplify_eq. cbn. split_and!; [done..| |done].
  by eapply fund_round_account_keeps; [|exact Hc].
Qed.

Lemma write_round_record_ok treasury key r w w' :
  write_round_record treasury key r w = Ok w' ->
  w_state w' = w_state w /\ w_pool w' = w_pool w
  /\ w_round_locked_waln w' = w_round_locked_waln w
  /\ w_log w' = w_log w /\ keeps (w_chain w) (w_chain w')
  /\ w_round_record w' = <[key := r]> (w_round_record w).
Proof.
  unfold write_round_record. intros Hx. apply bind_ok in Hx as (c & Hc & Hx). simplify_eq. cbn.
  split_and!; [done..| |done]. by eapply fund_round_account_keeps; [|exact Hc].
Qed.
End RoundAccountsLemmas.
