(* ===== verification/Sell.v ===== *)
(** * Selling wALN: [instructions/sell_waln.rs]

    The handler quotes the sale against the current round, or a new one it starts,
    exchanges the tokens, records the sale and, when the round is full, settles it:
    allocations, dust, the round's accounts and log, the state, and the start of the next
    round.  The definitions below are its blocks, in order; [sell_waln] composes them. *)
From coqutil Require Import Datatypes.RecordSettersUsingExistingGetters.
From stdpp Require Import base gmap strings numbers list.
From S2P Require Import Prelude.
From S2P Require Import State.
From S2P Require Import Pool.
From S2P Require Import Runtime.
From S2P Require Import Vaults.
From S2P Require Import Utils.
From S2P Require Import RoundStart.
From S2P Require Import Settlement.
From S2P Require Import AllocBook.
From S2P Require Import RoundAccounts.
#[local] Open Scope Z_scope.

Record SellWaln := mkSellWaln {
  sw_seller : Pubkey;
  sw_contract_state : Pubkey;
  sw_investor_pool : Pubkey;
  sw_waln_mint : Pubkey;
  sw_usdc_mint : Pubkey;
  sw_seller_waln_account : Pubkey;
  sw_seller_usdc_account : Pubkey;
  sw_waln_vault : Pubkey;
  sw_usdc_vault : Pubkey;
  sw_treasury : Pubkey;
  sw_waln_token_program : Pubkey;
  sw_usdc_token_program : Pubkey;
  sw_system_program : Pubkey;
  sw_remaining_accounts : list (list Z);
}.

(** [amount * floor_price / waln_scale], the USDC value of wALN, as a [u128] *)
Definition usdc_value (waln_decimals amount floor_price : Z) : R Z :=
  waln_scale ← pow10_u128 waln_decimals;
  product ← cmul U128 amount floor_price;
  cdiv U128 product waln_scale.

(** ** The quote *)

Record Quote := mkQuote {
  q_need_round_start : bool;
  q_floor_price : Z;
  q_round_size : Z;
  q_waln_amount : Z;
}.

Definition sell_quote (state : ProgramState) (waln_mint usdc_mint : Pubkey)
  (waln_decimals max_waln_amount : Z) : R Quote :=
  _ ← ensure (ps_frozen state = 0) ContractFrozen;
  _ ← ensure (ps_sell_paused state = 0) SellPaused;
  _ ← ensure (0 < max_waln_amount) ZeroAmount;
  _ ← ensure (waln_mint = ps_waln_mint state) InvalidMint;
  _ ← ensure (usdc_mint = ps_usdc_mint state) InvalidMint;
  let need_round_start := bool_decide (ps_round_started state = 0) in
  let '(eff_floor_price, eff_round_size, eff_round_waln) :=
    if need_round_start then (ps_floor_price_usdc state, ps_round_size_waln state, 0)
    else (ps_current_round_floor_price state, ps_current_round_size_waln state,
          ps_current_round_waln state) in
  remaining_in_round ← csub U64 eff_round_size eff_round_waln;
  let waln_amount := Z.min max_waln_amount remaining_in_round in
  _ ← ensure (0 < waln_amount) ZeroAmount;
  post_sale_remaining ← csub U64 remaining_in_round waln_amount;
  _ ← (if decide (0 < post_sale_remaining) then
         post_sale_usdc ← usdc_value waln_decimals post_sale_remaining eff_floor_price;
         ensure (0 < post_sale_usdc) SellLeavesUnpayableDust
       else Ok tt);
  _ ← (if decide (eff_round_waln = 0) then
         ensure (MIN_SELL_WALN <= waln_amount \/ waln_amount = remaining_in_round) SellAmountTooSmall
       else Ok tt);
  Ok (mkQuote need_round_start eff_floor_price eff_round_size waln_amount).

(** The locks of a new round, when one has to start. *)
Definition sell_start (q : Quote) (state : ProgramState) (waln_decimals : Z) (pool : InvestorPool)
  : R (Z * InvestorPool) :=
  if q_need_round_start q then
    investors ← active pool;
    '(_, usdc_locked, investors) ←
      execute_round_start investors (ps_round_size_waln state) (ps_floor_price_usdc state) waln_decimals;
    Ok (usdc_locked, write_active investors pool)
  else Ok (0, pool).

Definition sell_usdc_out (waln_decimals : Z) (q : Quote) : R Z :=
  usdc_out_u128 ← usdc_value waln_decimals (q_waln_amount q) (q_floor_price q);
  usdc_out ← try_from U64 usdc_out_u128;
  _ ← ensure (0 < usdc_out) ZeroAmount;
  Ok usdc_out.

(** ** The state after the exchange *)

Definition start_state (floor_price round_size usdc_locked : Z) (state : ProgramState) : ProgramState :=
  state <| ps_current_round_floor_price := floor_price |>
        <| ps_current_round_size_waln := round_size |>
        <| ps_current_round_lock_period := ps_lock_period_seconds state |>
        <| ps_current_round_usdc_spent := 0 |>
        <| ps_total_usdc_locked_for_round := usdc_locked |>
        <| ps_round_started := 1 |>.

Definition record_sale (q : Quote) (usdc_locked_new usdc_out : Z) (state : ProgramState)
  : R ProgramState :=
  let state :=
    if q_need_round_start q
    then start_state (ps_floor_price_usdc state) (ps_round_size_waln state) usdc_locked_new state
    else state in
  spent ← cadd U64 (ps_current_round_usdc_spent state) usdc_out;
  waln ← cadd U64 (ps_current_round_waln state) (q_waln_amount q);
  Ok (state <| ps_current_round_usdc_spent := spent |> <| ps_current_round_waln := waln |>).

(** ** Completion *)

(** The settlement of the pool: locks into allocations, then the dust. *)
Definition settle_pool (now waln_scale floor_price dust_pool : Z) (pool : InvestorPool)
  : R (SettleTotals * InvestorPool) :=
  investors ← active pool;
  '(t, investors) ← settle_records waln_scale floor_price investors;
  '(t, investors) ← distribute_dust now dust_pool t investors;
  Ok (t, write_active investors pool).

(** [state] after the round: counters, lobby and dust. *)
Definition finish_state (total_usdc_spent waln_in_round dust_pool total_waln_purchased : Z)
  (state : ProgramState) : R ProgramState :=
  round_count ← cadd U64 (ps_round_count state) 1;
  lobby ← csub U64 (ps_total_usdc_in_lobby state) total_usdc_spent;
  with_dust ← cadd U128 waln_in_round dust_pool;
  dust_u128 ← csub U128 with_dust total_waln_purchased;
  dust ← try_from U64 dust_u128;
  Ok (state <| ps_round_count := round_count |>
            <| ps_current_round_waln := 0 |>
            <| ps_current_round_usdc_spent := 0 |>
            <| ps_total_usdc_in_lobby := lobby |>
            <| ps_round_started := 0 |>
            <| ps_waln_dust_carryover := dust |>).

(** The next round, unless it cannot start: nobody eligible or a zero cap leave the
    program idle, any other error fails the sale. *)
Definition auto_start (round_size_waln floor_price_usdc waln_decimals : Z)
  (state : ProgramState) (pool : InvestorPool) : R (ProgramState * InvestorPool) :=
  investors ← active pool;
  match execute_round_start investors round_size_waln floor_price_usdc waln_decimals with
  | Ok (_, usdc_locked, investors) =>
      Ok (start_state floor_price_usdc round_size_waln usdc_locked state,
          write_active investors pool)
  | Err (Floor NoEligibleInvestors) | Err (Floor InvalidParameter) =>
      Ok (state <| ps_total_usdc_locked_for_round := 0 |>, pool)
  | Err e => Err e
  end.

Section Sell.
Context `{Runtime}.

Definition SellWaln_accounts (a : SellWaln) (w : World) : R (Mint * Mint) :=
  let c := w_chain w in
  _ ← check_seeds [CONTRACT_STATE_SEED] (sw_contract_state a);
  _ ← check_seeds [INVESTOR_POOL_SEED] (sw_investor_pool a);
  waln_mint ← load_mint c (sw_waln_mint a);
  usdc_mint ← load_mint c (sw_usdc_mint a);
  _ ← check_token c (sw_seller_waln_account a) (sw_waln_mint a) (sw_seller a)
        (sw_waln_token_program a);
  _ ← check_token c (sw_seller_usdc_account a) (sw_usdc_mint a) (sw_seller a)
        (sw_usdc_token_program a);
  _ ← check_seeds [WALN_VAULT_SEED] (sw_waln_vault a);
  _ ← check_token c (sw_waln_vault a) (sw_waln_mint a) (sw_contract_state a)
        (sw_waln_token_program a);
  _ ← check_seeds [USDC_VAULT_SEED] (sw_usdc_vault a);
  _ ← check_token c (sw_usdc_vault a) (sw_usdc_mint a) (sw_contract_state a)
        (sw_usdc_token_program a);
  _ ← check_seeds [TREASURY_SEED] (sw_treasury a);
  _ ← check_address token_2022_id (sw_waln_token_program a);
  _ ← check_token_program (sw_usdc_token_program a);
  _ ← check_program system_program_id (sw_system_program a);
  Ok (waln_mint, usdc_mint).

(** The hook accounts among the remaining ones; the rest are the round's accounts. *)
Definition sell_hook_accounts (a : SellWaln) (c : Chain) : R (list (list Z) * list (list Z)) :=
  match get_hook_program_id c (sw_waln_mint a) with
  | Some hook_program_id =>
      hooks ← slice_to 8 (sw_remaining_accounts a);
      _ ← validate_hook_accounts c hooks (sw_waln_mint a) (sw_seller a) hook_program_id;
      Ok (hooks, drop 8 (sw_remaining_accounts a))
  | None => Ok ([], sw_remaining_accounts a)
  end.

(** The two transfers: wALN in, signed by the seller, and USDC out, signed by the
    contract. *)
Definition sell_exchange (a : SellWaln) (hooks : list (list Z)) (state_bump waln_decimals
  usdc_decimals waln_amount usdc_out : Z) (c : Chain) : R Chain :=
  c ← invoke []
        (TransferChecked (sw_waln_token_program a) (sw_seller_waln_account a) (sw_waln_mint a)
           (sw_waln_vault a) (sw_seller a) hooks waln_amount waln_decimals) c;
  invoke [[CONTRACT_STATE_SEED; [state_bump]]]
    (TransferChecked (sw_usdc_token_program a) (sw_usdc_vault a) (sw_usdc_mint a)
       (sw_seller_usdc_account a) (sw_contract_state a) [] usdc_out usdc_decimals) c.

(** The log line of one allocation. *)
Definition log_allocation (round_index unlock_timestamp floor_price waln_decimals : Z)
  (log : list LogEntry) (p : allocation) : R (list LogEntry) :=
  value ← usdc_value waln_decimals p.2 floor_price;
  usdc_spent_for ← try_from U64 value;
  Ok (log ++ [LogData (alloc_log InvestorAllocated_DISCRIMINATOR round_index p.1 p.2
                         usdc_spent_for unlock_timestamp)]).

(** The block under [if state.current_round_waln >= current_round_size_waln]. *)
Definition complete_round (now : Z) (a : SellWaln) (remaining : list (list Z))
  (floor_price waln_decimals round_size_next floor_price_next : Z) (w : World) : R World :=
  _ ← ensure (2 <= length remaining)%nat InvalidRemainingAccounts;
  let state := w_state w in
  let round_index := ps_round_count state in
  let dust_pool := ps_waln_dust_carryover state in
  let waln_in_round := ps_current_round_waln state in
  unlock_timestamp ← cadd I64 now (ps_current_round_lock_period state);
  round_record_info ← ok_or (remaining !! 0%nat) Panic;
  round_locked_waln_info ← ok_or (remaining !! 1%nat) Panic;
  _ ← ensure (round_record_address round_index = round_record_info) InvalidRemainingAccounts;
  let round_record_bump := (find_program_address [ROUND_RECORD_SEED; le_bytes 8 round_index] ID).2 in
  _ ← ensure (round_locked_waln_address round_index = round_locked_waln_info)
        InvalidRemainingAccounts;
  let round_locked_waln_bump :=
    (find_program_address [ROUND_LOCKED_WALN_SEED; le_bytes 8 round_index] ID).2 in
  waln_scale ← pow10_u128 waln_decimals;
  '(t, pool) ← settle_pool now waln_scale floor_price dust_pool (w_pool w);
  let w := w <| w_pool := pool |> in
  let participant_count := as_unsigned U32 (Z.of_nat (length (st_participants t))) in
  let participant_data := sort_by_key (retain_positive (st_participants t)) in
  w ← write_round_locked_waln (sw_treasury a) round_locked_waln_info round_index
        round_locked_waln_bump unlock_timestamp participant_data w;
  log ← foldM (log_allocation round_index unlock_timestamp floor_price waln_decimals) (w_log w)
          participant_data;
  let w := w <| w_log := log ++ [Emit (RoundClosed round_index (st_waln_purchased t)
                   (st_usdc_spent t) participant_count unlock_timestamp)] |> in
  w ← write_round_record (sw_treasury a) round_record_info
        (mkRoundRecord round_index now (st_waln_purchased t) (st_usdc_spent t) (st_aat_volume t)
           participant_count round_record_bump) w;
  state ← finish_state (st_usdc_spent t) waln_in_round dust_pool (st_waln_purchased t) (w_state w);
  '(state, pool) ← auto_start round_size_next floor_price_next waln_decimals state (w_pool w);
  Ok (w <| w_state := state |> <| w_pool := pool |>).

Definition sell_waln (now : Z) (a : SellWaln) (max_waln_amount : Z) (w : World) : R World :=
  '(waln_mint, usdc_mint) ← SellWaln_accounts a w;
  let waln_decimals := mi_decimals waln_mint in
  let usdc_decimals := mi_decimals usdc_mint in
  let state := w_state w in
  q ← sell_quote state (sw_waln_mint a) (sw_usdc_mint a) waln_decimals max_waln_amount;
  '(usdc_locked_new, pool) ← sell_start q state waln_decimals (w_pool w);
  usdc_out ← sell_usdc_out waln_decimals q;
  '(hooks, remaining) ← sell_hook_accounts a (w_chain w);
  c ← sell_exchange a hooks (ps_bump state) waln_decimals usdc_decimals (q_waln_amount q) usdc_out
        (w_chain w);
  state' ← record_sale q usdc_locked_new usdc_out state;
  let w' := w <| w_state := state' |> <| w_pool := pool |> <| w_chain := c |> in
  if decide (q_round_size q <= ps_current_round_waln state') then
    complete_round now a remaining (q_floor_price q) waln_decimals (ps_round_size_waln state)
      (ps_floor_price_usdc state) w'
  else Ok w'.
End Sell.

(** ** What the blocks do *)

Lemma usdc_value_ok d amount price v :
  usdc_value d amount price = Ok v -> v = amount * price / 10 ^ d /\ in_range U128 (10 ^ d) /\ 10 ^ d <> 0.
Proof. unfold usdc_value. intros. inv_arith. done. Qed.

(** The round a sale goes to: its price, size and the wALN already in it. *)
Definition effective_price (s : ProgramState) : Z :=
  if decide (ps_round_started s = 0) then ps_floor_price_usdc s else ps_current_round_floor_price s.
Definition effective_size (s : ProgramState) : Z :=
  if decide (ps_round_started s = 0) then ps_round_size_waln s else ps_current_round_size_waln s.
Definition effective_waln (s : ProgramState) : Z :=
  if decide (ps_round_started s = 0) then 0 else ps_current_round_waln s.

(** What a quote that is given satisfies. *)
Record quote_spec (s : ProgramState) (wm um : Pubkey) (d max : Z) (q : Quote) : Prop := {
  qs_open : ps_frozen s = 0 /\ ps_sell_paused s = 0;
  qs_mints : wm = ps_waln_mint s /\ um = ps_usdc_mint s;
  qs_start : q_need_round_start q = bool_decide (ps_round_started s = 0);
  qs_price : q_floor_price q = effective_price s;
  qs_size : q_round_size q = effective_size s;
  qs_amount : q_waln_amount q = Z.min max (effective_size s - effective_waln s);
  qs_positive : 0 < q_waln_amount q;
  qs_minimum : effective_waln s = 0 ->
    MIN_SELL_WALN <= q_waln_amount q \/ q_waln_amount q = effective_size s - effective_waln s;
  qs_rest : 0 < effective_size s - effective_waln s - q_waln_amount q ->
    0 < (effective_size s - effective_waln s - q_waln_amount q) * effective_price s / 10 ^ d;
}.

Lemma sell_quote_ok s wm um d max q :
  sell_quote s wm um d max = Ok q -> quote_spec s wm um d max q.
Proof.
  unfold sell_quote. intros Hx.
  apply bind_ok in Hx as (u1 & Hf%require_ok & Hx). apply bind_ok in Hx as (u2 & Hpa%require_ok & Hx).
  apply bind_ok in Hx as (u3 & Hmax%require_ok & Hx). apply bind_ok in Hx as (u4 & Hwm%require_ok & Hx).
  apply bind_ok in Hx as (u5 & Hum%require_ok & Hx).
  set (b := bool_decide (ps_round_started s = 0)) in Hx.
  assert ((if b then (ps_floor_price_usdc s, ps_round_size_waln s, 0)
           else (ps_current_round_floor_price s, ps_current_round_size_waln s, ps_current_round_waln s))
          = (effective_price s, effective_size s, effective_waln s)) as Heff.
  { unfold b, effective_price, effective_size, effective_waln. rewrite !decide_bool_decide.
    by destruct (bool_decide (ps_round_started s = 0)). }
  rewrite Heff in Hx.
  apply bind_ok in Hx as (rem & [-> _]%csub_ok & Hx). apply bind_ok in Hx as (u6 & Hpos%require_ok & Hx).
  apply bind_ok in Hx as (post & [-> _]%csub_ok & Hx). apply bind_ok in Hx as (u7 & Hpost & Hx).
  apply bind_ok in Hx as (u8 & Hmin & Hx). injection Hx as <-.
  constructor; cbn; try done.
  - intros Hz. rewrite decide_True in Hmin by done. by apply require_ok in Hmin.
  - intros Hr. rewrite decide_True in Hpost by done.
    apply bind_ok in Hpost as (v & (-> & _)%usdc_value_ok & Hv). by apply require_ok in Hv.
Qed.

Lemma sell_usdc_out_ok d q out :
  sell_usdc_out d q = Ok out ->
  out = q_waln_amount q * q_floor_price q / 10 ^ d /\ 0 < out /\ in_range U64 out
  /\ 0 < 10 ^ d.
Proof.
  unfold sell_usdc_out. intros Hx. apply bind_ok in Hx as (v & (Hv & Hr & Hne)%usdc_value_ok & Hx).
  inv_arith. unfold_range. split_and!; (done || lia).
Qed.

Section SellLemmas.
Context `{RuntimeLaws}.

Record sell_accounts_spec (a : SellWaln) (w : World) (wm um : Mint) : Prop := {
  sa_state : sw_contract_state a = contract_state_address;
  sa_usdc_vault : sw_usdc_vault a = usdc_vault_address;
  sa_waln_vault : sw_waln_vault a = waln_vault_address;
  sa_treasury : sw_treasury a = treasury_address;
  sa_waln_mint : mint_account (w_chain w) (sw_waln_mint a) = Some wm;
  sa_usdc_mint : mint_account (w_chain w) (sw_usdc_mint a) = Some um;
  sa_seller_waln : exists x, token_account (w_chain w) (sw_seller_waln_account a) = Some x
                             /\ ta_owner x = sw_seller a;
  sa_seller_usdc : exists x, token_account (w_chain w) (sw_seller_usdc_account a) = Some x
                             /\ ta_owner x = sw_seller a;
}.

Lemma SellWaln_accounts_ok a w wm um :
  SellWaln_accounts a w = Ok (wm, um) -> sell_accounts_spec a w wm um.
Proof.
  unfold SellWaln_accounts, check_seeds, load_mint. intros Hx. inv_ok.
  repeat match goal with H : check_token _ _ _ _ _ = Ok _ |- _ =>
    apply check_token_ok in H as (? & ? & ? & ?) end.
  constructor; eauto.
Qed.

(** The exchange credits the wALN vault and debits the USDC vault, by the two amounts. *)
Lemma sell_exchange_vaults a w wm um hooks bump wd ud amt out c' :
  sell_accounts_spec a w wm um -> vaults (w_state w) (w_chain w) ->
  sw_seller a <> contract_state_address ->
  sw_waln_mint a = ps_waln_mint (w_state w) -> sw_usdc_mint a = ps_usdc_mint (w_state w) ->
  sell_exchange a hooks bump wd ud amt out (w_chain w) = Ok c' ->
  vaults (w_state w) c'
  /\ at_least (w_chain w) c' usdc_vault_address (- out)
  /\ at_least (w_chain w) c' waln_vault_address amt.
Proof.
  intros Ha Hv Hsig Hwm Hum Hx. unfold sell_exchange in Hx.
  apply bind_ok in Hx as (c1 & Hx1 & Hx2).
  destruct Ha as [Hs Huv Hwv _ _ _ (x & Hx & Hox) (y & Hy & Hoy)].
  assert (~ is_vault (sw_seller_waln_account a)) as Hnx by (eapply not_vault; eauto; congruence).
  assert (~ is_vault (sw_seller_usdc_account a)) as Hny by (eapply not_vault; eauto; congruence).
  rewrite Huv in Hx2. rewrite Hwv in Hx1.
  assert (forall k v, is_vault v -> ~ is_vault k -> v <> k) as Hne by (intros; congruence).
  pose proof is_vault_usdc as Hu1. pose proof is_vault_waln as Hw1.
  destruct (vaults_transfer _ _ _ _ _ _ _ _ _ _ _ _ Hx1 Hv) as [Hv1 Hat1];
    [exists waln_vault_address; by rewrite vault_mint_waln|by apply not_eq_sym, Hne|].
  destruct (vaults_transfer _ _ _ _ _ _ _ _ _ _ _ _ Hx2 Hv1) as [Hv2 Hat2];
    [exists usdc_vault_address; by rewrite vault_mint_usdc|by apply Hne|].
  split; [done|]. unfold at_least in *. pose proof vault_addresses_ne as Hvn.
  pose proof (Hat1 _ Hu1) as A1. pose proof (Hat1 _ Hw1) as A2.
  pose proof (Hat2 _ Hu1) as A3. pose proof (Hat2 _ Hw1) as A4.
  rewrite decide_False, decide_False in A1 by (congruence || by apply Hne).
  rewrite decide_True, decide_False in A2 by (congruence || by apply Hne).
  rewrite decide_False, decide_True in A3 by (congruence || by apply Hne).
  rewrite decide_False, decide_False in A4 by (congruence || by apply Hne).
  lia.
Qed.
End SellLemmas.
