(* ===== verification/CloseRound.v ===== *)
(** * Closing a round early: [instructions/close_round.rs]

    The admin force-settles a partially filled round: the wALN bought so far is split pro
    rata among the participants, the unspent part of every lock is refunded, and no new
    round starts.  [close_round_record] reclaims the rent of a round's summary. *)
From coqutil Require Import Datatypes.RecordSettersUsingExistingGetters.
From stdpp Require Import base gmap strings numbers list.
From S2P Require Import Prelude.
From S2P Require Import State.
From S2P Require Import Runtime.
From S2P Require Import RoundStart.
From S2P Require Import Settlement.
From S2P Require Import AllocBook.
From S2P Require Import RoundAccounts.
#[local] Open Scope Z_scope.

Record CloseRound := mkCloseRound {
  cr_admin : Pubkey;
  cr_contract_state : Pubkey;
  cr_investor_pool : Pubkey;
  cr_treasury : Pubkey;
  cr_system_program : Pubkey;
  cr_remaining_accounts : list (list Z);
}.

Record CloseRoundRecord := mkCloseRoundRecord {
  crr_admin : Pubkey;
  crr_contract_state : Pubkey;
  crr_round_record : Pubkey;
  crr_treasury : Pubkey;
}.

(** The pool part: the three passes over [pool.investors[..count]]. *)
Definition close_pool (waln_scale floor_price waln_in_round usdc_paid_for_round : Z)
  (pool : InvestorPool) : R (CloseTotals * InvestorPool) :=
  investors ← active pool;
  '(t, investors) ← close_records waln_scale floor_price waln_in_round usdc_paid_for_round investors;
  Ok (t, write_active investors pool).

(** The state after a forced close; dust carried over from earlier rounds is kept. *)
Definition close_state (waln_in_round total_usdc_spent total_waln_purchased : Z)
  (state : ProgramState) : R ProgramState :=
  new_dust ← csub U64 waln_in_round total_waln_purchased;
  round_count ← cadd U64 (ps_round_count state) 1;
  lobby ← csub U64 (ps_total_usdc_in_lobby state) total_usdc_spent;
  dust ← cadd U64 (ps_waln_dust_carryover state) new_dust;
  Ok (state <| ps_round_count := round_count |>
            <| ps_current_round_waln := 0 |>
            <| ps_current_round_usdc_spent := 0 |>
            <| ps_total_usdc_in_lobby := lobby |>
            <| ps_total_usdc_locked_for_round := 0 |>
            <| ps_round_started := 0 |>
            <| ps_waln_dust_carryover := dust |>).

Section Close.
Context `{Runtime}.

Definition CloseRound_accounts (a : CloseRound) (w : World) : R unit :=
  _ ← check_admin (cr_admin a) (cr_contract_state a) w;
  _ ← check_seeds [INVESTOR_POOL_SEED] (cr_investor_pool a);
  _ ← check_seeds [TREASURY_SEED] (cr_treasury a);
  check_program system_program_id (cr_system_program a).

(** The book and the record of the closed round, its accounts paid by the treasury. *)
Definition write_closed_round (now : Z) (a : CloseRound)
  (round_record_info round_locked_waln_info : Pubkey)
  (round_index round_record_bump round_locked_waln_bump unlock_timestamp : Z) (t : CloseTotals)
  (w : World) : R World :=
  let participant_data := sort_by_key (ct_participants t) in
  let participant_count := as_unsigned U32 (Z.of_nat (length participant_data)) in
  w ← write_round_locked_waln (cr_treasury a) round_locked_waln_info round_index
        round_locked_waln_bump unlock_timestamp participant_data w;
  write_round_record (cr_treasury a) round_record_info
    (mkRoundRecord round_index now (ct_waln_purchased t) (ct_usdc_spent t) (ct_aat_volume t)
       participant_count round_record_bump) w.

Definition close_round (now : Z) (a : CloseRound) (w : World) : R World :=
  _ ← CloseRound_accounts a w;
  let state := w_state w in
  _ ← ensure (ps_round_started state = 1) InvalidParameter;
  _ ← ensure (0 < ps_current_round_waln state) InvalidParameter;
  let round_index := ps_round_count state in
  let floor_price := ps_current_round_floor_price state in
  let waln_decimals := ps_waln_decimals state in
  let lock_period := ps_current_round_lock_period state in
  let waln_in_round := ps_current_round_waln state in
  let usdc_paid_for_round := ps_current_round_usdc_spent state in
  _ ← ensure (2 <= length (cr_remaining_accounts a))%nat InvalidRemainingAccounts;
  round_record_info ← ok_or (cr_remaining_accounts a !! 0%nat) Panic;
  round_locked_waln_info ← ok_or (cr_remaining_accounts a !! 1%nat) Panic;
  _ ← ensure (round_record_address round_index = round_record_info) InvalidRemainingAccounts;
  let round_record_bump := (find_program_address [ROUND_RECORD_SEED; le_bytes 8 round_index] ID).2 in
  _ ← ensure (round_locked_waln_address round_index = round_locked_waln_info)
        InvalidRemainingAccounts;
  let round_locked_waln_bump :=
    (find_program_address [ROUND_LOCKED_WALN_SEED; le_bytes 8 round_index] ID).2 in
  waln_scale ← pow10_u128 waln_decimals;
  unlock_timestamp ← cadd I64 now lock_period;
  '(t, pool) ← close_pool waln_scale floor_price waln_in_round usdc_paid_for_round (w_pool w);
  let w := w <| w_pool := pool |> in
  w ← write_closed_round now a round_record_info round_locked_waln_info round_index round_record_bump
        round_locked_waln_bump unlock_timestamp t w;
  state ← close_state waln_in_round (ct_usdc_spent t) (ct_waln_purchased t) (w_state w);
  Ok (w <| w_state := state |>).

(** [close = treasury]: the lamports go to the treasury, the account to the system
    program, its data is dropped. *)
Definition close_account (key destination : Pubkey) (c : Chain) : R Chain :=
  total ← ok_or (checked_add U64 (lamports c destination) (lamports c key)) Panic;
  Ok (clear_data key (assign_account key system_program_id
        (set_lamports key 0 (set_lamports destination total c)))).

Definition close_round_record (a : CloseRoundRecord) (round_index : Z) (w : World) : R World :=
  _ ← check_admin (crr_admin a) (crr_contract_state a) w;
  record ← ok_or (w_round_record w !! crr_round_record a) (Anchor AccountNotInitialized);
  _ ← require (create_program_address
                 [ROUND_RECORD_SEED; le_bytes 8 round_index; [rr_bump record]] ID
               = Some (crr_round_record a)) (Anchor ConstraintSeeds);
  _ ← check_seeds [TREASURY_SEED] (crr_treasury a);
  c ← close_account (crr_round_record a) (crr_treasury a) (w_chain w);
  Ok (w <| w_chain := c |>
        <| w_round_record := delete (crr_round_record a) (w_round_record w) |>).
End Close.
