(* ===== verification/Claim.v ===== *)
(** * Claiming wALN: [instructions/claim_waln.rs]

    After a round's unlock time every participant takes its allocation out of the vault,
    once; the last claim closes the round's [RoundLockedWaln] account. *)
From coqutil Require Import Datatypes.RecordSettersUsingExistingGetters.
From stdpp Require Import base gmap strings numbers list.
From S2P Require Import Prelude.
From S2P Require Import State.
From S2P Require Import Runtime.
From S2P Require Import Vaults.
From S2P Require Import Utils.
From S2P Require Import AllocBook.
From S2P Require Import RoundAccounts.
#[local] Open Scope Z_scope.

Record ClaimWaln := mkClaimWaln {
  cw_investor : Pubkey;
  cw_contract_state : Pubkey;
  cw_round_locked_waln : Pubkey;
  cw_treasury : Pubkey;
  cw_waln_mint : Pubkey;
  cw_investor_waln_account : Pubkey;
  cw_waln_vault : Pubkey;
  cw_waln_token_program : Pubkey;
  cw_associated_token_program : Pubkey;
  cw_system_program : Pubkey;
  cw_remaining_accounts : list (list Z);
}.

Section Claim.
Context `{Runtime}.

(** [init_if_needed]: the associated account is created when there is none; either way
    it is checked. *)
Definition init_associated (payer account mint authority program : Pubkey) (c : Chain) : R Chain :=
  match token_account c account with
  | Some _ => _ ← check_associated c account mint authority program; Ok c
  | None =>
      c ← invoke [] (AssociatedTokenCreate payer account authority mint) c;
      _ ← check_associated c account mint authority program;
      Ok c
  end.

(** The checks return the loaded book, the wALN mint and the chain with the investor's
    account in place. *)
Definition ClaimWaln_accounts (a : ClaimWaln) (round_index : Z) (w : World)
  : R (RoundLockedWaln * Mint * Chain) :=
  _ ← check_seeds [CONTRACT_STATE_SEED] (cw_contract_state a);
  rlw ← ok_or (w_round_locked_waln w !! cw_round_locked_waln a) (Anchor AccountNotInitialized);
  _ ← require (create_program_address
                 [ROUND_LOCKED_WALN_SEED; le_bytes 8 round_index; [rlw_bump rlw]] ID
               = Some (cw_round_locked_waln a)) (Anchor ConstraintSeeds);
  _ ← check_seeds [TREASURY_SEED] (cw_treasury a);
  waln_mint ← load_mint (w_chain w) (cw_waln_mint a);
  c ← init_associated (cw_investor a) (cw_investor_waln_account a) (cw_waln_mint a)
        (cw_investor a) (cw_waln_token_program a) (w_chain w);
  _ ← check_seeds [WALN_VAULT_SEED] (cw_waln_vault a);
  _ ← check_token c (cw_waln_vault a) (cw_waln_mint a) (cw_contract_state a)
        (cw_waln_token_program a);
  _ ← check_address token_2022_id (cw_waln_token_program a);
  _ ← check_program associated_token_program_id (cw_associated_token_program a);
  _ ← check_program system_program_id (cw_system_program a);
  Ok (rlw, waln_mint, c).

(** The accounts of the transfer hook, when the mint has one. *)
Definition claim_hook_accounts (a : ClaimWaln) (c : Chain) : R unit :=
  match get_hook_program_id c (cw_waln_mint a) with
  | Some hook_program_id =>
      validate_hook_accounts c (cw_remaining_accounts a) (cw_waln_mint a) (cw_contract_state a)
        hook_program_id
  | None => Ok tt
  end.

(** The emptied account: its lamports go to the treasury. *)
Definition close_book (key treasury : Pubkey) (c : Chain) : R Chain :=
  total ← cadd U64 (lamports c treasury) (lamports c key);
  Ok (clear_data key (assign_account key system_program_id
        (set_lamports key 0 (set_lamports treasury total c)))).

Definition claim_waln (now : Z) (a : ClaimWaln) (round_index : Z) (w : World) : R World :=
  '(rlw, waln_mint, c) ← ClaimWaln_accounts a round_index w;
  let state := w_state w in
  _ ← ensure (ps_frozen state = 0) ContractFrozen;
  _ ← ensure (cw_waln_mint a = ps_waln_mint state) InvalidMint;
  '(waln_amount, should_close, rlw) ← claim_entry now (cw_investor a) rlw;
  _ ← claim_hook_accounts a c;
  c ← invoke [[CONTRACT_STATE_SEED; [ps_bump state]]]
        (TransferChecked (cw_waln_token_program a) (cw_waln_vault a) (cw_waln_mint a)
           (cw_investor_waln_account a) (cw_contract_state a) (cw_remaining_accounts a)
           waln_amount (mi_decimals waln_mint)) c;
  if (should_close : bool) then
    c ← close_book (cw_round_locked_waln a) (cw_treasury a) c;
    Ok (w <| w_chain := c |>
          <| w_round_locked_waln := delete (cw_round_locked_waln a) (w_round_locked_waln w) |>)
  else
    Ok (w <| w_chain := c |>
          <| w_round_locked_waln := <[cw_round_locked_waln a := rlw]> (w_round_locked_waln w) |>).
End Claim.

Section ClaimLemmas.
Context `{RuntimeLaws}.

Lemma close_book_keeps key treasury c c' : close_book key treasury c = Ok c' -> keeps c c'.
Proof.
  unfold close_book. intros Hx. inv_ok.
  etrans; [apply set_lamports_keeps|]. etrans; [apply set_lamports_keeps|].
  etrans; [apply assign_account_keeps|]. apply clear_data_keeps.
Qed.

Lemma check_associated_ok c key mint authority program x :
  check_associated c key mint authority program = Ok x ->
  token_account c key = Some x /\ ta_owner x = authority.
Proof. unfold check_associated. intros Hx. by inv_ok. Qed.

Lemma init_associated_ok payer account mint authority program c c' :
  init_associated payer account mint authority program c = Ok c' ->
  keeps c c' /\ exists x, token_account c' account = Some x /\ ta_owner x = authority.
Proof.
  unfold init_associated. intros Hx. destruct (token_account c account) eqn:Ht.
  - apply bind_ok in Hx as (x & Hc%check_associated_ok & Hx). injection Hx as <-.
    split; [apply keeps_refl|]. eauto.
  - apply bind_ok in Hx as (c1 & Hi & Hx).
    apply bind_ok in Hx as (x & Hc%check_associated_ok & Hx). injection Hx as <-.
    split; [|eauto]. eapply unsigned_keeps; [|exact Hi]. apply not_signed_nil.
Qed.

Record claim_spec (now : Z) (a : ClaimWaln) (w w' : World) (rlw rlw' : RoundLockedWaln)
  (amt : Z) (closes : bool) : Prop := {
  cl_open : ps_frozen (w_state w) = 0;
  cl_mint : cw_waln_mint a = ps_waln_mint (w_state w);
  cl_vault : cw_waln_vault a = waln_vault_address;
  cl_book : w_round_locked_waln w !! cw_round_locked_waln a = Some rlw;
  cl_entry : claim_entry now (cw_investor a) rlw = Ok (amt, closes, rlw');
  cl_chain : exists c1 c2 seeds prog auth hooks dec, keeps (w_chain w) c1
    /\ (exists x, token_account c1 (cw_investor_waln_account a) = Some x /\ ta_owner x = cw_investor a)
    /\ invoke seeds (TransferChecked prog (cw_waln_vault a) (cw_waln_mint a)
         (cw_investor_waln_account a) auth hooks amt dec) c1 = Ok c2
    /\ keeps c2 (w_chain w');
  cl_books : w_round_locked_waln w'
             = if closes then delete (cw_round_locked_waln a) (w_round_locked_waln w)
               else <[cw_round_locked_waln a := rlw']> (w_round_locked_waln w);
  cl_state : w_state w' = w_state w;
  cl_pool : w_pool w' = w_pool w;
}.

Lemma claim_waln_ok now a i w w' :
  claim_waln now a i w = Ok w' ->
  exists rlw rlw' amt closes, claim_spec now a w w' rlw rlw' amt closes.
Proof.
  unfold claim_waln. intros Hx. apply bind_ok in Hx as ([[rlw wm] c1] & Hacc & Hx).
  unfold ClaimWaln_accounts, check_seeds in Hacc. inv_ok.
  match goal with H : init_associated _ _ _ _ _ _ = _ |- _ =>
    apply init_associated_ok in H as (Hk & Ho) end.
  destruct b.
  - inv_ok. match goal with H : close_book _ _ _ = _ |- _ => apply close_book_keeps in H end.
    eexists _, _, _, _. constructor; cbn; eauto 15.
  - inv_ok. eexists _, _, _, _. constructor; cbn; eauto 15 using keeps_refl.
Qed.
End ClaimLemmas.
