(* ===== verification/Admin.v ===== *)
(** * Administration: [instructions/admin.rs] and [instructions/transfer_authority.rs]

    Parameter setters, pausing and freezing, the treasury, cancelling a round nobody has
    sold into, removing an inactive investor from the pool, and the two-step transfer of
    the admin's authority. *)
From coqutil Require Import Datatypes.RecordSettersUsingExistingGetters.
From stdpp Require Import base gmap strings numbers list.
From S2P Require Import Prelude.
From S2P Require Import State.
From S2P Require Import Pool.
From S2P Require Import Runtime.
From S2P Require Import RoundStart.
From S2P Require Import RoundAccounts.
#[local] Open Scope Z_scope.

Record AdminOnly := mkAdminOnly {
  ao_admin : Pubkey;
  ao_contract_state : Pubkey;
}.

Record SetInvestorUsdcUnlock := mkSetInvestorUsdcUnlock {
  su_admin : Pubkey;
  su_contract_state : Pubkey;
  su_investor_pool : Pubkey;
}.

(** [FundTreasury] and [WithdrawTreasury] have the same fields. *)
Record Treasury := mkTreasury {
  tr_admin : Pubkey;
  tr_contract_state : Pubkey;
  tr_treasury : Pubkey;
  tr_system_program : Pubkey;
}.

Record CancelRound := mkCancelRound {
  ca_admin : Pubkey;
  ca_contract_state : Pubkey;
  ca_investor_pool : Pubkey;
}.

Record RemoveInvestorFromPool := mkRemoveInvestorFromPool {
  ri_admin : Pubkey;
  ri_contract_state : Pubkey;
  ri_investor_pool : Pubkey;
  ri_investor : Pubkey;
  ri_usdc_mint : Pubkey;
  ri_investor_usdc_account : Pubkey;
  ri_usdc_vault : Pubkey;
  ri_usdc_token_program : Pubkey;
}.

Record TransferAuthority := mkTransferAuthority {
  ta_admin : Pubkey;
  ta_new_admin : Pubkey;
  ta_contract_state : Pubkey;
}.

Record AcceptAuthority := mkAcceptAuthority {
  aa_pending_admin : Pubkey;
  aa_contract_state : Pubkey;
}.

(** The loop of [cancel_round]: every lock goes back to the deposit. *)
Definition unlock_record (r : InvestorRecord) : R InvestorRecord :=
  if decide (ir_usdc_locked_current_round r = 0) then Ok r
  else
    deposited ← cadd U64 (ir_usdc_deposited r) (ir_usdc_locked_current_round r);
    Ok (r <| ir_usdc_deposited := deposited |> <| ir_usdc_locked_current_round := 0 |>).

Definition unlock_records (l : list InvestorRecord) : R (list InvestorRecord) :=
  '(_, l) ← mapAccM (fun (_ : unit) r => r' ← unlock_record r; Ok (tt, r')) tt l;
  Ok l.

Section Admin.
Context `{Runtime}.
Implicit Types (w : World) (state : ProgramState).

(** A handler that only replaces the state of an [AdminOnly] context. *)
Definition with_state (f : ProgramState -> R ProgramState) (w : World) : R World :=
  state ← f (w_state w);
  Ok (w <| w_state := state |>).

Definition set_floor_price (a : AdminOnly) (new_price_usdc : Z) (w : World) : R World :=
  _ ← check_admin (ao_admin a) (ao_contract_state a) w;
  with_state (fun state =>
    _ ← ensure (0 < new_price_usdc) InvalidParameter;
    _ ← require_viable_round_params (ps_round_size_waln state) new_price_usdc
          (ps_waln_decimals state);
    Ok (state <| ps_floor_price_usdc := new_price_usdc |>)) w.

Definition set_round_size (a : AdminOnly) (new_round_size_waln : Z) (w : World) : R World :=
  _ ← check_admin (ao_admin a) (ao_contract_state a) w;
  with_state (fun state =>
    _ ← ensure (0 < new_round_size_waln) InvalidParameter;
    _ ← require_viable_round_params new_round_size_waln (ps_floor_price_usdc state)
          (ps_waln_decimals state);
    Ok (state <| ps_round_size_waln := new_round_size_waln |>)) w.

Definition set_lock_period (a : AdminOnly) (new_lock_period : Z) (w : World) : R World :=
  _ ← check_admin (ao_admin a) (ao_contract_state a) w;
  with_state (fun state =>
    _ ← ensure (0 <= new_lock_period) InvalidParameter;
    Ok (state <| ps_lock_period_seconds := new_lock_period |>)) w.

Definition set_usdc_withdraw_lock (a : AdminOnly) (new_lock_seconds : Z) (w : World) : R World :=
  _ ← check_admin (ao_admin a) (ao_contract_state a) w;
  with_state (fun state =>
    _ ← ensure (0 <= new_lock_seconds) InvalidParameter;
    Ok (state <| ps_usdc_withdraw_lock_seconds := new_lock_seconds |>)) w.

Definition set_investor_usdc_unlock (a : SetInvestorUsdcUnlock) (investor : Pubkey)
  (new_unlock_ts : Z) (w : World) : R World :=
  _ ← check_admin (su_admin a) (su_contract_state a) w;
  _ ← check_seeds [INVESTOR_POOL_SEED] (su_investor_pool a);
  found ← find_record investor (w_pool w);
  '(idx, record) ← ok_or found (Floor InvalidInvestor);
  pool ← set_slot idx (record <| ir_usdc_unlock_ts := new_unlock_ts |>) (w_pool w);
  Ok (w <| w_pool := pool |>).

Definition set_sell_paused (a : AdminOnly) (paused : bool) (w : World) : R World :=
  _ ← check_admin (ao_admin a) (ao_contract_state a) w;
  with_state (fun state => Ok (state <| ps_sell_paused := if paused then 1 else 0 |>)) w.

Definition set_frozen (a : AdminOnly) (frozen : bool) (w : World) : R World :=
  _ ← check_admin (ao_admin a) (ao_contract_state a) w;
  with_state (fun state => Ok (state <| ps_frozen := if frozen then 1 else 0 |>)) w.

Definition cancel_round (a : CancelRound) (w : World) : R World :=
  _ ← check_admin (ca_admin a) (ca_contract_state a) w;
  _ ← check_seeds [INVESTOR_POOL_SEED] (ca_investor_pool a);
  let state := w_state w in
  _ ← ensure (ps_round_started state = 1) InvalidParameter;
  _ ← ensure (ps_current_round_waln state = 0) InvalidParameter;
  let state := state <| ps_round_started := 0 |>
                     <| ps_current_round_waln := 0 |>
                     <| ps_current_round_usdc_spent := 0 |>
                     <| ps_total_usdc_locked_for_round := 0 |> in
  investors ← active (w_pool w);
  investors ← unlock_records investors;
  Ok (w <| w_state := state |> <| w_pool := write_active investors (w_pool w) |>).

Definition RemoveInvestorFromPool_accounts (a : RemoveInvestorFromPool) (w : World) : R Mint :=
  let c := w_chain w in
  _ ← check_admin (ri_admin a) (ri_contract_state a) w;
  _ ← check_seeds [INVESTOR_POOL_SEED] (ri_investor_pool a);
  usdc_mint ← load_mint c (ri_usdc_mint a);
  _ ← check_token c (ri_investor_usdc_account a) (ri_usdc_mint a) (ri_investor a)
        (ri_usdc_token_program a);
  _ ← check_seeds [USDC_VAULT_SEED] (ri_usdc_vault a);
  _ ← check_token c (ri_usdc_vault a) (ri_usdc_mint a) (ri_contract_state a)
        (ri_usdc_token_program a);
  _ ← check_token_program (ri_usdc_token_program a);
  Ok usdc_mint.

Definition remove_investor_from_pool (a : RemoveInvestorFromPool) (w : World) : R World :=
  usdc_mint ← RemoveInvestorFromPool_accounts a w;
  let investor := ri_investor a in
  let state := w_state w in
  _ ← ensure (ri_usdc_mint a = ps_usdc_mint state) InvalidMint;
  let state_bump := ps_bump state in
  let usdc_decimals := mi_decimals usdc_mint in
  found ← find_record investor (w_pool w);
  '(_, record) ← ok_or found (Floor InvalidInvestor);
  _ ← ensure (ir_aat_volume record = 0 /\ ir_usdc_locked_current_round record = 0)
        InvestorNotInactive;
  let refund := ir_usdc_deposited record in
  w ← (if decide (0 < refund) then
         c ← invoke [[CONTRACT_STATE_SEED; [state_bump]]]
               (TransferChecked (ri_usdc_token_program a) (ri_usdc_vault a) (ri_usdc_mint a)
                  (ri_investor_usdc_account a) (ri_contract_state a) [] refund usdc_decimals)
               (w_chain w);
         lobby ← csub U64 (ps_total_usdc_in_lobby state) refund;
         Ok (w <| w_chain := c |> <| w_state := state <| ps_total_usdc_in_lobby := lobby |> |>)
       else Ok w);
  pool ← remove_slot investor (w_pool w);
  Ok (w <| w_pool := pool |>).

(** The checks of [FundTreasury] and of [WithdrawTreasury]. *)
Definition Treasury_accounts (a : Treasury) (w : World) : R unit :=
  _ ← check_admin (tr_admin a) (tr_contract_state a) w;
  _ ← check_seeds [TREASURY_SEED] (tr_treasury a);
  check_program system_program_id (tr_system_program a).

Definition fund_treasury (a : Treasury) (amount : Z) (w : World) : R World :=
  _ ← Treasury_accounts a w;
  _ ← ensure (0 < amount) ZeroAmount;
  c ← invoke [] (SystemTransfer (tr_admin a) (tr_treasury a) amount) (w_chain w);
  Ok (w <| w_chain := c |>).

Definition withdraw_treasury (a : Treasury) (amount : Z) (w : World) : R World :=
  _ ← Treasury_accounts a w;
  _ ← ensure (0 < amount) ZeroAmount;
  _ ← ensure (amount <= lamports (w_chain w) (tr_treasury a)) InsufficientFunds;
  c ← invoke [[TREASURY_SEED; [treasury_bump]]]
        (SystemTransfer (tr_treasury a) (tr_admin a) amount) (w_chain w);
  Ok (w <| w_chain := c |>).

(** ** The authority *)

Definition transfer_authority (a : TransferAuthority) (w : World) : R World :=
  _ ← check_admin (ta_admin a) (ta_contract_state a) w;
  with_state (fun state => Ok (state <| ps_pending_admin := ta_new_admin a |>)) w.

Definition accept_authority (a : AcceptAuthority) (w : World) : R World :=
  _ ← check_seeds [CONTRACT_STATE_SEED] (aa_contract_state a);
  _ ← ensure (ps_pending_admin (w_state w) <> default_pubkey) NoPendingAdmin;
  _ ← ensure (ps_pending_admin (w_state w) = aa_pending_admin a) NotPendingAdmin;
  with_state (fun state => Ok (state <| ps_admin := ps_pending_admin state |>
                                     <| ps_pending_admin := default_pubkey |>)) w.
End Admin.

(** ** Cancelling a round *)

(** A record with its lock released. *)
Definition unlocked (r : InvestorRecord) : InvestorRecord :=
  r <| ir_usdc_deposited := ir_usdc_deposited r + ir_usdc_locked_current_round r |>
    <| ir_usdc_locked_current_round := 0 |>.

Lemma unlock_record_ok r r' :
  unlock_record r = Ok r' ->
  r' = unlocked r /\ (record_wf r -> record_wf r').
Proof.
  unfold unlock_record, unlocked. case_decide as Hz; intros Hx.
  - injection Hx as <-. split; [|done]. destruct r; cbn in *. subst. unfold set. cbn. f_equal. lia.
  - inv_arith. split; [done|]. intros (? & ? & ?). unfold record_wf. cbn. unfold_range. split_and!; try done; lia.
Qed.

Lemma unlock_records_ok l l' :
  unlock_records l = Ok l' -> l' = map unlocked l /\ (Forall record_wf l -> Forall record_wf l').
Proof.
  unfold unlock_records. intros Hx. apply bind_ok in Hx as ([u l1] & Hm & Hx). injection Hx as <-.
  revert Hm. apply (mapAccM_inv (fun pre _ ys => ys = map unlocked pre
    /\ (Forall record_wf pre -> Forall record_wf ys))); [done|].
  intros pre r s ys s' y [-> Hw] Hr. apply bind_ok in Hr as (r' & Hr & Hy). injection Hy as _ <-.
  apply unlock_record_ok in Hr as [-> Hw']. rewrite map_app. split; [done|].
  rewrite !Forall_snoc. naive_solver.
Qed.

Lemma unlocked_sums l :
  sumZ ir_usdc_locked_current_round (map unlocked l) = 0
  /\ sumZ ir_usdc_deposited (map unlocked l)
     = sumZ ir_usdc_deposited l + sumZ ir_usdc_locked_current_round l
  /\ ir_investor <$> map unlocked l = ir_investor <$> l.
Proof.
  split_and!.
  - rewrite sumZ_map. apply sumZ_zero. done.
  - rewrite sumZ_map. apply sumZ_add.
  - apply (map_map unlocked ir_investor).
Qed.

(** A cancel gives back what a start locked. *)
Lemma unlocked_lock l r : ir_usdc_locked_current_round r = 0 -> unlocked (lock l r) = r.
Proof. destruct r. unfold unlocked, lock, set. cbn. intros ->. f_equal. lia. Qed.

(** ** Removing an investor *)

Section RemoveLemmas.
Context `{RuntimeLaws}.

Record remove_spec (a : RemoveInvestorFromPool) (w w' : World) (r : InvestorRecord) : Prop := {
  rm_admin : ps_admin (w_state w) = ri_admin a;
  rm_mint : ri_usdc_mint a = ps_usdc_mint (w_state w);
  rm_vault : ri_usdc_vault a = usdc_vault_address;
  rm_target : exists x, token_account (w_chain w) (ri_investor_usdc_account a) = Some x
                        /\ ta_owner x = ri_investor a;
  rm_found : exists i, find_record (ri_investor a) (w_pool w) = Ok (Some (i, r));
  rm_inactive : ir_aat_volume r = 0 /\ ir_usdc_locked_current_round r = 0;
  rm_refund : 0 < ir_usdc_deposited r -> exists seeds prog auth dec, invoke seeds
    (TransferChecked prog (ri_usdc_vault a) (ri_usdc_mint a) (ri_investor_usdc_account a) auth []
       (ir_usdc_deposited r) dec) (w_chain w) = Ok (w_chain w');
  rm_no_refund : ir_usdc_deposited r <= 0 -> w_chain w' = w_chain w;
  rm_state : w_state w' = (w_state w) <| ps_total_usdc_in_lobby :=
               ps_total_usdc_in_lobby (w_state w) - Z.max 0 (ir_usdc_deposited r) |>;
  rm_pool : remove_slot (ri_investor a) (w_pool w) = Ok (w_pool w');
  rm_books : w_round_locked_waln w' = w_round_locked_waln w;
}.

Lemma remove_investor_ok a w w' :
  remove_investor_from_pool a w = Ok w' -> exists r, remove_spec a w w' r.
Proof.
  unfold remove_investor_from_pool. intros Hx. apply bind_ok in Hx as (um & Hacc & Hx).
  unfold RemoveInvestorFromPool_accounts, check_admin, check_seeds in Hacc. inv_ok.
  repeat match goal with H : check_token _ _ _ _ _ = Ok _ |- _ =>
    apply check_token_ok in H as (? & ? & ? & ?) end.
  match goal with H : find_record _ _ = Ok (Some (_, ?r0)) |- _ => exists r0; rename r0 into r end.
  match goal with H : (if decide _ then _ else _) = Ok _ |- _ => revert H end.
  case_decide as Hd; intros Hw; inv_arith; cbn in *; constructor; cbn; eauto 10; try lia.
  - by rewrite Z.max_r by lia.
  - rewrite Z.max_l by lia. match goal with |- w_state ?ww = _ => destruct (w_state ww) end.
    unfold set. cbn. f_equal. lia.
Qed.
End RemoveLemmas.
