(* ===== verification/Aat.v ===== *)
(** * AAT NFTs: [instructions/mint_aat_nft.rs] and [instructions/update_aat_volume.rs]

    Minting creates the investor's Token-2022 mint at its program-derived address, writes
    the allocation into its metadata, mints one token, freezes it and gives up both
    authorities.  Updating rewrites the metadata and the investor's pool record between
    rounds.  The program keeps the sum of all allocations within
    [MAX_TOTAL_AAT_VOLUME]. *)
From coqutil Require Import Datatypes.RecordSettersUsingExistingGetters.
From stdpp Require Import base gmap strings numbers list.
From S2P Require Import Prelude.
From S2P Require Import State.
From S2P Require Import Pool.
From S2P Require Import Runtime.
From S2P Require Import Utils.
#[local] Open Scope Z_scope.

Definition MAX_TOTAL_AAT_VOLUME : Z := 1000000.

Record MintAatNft := mkMintAatNft {
  mn_admin : Pubkey;
  mn_mint : Pubkey;
  mn_contract_state : Pubkey;
  mn_investor : Pubkey;
  mn_investor_aat_account : Pubkey;
  mn_nft_authority : Pubkey;
  mn_system_program : Pubkey;
  mn_token_program : Pubkey;
  mn_associated_token_program : Pubkey;
}.

Record UpdateAatVolume := mkUpdateAatVolume {
  uv_admin : Pubkey;
  uv_contract_state : Pubkey;
  uv_investor_pool : Pubkey;
  uv_investor : Pubkey;
  uv_mint : Pubkey;
  uv_nft_authority : Pubkey;
  uv_token_program : Pubkey;
  uv_system_program : Pubkey;
}.

(** The accounting of a mint and of an update. *)
Definition mint_total (aat_volume : Z) (state : ProgramState) : R ProgramState :=
  new_total ← cadd U64 (ps_total_aat_volume state) aat_volume;
  _ ← ensure (new_total <= MAX_TOTAL_AAT_VOLUME) WalnAllocationLimitExceeded;
  Ok (state <| ps_total_aat_volume := new_total |>).

Definition update_total (old_volume new_volume : Z) (state : ProgramState) : R ProgramState :=
  rest ← csub U64 (ps_total_aat_volume state) old_volume;
  new_total ← cadd U64 rest new_volume;
  _ ← ensure (new_total <= MAX_TOTAL_AAT_VOLUME) WalnAllocationLimitExceeded;
  Ok (state <| ps_total_aat_volume := new_total |>).

(** The record of the investor, if there is one, gets the new volume. *)
Definition update_pool_volume (investor_key : Pubkey) (new_volume : Z) (pool : InvestorPool)
  : R InvestorPool :=
  found ← find_record investor_key pool;
  match found with
  | Some (idx, record) => set_slot idx (record <| ir_aat_volume := new_volume |>) pool
  | None => Ok pool
  end.

Section Aat.
Context `{Runtime}.

Definition MintAatNft_accounts (a : MintAatNft) (w : World) : R unit :=
  _ ← check_seeds [AAT_NFT_SEED; mn_investor a] (mn_mint a);
  _ ← check_admin (mn_admin a) (mn_contract_state a) w;
  _ ← check_seeds [NFT_AUTHORITY_SEED] (mn_nft_authority a);
  _ ← check_program system_program_id (mn_system_program a);
  _ ← check_program token_2022_id (mn_token_program a);
  check_program associated_token_program_id (mn_associated_token_program a).

(** The signer seeds of the mint and of the NFT authority. *)
Definition mint_signer (investor : Pubkey) : Seeds :=
  [AAT_NFT_SEED; investor; [(find_program_address [AAT_NFT_SEED; investor] ID).2]].
Definition nft_signer : Seeds :=
  [NFT_AUTHORITY_SEED; [(find_program_address [NFT_AUTHORITY_SEED] ID).2]].

(** [512usize] more than the mint's own length is paid for. *)
Definition meta_data_space : Z := 512.

(** The mint account: funded, allocated and handed to Token-2022. *)
Definition create_nft_mint (a : MintAatNft) (c : Chain) : R Chain :=
  let space := mint_account_len in
  let lamports_required := rent_minimum_balance (space + meta_data_space) in
  let existing := lamports c (mn_mint a) in
  c ← (if decide (existing < lamports_required)
       then invoke [] (SystemTransfer (mn_admin a) (mn_mint a) (lamports_required - existing)) c
       else Ok c);
  c ← invoke [mint_signer (mn_investor a)] (SystemAllocate (mn_mint a) space) c;
  invoke [mint_signer (mn_investor a)] (SystemAssign (mn_mint a) (mn_token_program a)) c.

(** The invocations that turn the account into the investor's NFT, in order. *)
Definition nft_invocations (a : MintAatNft) (aat_volume : Z) : list (list Seeds * Cpi) :=
  [([], InitializeMetadataPointer (mn_mint a) (mn_nft_authority a) (mn_mint a));
   ([], InitializeNonTransferableMint (mn_mint a));
   ([], InitializeMint2 (mn_mint a) 0 (mn_nft_authority a) (Some (mn_nft_authority a)));
   ([nft_signer], MetadataInitialize (mn_mint a) (mn_nft_authority a) (mn_mint a)
                    (mn_nft_authority a) "AAT NFT" "AAT" EmptyString);
   ([nft_signer], MetadataUpdateField (mn_mint a) (mn_nft_authority a) aat_volume_key
                    (u64_to_string aat_volume));
   ([], AssociatedTokenCreate (mn_admin a) (mn_investor_aat_account a) (mn_investor a) (mn_mint a));
   ([nft_signer], MintTo (mn_mint a) (mn_investor_aat_account a) (mn_nft_authority a) 1);
   ([nft_signer], FreezeAccount (mn_investor_aat_account a) (mn_mint a) (mn_nft_authority a));
   ([nft_signer], SetAuthority (mn_mint a) (mn_nft_authority a) MintTokens None);
   ([nft_signer], SetAuthority (mn_mint a) (mn_nft_authority a) FreezeAccountAuthority None)].

Definition mint_aat_nft (a : MintAatNft) (aat_volume : Z) (w : World) : R World :=
  _ ← MintAatNft_accounts a w;
  _ ← ensure (0 < aat_volume) InvalidParameter;
  _ ← ensure (ps_frozen (w_state w) = 0) ContractFrozen;
  state ← mint_total aat_volume (w_state w);
  c ← create_nft_mint a (w_chain w);
  c ← foldM (fun c (i : list Seeds * Cpi) => invoke i.1 i.2 c) c (nft_invocations a aat_volume);
  Ok (w <| w_state := state |> <| w_chain := c |>).

Definition UpdateAatVolume_accounts (a : UpdateAatVolume) (w : World) : R unit :=
  _ ← check_admin (uv_admin a) (uv_contract_state a) w;
  _ ← check_seeds [INVESTOR_POOL_SEED] (uv_investor_pool a);
  _ ← check_seeds [AAT_NFT_SEED; uv_investor a] (uv_mint a);
  _ ← check_seeds [NFT_AUTHORITY_SEED] (uv_nft_authority a);
  _ ← check_program token_2022_id (uv_token_program a);
  check_program system_program_id (uv_system_program a).

Definition update_aat_volume (a : UpdateAatVolume) (new_volume : Z) (w : World) : R World :=
  _ ← UpdateAatVolume_accounts a w;
  _ ← ensure (ps_round_started (w_state w) = 0) FundsLocked;
  old_volume ← verify_aat_nft_and_get_allocation (w_chain w) (uv_mint a) (uv_investor a);
  state ← update_total old_volume new_volume (w_state w);
  c ← invoke [nft_signer]
        (MetadataUpdateField (uv_mint a) (uv_nft_authority a) aat_volume_key
           (u64_to_string new_volume)) (w_chain w);
  pool ← update_pool_volume (uv_investor a) new_volume (w_pool w);
  Ok (w <| w_state := state |> <| w_chain := c |> <| w_pool := pool |>).
End Aat.
