(* ===== verification/Init.v ===== *)
(** * Initialization: [instructions/initialize.rs]

    The upgrade authority of the program creates its state, its two vaults and the pool.
    The accounts do not exist before, so [initialize] takes the chain and makes a
    [World]. *)
From coqutil Require Import Datatypes.RecordSettersUsingExistingGetters.
From stdpp Require Import base gmap strings numbers list.
From S2P Require Import Prelude.
From S2P Require Import State.
From S2P Require Import Layout.
From S2P Require Import Runtime.
From S2P Require Import RoundStart.
#[local] Open Scope Z_scope.

Record Initialize := mkInitialize {
  in_admin : Pubkey;
  in_contract_state : Pubkey;
  in_usdc_mint : Pubkey;
  in_waln_mint : Pubkey;
  in_usdc_vault : Pubkey;
  in_waln_vault : Pubkey;
  in_investor_pool : Pubkey;
  in_system_program : Pubkey;
  in_usdc_token_program : Pubkey;
  in_waln_token_program : Pubkey;
  in_program : Pubkey;
  in_program_data : Pubkey;
}.

Section Init.
Context `{Runtime}.

(** [#[account(init, payer = .., seeds = [..], bump)]]: create the account or take over
    an address that holds lamports. *)
Definition init_account (payer key : Pubkey) (seeds : Seeds) (space : Z) (owner : Pubkey)
  (c : Chain) : R Chain :=
  let '(expected, bump) := find_program_address seeds ID in
  _ ← require (key = expected) (Anchor ConstraintSeeds);
  let signer := seeds ++ [[bump]] in
  let rent := rent_minimum_balance space in
  let existing := lamports c key in
  if decide (existing = 0) then
    invoke [signer] (SystemCreateAccount payer key rent space owner) c
  else
    c ← (if decide (existing < Z.max rent 1)
         then invoke [] (SystemTransfer payer key (Z.max rent 1 - existing)) c
         else Ok c);
    c ← invoke [signer] (SystemAllocate key space) c;
    invoke [signer] (SystemAssign key owner) c.

(** The same for a token account, as long as its mint's extensions ask for. *)
Definition init_token_account (payer key : Pubkey) (seeds : Seeds) (mint authority program : Pubkey)
  (c : Chain) : R Chain :=
  c ← init_account payer key seeds (token_account_len c mint) program c;
  invoke [] (InitializeAccount3 program key mint authority) c.

(** The accounts struct, fields in order; it returns the two mints and the chain. *)
Definition Initialize_accounts (a : Initialize) (c : Chain) : R (Mint * Mint * Chain) :=
  c ← init_account (in_admin a) (in_contract_state a) [CONTRACT_STATE_SEED]
        (8 + ProgramState_SIZE) ID c;
  usdc_mint ← load_mint c (in_usdc_mint a);
  waln_mint ← load_mint c (in_waln_mint a);
  c ← init_token_account (in_admin a) (in_usdc_vault a) [USDC_VAULT_SEED] (in_usdc_mint a)
        (in_contract_state a) (in_usdc_token_program a) c;
  c ← init_token_account (in_admin a) (in_waln_vault a) [WALN_VAULT_SEED] (in_waln_mint a)
        (in_contract_state a) (in_waln_token_program a) c;
  c ← init_account (in_admin a) (in_investor_pool a) [INVESTOR_POOL_SEED]
        (8 + InvestorPool_SIZE) ID c;
  _ ← check_program system_program_id (in_system_program a);
  _ ← check_token_program (in_usdc_token_program a);
  _ ← check_token_program (in_waln_token_program a);
  _ ← check_address token_2022_id (in_waln_token_program a);
  _ ← check_program ID (in_program a);
  data ← programdata_address c (in_program a);
  _ ← ensure (data = Some (in_program_data a)) Unauthorized;
  authority ← ok_or (upgrade_authority c (in_program_data a)) (Anchor AccountNotInitialized);
  _ ← ensure (authority = Some (in_admin a)) Unauthorized;
  Ok (usdc_mint, waln_mint, c).

(** [load_init] of the state: the fields the handler does not set are zero. *)
Definition initial_state (a : Initialize) (usdc_mint waln_mint : Mint)
  (floor_price_usdc round_size_waln lock_period_seconds : Z) : ProgramState := {|
  ps_admin := in_admin a;
  ps_usdc_mint := in_usdc_mint a;
  ps_waln_mint := in_waln_mint a;
  ps_usdc_vault := in_usdc_vault a;
  ps_waln_vault := in_waln_vault a;
  ps_floor_price_usdc := floor_price_usdc;
  ps_round_size_waln := round_size_waln;
  ps_current_round_waln := 0;
  ps_total_usdc_in_lobby := 0;
  ps_round_count := 0;
  ps_lock_period_seconds := lock_period_seconds;
  ps_usdc_withdraw_lock_seconds := 0;
  ps_current_round_floor_price := floor_price_usdc;
  ps_current_round_size_waln := round_size_waln;
  ps_current_round_lock_period := lock_period_seconds;
  ps_current_round_usdc_spent := 0;
  ps_total_aat_volume := 0;
  ps_waln_dust_carryover := 0;
  ps_total_usdc_locked_for_round := 0;
  ps_pending_admin := default_pubkey;
  ps_sell_paused := 0;
  ps_round_started := 0;
  ps_bump := (find_program_address [CONTRACT_STATE_SEED] ID).2;
  ps_usdc_vault_bump := (find_program_address [USDC_VAULT_SEED] ID).2;
  ps_waln_vault_bump := (find_program_address [WALN_VAULT_SEED] ID).2;
  ps_waln_decimals := mi_decimals waln_mint;
  ps_usdc_decimals := mi_decimals usdc_mint;
  ps_frozen := 0;
|}.

Definition initial_pool : InvestorPool :=
  mkInvestorPool 0 (find_program_address [INVESTOR_POOL_SEED] ID).2
    (replicate MAX_INVESTORS (empty_record default_pubkey)).

Definition initialize (a : Initialize) (floor_price_usdc round_size_waln lock_period_seconds : Z)
  (c : Chain) : R World :=
  '(usdc_mint, waln_mint, c) ← Initialize_accounts a c;
  _ ← ensure (0 < floor_price_usdc) InvalidParameter;
  _ ← ensure (0 < round_size_waln) InvalidParameter;
  _ ← require_viable_round_params round_size_waln floor_price_usdc (mi_decimals waln_mint);
  _ ← ensure (0 <= lock_period_seconds) InvalidParameter;
  _ ← ensure (mi_transfer_fee waln_mint = false) InvalidParameter;
  Ok {| w_state := initial_state a usdc_mint waln_mint floor_price_usdc round_size_waln
                     lock_period_seconds;
        w_pool := initial_pool;
        w_round_locked_waln := ∅;
        w_round_record := ∅;
        w_chain := c;
        w_log := [] |}.
End Init.
