(* ===== verification/Invariant.v ===== *)
(** * The invariant of the program's accounts

    [inv] relates the program's state, pool and round accounts to one another and to the
    vaults.  The file proves that the state-changing parts of the handlers preserve it;
    [System.v] composes them. *)
From coqutil Require Import Datatypes.RecordSettersUsingExistingGetters.
From stdpp Require Import base gmap strings numbers list.
From S2P Require Import Prelude.
From S2P Require Import State.
From S2P Require Import Pool.
From S2P Require Import Runtime.
From S2P Require Import Vaults.
From S2P Require Import Utils.
From S2P Require Import RoundStart.
From S2P Require Import Settlement.
From S2P Require Import AllocBook.
From S2P Require Import RoundAccounts.
From S2P Require Import Lobby.
From S2P Require Import Sell.
From S2P Require Import CloseRound.
From S2P Require Import Claim.
From S2P Require Import Admin.
From S2P Require Import Aat.
From S2P Require Import Init.
#[local] Open Scope Z_scope.

(** ** Definitions *)

(** The wALN all books together reserve. *)
Definition reserved (books : gmap Pubkey RoundLockedWaln) : Z := sumM unclaimed books.

Definition total_locked (l : list InvestorRecord) : Z := sumZ ir_usdc_locked_current_round l.

(** Between rounds nothing is locked, bought or spent. *)
Definition idle (s : ProgramState) (l : list InvestorRecord) : Prop :=
  ps_round_started s = 0 /\ ps_current_round_waln s = 0 /\ ps_current_round_usdc_spent s = 0
  /\ total_locked l = 0.

(** In a round, the locks are within the round's cap and at most [max_gap] below it, at most
    the round's size has been bought, and the USDC paid out is at most the value of the wALN
    bought and, once something has been bought, not zero. *)
Definition trading (s : ProgramState) (l : list InvestorRecord) : Prop :=
  ps_round_started s = 1
  /\ (exists cap, round_cap (ps_current_round_size_waln s) (ps_current_round_floor_price s)
                    (ps_waln_decimals s) = Ok cap
                  /\ 0 < cap /\ total_locked l <= cap <= total_locked l + max_gap cap)
  /\ 0 <= ps_current_round_waln s <= ps_current_round_size_waln s
  /\ 0 < ps_current_round_floor_price s
  /\ 0 <= ps_current_round_usdc_spent s
  /\ ps_current_round_usdc_spent s * 10 ^ ps_waln_decimals s
     <= ps_current_round_waln s * ps_current_round_floor_price s
  /\ (0 < ps_current_round_waln s -> 0 < ps_current_round_usdc_spent s).

(** What the round still has to buy. *)
Definition open_waln (s : ProgramState) : Z := ps_current_round_size_waln s - ps_current_round_waln s.

(** The value of the wALN the round still has to buy. *)
Definition open_value (s : ProgramState) : Z :=
  open_waln s * ps_current_round_floor_price s / 10 ^ ps_waln_decimals s.

(** Between instructions a round is never full: what it still has to buy is worth
    something. *)
Definition resting (s : ProgramState) (l : list InvestorRecord) : Prop :=
  idle s l \/ trading s l /\ 0 < open_value s.

(** A round that has something of value left to buy is not full. *)
Lemma open_value_pos s l : trading s l -> 0 < open_value s -> 0 < open_waln s.
Proof.
  intros (_ & (cap & Hcap & _) & _ & Hp & _) Hv. apply round_cap_ok in Hcap as (_ & Hsc & _ & Hne & _).
  assert (0 < 10 ^ ps_waln_decimals s) as H10 by (unfold_range; lia). unfold open_value in Hv.
  pose proof (div_mul_le (open_waln s * ps_current_round_floor_price s) _ H10). nia.
Qed.

Section Inv.
Context `{Runtime}.

(** [phase] is [resting] between instructions, and says where a handler is otherwise; the
    vault may be [short] of USDC by what the settled rounds paid beyond their locks. *)
Context (phase : ProgramState -> list InvestorRecord -> Prop) (short : Z).

(** The state and the pool. *)
Record pool_inv (s : ProgramState) (p : InvestorPool) : Prop := {
  pi_wf : pool_wf p;
  pi_records : Forall record_wf (records p);
  pi_keys : contract_state_address ∉ ir_investor <$> records p;
  pi_lobby : ps_total_usdc_in_lobby s = lobby_usdc (records p);
  pi_lobby_max : ps_total_usdc_in_lobby s <= u64_max;
  pi_phase : phase s (records p);
  pi_price : 0 < ps_floor_price_usdc s;
  pi_round_count : in_range U64 (ps_round_count s);
  pi_dust : 0 <= ps_waln_dust_carryover s;
  pi_waln : in_range U64 (ps_current_round_waln s);
}.

Record inv_gen (w : World) : Prop := {
  inv_pool : pool_inv (w_state w) (w_pool w);
  inv_vaults : vaults (w_state w) (w_chain w);
  inv_books k b :
    w_round_locked_waln w !! k = Some b ->
    book_wf b /\ exists i, k = round_locked_waln_address i /\ 0 <= i < ps_round_count (w_state w);
  (** Solvency in USDC: the vault covers the lobby, except for what the current round
      has paid out and what it is short of, at most 99 units for every settled round. *)
  inv_usdc : ps_total_usdc_in_lobby (w_state w)
             <= token_amount (w_chain w) usdc_vault_address
                + ps_current_round_usdc_spent (w_state w) + short
             /\ short <= 99 * ps_round_count (w_state w);
  (** Solvency in wALN: the vault covers the round, the dust and every book. *)
  inv_waln : ps_current_round_waln (w_state w) + ps_waln_dust_carryover (w_state w)
             + reserved (w_round_locked_waln w)
             <= token_amount (w_chain w) waln_vault_address;
}.
End Inv.

#[global] Arguments inv_pool {_} _ {_} _ _.
#[global] Arguments inv_vaults {_} _ {_} _ _.
#[global] Arguments inv_books {_} _ {_} _ _.
#[global] Arguments inv_usdc {_} _ {_} _ _.
#[global] Arguments inv_waln {_} _ {_} _ _.

(** The invariant of the program, with what the vault is short of and without. *)
Notation inv_at := (inv_gen resting).
Notation inv w := (inv_gen resting (99 * ps_round_count (w_state w)) w).

Lemma inv_weaken `{Runtime} phase short w :
  inv_gen phase short w -> inv_gen phase (99 * ps_round_count (w_state w)) w.
Proof. intros []. constructor; [done..|lia|done]. Qed.

(** ** Sums over the books *)

Lemma reserved_insert books k b :
  books !! k = None -> reserved (<[k := b]> books) = reserved books + unclaimed b.
Proof. apply sumM_insert. Qed.

Lemma reserved_delete books k b :
  books !! k = Some b -> reserved (delete k books) = reserved books - unclaimed b.
Proof. apply sumM_delete. Qed.

Lemma reserved_update books k b b' :
  books !! k = Some b -> reserved (<[k := b']> books) = reserved books - unclaimed b + unclaimed b'.
Proof. apply sumM_update. Qed.

(** ** Records *)

Lemma locked_nonneg l : Forall record_wf l -> Forall (fun r => 0 <= ir_usdc_locked_current_round r) l.
Proof. intros Hl. eapply Forall_impl; [exact Hl|]. intros r (_ & Hr & _). unfold_range. lia. Qed.

Lemma deposited_nonneg l : Forall record_wf l -> Forall (fun r => 0 <= ir_usdc_deposited r) l.
Proof. intros Hl. eapply Forall_impl; [exact Hl|]. intros r (Hr & _ & _). unfold_range. lia. Qed.

Lemma sumZ_zero_Forall {A} (f : A -> Z) l :
  Forall (fun x => 0 <= f x) l -> sumZ f l = 0 -> Forall (fun x => f x = 0) l.
Proof.
  induction 1 as [|x l Hx Hl IH]; [done|]. rewrite sumZ_cons. intros Hz.
  assert (0 <= sumZ f l) by (apply sumZ_nonneg; by rewrite Forall_forall in Hl).
  constructor; [lia|]. apply IH. lia.
Qed.

Lemma total_locked_nonneg l : Forall record_wf l -> 0 <= total_locked l.
Proof. intros Hl%locked_nonneg. apply sumZ_nonneg. by rewrite Forall_forall in Hl. Qed.

(** ** Starting a round *)

Lemma start_pool p size price d ta tl l' :
  pool_wf p -> Forall record_wf (records p) -> total_locked (records p) = 0 ->
  execute_round_start (records p) size price d = Ok ((ta, tl), l') ->
  pool_wf (write_active l' p) /\ records (write_active l' p) = l' /\ Forall record_wf l'
  /\ ir_investor <$> l' = ir_investor <$> records p
  /\ total_locked l' = tl /\ lobby_usdc l' = lobby_usdc (records p)
  /\ exists cap, round_cap size price d = Ok cap /\ 0 < cap /\ tl <= cap <= tl + max_gap cap.
Proof.
  intros Hwf Hrec Hz Hx. apply sumZ_zero_Forall in Hz; [|by apply locked_nonneg].
  assert (exists cap, round_cap size price d = Ok cap /\ 0 < cap) as (cap' & Hcap' & Hpos).
  { unfold execute_round_start in Hx. apply bind_ok in Hx as (cap & Hc & Hx).
    apply bind_ok in Hx as (u & Hp%require_ok & _). eauto. }
  destruct (round_start_locks _ _ _ _ _ _ _ Hrec Hz Hx)
    as (cap & ls & Hcap & Hl' & HF & Hwf' & Hs1 & Hs2 & Hle & Hgap).
  assert (length ls = length (records p)) as Hlen by (by apply Forall2_length in HF).
  assert (ir_investor <$> l' = ir_investor <$> records p) as Hkeys by (rewrite Hl'; by apply lock_keys).
  assert (length l' = length (records p)) as Hlen'
    by (by rewrite <- (length_fmap ir_investor l'), Hkeys, length_fmap).
  assert (cap' = cap) as -> by congruence.
  split_and!; [by apply write_active_wf|by apply records_write_active|done..| |].
  - unfold lobby_usdc. rewrite Hs1, Hs2.
    assert (sumZ ir_usdc_locked_current_round (records p) = 0) as ->; [|lia].
    apply sumZ_zero. by rewrite Forall_forall in Hz.
  - exists cap. split_and!; [done..|lia].
Qed.

(** ** Settling a full round *)

Lemma settle_pool_ok now scale price size dust p t p' :
  pool_wf p -> Forall record_wf (records p) -> 0 < scale -> 0 < price -> 0 <= dust ->
  total_locked (records p) <= size * price / scale ->
  settle_pool now scale price dust p = Ok (t, p') ->
  pool_wf p' /\ Forall record_wf (records p')
  /\ ir_investor <$> records p' = ir_investor <$> records p
  /\ total_locked (records p') = 0
  /\ st_usdc_spent t = total_locked (records p)
  /\ lobby_usdc (records p') = lobby_usdc (records p) - st_usdc_spent t
  /\ sumZ snd (st_participants t) = st_waln_purchased t
  /\ st_waln_purchased t <= size + dust
  /\ NoDup (st_participants t).*1 /\ (length (st_participants t) <= MAX_INVESTORS)%nat
  /\ Forall (fun q : allocation => in_range U64 q.2) (st_participants t).
Proof.
  intros Hwf Hrec Hs Hp Hd Hcap Hx. unfold settle_pool in Hx.
  rewrite active_wf in Hx by done. cbn in Hx.
  apply bind_ok in Hx as ([t1 l1] & H1 & Hx). apply bind_ok in Hx as ([t2 l2] & H2 & Hx).
  injection Hx as <- <-.
  destruct (full_settlement_sums _ _ _ _ _ _ _ _ _ _ Hs Hp Hd Hcap H1 H2)
    as (Hpur & Hle & Hu & Hz & Hdep & _ & Hk).
  destruct (settle_records_ok _ _ _ _ _ H1) as (Ht1 & Hl1 & Hrange).
  destruct (distribute_dust_ok _ _ _ _ _ _ Hd H2)
    as (HF & _ & _ & Hkeys & _ & _ & _ & _ & _ & Hr2).
  assert (length l2 = length (records p)) as Hlen
    by (by rewrite <- (length_fmap ir_investor l2), Hk, length_fmap).
  rewrite records_write_active by done. unfold total_locked, lobby_usdc.
  assert ((st_participants t2).*1 = ir_investor <$> lockers (records p)) as Hparts.
  { change ((st_participants t2).*1) with (map fst (st_participants t2)). rewrite Hkeys, Ht1. cbn.
    apply (map_map (fun r => (ir_investor r, base_waln scale price r)) fst). }
  split_and!; try done.
  - by apply write_active_wf.
  - apply Forall_lookup. intros i r' Hi.
    destruct (Forall2_lookup_r _ _ _ _ _ HF Hi) as (r1 & Hr1 & _ & Hd1 & Hk1 & Hv1 & _).
    rewrite Hl1, list_lookup_fmap in Hr1.
    destruct (records p !! i) as [r|] eqn:Hr; [|done]. injection Hr1 as <-.
    destruct (Forall_lookup_1 _ _ _ _ Hrec Hr) as (? & ? & ?).
    unfold record_wf. rewrite Hd1, Hk1, Hv1. unfold settled. case_decide; cbn; [done|].
    split_and!; [done|unfold_range; lia|done].
  - lia.
  - rewrite Hparts. eapply sublist_NoDup; [apply (pwf_nodup _ Hwf)|]. apply fmap_sublist, sublist_filter.
  - rewrite <- (length_fmap fst), Hparts, length_fmap. unfold lockers.
    pose proof (length_filter (fun r => ir_usdc_locked_current_round r <> 0) (records p)).
    pose proof (length_records_max p Hwf). lia.
  - apply Hr2. rewrite Ht1. cbn. by apply Forall_map.
Qed.

(** What is kept of the participants adds up to the same. *)
Lemma retain_positive_sum (l : list allocation) :
  Forall (fun p : allocation => in_range U64 p.2) l -> sumZ snd (retain_positive l) = sumZ snd l.
Proof.
  intros Hl. apply sumZ_filter. intros p Hp Hn. rewrite Forall_forall in Hl.
  specialize (Hl p Hp). unfold_range. lia.
Qed.

(** The book of a settled round, if one is opened. *)
Lemma open_book_reserved books k i b u (l : list allocation) :
  NoDup l.*1 -> (length l <= MAX_INVESTORS)%nat ->
  Forall (fun p : allocation => 0 < p.2 <= u64_max) l ->
  books !! k = None ->
  reserved (if decide (sort_by_key l = []) then books
            else <[k := open_book i b u (sort_by_key l)]> books) = reserved books + sumZ snd l
  /\ book_wf (open_book i b u (sort_by_key l)).
Proof.
  intros Hnd Hlen Hall Hk.
  destruct (open_book_spec i b u l Hnd Hall) as (Hwf & _ & Hun); [unfold MAX_INVESTORS in *; lia|].
  split; [|done]. case_decide as He.
  - assert (l = []) as -> by (apply Permutation_nil_r; by rewrite <- (sort_by_key_perm l), He).
    rewrite sumZ_nil. lia.
  - rewrite reserved_insert by done. lia.
Qed.

(** ** The next round *)

Section AutoStart.
Context `{Runtime}.

(** Starting a round from an idle state. *)
Lemma start_state_inv s p ta tl l' :
  pool_inv idle s p ->
  execute_round_start (records p) (ps_round_size_waln s) (ps_floor_price_usdc s)
    (ps_waln_decimals s) = Ok ((ta, tl), l') ->
  pool_inv (fun s l => trading s l /\ 0 < open_value s)
    (start_state (ps_floor_price_usdc s) (ps_round_size_waln s) tl s) (write_active l' p).
Proof.
  intros Hp Hx. destruct Hp as [Hwf Hrec Hkeys Hl Hmax (Hst & Hw & Hs & Hz) Hpr Hrc Hd].
  destruct (start_pool _ _ _ _ _ _ _ Hwf Hrec Hz Hx)
    as (Hwf' & Hr' & Hrec' & Hk' & Ht & Hlob & cap & Hcap & Hpos & Hle).
  assert (0 < ps_round_size_waln s) as Hsize.
  { apply round_cap_ok in Hcap as (Hc & Hsc & Hprod & Hne & _).
    assert (0 < 10 ^ ps_waln_decimals s) as H10 by (unfold_range; lia).
    pose proof (div_mul_le (ps_round_size_waln s * ps_floor_price_usdc s) _ H10). nia. }
  constructor; rewrite ?Hr'; cbn; try done; [by rewrite Hk'|congruence|].
  unfold trading, open_value, open_waln. cbn. rewrite Hw. split_and!; try lia.
  - exists cap. split_and!; [done..| |]; lia.
  - rewrite Z.sub_0_r. apply round_cap_ok in Hcap as (<- & _). done.
Qed.

Lemma auto_start_inv s p s' p' :
  pool_inv idle s p ->
  auto_start (ps_round_size_waln s) (ps_floor_price_usdc s) (ps_waln_decimals s) s p = Ok (s', p') ->
  pool_inv resting s' p' /\ same_mints s s'
  /\ ps_total_usdc_in_lobby s' = ps_total_usdc_in_lobby s
  /\ ps_round_count s' = ps_round_count s
  /\ ps_waln_dust_carryover s' = ps_waln_dust_carryover s
  /\ ps_current_round_waln s' = 0 /\ ps_current_round_usdc_spent s' = 0.
Proof.
  intros Hp Hx. destruct (pi_phase _ _ _ Hp) as (Hst & Hw & Hs & Hz).
  unfold auto_start in Hx. rewrite active_wf in Hx by apply Hp. cbn in Hx.
  assert (forall s'', s'' = s <| ps_total_usdc_locked_for_round := 0 |> -> pool_inv resting s'' p) as Hskip.
  { intros s'' ->. destruct Hp. constructor; cbn; try done. by left. }
  destruct (execute_round_start _ _ _ _) as [[[ta tl] l']|e] eqn:Hstart.
  - injection Hx as <- <-. cbn. split_and!; try done.
    destruct (start_state_inv _ _ _ _ _ Hp Hstart). constructor; try done. by right.
  - destruct e as [[]| | | |]; try discriminate; injection Hx as <- <-;
      (split; [by apply Hskip|]); cbn; split_and!; done.
Qed.
End AutoStart.

(** ** The end of a full round *)

Definition full (s : ProgramState) (l : list InvestorRecord) : Prop :=
  trading s l /\ ps_current_round_waln s = ps_current_round_size_waln s.

(** The value of the round's size at its price, the cap of the round. *)
Definition round_value (s : ProgramState) : Z :=
  ps_current_round_size_waln s * ps_current_round_floor_price s / 10 ^ ps_waln_decimals s.

(** The payments of a full round are within the cap, so at most [max_gap] above the locks. *)
Lemma full_spent s l :
  full s l ->
  exists cap, cap = ps_current_round_size_waln s * ps_current_round_floor_price s / 10 ^ ps_waln_decimals s
    /\ 0 < 10 ^ ps_waln_decimals s /\ total_locked l <= cap
    /\ ps_current_round_usdc_spent s <= total_locked l + max_gap cap.
Proof.
  intros ((_ & (cap & Hcap & Hpos & Hle) & Hw & Hp & Hs0 & Hs & _) & Hfull).
  apply round_cap_ok in Hcap as (Hc & Hsc & Hprod & Hne & _).
  assert (0 < 10 ^ ps_waln_decimals s) as H10 by (unfold_range; lia).
  pose proof (max_gap_bound cap). exists cap. split_and!; [done|done|lia|]. rewrite Hfull in Hs.
  assert (ps_current_round_usdc_spent s <= cap); [|lia].
  rewrite Hc. apply Z.div_le_lower_bound; lia.
Qed.

Section Complete.
Context `{RuntimeLaws} {short : Z}.

Lemma finish_inv now scale s p t p' s' :
  pool_inv full s p -> scale = 10 ^ ps_waln_decimals s ->
  settle_pool now scale (ps_current_round_floor_price s) (ps_waln_dust_carryover s) p = Ok (t, p') ->
  finish_state (st_usdc_spent t) (ps_current_round_waln s) (ps_waln_dust_carryover s)
    (st_waln_purchased t) s = Ok s' ->
  pool_inv idle s' p'
  /\ same_mints s s' /\ ps_round_count s' = ps_round_count s + 1
  /\ ps_total_usdc_in_lobby s' = ps_total_usdc_in_lobby s - total_locked (records p)
  /\ ps_waln_dust_carryover s' = ps_current_round_waln s + ps_waln_dust_carryover s - st_waln_purchased t
  /\ ps_round_size_waln s' = ps_round_size_waln s /\ ps_floor_price_usdc s' = ps_floor_price_usdc s
  /\ sumZ snd (st_participants t) = st_waln_purchased t
  /\ NoDup (st_participants t).*1 /\ (length (st_participants t) <= MAX_INVESTORS)%nat
  /\ Forall (fun q : allocation => in_range U64 q.2) (st_participants t).
Proof.
  intros Hp -> Hset Hfin. destruct (full_spent _ _ (pi_phase _ _ _ Hp)) as (cap & Hcap & H10 & Hle & _).
  destruct Hp as [Hwf Hrec Hkeys Hl Hmax ((_ & _ & _ & Hpr & _) & Hfull) Hnp Hrc Hd].
  rewrite Hcap in Hle.
  destruct (settle_pool_ok _ _ _ _ _ _ _ _ Hwf Hrec H10 Hpr Hd Hle Hset)
    as (Hwf' & Hrec' & Hk' & Hz & Hu & Hlob & Hsum & _ & Hnd & Hlen & Hall).
  pose proof (total_locked_nonneg _ Hrec). unfold finish_state in Hfin. inv_arith. cbn.
  split_and!; try done; [|by rewrite Hu].
  constructor; cbn; try done.
  - by rewrite Hk'.
  - by rewrite Hlob, <- Hl.
  - unfold_range. lia.
  - unfold_range. lia.
Qed.

(** The allocations kept for the book. *)
Lemma kept_allocations (l : list allocation) :
  NoDup l.*1 -> (length l <= MAX_INVESTORS)%nat -> Forall (fun q : allocation => in_range U64 q.2) l ->
  let kept := retain_positive l in
  NoDup kept.*1 /\ (length kept <= MAX_INVESTORS)%nat
  /\ Forall (fun q : allocation => 0 < q.2 <= u64_max) kept /\ sumZ snd kept = sumZ snd l.
Proof.
  intros Hnd Hlen Hall kept.
  assert (kept `sublist_of` l) as Hsub by apply sublist_filter.
  split_and!.
  - eapply sublist_NoDup; [exact Hnd|]. by apply fmap_sublist.
  - apply sublist_length in Hsub. lia.
  - apply Forall_forall. intros q [Hq Hin]%list_elem_of_filter. rewrite Forall_forall in Hall.
    specialize (Hall q Hin). unfold_range. lia.
  - by apply retain_positive_sum.
Qed.

(** A round's address has no book before the round is settled. *)
Lemma no_book phase w :
  inv_gen phase short w ->
  w_round_locked_waln w !! round_locked_waln_address (ps_round_count (w_state w)) = None.
Proof.
  intros Hi. destruct (w_round_locked_waln w !! _) as [b|] eqn:Hb; [|done].
  destruct (inv_books _ _ Hi _ _ Hb) as (_ & i & Heq & Hlt).
  pose proof (pi_round_count _ _ _ (inv_pool _ _ Hi)).
  apply round_locked_waln_address_inj in Heq; [lia|done|unfold_range; lia].
Qed.

(** Books after one more round. *)
Lemma books_next (books : gmap Pubkey RoundLockedWaln) n key b :
  (forall k b, books !! k = Some b ->
     book_wf b /\ exists i, k = round_locked_waln_address i /\ 0 <= i < n) ->
  0 <= n -> key = round_locked_waln_address n -> book_wf b ->
  forall (o : bool) k b', (if o then books else <[key := b]> books) !! k = Some b' ->
     book_wf b' /\ exists i, k = round_locked_waln_address i /\ 0 <= i < n + 1.
Proof.
  intros Hb Hn -> Hwf o k b' Hk.
  assert (books !! k = Some b' \/ k = round_locked_waln_address n /\ b' = b) as [Hold|[-> ->]].
  { destruct o; [by left|]. apply lookup_insert_Some in Hk as [[<- <-]|[_ Hk]]; auto. }
  - destruct (Hb _ _ Hold) as (? & i & ? & ?). split; [done|]. exists i. split; [done|lia].
  - split; [done|]. exists n. split; [done|lia].
Qed.

Lemma complete_round_inv now a rem price d size_next price_next w w' :
  inv_gen full short w ->
  price = ps_current_round_floor_price (w_state w) -> d = ps_waln_decimals (w_state w) ->
  size_next = ps_round_size_waln (w_state w) -> price_next = ps_floor_price_usdc (w_state w) ->
  complete_round now a rem price d size_next price_next w = Ok w' ->
  inv_at (short + max_gap (round_value (w_state w))) w'
  /\ ps_round_count (w_state w') = ps_round_count (w_state w) + 1.
Proof.
  intros Hi -> -> -> -> Hx. unfold complete_round in Hx.
  apply bind_ok in Hx as (u0 & _ & Hx). apply bind_ok in Hx as (unlock & _ & Hx).
  apply bind_ok in Hx as (rr & _ & Hx). apply bind_ok in Hx as (rlw & _ & Hx).
  apply bind_ok in Hx as (u1 & _ & Hx). apply bind_ok in Hx as (u2 & Hrlw%require_ok & Hx).
  apply bind_ok in Hx as (scale & [-> _]%pow10_u128_ok & Hx).
  apply bind_ok in Hx as ([t p1] & Hset & Hx).
  apply bind_ok in Hx as (w2 & (Hs2 & Hp2 & _ & _ & Hk2 & Hb2)%write_round_locked_waln_ok & Hx).
  apply bind_ok in Hx as (log & _ & Hx).
  apply bind_ok in Hx as (w4 & (Hs4 & Hp4 & Hb4 & _ & Hk4 & _)%write_round_record_ok & Hx).
  cbn in *. rewrite Hs4, Hs2 in Hx. rewrite Hp4, Hp2 in Hx.
  apply bind_ok in Hx as (s1 & Hfin & Hx). apply bind_ok in Hx as ([s2 p2] & Hauto & Hx).
  injection Hx as <-.
  destruct (finish_inv _ _ _ _ _ _ _ (inv_pool _ _ Hi) eq_refl Hset Hfin)
    as (Hp1 & Hm1 & Hrc1 & Hlob1 & Hdust1 & Hsz & Hpr & Hsum & Hnd & Hlen & Hall).
  destruct Hm1 as (Hmu & Hmw & Hmd). rewrite <- Hsz, <- Hpr, <- Hmd in Hauto.
  destruct (auto_start_inv _ _ _ _ Hp1 Hauto) as (Hinv & Hm2 & Hlob2 & Hrc2 & Hdust2 & Hw0 & Hs0).
  destruct (kept_allocations _ Hnd Hlen Hall) as (Hnd' & Hlen' & Hall' & Hsum').
  assert (keeps (w_chain w) (w_chain w4)) as Hkeeps by (by transitivity (w_chain w2)).
  destruct (vaults_keeps _ _ _ Hkeeps (inv_vaults _ _ Hi)) as [Hv Hat].
  pose proof (Hat _ is_vault_usdc) as Hu. pose proof (Hat _ is_vault_waln) as Hwv. unfold at_least in *.
  edestruct (open_book_reserved (w_round_locked_waln w) rlw) as [Hres Hbook];
    [exact Hnd'|exact Hlen'|exact Hall'|rewrite <- Hrlw; by eapply no_book|].
  destruct (full_spent _ _ (pi_phase _ _ _ (inv_pool _ _ Hi))) as (cap & Hcap & _ & _ & Hspent).
  pose proof (max_gap_bound cap) as Hgap. unfold round_value. rewrite <- Hcap. clear Hcap.
  pose proof (inv_usdc _ _ Hi). pose proof (inv_waln _ _ Hi). split; [|cbn; congruence].
  constructor; cbn; rewrite ?Hlob2, ?Hlob1, ?Hrc2, ?Hrc1, ?Hdust2, ?Hdust1, ?Hw0, ?Hs0.
  - done.
  - eapply vaults_state; [|exact Hv]. destruct Hm2 as (? & ? & ?). split_and!; congruence.
  - intros k b. rewrite Hb4, Hb2. rewrite decide_bool_decide.
    apply books_next; [apply Hi| |done|exact Hbook].
    pose proof (pi_round_count _ _ _ (inv_pool _ _ Hi)). unfold_range. lia.
  - lia.
  - rewrite Hb4, Hb2, Hres. lia.
Qed.
End Complete.

(** ** A sale *)

Section SellInv.
Context `{RuntimeLaws} {short : Z}.

(** A sale within the round keeps the payments below the value of the wALN. *)
Lemma sale_trading s p amt out s' :
  pool_inv trading s p ->
  0 < amt -> ps_current_round_waln s + amt <= ps_current_round_size_waln s ->
  0 < out -> 0 < 10 ^ ps_waln_decimals s -> in_range U64 (ps_current_round_waln s + amt) ->
  out = amt * ps_current_round_floor_price s / 10 ^ ps_waln_decimals s ->
  s' = s <| ps_current_round_usdc_spent := ps_current_round_usdc_spent s + out |>
         <| ps_current_round_waln := ps_current_round_waln s + amt |> ->
  pool_inv trading s' p.
Proof.
  intros Hp Hamt Hle Hout H10 Hr Ho ->.
  destruct Hp as [? ? ? ? ? (Hst & Hcap & Hw & Hpr & Hs0 & Hs & Hsp) ? ? ? ?].
  constructor; try done. unfold trading. cbn. split_and!; try done; try lia.
  pose proof (div_mul_le (amt * ps_current_round_floor_price s) _ H10). rewrite <- Ho in *. lia.
Qed.

(** The quote, the start of a round where one is needed, and the recorded sale. *)
Lemma sale_inv s p wm um max q d tl p' out s' :
  pool_inv resting s p -> d = ps_waln_decimals s -> quote_spec s wm um d max q ->
  sell_start q s d p = Ok (tl, p') -> sell_usdc_out d q = Ok out ->
  record_sale q tl out s = Ok s' ->
  pool_inv trading s' p' /\ same_mints s s'
  /\ ps_current_round_usdc_spent s' = ps_current_round_usdc_spent s + out
  /\ ps_current_round_waln s' = ps_current_round_waln s + q_waln_amount q
  /\ ps_current_round_floor_price s' = q_floor_price q
  /\ ps_current_round_size_waln s' = q_round_size q
  /\ (0 < open_waln s' -> 0 < open_value s')
  /\ ps_total_usdc_in_lobby s' = ps_total_usdc_in_lobby s
  /\ ps_round_count s' = ps_round_count s
  /\ ps_waln_dust_carryover s' = ps_waln_dust_carryover s
  /\ ps_round_size_waln s' = ps_round_size_waln s
  /\ ps_floor_price_usdc s' = ps_floor_price_usdc s.
Proof.
  intros Hp -> Hq Hstart (Ho & Hpos & _ & H10)%sell_usdc_out_ok Hrec.
  destruct Hq as [_ _ Hneed Hprice Hsize Hamt Hqpos _ Hrest].
  unfold sell_start in Hstart. unfold record_sale in Hrec. rewrite Hneed in *.
  unfold effective_price, effective_size, effective_waln in *.
  destruct (pi_phase _ _ _ Hp) as [Hidle|[Htr Hlt]].
  - pose proof Hidle as (Hst & Hw & Hs & Hz). rewrite !decide_True in * by done.
    rewrite bool_decide_eq_true_2 in Hstart, Hrec by done.
    rewrite active_wf in Hstart by apply Hp. cbn in Hstart.
    apply bind_ok in Hstart as ([[ta tl0] l'] & Hx & Hstart). injection Hstart as -> <-.
    assert (pool_inv idle s p) as Hpi by (destruct Hp; by constructor).
    pose proof (start_state_inv _ _ _ _ _ Hpi Hx) as Hnew. inv_arith. cbn in *.
    split_and!; try done; try lia; [|unfold open_value, open_waln; cbn; intros Hop;
      rewrite ?Hw, ?Z.sub_add_distr; apply Hrest; rewrite ?Hw in *; lia].
    eapply (sale_trading (start_state (ps_floor_price_usdc s) (ps_round_size_waln s) tl s) _
      (q_waln_amount q)); [| | | | | | |reflexivity]; cbn; [|done|lia|lia|done|done|].
    + destruct Hnew as [? ? ? ? ? [? ?] ? ? ? ?]. by constructor.
    + congruence.
  - assert (ps_round_started s = 1) as Hst by apply Htr.
    rewrite !decide_False in * by lia. rewrite bool_decide_eq_false_2 in Hstart, Hrec by lia.
    injection Hstart as <- <-. inv_arith. cbn.
    split_and!; try done; [|unfold open_value, open_waln; cbn; intros Hop;
      rewrite Z.sub_add_distr; apply Hrest; lia].
    eapply (sale_trading s _ (q_waln_amount q)); [| | | | | | |reflexivity]; [|done|lia|lia|done|done|].
    + destruct Hp. by constructor.
    + congruence.
Qed.

(** The cap of the round a sale sells into, started by the sale or before it. *)
Definition effective_value (s : ProgramState) : Z :=
  effective_size s * effective_price s / 10 ^ ps_waln_decimals s.

(** A sale up to its settlement: the world [w1] it leaves to [complete_round] if the round
    is full, and to the next instruction if it is not. *)
Lemma sell_waln_parts now a max w w' :
  inv_at short w -> sw_seller a <> contract_state_address ->
  sell_waln now a max w = Ok w' ->
  let s := w_state w in
  exists q tl rem w1,
    sell_quote s (sw_waln_mint a) (sw_usdc_mint a) (ps_waln_decimals s) max = Ok q
    /\ sell_start q s (ps_waln_decimals s) (w_pool w) = Ok (tl, w_pool w1)
    /\ round_value (w_state w1) = effective_value s
    /\ ps_round_count (w_state w1) = ps_round_count s
    /\ ps_waln_dust_carryover (w_state w1) = ps_waln_dust_carryover s
    /\ ps_waln_decimals (w_state w1) = ps_waln_decimals s
    /\ ps_current_round_floor_price (w_state w1) = q_floor_price q
    /\ ps_round_size_waln (w_state w1) = ps_round_size_waln s
    /\ ps_floor_price_usdc (w_state w1) = ps_floor_price_usdc s
    /\ (inv_gen full short w1
        /\ complete_round now a rem (q_floor_price q) (ps_waln_decimals s) (ps_round_size_waln s)
             (ps_floor_price_usdc s) w1 = Ok w'
        \/ inv_at short w1 /\ w' = w1).
Proof.
  intros Hi Hsig Hx. unfold sell_waln in Hx.
  apply bind_ok in Hx as ([wm um] & Hacc%SellWaln_accounts_ok & Hx).
  apply bind_ok in Hx as (q & Hqt & Hx). pose proof (sell_quote_ok _ _ _ _ _ _ Hqt) as Hq.
  apply bind_ok in Hx as ([tl p1] & Hstart & Hx). apply bind_ok in Hx as (out & Hout & Hx).
  apply bind_ok in Hx as ([hooks rem] & _ & Hx). apply bind_ok in Hx as (c1 & Hex & Hx).
  apply bind_ok in Hx as (s1 & Hrec & Hx).
  destruct (qs_mints _ _ _ _ _ _ Hq) as [Hwm Hum].
  assert (mi_decimals wm = ps_waln_decimals (w_state w)) as Hd.
  { destruct (va_decimals _ _ (inv_vaults _ _ Hi)) as (m & Hm & Hmd).
    pose proof (sa_waln_mint _ _ _ _ Hacc). congruence. }
  destruct (sell_exchange_vaults _ _ _ _ _ _ _ _ _ _ _ Hacc (inv_vaults _ _ Hi) Hsig Hwm Hum Hex)
    as (Hv & Hu & Hw).
  destruct (sale_inv _ _ _ _ _ _ _ _ _ _ _ (inv_pool _ _ Hi) Hd Hq Hstart Hout Hrec)
    as (Hp1 & Hm1 & Hsp & Hwl & Hpr & Hsz & Hval & Hlob & Hrc & Hdu & Hnsz & Hnpr).
  pose proof (inv_usdc _ _ Hi). pose proof (inv_waln _ _ Hi). unfold at_least in *.
  assert (ps_waln_decimals s1 = ps_waln_decimals (w_state w)) as Hdec by (by destruct Hm1 as (_ & _ & ->)).
  set (w1 := w <| w_state := s1 |> <| w_pool := p1 |> <| w_chain := c1 |>) in Hx.
  assert (forall phase, phase s1 (records p1) -> inv_gen phase short w1) as Hw1.
  { intros phase Hph. constructor; cbn.
    - destruct Hp1. by constructor.
    - by eapply vaults_state.
    - rewrite Hrc. apply Hi.
    - lia.
    - lia. }
  pose proof (pi_phase _ _ _ Hp1) as Htr.
  assert (ps_current_round_waln s1 <= ps_current_round_size_waln s1) as Hle by apply Htr.
  rewrite Hd in Hqt, Hstart, Hx. exists q, tl, rem, w1. split; [exact Hqt|]. split; [exact Hstart|].
  split.
  { cbn. unfold round_value, effective_value.
    by rewrite Hdec, Hpr, Hsz, (qs_price _ _ _ _ _ _ Hq), (qs_size _ _ _ _ _ _ Hq). }
  split_and!; [done..|].
  destruct (decide (q_round_size q <= ps_current_round_waln s1)) as [Hfull|Hnot].
  - left. split; [|exact Hx]. apply Hw1. split; [done|lia].
  - right. injection Hx as <-. split; [|done]. apply Hw1. right. split; [done|]. apply Hval.
    unfold open_waln. lia.
Qed.

(** A sale that does not fill the round keeps what the vault is short of; one that does
    adds at most the gap of the round. *)
Lemma sell_waln_inv now a max w w' :
  inv_at short w -> sw_seller a <> contract_state_address ->
  sell_waln now a max w = Ok w' ->
  inv_at short w' /\ ps_round_count (w_state w') = ps_round_count (w_state w)
  \/ inv_at (short + max_gap (effective_value (w_state w))) w'
     /\ ps_round_count (w_state w') = ps_round_count (w_state w) + 1.
Proof.
  intros Hi Hsig Hx.
  destruct (sell_waln_parts _ _ _ _ _ Hi Hsig Hx)
    as (q & tl & rem & w1 & _ & _ & <- & <- & _ & Hd & Hp & Hsz & Hpr & [[Hf Hc]|[Hr ->]]).
  - right. eapply complete_round_inv; [exact Hf|..|exact Hc]; congruence.
  - by left.
Qed.
End SellInv.

(** ** Deposits and withdrawals *)

(** Two states in the same phase of the same round. *)
Definition same_round (s s' : ProgramState) : Prop :=
  ps_round_started s' = ps_round_started s
  /\ ps_current_round_waln s' = ps_current_round_waln s
  /\ ps_current_round_usdc_spent s' = ps_current_round_usdc_spent s
  /\ ps_current_round_size_waln s' = ps_current_round_size_waln s
  /\ ps_current_round_floor_price s' = ps_current_round_floor_price s
  /\ ps_waln_decimals s' = ps_waln_decimals s.

Lemma resting_same s s' l l' :
  same_round s s' -> total_locked l' = total_locked l -> resting s l -> resting s' l'.
Proof.
  intros (H1 & H2 & H3 & H4 & H5 & H6) Hl. unfold resting, idle, trading, open_value, open_waln.
  by rewrite H1, H2, H3, H4, H5, H6, Hl.
Qed.

Lemma same_round_refl s : same_round s s.
Proof. by repeat split. Qed.

Section LobbyInv.
Context `{RuntimeLaws} {short : Z}.

(** A deposit or a withdrawal changes one record's deposit and the lobby alike. *)
Lemma pool_update_inv k r r' p p' s s' :
  pool_inv resting s p -> pool_update k r r' p p' ->
  k <> contract_state_address -> ir_investor r' = k -> record_wf r' ->
  ir_usdc_locked_current_round r' = ir_usdc_locked_current_round r ->
  ps_total_usdc_in_lobby s' = ps_total_usdc_in_lobby s - ir_usdc_deposited r + ir_usdc_deposited r' ->
  ps_total_usdc_in_lobby s' <= u64_max -> same_round s s' ->
  ps_floor_price_usdc s' = ps_floor_price_usdc s -> ps_round_count s' = ps_round_count s ->
  ps_waln_dust_carryover s' = ps_waln_dust_carryover s ->
  pool_inv resting s' p'.
Proof.
  intros [Hwf Hrec Hkeys Hl Hmax Hph Hpr Hrc Hd Hwr] Hu Hk Hkr Hr' Hlk Hlob Hmax' Hsame Hp' Hrc' Hd'.
  pose proof (pool_update_sum _ _ _ _ _ ir_usdc_locked_current_round Hu eq_refl) as S1.
  pose proof (pool_update_sum _ _ _ _ _ ir_usdc_deposited Hu eq_refl) as S2.
  constructor.
  - by eapply pu_wf.
  - by eapply pool_update_Forall.
  - intros (r0 & Heq & Hr0)%list_elem_of_fmap.
    assert (Forall (fun r => ir_investor r <> contract_state_address) (records p')) as HF.
    { eapply pool_update_Forall; [done| |congruence]. apply Forall_forall. intros r1 Hr1 Heq1.
      apply Hkeys. rewrite <- Heq1. by apply list_elem_of_fmap_2. }
    rewrite Forall_forall in HF. by apply (HF r0).
  - rewrite Hlob, Hl. unfold lobby_usdc. lia.
  - done.
  - eapply resting_same; [done| |exact Hph]. unfold total_locked. lia.
  - by rewrite Hp'.
  - by rewrite Hrc'.
  - by rewrite Hd'.
  - destruct Hsame as (_ & -> & _). done.
Qed.

Lemma deposit_usdc_inv now a amount w w' :
  inv_at short w -> du_investor a <> contract_state_address ->
  deposit_usdc now a amount w = Ok w' -> inv_at short w'.
Proof.
  intros Hi Hsig Hx. pose proof (inv_pool _ _ Hi) as Hp.
  apply deposit_usdc_ok in Hx as (v & r & r' & Hd); [|apply Hp].
  destruct Hd as [_ Hamt Hmint Hvault (x & Hx & Hox) [Hvol _] _ Hr Hu (dec & Htr) Hst Hlob Hbk].
  destruct (deposit_record_ok _ _ _ _ _ _ Hr) as (Hk & Hdep & Hdr & Hlk & _ & _ & Hv & _).
  assert (record_wf r) as (_ & ? & _).
  { eapply pool_update_before; [exact Hu|apply Hp|]. unfold record_wf. cbn. unfold_range. lia. }
  assert (ir_investor r = du_investor a) as Hkr.
  { destruct (pu_before _ _ _ _ _ Hu) as [Hm|[_ ->]]; [|done].
    destruct (find_record_cases _ (pi_wf _ _ _ Hp) (du_investor a)) as [(i & r0 & _ & _ & Hk0 & Hm0)|(_ & _ & ?)];
      congruence. }
  rewrite Hmint, Hvault in Htr. rewrite <- vault_mint_usdc in Htr.
  destruct (vault_credit _ _ _ _ _ _ _ _ _ _ _ _ (inv_vaults _ _ Hi) is_vault_usdc Hx ltac:(congruence) Htr)
    as [Hv' Hat].
  pose proof (Hat _ is_vault_usdc) as A1. pose proof (Hat _ is_vault_waln) as A2. unfold at_least in *.
  rewrite decide_True in A1 by done. pose proof (inv_usdc _ _ Hi). pose proof (inv_waln _ _ Hi).
  assert (token_amount (w_chain w) waln_vault_address <= token_amount (w_chain w') waln_vault_address)
    by (revert A2; case_decide; lia).
  constructor; rewrite ?Hst, ?Hbk; cbn; try lia.
  - eapply pool_update_inv; [exact Hp|exact Hu|done|congruence| |done|cbn; lia|cbn; unfold_range; lia
      |done|done|done|done].
    unfold record_wf. rewrite Hv, Hlk. apply verify_aat_range in Hvol. done.
  - by eapply vaults_state; [|exact Hv'].
  - apply Hi.
Qed.

Lemma withdraw_usdc_inv now a amount w w' :
  inv_at short w -> wu_investor a <> contract_state_address ->
  withdraw_usdc now a amount w = Ok w' -> inv_at short w'.
Proof.
  intros Hi Hsig Hx. pose proof (inv_pool _ _ Hi) as Hp.
  apply withdraw_usdc_ok in Hx as (r & amt & Hd); [|apply Hp].
  destruct Hd as [_ Hmint Hvault (x & Hx & Hox) Hm _ _ Hb Hu (seeds & dec & Htr) Hst Hbk].
  assert (record_wf r) as (Hrd & ? & ?).
  { eapply pool_update_before; [exact Hu|apply Hp|]. unfold record_wf. cbn. unfold_range. lia. }
  assert (ir_investor r = wu_investor a) as Hkr.
  { destruct (find_record_cases _ (pi_wf _ _ _ Hp) (wu_investor a)) as [(i & r0 & _ & _ & Hk0 & Hm0)|(_ & _ & ?)];
      congruence. }
  rewrite Hmint, Hvault in Htr. rewrite <- vault_mint_usdc in Htr.
  destruct (vault_debit _ _ _ _ _ _ _ _ _ _ _ _ (inv_vaults _ _ Hi) is_vault_usdc Hx ltac:(congruence) Htr)
    as [Hv' Hat].
  pose proof (Hat _ is_vault_usdc) as A1. pose proof (Hat _ is_vault_waln) as A2. unfold at_least in *.
  rewrite decide_True in A1 by done.
  rewrite decide_False in A2 by (intros E; by apply vault_addresses_ne).
  pose proof (inv_usdc _ _ Hi). pose proof (inv_waln _ _ Hi).
  constructor; rewrite ?Hst, ?Hbk; cbn; try lia.
  - pose proof (pi_lobby_max _ _ _ Hp).
    eapply pool_update_inv; [exact Hp|exact Hu|done|done| |done|cbn; lia|cbn; unfold_range; lia|done|done|done|done].
    unfold record_wf. cbn. unfold_range. lia.
  - by eapply vaults_state; [|exact Hv'].
  - apply Hi.
Qed.
End LobbyInv.

(** ** Claims *)

Section ClaimInv.
Context `{RuntimeLaws} {short : Z}.

(** What a successful claim takes out of a book. *)
Lemma claim_entry_ok now k rlw amt closes rlw' :
  book_wf rlw -> claim_entry now k rlw = Ok (amt, closes, rlw') ->
  book_wf rlw' /\ unclaimed rlw' = unclaimed rlw - amt /\ 0 < amt
  /\ (closes = true -> unclaimed rlw = amt) /\ alloc_map rlw !! k = Some amt.
Proof.
  intros Hwf Hx. destruct (claim_entry_cases rlw Hwf now k)
    as [(_ & Hc)|[(_ & _ & Hc)|[(_ & _ & Hc)|(i & x & _ & Hi & _ & Hpos & Hm & Hc)]]];
    rewrite Hc in Hx; try discriminate. injection Hx as <- <- <-.
  pose proof (paid_out_wf rlw Hwf i x Hi Hpos) as Hwf'.
  pose proof (paid_out_unclaimed rlw i x Hi) as Hun.
  split_and!; [done|done|done| |done].
  intros Hz%bool_decide_eq_true. apply (unclaimed_zero _ Hwf') in Hz. lia.
Qed.

Lemma claim_waln_inv now a i w w' :
  inv_at short w -> cw_investor a <> contract_state_address ->
  claim_waln now a i w = Ok w' -> inv_at short w'.
Proof.
  intros Hi Hsig (rlw & rlw' & amt & closes & Hc)%claim_waln_ok.
  destruct Hc as [_ Hmint Hvault Hb He (c1 & c2 & seeds & prog & auth & hooks & dec & Hk1 & (x & Hx & Hox) & Htr & Hk2) Hbooks Hst Hpl].
  destruct (inv_books _ _ Hi _ _ Hb) as (Hwf & i0 & Hkey & Hlt).
  destruct (claim_entry_ok _ _ _ _ _ _ Hwf He) as (Hwf' & Hun & Hpos & Hcl & _).
  destruct (vaults_keeps _ _ _ Hk1 (inv_vaults _ _ Hi)) as [Hv1 Hat1].
  rewrite Hmint, Hvault in Htr. rewrite <- vault_mint_waln in Htr.
  destruct (vault_debit _ _ _ _ _ _ _ _ _ _ _ _ Hv1 is_vault_waln Hx ltac:(congruence) Htr) as [Hv2 Hat2].
  destruct (vaults_keeps _ _ _ Hk2 Hv2) as [Hv3 Hat3].
  pose proof (Hat1 _ is_vault_usdc) as A1. pose proof (Hat2 _ is_vault_usdc) as A2.
  pose proof (Hat3 _ is_vault_usdc) as A3. pose proof (Hat1 _ is_vault_waln) as B1.
  pose proof (Hat2 _ is_vault_waln) as B2. pose proof (Hat3 _ is_vault_waln) as B3. unfold at_least in *.
  rewrite decide_False in A2 by apply vault_addresses_ne. rewrite decide_True in B2 by done.
  pose proof (inv_usdc _ _ Hi). pose proof (inv_waln _ _ Hi).
  assert (reserved (w_round_locked_waln w') = reserved (w_round_locked_waln w) - amt) as Hres.
  { rewrite Hbooks. destruct closes.
    - rewrite (reserved_delete _ _ rlw) by done. rewrite Hcl by done. lia.
    - rewrite (reserved_update _ _ rlw) by done. lia. }
  constructor; rewrite ?Hst, ?Hpl, ?Hres; try lia.
  - apply Hi.
  - done.
  - intros k b. rewrite Hbooks. destruct closes.
    + intros [_ Hk]%lookup_delete_Some. by apply (inv_books _ _ Hi).
    + intros [[<- <-]|[_ Hk]]%lookup_insert_Some; [eauto|by apply (inv_books _ _ Hi)].
Qed.
End ClaimInv.

(** ** A forced close *)

Lemma close_records_wf scale price W paid l t l' :
  Forall record_wf l -> close_records scale price W paid l = Ok (t, l') -> Forall record_wf l'.
Proof.
  intros Hl Hx. unfold close_records in Hx. inv_arith.
  match goal with H : mapAccM _ _ _ = Ok (t, l') |- _ => revert H end.
  match goal with |- mapAccM ?f ?s l = _ -> _ =>
    intros Hm; refine (mapAccM_inv (fun pre _ ys => Forall record_wf pre -> Forall record_wf ys) f l s t l' _ _ Hm Hl) end;
    [done|].
  intros pre r s ys s' y IH Hr [Hpre Hrw]%Forall_snoc. apply Forall_snoc. split; [by apply IH|].
  unfold close_record in Hr. case_decide as Hz; [by simplify_eq|].
  apply bind_ok in Hr as (p & _ & Hr). apply bind_ok in Hr as (f & _ & Hr).
  apply bind_ok in Hr as (a & _ & Hr). apply bind_ok in Hr as (wr & _ & Hr).
  apply bind_ok in Hr as ([u rem] & _ & Hr). inv_arith. destruct Hrw as (? & ? & ?).
  unfold record_wf. cbn. split_and!; [done|unfold_range; lia|done].
Qed.

Lemma close_pool_ok scale price W paid p t p' :
  pool_wf p -> Forall record_wf (records p) -> 0 < scale -> 0 < price -> in_range U64 W ->
  close_pool scale price W paid p = Ok (t, p') ->
  pool_wf p' /\ Forall record_wf (records p')
  /\ ir_investor <$> records p' = ir_investor <$> records p
  /\ total_locked (records p') = 0
  /\ ct_usdc_spent t = paid /\ ct_waln_purchased t = W
  /\ lobby_usdc (records p') = lobby_usdc (records p) - paid
  /\ sumZ snd (ct_participants t) = W
  /\ NoDup (ct_participants t).*1 /\ (length (ct_participants t) <= MAX_INVESTORS)%nat
  /\ Forall (fun q : allocation => 0 < q.2 <= u64_max) (ct_participants t).
Proof.
  intros Hwf Hrec Hs Hp HW Hx. unfold close_pool in Hx. rewrite active_wf in Hx by done. cbn in Hx.
  apply bind_ok in Hx as ([t0 l'] & Hc & Hx). injection Hx as -> <-.
  pose proof (close_records_wf _ _ _ _ _ _ _ Hrec Hc) as Hrec'.
  pose proof (close_records_credits _ _ _ _ _ _ _ Hc) as (Hz & Hd & _ & _ & Hk & _).
  pose proof (locked_nonneg _ Hrec) as Hl.
  assert (Forall (fun r => 0 <= base_waln scale price r) (records p)) as Hb.
  { eapply Forall_impl; [exact Hl|]. cbn. intros r Hr. apply Z.div_pos; [|done]. nia. }
  assert (0 <= W) as HW0 by (unfold_range; lia).
  apply (close_records_ok _ _ _ _ _ Hl Hb HW0) in Hc as [_ _ _ Hu Hw _ _ Hsum Hkeys Hpos].
  assert (length l' = length (records p)) as Hlen
    by (by rewrite <- (length_fmap ir_investor l'), Hk, length_fmap).
  rewrite records_write_active by done.
  split_and!; try done.
  - by apply write_active_wf.
  - unfold lobby_usdc at 1. rewrite Hz, Hd, Hu. lia.
  - eapply sublist_NoDup; [|exact Hkeys]. eapply sublist_NoDup; [apply (pwf_nodup _ Hwf)|].
    apply fmap_sublist, sublist_filter.
  - apply sublist_length in Hkeys. rewrite length_map, length_fmap in Hkeys. unfold lockers in Hkeys.
    pose proof (length_filter (fun r => ir_usdc_locked_current_round r <> 0) (records p)).
    pose proof (length_records_max p Hwf). lia.
  - apply Forall_forall. intros q Hq. rewrite Forall_forall in Hpos. specialize (Hpos q Hq) as Hq0.
    split; [done|]. transitivity W; [|unfold_range; lia]. rewrite <- Hsum.
    apply sumZ_elem; [|done]. intros q' Hq'. specialize (Hpos q' Hq'). lia.
Qed.

Section CloseInv.
Context `{RuntimeLaws} {short : Z}.

Lemma close_round_inv now a w w' :
  inv_at short w -> close_round now a w = Ok w' -> inv_at short w'.
Proof.
  intros Hi Hx. unfold close_round in Hx.
  apply bind_ok in Hx as (u0 & _ & Hx). apply bind_ok in Hx as (u1 & Hst%require_ok & Hx).
  apply bind_ok in Hx as (u2 & _ & Hx). apply bind_ok in Hx as (u3 & _ & Hx).
  apply bind_ok in Hx as (rr & _ & Hx). apply bind_ok in Hx as (rlw & _ & Hx).
  apply bind_ok in Hx as (u4 & _ & Hx). apply bind_ok in Hx as (u5 & Hrlw%require_ok & Hx).
  apply bind_ok in Hx as (scale & [-> Hsc]%pow10_u128_ok & Hx).
  apply bind_ok in Hx as (unlock & _ & Hx). apply bind_ok in Hx as ([t p1] & Hc & Hx).
  apply bind_ok in Hx as (w4 & H4 & Hx).
  apply bind_ok in H4 as (w2 & (Hs2 & Hp2 & _ & _ & Hk2 & Hb2)%write_round_locked_waln_ok & H4).
  apply write_round_record_ok in H4 as (Hs4 & Hp4 & Hb4 & _ & Hk4 & _).
  apply bind_ok in Hx as (s1 & Hfin & Hx). injection Hx as <-. cbn in *. rewrite Hs4, Hs2 in Hfin.
  destruct (inv_pool _ _ Hi) as [Hwf Hrec Hkeys Hl Hmax Hph Hpr Hrc Hd Hwr].
  destruct Hph as [(? & _)|[(_ & (cap & Hcap & _) & Hw & Hcp & Hs0 & _) _]]; [lia|].
  assert (0 < 10 ^ ps_waln_decimals (w_state w)) as H10
    by (apply round_cap_ok in Hcap as (_ & ? & _ & ? & _); unfold_range; lia).
  destruct (close_pool_ok _ _ _ _ _ _ _ Hwf Hrec H10 Hcp Hwr Hc)
    as (Hwf' & Hrec' & Hk' & Hz & Hu & Hpw & Hlob & Hsum & Hnd & Hlen & Hall).
  assert (keeps (w_chain w) (w_chain w4)) as Hkeeps by (by transitivity (w_chain w2)).
  destruct (vaults_keeps _ _ _ Hkeeps (inv_vaults _ _ Hi)) as [Hv Hat].
  pose proof (Hat _ is_vault_usdc) as A1. pose proof (Hat _ is_vault_waln) as A2. unfold at_least in *.
  edestruct (open_book_reserved (w_round_locked_waln w) rlw) as [Hres Hbook];
    [exact Hnd|exact Hlen|exact Hall|rewrite <- Hrlw; by eapply no_book|].
  pose proof (inv_usdc _ _ Hi). pose proof (inv_waln _ _ Hi).
  unfold close_state in Hfin. inv_arith. rewrite Hu, Hpw in *.
  constructor; cbn; rewrite ?Hp4, ?Hp2, ?Hb4, ?Hb2.
  - constructor; cbn; try done.
    + by rewrite Hk'.
    + by rewrite Hlob, <- Hl.
    + unfold_range. lia.
    + left. by repeat split.
    + unfold_range. lia.
  - by eapply vaults_state; [|exact Hv].
  - intros k b. rewrite decide_bool_decide. apply books_next; [apply Hi| |done|exact Hbook].
    unfold_range. lia.
  - lia.
  - rewrite Hres. lia.
Qed.
End CloseInv.

(** ** Administration *)

Section AdminInv.
Context `{RuntimeLaws} {short : Z}.

(** A change of the chain that keeps what the contract owns. *)
Lemma chain_inv w w' :
  inv_at short w -> keeps (w_chain w) (w_chain w') -> w_state w' = w_state w -> w_pool w' = w_pool w ->
  w_round_locked_waln w' = w_round_locked_waln w -> inv_at short w'.
Proof.
  intros Hi Hk Hs Hp Hb. destruct (vaults_keeps _ _ _ Hk (inv_vaults _ _ Hi)) as [Hv Hat].
  pose proof (Hat _ is_vault_usdc) as A1. pose proof (Hat _ is_vault_waln) as A2. unfold at_least in *.
  pose proof (inv_usdc _ _ Hi). pose proof (inv_waln _ _ Hi).
  constructor; rewrite ?Hs, ?Hp, ?Hb; [apply Hi|done|apply Hi|lia|lia].
Qed.

(** A change of parameters that leaves the round and the counters alone. *)
Lemma state_inv w s' :
  inv_at short w -> same_round (w_state w) s' -> same_mints (w_state w) s' -> 0 < ps_floor_price_usdc s' ->
  ps_total_usdc_in_lobby s' = ps_total_usdc_in_lobby (w_state w) ->
  ps_round_count s' = ps_round_count (w_state w) ->
  ps_waln_dust_carryover s' = ps_waln_dust_carryover (w_state w) ->
  inv_at short (w <| w_state := s' |>).
Proof.
  intros Hi Hr Hm Hp Hl Hc Hd. destruct (inv_pool _ _ Hi). pose proof Hr as (_ & Hw & Hs & _).
  constructor; cbn; rewrite ?Hl, ?Hc, ?Hd, ?Hw, ?Hs; try apply Hi.
  - constructor; rewrite ?Hl, ?Hc, ?Hd, ?Hw; try done. by eapply resting_same.
  - by eapply vaults_state; [|apply Hi].
Qed.

Lemma check_admin_ok admin contract_state w u :
  check_admin admin contract_state w = Ok u ->
  contract_state = contract_state_address /\ ps_admin (w_state w) = admin.
Proof. unfold check_admin, check_seeds. intros Hx. by inv_ok. Qed.

Lemma set_floor_price_inv a price w w' : inv_at short w -> set_floor_price a price w = Ok w' -> inv_at short w'.
Proof. unfold set_floor_price, with_state. intros Hi Hx. inv_ok. by apply state_inv. Qed.

Lemma set_round_size_inv a size w w' : inv_at short w -> set_round_size a size w = Ok w' -> inv_at short w'.
Proof.
  unfold set_round_size, with_state. intros Hi Hx. inv_ok. apply state_inv; try done.
  apply (inv_pool _ _ Hi).
Qed.

Lemma set_lock_period_inv a period w w' : inv_at short w -> set_lock_period a period w = Ok w' -> inv_at short w'.
Proof.
  unfold set_lock_period, with_state. intros Hi Hx. inv_ok. apply state_inv; try done.
  apply (inv_pool _ _ Hi).
Qed.

Lemma set_usdc_withdraw_lock_inv a secs w w' :
  inv_at short w -> set_usdc_withdraw_lock a secs w = Ok w' -> inv_at short w'.
Proof.
  unfold set_usdc_withdraw_lock, with_state. intros Hi Hx. inv_ok. apply state_inv; try done.
  apply (inv_pool _ _ Hi).
Qed.

Lemma set_sell_paused_inv a b w w' : inv_at short w -> set_sell_paused a b w = Ok w' -> inv_at short w'.
Proof.
  unfold set_sell_paused, with_state. intros Hi Hx. inv_ok. apply state_inv; try done.
  apply (inv_pool _ _ Hi).
Qed.

Lemma set_frozen_inv a b w w' : inv_at short w -> set_frozen a b w = Ok w' -> inv_at short w'.
Proof.
  unfold set_frozen, with_state. intros Hi Hx. inv_ok. apply state_inv; try done.
  apply (inv_pool _ _ Hi).
Qed.

Lemma transfer_authority_inv a w w' : inv_at short w -> transfer_authority a w = Ok w' -> inv_at short w'.
Proof.
  unfold transfer_authority, with_state. intros Hi Hx. inv_ok. apply state_inv; try done.
  apply (inv_pool _ _ Hi).
Qed.

Lemma accept_authority_inv a w w' : inv_at short w -> accept_authority a w = Ok w' -> inv_at short w'.
Proof.
  unfold accept_authority, with_state. intros Hi Hx. inv_ok. apply state_inv; try done.
  apply (inv_pool _ _ Hi).
Qed.

Lemma fund_treasury_inv a amount w w' : inv_at short w -> fund_treasury a amount w = Ok w' -> inv_at short w'.
Proof.
  unfold fund_treasury. intros Hi Hx. inv_ok. eapply chain_inv; [exact Hi| |done..].
  eapply unsigned_keeps; [|done]. apply not_signed_nil.
Qed.

Lemma withdraw_treasury_inv a amount w w' : inv_at short w -> withdraw_treasury a amount w = Ok w' -> inv_at short w'.
Proof.
  unfold withdraw_treasury. intros Hi Hx. inv_ok. eapply chain_inv; [exact Hi| |done..].
  eapply unsigned_keeps; [|done]. apply not_signed_cons; [done|apply not_signed_nil].
Qed.

Lemma close_account_keeps key destination c c' : close_account key destination c = Ok c' -> keeps c c'.
Proof.
  unfold close_account. intros Hx. inv_ok.
  etrans; [apply set_lamports_keeps|]. etrans; [apply set_lamports_keeps|].
  etrans; [apply assign_account_keeps|]. apply clear_data_keeps.
Qed.

Lemma close_round_record_inv a i w w' : inv_at short w -> close_round_record a i w = Ok w' -> inv_at short w'.
Proof.
  unfold close_round_record. intros Hi Hx. inv_ok. eapply chain_inv; [exact Hi| |done..].
  by eapply close_account_keeps.
Qed.

(** A pool record found for [k] belongs to [k], which is not the contract's address. *)
Lemma found_record w k i r :
  inv_at short w -> find_record k (w_pool w) = Ok (Some (i, r)) ->
  ir_investor r = k /\ k <> contract_state_address /\ record_wf r /\ pool_map (w_pool w) !! k = Some r.
Proof.
  intros Hi Hf. destruct (inv_pool _ _ Hi) as [Hwf Hrec Hkeys _ _ _ _ _ _ _].
  destruct (find_record_cases _ Hwf k) as [(i0 & r0 & Hf0 & Hi0 & Hk0 & Hm)|(Hf0 & _)]; [|congruence].
  assert (r0 = r) as -> by congruence. split_and!; [done| |by eapply (Forall_lookup_1 _ _ _ _ Hrec)|done].
  intros E. apply Hkeys. rewrite <- E, <- Hk0. by eapply list_elem_of_fmap_2, list_elem_of_lookup_2.
Qed.

(** One record changed, with its funds the same. *)
Lemma record_change_inv w k i r r' p' :
  inv_at short w -> find_record k (w_pool w) = Ok (Some (i, r)) -> set_slot i r' (w_pool w) = Ok p' ->
  ir_investor r' = k -> record_wf r' ->
  ir_usdc_locked_current_round r' = ir_usdc_locked_current_round r ->
  ir_usdc_deposited r' = ir_usdc_deposited r ->
  pool_inv resting (w_state w) p'.
Proof.
  intros Hi Hf Hs Hk Hr Hl Hd. pose proof (inv_pool _ _ Hi) as Hp.
  destruct (found_record _ _ _ _ Hi Hf) as (_ & Hne & _).
  destruct (set_slot_update _ _ _ _ r' (pi_wf _ _ _ Hp) Hf Hk) as (p2 & Hs' & _ & Hu & _).
  assert (p2 = p') as -> by congruence. pose proof (pi_lobby_max _ _ _ Hp).
  eapply pool_update_inv; [exact Hp|exact Hu|done|done|done|done|lia|done|apply same_round_refl|done..].
Qed.

Lemma pool_change_inv w p' : inv_at short w -> pool_inv resting (w_state w) p' -> inv_at short (w <| w_pool := p' |>).
Proof. intros [] Hp. by constructor. Qed.

Lemma set_investor_usdc_unlock_inv a k ts w w' :
  inv_at short w -> set_investor_usdc_unlock a k ts w = Ok w' -> inv_at short w'.
Proof.
  unfold set_investor_usdc_unlock. intros Hi Hx.
  apply bind_ok in Hx as (u1 & _ & Hx). apply bind_ok in Hx as (u2 & _ & Hx).
  apply bind_ok in Hx as (found & Hf & Hx). apply bind_ok in Hx as ([i r] & ->%ok_or_ok & Hx).
  apply bind_ok in Hx as (p' & Hs & Hx). injection Hx as <-.
  destruct (found_record _ _ _ _ Hi Hf) as (Hk & _ & Hr & _).
  apply pool_change_inv; [done|]. eapply record_change_inv; [exact Hi|exact Hf|exact Hs|done..].
Qed.
End AdminInv.

(** ** Cancelling a round and removing an investor *)

Section CancelInv.
Context `{RuntimeLaws} {short : Z}.

Lemma cancel_round_inv a w w' : inv_at short w -> cancel_round a w = Ok w' -> inv_at short w'.
Proof.
  unfold cancel_round. intros Hi Hx. destruct (inv_pool _ _ Hi) as [Hwf Hrec Hkeys Hl Hmax Hph Hpr Hrc Hd Hwr].
  apply bind_ok in Hx as (u1 & _ & Hx). apply bind_ok in Hx as (u2 & _ & Hx).
  apply bind_ok in Hx as (u3 & Hst%require_ok & Hx). apply bind_ok in Hx as (u4 & Hw0%require_ok & Hx).
  rewrite active_wf in Hx by done. cbn in Hx.
  apply bind_ok in Hx as (l' & [-> Hrec']%unlock_records_ok & Hx). injection Hx as <-.
  destruct (unlocked_sums (records (w_pool w))) as (Hz & Hs & Hk).
  assert (length (map unlocked (records (w_pool w))) = length (records (w_pool w))) as Hlen by apply length_map.
  destruct Hph as [(? & _)|[(_ & (cap & Hcap & _) & _ & _ & Hs0 & Hs1) _]]; [lia|].
  assert (ps_current_round_usdc_spent (w_state w) = 0) as Hsp.
  { apply round_cap_ok in Hcap as (_ & ? & _ & ? & _). rewrite Hw0 in Hs1. unfold_range. nia. }
  pose proof (inv_usdc _ _ Hi). pose proof (inv_waln _ _ Hi).
  constructor; cbn; try lia; [|by eapply vaults_state; [|apply Hi]|apply Hi].
  assert (records (write_active (map unlocked (records (w_pool w))) (w_pool w))
          = map unlocked (records (w_pool w))) as Hrw by (by apply records_write_active).
  constructor; rewrite ?Hrw; cbn; try done.
  - by apply write_active_wf.
  - by apply Hrec'.
  - by rewrite Hk.
  - rewrite Hl. unfold lobby_usdc. rewrite Hz, Hs. lia.
  - left. by repeat split.
Qed.

(** What the refund does to the chain. *)
Lemma refund_vaults a w w' r :
  inv_at short w -> remove_spec a w w' r -> ri_investor a <> contract_state_address ->
  vaults (w_state w) (w_chain w')
  /\ at_least (w_chain w) (w_chain w') usdc_vault_address (- Z.max 0 (ir_usdc_deposited r))
  /\ at_least (w_chain w) (w_chain w') waln_vault_address 0.
Proof.
  intros Hi Hs Hne. destruct Hs as [_ Hmint Hvault (x & Hx & Hox) _ _ Hrf Hnrf _ _ _].
  unfold at_least. destruct (decide (0 < ir_usdc_deposited r)) as [Hpos|Hz].
  - destruct (Hrf Hpos) as (seeds & prog & auth & dec & Htr).
    rewrite Hmint, Hvault in Htr. rewrite <- vault_mint_usdc in Htr.
    destruct (vault_debit _ _ _ _ _ _ _ _ _ _ _ _ (inv_vaults _ _ Hi) is_vault_usdc Hx ltac:(congruence) Htr)
      as [Hv Hat].
    pose proof (Hat _ is_vault_usdc) as A1. pose proof (Hat _ is_vault_waln) as A2. unfold at_least in *.
    rewrite decide_True in A1 by done.
    rewrite decide_False in A2 by (intros E; by apply vault_addresses_ne). split; [done|]. lia.
  - rewrite Hnrf by lia. split; [apply Hi|lia].
Qed.

Lemma remove_investor_from_pool_inv a w w' :
  inv_at short w -> remove_investor_from_pool a w = Ok w' -> inv_at short w'.
Proof.
  intros Hi (r & Hs)%remove_investor_ok. destruct (rm_found _ _ _ _ Hs) as (i & Hf).
  destruct (found_record _ _ _ _ Hi Hf) as (Hk & Hne & (Hrd & _ & _) & _).
  destruct (refund_vaults _ _ _ _ Hi Hs Hne) as (Hv & Hu & Hw). unfold at_least in *.
  destruct Hs as [_ _ _ _ _ [_ Hlk] _ _ Hst Hpl Hb].
  destruct (inv_pool _ _ Hi) as [Hwf Hrec Hkeys Hl Hmax Hph Hpr Hrc Hd Hwr].
  destruct (remove_slot_spec _ Hwf _ _ _ Hf) as (p' & Hrm & Hwf' & _ & Hperm & _).
  assert (p' = w_pool w') as -> by congruence.
  pose proof (inv_usdc _ _ Hi). pose proof (inv_waln _ _ Hi).
  assert (Z.max 0 (ir_usdc_deposited r) = ir_usdc_deposited r) as Hmaxd by (unfold_range; lia).
  constructor; rewrite ?Hst, ?Hb; cbn; try lia; [|by eapply vaults_state; [|exact Hv]|apply Hi].
  rewrite Hperm in Hrec, Hkeys. apply Forall_cons in Hrec as [_ Hrec].
  constructor; cbn; try done.
  - set_solver.
  - rewrite Hmaxd, Hl. unfold lobby_usdc. rewrite Hperm, !sumZ_cons. lia.
  - unfold_range. lia.
  - eapply resting_same; [done| |exact Hph]. unfold total_locked. rewrite Hperm, sumZ_cons. lia.
Qed.
End CancelInv.

(** ** AAT NFTs *)

Section AatInv.
Context `{RuntimeLaws} {short : Z}.

Lemma invoke_keeps seeds i c c' :
  Forall (fun s : Seeds => head s <> Some CONTRACT_STATE_SEED) seeds ->
  invoke seeds i c = Ok c' -> keeps c c'.
Proof.
  intros Hs Hi. eapply unsigned_keeps; [|exact Hi]. clear Hi.
  induction Hs; auto using not_signed_nil, not_signed_cons.
Qed.

Lemma create_nft_mint_keeps a c c' : create_nft_mint a c = Ok c' -> keeps c c'.
Proof.
  unfold create_nft_mint. intros Hx. apply bind_ok in Hx as (c1 & H1 & Hx).
  apply bind_ok in Hx as (c2 & H2 & Hx). transitivity c1; [|transitivity c2].
  - case_decide; [|by simplify_eq]. eapply invoke_keeps; [|exact H1]. constructor.
  - eapply invoke_keeps; [|exact H2]. by repeat constructor.
  - eapply invoke_keeps; [|exact Hx]. by repeat constructor.
Qed.

Lemma nft_invocations_keeps a v c c' :
  foldM (fun c (i : list Seeds * Cpi) => invoke i.1 i.2 c) c (nft_invocations a v) = Ok c' -> keeps c c'.
Proof.
  assert (Forall (fun i : list Seeds * Cpi =>
    Forall (fun s : Seeds => head s <> Some CONTRACT_STATE_SEED) i.1) (nft_invocations a v)) as Hall
    by (by repeat constructor).
  revert c. induction Hall as [|i l Hi _ IH]; intros c Hx; [by simplify_eq/=|].
  apply bind_ok in Hx as (c1 & H2 & Hx). transitivity c1; [eapply invoke_keeps; [exact Hi|exact H2]|by apply IH].
Qed.

Lemma mint_aat_nft_inv a v w w' : inv_at short w -> mint_aat_nft a v w = Ok w' -> inv_at short w'.
Proof.
  unfold mint_aat_nft, mint_total. intros Hi Hx. inv_arith.
  match goal with |- inv_gen _ _ (?ww <| w_chain := _ |>) => assert (inv_at short ww) as Hi1 end.
  { apply state_inv; try done. apply (inv_pool _ _ Hi). }
  eapply chain_inv; [exact Hi1| |done..]. cbn.
  etrans; [by eapply create_nft_mint_keeps|by eapply nft_invocations_keeps].
Qed.

Lemma update_aat_volume_inv a v w w' :
  inv_at short w -> in_range U64 v -> update_aat_volume a v w = Ok w' -> inv_at short w'.
Proof.
  unfold update_aat_volume, update_total. intros Hi Hv Hx. inv_arith.
  match goal with H : update_pool_volume _ _ _ = Ok ?p |- _ => rename H into Hup; rename p into p' end.
  assert (pool_inv resting (w_state w) p') as Hp.
  { unfold update_pool_volume in Hup. apply bind_ok in Hup as (found & Hf & Hup).
    destruct found as [[i r]|]; [|injection Hup as <-; apply Hi].
    destruct (found_record _ _ _ _ Hi Hf) as (Hk & _ & (? & ? & ?) & _).
    eapply record_change_inv; [exact Hi|exact Hf|exact Hup|done| |done..].
    unfold record_wf. cbn. auto. }
  assert (inv_at short (w <| w_pool := p' |>)) as Hi1 by (by apply pool_change_inv).
  match goal with |- inv_gen _ _ (w <| w_state := ?s |> <| w_chain := ?c |> <| w_pool := _ |>) =>
    assert (inv_at short (w <| w_pool := p' |> <| w_state := s |>)) as Hi2 end.
  { apply state_inv; try done. apply (inv_pool _ _ Hi1). }
  eapply chain_inv; [exact Hi2| |done..]. cbn.
  eapply invoke_keeps; [|done]. by repeat constructor.
Qed.
End AatInv.

(** ** Initialization *)

Section InitInv.
Context `{RuntimeLaws} {short : Z}.

Lemma init_account_keeps payer key seeds space owner c c' :
  head seeds <> Some CONTRACT_STATE_SEED -> seeds <> [] ->
  init_account payer key seeds space owner c = Ok c' -> keeps c c'.
Proof.
  intros Hs Hne Hx. unfold init_account in Hx. destruct (find_program_address seeds ID) as [k b].
  assert (head (seeds ++ [[b]]) <> Some CONTRACT_STATE_SEED) as Hs' by (by destruct seeds).
  apply bind_ok in Hx as (u & _ & Hx). case_decide.
  - eapply invoke_keeps; [|exact Hx]. by repeat constructor.
  - apply bind_ok in Hx as (c1 & Hi1 & Hx). apply bind_ok in Hx as (c2 & Hi2 & Hx).
    transitivity c1; [|transitivity c2].
    + case_decide; [|by simplify_eq]. eapply invoke_keeps; [|exact Hi1]. constructor.
    + eapply invoke_keeps; [|exact Hi2]. by repeat constructor.
    + eapply invoke_keeps; [|exact Hx]. by repeat constructor.
Qed.

Lemma init_token_account_ok payer key seeds mint authority program c c' :
  head seeds <> Some CONTRACT_STATE_SEED -> seeds <> [] ->
  init_token_account payer key seeds mint authority program c = Ok c' ->
  keeps c c' /\ token_account c' key = Some (mkTokenAccount mint authority 0 program)
  /\ key = (find_program_address seeds ID).1.
Proof.
  intros Hs Hne Hx. unfold init_token_account in Hx. apply bind_ok in Hx as (c1 & Hi1 & Hx).
  split_and!.
  - transitivity c1; [by eapply init_account_keeps|]. eapply invoke_keeps; [|exact Hx]. constructor.
  - by eapply initialize_account_effect.
  - unfold init_account in Hi1. destruct (find_program_address seeds ID) as [k b].
    by apply bind_ok in Hi1 as (u & Hk%require_ok & _).
Qed.

Lemma initial_pool_wf : pool_wf initial_pool /\ records initial_pool = [].
Proof.
  assert (records initial_pool = []) as Hr by done. split; [|done].
  constructor; [apply length_replicate|cbn; unfold MAX_INVESTORS; lia|]. rewrite Hr. constructor.
Qed.

Lemma initialize_inv a price size period c w :
  initialize a price size period c = Ok w ->
  (forall m, mint_account (w_chain w) (in_usdc_mint a) = Some m -> mi_transfer_fee m = false) ->
  inv_at 0 w.
Proof.
  unfold initialize. intros Hx Hfee. apply bind_ok in Hx as ([[um wm] c4] & Hacc & Hx).
  unfold Initialize_accounts in Hacc. apply bind_ok in Hacc as (c1 & Hi1 & Hacc).
  apply bind_ok in Hacc as (um' & Hum & Hacc). apply bind_ok in Hacc as (wm' & Hwm & Hacc).
  apply bind_ok in Hacc as (c2 & Hi2 & Hacc). apply bind_ok in Hacc as (c3 & Hi3 & Hacc).
  apply bind_ok in Hacc as (c4' & Hi4 & Hacc). unfold load_mint in Hum, Hwm. inv_ok. cbn in Hfee.
  assert (in_contract_state a = contract_state_address) as Hcs.
  { unfold init_account in Hi1. unfold contract_state_address.
    destruct (find_program_address [CONTRACT_STATE_SEED] ID) as [k b].
    by apply bind_ok in Hi1 as (u & Hk%require_ok & _). }
  apply init_token_account_ok in Hi2 as (K2 & T2 & E2); [|done..].
  apply init_token_account_ok in Hi3 as (K3 & T3 & E3); [|done..].
  apply init_account_keeps in Hi4 as K4; [|done..]. rewrite Hcs in *.
  rewrite E2 in T2. rewrite E3 in T3. fold usdc_vault_address in T2. fold waln_vault_address in T3.
  assert (keeps c2 c4) as K24 by (by transitivity c3). assert (keeps c1 c4) as K14 by (by transitivity c2).
  destruct (keeps_tokens _ _ K24 _ _ T2 eq_refl) as (ua & HU & HUo & HUm & HUa).
  destruct (keeps_tokens _ _ K4 _ _ T3 eq_refl) as (wa & HW & HWo & HWm & HWa).
  destruct (keeps_mints _ _ K14 _ _ Hum) as (um4 & HM & _ & _).
  destruct (keeps_mints _ _ K14 _ _ Hwm) as (wm4 & HN & HNd & HNf). cbn in *.
  destruct initial_pool_wf as [Hwf Hr].
  assert (token_amount c4 usdc_vault_address = ta_amount ua) as EU by (unfold token_amount; by rewrite HU).
  assert (token_amount c4 waln_vault_address = ta_amount wa) as EW by (unfold token_amount; by rewrite HW).
  constructor; cbn.
  - constructor; cbn; rewrite ?Hr; try done; [apply not_elem_of_nil|left; by repeat split].
  - constructor; cbn.
    + intros k [->| ->]; [rewrite vault_mint_usdc|rewrite vault_mint_waln]; eauto.
    + intros k [->| ->]; [rewrite vault_mint_usdc|rewrite vault_mint_waln]; cbn.
      * eauto.
      * exists wm4. split; [done|]. congruence.
    + exists wm4. done.
  - intros k b Hb. by rewrite lookup_empty in Hb.
  - lia.
  - unfold reserved. rewrite sumM_empty. lia.
Qed.
End InitInv.
