(* ===== verification/System.v ===== *)
(** * The whole program: [lib.rs]

    [Instruction] lists the entry points of the program with their accounts and
    arguments, [dispatch] runs one.  [step] is a transition of the chain seen from the
    program: a successful instruction, or anything the rest of the chain does that takes
    nothing from the contract.  A failed instruction has no effect.  [reachable] worlds
    are those a run from [initialize] can produce; they all satisfy the invariant. *)
From coqutil Require Import Datatypes.RecordSettersUsingExistingGetters.
From stdpp Require Import base gmap strings numbers list.
From S2P Require Import Prelude.
From S2P Require Import State.
From S2P Require Import Pool.
From S2P Require Import Runtime.
From S2P Require Import Sandbox.
From S2P Require Import Vaults.
From S2P Require Import Utils.
From S2P Require Import RoundStart.
From S2P Require Import Settlement.
From S2P Require Import AllocBook.
From S2P Require Import RoundAccounts.
From S2P Require Import Lobby.
From S2P Require Import Sell.
From S2P Require Import CloseRound.
From S2P Require Import Claim.
From S2P Require Import Admin.
From S2P Require Import Aat.
From S2P Require Import Init.
From S2P Require Import Invariant.
#[local] Open Scope Z_scope.

Inductive Instruction :=
| SetFloorPrice (a : AdminOnly) (new_price_usdc : Z)
| SetRoundSize (a : AdminOnly) (new_round_size_waln : Z)
| SetLockPeriod (a : AdminOnly) (new_lock_period : Z)
| SetUsdcWithdrawLock (a : AdminOnly) (new_lock_seconds : Z)
| SetInvestorUsdcUnlockIx (a : SetInvestorUsdcUnlock) (investor : Pubkey) (new_unlock_ts : Z)
| SetSellPaused (a : AdminOnly) (paused : bool)
| SetFrozen (a : AdminOnly) (frozen : bool)
| CancelRoundIx (a : CancelRound)
| RemoveInvestorIx (a : RemoveInvestorFromPool)
| CloseRoundIx (a : CloseRound)
| FundTreasuryIx (a : Treasury) (amount : Z)
| WithdrawTreasuryIx (a : Treasury) (amount : Z)
| DepositUsdcIx (a : DepositUsdc) (usdc_amount : Z)
| WithdrawUsdcIx (a : WithdrawUsdc) (amount : Z)
| SellWalnIx (a : SellWaln) (max_waln_amount : Z)
| ClaimWalnIx (a : ClaimWaln) (round_index : Z)
| MintAatNftIx (a : MintAatNft) (aat_volume : Z)
| UpdateAatVolumeIx (a : UpdateAatVolume) (new_volume : Z)
| TransferAuthorityIx (a : TransferAuthority)
| AcceptAuthorityIx (a : AcceptAuthority)
| CloseRoundRecordIx (a : CloseRoundRecord) (round_index : Z).

(** The account whose signature an instruction carries. *)
Definition signer (i : Instruction) : Pubkey :=
  match i with
  | SetFloorPrice a _ | SetRoundSize a _ | SetLockPeriod a _ | SetUsdcWithdrawLock a _
  | SetSellPaused a _ | SetFrozen a _ => ao_admin a
  | SetInvestorUsdcUnlockIx a _ _ => su_admin a
  | CancelRoundIx a => ca_admin a
  | RemoveInvestorIx a => ri_admin a
  | CloseRoundIx a => cr_admin a
  | FundTreasuryIx a _ | WithdrawTreasuryIx a _ => tr_admin a
  | DepositUsdcIx a _ => du_investor a
  | WithdrawUsdcIx a _ => wu_investor a
  | SellWalnIx a _ => sw_seller a
  | ClaimWalnIx a _ => cw_investor a
  | MintAatNftIx a _ => mn_admin a
  | UpdateAatVolumeIx a _ => uv_admin a
  | TransferAuthorityIx a => ta_admin a
  | AcceptAuthorityIx a => aa_pending_admin a
  | CloseRoundRecordIx a _ => crr_admin a
  end.

(** The arguments as the instruction data encodes them: [u64] and [i64]. *)
Definition numbers_ok (i : Instruction) : Prop :=
  match i with
  | SetFloorPrice _ n | SetRoundSize _ n | FundTreasuryIx _ n | WithdrawTreasuryIx _ n
  | DepositUsdcIx _ n | WithdrawUsdcIx _ n | SellWalnIx _ n | ClaimWalnIx _ n
  | MintAatNftIx _ n | UpdateAatVolumeIx _ n | CloseRoundRecordIx _ n => in_range U64 n
  | SetLockPeriod _ n | SetUsdcWithdrawLock _ n | SetInvestorUsdcUnlockIx _ _ n => in_range I64 n
  | _ => True
  end.

(** An instruction as the runtime hands it to the program: its arguments are of their
    types, and the accounts it names are keys. *)
Definition arguments_ok (i : Instruction) : Prop :=
  numbers_ok i /\ is_pubkey (signer i)
  /\ match i with TransferAuthorityIx a => is_pubkey (ta_new_admin a) | _ => True end.

(** The same for [initialize]; [c] is the chain its mints are read from. *)
Record initialize_ok `{Runtime} (a : Initialize) (price size period : Z) (c : Chain) : Prop := {
  io_price : in_range U64 price;
  io_size : in_range U64 size;
  io_period : in_range I64 period;
  io_admin : is_pubkey (in_admin a);
  io_usdc_mint : is_pubkey (in_usdc_mint a);
  io_waln_mint : is_pubkey (in_waln_mint a);
  io_usdc_vault : is_pubkey (in_usdc_vault a);
  io_waln_vault : is_pubkey (in_waln_vault a);
  io_decimals k m : mint_account c k = Some m -> in_range U8 (mi_decimals m);
}.

Section System.
Context `{Runtime}.

Definition dispatch (now : Z) (i : Instruction) (w : World) : R World :=
  match i with
  | SetFloorPrice a n => set_floor_price a n w
  | SetRoundSize a n => set_round_size a n w
  | SetLockPeriod a n => set_lock_period a n w
  | SetUsdcWithdrawLock a n => set_usdc_withdraw_lock a n w
  | SetInvestorUsdcUnlockIx a k ts => set_investor_usdc_unlock a k ts w
  | SetSellPaused a b => set_sell_paused a b w
  | SetFrozen a b => set_frozen a b w
  | CancelRoundIx a => cancel_round a w
  | RemoveInvestorIx a => remove_investor_from_pool a w
  | CloseRoundIx a => close_round now a w
  | FundTreasuryIx a n => fund_treasury a n w
  | WithdrawTreasuryIx a n => withdraw_treasury a n w
  | DepositUsdcIx a n => deposit_usdc now a n w
  | WithdrawUsdcIx a n => withdraw_usdc now a n w
  | SellWalnIx a n => sell_waln now a n w
  | ClaimWalnIx a n => claim_waln now a n w
  | MintAatNftIx a n => mint_aat_nft a n w
  | UpdateAatVolumeIx a n => update_aat_volume a n w
  | TransferAuthorityIx a => transfer_authority a w
  | AcceptAuthorityIx a => accept_authority a w
  | CloseRoundRecordIx a n => close_round_record a n w
  end.

(** A program-derived address has no private key, so the contract's address is never
    the signer of an instruction. *)
Inductive step (w : World) : World -> Prop :=
| step_instruction now i w' :
    in_range I64 now -> signer i <> contract_state_address -> arguments_ok i ->
    dispatch now i w = Ok w' -> step w w'
| step_other c : keeps (w_chain w) c -> step w (w <| w_chain := c |>).

Inductive reachable : World -> Prop :=
| reach_initialize a price size period c w :
    initialize_ok a price size period (w_chain w) ->
    initialize a price size period c = Ok w ->
    (forall m, mint_account (w_chain w) (in_usdc_mint a) = Some m -> mi_transfer_fee m = false) ->
    reachable w
| reach_step w w' : reachable w -> step w w' -> reachable w'.

(** Did the instruction fill a round? *)
Definition filled (i : Instruction) (w w' : World) : bool :=
  match i with
  | SellWalnIx _ _ => bool_decide (ps_round_count (w_state w') <> ps_round_count (w_state w))
  | _ => false
  end.

(** The cap of the round the instruction filled, if it filled one. *)
Definition filled_caps (i : Instruction) (w w' : World) : list Z :=
  if filled i w w' then [effective_value (w_state w)] else [].

(** The runs with the caps of the rounds that were filled, the latest first. *)
Inductive history : list Z -> World -> Prop :=
| hist_initialize a price size period c w :
    initialize_ok a price size period (w_chain w) ->
    initialize a price size period c = Ok w ->
    (forall m, mint_account (w_chain w) (in_usdc_mint a) = Some m -> mi_transfer_fee m = false) ->
    history [] w
| hist_instruction caps now i w w' :
    history caps w -> in_range I64 now -> signer i <> contract_state_address -> arguments_ok i ->
    dispatch now i w = Ok w' -> history (filled_caps i w w' ++ caps) w'
| hist_other caps w c : history caps w -> keeps (w_chain w) c -> history caps (w <| w_chain := c |>).
End System.

Section Reachable.
Context `{RuntimeLaws}.

(** What an instruction makes the vault short of: a sale that fills its round pays up to
    the cap for locks that may be below it. *)
Lemma dispatch_inv_at short now i w w' :
  signer i <> contract_state_address -> arguments_ok i ->
  inv_at short w -> dispatch now i w = Ok w' -> inv_at (short + sumZ max_gap (filled_caps i w w')) w'.
Proof.
  intros Hs [Ha _] Hi Hx.
  destruct (filled i w w') eqn:Hf.
  { destruct i; try discriminate Hf. cbn in Hs, Hx. unfold filled_caps. rewrite Hf. apply bool_decide_eq_true in Hf.
    destruct (sell_waln_inv _ _ _ _ _ Hi Hs Hx) as [[_ Hrc]|[Hi' _]]; [done|].
    by rewrite sumZ_cons, sumZ_nil, Z.add_0_r. }
  unfold filled_caps. rewrite Hf, sumZ_nil, Z.add_0_r.
  destruct i; cbn in Hs, Ha, Hx.
  - exact (set_floor_price_inv _ _ _ _ Hi Hx).
  - exact (set_round_size_inv _ _ _ _ Hi Hx).
  - exact (set_lock_period_inv _ _ _ _ Hi Hx).
  - exact (set_usdc_withdraw_lock_inv _ _ _ _ Hi Hx).
  - exact (set_investor_usdc_unlock_inv _ _ _ _ _ Hi Hx).
  - exact (set_sell_paused_inv _ _ _ _ Hi Hx).
  - exact (set_frozen_inv _ _ _ _ Hi Hx).
  - exact (cancel_round_inv _ _ _ Hi Hx).
  - exact (remove_investor_from_pool_inv _ _ _ Hi Hx).
  - exact (close_round_inv _ _ _ _ Hi Hx).
  - exact (fund_treasury_inv _ _ _ _ Hi Hx).
  - exact (withdraw_treasury_inv _ _ _ _ Hi Hx).
  - exact (deposit_usdc_inv _ _ _ _ _ Hi Hs Hx).
  - exact (withdraw_usdc_inv _ _ _ _ _ Hi Hs Hx).
  - destruct (sell_waln_inv _ _ _ _ _ Hi Hs Hx) as [[Hi' _]|[_ Hrc]]; [done|].
    apply bool_decide_eq_false in Hf. lia.
  - exact (claim_waln_inv _ _ _ _ _ Hi Hs Hx).
  - exact (mint_aat_nft_inv _ _ _ _ Hi Hx).
  - exact (update_aat_volume_inv _ _ _ _ Hi Ha Hx).
  - exact (transfer_authority_inv _ _ _ Hi Hx).
  - exact (accept_authority_inv _ _ _ Hi Hx).
  - exact (close_round_record_inv _ _ _ _ Hi Hx).
Qed.

Lemma dispatch_inv now i w w' :
  signer i <> contract_state_address -> arguments_ok i ->
  inv w -> dispatch now i w = Ok w' -> inv w'.
Proof. intros Hs Ha Hi Hx. eapply inv_weaken. by eapply dispatch_inv_at. Qed.

Lemma step_inv w w' : inv w -> step w w' -> inv w'.
Proof.
  intros Hi [now i w1 _ Hs Ha Hx|c Hk]; [by eapply dispatch_inv|].
  by eapply chain_inv; [exact Hi|exact Hk|..].
Qed.

Lemma reachable_inv w : reachable w -> inv w.
Proof. induction 1; [by eapply inv_weaken, initialize_inv|by eapply step_inv]. Qed.

(** A history is a run with its full rounds. *)
Lemma history_reachable caps w : history caps w -> reachable w.
Proof.
  induction 1 as [|caps now i w w' _ IH Hn Hs Ha Hx|caps w c _ IH Hc]; [by eapply reach_initialize|..].
  - eapply reach_step; [exact IH|]. by eapply step_instruction.
  - eapply reach_step; [exact IH|]. by constructor.
Qed.

Lemma reachable_history w : reachable w -> exists caps, history caps w.
Proof.
  induction 1 as [|w w' _ [caps IH] Hs]; [eexists; by eapply hist_initialize|].
  destruct Hs as [now i w' Hn Hs Ha Hx|c Hc]; eexists; [by eapply hist_instruction|by apply hist_other].
Qed.

Lemma history_inv caps w : history caps w -> inv_at (sumZ max_gap caps) w.
Proof.
  induction 1 as [|caps now i w w' _ IH Hn Hs Ha Hx|caps w c _ IH Hc]; [by eapply initialize_inv|..].
  - rewrite sumZ_app, Z.add_comm. by eapply dispatch_inv_at.
  - by eapply chain_inv; [exact IH|exact Hc|..].
Qed.
End Reachable.
