(* ===== verification/Scenario.v ===== *)
(** * Concrete runs

    A run of the program on the concrete runtime of [Sandbox.v], from [initialize] to a
    settled round: three investors get AAT NFTs and deposit, the treasury is funded and a
    seller fills the first round.  The worlds along the run are reachable; they are the
    concrete inputs the theorems about reachable worlds are applied to. *)
From coqutil Require Import Datatypes.RecordSettersUsingExistingGetters.
From stdpp Require Import base gmap strings numbers list.
From S2P Require Import Prelude.
From S2P Require Import State.
From S2P Require Import Pool.
From S2P Require Import Runtime.
From S2P Require Import Sandbox.
From S2P Require Import Utils.
From S2P Require Import Lobby.
From S2P Require Import Sell.
From S2P Require Import CloseRound.
From S2P Require Import Claim.
From S2P Require Import Admin.
From S2P Require Import Aat.
From S2P Require Import Init.
From S2P Require Import System.
#[local] Open Scope Z_scope.

(** ** The cast *)

Definition admin_key : Pubkey := key_of 1.
Definition seller_key : Pubkey := key_of 30.
Definition investor_key (n : Z) : Pubkey := key_of (20 + n).
Definition investor_usdc (n : Z) : Pubkey := key_of (40 + n).
Definition seller_waln : Pubkey := key_of 50.
Definition seller_usdc : Pubkey := key_of 51.
Definition usdc_mint_key : Pubkey := key_of 10.
Definition waln_mint_key : Pubkey := key_of 11.
Definition program_data_key : Pubkey := key_of 60.

Definition usdc_account (owner : Pubkey) (amount : Z) : TokenAccount :=
  mkTokenAccount usdc_mint_key owner amount sandbox_token_id.

Definition chain0 : SandboxChain := {|
  sb_tokens := list_to_map
    [(investor_usdc 1, usdc_account (investor_key 1) 50000000);
     (investor_usdc 2, usdc_account (investor_key 2) 50000000);
     (investor_usdc 3, usdc_account (investor_key 3) 50000000);
     (seller_waln, mkTokenAccount waln_mint_key seller_key 5000000000 sandbox_token_2022_id);
     (seller_usdc, usdc_account seller_key 0)];
  sb_mints := list_to_map
    [(usdc_mint_key, mkMint 6 None false None); (waln_mint_key, mkMint 9 None false None)];
  sb_lamports := {[ admin_key := 1000000000000; investor_key 1 := 1000000000 ]};
  sb_owners := ∅;
  sb_data := ∅;
  sb_programdata := Some program_data_key;
  sb_upgrade_authority := Some admin_key;
|}.

(** ** The instructions *)

Definition init_accounts : Initialize :=
  mkInitialize admin_key contract_state_address usdc_mint_key waln_mint_key usdc_vault_address
    waln_vault_address investor_pool_address system_program_id token_id token_2022_id ID
    program_data_key.

Definition mint_for (n volume : Z) : Instruction :=
  let mint := aat_nft_address (investor_key n) in
  MintAatNftIx (mkMintAatNft admin_key mint contract_state_address (investor_key n)
    (associated_token_address (investor_key n) mint token_2022_id)
    (find_program_address [NFT_AUTHORITY_SEED] ID).1 system_program_id token_2022_id
    associated_token_program_id) volume.

Definition deposit_for (n amount : Z) : Instruction :=
  let mint := aat_nft_address (investor_key n) in
  DepositUsdcIx (mkDepositUsdc (investor_key n) contract_state_address investor_pool_address
    usdc_mint_key (investor_usdc n) usdc_vault_address mint
    (associated_token_address (investor_key n) mint token_2022_id) token_2022_id token_id
    system_program_id) amount.

Definition withdraw_for (n amount : Z) : Instruction :=
  WithdrawUsdcIx (mkWithdrawUsdc (investor_key n) contract_state_address investor_pool_address
    usdc_mint_key (investor_usdc n) usdc_vault_address token_id) amount.

Definition fund (amount : Z) : Instruction :=
  FundTreasuryIx (mkTreasury admin_key contract_state_address treasury_address system_program_id) amount.

Definition sell (round amount : Z) : Instruction :=
  SellWalnIx (mkSellWaln seller_key contract_state_address investor_pool_address waln_mint_key
    usdc_mint_key seller_waln seller_usdc waln_vault_address usdc_vault_address treasury_address
    token_2022_id token_id system_program_id
    [round_record_address round; round_locked_waln_address round]) amount.

Definition claim_for (n round : Z) : Instruction :=
  ClaimWalnIx (mkClaimWaln (investor_key n) contract_state_address (round_locked_waln_address round)
    treasury_address waln_mint_key
    (associated_token_address (investor_key n) waln_mint_key token_2022_id) waln_vault_address
    token_2022_id associated_token_program_id system_program_id []) round.

Definition close (round : Z) : Instruction :=
  CloseRoundIx (mkCloseRound admin_key contract_state_address investor_pool_address
    treasury_address system_program_id
    [round_record_address round; round_locked_waln_address round]).

(** ** Runs *)

Definition run (now : Z) (w : World) (ixs : list Instruction) : R World :=
  foldM (fun w i => dispatch now i w) w ixs.

(** A round of one wALN at 5.000003 USDC. *)
Definition world0 : R World := initialize init_accounts 5000003 1000000000 100 chain0.

Definition setup : list Instruction :=
  [mint_for 1 1; mint_for 2 1; mint_for 3 1; fund 100000000000;
   deposit_for 1 2500001; deposit_for 2 2500001; deposit_for 3 1000000].

Definition update_for (n volume : Z) : Instruction :=
  UpdateAatVolumeIx (mkUpdateAatVolume admin_key contract_state_address investor_pool_address
    (investor_key n) (aat_nft_address (investor_key n))
    (find_program_address [NFT_AUTHORITY_SEED] ID).1 token_2022_id system_program_id) volume.

Definition remove_for (n : Z) : Instruction :=
  RemoveInvestorIx (mkRemoveInvestorFromPool admin_key contract_state_address investor_pool_address
    (investor_key n) usdc_mint_key (investor_usdc n) usdc_vault_address token_id).

Definition cancel : CancelRound :=
  mkCancelRound admin_key contract_state_address investor_pool_address.

Definition set_size (size : Z) : Instruction :=
  SetRoundSize (mkAdminOnly admin_key contract_state_address) size.

Definition set_price (price : Z) : Instruction :=
  SetFloorPrice (mkAdminOnly admin_key contract_state_address) price.

(** Rounds of three wALN, and a sale that fills a third of the first. *)
Definition partial_round : list Instruction :=
  [mint_for 1 1; mint_for 2 2; fund 100000000000; set_size 3000000000;
   deposit_for 1 20000000; deposit_for 2 20000000; sell 0 1000000000].

Definition sample_now : Z := 1700000000.

Definition after (ixs : list Instruction) : R World := w ← world0; run sample_now w ixs.

(** Reading a field of the world a run ends in. *)
Definition field {A} (f : World -> A) (r : R World) : option A :=
  match r with Ok w => Some (f w) | Err _ => None end.

Definition err_of {A} (r : R A) : option Error := match r with Ok _ => None | Err e => Some e end.

Lemma field_ok {A} (f : World -> A) r w a : r = Ok w -> field f r = Some a -> f w = a.
Proof. intros ->. cbn. congruence. Qed.

(** A run that succeeds, cut in two. *)
Lemma after_app ixs1 ixs2 :
  err_of (after (ixs1 ++ ixs2)) = None ->
  exists w w', after ixs1 = Ok w /\ run sample_now w ixs2 = Ok w' /\ after (ixs1 ++ ixs2) = Ok w'.
Proof.
  unfold after. destruct world0 as [w0|e]; [|done]. cbn. unfold run.
  revert w0. induction ixs1 as [|j ixs IH]; intros w0; cbn.
  - destruct (foldM _ w0 ixs2) as [w'|e] eqn:Hx; [|done]. eauto.
  - destruct (dispatch sample_now j w0) as [w1|e]; [|done]. cbn. apply IH.
Qed.

Lemma after_snoc ixs i :
  err_of (after (ixs ++ [i])) = None ->
  exists w w', after ixs = Ok w /\ dispatch sample_now i w = Ok w' /\ after (ixs ++ [i]) = Ok w'.
Proof.
  intros (w & w' & Hw & Hx & Hw')%after_app. exists w, w'. split_and!; [done| |done].
  apply bind_ok in Hx as (w1 & Hx & Hr). injection Hr as <-. done.
Qed.

(** Runs of the cast stay within the reachable worlds. *)
Definition well_formed (i : Instruction) : Prop :=
  signer i <> contract_state_address /\ arguments_ok i.
#[export] Instance well_formed_dec i : Decision (well_formed i).
Proof. unfold well_formed, arguments_ok, numbers_ok. destruct i; apply _. Defined.

Lemma world0_ok w :
  world0 = Ok w ->
  initialize_ok init_accounts 5000003 1000000000 100 (w_chain w)
  /\ forall m, mint_account (w_chain w) usdc_mint_key = Some m -> mi_transfer_fee m = false.
Proof.
  intros Hw. split.
  - assert (field (fun w => sb_mints (w_chain w)) world0 = Some (sb_mints chain0)) as Hf
      by (vm_compute; reflexivity).
    apply (field_ok _ _ _ _ Hw) in Hf. split; try (by_decide). cbn. rewrite Hf.
    intros k m Hm. revert k m Hm. by_decide.
  - intros m Hm. assert (field (fun w => mi_transfer_fee <$> mint_account (w_chain w) usdc_mint_key) world0
      = Some (Some false)) as Hf by (vm_compute; reflexivity).
    apply (field_ok _ _ _ _ Hw) in Hf. cbn in *. rewrite Hm in Hf. by injection Hf.
Qed.

Lemma world0_history w : world0 = Ok w -> history [] w.
Proof. intros Hw. destruct (world0_ok w Hw) as [Hok Hfee]. by eapply hist_initialize. Qed.

(** The caps of the rounds a run fills. *)
Fixpoint caps_of (now : Z) (w : World) (ixs : list Instruction) : list Z :=
  match ixs with
  | [] => []
  | i :: ixs =>
      match dispatch now i w with
      | Ok w' => caps_of now w' ixs ++ filled_caps i w w'
      | Err _ => []
      end
  end.

Lemma run_history now w w' caps ixs :
  in_range I64 now -> Forall well_formed ixs -> history caps w -> run now w ixs = Ok w' ->
  history (caps_of now w ixs ++ caps) w'.
Proof.
  intros Hn Hall. revert w caps. unfold run.
  induction Hall as [|i ixs [Hs Ha] _ IH]; intros w caps Hw Hx.
  - by injection Hx as <-.
  - apply bind_ok in Hx as (w1 & Hx1 & Hx). cbn [caps_of]. rewrite Hx1, <- (assoc_L (++)).
    apply IH; [|done]. by apply (hist_instruction _ now i w).
Qed.

Lemma sample_now_range : in_range I64 sample_now.
Proof. by_decide. Qed.

Definition after_caps (ixs : list Instruction) : R (list Z) :=
  w ← world0; Ok (caps_of sample_now w ixs).

Lemma after_history ixs w caps :
  Forall well_formed ixs -> after ixs = Ok w -> after_caps ixs = Ok caps -> history caps w.
Proof.
  unfold after, after_caps. intros Hall Hx Hc. apply bind_ok in Hx as (w0 & Hw0 & Hx).
  rewrite Hw0 in Hc. injection Hc as <-. rewrite <- (app_nil_r (caps_of _ _ _)).
  exact (run_history _ _ _ _ _ sample_now_range Hall (world0_history _ Hw0) Hx).
Qed.

Lemma after_reachable ixs w : Forall well_formed ixs -> after ixs = Ok w -> reachable w.
Proof.
  intros Hall Hx. unfold after in Hx. apply bind_ok in Hx as (w0 & Hw0%world0_history & Hx).
  apply (history_reachable _ _ (run_history _ _ _ _ _ sample_now_range Hall Hw0 Hx)).
Qed.

(** ** Concrete worlds *)

(** A world of a concrete run, with what the theorems ask of it. *)
Lemma run_world ixs :
  err_of (after ixs) = None -> bool_decide (Forall well_formed ixs) = true ->
  exists w, after ixs = Ok w /\ reachable w.
Proof.
  intros He Hwf%bool_decide_eq_true. destruct (after ixs) as [w|e] eqn:Hw; [|done].
  exists w. split; [done|]. by eapply after_reachable.
Qed.

Lemma sold_world : exists w, after (setup ++ [sell 0 1000000000]) = Ok w /\ reachable w.
Proof. apply run_world; vm_compute; reflexivity. Qed.

Lemma setup_world : exists w, after setup = Ok w /\ reachable w.
Proof. apply run_world; vm_compute; reflexivity. Qed.

Lemma partial_world : exists w, after partial_round = Ok w /\ reachable w.
Proof. apply run_world; vm_compute; reflexivity. Qed.

Lemma after_ok ixs w :
  after ixs = Ok w -> bool_decide (Forall well_formed ixs) = true -> reachable w.
Proof. intros Hw Hwf%bool_decide_eq_true. by eapply after_reachable. Qed.

(** A computation that does not fail gives a value. *)
Lemma err_of_None {A} (r : R A) : err_of r = None -> exists a, r = Ok a.
Proof. destruct r; [eauto|done]. Qed.
