(* ===== verification/Typed.v ===== *)
(** * Every field stays of its type

    The definitions compute with mathematical integers; the theorem of this file is that
    in every reachable world each field of every account of the program is a value of
    its Rust type: [u64], [i64], [u32], [u8] or a key of 32 bytes.  So the accounts have
    bytes ([Layout.v]), and reading them gives back what the program wrote. *)
From coqutil Require Import Datatypes.RecordSettersUsingExistingGetters.
From stdpp Require Import base gmap strings numbers list.
From S2P Require Import Prelude.
From S2P Require Import State.
From S2P Require Import Layout.
From S2P Require Import Pool.
From S2P Require Import Runtime.
From S2P Require Import Sandbox.
From S2P Require Import Vaults.
From S2P Require Import Utils.
From S2P Require Import RoundStart.
From S2P Require Import Settlement.
From S2P Require Import AllocBook.
From S2P Require Import RoundAccounts.
From S2P Require Import Lobby.
From S2P Require Import Sell.
From S2P Require Import CloseRound.
From S2P Require Import Claim.
From S2P Require Import Admin.
From S2P Require Import Aat.
From S2P Require Import Init.
From S2P Require Import Invariant.
From S2P Require Import System.
From S2P Require Import Scenario.
#[local] Open Scope Z_scope.

Lemma default_is_pubkey : is_pubkey default_pubkey.
Proof. by_decide. Qed.

(** [typed] closes a goal on the fields of an account from the ones of the account it
    was made from and the checks of the computation. *)
Ltac typed_hyps :=
  repeat match goal with
  | H : c_ok program_state _ |- _ => cbn [program_state struct pair c_ok fst snd] in H; destruct_and! H
  | H : c_ok investor_record _ |- _ => cbn [investor_record struct pair c_ok fst snd] in H; destruct_and! H
  end.
Ltac typed := typed_hyps; cbn; split_and!; first [assumption|exact default_is_pubkey|unfold_range; lia].

(** ** Records *)

Lemma as_u64_typed z : in_range U64 (as_unsigned U64 z).
Proof. unfold as_unsigned. pose proof (Z.mod_pos_bound z (int_max U64 + 1)). unfold_range. lia. Qed.

Lemma as_u32_typed z : in_range U32 (as_unsigned U32 z).
Proof. unfold as_unsigned. pose proof (Z.mod_pos_bound z (int_max U32 + 1)). unfold_range. lia. Qed.

Lemma empty_record_typed k : is_pubkey k -> record_typed (empty_record k).
Proof. intros Hk. typed. Qed.

Notation candidate_typed := (fun c : candidate => record_typed c.1).

Lemma recheck_typed cap total b c b' c' :
  candidate_typed c -> recheck cap total b c = Ok (b', c') -> candidate_typed c'.
Proof.
  unfold recheck. intros Hc Hx. destruct (negb c.2); [by inv_ok|].
  apply bind_ok in Hx as (req & _ & Hx). case_decide; by inv_ok.
Qed.

Lemma eligibility_loop_typed fuel cap l total l' :
  Forall candidate_typed l -> eligibility_loop fuel cap l = Ok (total, l') -> Forall candidate_typed l'.
Proof.
  revert l. induction fuel as [|fuel IH]; intros l Hl; cbn; [done|]. intros Hx.
  apply bind_ok in Hx as (t & _ & Hx). apply bind_ok in Hx as (u & _ & Hx).
  apply bind_ok in Hx as ([changed l1] & H1 & Hx).
  assert (Forall candidate_typed l1) as Hl1.
  { eapply (mapAccM_Forall candidate_typed); [|exact Hl|exact H1]. intros ? ? ? ?. apply recheck_typed. }
  destruct changed; [by apply (IH l1)|]. by injection Hx as <- <-.
Qed.

Lemma lock_share_typed cap total t c t' c' :
  candidate_typed c -> lock_share cap total t c = Ok (t', c') -> candidate_typed c'.
Proof.
  unfold lock_share. intros Hc Hx. destruct (negb c.2); [by inv_ok|].
  apply bind_ok in Hx as (req & _ & Hx). case_decide; [by inv_ok|]. inv_arith.
  match goal with |- context [as_unsigned U64 ?z] => pose proof (as_u64_typed z) end. typed.
Qed.

Lemma cover_gap_typed gap t l t' l' :
  Forall candidate_typed l -> cover_gap gap t l = Ok (t', l') -> Forall candidate_typed l'.
Proof.
  intros Hl. revert l'. induction Hl as [|c l Hc Hl IH]; intros l'; cbn; intros Hx; [by inv_ok|].
  destruct (c.2 && _).
  - inv_arith. constructor; [|done]. typed.
  - apply bind_ok in Hx as ([t1 l1] & H1 & Hx). injection Hx as <- <-. auto.
Qed.

Lemma cover_gap_total_typed gap t l t' l' :
  in_range U64 t -> cover_gap gap t l = Ok (t', l') -> in_range U64 t'.
Proof.
  intros Ht. revert l'. induction l as [|c l IH]; intros l'; cbn; intros Hx; [by inv_ok|].
  destruct (c.2 && _); [by inv_arith|].
  apply bind_ok in Hx as ([t1 l1] & H1 & Hx). injection Hx as <- <-. eauto.
Qed.

Lemma lock_total_typed cap total l t l' :
  mapAccM (lock_share cap total) 0 l = Ok (t, l') -> in_range U64 t.
Proof.
  apply (mapAccM_inv (fun _ t _ => in_range U64 t)); [by_decide|].
  intros pre c s ys s' c' Hs. unfold lock_share. intros Hx. destruct (negb c.2); [by inv_ok|].
  apply bind_ok in Hx as (req & _ & Hx). case_decide; by inv_arith.
Qed.

Lemma execute_round_start_typed l size price d ta tl l' :
  Forall record_typed l -> execute_round_start l size price d = Ok ((ta, tl), l') ->
  Forall record_typed l' /\ in_range U64 tl.
Proof.
  intros Hl Hx. unfold execute_round_start in Hx.
  apply bind_ok in Hx as (cap & _ & Hx). do 2 apply bind_ok in Hx as (? & _ & Hx).
  apply bind_ok in Hx as ([total l1] & H1 & Hx). apply bind_ok in Hx as ([t l2] & H2 & Hx).
  apply bind_ok in Hx as ([t' l3] & H3 & Hx). injection Hx as <- <- <-.
  apply eligibility_loop_typed in H1; [|by apply Forall_map].
  pose proof (lock_total_typed _ _ _ _ _ H2) as Ht.
  apply (mapAccM_Forall candidate_typed candidate_typed) in H2;
    [|intros ? ? ? ?; apply lock_share_typed|done].
  rewrite Forall_map. case_decide.
  - apply bind_ok in H3 as (gap & _ & H3). eauto using cover_gap_typed, cover_gap_total_typed.
  - by injection H3 as <- <-.
Qed.

(** ** Settlements *)

Definition allocation_typed (p : allocation) : Prop := is_pubkey p.1 /\ in_range U64 p.2.

Record totals_typed (t : SettleTotals) : Prop := {
  tt_spent : in_range U64 (st_usdc_spent t);
  tt_waln : in_range U64 (st_waln_purchased t);
  tt_volume : in_range U64 (st_aat_volume t);
  tt_participants : Forall allocation_typed (st_participants t);
}.

Record close_totals_typed (t : CloseTotals) : Prop := {
  ctt_spent : in_range U64 (ct_usdc_spent t);
  ctt_waln : in_range U64 (ct_waln_purchased t);
  ctt_volume : in_range U64 (ct_aat_volume t);
  ctt_participants : Forall allocation_typed (ct_participants t);
}.

Lemma settle_record_typed scale price t r t' r' :
  record_typed r -> settle_record scale price t r = Ok (t', r') -> record_typed r'.
Proof.
  unfold settle_record. intros Hr Hx. case_decide; [by inv_ok|]. inv_arith. typed.
Qed.

Lemma settle_totals_typed scale price l t l' :
  Forall record_typed l -> settle_records scale price l = Ok (t, l') -> totals_typed t.
Proof.
  unfold settle_records. intros Hl Hx. revert Hx.
  apply (mapAccM_inv_split (fun _ t _ => totals_typed t)); [split; by_decide|].
  intros pre r post s ys s' r' -> Hs Hx. apply Forall_app in Hl as [_ Hl].
  apply Forall_cons in Hl as [Hr _]. destruct Hs. unfold settle_record in Hx.
  case_decide; [by inv_ok|]. inv_arith. typed_hyps. split; cbn; [done..|].
  by apply Forall_snoc.
Qed.

Lemma distribute_dust_typed now dust t l t' l' :
  totals_typed t -> Forall record_typed l -> distribute_dust now dust t l = Ok (t', l') ->
  totals_typed t' /\ Forall record_typed l'.
Proof.
  unfold distribute_dust. intros Ht Hl Hx. case_decide; [|by inv_ok]. cbv zeta in Hx.
  set (idx := Z.to_nat _) in *. apply bind_ok in Hx as (winner & Hw%ok_or_ok & Hx).
  apply bind_ok in Hx as (amount & [-> Ha]%cadd_ok & Hx).
  apply bind_ok in Hx as (waln & [-> Hwaln]%cadd_ok & Hx). destruct Ht as [Hs Hp Hv Hparts].
  destruct (Forall_lookup_1 _ _ _ _ Hparts Hw) as [Hk _].
  assert (Forall allocation_typed (<[idx := (winner.1, winner.2 + dust)]> (st_participants t))) as Hparts'.
  { apply Forall_insert; [done|]. by split. }
  destruct (list_find _ l) as [[i r]|] eqn:Hf; [|injection Hx as <- <-; by split].
  apply bind_ok in Hx as (purchased & [-> Hpur]%cadd_ok & Hx). injection Hx as <- <-.
  split; [by split|]. apply list_find_Some in Hf as (Hi & _).
  pose proof (Forall_lookup_1 _ _ _ _ Hl Hi). apply Forall_insert; [done|]. typed.
Qed.

Lemma close_record_typed scale price W paid m t r t' r' :
  record_typed r -> close_record scale price W paid m t r = Ok (t', r') -> record_typed r'.
Proof.
  unfold close_record. intros Hr Hx. case_decide; [by inv_ok|].
  do 3 apply bind_ok in Hx as (? & _ & Hx). apply bind_ok in Hx as (? & _ & Hx).
  apply bind_ok in Hx as ([s rem] & _ & Hx). inv_arith. typed.
Qed.

Lemma close_alloc_typed scale price W paid m t r t' r' :
  close_totals_typed t -> record_typed r -> close_record scale price W paid m t r = Ok (t', r') ->
  close_totals_typed t'.
Proof.
  unfold close_record. intros [] Hr Hx. case_decide; [by inv_ok|].
  apply bind_ok in Hx as (? & _ & Hx). apply bind_ok in Hx as (full & _ & Hx).
  apply bind_ok in Hx as (alloc & Halloc & Hx). apply bind_ok in Hx as (? & _ & Hx).
  apply bind_ok in Hx as ([s rem] & _ & Hx).
  assert (in_range U64 alloc) as Ha.
  { clear Hx. case_decide; inv_arith; done. }
  clear Halloc. inv_arith. typed_hyps. split; cbn; [done..|].
  case_decide; [|done]. apply Forall_snoc. by split.
Qed.

Lemma close_records_typed scale price W paid l t l' :
  Forall record_typed l -> close_records scale price W paid l = Ok (t, l') ->
  close_totals_typed t /\ Forall record_typed l'.
Proof.
  unfold close_records. intros Hl Hx. apply bind_ok in Hx as (m & _ & Hx).
  do 5 apply bind_ok in Hx as (? & _ & Hx). apply bind_ok in Hx as ([t1 l1] & H1 & Hx). inv_ok.
  split.
  - revert H1. apply (mapAccM_inv_split (fun _ t _ => close_totals_typed t)); [split; by_decide|].
    intros pre r post s ys s' r' -> Hs. apply Forall_app in Hl as [_ Hl].
    apply Forall_cons in Hl as [Hr _]. by apply close_alloc_typed.
  - eapply (mapAccM_Forall record_typed); [|exact Hl|exact H1]. intros ? ? ? ?. apply close_record_typed.
Qed.

Lemma unlock_records_typed l l' :
  Forall record_typed l -> unlock_records l = Ok l' -> Forall record_typed l'.
Proof.
  unfold unlock_records. intros Hl Hx. apply bind_ok in Hx as ([u l1] & H1 & Hx). injection Hx as <-.
  eapply (mapAccM_Forall record_typed); [|exact Hl|exact H1]. intros s r s' r' Hr Hy.
  apply bind_ok in Hy as (r1 & Hy & Heq). injection Heq as <- <-. unfold unlock_record in Hy.
  case_decide; [by inv_ok|]. inv_arith. typed.
Qed.

(** ** The pool *)

(** The part of the pool's type the operations preserve by themselves; its length and
    count are in the invariant. *)
Record slots_typed (p : InvestorPool) : Prop := {
  sl_bump : in_range U8 (ip_bump p);
  sl_records : Forall record_typed (ip_investors p);
}.

Section Slots.
Context (p : InvestorPool) (Hp : slots_typed p).

Lemma active_typed l : active p = Ok l -> Forall record_typed l.
Proof. intros [-> _]%active_ok. apply Forall_take, Hp. Qed.

Lemma write_active_typed l : Forall record_typed l -> slots_typed (write_active l p).
Proof. intros Hl. split; [apply Hp|]. cbn. apply Forall_app. split; [done|]. apply Forall_drop, Hp. Qed.

Lemma set_slot_typed i r p' : record_typed r -> set_slot i r p = Ok p' -> slots_typed p'.
Proof. unfold set_slot. intros Hr Hx. inv_ok. split; cbn; [apply Hp|]. apply Forall_insert; [apply Hp|done]. Qed.

Lemma find_record_typed k i r : find_record k p = Ok (Some (i, r)) -> record_typed r.
Proof.
  unfold find_record. intros Hx. apply bind_ok in Hx as (l & Hl%active_typed & Hx). inv_ok.
  match goal with H : list_find _ _ = _ |- _ => apply list_find_Some in H as (Hi & _) end.
  by eapply Forall_lookup_1.
Qed.
End Slots.

Lemma push_record_typed k p i p' :
  slots_typed p -> is_pubkey k -> push_record k p = Ok (i, p') -> slots_typed p'.
Proof.
  unfold push_record. intros Hp Hk Hx. apply bind_ok in Hx as (p1 & H1 & Hx). inv_ok.
  apply set_slot_typed in H1; [|done|by apply empty_record_typed]. split; apply H1.
Qed.

Lemma remove_slot_typed k p p' : slots_typed p -> remove_slot k p = Ok p' -> slots_typed p'.
Proof.
  unfold remove_slot. intros Hp Hx. apply bind_ok in Hx as (f & _ & Hx).
  apply bind_ok in Hx as ([i r] & _ & Hx). apply bind_ok in Hx as (last & _ & Hx).
  apply bind_ok in Hx as (moved & Hm%ok_or_ok & Hx). apply bind_ok in Hx as (p1 & H1 & Hx).
  apply bind_ok in Hx as (p2 & H2 & Hx). injection Hx as <-.
  apply set_slot_typed in H1; [|done|]; [|by eapply Forall_lookup_1, Hm; apply Hp].
  apply set_slot_typed in H2; [|done|apply empty_record_typed; by_decide]. split; apply H2.
Qed.

Lemma deposit_record_typed now lock v amt r r' :
  record_typed r -> in_range U64 v -> deposit_record now lock v amt r = Ok r' -> record_typed r'.
Proof.
  unfold deposit_record. intros Hr Hv Hx. apply bind_ok in Hx as (d & [-> Hd]%cadd_ok & Hx).
  cbn in Hd. typed_hyps. cbn in *. case_decide; inv_arith; cbn; split_and!; try done. range.
Qed.

Lemma deposit_pool_typed now lock v amt k p p' :
  slots_typed p -> is_pubkey k -> in_range U64 v -> deposit_pool now lock v amt k p = Ok p' ->
  slots_typed p'.
Proof.
  unfold deposit_pool. intros Hp Hk Hv Hx. apply bind_ok in Hx as (f & Hf & Hx).
  apply bind_ok in Hx as ([[i r] p1] & H1 & Hx). apply bind_ok in Hx as (r' & Hr & Hx).
  assert (slots_typed p1 /\ record_typed r) as [Hp1 Hr1].
  { destruct f as [[i' r0]|].
    - injection H1 as <- <- <-. eauto using find_record_typed.
    - apply bind_ok in H1 as ([i' p2] & H2 & H1). injection H1 as <- <- <-.
      eauto using push_record_typed, empty_record_typed. }
  eapply set_slot_typed; [exact Hp1| |exact Hx]. by eapply deposit_record_typed.
Qed.

Lemma withdraw_pool_typed now k amt p w p' :
  slots_typed p -> withdraw_pool now k amt p = Ok (w, p') -> slots_typed p'.
Proof.
  unfold withdraw_pool. intros Hp Hx. apply bind_ok in Hx as (f & Hf & Hx).
  apply bind_ok in Hx as ([i r] & ->%ok_or_ok & Hx). apply find_record_typed in Hf; [|done].
  do 4 apply bind_ok in Hx as (? & ? & Hx). apply bind_ok in Hx as (p1 & Hset & Hx). injection Hx as _ <-.
  eapply set_slot_typed; [exact Hp| |exact Hset]. inv_arith. typed.
Qed.

(** ** Books *)

Lemma open_book_typed i b u (l : list allocation) :
  in_range U64 i -> in_range U8 b -> in_range I64 u -> (length l <= MAX_INVESTORS)%nat ->
  Forall allocation_typed l -> book_typed (open_book i b u l).
Proof.
  intros Hi Hb Hu Hlen Hl. unfold MAX_INVESTORS in Hlen. split; cbn; try done.
  - apply as_u32_typed.
  - rewrite length_map. range.
  - rewrite Forall_map. eapply Forall_impl; [exact Hl|]. done.
Qed.

Lemma sorted_typed (l : list allocation) : Forall allocation_typed l -> Forall allocation_typed (sort_by_key l).
Proof. intros Hl. by rewrite sort_by_key_perm. Qed.

Lemma claim_entry_typed now k b amt closes b' :
  book_typed b -> claim_entry now k b = Ok (amt, closes, b') -> book_typed b'.
Proof.
  unfold claim_entry. intros Hb Hx. apply bind_ok in Hx as (? & _ & Hx).
  apply bind_ok in Hx as (f & _ & Hx). apply bind_ok in Hx as (i & _ & Hx).
  apply bind_ok in Hx as (alloc & Ha%ok_or_ok & Hx). inv_arith. destruct Hb as [? ? ? ? ? Hl].
  split; cbn; try done; [by rewrite length_insert|].
  apply Forall_insert; [done|]. destruct (Forall_lookup_1 _ _ _ _ Hl Ha). split; [done|]. cbn. range.
Qed.

(** ** How many participants *)

Lemma settle_participants_length scale price l t l' :
  settle_records scale price l = Ok (t, l') -> (length (st_participants t) <= length l)%nat.
Proof.
  intros (-> & _)%settle_records_ok. cbn. rewrite length_map. apply length_filter.
Qed.

Lemma distribute_dust_length now dust t l t' l' :
  distribute_dust now dust t l = Ok (t', l') ->
  length (st_participants t') = length (st_participants t) /\ length l' = length l.
Proof.
  unfold distribute_dust. intros Hx. case_decide; [|by inv_ok]. cbv zeta in Hx.
  do 3 apply bind_ok in Hx as (? & _ & Hx). destruct (list_find _ l) as [[i r]|].
  - apply bind_ok in Hx as (? & _ & Hx). injection Hx as <- <-. cbn. by rewrite !length_insert.
  - injection Hx as <- <-. cbn. by rewrite length_insert.
Qed.

Lemma close_participants_length scale price W paid l t l' :
  close_records scale price W paid l = Ok (t, l') -> (length (ct_participants t) <= length l)%nat.
Proof.
  unfold close_records. intros Hx. apply bind_ok in Hx as (m & _ & Hx).
  do 5 apply bind_ok in Hx as (? & _ & Hx). apply bind_ok in Hx as ([t1 l1] & H1 & Hx). inv_ok.
  revert H1. apply (mapAccM_inv (fun pre t _ => length (ct_participants t) <= length pre)%nat); [done|].
  intros pre r s ys s' r' Hs. unfold close_record. intros Hx. rewrite length_app.
  case_decide; [inv_ok; lia|]. do 3 apply bind_ok in Hx as (? & _ & Hx).
  apply bind_ok in Hx as (? & _ & Hx). apply bind_ok in Hx as ([? ?] & _ & Hx).
  inv_arith. cbn. case_decide; rewrite ?length_app; cbn; lia.
Qed.

(** ** Worlds *)

Record accounts_typed `{Runtime} (w : World) : Prop := {
  at_state : state_typed (w_state w);
  at_pool : pool_typed (w_pool w);
  at_books k b : w_round_locked_waln w !! k = Some b -> book_typed b;
  at_records k r : w_round_record w !! k = Some r -> round_record_typed r;
}.

Section Worlds.
Context `{RuntimeLaws}.

Record world_typed (w : World) : Prop := {
  wt_state : state_typed (w_state w);
  wt_slots : slots_typed (w_pool w);
  wt_books k b : w_round_locked_waln w !! k = Some b -> book_typed b;
  wt_records k r : w_round_record w !! k = Some r -> round_record_typed r;
}.

Lemma accounts_typed_inv w : inv w -> world_typed w -> accounts_typed w.
Proof.
  intros Hi [Hs [Hb Hr] Hbo Hre]. destruct (pi_wf _ _ _ (inv_pool _ _ Hi)) as [Hl Hc _].
  unfold MAX_INVESTORS in *. split; try done. cbn. split_and!; try done. range.
Qed.

(** A world whose state and pool alone changed. *)
Lemma world_typed_with s p c log w :
  world_typed w -> state_typed s -> slots_typed p ->
  world_typed (w <| w_state := s |> <| w_pool := p |> <| w_chain := c |> <| w_log := log |>).
Proof. intros [] Hs Hp. by split. Qed.

Lemma write_round_locked_waln_typed t k i b u l w w' :
  world_typed w -> in_range U64 i -> in_range U8 b -> in_range I64 u ->
  (length l <= MAX_INVESTORS)%nat -> Forall allocation_typed l ->
  write_round_locked_waln t k i b u l w = Ok w' -> world_typed w'.
Proof.
  unfold write_round_locked_waln. intros [] Hi Hb Hu Hlen Hl Hx. case_decide; [by inv_ok|].
  inv_ok. split; cbn; try done. intros k' b' [[_ <-]|[_ ?]]%lookup_insert_Some; [|eauto].
  by apply open_book_typed.
Qed.

Lemma write_round_record_typed t k r w w' :
  world_typed w -> round_record_typed r -> write_round_record t k r w = Ok w' -> world_typed w'.
Proof.
  unfold write_round_record. intros [] Hr Hx. inv_ok. split; cbn; try done.
  intros k' r' [[_ <-]|[_ ?]]%lookup_insert_Some; eauto.
Qed.

(** The book of a round written from its participants. *)
Lemma participants_typed (l : list allocation) n :
  Forall allocation_typed l -> (length l <= n)%nat ->
  Forall allocation_typed (sort_by_key l) /\ (length (sort_by_key l) <= n)%nat.
Proof. intros Hl Hn. by rewrite sort_by_key_perm. Qed.

Lemma settle_pool_typed now scale price dust p t p' :
  slots_typed p -> settle_pool now scale price dust p = Ok (t, p') ->
  totals_typed t /\ slots_typed p' /\ (length (st_participants t) <= Z.to_nat (ip_count p))%nat.
Proof.
  unfold settle_pool. intros Hp Hx. apply bind_ok in Hx as (l & Hl & Hx).
  pose proof (active_typed _ Hp _ Hl) as Ht. apply active_ok in Hl as [_ Hlen].
  apply bind_ok in Hx as ([t1 l1] & H1 & Hx). apply bind_ok in Hx as ([t2 l2] & H2 & Hx).
  injection Hx as <- <-. pose proof (settle_totals_typed _ _ _ _ _ Ht H1) as Ht1.
  pose proof (settle_participants_length _ _ _ _ _ H1).
  destruct (distribute_dust_length _ _ _ _ _ _ H2) as [Hlen2 _].
  eapply (mapAccM_Forall record_typed) in H1; [|intros ? ? ? ?; apply settle_record_typed|done].
  destruct (distribute_dust_typed _ _ _ _ _ _ Ht1 H1 H2) as [Ht2 Hl2].
  split_and!; [done|by apply write_active_typed|lia].
Qed.

Lemma start_state_typed price size tl s :
  state_typed s -> in_range U64 price -> in_range U64 size -> in_range U64 tl ->
  state_typed (start_state price size tl s).
Proof. intros. typed. Qed.

Lemma auto_start_typed size price d s p s' p' :
  state_typed s -> slots_typed p -> in_range U64 price -> in_range U64 size ->
  auto_start size price d s p = Ok (s', p') -> state_typed s' /\ slots_typed p'.
Proof.
  unfold auto_start. intros Hs Hp Hpr Hsz Hx. apply bind_ok in Hx as (l & Hl%active_typed & Hx); [|done].
  destruct (execute_round_start _ _ _ _) as [[[ta tl] l']|[[]| | | |]] eqn:Hstart; try discriminate Hx;
    injection Hx as <- <-; try (split; [typed|done]).
  destruct (execute_round_start_typed _ _ _ _ _ _ _ Hl Hstart).
  split; [by apply start_state_typed|by apply write_active_typed].
Qed.

Lemma finish_state_typed u w d p s s' :
  state_typed s -> finish_state u w d p s = Ok s' -> state_typed s'.
Proof. unfold finish_state. intros Hs Hx. inv_arith. typed. Qed.

Lemma complete_round_typed now a rem price d sn pn w w' :
  in_range I64 now -> in_range U64 sn -> in_range U64 pn ->
  ip_count (w_pool w) <= Z.of_nat MAX_INVESTORS ->
  world_typed w -> complete_round now a rem price d sn pn w = Ok w' -> world_typed w'.
Proof.
  intros Hnow Hsn Hpn Hc Hw Hx. unfold complete_round in Hx.
  apply bind_ok in Hx as (? & _ & Hx). apply bind_ok in Hx as (unlock & [-> Hu]%cadd_ok & Hx).
  do 5 (apply bind_ok in Hx as (? & _ & Hx)). apply bind_ok in Hx as ([t p1] & H1 & Hx).
  destruct (settle_pool_typed _ _ _ _ _ _ _ (wt_slots _ Hw) H1) as (Ht & Hp1 & Hlen).
  assert (in_range U64 (ps_round_count (w_state w))) as Hcount by (pose proof (wt_state _ Hw); by typed_hyps).
  pose proof Ht as [Hsp Hwp Hv Hparts].
  destruct (participants_typed (retain_positive (st_participants t)) MAX_INVESTORS) as [Hl Hll].
  { apply Forall_forall. intros q [_ Hq]%list_elem_of_filter. by eapply Forall_forall in Hq. }
  { pose proof (length_filter (fun p : allocation => 0 < p.2) (st_participants t)).
    unfold retain_positive. lia. }
  apply bind_ok in Hx as (w2 & H2 & Hx). apply bind_ok in Hx as (log & _ & Hx).
  apply bind_ok in Hx as (w4 & H4 & Hx). apply bind_ok in Hx as (s1 & H5 & Hx).
  apply bind_ok in Hx as ([s2 p2] & H6 & Hx). injection Hx as <-.
  apply write_round_locked_waln_typed in H2; try done; [|by destruct Hw; split|apply pda_bump_u8].
  apply write_round_record_typed in H4; [|by destruct H2; split|].
  2:{ split; cbn; try done; [apply as_u32_typed|apply pda_bump_u8]. }
  apply finish_state_typed in H5; [|apply H4].
  apply auto_start_typed in H6 as [? ?]; try done; [|apply H4]. destruct H4. by split.
Qed.

Lemma record_sale_typed q tl out s s' :
  state_typed s -> in_range U64 tl -> record_sale q tl out s = Ok s' -> state_typed s'.
Proof.
  unfold record_sale. intros Hs Ht Hx. cbv zeta in Hx. apply bind_ok in Hx as (a & [-> Ha]%cadd_ok & Hx).
  apply bind_ok in Hx as (b & [-> Hb]%cadd_ok & Hx). injection Hx as <-.
  destruct (q_need_round_start q); cbn in Ha, Hb; typed.
Qed.

Lemma sell_start_typed q s d p tl p' :
  slots_typed p -> sell_start q s d p = Ok (tl, p') -> slots_typed p' /\ in_range U64 tl.
Proof.
  unfold sell_start. intros Hp Hx. destruct (q_need_round_start q); [|injection Hx as <- <-; split; [done|by_decide]].
  apply bind_ok in Hx as (l & Hl%active_typed & Hx); [|done].
  apply bind_ok in Hx as ([[ta tl'] l'] & H1 & Hx). injection Hx as <- <-.
  apply execute_round_start_typed in H1 as [? ?]; [|done]. split; [by apply write_active_typed|done].
Qed.

Lemma sell_start_count q s d p tl p' : sell_start q s d p = Ok (tl, p') -> ip_count p' = ip_count p.
Proof. unfold sell_start. intros Hx. destruct (q_need_round_start q); by inv_ok. Qed.

Lemma sell_waln_typed now a n w w' :
  in_range I64 now -> ip_count (w_pool w) <= Z.of_nat MAX_INVESTORS ->
  world_typed w -> sell_waln now a n w = Ok w' -> world_typed w'.
Proof.
  unfold sell_waln. intros Hnow Hc Hw Hx. apply bind_ok in Hx as ([wm um] & _ & Hx).
  apply bind_ok in Hx as (q & _ & Hx). apply bind_ok in Hx as ([tl p1] & H1 & Hx).
  apply bind_ok in Hx as (out & _ & Hx). apply bind_ok in Hx as ([hooks rem] & _ & Hx).
  apply bind_ok in Hx as (c & _ & Hx). apply bind_ok in Hx as (s1 & Hs & Hx).
  destruct (sell_start_typed _ _ _ _ _ _ (wt_slots _ Hw) H1) as [Hp1 Htl].
  pose proof (wt_state _ Hw) as Hst. apply record_sale_typed in Hs; [|done..].
  assert (world_typed (w <| w_state := s1 |> <| w_pool := p1 |> <| w_chain := c |>)) as Hw1
    by (destruct Hw; by split).
  case_decide; [|by injection Hx as <-]. eapply complete_round_typed; [exact Hnow|..|exact Hw1|exact Hx].
  1,2: by typed_hyps.
  cbn. by rewrite (sell_start_count _ _ _ _ _ _ H1).
Qed.

Lemma close_pool_typed scale price W paid p t p' :
  slots_typed p -> close_pool scale price W paid p = Ok (t, p') ->
  close_totals_typed t /\ slots_typed p' /\ (length (ct_participants t) <= Z.to_nat (ip_count p))%nat.
Proof.
  unfold close_pool. intros Hp Hx. apply bind_ok in Hx as (l & Hl & Hx).
  pose proof (active_typed _ Hp _ Hl) as Ht. apply active_ok in Hl as [_ Hlen].
  apply bind_ok in Hx as ([t1 l1] & H1 & Hx). injection Hx as <- <-.
  pose proof (close_participants_length _ _ _ _ _ _ _ H1).
  destruct (close_records_typed _ _ _ _ _ _ _ Ht H1). split_and!; [done|by apply write_active_typed|lia].
Qed.

Lemma close_round_typed now a w w' :
  in_range I64 now -> ip_count (w_pool w) <= Z.of_nat MAX_INVESTORS ->
  world_typed w -> close_round now a w = Ok w' -> world_typed w'.
Proof.
  intros Hnow Hc Hw Hx. unfold close_round in Hx. do 9 (apply bind_ok in Hx as (? & _ & Hx)).
  apply bind_ok in Hx as (unlock & [-> Hu]%cadd_ok & Hx). apply bind_ok in Hx as ([t p1] & H1 & Hx).
  destruct (close_pool_typed _ _ _ _ _ _ _ (wt_slots _ Hw) H1) as (Ht & Hp1 & Hlen).
  assert (in_range U64 (ps_round_count (w_state w))) as Hcount by (pose proof (wt_state _ Hw); by typed_hyps).
  destruct Ht as [Hsp Hwp Hv Hparts].
  destruct (participants_typed (ct_participants t) MAX_INVESTORS) as [Hl Hll]; [done|lia|].
  apply bind_ok in Hx as (w4 & H4 & Hx). apply bind_ok in H4 as (w2 & H2 & H4).
  apply bind_ok in Hx as (s1 & H5 & Hx). injection Hx as <-.
  apply write_round_locked_waln_typed in H2; try done; [|by destruct Hw; split|apply pda_bump_u8].
  apply write_round_record_typed in H4; [|done|].
  2:{ split; cbn; try done; [apply as_u32_typed|apply pda_bump_u8]. }
  destruct H4 as [Hs4 ? ? ?]. split; try done. unfold close_state in H5. inv_arith. cbn. typed.
Qed.

(** ** Instructions *)

Lemma Initialize_accounts_decimals a c um wm c' :
  Initialize_accounts a c = Ok (um, wm, c') ->
  exists um' wm', mint_account c' (in_usdc_mint a) = Some um' /\ mi_decimals um' = mi_decimals um
    /\ mint_account c' (in_waln_mint a) = Some wm' /\ mi_decimals wm' = mi_decimals wm.
Proof.
  unfold Initialize_accounts. intros Hx. apply bind_ok in Hx as (c1 & _ & Hx).
  apply bind_ok in Hx as (um1 & Hum%ok_or_ok & Hx). apply bind_ok in Hx as (wm1 & Hwm%ok_or_ok & Hx).
  apply bind_ok in Hx as (c2 & H2 & Hx). apply bind_ok in Hx as (c3 & H3 & Hx).
  apply bind_ok in Hx as (c4 & H4 & Hx). inv_ok.
  apply init_token_account_ok in H2 as (K2 & _ & _); [|done..].
  apply init_token_account_ok in H3 as (K3 & _ & _); [|done..].
  apply init_account_keeps in H4 as K4; [|done..].
  assert (keeps c1 c') as K by (transitivity c2; [done|by transitivity c3]).
  destruct (keeps_mints _ _ K _ _ Hum) as (u & Hu & Hud & _).
  destruct (keeps_mints _ _ K _ _ Hwm) as (v & Hv & Hvd & _). eauto 10.
Qed.

Lemma initialize_typed a price size period c w :
  initialize_ok a price size period (w_chain w) -> initialize a price size period c = Ok w ->
  world_typed w.
Proof.
  intros [Hp Hs Hl Ha Hum Hwm Huv Hwv Hd] Hx. unfold initialize in Hx.
  apply bind_ok in Hx as ([[um wm] c1] & Hacc & Hx). inv_ok. cbn in Hd.
  destruct (Initialize_accounts_decimals _ _ _ _ _ Hacc) as (u & v & Hu & Hud & Hv & Hvd).
  apply Hd in Hu, Hv. rewrite Hud in Hu. rewrite Hvd in Hv.
  split; cbn.
  - split_and!; try done; try apply pda_bump_u8; by_decide.
  - split; [apply pda_bump_u8|]. cbn [initial_pool ip_investors].
    apply Forall_replicate, empty_record_typed. by_decide.
  - intros k b Hb. by rewrite lookup_empty in Hb.
  - intros k b Hb. by rewrite lookup_empty in Hb.
Qed.

(** The handlers of the administration, but for closing a round. *)
Lemma admin_typed now i w w' :
  arguments_ok i -> world_typed w -> dispatch now i w = Ok w' ->
  match i with CloseRoundIx _ | DepositUsdcIx _ _ | WithdrawUsdcIx _ _ | SellWalnIx _ _
             | ClaimWalnIx _ _ => False | _ => True end ->
  world_typed w'.
Proof.
  intros (Hn & Hk & Hta) Hw Hx Hadmin. pose proof Hw as [Hs Hp Hb Hr]. destruct i; try done; cbn in Hn, Hk, Hx;
    [unfold set_floor_price, with_state in Hx|unfold set_round_size, with_state in Hx
    |unfold set_lock_period, with_state in Hx|unfold set_usdc_withdraw_lock, with_state in Hx
    |unfold set_investor_usdc_unlock in Hx|unfold set_sell_paused, with_state in Hx
    |unfold set_frozen, with_state in Hx|unfold cancel_round in Hx
    |unfold remove_investor_from_pool in Hx
    |unfold fund_treasury in Hx|unfold withdraw_treasury in Hx
    |unfold mint_aat_nft, mint_total in Hx|unfold update_aat_volume, update_total in Hx
    |unfold transfer_authority, with_state in Hx|unfold accept_authority, with_state in Hx
    |unfold close_round_record in Hx].
  all: inv_arith; try (split; cbn [w_state w_pool w_round_locked_waln w_round_record]; try done; typed).
  all: try match goal with b : bool |- _ => destruct b; split; cbn [w_state w_pool w_round_locked_waln w_round_record]; try done; typed end.
  - assert (record_typed (i <| ir_usdc_unlock_ts := new_unlock_ts |>)) as Hi.
    { match goal with H : find_record _ _ = _ |- _ => apply find_record_typed in H; [typed|done] end. }
    match goal with H : set_slot _ _ _ = _ |- _ => apply (set_slot_typed _ Hp _ _ _ Hi) in H end.
    by split.
  - split; cbn; try done; [typed|]. apply write_active_typed; [done|].
    eapply unlock_records_typed; [|done]. by eapply active_typed.
  - match goal with H : remove_slot _ _ = _ |- _ => rename H into Hrm end.
    assert (world_typed x4) as Hw4.
    { case_decide; inv_arith; [|done]. split; cbn; try done. typed. }
    destruct Hw4. split; cbn; try done. by eapply remove_slot_typed.
  - match goal with H : update_pool_volume _ _ _ = _ |- _ => rename H into Hup end.
    split; cbn; try done; [typed|]. unfold update_pool_volume in Hup.
    apply bind_ok in Hup as ([[j r]|] & Hf & Hup); [|by injection Hup as <-].
    eapply set_slot_typed; [exact Hp| |exact Hup]. apply find_record_typed in Hf; [typed|done].
  - split; cbn; try done. intros k r [_ Hk']%lookup_delete_Some. eauto.
Qed.

(** The handlers of the investors. *)
Lemma user_typed now i w w' :
  arguments_ok i -> world_typed w -> dispatch now i w = Ok w' ->
  match i with DepositUsdcIx _ _ | WithdrawUsdcIx _ _ | ClaimWalnIx _ _ => True | _ => False end ->
  world_typed w'.
Proof.
  intros (Hn & Hk & _) [Hs Hp Hb Hr] Hx Hu. destruct i; try done; cbn in Hk, Hx.
  - unfold deposit_usdc in Hx. inv_arith. split; cbn; try done; [typed|].
    eapply deposit_pool_typed; [exact Hp|exact Hk| |done]. by eapply verify_aat_range.
  - unfold withdraw_usdc in Hx. inv_arith. split; cbn; try done; [typed|].
    by eapply withdraw_pool_typed.
  - unfold claim_waln in Hx. apply bind_ok in Hx as ([[b m] c] & Hacc & Hx).
    do 2 apply bind_ok in Hx as (? & _ & Hx). apply bind_ok in Hx as ([[amt closes] b'] & He & Hx).
    apply claim_entry_typed in He; [|unfold ClaimWaln_accounts in Hacc; inv_ok; eauto].
    do 2 apply bind_ok in Hx as (? & _ & Hx). destruct closes.
    + apply bind_ok in Hx as (? & _ & Hx). injection Hx as <-. split; cbn; try done.
      intros k b1 [_ Hk']%lookup_delete_Some. eauto.
    + injection Hx as <-. split; cbn; try done. intros k b1 [[_ <-]|[_ Hk']]%lookup_insert_Some; eauto.
Qed.

Lemma dispatch_typed now i w w' :
  in_range I64 now -> arguments_ok i -> inv w -> world_typed w -> dispatch now i w = Ok w' ->
  world_typed w'.
Proof.
  intros Hnow Ha Hi Hw Hx.
  pose proof (pwf_count _ (pi_wf _ _ _ (inv_pool _ _ Hi))) as [_ Hc].
  destruct i;
    first [exact (admin_typed _ _ _ _ Ha Hw Hx I)|exact (user_typed _ _ _ _ Ha Hw Hx I)
          |exact (close_round_typed _ _ _ _ Hnow Hc Hw Hx)|exact (sell_waln_typed _ _ _ _ _ Hnow Hc Hw Hx)].
Qed.

Lemma reachable_typed w : reachable w -> world_typed w.
Proof.
  induction 1 as [a price size period c w Ha Hx _|w w' Hr Hw Hs]; [by eapply initialize_typed|].
  destruct Hs as [now i w' Hnow Hsig Harg Hx|c Hk]; [|by destruct Hw].
  eapply dispatch_typed; [done..| |exact Hw|exact Hx]. by apply reachable_inv.
Qed.

(** What the invariant and the types say of the amounts. *)
Lemma reachable_records w :
  reachable w -> Forall (fun r => record_wf r /\ 0 <= ir_usdc_committed r /\ 0 <= ir_waln_purchased_total r)
                   (records (w_pool w)).
Proof.
  intros Hr. destruct (inv_pool _ _ (reachable_inv _ Hr)) as [Hwf Hrec _ _ _ _ _ _ _ _].
  pose proof (active_typed _ (wt_slots _ (reachable_typed _ Hr)) _ (active_wf _ Hwf)) as Ht.
  apply Forall_forall. intros r Hin. rewrite Forall_forall in Hrec, Ht. split; [by apply Hrec|].
  specialize (Ht r Hin).
  assert (in_range U64 (ir_usdc_committed r) /\ in_range U64 (ir_waln_purchased_total r)) by typed.
  unfold_range. lia.
Qed.

Lemma reachable_counters w :
  reachable w -> in_range U64 (ps_current_round_size_waln (w_state w))
                 /\ in_range U64 (ps_waln_dust_carryover (w_state w))
                 /\ in_range U64 (ps_floor_price_usdc (w_state w))
                 /\ in_range U64 (ps_total_usdc_in_lobby (w_state w))
                 /\ in_range U8 (ps_waln_decimals (w_state w))
                 /\ in_range U8 (ps_usdc_decimals (w_state w)).
Proof. intros Hr%reachable_typed%wt_state. typed. Qed.

(** ** Properties *)

(** C17: in every reachable world every field of every account is a value of its Rust
    type: the 28 fields of the program's state, all 100 records of the pool, the books
    of locked wALN with all their entries and the records of the rounds. *)
Theorem accounts_well_typed w : reachable w -> accounts_typed w.
Proof. intros Hr. apply accounts_typed_inv; [by apply reachable_inv|by apply reachable_typed]. Qed.

(** The bytes of an account are bytes, take [n] of them behind the discriminator, and
    read back whatever the account holds after them. *)
Definition stores {A} (c : codec A) (a : A) (n : Z) : Prop :=
  Forall is_byte (c_enc c a) /\ 8 + Z.of_nat (length (c_enc c a)) = n
  /\ forall rest, c_dec c (c_enc c a ++ rest) = Some (a, rest).

Lemma stores_ok {A} (c : codec A) `{Lawful A c} a n :
  c_ok c a -> 8 + Z.of_nat (length (c_enc c a)) = n -> stores c a n.
Proof. intros Ha Hn. split_and!; [by apply enc_bytes|done|]. intros rest. by apply dec_enc. Qed.

(** C18: what the program writes it reads back.  In every reachable world the bytes of the
    state and of the pool, as [repr(C)] lays them out, and the bytes of every book and
    round record, as Borsh serializes them, fill exactly the space the program allocates
    for the account, and reading them gives the account. *)
Theorem accounts_read_back `{BorshLaws} w :
  reachable w ->
  stores program_state (w_state w) (8 + ProgramState_SIZE)
  /\ stores investor_pool (w_pool w) (8 + InvestorPool_SIZE)
  /\ (forall k b, w_round_locked_waln w !! k = Some b ->
       stores round_locked_waln b (RoundLockedWaln_space (Z.of_nat (length (rlw_investors b)))))
  /\ (forall k r, w_round_record w !! k = Some r ->
       stores round_record r (8 + RoundRecord_INIT_SPACE)).
Proof.
  intros Hr. destruct (accounts_typed_inv _ (reachable_inv _ Hr) (reachable_typed _ Hr)) as [Hs Hp Hb Hre].
  split_and!.
  - apply stores_ok; [apply _|done|]. by rewrite enc_size.
  - apply stores_ok; [apply _|done|]. by rewrite enc_size.
  - intros k b Hk%Hb. apply stores_ok; [apply _|by apply round_locked_waln_ok|by apply round_locked_waln_space].
  - intros k r Hk%Hre. apply stores_ok; [apply _|by apply round_record_ok|by rewrite round_record_space].
Qed.
End Worlds.

Lemma accounts_well_typed_witness : exists w, accounts_typed w.
Proof. destruct sold_world as (w & _ & Hr). exists w. exact (accounts_well_typed w Hr). Defined.

Lemma accounts_read_back_witness :
  exists w, c_dec program_state (c_enc program_state (w_state w)) = Some (w_state w, []).
Proof.
  destruct sold_world as (w & _ & Hr). exists w.
  destruct (accounts_read_back w Hr) as ((_ & _ & Hs) & _). rewrite <- (Hs []). by rewrite app_nil_r.
Defined.
