(* ===== verification/Access.v ===== *)
(** * Who may change what

    [config] collects the fields of the state that only the administration sets.  The
    lemmas say which instructions leave it alone and which demand the admin's
    signature; the theorems are about [dispatch]. *)
From coqutil Require Import Datatypes.RecordSettersUsingExistingGetters.
From stdpp Require Import base gmap strings numbers list.
From S2P Require Import Prelude.
From S2P Require Import State.
From S2P Require Import Pool.
From S2P Require Import Runtime.
From S2P Require Import Sandbox.
From S2P Require Import Vaults.
From S2P Require Import Utils.
From S2P Require Import RoundStart.
From S2P Require Import Settlement.
From S2P Require Import AllocBook.
From S2P Require Import RoundAccounts.
From S2P Require Import Lobby.
From S2P Require Import Sell.
From S2P Require Import CloseRound.
From S2P Require Import Claim.
From S2P Require Import Admin.
From S2P Require Import Aat.
From S2P Require Import Init.
From S2P Require Import Invariant.
From S2P Require Import System.
From S2P Require Import Scenario.
#[local] Open Scope Z_scope.

(** The parameters, switches and authorities of the state. *)
Record Config := mkConfig {
  cf_admin : Pubkey;
  cf_pending_admin : Pubkey;
  cf_mints : Pubkey * Pubkey;
  cf_decimals : Z * Z;
  cf_price_and_size : Z * Z;
  cf_lock_periods : Z * Z;
  cf_total_aat_volume : Z;
  cf_switches : Z * Z;
}.

Definition config (s : ProgramState) : Config :=
  mkConfig (ps_admin s) (ps_pending_admin s) (ps_usdc_mint s, ps_waln_mint s)
    (ps_usdc_decimals s, ps_waln_decimals s)
    (ps_floor_price_usdc s, ps_round_size_waln s)
    (ps_lock_period_seconds s, ps_usdc_withdraw_lock_seconds s)
    (ps_total_aat_volume s) (ps_sell_paused s, ps_frozen s).

(** The instructions of investors and sellers; all others belong to the administration. *)
Definition user_instruction (i : Instruction) : bool :=
  match i with
  | DepositUsdcIx _ _ | WithdrawUsdcIx _ _ | SellWalnIx _ _ | ClaimWalnIx _ _ => true
  | _ => false
  end.

(** The instructions that check [frozen]. *)
Definition checks_frozen (i : Instruction) : bool :=
  match i with
  | DepositUsdcIx _ _ | WithdrawUsdcIx _ _ | SellWalnIx _ _ | ClaimWalnIx _ _
  | MintAatNftIx _ _ => true
  | _ => false
  end.

(** ** Sales and the configuration *)

Lemma finish_state_config t w d p s s' : finish_state t w d p s = Ok s' -> config s' = config s.
Proof. unfold finish_state. intros Hx. by inv_arith. Qed.

Lemma auto_start_config size price d s p s' p' :
  auto_start size price d s p = Ok (s', p') -> config s' = config s.
Proof.
  unfold auto_start. intros Hx. apply bind_ok in Hx as (l & _ & Hx).
  destruct (execute_round_start _ _ _ _) as [[[ta tl] l']|[[]| | | |]]; by simplify_eq.
Qed.

Lemma record_sale_config q tl out s s' : record_sale q tl out s = Ok s' -> config s' = config s.
Proof. unfold record_sale. intros Hx. inv_arith. by destruct (q_need_round_start q). Qed.

Section Access.
Context `{Runtime}.

Lemma write_round_locked_waln_state treasury key i b u l w w' :
  write_round_locked_waln treasury key i b u l w = Ok w' -> w_state w' = w_state w.
Proof. unfold write_round_locked_waln. case_decide; intros Hx; by inv_ok. Qed.

Lemma write_round_record_state treasury key r w w' :
  write_round_record treasury key r w = Ok w' -> w_state w' = w_state w.
Proof. unfold write_round_record. intros Hx. by inv_ok. Qed.

Lemma complete_round_config now a rem price d sn pn w w' :
  complete_round now a rem price d sn pn w = Ok w' -> config (w_state w') = config (w_state w).
Proof.
  unfold complete_round. intros Hx.
  do 7 (apply bind_ok in Hx as (? & _ & Hx)). apply bind_ok in Hx as ([t p1] & _ & Hx).
  apply bind_ok in Hx as (w2 & H2%write_round_locked_waln_state & Hx).
  apply bind_ok in Hx as (log & _ & Hx).
  apply bind_ok in Hx as (w4 & H4%write_round_record_state & Hx).
  apply bind_ok in Hx as (s1 & H5%finish_state_config & Hx).
  apply bind_ok in Hx as ([s2 p2] & H6%auto_start_config & Hx). injection Hx as <-. cbn in *.
  congruence.
Qed.

Lemma sell_waln_config now a n w w' :
  sell_waln now a n w = Ok w' -> config (w_state w') = config (w_state w).
Proof.
  unfold sell_waln. intros Hx. apply bind_ok in Hx as ([wm um] & _ & Hx).
  apply bind_ok in Hx as (q & _ & Hx). apply bind_ok in Hx as ([tl p1] & _ & Hx).
  apply bind_ok in Hx as (out & _ & Hx). apply bind_ok in Hx as ([hooks rem] & _ & Hx).
  apply bind_ok in Hx as (c & _ & Hx). apply bind_ok in Hx as (s1 & Hs%record_sale_config & Hx).
  case_decide; [apply complete_round_config in Hx|injection Hx as <-]; cbn in *; congruence.
Qed.

Lemma user_config now i w w' :
  user_instruction i = true -> dispatch now i w = Ok w' -> config (w_state w') = config (w_state w).
Proof.
  intros Hu Hx. destruct i; try discriminate; cbn in Hx.
  - unfold deposit_usdc in Hx. by inv_ok.
  - unfold withdraw_usdc in Hx. by inv_ok.
  - by eapply sell_waln_config.
  - unfold claim_waln in Hx. inv_ok. destruct b; by inv_ok.
Qed.

(** ** The admin's signature *)

Lemma check_admin_signed admin cs w u : check_admin admin cs w = Ok u -> admin = ps_admin (w_state w).
Proof. unfold check_admin. intros Hx. by inv_ok. Qed.

Lemma admin_signed now i w w' :
  user_instruction i = false -> (forall a, i <> AcceptAuthorityIx a) -> dispatch now i w = Ok w' ->
  signer i = ps_admin (w_state w).
Proof.
  intros Hu Ha Hx. destruct i; try discriminate; cbn in *; try (by exfalso; eapply Ha);
    [unfold set_floor_price in Hx|unfold set_round_size in Hx|unfold set_lock_period in Hx
    |unfold set_usdc_withdraw_lock in Hx|unfold set_investor_usdc_unlock in Hx
    |unfold set_sell_paused in Hx|unfold set_frozen in Hx|unfold cancel_round in Hx
    |unfold remove_investor_from_pool, RemoveInvestorFromPool_accounts in Hx
    |unfold close_round, CloseRound_accounts in Hx
    |unfold fund_treasury, Treasury_accounts in Hx|unfold withdraw_treasury, Treasury_accounts in Hx
    |unfold mint_aat_nft, MintAatNft_accounts in Hx;
       apply bind_ok in Hx as (? & Hx & _); apply bind_ok in Hx as (? & _ & Hx)
    |unfold update_aat_volume, UpdateAatVolume_accounts in Hx
    |unfold transfer_authority in Hx|unfold close_round_record in Hx].
  all: repeat match goal with
    | H : (_ ≫= _) = Ok _ |- _ => apply bind_ok in H as (? & H & _)
    end; try (by eapply check_admin_signed).
Qed.

(** ** Rounds *)

(** The terms of the round in progress. *)
Definition round_terms (s : ProgramState) : Z * Z * Z :=
  (ps_current_round_floor_price s, ps_current_round_size_waln s, ps_current_round_lock_period s).

Lemma complete_round_count now a rem price d sn pn w w' :
  complete_round now a rem price d sn pn w = Ok w' ->
  ps_round_count (w_state w') = ps_round_count (w_state w) + 1.
Proof.
  unfold complete_round. intros Hx.
  do 7 (apply bind_ok in Hx as (? & _ & Hx)). apply bind_ok in Hx as ([t p1] & _ & Hx).
  apply bind_ok in Hx as (w2 & H2%write_round_locked_waln_state & Hx).
  apply bind_ok in Hx as (log & _ & Hx).
  apply bind_ok in Hx as (w4 & H4%write_round_record_state & Hx).
  apply bind_ok in Hx as (s1 & H5 & Hx). apply bind_ok in Hx as ([s2 p2] & H6 & Hx).
  injection Hx as <-. cbn in *. unfold finish_state in H5. inv_arith. unfold auto_start in H6.
  apply bind_ok in H6 as (l & _ & H6). rewrite H4, H2 in H6.
  destruct (execute_round_start _ _ _ _) as [[[ta tl] l']|[[]| | | |]]; by simplify_eq.
Qed.

(** Instructions other than a sale, a close and a cancel do not touch the round. *)
Definition touches_round (i : Instruction) : bool :=
  match i with SellWalnIx _ _ | CloseRoundIx _ | CancelRoundIx _ => true | _ => false end.

Lemma round_terms_kept now i w w' :
  touches_round i = false -> dispatch now i w = Ok w' ->
  round_terms (w_state w') = round_terms (w_state w).
Proof.
  intros Ht Hx. destruct i; try discriminate; cbn in Hx;
    [unfold set_floor_price, with_state in Hx|unfold set_round_size, with_state in Hx
    |unfold set_lock_period, with_state in Hx|unfold set_usdc_withdraw_lock, with_state in Hx
    |unfold set_investor_usdc_unlock in Hx|unfold set_sell_paused, with_state in Hx
    |unfold set_frozen, with_state in Hx|unfold remove_investor_from_pool in Hx
    |unfold fund_treasury in Hx|unfold withdraw_treasury in Hx|unfold deposit_usdc in Hx
    |unfold withdraw_usdc in Hx|unfold claim_waln in Hx|unfold mint_aat_nft, mint_total in Hx
    |unfold update_aat_volume, update_total in Hx|unfold transfer_authority, with_state in Hx
    |unfold accept_authority, with_state in Hx|unfold close_round_record in Hx].
  all: inv_arith; try done.
  - case_decide; by inv_arith.
  - destruct b; by inv_ok.
Qed.

Lemma sell_round_terms now a n w w' :
  ps_round_started (w_state w) <> 0 -> sell_waln now a n w = Ok w' ->
  ps_round_count (w_state w') = ps_round_count (w_state w) ->
  round_terms (w_state w') = round_terms (w_state w).
Proof.
  unfold sell_waln. intros Hst Hx Hc. apply bind_ok in Hx as ([wm um] & _ & Hx).
  apply bind_ok in Hx as (q & Hq%sell_quote_ok & Hx). apply bind_ok in Hx as ([tl p1] & _ & Hx).
  apply bind_ok in Hx as (out & _ & Hx). apply bind_ok in Hx as ([hooks rem] & _ & Hx).
  apply bind_ok in Hx as (c & _ & Hx). apply bind_ok in Hx as (s1 & Hs & Hx).
  unfold record_sale in Hs. rewrite (qs_start _ _ _ _ _ _ Hq), bool_decide_eq_false_2 in Hs by done.
  inv_arith. case_decide; [|by inv_ok]. apply complete_round_count in Hx. cbn in Hx. lia.
Qed.

(** ** Properties *)

(** C26: access control.  An instruction that succeeds and changes a parameter, a
    switch, the AAT total or an authority is signed by the admin, or accepts a pending
    transfer of authority and is signed by the account it was offered to. *)
Theorem config_changes_need_authority now i w w' :
  dispatch now i w = Ok w' -> config (w_state w') <> config (w_state w) ->
  signer i = ps_admin (w_state w)
  \/ (exists a, i = AcceptAuthorityIx a) /\ signer i = ps_pending_admin (w_state w)
     /\ ps_pending_admin (w_state w) <> default_pubkey.
Proof.
  intros Hx Hc. destruct (user_instruction i) eqn:Hu; [by apply user_config in Hx|].
  destruct i; try (left; by eapply admin_signed).
  - right. split; [eauto|]. cbn in Hx. unfold accept_authority in Hx. by inv_ok.
Qed.

(** C27: the admin's authority changes hands only by acceptance: an instruction after
    which the admin is another account is [accept_authority], signed by the account the
    admin had named before, which becomes the admin and leaves nothing pending. *)
Theorem admin_changes_by_acceptance now i w w' :
  dispatch now i w = Ok w' -> ps_admin (w_state w') <> ps_admin (w_state w) ->
  (exists a, i = AcceptAuthorityIx a)
  /\ ps_admin (w_state w') = signer i /\ signer i = ps_pending_admin (w_state w)
  /\ ps_pending_admin (w_state w') = default_pubkey.
Proof.
  intros Hx Hc. destruct (user_instruction i) eqn:Hu.
  { apply (user_config _ _ _ _ Hu) in Hx. apply (f_equal cf_admin) in Hx. by cbn in Hx. }
  destruct i; try discriminate; cbn in Hx;
    [unfold set_floor_price, with_state in Hx|unfold set_round_size, with_state in Hx
    |unfold set_lock_period, with_state in Hx|unfold set_usdc_withdraw_lock, with_state in Hx
    |unfold set_investor_usdc_unlock in Hx|unfold set_sell_paused, with_state in Hx
    |unfold set_frozen, with_state in Hx|unfold cancel_round in Hx
    |unfold remove_investor_from_pool in Hx|unfold close_round, write_closed_round, close_state in Hx
    |unfold fund_treasury in Hx|unfold withdraw_treasury in Hx
    |unfold mint_aat_nft, mint_total in Hx|unfold update_aat_volume, update_total in Hx
    |unfold transfer_authority, with_state in Hx|unfold accept_authority, with_state in Hx
    |unfold close_round_record in Hx].
  all: inv_arith; try done.
  - exfalso. revert Hc. case_decide; by inv_arith.
  - exfalso. repeat match goal with
      | H : write_round_locked_waln _ _ _ _ _ _ _ = _ |- _ => apply write_round_locked_waln_state in H
      | H : write_round_record _ _ _ _ = _ |- _ => apply write_round_record_state in H end.
    cbn in *. congruence.
  - cbn. split_and!; [eauto|done..].
Qed.

(** C28: the switches work.  While the contract is frozen no deposit, withdrawal, sale,
    claim or AAT mint succeeds, and while sales are paused no sale does, whatever the
    accounts and arguments. *)
Theorem switches_block now i w w' :
  dispatch now i w = Ok w' ->
  (checks_frozen i = true -> ps_frozen (w_state w) = 0)
  /\ ((exists a n, i = SellWalnIx a n) -> ps_sell_paused (w_state w) = 0).
Proof.
  intros Hx. split.
  - intros Hc. destruct i; try discriminate; cbn in Hx.
    + unfold deposit_usdc in Hx. by inv_ok.
    + unfold withdraw_usdc in Hx. by inv_ok.
    + unfold sell_waln in Hx. apply bind_ok in Hx as ([wm um] & _ & Hx).
      apply bind_ok in Hx as (q & Hq%sell_quote_ok & _). apply Hq.
    + unfold claim_waln in Hx. by inv_ok.
    + unfold mint_aat_nft in Hx. by inv_ok.
  - intros (a & n & ->). cbn in Hx. unfold sell_waln in Hx. apply bind_ok in Hx as ([wm um] & _ & Hx).
    apply bind_ok in Hx as (q & Hq%sell_quote_ok & _). apply Hq.
Qed.

(** C29: a round keeps the terms it started with.  As long as a round is neither settled
    nor cancelled, no instruction changes its price, its size or its lock period, even
    if the admin changes the parameters of later rounds. *)
Theorem round_terms_fixed now i w w' :
  ps_round_started (w_state w) = 1 -> dispatch now i w = Ok w' ->
  ps_round_started (w_state w') = 1 -> ps_round_count (w_state w') = ps_round_count (w_state w) ->
  round_terms (w_state w') = round_terms (w_state w).
Proof.
  intros Hst Hx Hst' Hc. destruct (touches_round i) eqn:Ht; [|by eapply round_terms_kept].
  destruct i; try discriminate; cbn in Hx.
  - unfold cancel_round in Hx. inv_ok. cbn in Hst'. discriminate.
  - unfold close_round, close_state in Hx. inv_arith. cbn in Hst'. discriminate.
  - eapply sell_round_terms; [|exact Hx|done]. by rewrite Hst.
Qed.
End Access.

(** ** Concrete instances *)

Lemma config_changes_need_authority_witness :
  exists w w', dispatch sample_now (set_price 6000000) w = Ok w'
    /\ signer (set_price 6000000) = ps_admin (w_state w).
Proof.
  destruct (after_snoc setup (set_price 6000000)) as (w & w' & Hw & Hx & Hw'); [vm_compute; reflexivity|].
  assert (cf_price_and_size (config (w_state w)) = (5000003, 1000000000)) as H1
    by (apply (field_ok (fun w => cf_price_and_size (config (w_state w))) _ _ _ Hw); vm_compute; reflexivity).
  assert (cf_price_and_size (config (w_state w')) = (6000000, 1000000000)) as H2
    by (apply (field_ok (fun w => cf_price_and_size (config (w_state w))) _ _ _ Hw'); vm_compute; reflexivity).
  exists w, w'. split; [done|].
  destruct (config_changes_need_authority sample_now (set_price 6000000) w w' Hx) as [H|[[a Ha] _]];
    [congruence|done|discriminate].
Defined.

Definition hand_over : Instruction :=
  TransferAuthorityIx (mkTransferAuthority admin_key (key_of 2) contract_state_address).
Definition take_over : Instruction := AcceptAuthorityIx (mkAcceptAuthority (key_of 2) contract_state_address).

Lemma admin_changes_by_acceptance_witness :
  exists w w', dispatch sample_now take_over w = Ok w' /\ ps_admin (w_state w') = key_of 2
    /\ ps_pending_admin (w_state w) = key_of 2.
Proof.
  destruct (after_snoc (setup ++ [hand_over]) take_over) as (w & w' & Hw & Hx & Hw'); [vm_compute; reflexivity|].
  assert (ps_admin (w_state w) = admin_key) as H1
    by (apply (field_ok (fun w => ps_admin (w_state w)) _ _ _ Hw); vm_compute; reflexivity).
  assert (ps_admin (w_state w') = key_of 2) as H2
    by (apply (field_ok (fun w => ps_admin (w_state w)) _ _ _ Hw'); vm_compute; reflexivity).
  exists w, w'. split; [done|].
  destruct (admin_changes_by_acceptance sample_now take_over w w' Hx) as (_ & Ha & Hp & _);
    [rewrite H1, H2; discriminate|]. split; [exact Ha|symmetry; exact Hp].
Defined.

Lemma switches_block_witness :
  exists w w', dispatch sample_now (sell 0 1000000000) w = Ok w'
    /\ ps_frozen (w_state w) = 0 /\ ps_sell_paused (w_state w) = 0.
Proof.
  destruct (after_snoc setup (sell 0 1000000000)) as (w & w' & Hw & Hx & Hw'); [vm_compute; reflexivity|].
  exists w, w'. split; [done|].
  destruct (switches_block sample_now (sell 0 1000000000) w w' Hx) as [Hf Hp].
  split; [apply Hf; reflexivity|apply Hp]. do 2 eexists; reflexivity.
Defined.

Lemma round_terms_fixed_witness :
  exists w w', dispatch sample_now (set_price 6000000) w = Ok w'
    /\ round_terms (w_state w') = (5000003, 3000000000, 100).
Proof.
  destruct (after_snoc partial_round (set_price 6000000)) as (w & w' & Hw & Hx & Hw'); [vm_compute; reflexivity|].
  assert (ps_round_started (w_state w) = 1 /\ ps_round_count (w_state w) = 0
          /\ round_terms (w_state w) = (5000003, 3000000000, 100)) as (H1 & H2 & H3).
  { split; [|split]; [apply (field_ok (fun w => ps_round_started (w_state w)) _ _ _ Hw)
      |apply (field_ok (fun w => ps_round_count (w_state w)) _ _ _ Hw)
      |apply (field_ok (fun w => round_terms (w_state w)) _ _ _ Hw)]; vm_compute; reflexivity. }
  assert (ps_round_started (w_state w') = 1 /\ ps_round_count (w_state w') = 0) as (H4 & H5).
  { split; [apply (field_ok (fun w => ps_round_started (w_state w)) _ _ _ Hw')
      |apply (field_ok (fun w => ps_round_count (w_state w)) _ _ _ Hw')]; vm_compute; reflexivity. }
  exists w, w'. split; [done|]. rewrite <- H3.
  apply (round_terms_fixed sample_now (set_price 6000000) w w' H1 Hx H4). congruence.
Defined.

(** Freezing the contract does not stop the administration: with the contract frozen,
    the admin still changes the price and closes the round in progress. *)
Theorem frozen_administration_runs :
  exists w w', ps_frozen (w_state w) = 1
    /\ run sample_now w [set_price 6000000; close 0] = Ok w'
    /\ ps_round_count (w_state w') = ps_round_count (w_state w) + 1.
Proof.
  pose (freeze := SetFrozen (mkAdminOnly admin_key contract_state_address) true).
  destruct (after_app (partial_round ++ [freeze]) [set_price 6000000; close 0])
    as (w & w' & Hw & Hx & Hw'); [vm_compute; reflexivity|].
  exists w, w'. split_and!; [|done|].
  - apply (field_ok (fun w => ps_frozen (w_state w)) _ _ _ Hw). vm_compute. reflexivity.
  - rewrite (field_ok (fun w => ps_round_count (w_state w)) _ _ 0 Hw) by (vm_compute; reflexivity).
    apply (field_ok (fun w => ps_round_count (w_state w)) _ _ _ Hw'). vm_compute. reflexivity.
Qed.
