(* ===== verification/Operations.v ===== *)
(** * What the instructions of investors and sellers do

    For every instruction that moves funds: the exact effect on the investor's record, on
    the lobby and on the two token accounts of the transfer; and that an instruction the
    rules allow goes through, up to the transfer itself.  The statements are about
    reachable worlds, so about every world a handler ever runs in. *)
From coqutil Require Import Datatypes.RecordSettersUsingExistingGetters.
From stdpp Require Import base gmap strings numbers list.
From S2P Require Import Prelude.
From S2P Require Import State.
From S2P Require Import Pool.
From S2P Require Import Runtime.
From S2P Require Import Sandbox.
From S2P Require Import Vaults.
From S2P Require Import Utils.
From S2P Require Import RoundStart.
From S2P Require Import Settlement.
From S2P Require Import AllocBook.
From S2P Require Import RoundAccounts.
From S2P Require Import Lobby.
From S2P Require Import Sell.
From S2P Require Import CloseRound.
From S2P Require Import Claim.
From S2P Require Import Admin.
From S2P Require Import Aat.
From S2P Require Import Init.
From S2P Require Import Invariant.
From S2P Require Import System.
From S2P Require Import Scenario.
From S2P Require Import Access.

#[local] Open Scope Z_scope.

(** ** Transfers into and out of a vault, exactly *)

Section Transfers.
Context `{RuntimeLaws}.

(** What a transfer of [amt] between two accounts does to their balances. *)
Definition moved (c c' : Chain) (from to : Pubkey) (amt : Z) : Prop :=
  amt <= token_amount c from
  /\ token_amount c' from = token_amount c from - amt
  /\ token_amount c' to = token_amount c to + amt.

Lemma transfer_moves s v seeds prog from to auth hooks amt dec c c' :
  vaults s c -> is_vault v -> from <> to ->
  invoke seeds (TransferChecked prog from (vault_mint s v) to auth hooks amt dec) c = Ok c' ->
  moved c c' from to amt.
Proof.
  intros Hv Hvv Hne Hx.
  destruct (transfer_effect _ _ _ _ _ _ _ _ _ _ _ Hx) as (a & b & H1 & H2 & Hle & H3 & H4); [|done|].
  { destruct (va_fee _ _ Hv v Hvv) as (m & ? & ?). intros m' Hm'. congruence. }
  unfold moved, token_amount. by rewrite H1, H2, H3, H4.
Qed.

Lemma moved_usdc_in s seeds prog from auth hooks amt dec c c' x :
  vaults s c -> token_account c from = Some x -> ta_owner x <> contract_state_address ->
  invoke seeds (TransferChecked prog from (ps_usdc_mint s) usdc_vault_address auth hooks amt dec) c
    = Ok c' ->
  moved c c' from usdc_vault_address amt.
Proof.
  intros Hv Hx Ho. rewrite <- (vault_mint_usdc s). apply transfer_moves; [done|apply is_vault_usdc|].
  intros ->. by eapply not_vault, is_vault_usdc.
Qed.

Lemma moved_usdc_out s seeds prog to auth hooks amt dec c c' x :
  vaults s c -> token_account c to = Some x -> ta_owner x <> contract_state_address ->
  invoke seeds (TransferChecked prog usdc_vault_address (ps_usdc_mint s) to auth hooks amt dec) c
    = Ok c' ->
  moved c c' usdc_vault_address to amt.
Proof.
  intros Hv Hx Ho. rewrite <- (vault_mint_usdc s). apply transfer_moves; [done|apply is_vault_usdc|].
  intros <-. by eapply not_vault, is_vault_usdc.
Qed.

Lemma moved_waln_in s seeds prog from auth hooks amt dec c c' x :
  vaults s c -> token_account c from = Some x -> ta_owner x <> contract_state_address ->
  invoke seeds (TransferChecked prog from (ps_waln_mint s) waln_vault_address auth hooks amt dec) c
    = Ok c' ->
  moved c c' from waln_vault_address amt.
Proof.
  intros Hv Hx Ho. rewrite <- (vault_mint_waln s). apply transfer_moves; [done|apply is_vault_waln|].
  intros ->. by eapply not_vault, is_vault_waln.
Qed.

Lemma moved_waln_out s seeds prog to auth hooks amt dec c c' x :
  vaults s c -> token_account c to = Some x -> ta_owner x <> contract_state_address ->
  invoke seeds (TransferChecked prog waln_vault_address (ps_waln_mint s) to auth hooks amt dec) c
    = Ok c' ->
  moved c c' waln_vault_address to amt.
Proof.
  intros Hv Hx Ho. rewrite <- (vault_mint_waln s). apply transfer_moves; [done|apply is_vault_waln|].
  intros <-. by eapply not_vault, is_vault_waln.
Qed.
End Transfers.

(** ** The lobby *)

Section LobbyProperties.
Context `{RuntimeLaws}.

(** C16: a deposit credits exactly its investor.  It needs an AAT NFT of the signer with
    a positive allocation, moves the amount from the signer's account to the vault, adds
    it to the signer's record, which is created when there is none, takes over the
    allocation of the NFT, never shortens the withdrawal lock, and leaves every other
    record alone; the lobby total grows by the amount. *)
Theorem deposit_credits_investor now a amount w w' :
  reachable w -> du_investor a <> contract_state_address ->
  deposit_usdc now a amount w = Ok w' ->
  let k := du_investor a in
  let r := default (empty_record k) (pool_map (w_pool w) !! k) in
  exists v r', pool_map (w_pool w') = <[k := r']> (pool_map (w_pool w))
    /\ 0 < amount /\ 0 < v
    /\ verify_aat_nft_and_get_allocation (w_chain w) (du_aat_nft a) k = Ok v
    /\ ir_usdc_deposited r' = ir_usdc_deposited r + amount
    /\ ir_usdc_locked_current_round r' = ir_usdc_locked_current_round r
    /\ ir_aat_volume r' = v
    /\ ir_usdc_unlock_ts r'
       = (if decide (0 < ps_usdc_withdraw_lock_seconds (w_state w))
          then Z.max (ir_usdc_unlock_ts r) (now + ps_usdc_withdraw_lock_seconds (w_state w))
          else ir_usdc_unlock_ts r)
    /\ ps_total_usdc_in_lobby (w_state w') = ps_total_usdc_in_lobby (w_state w) + amount
    /\ moved (w_chain w) (w_chain w') (du_investor_usdc_account a) usdc_vault_address amount.
Proof.
  intros Hi%reachable_inv Hsig Hx k r.
  apply deposit_usdc_ok in Hx as (v & r0 & r' & Hd); [|apply (inv_pool _ _ Hi)].
  destruct Hd as [_ Hamt Hmint Hvault (x & Hx & Hox) [Hvol Hpos] _ Hr Hu (dec & Htr) Hst _ _].
  assert (r0 = r) as ->.
  { unfold r, k. by destruct (pu_before _ _ _ _ _ Hu) as [->|[-> ->]]. }
  destruct (deposit_record_ok _ _ _ _ _ _ Hr) as (_ & ? & _ & ? & _ & _ & ? & ?).
  exists v, r'. rewrite Hst. split_and!; try done; [apply Hu|].
  rewrite Hmint, Hvault in Htr.
  eapply moved_usdc_in; [apply (inv_vaults _ _ Hi)|exact Hx|congruence|exact Htr].
Qed.

(** C15: a withdrawal debits exactly its investor.  It pays the signer, by one transfer from
    the vault, an amount that is positive and at most the unlocked deposit (all of it for
    [u64::MAX]), only after the record's unlock time.  Of the program's accounts it writes
    two numbers: the deposit in the investor's slot of the pool and the lobby total, each
    less by that amount; locks, all other slots, the rest of the state, the books and the
    records of settled rounds stay as they are. *)
Theorem withdraw_debits_investor now a amount w w' :
  reachable w -> wu_investor a <> contract_state_address ->
  withdraw_usdc now a amount w = Ok w' ->
  exists i r amt, find_record (wu_investor a) (w_pool w) = Ok (Some (i, r))
    /\ w' = w <| w_state := (w_state w) <| ps_total_usdc_in_lobby := ps_total_usdc_in_lobby (w_state w) - amt |> |>
              <| w_pool := (w_pool w) <| ip_investors :=
                   <[i := r <| ir_usdc_deposited := ir_usdc_deposited r - amt |>]> (ip_investors (w_pool w)) |> |>
              <| w_chain := w_chain w' |>
    /\ pool_map (w_pool w) !! wu_investor a = Some r
    /\ pool_map (w_pool w')
       = <[wu_investor a := r <| ir_usdc_deposited := ir_usdc_deposited r - amt |>]> (pool_map (w_pool w))
    /\ amt = (if decide (amount = u64_max) then ir_usdc_deposited r else amount)
    /\ 0 < amt <= ir_usdc_deposited r /\ ir_usdc_unlock_ts r <= now
    /\ moved (w_chain w) (w_chain w') usdc_vault_address (wu_investor_usdc_account a) amt
    /\ (exists seeds dec, invoke seeds
         (TransferChecked (wu_usdc_token_program a) usdc_vault_address (ps_usdc_mint (w_state w))
            (wu_investor_usdc_account a) (wu_contract_state a) [] amt dec) (w_chain w) = Ok (w_chain w'))
    /\ exists x, token_account (w_chain w) (wu_investor_usdc_account a) = Some x
                 /\ ta_owner x = wu_investor a.
Proof.
  intros Hi%reachable_inv Hsig Hx. destruct (withdraw_usdc_writes _ _ _ _ _ Hx) as (i & r0 & Hf & Hw').
  apply withdraw_usdc_ok in Hx as (r & amt & Hd); [|apply (inv_pool _ _ Hi)].
  destruct Hd as [_ Hmint Hvault (x & Hx & Hox) Hm Hts Hamt Hb Hu (seeds & dec & Htr) _ _].
  destruct (found_record _ _ _ _ Hi Hf) as (_ & _ & _ & Hm0). assert (r0 = r) as -> by congruence.
  rewrite Hmint, Hvault in Htr. rewrite <- Hamt in Hw'.
  exists i, r, amt. split; [exact Hf|]. split; [exact Hw'|].
  split_and!; [done|apply Hu|done|lia|lia|done| |eauto|eauto].
  eapply moved_usdc_out; [apply (inv_vaults _ _ Hi)|exact Hx|congruence|exact Htr].
Qed.

Lemma record_in_lobby w k r :
  inv w -> pool_map (w_pool w) !! k = Some r ->
  ir_investor r = k /\ record_wf r
  /\ ir_usdc_deposited r <= ps_total_usdc_in_lobby (w_state w) <= u64_max.
Proof.
  intros Hi Hm. pose proof (inv_pool _ _ Hi) as Hp.
  destruct (find_record_cases _ (pi_wf _ _ _ Hp) k) as [(i & r0 & _ & Hr & Hk & Hm0)|(_ & _ & ?)];
    [|congruence].
  assert (r0 = r) as -> by congruence. split; [done|].
  pose proof (pi_records _ _ _ Hp) as Hrec. split; [by eapply (Forall_lookup_1 _ _ _ _ Hrec)|].
  pose proof (total_locked_nonneg _ Hrec). rewrite (pi_lobby _ _ _ Hp).
  pose proof (pi_lobby_max _ _ _ Hp) as Hmax. rewrite (pi_lobby _ _ _ Hp) in Hmax.
  split; [|done]. unfold lobby_usdc. unfold total_locked in *.
  pose proof (deposited_nonneg _ Hrec) as Hd. rewrite Forall_forall in Hd.
  pose proof (sumZ_elem ir_usdc_deposited _ r Hd (list_elem_of_lookup_2 _ _ _ Hr)). lia.
Qed.

(** C19: nothing but the token program stops a withdrawal the rules allow.  When the
    contract is not frozen, the accounts are the right ones, the lock has passed and the
    amount is within the deposit, then [withdraw_usdc] succeeds as soon as the transfer
    out of the vault does, also while a round is in progress or sales are paused. *)
Theorem withdraw_allowed now a amount w m r c :
  reachable w -> WithdrawUsdc_accounts a w = Ok m ->
  wu_usdc_mint a = ps_usdc_mint (w_state w) -> ps_frozen (w_state w) = 0 ->
  pool_map (w_pool w) !! wu_investor a = Some r -> ir_usdc_unlock_ts r <= now ->
  0 < ir_usdc_deposited r -> 0 < amount <= ir_usdc_deposited r \/ amount = u64_max ->
  invoke [[CONTRACT_STATE_SEED; [ps_bump (w_state w)]]]
    (TransferChecked (wu_usdc_token_program a) (wu_usdc_vault a) (wu_usdc_mint a)
       (wu_investor_usdc_account a) (wu_contract_state a) []
       (if decide (amount = u64_max) then ir_usdc_deposited r else amount) (mi_decimals m))
    (w_chain w) = Ok c ->
  exists w', withdraw_usdc now a amount w = Ok w' /\ w_chain w' = c.
Proof.
  intros Hi%reachable_inv Hacc Hmint Hfr Hm Hts Hpos Hamt Htr.
  destruct (record_in_lobby _ _ _ Hi Hm) as (_ & (Hr & _ & _) & Hlob & Hmax).
  destruct (withdraw_pool_in now _ amount _ r (pi_wf _ _ _ (inv_pool _ _ Hi)) Hm Hr Hts Hpos Hamt)
    as (p' & Hp').
  unfold withdraw_usdc. rewrite Hacc. simpl. rewrite !require_true by done. simpl.
  rewrite Hp'. simpl. rewrite Htr. simpl. rewrite csub_in by (case_decide; unfold_range; lia).
  simpl. eauto.
Qed.

(** C24: removing an investor takes only inactive records and returns the deposit.  The
    investor's record, which holds neither allocation nor lock, disappears; every other
    record stays; and exactly the remaining deposit goes from the vault to an account of
    the investor. *)
Theorem remove_investor_refunds a w w' :
  reachable w -> remove_investor_from_pool a w = Ok w' ->
  exists r, pool_map (w_pool w) !! ri_investor a = Some r
    /\ ir_aat_volume r = 0 /\ ir_usdc_locked_current_round r = 0
    /\ pool_map (w_pool w') = delete (ri_investor a) (pool_map (w_pool w))
    /\ ps_total_usdc_in_lobby (w_state w')
       = ps_total_usdc_in_lobby (w_state w) - ir_usdc_deposited r
    /\ (exists x, token_account (w_chain w) (ri_investor_usdc_account a) = Some x
                  /\ ta_owner x = ri_investor a)
    /\ (w_chain w' = w_chain w /\ ir_usdc_deposited r = 0
        \/ moved (w_chain w) (w_chain w') usdc_vault_address (ri_investor_usdc_account a)
             (ir_usdc_deposited r)).
Proof.
  intros Hi%reachable_inv (r & Hs)%remove_investor_ok.
  destruct (rm_found _ _ _ _ Hs) as (i & Hf).
  destruct (found_record _ _ _ _ Hi Hf) as (Hk & Hne & (Hrd & _ & _) & Hm).
  destruct Hs as [_ Hmint Hvault (x & Hx & Hox) _ [Hv Hlk] Hrf Hnrf Hst Hpl _].
  destruct (remove_slot_spec _ (pi_wf _ _ _ (inv_pool _ _ Hi)) _ _ _ Hf)
    as (p' & Hrm & _ & _ & _ & Hmap).
  assert (p' = w_pool w') as -> by congruence.
  exists r. rewrite Hst. cbn. split_and!; try done; [unfold_range; lia|eauto|].
  destruct (decide (0 < ir_usdc_deposited r)) as [Hpos|Hz].
  - right. destruct (Hrf Hpos) as (seeds & prog & auth & dec & Htr). rewrite Hmint, Hvault in Htr.
    eapply moved_usdc_out; [apply (inv_vaults _ _ Hi)|exact Hx|congruence|exact Htr].
  - left. split; [apply Hnrf|]; unfold_range; lia.
Qed.
End LobbyProperties.

(** ** Starting and cancelling a round *)

Lemma unlock_record_in r : in_range U64 (ir_usdc_deposited (unlocked r)) -> unlock_record r = Ok (unlocked r).
Proof.
  unfold unlock_record, unlocked. intros Hr. case_decide as Hz; [|by rewrite cadd_in].
  destruct r; cbn in *. subst. unfold set. cbn. do 2 f_equal. lia.
Qed.

Lemma unlock_records_in l :
  Forall (fun r => in_range U64 (ir_usdc_deposited (unlocked r))) l ->
  unlock_records l = Ok (map unlocked l).
Proof.
  unfold unlock_records. induction 1 as [|r l Hr _ IH]; [done|]. cbn [mapAccM].
  rewrite unlock_record_in by done. cbn.
  destruct (mapAccM _ tt l) as [[u l']|e]; [|done]. cbn in *. by injection IH as ->.
Qed.

Lemma unlocked_locks ls before :
  length ls = length before -> Forall (fun r => ir_usdc_locked_current_round r = 0) before ->
  map unlocked (zip_with lock ls before) = before.
Proof.
  intros Hlen Hz. revert ls Hlen. induction Hz as [|r before Hr _ IH]; intros [|l ls] Hlen; try done.
  cbn in *. rewrite unlocked_lock by done. f_equal. apply IH. lia.
Qed.

Lemma write_active_undo p l :
  pool_wf p -> length l = length (records p) ->
  write_active (records p) (write_active l p) = p.
Proof.
  intros Hwf Hlen. pose proof (length_records p Hwf) as Hc. unfold write_active at 1.
  destruct p as [n b xs]. unfold records, write_active in *. cbn in *. unfold set. cbn. f_equal.
  rewrite drop_app_length' by lia. rewrite Hlen.
  replace (length (take (Z.to_nat n) xs)) with (Z.to_nat n) by lia. apply take_drop.
Qed.

Section CancelProperties.
Context `{RuntimeLaws}.

Lemma resting_idle w :
  inv w -> ps_round_started (w_state w) = 0 -> pool_inv idle (w_state w) (w_pool w).
Proof.
  intros Hi Hst. destruct (inv_pool _ _ Hi) as [? ? ? ? ? Hph ? ? ? ?]. constructor; try done.
  destruct Hph as [Hp|[[Hp _] _]]; [done|congruence].
Qed.

(** A round that was started automatically is cancelled: the pool is the one it was
    started from. *)
Lemma cancel_auto_start a size price d s p w :
  pool_inv idle s p -> auto_start size price d s p = Ok (w_state w, w_pool w) ->
  ps_round_started (w_state w) = 1 ->
  ca_admin a = ps_admin (w_state w) -> ca_contract_state a = contract_state_address ->
  ca_investor_pool a = investor_pool_address ->
  exists w2, cancel_round a w = Ok w2 /\ w_pool w2 = p
    /\ ps_round_started (w_state w2) = 0 /\ ps_total_usdc_locked_for_round (w_state w2) = 0
    /\ ps_total_usdc_in_lobby (w_state w2) = ps_total_usdc_in_lobby (w_state w)
    /\ w_chain w2 = w_chain w /\ w_round_locked_waln w2 = w_round_locked_waln w
    /\ w_round_record w2 = w_round_record w.
Proof.
  intros [Hwf Hrec _ _ _ (Hst & Hw & _ & Hz) _ _ _ _] Hx Hst' Hadm Hcs Hpl.
  apply sumZ_zero_Forall in Hz; [|by apply locked_nonneg].
  unfold auto_start in Hx. rewrite active_wf in Hx by done. cbn in Hx.
  destruct (execute_round_start _ _ _ _) as [[[ta tl] l']|e] eqn:Hstart;
    [|destruct e as [[]| | | |]; try discriminate; injection Hx as Hs _; rewrite <- Hs in Hst'; cbn in Hst'; congruence].
  injection Hx as Hs Hp.
  destruct (round_start_locks _ _ _ _ _ _ _ Hrec Hz Hstart) as (cap & ls & _ & -> & HF & _ & _ & _ & _ & _).
  pose proof (Forall2_length _ _ _ HF) as Hlen.
  assert (length (zip_with lock ls (records p)) = length (records p)) as Hlen'
    by (rewrite length_zip_with_l_eq; lia).
  assert (records (w_pool w) = zip_with lock ls (records p)) as Hrw
    by (rewrite <- Hp; by apply records_write_active).
  assert (pool_wf (w_pool w)) as Hwf'.
  { rewrite <- Hp. apply write_active_wf; [done|]. by apply lock_keys. }
  assert (ps_current_round_waln (w_state w) = 0) as Hw' by (by rewrite <- Hs).
  unfold cancel_round, check_admin, check_seeds.
  rewrite (require_true ((find_program_address [CONTRACT_STATE_SEED] ID).1 = ca_contract_state a)) by done.
  rewrite (require_true ((find_program_address [INVESTOR_POOL_SEED] ID).1 = ca_investor_pool a)) by done.
  cbn. rewrite !require_true by (done || congruence). cbn.
  rewrite active_wf by done. cbn. rewrite Hrw, unlock_records_in.
  - cbn. rewrite unlocked_locks by done. eexists. split; [done|]. cbn.
    split_and!; [rewrite <- Hp; by apply write_active_undo|done..].
  - apply Forall_lookup. intros i r Hr. rewrite lookup_zip_with in Hr.
    destruct (ls !! i) as [l|]; [|done]. destruct (records p !! i) as [r0|] eqn:Hr0; [|done].
    cbn in Hr. injection Hr as <-. rewrite unlocked_lock by (by eapply (Forall_lookup_1 _ _ _ _ Hz)).
    by apply (Forall_lookup_1 _ _ _ _ Hrec Hr0).
Qed.

(** What a full round goes through: its settlement, and the start of the next round. *)
Lemma complete_round_parts short now a rem w w' :
  inv_gen full short w ->
  let s := w_state w in
  complete_round now a rem (ps_current_round_floor_price s) (ps_waln_decimals s) (ps_round_size_waln s)
    (ps_floor_price_usdc s) w = Ok w' ->
  exists t p1 s1,
    settle_pool now (10 ^ ps_waln_decimals s) (ps_current_round_floor_price s) (ps_waln_dust_carryover s)
      (w_pool w) = Ok (t, p1)
    /\ pool_inv idle s1 p1
    /\ auto_start (ps_round_size_waln s) (ps_floor_price_usdc s) (ps_waln_decimals s) s1 p1
       = Ok (w_state w', w_pool w').
Proof.
  intros Hi s Hx. unfold complete_round in Hx. fold s in Hx.
  apply bind_ok in Hx as (u0 & _ & Hx). apply bind_ok in Hx as (unlock & _ & Hx).
  apply bind_ok in Hx as (rr & _ & Hx). apply bind_ok in Hx as (rlw & _ & Hx).
  apply bind_ok in Hx as (u1 & _ & Hx). apply bind_ok in Hx as (u2 & _ & Hx).
  apply bind_ok in Hx as (scale & [-> _]%pow10_u128_ok & Hx).
  apply bind_ok in Hx as ([t p1] & Hset & Hx).
  apply bind_ok in Hx as (w2 & (Hs2 & Hp2 & _)%write_round_locked_waln_ok & Hx).
  apply bind_ok in Hx as (log & _ & Hx).
  apply bind_ok in Hx as (w4 & (Hs4 & Hp4 & _)%write_round_record_ok & Hx).
  cbn in *. rewrite Hs4, Hs2 in Hx. rewrite Hp4, Hp2 in Hx.
  apply bind_ok in Hx as (s1 & Hfin & Hx). apply bind_ok in Hx as ([s2 p2] & Hauto & Hx).
  injection Hx as <-. exists t, p1, s1. split; [exact Hset|]. split; [|exact Hauto].
  by destruct (finish_inv _ _ _ _ _ _ _ (inv_pool _ _ Hi) eq_refl Hset Hfin) as (Hp1 & _).
Qed.

(** C25: cancelling takes an automatic start back exactly.  Let a sale fill its round and
    start the next one.  Cancelling that before anything is sold into it succeeds, every
    slot of the pool is what the settlement of the filled round left, and no round is in
    progress; the lobby total, the chain, the books and the records stay. *)
Theorem cancel_undoes_auto_start now b n w w1 a :
  reachable w -> sw_seller b <> contract_state_address ->
  sell_waln now b n w = Ok w1 ->
  ps_round_count (w_state w1) <> ps_round_count (w_state w) -> ps_round_started (w_state w1) = 1 ->
  ca_admin a = ps_admin (w_state w1) -> ca_contract_state a = contract_state_address ->
  ca_investor_pool a = investor_pool_address ->
  let s := w_state w in
  exists q tl p t p1 w2,
    sell_quote s (sw_waln_mint b) (sw_usdc_mint b) (ps_waln_decimals s) n = Ok q
    /\ sell_start q s (ps_waln_decimals s) (w_pool w) = Ok (tl, p)
    /\ settle_pool now (10 ^ ps_waln_decimals s) (q_floor_price q) (ps_waln_dust_carryover s) p = Ok (t, p1)
    /\ cancel_round a w1 = Ok w2 /\ w_pool w2 = p1
    /\ ps_round_started (w_state w2) = 0 /\ ps_total_usdc_locked_for_round (w_state w2) = 0
    /\ ps_total_usdc_in_lobby (w_state w2) = ps_total_usdc_in_lobby (w_state w1)
    /\ w_chain w2 = w_chain w1 /\ w_round_locked_waln w2 = w_round_locked_waln w1
    /\ w_round_record w2 = w_round_record w1.
Proof.
  intros Hi%reachable_inv Hsig Hx Hcount Hst Hadm Hcs Hpl s.
  destruct (sell_waln_parts _ _ _ _ _ Hi Hsig Hx)
    as (q & tl & rem & w0 & Hq & Hstart & _ & Hrc & Hdu & Hd & Hp & Hsz & Hpr & [[Hf Hc]|[_ ->]]);
    [|congruence].
  rewrite <- Hp, <- Hd, <- Hsz, <- Hpr in Hc.
  destruct (complete_round_parts _ _ _ _ _ _ Hf Hc) as (t & p1 & s1 & Hset & Hidle & Hauto).
  rewrite Hp, Hd, Hdu in Hset.
  destruct (cancel_auto_start _ _ _ _ _ _ _ Hidle Hauto Hst Hadm Hcs Hpl) as (w2 & Hw2 & Hfacts).
  exists q, tl, (w_pool w0), t, p1, w2. do 4 (split; [assumption|]). exact Hfacts.
Qed.
End CancelProperties.

(** ** Sales *)

Section SellProperties.
Context `{RuntimeLaws}.

(** The accounts of a settled round: the chain keeps what the contract owns, and only
    the book of that round appears. *)
Lemma complete_round_ok now a rem price d sn pn w w' :
  complete_round now a rem price d sn pn w = Ok w' ->
  keeps (w_chain w) (w_chain w')
  /\ ps_round_count (w_state w') = ps_round_count (w_state w) + 1
  /\ forall k, k <> round_locked_waln_address (ps_round_count (w_state w)) ->
       w_round_locked_waln w' !! k = w_round_locked_waln w !! k.
Proof.
  intros Hx. split_and!; [| by eapply complete_round_count|]; unfold complete_round in Hx;
    do 5 (apply bind_ok in Hx as (? & _ & Hx));
    apply bind_ok in Hx as (u2 & Hrlw%require_ok & Hx); apply bind_ok in Hx as (sc & _ & Hx);
    apply bind_ok in Hx as ([t p1] & _ & Hx);
    apply bind_ok in Hx as (w2 & (_ & _ & _ & _ & Hk2 & Hb2)%write_round_locked_waln_ok & Hx);
    apply bind_ok in Hx as (log & _ & Hx);
    apply bind_ok in Hx as (w4 & (_ & _ & Hb4 & _ & Hk4 & _)%write_round_record_ok & Hx);
    apply bind_ok in Hx as (s1 & _ & Hx); apply bind_ok in Hx as ([s2 p2] & _ & Hx);
    injection Hx as <-; cbn in *.
  - by transitivity (w_chain w2).
  - intros k Hk. rewrite Hb4, Hb2. case_decide; [done|]. apply lookup_insert_ne. congruence.
Qed.

(** The exchange moves exactly the two amounts. *)
Lemma sell_exchange_moves a w wm um hooks bump wd ud amt out c2 :
  sell_accounts_spec a w wm um -> vaults (w_state w) (w_chain w) ->
  sw_seller a <> contract_state_address ->
  sw_waln_mint a = ps_waln_mint (w_state w) -> sw_usdc_mint a = ps_usdc_mint (w_state w) ->
  sell_exchange a hooks bump wd ud amt out (w_chain w) = Ok c2 ->
  exists c1, moved (w_chain w) c1 (sw_seller_waln_account a) waln_vault_address amt
    /\ moved c1 c2 usdc_vault_address (sw_seller_usdc_account a) out.
Proof.
  intros [_ Huv Hwv _ _ _ (x & Hsx & Hox) (y & Hsy & Hoy)] Hv Hsig Hwm Hum Hex.
  unfold sell_exchange in Hex. apply bind_ok in Hex as (c1 & Hx1 & Hx2).
  rewrite Hwm, Hwv in Hx1. rewrite Hum, Huv in Hx2.
  assert (ta_owner x <> contract_state_address /\ ta_owner y <> contract_state_address)
    as [Hnx Hny] by (split; congruence).
  exists c1. split; [by eapply (moved_waln_in (w_state w))|].
  rewrite <- vault_mint_waln in Hx1. rewrite <- vault_mint_usdc in Hx2.
  destruct (vault_credit _ _ _ _ _ _ _ _ _ _ _ _ Hv is_vault_waln Hsx Hnx Hx1) as [Hv1 _].
  eapply (transfer_moves (w_state w)); [exact Hv1|apply is_vault_usdc| |exact Hx2].
  intros E. eapply (not_vault _ _ _ _ Hv Hsy Hny). rewrite <- E. apply is_vault_usdc.
Qed.

(** C12: a sale pays the floor price.  A sale that succeeds buys the amount asked for, or
    what is left of the round, pays the seller that amount at the round's price, rounded
    down and never nothing, out of the USDC vault, and takes exactly the wALN into the
    wALN vault; either the round now holds that much more, or it was full and is
    settled. *)
Theorem sell_pays_floor_price now a max w w' :
  reachable w -> sw_seller a <> contract_state_address ->
  sell_waln now a max w = Ok w' ->
  let s := w_state w in
  let amt := Z.min max (effective_size s - effective_waln s) in
  let out := amt * effective_price s / 10 ^ ps_waln_decimals s in
  0 < amt /\ 0 < out
  /\ (exists c1 c2, moved (w_chain w) c1 (sw_seller_waln_account a) waln_vault_address amt
        /\ moved c1 c2 usdc_vault_address (sw_seller_usdc_account a) out
        /\ keeps c2 (w_chain w'))
  /\ (effective_waln s + amt < effective_size s
        /\ ps_round_count (w_state w') = ps_round_count s
        /\ ps_round_started (w_state w') = 1
        /\ ps_current_round_waln (w_state w') = effective_waln s + amt
      \/ effective_waln s + amt = effective_size s
        /\ ps_round_count (w_state w') = ps_round_count s + 1).
Proof.
  intros Hi%reachable_inv Hsig Hx s amt out. unfold sell_waln in Hx.
  apply bind_ok in Hx as ([wm um] & Hacc%SellWaln_accounts_ok & Hx).
  apply bind_ok in Hx as (q & Hq%sell_quote_ok & Hx).
  apply bind_ok in Hx as ([tl p1] & Hstart & Hx). apply bind_ok in Hx as (o & Hout & Hx).
  apply bind_ok in Hx as ([hooks rem] & _ & Hx). apply bind_ok in Hx as (c2 & Hex & Hx).
  apply bind_ok in Hx as (s1 & Hrec & Hx).
  destruct (qs_mints _ _ _ _ _ _ Hq) as [Hwm Hum].
  pose proof (inv_vaults _ _ Hi) as Hv.
  assert (mi_decimals wm = ps_waln_decimals (w_state w)) as Hd.
  { destruct (va_decimals _ _ Hv) as (m & Hm & Hmd). pose proof (sa_waln_mint _ _ _ _ Hacc). congruence. }
  destruct (sale_inv _ _ _ _ _ _ _ _ _ _ _ (inv_pool _ _ Hi) Hd Hq Hstart Hout Hrec)
    as (Hp1 & _ & _ & Hwl & _ & Hsz & _ & _ & Hrc & _ & _ & _).
  destruct (sell_usdc_out_ok _ _ _ Hout) as (Ho & Hopos & _ & _).
  destruct Hq as [_ _ _ Hprice Hsize Hamt Hpos _ _].
  assert (effective_waln s = ps_current_round_waln s) as Heff.
  { unfold effective_waln. destruct (decide (ps_round_started s = 0)) as [Hz|_]; [|reflexivity].
    symmetry. apply (pi_phase _ _ _ (resting_idle _ Hi Hz)). }
  assert (o = out) as -> by (unfold out, amt, s; rewrite Ho, Hd, Hprice, Hamt; done).
  fold s in Hamt, Hsize. fold amt in Hamt. rewrite Hamt in *.
  assert (effective_waln s + amt <= effective_size s) as Hle by (unfold amt; lia).
  split_and!; [done|done| |].
  - destruct (sell_exchange_moves _ _ _ _ _ _ _ _ _ _ _ Hacc Hv Hsig Hwm Hum Hex) as (c1 & Hm1 & Hm2).
    exists c1, c2. split_and!; [done..|].
    case_decide; [|injection Hx as <-; apply keeps_refl]. by apply complete_round_ok in Hx as (Hk & _).
  - pose proof (pi_phase _ _ _ Hp1) as (Hst1 & _).
    case_decide as Hf.
    + right. apply complete_round_ok in Hx as (_ & Hrc' & _). cbn in Hrc'. rewrite Hwl in Hf. subst s. split; lia.
    + left. injection Hx as <-. cbn. rewrite Hwl in *. subst s. split_and!; (done || lia).
Qed.
End SellProperties.

(** ** Claims *)

Section ClaimProperties.
Context `{RuntimeLaws}.

(** What investor [k] may still claim of round [i]. *)
Definition claimable (w : World) (i : Z) (k : Pubkey) : Z :=
  match w_round_locked_waln w !! round_locked_waln_address i with
  | Some b => default 0 (alloc_map b !! k)
  | None => 0
  end.

(** The instructions that write a book. *)
Definition writes_books (ix : Instruction) : bool :=
  match ix with SellWalnIx _ _ | CloseRoundIx _ | ClaimWalnIx _ _ => true | _ => false end.

Lemma books_kept now ix w w' :
  writes_books ix = false -> dispatch now ix w = Ok w' ->
  w_round_locked_waln w' = w_round_locked_waln w.
Proof.
  intros Hb Hx. destruct ix; try discriminate; cbn in Hx;
    [unfold set_floor_price, with_state in Hx|unfold set_round_size, with_state in Hx
    |unfold set_lock_period, with_state in Hx|unfold set_usdc_withdraw_lock, with_state in Hx
    |unfold set_investor_usdc_unlock in Hx|unfold set_sell_paused, with_state in Hx
    |unfold set_frozen, with_state in Hx|unfold cancel_round in Hx
    |unfold remove_investor_from_pool in Hx|unfold fund_treasury in Hx
    |unfold withdraw_treasury in Hx|unfold deposit_usdc in Hx|unfold withdraw_usdc in Hx
    |unfold mint_aat_nft in Hx|unfold update_aat_volume in Hx
    |unfold transfer_authority, with_state in Hx|unfold accept_authority, with_state in Hx
    |unfold close_round_record in Hx].
  all: inv_ok; try done. case_decide; by inv_ok.
Qed.

Lemma sell_books now a n w w' k :
  sell_waln now a n w = Ok w' ->
  k <> round_locked_waln_address (ps_round_count (w_state w)) ->
  w_round_locked_waln w' !! k = w_round_locked_waln w !! k.
Proof.
  unfold sell_waln. intros Hx Hk. apply bind_ok in Hx as ([wm um] & _ & Hx).
  apply bind_ok in Hx as (q & _ & Hx). apply bind_ok in Hx as ([tl p1] & _ & Hx).
  apply bind_ok in Hx as (out & _ & Hx). apply bind_ok in Hx as ([hooks rem] & _ & Hx).
  apply bind_ok in Hx as (c & _ & Hx). apply bind_ok in Hx as (s1 & Hs & Hx).
  assert (ps_round_count s1 = ps_round_count (w_state w)) as Hrc.
  { unfold record_sale in Hs. inv_arith. by destruct (q_need_round_start q). }
  case_decide; [|by injection Hx as <-]. apply complete_round_ok in Hx as (_ & _ & Hb).
  cbn in *. apply Hb. by rewrite Hrc.
Qed.

Lemma close_books now a w w' k :
  close_round now a w = Ok w' ->
  k <> round_locked_waln_address (ps_round_count (w_state w)) ->
  w_round_locked_waln w' !! k = w_round_locked_waln w !! k.
Proof.
  unfold close_round, write_closed_round. intros Hx Hk. inv_ok.
  repeat match goal with
    | H : write_round_locked_waln _ _ _ _ _ _ _ = _ |- _ =>
        apply write_round_locked_waln_ok in H as (_ & _ & _ & _ & _ & Hb2)
    | H : write_round_record _ _ _ _ = _ |- _ =>
        apply write_round_record_ok in H as (_ & _ & Hb4 & _ & _ & _) end.
  cbn in *. rewrite Hb4, Hb2. case_decide; [done|]. by apply lookup_insert_ne.
Qed.

(** The books of a settled round change only by claims. *)
Lemma settled_book_kept now ix w w' i :
  inv w -> (forall a j, ix <> ClaimWalnIx a j) -> dispatch now ix w = Ok w' ->
  0 <= i < ps_round_count (w_state w) ->
  w_round_locked_waln w' !! round_locked_waln_address i
  = w_round_locked_waln w !! round_locked_waln_address i.
Proof.
  intros Hi Hc Hx Hlt. pose proof (pi_round_count _ _ _ (inv_pool _ _ Hi)) as Hr.
  assert (round_locked_waln_address i <> round_locked_waln_address (ps_round_count (w_state w))) as Hne.
  { intros E. apply round_locked_waln_address_inj in E; [lia|unfold_range; lia|done]. }
  destruct (writes_books ix) eqn:Hw; [|by rewrite (books_kept _ _ _ _ Hw Hx)].
  destruct ix; try discriminate; cbn in Hx; [by eapply close_books|by eapply sell_books|].
  by exfalso; eapply Hc.
Qed.

Lemma unclaimed_nonneg rlw : book_wf rlw -> 0 <= unclaimed rlw.
Proof.
  intros Hwf. apply sumZ_nonneg. intros x Hx. pose proof (bwf_amounts _ Hwf) as Ha.
  rewrite Forall_forall in Ha. specialize (Ha x Hx). unfold_range. lia.
Qed.

Lemma claim_entry_map now k rlw amt closes rlw' :
  book_wf rlw -> claim_entry now k rlw = Ok (amt, closes, rlw') ->
  0 < amt /\ alloc_map rlw !! k = Some amt /\ alloc_map rlw' = <[k := 0]> (alloc_map rlw)
  /\ (closes = true -> forall k', k' <> k -> default 0 (alloc_map rlw !! k') = 0).
Proof.
  intros Hwf Hx. destruct (claim_entry_cases rlw Hwf now k)
    as [(_ & Hc)|[(_ & _ & Hc)|[(_ & _ & Hc)|(i & x & _ & Hi & Hk & Hpos & Hm & Hc)]]];
    rewrite Hc in Hx; try discriminate. injection Hx as <- <- <-.
  pose proof (paid_out_map rlw Hwf i x Hi) as Hmap. rewrite Hk in Hmap. split_and!; [done..|].
  intros Hcl%bool_decide_eq_true k' Hne.
  pose proof (paid_out_wf rlw Hwf i x Hi Hpos) as Hwf'.
  apply (unclaimed_zero _ Hwf') in Hcl. unfold unclaimed in Hcl.
  apply sumZ_zero_Forall in Hcl.
  2: { eapply Forall_impl; [apply (bwf_amounts _ Hwf')|]. cbn. intros y Hy. unfold_range. lia. }
  destruct (alloc_map rlw !! k') as [v|] eqn:Hv; [|done]. cbn.
  assert (alloc_map (paid_out rlw i x) !! k' = Some v) as Hv' by (by rewrite Hmap, lookup_insert_ne).
  apply (alloc_map_lookup _ _ _ Hwf') in Hv'. apply (list_elem_of_fmap_1 entry) in Hv' as (b & Hb & Hin).
  injection Hb as _ ->. rewrite Forall_forall in Hcl. by apply Hcl.
Qed.

(** C3: an allocation is paid out at most once, in full, to its owner and by its owner's
    claim alone.  An instruction either leaves what investor [k] may claim of a settled
    round as it is, or is a claim signed by [k], after the round's unlock time, that
    leaves nothing and moves exactly that amount from the vault to an account of [k]. *)
Theorem allocation_paid_once now ix w w' i k :
  reachable w -> signer ix <> contract_state_address -> dispatch now ix w = Ok w' ->
  0 <= i < ps_round_count (w_state w) ->
  claimable w' i k = claimable w i k
  \/ claimable w' i k = 0 /\ 0 < claimable w i k
     /\ exists a j, ix = ClaimWalnIx a j /\ cw_investor a = k
        /\ (exists b, w_round_locked_waln w !! round_locked_waln_address i = Some b
                      /\ rlw_unlock b <= now)
        /\ exists c1 c2 x, keeps (w_chain w) c1
           /\ token_account c1 (cw_investor_waln_account a) = Some x /\ ta_owner x = k
           /\ moved c1 c2 waln_vault_address (cw_investor_waln_account a) (claimable w i k)
           /\ keeps c2 (w_chain w').
Proof.
  intros Hi%reachable_inv Hsig Hx Hlt. unfold claimable.
  assert ((exists a j, ix = ClaimWalnIx a j) \/ forall a j, ix <> ClaimWalnIx a j) as [(a & j & ->)|Hn].
  { destruct ix; eauto; by right. }
  2: { left. by rewrite (settled_book_kept _ _ _ _ _ Hi Hn Hx Hlt). }
  cbn in Hsig, Hx. apply claim_waln_ok in Hx as (rlw & rlw' & amt & closes & Hc).
  destruct Hc as [_ Hmint Hvault Hb He (c1 & c2 & seeds & prog & auth & hooks & dec & Hk1 & (x & Hx & Hox) & Htr & Hk2) Hbooks _ _].
  rewrite Hbooks. destruct (decide (round_locked_waln_address i = cw_round_locked_waln a)) as [Hia|Hia].
  2: { left. destruct closes; [by rewrite lookup_delete_ne|by rewrite lookup_insert_ne]. }
  rewrite Hia, Hb. destruct (inv_books _ _ Hi _ _ Hb) as (Hwf & _).
  destruct (claim_entry_map _ _ _ _ _ _ Hwf He) as (Hpos & Hm & Hmap & Hcl).
  destruct (decide (k = cw_investor a)) as [->|Hne].
  - right. rewrite Hm. cbn. split_and!; [|done|].
    + destruct closes; [by rewrite lookup_delete_eq|]. by rewrite lookup_insert_eq, Hmap, lookup_insert_eq.
    + exists a, j. split_and!; [done..| |].
      * exists rlw. split; [done|]. unfold claim_entry in He. by inv_ok.
      * exists c1, c2, x. split_and!; try done. rewrite Hmint, Hvault in Htr.
        destruct (vaults_keeps _ _ _ Hk1 (inv_vaults _ _ Hi)) as [Hv1 _].
        eapply moved_waln_out; [exact Hv1|exact Hx|congruence|exact Htr].
  - left. destruct closes.
    + rewrite lookup_delete_eq. symmetry. by apply Hcl.
    + by rewrite lookup_insert_eq, Hmap, lookup_insert_ne.
Qed.

(** C20: a claim the rules allow is covered and goes through.  When the contract is not
    frozen, the accounts and hook accounts check, the round is unlocked and the
    investor's allocation is not claimed yet, then the vault holds the allocation, and
    [claim_waln] succeeds as soon as the transfer does, leaving the investor nothing to
    claim in that round (the last claim must not overflow the treasury's lamports). *)
Theorem claim_allowed now a i w rlw m c1 c2 amt :
  reachable w -> ClaimWaln_accounts a i w = Ok (rlw, m, c1) ->
  ps_frozen (w_state w) = 0 -> cw_waln_mint a = ps_waln_mint (w_state w) ->
  rlw_unlock rlw <= now -> alloc_map rlw !! cw_investor a = Some amt -> 0 < amt ->
  claim_hook_accounts a c1 = Ok tt ->
  invoke [[CONTRACT_STATE_SEED; [ps_bump (w_state w)]]]
    (TransferChecked (cw_waln_token_program a) (cw_waln_vault a) (cw_waln_mint a)
       (cw_investor_waln_account a) (cw_contract_state a) (cw_remaining_accounts a)
       amt (mi_decimals m)) c1 = Ok c2 ->
  in_range U64 (lamports c2 (cw_treasury a) + lamports c2 (cw_round_locked_waln a)) ->
  amt <= token_amount (w_chain w) waln_vault_address
  /\ exists w', claim_waln now a i w = Ok w'
     /\ match w_round_locked_waln w' !! cw_round_locked_waln a with
        | Some b => alloc_map b !! cw_investor a = Some 0
        | None => True
        end.
Proof.
  intros Hi%reachable_inv Hacc Hfr Hmint Hun Hm Hpos Hhook Htr Hlam.
  assert (w_round_locked_waln w !! cw_round_locked_waln a = Some rlw) as Hb
    by (unfold ClaimWaln_accounts in Hacc; by inv_ok).
  destruct (inv_books _ _ Hi _ _ Hb) as (Hwf & _).
  destruct (claim_entry_cases rlw Hwf now (cw_investor a))
    as [(? & _)|[(_ & ? & _)|[(_ & ? & _)|(n & x & _ & Hn & Hk & _ & Hm' & He)]]];
    [lia|congruence|simplify_eq; lia|].
  assert (ia_waln_amount x = amt) as Hamt by congruence. rewrite Hamt in He.
  split.
  - pose proof (inv_waln _ _ Hi). pose proof (claim_entry_ok _ _ _ _ _ _ Hwf He) as (Hwf' & Hu & _).
    assert (unclaimed rlw <= reserved (w_round_locked_waln w)).
    { apply (sumM_elem _ _ (cw_round_locked_waln a)); [|done].
      intros k b Hkb. by apply unclaimed_nonneg, (inv_books _ _ Hi _ _ Hkb). }
    pose proof (unclaimed_nonneg _ Hwf'). pose proof (pi_dust _ _ _ (inv_pool _ _ Hi)).
    pose proof (pi_waln _ _ _ (inv_pool _ _ Hi)). unfold_range. lia.
  - unfold claim_waln. rewrite Hacc. simpl. rewrite !require_true by done. simpl.
    rewrite He. simpl. rewrite Hhook. simpl. rewrite Htr. simpl.
    destruct (bool_decide _).
    + unfold close_book. rewrite cadd_in by done. simpl. eexists. split; [done|]. simpl.
      by rewrite lookup_delete_eq.
    + eexists. split; [done|]. simpl. rewrite lookup_insert_eq, paid_out_map by done.
      rewrite Hk. apply lookup_insert_eq.
Qed.
End ClaimProperties.

(** ** Concrete instances *)

Lemma deposit_credits_investor_witness :
  exists w w', dispatch sample_now (deposit_for 1 7) w = Ok w'
    /\ ps_total_usdc_in_lobby (w_state w') = ps_total_usdc_in_lobby (w_state w) + 7.
Proof.
  destruct (after_snoc setup (deposit_for 1 7)) as (w & w' & Hw & Hx & _); [vm_compute; reflexivity|].
  exists w, w'. split; [done|].
  destruct (deposit_credits_investor sample_now
    (mkDepositUsdc (investor_key 1) contract_state_address investor_pool_address
       usdc_mint_key (investor_usdc 1) usdc_vault_address (aat_nft_address (investor_key 1))
       (associated_token_address (investor_key 1) (aat_nft_address (investor_key 1)) token_2022_id)
       token_2022_id token_id system_program_id) 7 w w') as (v & r' & Hr).
  - apply (after_ok setup); [done|vm_compute; reflexivity].
  - by_decide.
  - exact Hx.
  - apply Hr.
Defined.

Lemma withdraw_debits_investor_witness :
  exists w w', dispatch sample_now (withdraw_for 3 u64_max) w = Ok w'
    /\ ps_total_usdc_in_lobby (w_state w') < ps_total_usdc_in_lobby (w_state w).
Proof.
  destruct (after_snoc setup (withdraw_for 3 u64_max)) as (w & w' & Hw & Hx & _); [vm_compute; reflexivity|].
  exists w, w'. split; [done|].
  destruct (withdraw_debits_investor sample_now
    (mkWithdrawUsdc (investor_key 3) contract_state_address investor_pool_address
       usdc_mint_key (investor_usdc 3) usdc_vault_address token_id) u64_max w w')
    as (i & r & amt & _ & Hw' & _ & _ & _ & Hb & _).
  - apply (after_ok setup); [done|vm_compute; reflexivity].
  - by_decide.
  - exact Hx.
  - rewrite Hw'. cbn. lia.
Defined.

Definition sample_withdrawal : WithdrawUsdc :=
  mkWithdrawUsdc (investor_key 3) contract_state_address investor_pool_address
    usdc_mint_key (investor_usdc 3) usdc_vault_address token_id.

Definition pay_out (w : World) (amt : Z) : R Chain :=
  invoke [[CONTRACT_STATE_SEED; [ps_bump (w_state w)]]]
    (TransferChecked (wu_usdc_token_program sample_withdrawal) (wu_usdc_vault sample_withdrawal)
       (wu_usdc_mint sample_withdrawal) (wu_investor_usdc_account sample_withdrawal)
       (wu_contract_state sample_withdrawal) [] amt 6) (w_chain w).

Lemma withdraw_allowed_witness :
  exists w w', withdraw_usdc sample_now sample_withdrawal 400000 w = Ok w'.
Proof.
  destruct setup_world as (w & Hw & Hr).
  assert (WithdrawUsdc_accounts sample_withdrawal w = Ok (mkMint 6 None false None)) as Ha
    by (apply (field_ok (WithdrawUsdc_accounts sample_withdrawal) _ _ _ Hw); vm_compute; reflexivity).
  assert (ps_usdc_mint (w_state w) = usdc_mint_key) as Hm
    by (apply (field_ok (fun w => ps_usdc_mint (w_state w)) _ _ _ Hw); vm_compute; reflexivity).
  assert (ps_frozen (w_state w) = 0) as Hf
    by (apply (field_ok (fun w => ps_frozen (w_state w)) _ _ _ Hw); vm_compute; reflexivity).
  assert (pool_map (w_pool w) !! investor_key 3
          = Some (mkInvestorRecord (investor_key 3) 1000000 0 0 0 1 0)) as Hp
    by (apply (field_ok (fun w => pool_map (w_pool w) !! investor_key 3) _ _ _ Hw); vm_compute; reflexivity).
  assert (err_of (pay_out w 400000) = None) as [c Hc]%err_of_None
    by (apply (field_ok (fun w => err_of (pay_out w 400000)) _ _ _ Hw); vm_compute; reflexivity).
  destruct (withdraw_allowed sample_now sample_withdrawal 400000 w _ _ c Hr Ha (eq_sym Hm) Hf Hp)
    as (w' & Hx & _); [by_decide|by_decide|left; cbn; lia|exact Hc|]. exists w, w'. exact Hx.
Defined.

Lemma remove_investor_refunds_witness :
  exists w w', dispatch sample_now (remove_for 3) w = Ok w'
    /\ pool_map (w_pool w') = delete (investor_key 3) (pool_map (w_pool w)).
Proof.
  destruct (after_snoc (setup ++ [update_for 3 0]) (remove_for 3)) as (w & w' & Hw & Hx & _);
    [vm_compute; reflexivity|].
  exists w, w'. split; [done|].
  destruct (remove_investor_refunds
    (mkRemoveInvestorFromPool admin_key contract_state_address investor_pool_address
       (investor_key 3) usdc_mint_key (investor_usdc 3) usdc_vault_address token_id) w w')
    as (r & _ & _ & _ & Hd & _).
  - apply (after_ok (setup ++ [update_for 3 0])); [done|vm_compute; reflexivity].
  - exact Hx.
  - exact Hd.
Defined.

(** The first two investors can pay for two rounds: the sale of the first starts the
    second. *)
Definition two_rounds : list Instruction :=
  [mint_for 1 1; mint_for 2 1; fund 100000000000; deposit_for 1 10000000; deposit_for 2 10000000].

Lemma cancel_undoes_auto_start_witness :
  exists w w1 w2, dispatch sample_now (sell 0 1000000000) w = Ok w1
    /\ ps_round_started (w_state w1) = 1 /\ cancel_round cancel w1 = Ok w2
    /\ ps_round_started (w_state w2) = 0
    /\ ps_total_usdc_in_lobby (w_state w2) = ps_total_usdc_in_lobby (w_state w1).
Proof.
  destruct (after_snoc two_rounds (sell 0 1000000000)) as (w & w1 & Hw & Hx & Hw1); [vm_compute; reflexivity|].
  assert (ps_round_count (w_state w) = 0) as H0
    by (apply (field_ok (fun w => ps_round_count (w_state w)) _ _ _ Hw); vm_compute; reflexivity).
  assert ((ps_round_count (w_state w1), ps_round_started (w_state w1), ps_admin (w_state w1))
          = (1, 1, admin_key)) as [= H1 H2 H3]
    by (apply (field_ok (fun w => (ps_round_count (w_state w), ps_round_started (w_state w),
          ps_admin (w_state w))) _ _ _ Hw1); vm_compute; reflexivity).
  destruct (cancel_undoes_auto_start sample_now
    (mkSellWaln seller_key contract_state_address investor_pool_address waln_mint_key
       usdc_mint_key seller_waln seller_usdc waln_vault_address usdc_vault_address treasury_address
       token_2022_id token_id system_program_id
       [round_record_address 0; round_locked_waln_address 0]) 1000000000 w w1 cancel)
    as (q & tl & p & t & p1 & w2 & _ & _ & _ & Hc & _ & Hs & _ & Hl & _).
  - apply (after_ok two_rounds); [done|vm_compute; reflexivity].
  - by_decide.
  - exact Hx.
  - rewrite H0, H1. done.
  - exact H2.
  - exact (eq_sym H3).
  - reflexivity.
  - reflexivity.
  - exists w, w1, w2. split; [exact Hx|]. split; [exact H2|]. split; [exact Hc|]. split; [exact Hs|exact Hl].
Defined.

Lemma sell_pays_floor_price_witness :
  exists w w', dispatch sample_now (sell 0 1000000000) w = Ok w'
    /\ effective_price (w_state w) = 5000003
    /\ 0 < Z.min 1000000000 (effective_size (w_state w) - effective_waln (w_state w)).
Proof.
  destruct (after_snoc setup (sell 0 1000000000)) as (w & w' & Hw & Hx & _); [vm_compute; reflexivity|].
  exists w, w'. split; [done|]. split.
  { apply (field_ok (fun w => effective_price (w_state w)) _ _ _ Hw). vm_compute. reflexivity. }
  refine (proj1 (sell_pays_floor_price sample_now
    (mkSellWaln seller_key contract_state_address investor_pool_address waln_mint_key
       usdc_mint_key seller_waln seller_usdc waln_vault_address usdc_vault_address treasury_address
       token_2022_id token_id system_program_id
       [round_record_address 0; round_locked_waln_address 0]) 1000000000 w w' _ _ Hx)).
  - apply (after_ok setup); [done|vm_compute; reflexivity].
  - by_decide.
Defined.

Lemma allocation_paid_once_witness :
  exists w w', dispatch (sample_now + 100) (claim_for 1 0) w = Ok w'
    /\ 0 < claimable w 0 (investor_key 1) /\ claimable w' 0 (investor_key 1) = 0.
Proof.
  destruct sold_world as (w & Hw & Hr).
  assert (err_of (dispatch (sample_now + 100) (claim_for 1 0) w) = None) as [w' Hx]%err_of_None
    by (apply (field_ok (fun w => err_of (dispatch (sample_now + 100) (claim_for 1 0) w)) _ _ _ Hw);
        vm_compute; reflexivity).
  assert (ps_round_count (w_state w) = 1) as Hc
    by (apply (field_ok (fun w => ps_round_count (w_state w)) _ _ _ Hw); vm_compute; reflexivity).
  assert (claimable w 0 (investor_key 1) = 499999900) as H1
    by (apply (field_ok (fun w => claimable w 0 (investor_key 1)) _ _ _ Hw); vm_compute; reflexivity).
  assert (field (fun w' => claimable w' 0 (investor_key 1)) (dispatch (sample_now + 100) (claim_for 1 0) w)
          = Some 0) as H2
    by (apply (field_ok (fun w => field (fun w' => claimable w' 0 (investor_key 1))
                                    (dispatch (sample_now + 100) (claim_for 1 0) w)) _ _ _ Hw);
        vm_compute; reflexivity).
  rewrite Hx in H2. injection H2 as H2.
  exists w, w'. split; [exact Hx|].
  destruct (allocation_paid_once (sample_now + 100) (claim_for 1 0) w w' 0 (investor_key 1) Hr)
    as [Heq|(Hz & Hpos & _)]; [by_decide|exact Hx|lia| |split; assumption].
  exfalso. rewrite H1, H2 in Heq. discriminate.
Defined.

Definition sample_claim : ClaimWaln :=
  mkClaimWaln (investor_key 1) contract_state_address (round_locked_waln_address 0)
    treasury_address waln_mint_key
    (associated_token_address (investor_key 1) waln_mint_key token_2022_id) waln_vault_address
    token_2022_id associated_token_program_id system_program_id [].

(** The chain a claim's transfer leaves, and the two balances a closed book would move. *)
Definition claim_transfer (w : World) (c : Chain) : R Chain :=
  invoke [[CONTRACT_STATE_SEED; [ps_bump (w_state w)]]]
    (TransferChecked token_2022_id waln_vault_address waln_mint_key
       (cw_investor_waln_account sample_claim) contract_state_address [] 499999900 9) c.

Definition claim_steps (w : World) : R (option Z * Z * Z * Z * Chain * Chain) :=
  '(rlw, m, c1) ← ClaimWaln_accounts sample_claim 0 w;
  _ ← claim_hook_accounts sample_claim c1;
  c2 ← claim_transfer w c1;
  Ok (alloc_map rlw !! investor_key 1, rlw_unlock rlw, mi_decimals m,
      lamports c2 treasury_address + lamports c2 (round_locked_waln_address 0), c1, c2).

Lemma claim_allowed_witness :
  exists w w', claim_waln (sample_now + 100) sample_claim 0 w = Ok w'
    /\ 499999900 <= token_amount (w_chain w) waln_vault_address.
Proof.
  destruct sold_world as (w & Hw & Hr).
  assert ((fun r => match r with Ok (a, u, d, l, _, _) => Some (a, u, d, bool_decide (in_range U64 l))
                    | Err _ => None end) (claim_steps w)
          = Some (Some 499999900, sample_now + 100, 9, true)) as Hs
    by (apply (field_ok (fun w => (fun r => match r with Ok (a, u, d, l, _, _) =>
                 Some (a, u, d, bool_decide (in_range U64 l)) | Err _ => None end) (claim_steps w)) _ _ _ Hw);
        vm_compute; reflexivity).
  assert (ps_frozen (w_state w) = 0 /\ ps_waln_mint (w_state w) = waln_mint_key) as [Hf Hm].
  { split; [apply (field_ok (fun w => ps_frozen (w_state w)) _ _ _ Hw)
           |apply (field_ok (fun w => ps_waln_mint (w_state w)) _ _ _ Hw)]; vm_compute; reflexivity. }
  unfold claim_steps in Hs. destruct (ClaimWaln_accounts sample_claim 0 w) as [[[rlw m] c1]|] eqn:Ha;
    [|discriminate]. cbn [mbind result_bind] in Hs.
  destruct (claim_hook_accounts sample_claim c1) as [[]|] eqn:Hh; [|discriminate].
  cbn [mbind result_bind] in Hs. destruct (claim_transfer w c1) as [c2|] eqn:Ht; [|discriminate].
  cbn [mbind result_bind] in Hs. injection Hs as Hal Hun Hd Hl. apply bool_decide_eq_true in Hl.
  destruct (claim_allowed (sample_now + 100) sample_claim 0 w rlw m c1 c2 499999900 Hr Ha Hf (eq_sym Hm))
    as (Hv & w' & Hx & _);
    [rewrite Hun; lia|exact Hal|lia|exact Hh|rewrite Hd; exact Ht|exact Hl|].
  exists w, w'. split; [exact Hx|exact Hv].
Defined.
