(* ===== verification/Params.v ===== *)
(** * Parameters and allocations over a run

    The parameters of the next round stay viable, the total AAT volume stays within its
    limit, an update of an allocation reaches the NFT and the pool alike, the transfer
    hook accepts one list of accounts only, and initialization belongs to the upgrade
    authority. *)
From coqutil Require Import Datatypes.RecordSettersUsingExistingGetters.
From stdpp Require Import base gmap strings numbers list.
From S2P Require Import Prelude.
From S2P Require Import State.
From S2P Require Import Pool.
From S2P Require Import Runtime.
From S2P Require Import Sandbox.
From S2P Require Import Vaults.
From S2P Require Import Utils.
From S2P Require Import RoundStart.
From S2P Require Import Settlement.
From S2P Require Import AllocBook.
From S2P Require Import RoundAccounts.
From S2P Require Import Lobby.
From S2P Require Import Sell.
From S2P Require Import CloseRound.
From S2P Require Import Claim.
From S2P Require Import Admin.
From S2P Require Import Aat.
From S2P Require Import Init.
From S2P Require Import Invariant.
From S2P Require Import System.
From S2P Require Import Scenario.
From S2P Require Import Access.

From S2P Require Import Operations.
#[local] Open Scope Z_scope.

(** ** Parameters *)

(** The next round can start: its cap is positive and it is at least the smallest sale. *)
Definition viable (s : ProgramState) : Prop :=
  require_viable_round_params (ps_round_size_waln s) (ps_floor_price_usdc s) (ps_waln_decimals s)
  = Ok tt.

(** The AAT total is within its limit. *)
Definition aat_bounded (s : ProgramState) : Prop := 0 <= ps_total_aat_volume s <= MAX_TOTAL_AAT_VOLUME.

Lemma viable_config s s' : config s' = config s -> viable s -> viable s'.
Proof. unfold viable. by intros [= _ _ _ _ _ -> -> -> _ _ _ _ _]. Qed.

Lemma aat_bounded_config s s' : config s' = config s -> aat_bounded s -> aat_bounded s'.
Proof. unfold aat_bounded. by intros [= _ _ _ _ _ _ _ _ _ _ -> _ _]. Qed.

Lemma viable_ok size price d u : require_viable_round_params size price d = Ok u ->
  require_viable_round_params size price d = Ok tt.
Proof. by destruct u. Qed.

(** A start with a positive cap does not complain about its parameters. *)
Lemma eligibility_loop_err fuel cap l : eligibility_loop fuel cap l <> Err (Floor InvalidParameter).
Proof.
  revert l. induction fuel as [|fuel IH]; intros l Hx; [done|]. cbn in Hx.
  unfold sum_volumes, recheck, required_lock in Hx. inv_err; try done.
  by apply IH in Hx.
Qed.

Lemma execute_round_start_err_pos l size price d cap :
  round_cap size price d = Ok cap -> 0 < cap ->
  execute_round_start l size price d <> Err (Floor InvalidParameter).
Proof.
  intros Hc Hpos Hx. unfold execute_round_start in Hx. rewrite Hc in Hx. cbn [mbind result_bind] in Hx.
  rewrite (require_true (0 < cap)) in Hx by done. cbn [mbind result_bind] in Hx. inv_err; try done.
  - by apply eligibility_loop_err in Hx.
  - by apply lock_share_err in Hx.
  - by apply cover_gap_err in Hx.
Qed.

Section ParamsRun.
Context `{RuntimeLaws}.

(** What an instruction of the administration may do to the parameters and the total. *)
Lemma admin_params now ix w w' :
  user_instruction ix = false -> dispatch now ix w = Ok w' -> arguments_ok ix ->
  viable (w_state w) -> aat_bounded (w_state w) -> viable (w_state w') /\ aat_bounded (w_state w').
Proof.
  unfold viable, aat_bounded. intros Hu Hx [Ha _] Hv Hb. destruct ix; try discriminate; cbn in Hx;
    [unfold set_floor_price, with_state in Hx|unfold set_round_size, with_state in Hx
    |unfold set_lock_period, with_state in Hx|unfold set_usdc_withdraw_lock, with_state in Hx
    |unfold set_investor_usdc_unlock in Hx|unfold set_sell_paused, with_state in Hx
    |unfold set_frozen, with_state in Hx|unfold cancel_round in Hx
    |unfold remove_investor_from_pool in Hx|unfold close_round, write_closed_round, close_state in Hx
    |unfold fund_treasury in Hx|unfold withdraw_treasury in Hx
    |unfold mint_aat_nft, mint_total in Hx|unfold update_aat_volume, update_total in Hx
    |unfold transfer_authority, with_state in Hx|unfold accept_authority, with_state in Hx
    |unfold close_round_record in Hx].
  all: inv_arith; cbn; try done; try (split; [by eapply viable_ok|done]).
  - case_decide; by inv_arith.
  - match goal with H : write_round_locked_waln _ _ _ _ _ _ _ = _ |- _ =>
      apply write_round_locked_waln_state in H; rename H into Hs2 end.
    match goal with H : write_round_record _ _ _ _ = _ |- _ =>
      apply write_round_record_state in H; rename H into Hs4 end.
    cbn in *. by rewrite Hs4, Hs2.
  - split; [done|]. unfold_range. lia.
  - split; [done|]. unfold_range. lia.
Qed.

Lemma reachable_params w : reachable w -> viable (w_state w) /\ aat_bounded (w_state w).
Proof.
  induction 1 as [a price size period c w _ Hx _|w w' _ [Hv Hb] Hs].
  - unfold initialize in Hx. apply bind_ok in Hx as ([[um wm] c1] & _ & Hx). inv_ok. cbn.
    split; [by eapply viable_ok|]. unfold aat_bounded, MAX_TOTAL_AAT_VOLUME. cbn. lia.
  - destruct Hs as [now ix w' _ Hsig Ha Hx|c _]; [|done].
    destruct (user_instruction ix) eqn:Hu; [|by eapply admin_params].
    pose proof (user_config _ _ _ _ Hu Hx) as Hc.
    split; [by eapply viable_config|by eapply aat_bounded_config].
Qed.

(** C34: the next round can always be priced.  In every reachable world the configured
    round size and price give a positive USDC cap and a size of at least the smallest
    sale, so starting a round never fails for its parameters: it starts, or it fails
    because no investor is eligible, or on a checked overflow. *)
Theorem round_params_viable w :
  reachable w ->
  let s := w_state w in
  viable s /\ execute_round_start (records (w_pool w)) (ps_round_size_waln s)
                (ps_floor_price_usdc s) (ps_waln_decimals s) <> Err (Floor InvalidParameter).
Proof.
  intros Hr s. destruct (reachable_params w Hr) as [Hv _]. split; [done|]. fold s in Hv.
  unfold viable, require_viable_round_params in Hv. apply bind_ok in Hv as (cap & Hc & Hv).
  apply bind_ok in Hv as (u & Hpos%require_ok & _). intros Hx.
  by apply (execute_round_start_err_pos _ _ _ _ _ Hc Hpos) in Hx.
Qed.

(** The AAT volume of all NFTs is limited: in every reachable world the recorded
    total lies between zero and [MAX_TOTAL_AAT_VOLUME]. *)
Theorem aat_total_bounded w :
  reachable w -> 0 <= ps_total_aat_volume (w_state w) <= MAX_TOTAL_AAT_VOLUME.
Proof. intros Hr. apply (reachable_params w Hr). Qed.
End ParamsRun.

(** ** Allocations *)

Lemma find_volume_written f1 f2 v :
  in_range U64 v -> aat_volume_key ∉ f1.*1 ->
  find_aat_volume (f1 ++ (aat_volume_key, u64_to_string v) :: f2) = Ok v.
Proof.
  intros Hr. induction f1 as [|[key value] f1 IH]; cbn [app find_aat_volume]; intros Hk.
  - rewrite decide_True by done. by rewrite parse_u64_to_string_ok.
  - rewrite decide_False by set_solver. apply IH. set_solver.
Qed.

Section Allocations.
Context `{RuntimeLaws}.

Lemma update_pool_volume_ok w k v p' :
  inv w -> update_pool_volume k v (w_pool w) = Ok p' ->
  pool_map p' = alter (fun r => r <| ir_aat_volume := v |>) k (pool_map (w_pool w)).
Proof.
  intros Hi Hx. unfold update_pool_volume in Hx. apply bind_ok in Hx as (found & Hf & Hx).
  pose proof (pi_wf _ _ _ (inv_pool _ _ Hi)) as Hwf. apply map_eq. intros j.
  destruct found as [[i r]|].
  - destruct (found_record _ _ _ _ Hi Hf) as (Hk & _ & _ & Hm).
    destruct (set_slot_update _ i k r (r <| ir_aat_volume := v |>) Hwf Hf) as (p2 & Hs & _ & Hu & _);
      [done|]. assert (p2 = p') as -> by congruence. rewrite (pu_map _ _ _ _ _ Hu).
    destruct (decide (j = k)) as [->|Hne].
    + by rewrite lookup_insert_eq, lookup_alter_eq, Hm.
    + by rewrite lookup_insert_ne, lookup_alter_ne.
  - injection Hx as <-. destruct (find_record_cases _ Hwf k) as [(? & ? & ? & _)|(_ & _ & Hm)]; [congruence|].
    destruct (decide (j = k)) as [->|Hne]; [by rewrite lookup_alter_eq, Hm|by rewrite lookup_alter_ne].
Qed.

(** C30: an update of an allocation is consistent.  Only between rounds, it makes the
    investor's NFT say the new volume (the next deposit reads it back from the decimal
    string in the metadata), gives the investor's pool record the same volume and
    leaves other records alone, and moves the total by the difference. *)
Theorem update_aat_volume_consistent a v w w' :
  reachable w -> in_range U64 v -> update_aat_volume a v w = Ok w' ->
  exists old, ps_round_started (w_state w) = 0
    /\ verify_aat_nft_and_get_allocation (w_chain w) (uv_mint a) (uv_investor a) = Ok old
    /\ verify_aat_nft_and_get_allocation (w_chain w') (uv_mint a) (uv_investor a) = Ok v
    /\ pool_map (w_pool w')
       = alter (fun r => r <| ir_aat_volume := v |>) (uv_investor a) (pool_map (w_pool w))
    /\ ps_total_aat_volume (w_state w') = ps_total_aat_volume (w_state w) - old + v.
Proof.
  intros Hi%reachable_inv Hv Hx. unfold update_aat_volume, update_total in Hx. inv_arith.
  match goal with H : verify_aat_nft_and_get_allocation _ _ _ = Ok ?o |- _ => rename H into Hold; exists o end.
  match goal with H : update_pool_volume _ _ _ = _ |- _ => apply (update_pool_volume_ok _ _ _ _ Hi) in H end.
  match goal with H : invoke _ _ _ = _ |- _ =>
    apply metadata_update_effect in H as (Ho & m & f1 & f2 & Hm & Hf & Hk) end.
  cbn. split_and!; try done.
  unfold verify_aat_nft_and_get_allocation in Hold |- *. inv_ok.
  rewrite !require_true by congruence. simpl. rewrite Hm. simpl. rewrite Hf. simpl.
  by apply find_volume_written.
Qed.
End Allocations.

(** ** Transfer hooks *)

Section Hooks.
Context `{Runtime}.

(** The eight accounts of a transfer with the hook, derived from the mint, the owner and
    the hook's configuration account. *)
Definition expected_hook_accounts (c : Chain) (mint owner hook : Pubkey) : list Pubkey :=
  let pda seeds program := (find_program_address seeds program).1 in
  let config := pda [bytes_of "config"; mint] hook in
  let data := account_data c config in
  let credential := bytes_at 40 32 data in
  let schema := bytes_at 72 32 data in
  let sas_program := bytes_at 104 32 data in
  [config; credential; schema; sas_program;
   pda [bytes_of "attestation"; credential; schema; owner] sas_program;
   pda [bytes_of "whitelist"; mint; owner] hook;
   hook;
   pda [bytes_of "extra-account-metas"; mint] hook].

(** C33: the transfer hook's accounts cannot be substituted: [validate_hook_accounts]
    accepts exactly one list of accounts, the one derived from the mint, the owner and
    the hook program, and only when the configuration account holds its 136 bytes. *)
Theorem validate_hook_accounts_exact c l mint owner hook :
  validate_hook_accounts c l mint owner hook = Ok tt
  <-> l = expected_hook_accounts c mint owner hook
      /\ (136 <= length (account_data c (find_program_address [bytes_of "config"; mint] hook).1))%nat.
Proof.
  split.
  - unfold validate_hook_accounts. intros Hx.
    destruct l as [|r0 [|r1 [|r2 [|r3 [|r4 [|r5 [|r6 [|r7 [|r8 l]]]]]]]]]; try discriminate.
    inv_ok. subst. done.
  - intros [-> Hlen]. unfold validate_hook_accounts, expected_hook_accounts.
    repeat (rewrite require_true by done; cbn [mbind result_bind]). done.
Qed.
End Hooks.

(** ** Initialization *)

Section Initialization.
Context `{RuntimeLaws}.

(** C36: only the program's upgrade authority initializes it, with viable parameters and
    a wALN mint without transfer fees; the new world has both vaults, owned by the
    contract's address, an empty pool, no round and no books, and its admin is the
    upgrade authority. *)
Theorem initialize_by_upgrade_authority a price size period c w :
  initialize a price size period c = Ok w ->
  upgrade_authority (w_chain w) (in_program_data a) = Some (Some (in_admin a))
  /\ programdata_address (w_chain w) (in_program a) = Ok (Some (in_program_data a))
  /\ in_program a = ID
  /\ ps_admin (w_state w) = in_admin a /\ 0 < price /\ 0 <= period
  /\ viable (w_state w)
  /\ (exists u, token_account (w_chain w) usdc_vault_address = Some u
                /\ ta_owner u = contract_state_address /\ ta_mint u = in_usdc_mint a)
  /\ (exists u, token_account (w_chain w) waln_vault_address = Some u
                /\ ta_owner u = contract_state_address /\ ta_mint u = in_waln_mint a)
  /\ records (w_pool w) = [] /\ ps_round_started (w_state w) = 0
  /\ ps_total_usdc_in_lobby (w_state w) = 0 /\ w_round_locked_waln w = ∅.
Proof.
  unfold initialize. intros Hx. apply bind_ok in Hx as ([[um wm] c4] & Hacc & Hx).
  unfold Initialize_accounts in Hacc. apply bind_ok in Hacc as (c1 & Hi1 & Hacc).
  apply bind_ok in Hacc as (um' & _ & Hacc). apply bind_ok in Hacc as (wm' & _ & Hacc).
  apply bind_ok in Hacc as (c2 & Hi2 & Hacc). apply bind_ok in Hacc as (c3 & Hi3 & Hacc).
  apply bind_ok in Hacc as (c4' & Hi4 & Hacc).
  assert (in_contract_state a = contract_state_address) as Hcs.
  { unfold init_account in Hi1. unfold contract_state_address.
    destruct (find_program_address [CONTRACT_STATE_SEED] ID) as [k b].
    by apply bind_ok in Hi1 as (u & Hk%require_ok & _). }
  apply init_token_account_ok in Hi2 as (_ & T2 & E2); [|done..].
  apply init_token_account_ok in Hi3 as (K3 & T3 & E3); [|done..].
  apply init_account_keeps in Hi4 as K4; [|done..]. rewrite Hcs in *.
  rewrite E2 in T2. rewrite E3 in T3. fold usdc_vault_address in T2. fold waln_vault_address in T3.
  destruct (keeps_tokens _ _ K3 _ _ T2 eq_refl) as (u3 & HU3 & HUo & HUm & _).
  destruct (keeps_tokens _ _ K4 _ _ HU3 HUo) as (ua & HU & HUo' & HUm' & _).
  destruct (keeps_tokens _ _ K4 _ _ T3 eq_refl) as (wa & HW & HWo & HWm & _).
  unfold check_program in Hacc. inv_ok. cbn [w_chain]. cbn in HUo, HUm, HWo, HWm. split_and!; try done.
  - congruence.
  - congruence.
  - by eapply viable_ok.
  - exists ua. split_and!; [done|congruence|congruence].
  - exists wa. done.
Qed.
End Initialization.

(** ** Concrete instances *)

Lemma round_params_viable_witness :
  exists w, ps_floor_price_usdc (w_state w) = 5000003 /\ viable (w_state w).
Proof.
  destruct setup_world as (w & Hw & Hr). exists w. split.
  - apply (field_ok (fun w => ps_floor_price_usdc (w_state w)) _ _ _ Hw). vm_compute. reflexivity.
  - exact (proj1 (round_params_viable w Hr)).
Defined.

Lemma aat_total_bounded_witness :
  exists w, ps_total_aat_volume (w_state w) = 3 /\ 0 <= ps_total_aat_volume (w_state w) <= 1000000.
Proof.
  destruct setup_world as (w & Hw & Hr). exists w. split; [|exact (aat_total_bounded w Hr)].
  apply (field_ok (fun w => ps_total_aat_volume (w_state w)) _ _ _ Hw). vm_compute. reflexivity.
Defined.

Lemma update_aat_volume_consistent_witness :
  exists w w', dispatch sample_now (update_for 3 7) w = Ok w'
    /\ verify_aat_nft_and_get_allocation (w_chain w') (aat_nft_address (investor_key 3)) (investor_key 3)
       = Ok 7.
Proof.
  destruct (after_snoc setup (update_for 3 7)) as (w & w' & Hw & Hx & _); [vm_compute; reflexivity|].
  exists w, w'. split; [exact Hx|].
  destruct (update_aat_volume_consistent
    (mkUpdateAatVolume admin_key contract_state_address investor_pool_address
       (investor_key 3) (aat_nft_address (investor_key 3))
       (find_program_address [NFT_AUTHORITY_SEED] ID).1 token_2022_id system_program_id) 7 w w')
    as (old & _ & _ & Hn & _).
  - apply (after_ok setup); [exact Hw|vm_compute; reflexivity].
  - by_decide.
  - exact Hx.
  - exact Hn.
Defined.

Lemma initialize_by_upgrade_authority_witness :
  exists w, world0 = Ok w
    /\ upgrade_authority (w_chain w) program_data_key = Some (Some admin_key).
Proof.
  assert (err_of world0 = None) as [w Hw]%err_of_None by (vm_compute; reflexivity).
  exists w. split; [exact Hw|].
  exact (proj1 (initialize_by_upgrade_authority init_accounts 5000003 1000000000 100 chain0 w Hw)).
Defined.
