(* ===== verification/Nft.v ===== *)
(** * What becomes of the AAT NFTs

    The handlers read an investor's allocation from the metadata of the investor's NFT.
    [NftLaws] is what Token-2022 and the system program promise about the mints at the
    NFTs' addresses, which only the program can sign for; the lemmas of this file say
    what each handler does to them: [mint_aat_nft] and [update_aat_volume] write one, all
    others leave them alone ([nfts_kept]). *)
From coqutil Require Import Datatypes.RecordSettersUsingExistingGetters.
From stdpp Require Import base gmap strings numbers list.
From S2P Require Import Prelude.
From S2P Require Import State.
From S2P Require Import Pool.
From S2P Require Import Runtime.
From S2P Require Import Sandbox.
From S2P Require Import Utils.
From S2P Require Import RoundStart.
From S2P Require Import Settlement.
From S2P Require Import AllocBook.
From S2P Require Import RoundAccounts.
From S2P Require Import Lobby.
From S2P Require Import Sell.
From S2P Require Import CloseRound.
From S2P Require Import Claim.
From S2P Require Import Admin.
From S2P Require Import Aat.
From S2P Require Import Invariant.
From S2P Require Import System.
From S2P Require Import Params.
#[local] Open Scope Z_scope.

Section Fields.
Context `{Runtime}.

(** The metadata fields of a Token-2022 mint. *)
Definition nft_fields (c : Chain) (k : Pubkey) : option (list (string * string)) :=
  if decide (account_owner c k = token_2022_id) then m ← mint_account c k; mi_metadata m else None.

(** The volume on the NFT of an investor. *)
Definition nft_volume (c : Chain) (investor : Pubkey) : option Z :=
  fields ← nft_fields c (aat_nft_address investor);
  match find_aat_volume fields with Ok v => Some v | Err _ => None end.

Lemma nft_volume_verify c k v :
  verify_aat_nft_and_get_allocation c (aat_nft_address k) k = Ok v <-> nft_volume c k = Some v.
Proof.
  unfold verify_aat_nft_and_get_allocation, nft_volume, nft_fields.
  rewrite (require_true (aat_nft_address k = _)) by done. cbn [mbind result_bind].
  case_decide as Ho; [rewrite require_true by done|by rewrite require_false by done].
  cbn [mbind result_bind]. destruct (mint_account c _) as [m|]; [|done]. cbn.
  destruct (mi_metadata m) as [f|]; [|done]. cbn.
  destruct (find_aat_volume f); split; congruence.
Qed.

(** An instruction that may give the account [k] another owner, or change it in any way. *)
Definition assigns (i : Cpi) (k : Pubkey) : Prop :=
  match i with
  | SystemCreateAccount _ x _ _ _ | SystemAssign x _ => x = k
  | _ => False
  end.

Definition touches (i : Cpi) (k : Pubkey) : Prop :=
  match i with
  | SystemCreateAccount _ x _ _ _ | SystemAllocate x _ | SystemAssign x _
  | InitializeAccount3 _ x _ _ | InitializeMetadataPointer x _ _
  | InitializeNonTransferableMint x | InitializeMint2 x _ _ _ | MetadataUpdateField x _ _ _ => x = k
  | MetadataInitialize x _ y _ _ _ _ => x = k \/ y = k
  | _ => False
  end.
End Fields.

(** The mints at the NFTs' addresses: their metadata changes by the instructions that name
    them, their owner only by the system program, with the address's signature.  An
    account is allocated while the system program owns it. *)
Class NftLaws `{RuntimeLaws} : Prop := {
  token_2022_not_system : token_2022_id <> system_program_id;
  nft_frame seeds i c c' k :
    invoke seeds i c = Ok c' -> ~ touches i (aat_nft_address k) ->
    nft_fields c' (aat_nft_address k) = nft_fields c (aat_nft_address k);
  owner_frame seeds i c c' k :
    invoke seeds i c = Ok c' -> ~ assigns i (aat_nft_address k) ->
    account_owner c' (aat_nft_address k) = account_owner c (aat_nft_address k);
  allocate_owner seeds k space c c' :
    invoke seeds (SystemAllocate k space) c = Ok c' -> account_owner c k = system_program_id;
  assign_effect seeds k o c c' :
    invoke seeds (SystemAssign k o) c = Ok c' -> account_owner c' k = o;
  set_lamports_fields k v c x : nft_fields (set_lamports k v c) x = nft_fields c x;
  assign_account_fields k o c x : k <> x -> nft_fields (assign_account k o c) x = nft_fields c x;
  clear_data_fields k c x : k <> x -> nft_fields (clear_data k c) x = nft_fields c x;
}.

(** [holder k]: [k] is one of the keys that use the program as investors.  Their NFTs'
    addresses collide neither with each other nor with the program's other addresses. *)
Class NftAddresses `{Runtime} (holder : Pubkey -> Prop) : Prop := {
  nft_address_inj k1 k2 :
    holder k1 -> holder k2 -> aat_nft_address k1 = aat_nft_address k2 -> k1 = k2;
  nft_address_apart k s b x :
    holder k -> program_seeds s -> create_program_address (s ++ [[b]]) ID = Some x ->
    x <> aat_nft_address k;
}.

Section Kept.
Context `{NftLaws} (holder : Pubkey -> Prop) `{!NftAddresses holder}.

(** The NFTs of all holders stay as they are. *)
Definition nfts_kept (c c' : Chain) : Prop :=
  forall k, holder k -> nft_fields c' (aat_nft_address k) = nft_fields c (aat_nft_address k).

#[export] Instance nfts_kept_preorder : PreOrder nfts_kept.
Proof. split; [by intros c k|]. intros c1 c2 c3 H12 H23 k Hk. by rewrite H23, H12. Qed.

Lemma nfts_kept_volume c c' k : nfts_kept c c' -> holder k -> nft_volume c' k = nft_volume c k.
Proof. intros Hc Hk. unfold nft_volume. by rewrite Hc. Qed.

Lemma address_apart k s : holder k -> program_seeds s -> (find_program_address s ID).1 <> aat_nft_address k.
Proof.
  intros Hk Hs. destruct (find_program_address s ID) as [x b] eqn:Hf.
  eapply nft_address_apart; [done..|]. by apply pda_bump.
Qed.

Lemma invoke_nfts seeds i c c' :
  (forall k, holder k -> ~ touches i (aat_nft_address k)) -> invoke seeds i c = Ok c' -> nfts_kept c c'.
Proof. intros Ht Hx k Hk. eapply nft_frame; eauto. Qed.

Lemma transfer_nfts seeds prog from mint to auth hooks amt dec c c' :
  invoke seeds (TransferChecked prog from mint to auth hooks amt dec) c = Ok c' -> nfts_kept c c'.
Proof. apply invoke_nfts. by intros k _ []. Qed.

Lemma system_transfer_nfts seeds from to amt c c' :
  invoke seeds (SystemTransfer from to amt) c = Ok c' -> nfts_kept c c'.
Proof. apply invoke_nfts. by intros k _ []. Qed.

(** An account of the program that is closed. *)
Lemma close_nfts key owner treasury v c :
  (forall k, holder k -> key <> aat_nft_address k) ->
  nfts_kept c (clear_data key (assign_account key owner (set_lamports key 0 (set_lamports treasury v c)))).
Proof.
  intros Hkey k Hk. specialize (Hkey k Hk).
  by rewrite clear_data_fields, assign_account_fields, !set_lamports_fields.
Qed.

Lemma fund_round_account_nfts treasury key seeds space c c' :
  (forall k, holder k -> key <> aat_nft_address k) ->
  fund_round_account treasury key seeds space c = Ok c' -> nfts_kept c c'.
Proof.
  intros Hkey Hx. unfold fund_round_account in Hx. case_decide.
  { eapply invoke_nfts; [|exact Hx]; exact Hkey. }
  apply bind_ok in Hx as (c1 & Hc1 & Hx). apply bind_ok in Hx as (c2 & Hc2 & Hx).
  transitivity c1; [|transitivity c2].
  - case_decide; [by eapply system_transfer_nfts|by injection Hc1 as <-].
  - eapply invoke_nfts; [|exact Hc2]; exact Hkey.
  - eapply invoke_nfts; [|exact Hx]; exact Hkey.
Qed.

Lemma round_record_apart i k : in_range U64 i -> holder k -> round_record_address i <> aat_nft_address k.
Proof. intros. apply address_apart; [done|by constructor]. Qed.
Lemma round_locked_waln_apart i k :
  in_range U64 i -> holder k -> round_locked_waln_address i <> aat_nft_address k.
Proof. intros. apply address_apart; [done|by constructor]. Qed.

Lemma write_round_locked_waln_nfts treasury i idx b u l w w' :
  in_range U64 i ->
  write_round_locked_waln treasury (round_locked_waln_address i) idx b u l w = Ok w' ->
  nfts_kept (w_chain w) (w_chain w').
Proof.
  unfold write_round_locked_waln. intros Hi Hx. case_decide; [by injection Hx as <-|].
  apply bind_ok in Hx as (c & Hc & Hx). injection Hx as <-.
  eapply fund_round_account_nfts, Hc. intros. by apply round_locked_waln_apart.
Qed.

Lemma write_round_record_nfts treasury i r w w' :
  in_range U64 i -> write_round_record treasury (round_record_address i) r w = Ok w' ->
  nfts_kept (w_chain w) (w_chain w').
Proof.
  unfold write_round_record. intros Hi Hx. apply bind_ok in Hx as (c & Hc & Hx). injection Hx as <-.
  eapply fund_round_account_nfts, Hc. intros. by apply round_record_apart.
Qed.
End Kept.

(** ** What a round does to the volumes in the pool: nothing *)

(** An investor and the volume of the investor's record. *)
Definition rating (r : InvestorRecord) : Pubkey * Z := (ir_investor r, ir_aat_volume r).
Definition ratings (p : InvestorPool) : list (Pubkey * Z) := rating <$> records p.

Lemma rating_keys (l : list InvestorRecord) : (rating <$> l).*1 = ir_investor <$> l.
Proof. rewrite <- list_fmap_compose. by apply list_fmap_ext. Qed.

Lemma write_active_ratings p l :
  pool_wf p -> rating <$> l = ratings p ->
  pool_wf (write_active l p) /\ ratings (write_active l p) = ratings p.
Proof.
  intros Hwf Hl. split.
  - apply write_active_wf; [done|]. by rewrite <- !rating_keys, Hl.
  - unfold ratings at 1. rewrite records_write_active; [done|done|].
    rewrite <- (length_fmap rating l), Hl. apply length_fmap.
Qed.

Notation rated := (fun c : candidate => rating c.1).

Lemma eligibility_loop_ratings fuel cap l total l' :
  eligibility_loop fuel cap l = Ok (total, l') -> rated <$> l' = rated <$> l.
Proof.
  intros (HF & _)%eligibility_loop_ok. induction HF as [|c c' l l' [Hc _] _ IH]; [done|].
  rewrite !fmap_cons. by f_equal; [rewrite Hc|].
Qed.

Lemma lock_share_rating cap total t c t' c' :
  lock_share cap total t c = Ok (t', c') -> rating c'.1 = rating c.1.
Proof.
  unfold lock_share. intros Hx. destruct (negb c.2); [by inv_ok|].
  apply bind_ok in Hx as (req & _ & Hx). case_decide; by inv_arith.
Qed.

Lemma cover_gap_ratings gap t l t' l' : cover_gap gap t l = Ok (t', l') -> rated <$> l' = rated <$> l.
Proof.
  intros [(_ & -> & _)|(i & c & Hi & _ & _ & _ & ->)]%cover_gap_ok; [done|].
  rewrite list_fmap_insert. apply list_insert_id. by rewrite list_lookup_fmap, Hi.
Qed.

Lemma execute_round_start_ratings l size price d res l' :
  execute_round_start l size price d = Ok (res, l') -> rating <$> l' = rating <$> l.
Proof.
  unfold execute_round_start. intros Hx. do 3 apply bind_ok in Hx as (? & _ & Hx).
  apply bind_ok in Hx as ([total l1] & H1%eligibility_loop_ratings & Hx).
  apply bind_ok in Hx as ([t l2] & H2 & Hx). apply bind_ok in Hx as ([t' l3] & H3 & Hx).
  injection Hx as _ <-. apply (mapAccM_map rated rated) in H2; [|intros; by eapply lock_share_rating].
  assert (rated <$> l3 = rated <$> l2) as H3'.
  { case_decide; [|by injection H3 as _ <-]. apply bind_ok in H3 as (gap & _ & H3).
    by apply cover_gap_ratings in H3. }
  change (map fst l3) with (fst <$> l3). rewrite <- list_fmap_compose.
  change (rating ∘ fst) with rated. rewrite H3', H2, H1.
  change (map ?f l) with (f <$> l). rewrite <- list_fmap_compose. by apply list_fmap_ext.
Qed.

Lemma settle_records_ratings scale price l t l' :
  settle_records scale price l = Ok (t, l') -> rating <$> l' = rating <$> l.
Proof.
  apply mapAccM_map. unfold settle_record. intros t0 r t1 r' Hx. case_decide; by inv_arith.
Qed.

Lemma distribute_dust_ratings now dust t l t' l' :
  distribute_dust now dust t l = Ok (t', l') -> rating <$> l' = rating <$> l.
Proof.
  unfold distribute_dust. intros Hx. case_decide; [|by inv_ok]. cbv zeta in Hx.
  do 3 apply bind_ok in Hx as (? & _ & Hx).
  destruct (list_find _ l) as [[i r]|] eqn:Hf; [|by inv_ok].
  apply bind_ok in Hx as (? & _ & Hx). injection Hx as _ <-.
  apply list_find_Some in Hf as (Hi & _). rewrite list_fmap_insert. apply list_insert_id.
  by rewrite list_lookup_fmap, Hi.
Qed.

Lemma close_records_ratings scale price W paid l t l' :
  close_records scale price W paid l = Ok (t, l') -> rating <$> l' = rating <$> l.
Proof.
  unfold close_records. intros Hx. do 6 apply bind_ok in Hx as (? & _ & Hx).
  apply bind_ok in Hx as ([t1 l1] & H1 & Hx). inv_ok. revert H1.
  apply mapAccM_map. unfold close_record. intros t0 r t2 r' Hx. case_decide; [by inv_ok|].
  do 4 apply bind_ok in Hx as (? & _ & Hx). apply bind_ok in Hx as ([s rem] & _ & Hx). by inv_arith.
Qed.

Lemma unlock_records_ratings l l' : unlock_records l = Ok l' -> rating <$> l' = rating <$> l.
Proof.
  unfold unlock_records. intros Hx. apply bind_ok in Hx as ([u l1] & H1 & Hx). injection Hx as <-.
  revert H1. apply mapAccM_map. intros s r s' r' Hx. apply bind_ok in Hx as (r1 & Hx & Heq).
  injection Heq as _ <-. unfold unlock_record in Hx. case_decide; by inv_arith.
Qed.

(** The same for the pool: it stays well formed, with the same ratings. *)
Definition same_ratings (p p' : InvestorPool) : Prop :=
  pool_wf p -> pool_wf p' /\ ratings p' = ratings p.

#[export] Instance same_ratings_preorder : PreOrder same_ratings.
Proof.
  split; [by intros p|]. intros p1 p2 p3 H12 H23 H1. destruct (H12 H1) as [H2 E2].
  destruct (H23 H2) as [H3 E3]. split; [done|congruence].
Qed.

Lemma settle_pool_ratings now scale price dust p t p' :
  settle_pool now scale price dust p = Ok (t, p') -> same_ratings p p'.
Proof.
  intros Hx Hwf. unfold settle_pool in Hx. rewrite active_wf in Hx by done. cbn [mbind result_bind] in Hx.
  apply bind_ok in Hx as ([t1 l1] & H1%settle_records_ratings & Hx).
  apply bind_ok in Hx as ([t2 l2] & H2%distribute_dust_ratings & Hx). injection Hx as _ <-.
  apply write_active_ratings; [done|]. by rewrite H2, H1.
Qed.

Lemma close_pool_ratings scale price W paid p t p' :
  close_pool scale price W paid p = Ok (t, p') -> same_ratings p p'.
Proof.
  intros Hx Hwf. unfold close_pool in Hx. rewrite active_wf in Hx by done. cbn [mbind result_bind] in Hx.
  apply bind_ok in Hx as ([t1 l1] & H1%close_records_ratings & Hx). injection Hx as _ <-.
  by apply write_active_ratings.
Qed.

Lemma sell_start_ratings q s d p tl p' : sell_start q s d p = Ok (tl, p') -> same_ratings p p'.
Proof.
  intros Hx Hwf. unfold sell_start in Hx. destruct (q_need_round_start q); [|by inv_ok].
  rewrite active_wf in Hx by done. cbn [mbind result_bind] in Hx.
  apply bind_ok in Hx as ([[ta tl'] l'] & H1%execute_round_start_ratings & Hx). inv_ok.
  by apply write_active_ratings.
Qed.

Lemma auto_start_ratings size price d s p s' p' :
  auto_start size price d s p = Ok (s', p') -> same_ratings p p'.
Proof.
  intros Hx Hwf. unfold auto_start in Hx. rewrite active_wf in Hx by done. cbn [mbind result_bind] in Hx.
  destruct (execute_round_start _ _ _ _) as [[[ta tl] l']|[[]| | | |]] eqn:He; try discriminate Hx;
    injection Hx as _ <-; try done.
  by apply write_active_ratings, (execute_round_start_ratings _ _ _ _ _ _ He).
Qed.

(** ** The handlers *)

Section Handlers.
Context `{NftLaws} (holder : Pubkey -> Prop) `{!NftAddresses holder}.
Notation kept := (nfts_kept holder).

Lemma complete_round_kept now a rem price d sn pn w w' :
  in_range U64 (ps_round_count (w_state w)) -> complete_round now a rem price d sn pn w = Ok w' ->
  kept (w_chain w) (w_chain w') /\ same_ratings (w_pool w) (w_pool w').
Proof.
  intros Hi Hx. unfold complete_round in Hx. do 2 apply bind_ok in Hx as (? & _ & Hx).
  do 2 apply bind_ok in Hx as (? & _ & Hx).
  apply bind_ok in Hx as (u1 & <-%require_ok & Hx). apply bind_ok in Hx as (u2 & <-%require_ok & Hx).
  apply bind_ok in Hx as (? & _ & Hx). apply bind_ok in Hx as ([t p1] & Hp%settle_pool_ratings & Hx).
  apply bind_ok in Hx as (w2 & H2 & Hx). apply bind_ok in Hx as (log & _ & Hx).
  apply bind_ok in Hx as (w4 & H4 & Hx). apply bind_ok in Hx as (s1 & _ & Hx).
  apply bind_ok in Hx as ([s2 p2] & H5%auto_start_ratings & Hx). injection Hx as <-.
  destruct (write_round_locked_waln_ok _ _ _ _ _ _ _ _ H2) as (_ & Hp2 & _).
  destruct (write_round_record_ok _ _ _ _ _ H4) as (_ & Hp4 & _).
  apply (write_round_locked_waln_nfts holder) in H2; [|done].
  apply (write_round_record_nfts holder) in H4; [|done]. cbn in *. split; [by etrans|].
  etrans; [exact Hp|]. by rewrite <- Hp2, <- Hp4.
Qed.

Lemma sell_waln_kept now a max w w' :
  in_range U64 (ps_round_count (w_state w)) -> sell_waln now a max w = Ok w' ->
  kept (w_chain w) (w_chain w') /\ same_ratings (w_pool w) (w_pool w').
Proof.
  unfold sell_waln. intros Hi Hx. apply bind_ok in Hx as ([wm um] & _ & Hx).
  apply bind_ok in Hx as (q & _ & Hx). apply bind_ok in Hx as ([tl p1] & Hp%sell_start_ratings & Hx).
  apply bind_ok in Hx as (out & _ & Hx). apply bind_ok in Hx as ([hooks rem] & _ & Hx).
  apply bind_ok in Hx as (c & Hc & Hx). apply bind_ok in Hx as (s1 & Hs & Hx).
  assert (kept (w_chain w) c) as Hk.
  { unfold sell_exchange in Hc. apply bind_ok in Hc as (c1 & Hc1 & Hc).
    transitivity c1; by eapply transfer_nfts. }
  assert (ps_round_count s1 = ps_round_count (w_state w)) as Hcount.
  { unfold record_sale in Hs. inv_arith. by destruct (q_need_round_start q). }
  case_decide; [|injection Hx as <-; done].
  apply complete_round_kept in Hx as [Hk' Hp']; cbn in *; [|by rewrite Hcount].
  split; by etrans.
Qed.

Lemma claim_waln_kept now a i w w' :
  in_range U64 i -> claim_waln now a i w = Ok w' -> kept (w_chain w) (w_chain w') /\ w_pool w' = w_pool w.
Proof.
  unfold claim_waln. intros Hi Hx. apply bind_ok in Hx as ([[rlw wm] c1] & Hacc & Hx).
  do 2 apply bind_ok in Hx as (? & _ & Hx). apply bind_ok in Hx as ([[amt closes] rlw'] & _ & Hx).
  apply bind_ok in Hx as (? & _ & Hx). apply bind_ok in Hx as (c2 & Hc2%(transfer_nfts holder) & Hx).
  unfold ClaimWaln_accounts in Hacc. inv_ok.
  match goal with H : init_associated _ _ _ _ _ _ = _ |- _ => rename H into Hinit end.
  match goal with H : create_program_address _ _ = _ |- _ => rename H into Hkey end.
  assert (kept (w_chain w) c2) as Hk.
  { transitivity c1; [|done]. unfold init_associated in Hinit.
    destruct (token_account _ _); [by inv_ok|]. apply bind_ok in Hinit as (c3 & Hc3 & Hinit).
    inv_ok. eapply invoke_nfts; [|exact Hc3]. by intros k _ []. }
  destruct closes; [|by injection Hx as <-].
  apply bind_ok in Hx as (c3 & Hc3 & Hx). injection Hx as <-. split; [|done].
  unfold close_book in Hc3. apply bind_ok in Hc3 as (total & _ & Hc3). injection Hc3 as <-.
  transitivity c2; [done|]. apply close_nfts. intros k Hk'.
  apply (nft_address_apart k [ROUND_LOCKED_WALN_SEED; le_bytes 8 i] (rlw_bump rlw)); [done| |exact Hkey].
  by constructor.
Qed.

Lemma close_round_kept now a w w' :
  in_range U64 (ps_round_count (w_state w)) -> close_round now a w = Ok w' ->
  kept (w_chain w) (w_chain w') /\ same_ratings (w_pool w) (w_pool w').
Proof.
  unfold close_round, write_closed_round. intros Hi Hx. do 6 apply bind_ok in Hx as (? & _ & Hx).
  apply bind_ok in Hx as (u1 & <-%require_ok & Hx). apply bind_ok in Hx as (u2 & <-%require_ok & Hx).
  do 2 apply bind_ok in Hx as (? & _ & Hx). apply bind_ok in Hx as ([t p1] & Hp%close_pool_ratings & Hx).
  apply bind_ok in Hx as (w3 & Hw & Hx). apply bind_ok in Hw as (w2 & H2 & H3).
  apply bind_ok in Hx as (s & _ & Hx). injection Hx as <-.
  destruct (write_round_locked_waln_ok _ _ _ _ _ _ _ _ H2) as (_ & Hp2 & _).
  destruct (write_round_record_ok _ _ _ _ _ H3) as (_ & Hp3 & _).
  apply (write_round_locked_waln_nfts holder) in H2; [|done].
  apply (write_round_record_nfts holder) in H3; [|done]. cbn in *. split; [by etrans|].
  by rewrite Hp3, Hp2.
Qed.

Lemma close_round_record_kept a i w w' :
  in_range U64 i -> close_round_record a i w = Ok w' ->
  kept (w_chain w) (w_chain w') /\ w_pool w' = w_pool w.
Proof.
  unfold close_round_record. intros Hi Hx. inv_ok. split; [|done]. cbn.
  match goal with H : close_account _ _ _ = _ |- _ => unfold close_account in H end. inv_ok.
  apply close_nfts. intros k Hk.
  match goal with H : create_program_address _ _ = _ |- _ =>
    eapply (nft_address_apart k [ROUND_RECORD_SEED; le_bytes 8 i]); [done| |exact H] end. by constructor.
Qed.

(** Minting: at the address there was no Token-2022 mint, and then there is the NFT. *)
Definition others_kept (k : Pubkey) (c c' : Chain) : Prop :=
  forall j, aat_nft_address j <> aat_nft_address k ->
    nft_fields c' (aat_nft_address j) = nft_fields c (aat_nft_address j).

#[export] Instance others_kept_preorder k : PreOrder (others_kept k).
Proof. split; [by intros c j|]. intros c1 c2 c3 H12 H23 j Hj. by rewrite H23, H12. Qed.

Lemma invoke_others k seeds i c c' :
  (forall x, touches i x -> x = aat_nft_address k) -> invoke seeds i c = Ok c' -> others_kept k c c'.
Proof. intros Hi Hx j Hj. eapply nft_frame; [exact Hx|]. intros Ht. by apply Hj, Hi. Qed.

Lemma create_nft_mint_effect a c c' :
  mn_mint a = aat_nft_address (mn_investor a) -> create_nft_mint a c = Ok c' ->
  account_owner c (mn_mint a) = system_program_id
  /\ account_owner c' (mn_mint a) = mn_token_program a /\ others_kept (mn_investor a) c c'.
Proof.
  intros Hm Hx. unfold create_nft_mint in Hx. apply bind_ok in Hx as (c1 & Hc1 & Hx).
  apply bind_ok in Hx as (c2 & Hc2 & Hx). rewrite Hm in *.
  assert (account_owner c1 (aat_nft_address (mn_investor a)) = account_owner c (aat_nft_address (mn_investor a))
          /\ others_kept (mn_investor a) c c1) as [Ho1 Hk1].
  { case_decide; [|by injection Hc1 as <-]. split; [eapply owner_frame; [exact Hc1|by intros []]|].
    eapply invoke_others, Hc1. by intros x []. }
  split_and!.
  - rewrite <- Ho1. by eapply allocate_owner.
  - by eapply assign_effect.
  - transitivity c1; [done|]. transitivity c2.
    + eapply invoke_others, Hc2. by intros x <-.
    + eapply invoke_others, Hx. by intros x <-.
Qed.

(** An instruction of Token-2022 on the mint. *)
Lemma mint_step a seeds i c c' :
  mn_mint a = aat_nft_address (mn_investor a) -> (forall x, ~ assigns i x) ->
  (forall x, touches i x -> x = mn_mint a) -> invoke seeds i c = Ok c' ->
  others_kept (mn_investor a) c c' /\ account_owner c' (mn_mint a) = account_owner c (mn_mint a).
Proof.
  intros Hm Ha Ht Hx. split.
  - eapply invoke_others, Hx. intros x Hx'. by rewrite <- Hm, (Ht x).
  - rewrite Hm. by eapply owner_frame.
Qed.

Lemma written_volume seeds k v auth c c' :
  in_range U64 v -> account_owner c (aat_nft_address k) = token_2022_id ->
  invoke seeds (MetadataUpdateField (aat_nft_address k) auth aat_volume_key (u64_to_string v)) c = Ok c' ->
  nft_volume c' k = Some v.
Proof.
  intros Hv Ho (Ho' & m & f1 & f2 & Hm & Hf & Hk)%metadata_update_effect.
  unfold nft_volume, nft_fields. rewrite decide_True by congruence. rewrite Hm. cbn [mbind option_bind]. rewrite Hf.
  cbn [mbind option_bind]. by rewrite find_volume_written.
Qed.

Lemma nft_invocations_effect a v c c' :
  mn_mint a = aat_nft_address (mn_investor a) -> in_range U64 v ->
  account_owner c (mn_mint a) = token_2022_id ->
  foldM (fun c (i : list Seeds * Cpi) => invoke i.1 i.2 c) c (nft_invocations a v) = Ok c' ->
  nft_volume c' (mn_investor a) = Some v /\ others_kept (mn_investor a) c c'.
Proof.
  intros Hm Hv Ho Hx. unfold nft_invocations in Hx. cbn [foldM fst snd] in Hx.
  apply bind_ok in Hx as (c1 & I1 & Hx). apply bind_ok in Hx as (c2 & I2 & Hx).
  apply bind_ok in Hx as (c3 & I3 & Hx). apply bind_ok in Hx as (c4 & I4 & Hx).
  apply bind_ok in Hx as (c5 & I5 & Hx).
  apply (mint_step a) in I1 as [K1 O1]; [|done|by intros x []|by intros x <-].
  apply (mint_step a) in I2 as [K2 O2]; [|done|by intros x []|by intros x <-].
  apply (mint_step a) in I3 as [K3 O3]; [|done|by intros x []|by intros x <-].
  apply (mint_step a) in I4 as [K4 O4]; [|done|by intros x []|by intros x [<-|<-]].
  assert (others_kept (mn_investor a) c4 c5) as K5.
  { eapply invoke_others, I5. intros x <-. done. }
  rewrite Hm in *. apply written_volume in I5; [|done|congruence].
  enough (nfts_kept (fun _ => True) c5 c') as Hk.
  { split; [by rewrite (nfts_kept_volume (fun _ => True) _ _ _ Hk)|].
    etrans; [exact K1|]. etrans; [exact K2|]. etrans; [exact K3|]. etrans; [exact K4|].
    etrans; [exact K5|]. intros j _. by apply Hk. }
  repeat (apply bind_ok in Hx as (?c & ?Ic & Hx)). injection Hx as <-.
  repeat match goal with I : invoke _ _ ?c1 = Ok ?c2 |- nfts_kept _ ?c1 _ =>
    transitivity c2; [eapply invoke_nfts; [|exact I]; by intros x _ []|clear I] end. done.
Qed.

Lemma mint_aat_nft_effect a v w w' :
  in_range U64 v -> mint_aat_nft a v w = Ok w' ->
  nft_volume (w_chain w) (mn_investor a) = None /\ nft_volume (w_chain w') (mn_investor a) = Some v
  /\ others_kept (mn_investor a) (w_chain w) (w_chain w')
  /\ ps_total_aat_volume (w_state w') = ps_total_aat_volume (w_state w) + v
  /\ w_pool w' = w_pool w.
Proof.
  intros Hv Hx. unfold mint_aat_nft in Hx. apply bind_ok in Hx as (u & Hacc & Hx).
  do 2 apply bind_ok in Hx as (? & _ & Hx). apply bind_ok in Hx as (s & Hs & Hx).
  apply bind_ok in Hx as (c1 & Hc1 & Hx). apply bind_ok in Hx as (c2 & Hc2 & Hx). injection Hx as <-.
  unfold MintAatNft_accounts, check_program, check_seeds in Hacc. inv_ok.
  assert (mn_mint a = aat_nft_address (mn_investor a)) as Hm by done.
  apply create_nft_mint_effect in Hc1 as (Ho & Ho1 & K1); [|done].
  apply nft_invocations_effect in Hc2 as [Hvol K2]; [|done|done|congruence]. cbn.
  unfold mint_total in Hs. inv_arith. split_and!; [|done|by etrans|done|done].
  unfold nft_volume, nft_fields. rewrite decide_False; [done|]. rewrite <- Hm, Ho. by apply not_eq_sym, token_2022_not_system.
Qed.

Lemma update_aat_volume_effect a v w w' :
  in_range U64 v -> update_aat_volume a v w = Ok w' ->
  exists old, nft_volume (w_chain w) (uv_investor a) = Some old
    /\ nft_volume (w_chain w') (uv_investor a) = Some v
    /\ others_kept (uv_investor a) (w_chain w) (w_chain w')
    /\ ps_total_aat_volume (w_state w') = ps_total_aat_volume (w_state w) - old + v
    /\ update_pool_volume (uv_investor a) v (w_pool w) = Ok (w_pool w').
Proof.
  intros Hv Hx. unfold update_aat_volume in Hx. apply bind_ok in Hx as (u & Hacc & Hx).
  apply bind_ok in Hx as (? & _ & Hx). apply bind_ok in Hx as (old & Hold & Hx).
  apply bind_ok in Hx as (s & Hs & Hx). apply bind_ok in Hx as (c1 & Hc1 & Hx).
  apply bind_ok in Hx as (p & Hp & Hx). injection Hx as <-. cbn.
  unfold UpdateAatVolume_accounts, check_seeds in Hacc. inv_ok.
  match goal with H : _ = uv_mint a |- _ => fold (aat_nft_address (uv_investor a)) in H; rewrite <- H in * end.
  pose proof Hold as Hold'. apply nft_volume_verify in Hold. exists old. unfold update_total in Hs. inv_arith.
  split_and!; [done| | |done|done].
  - eapply written_volume; [done| |exact Hc1].
    unfold verify_aat_nft_and_get_allocation in Hold'. by inv_ok.
  - eapply invoke_others, Hc1. by intros y <-.
Qed.
End Handlers.

(** ** The concrete runtime satisfies the laws *)

Section Sandbox.

Lemma sandbox_fields (c c' : SandboxChain) k :
  sb_owners c' !! k = sb_owners c !! k -> sb_mints c' !! k = sb_mints c !! k ->
  nft_fields c' k = nft_fields c k.
Proof. intros Ho Hm. unfold nft_fields. cbn. by rewrite Ho, Hm. Qed.

Lemma sandbox_move_same from to amount c c' :
  sandbox_move_lamports from to amount c = Ok c' ->
  sb_owners c' = sb_owners c /\ sb_mints c' = sb_mints c.
Proof. unfold sandbox_move_lamports. intros Hx. by inv_ok. Qed.

Lemma sandbox_invoke_same seeds i (c c' : SandboxChain) k :
  sandbox_invoke seeds i c = Ok c' ->
  (~ assigns i k -> sb_owners c' !! k = sb_owners c !! k)
  /\ (~ touches i k -> sb_mints c' !! k = sb_mints c !! k).
Proof.
  intros Hx. destruct i; cbn in Hx;
    try (apply sandbox_transfer_ok in Hx as (? & ? & _ & _ & _ & _ & _ & _ & ->); by case_decide);
    try (apply sandbox_move_same in Hx as [-> ->]; done);
    unfold sandbox_new_token in Hx; inv_ok; cbn; try done;
    try (match goal with H : sandbox_move_lamports _ _ _ _ = _ |- _ =>
           apply sandbox_move_same in H as [-> ->] end);
    (split; intros Ht; try done; by rewrite lookup_insert_ne by (intros ->; naive_solver)).
Qed.

#[export] Instance sandbox_nft_laws : NftLaws.
Proof.
  split.
  - by_decide.
  - intros seeds i c c' k Hx Ht. destruct (sandbox_invoke_same _ _ _ _ (aat_nft_address k) Hx) as [Ho Hm].
    apply sandbox_fields; [|by apply Hm]. apply Ho. intros Ha. apply Ht. by destruct i.
  - intros seeds i c c' k Hx Ha.
    exact (f_equal (default sandbox_system_id) (proj1 (sandbox_invoke_same _ _ _ _ (aat_nft_address k) Hx) Ha)).
  - intros seeds k space c c' Hx. cbn in *. inv_ok. tauto.
  - intros seeds k o c c' Hx. cbn in *. inv_ok. cbn. by rewrite lookup_insert_eq.
  - intros. by apply sandbox_fields.
  - intros k o c x Hne. apply sandbox_fields; [|done]. cbn. by rewrite lookup_insert_ne.
  - intros. by apply sandbox_fields.
Qed.
End Sandbox.
