(* ===== verification/Ledger.v ===== *)
(** * The ledger of AAT volumes

    The program counts AAT volume in three places: on each investor's NFT, in the records
    of the pool, and in [total_aat_volume].  The theorems of this file say that the three
    agree in every run in which the rest of the chain leaves the NFTs alone: there is one
    map from investors to volumes ([ledger]) that is what the NFTs say, that the pool's
    records copy from, and whose sum is the recorded total.  So the volumes in the pool
    are small, and a round start on the configured parameters cannot overflow. *)
From coqutil Require Import Datatypes.RecordSettersUsingExistingGetters.
From stdpp Require Import base gmap strings numbers list.
From S2P Require Import Prelude.
From S2P Require Import State.
From S2P Require Import Pool.
From S2P Require Import Runtime.
From S2P Require Import Sandbox.
From S2P Require Import Utils.
From S2P Require Import RoundStart.
From S2P Require Import Settlement.
From S2P Require Import Lobby.
From S2P Require Import Sell.
From S2P Require Import CloseRound.
From S2P Require Import Claim.
From S2P Require Import Admin.
From S2P Require Import Aat.
From S2P Require Import Init.
From S2P Require Import Invariant.
From S2P Require Import System.
From S2P Require Import Scenario.
From S2P Require Import Access.
From S2P Require Import Params.
From S2P Require Import Nft.
#[local] Open Scope Z_scope.

(** The investor whose NFT an instruction uses. *)
Definition investor_of (i : Instruction) : option Pubkey :=
  match i with
  | DepositUsdcIx a _ => Some (du_investor a)
  | MintAatNftIx a _ => Some (mn_investor a)
  | UpdateAatVolumeIx a _ => Some (uv_investor a)
  | _ => None
  end.

Section Issued.
Context `{Runtime} (holder : Pubkey -> Prop).

(** The worlds of a run that starts without NFTs and in which only the program writes
    them: they are reachable. *)
Inductive issued : World -> Prop :=
| issued_initialize a price size period c w :
    initialize_ok a price size period (w_chain w) ->
    initialize a price size period c = Ok w ->
    (forall m, mint_account (w_chain w) (in_usdc_mint a) = Some m -> mi_transfer_fee m = false) ->
    (forall k, holder k -> nft_fields (w_chain w) (aat_nft_address k) = None) ->
    issued w
| issued_instruction now i w w' :
    issued w -> in_range I64 now -> signer i <> contract_state_address -> arguments_ok i ->
    (forall k, investor_of i = Some k -> holder k) ->
    dispatch now i w = Ok w' -> issued w'
| issued_other w c :
    issued w -> keeps (w_chain w) c -> nfts_kept holder (w_chain w) c -> issued (w <| w_chain := c |>).

Lemma issued_reachable w : issued w -> reachable w.
Proof.
  induction 1 as [|now i w w' _ IH Hn Hs Ha _ Hx|w c _ IH Hc _]; [by eapply reach_initialize|..].
  - eapply reach_step; [exact IH|]. by eapply step_instruction.
  - eapply reach_step; [exact IH|]. by constructor.
Qed.

(** [m] is the ledger of the world [w]. *)
Record ledger (m : gmap Pubkey Z) (w : World) : Prop := {
  lg_total : ps_total_aat_volume (w_state w) = sumM id m;
  lg_nfts k : holder k -> nft_volume (w_chain w) k = m !! k;
  lg_entries k v : m !! k = Some v -> holder k /\ 0 <= v;
  lg_pool : Forall (fun x => m !! x.1 = Some x.2) (ratings (w_pool w));
}.
End Issued.

Section Ledger.
Context `{NftLaws} (holder : Pubkey -> Prop) `{!NftAddresses holder}.
Notation kept := (nfts_kept holder).
Notation ledger := (ledger holder).
Notation issued := (issued holder).

(** ** What keeps the ledger *)

Section Step.
Context (m : gmap Pubkey Z) (w w' : World) (Hm : ledger m w).
Context (Hc : kept (w_chain w) (w_chain w'))
        (Ht : ps_total_aat_volume (w_state w') = ps_total_aat_volume (w_state w)).

Lemma ledger_step :
  Forall (fun x => m !! x.1 = Some x.2) (ratings (w_pool w')) -> ledger m w'.
Proof.
  intros Hp. destruct Hm as [Ltot Lnft Lent _]. split; [congruence| |done|done].
  intros k Hk. rewrite <- Lnft by done. by eapply nfts_kept_volume.
Qed.

Lemma ledger_same : w_pool w' = w_pool w -> ledger m w'.
Proof. intros Hp. apply ledger_step. rewrite Hp. apply Hm. Qed.

Lemma ledger_ratings : pool_wf (w_pool w) -> same_ratings (w_pool w) (w_pool w') -> ledger m w'.
Proof. intros Hwf Hp. destruct (Hp Hwf) as [_ He]. apply ledger_step. rewrite He. apply Hm. Qed.

(** One record replaced, with its volume in the ledger. *)
Lemma ledger_update k r r' :
  pool_update k r r' (w_pool w) (w_pool w') -> m !! ir_investor r' = Some (ir_aat_volume r') -> ledger m w'.
Proof.
  intros Hu Hr. apply ledger_step. unfold ratings. rewrite Forall_fmap.
  eapply pool_update_Forall; [exact Hu| |done]. rewrite <- Forall_fmap. apply Hm.
Qed.
End Step.

Lemma ratings_map p (Q : Pubkey * Z -> Prop) :
  pool_wf p -> Forall Q (ratings p) <-> forall k r, pool_map p !! k = Some r -> Q (k, ir_aat_volume r).
Proof.
  intros Hwf. unfold ratings. rewrite Forall_fmap, Forall_lookup. split.
  - intros HQ k r Hr. destruct (find_record_cases _ Hwf k) as [(i & r0 & _ & Hi & Hk & Hr0)|(_ & _ & Hn)];
      [|congruence].
    assert (r0 = r) as -> by congruence. rewrite <- Hk. by apply (HQ i).
  - intros HQ i r Hi. apply (HQ (ir_investor r)), (record_map_at _ (pwf_nodup _ Hwf) i), Hi.
Qed.

Lemma ledger_record m w k r :
  pool_wf (w_pool w) -> ledger m w -> pool_map (w_pool w) !! k = Some r -> m !! k = Some (ir_aat_volume r).
Proof. intros Hwf Hm. by apply (ratings_map _ (fun x => m !! x.1 = Some x.2) Hwf), Hm. Qed.

(** ** Every instruction *)

(** An instruction that only writes the configuration. *)
Definition writes_state (i : Instruction) : bool :=
  match i with
  | SetFloorPrice _ _ | SetRoundSize _ _ | SetLockPeriod _ _ | SetUsdcWithdrawLock _ _
  | SetSellPaused _ _ | SetFrozen _ _ | TransferAuthorityIx _ | AcceptAuthorityIx _ => true
  | _ => false
  end.

Lemma writes_state_ok now i w w' :
  writes_state i = true -> dispatch now i w = Ok w' ->
  w_chain w' = w_chain w /\ w_pool w' = w_pool w
  /\ ps_total_aat_volume (w_state w') = ps_total_aat_volume (w_state w).
Proof.
  intros Hi Hx. destruct i; try discriminate Hi; cbn in Hx;
    [unfold set_floor_price in Hx|unfold set_round_size in Hx|unfold set_lock_period in Hx
    |unfold set_usdc_withdraw_lock in Hx|unfold set_sell_paused in Hx|unfold set_frozen in Hx
    |unfold transfer_authority in Hx|unfold accept_authority in Hx];
    unfold with_state in Hx; by inv_ok.
Qed.

Section Instructions.
Context (m : gmap Pubkey Z) (w w' : World) (Hi : inv w) (Hm : ledger m w).

Lemma set_investor_usdc_unlock_ledger a k ts :
  set_investor_usdc_unlock a k ts w = Ok w' -> ledger m w'.
Proof.
  unfold set_investor_usdc_unlock. intros Hx.
  apply bind_ok in Hx as (u1 & _ & Hx). apply bind_ok in Hx as (u2 & _ & Hx).
  apply bind_ok in Hx as (found & Hf & Hx). apply bind_ok in Hx as ([i r] & ->%ok_or_ok & Hx).
  apply bind_ok in Hx as (p & Hs & Hx). injection Hx as <-.
  pose proof (pi_wf _ _ _ (inv_pool _ _ Hi)) as Hwf.
  destruct (found_record _ _ _ _ Hi Hf) as (Hk & _ & _ & Hr).
  match type of Hs with set_slot _ ?r' _ = _ =>
    destruct (set_slot_update _ i k r r' Hwf Hf Hk) as (p2 & Hs' & _ & Hu & _) end.
  assert (p2 = p) as -> by congruence.
  eapply (ledger_update m w); [done|reflexivity|done|exact Hu|].
  cbn. rewrite Hk. by apply (ledger_record m w).
Qed.

Lemma cancel_round_ledger a : cancel_round a w = Ok w' -> ledger m w'.
Proof.
  unfold cancel_round. intros Hx. pose proof (pi_wf _ _ _ (inv_pool _ _ Hi)) as Hwf.
  do 4 apply bind_ok in Hx as (? & _ & Hx). rewrite active_wf in Hx by done. cbn [mbind result_bind] in Hx.
  apply bind_ok in Hx as (l & Hl%unlock_records_ratings & Hx). injection Hx as <-.
  apply (ledger_ratings m w); [done|reflexivity|done|done|]. intros _. cbn. by apply write_active_ratings.
Qed.

Lemma remove_investor_ledger a : remove_investor_from_pool a w = Ok w' -> ledger m w'.
Proof.
  intros (r & Hs)%remove_investor_ok. destruct (rm_found _ _ _ _ Hs) as (i & Hf).
  destruct (remove_slot_spec _ (pi_wf _ _ _ (inv_pool _ _ Hi)) _ _ _ Hf) as (p & Hrm & _ & _ & Hp & _).
  destruct Hs as [_ _ _ _ _ _ Hrf Hnrf Hst Hpl _]. assert (p = w_pool w') as -> by congruence.
  apply (ledger_step m w); [done| |by rewrite Hst|].
  - destruct (decide (0 < ir_usdc_deposited r)) as [Hpos|Hz].
    + destruct (Hrf Hpos) as (seeds & prog & auth & dec & Htr). by eapply transfer_nfts.
    + rewrite Hnrf by lia. reflexivity.
  - pose proof (lg_pool _ _ _ Hm) as Hl. unfold ratings in *. rewrite Hp in Hl. by inv Hl.
Qed.

Lemma treasury_ledger c seeds from to amount :
  invoke seeds (SystemTransfer from to amount) (w_chain w) = Ok c -> w' = w <| w_chain := c |> -> ledger m w'.
Proof. intros Hc ->. apply (ledger_same m w); [done|by eapply system_transfer_nfts|done|done]. Qed.

Lemma close_round_ledger now a : close_round now a w = Ok w' -> ledger m w'.
Proof.
  intros Hx. pose proof (inv_pool _ _ Hi) as Hp.
  destruct (close_round_kept holder now a w w' (pi_round_count _ _ _ Hp) Hx) as [Hk Hr].
  apply (ledger_ratings m w); [done|done| |apply Hp|done].
  unfold close_round, write_closed_round in Hx. do 10 apply bind_ok in Hx as (? & _ & Hx).
  apply bind_ok in Hx as ([t p] & _ & Hx). apply bind_ok in Hx as (w3 & Hw & Hx).
  apply bind_ok in Hw as (w2 & ?%write_round_locked_waln_state & ?%write_round_record_state).
  apply bind_ok in Hx as (s & Hs & Hx). injection Hx as <-. cbn in *.
  unfold close_state in Hs. inv_arith. cbn. congruence.
Qed.

Lemma deposit_usdc_ledger now a amount :
  holder (du_investor a) -> deposit_usdc now a amount w = Ok w' -> ledger m w'.
Proof.
  intros Hh (v & r & r' & Hs)%deposit_usdc_ok; [|apply Hi].
  destruct Hs as [_ _ _ _ _ [Hv _] _ Hr Hu (dec & Htr) Hst _ _].
  eapply (ledger_update m w); [done|by eapply transfer_nfts|by rewrite Hst|exact Hu|].
  destruct (deposit_record_ok _ _ _ _ _ _ Hr) as (Hk & _ & _ & _ & _ & _ & Hvol & _).
  assert (du_aat_nft a = aat_nft_address (du_investor a)) as Ha.
  { unfold verify_aat_nft_and_get_allocation in Hv. by apply bind_ok in Hv as (u & ?%require_ok & _). }
  rewrite Ha in Hv. apply nft_volume_verify in Hv. rewrite (lg_nfts _ _ _ Hm) in Hv by done.
  rewrite Hk, Hvol. assert (ir_investor r = du_investor a) as ->; [|done].
  destruct (pu_before _ _ _ _ _ Hu) as [Hb|[_ ->]]; [|done].
  by apply (pool_map_key (w_pool w)); [apply Hi|].
Qed.

Lemma withdraw_usdc_ledger now a amount : withdraw_usdc now a amount w = Ok w' -> ledger m w'.
Proof.
  intros (r & amt & Hs)%withdraw_usdc_ok; [|apply Hi].
  destruct Hs as [_ _ _ _ Hr _ _ _ Hu (seeds & dec & Htr) Hst _].
  eapply (ledger_update m w); [done|by eapply transfer_nfts|by rewrite Hst|exact Hu|].
  cbn. rewrite (pool_map_key _ _ _ (pi_wf _ _ _ (inv_pool _ _ Hi)) Hr).
  by apply (ledger_record m w); [apply Hi| |].
Qed.

Lemma sell_waln_ledger now a max : sell_waln now a max w = Ok w' -> ledger m w'.
Proof.
  intros Hx. pose proof (inv_pool _ _ Hi) as Hp. pose proof (sell_waln_config _ _ _ _ _ Hx) as Hcf.
  destruct (sell_waln_kept holder now a max w w' (pi_round_count _ _ _ Hp) Hx) as [Hk Hr].
  apply (ledger_ratings m w); [done|done| |apply Hp|done].
  by apply (f_equal cf_total_aat_volume) in Hcf.
Qed.

Lemma claim_waln_ledger now a i : in_range U64 i -> claim_waln now a i w = Ok w' -> ledger m w'.
Proof.
  intros Hr Hx. destruct (claim_waln_kept holder now a i w w' Hr Hx) as [Hk Hp].
  destruct (claim_waln_ok now a i w w' Hx) as (rlw & rlw' & amt & closes & Hs).
  apply (ledger_same m w); [done|done| |done]. by rewrite (cl_state _ _ _ _ _ _ _ _ Hs).
Qed.

Lemma close_round_record_ledger a i : in_range U64 i -> close_round_record a i w = Ok w' -> ledger m w'.
Proof.
  intros Hr Hx. destruct (close_round_record_kept holder a i w w' Hr Hx) as [Hk Hp].
  apply (ledger_same m w); [done|done| |done]. unfold close_round_record in Hx. by inv_ok.
Qed.

Lemma others_volume k j c c' :
  holder k -> holder j -> j <> k -> others_kept k c c' -> nft_volume c' j = nft_volume c j.
Proof.
  intros Hk Hj Hne Ho. unfold nft_volume. rewrite Ho; [done|].
  intros Heq. by apply Hne, (nft_address_inj (holder := holder)).
Qed.

Lemma mint_aat_nft_ledger a v :
  holder (mn_investor a) -> in_range U64 v -> mint_aat_nft a v w = Ok w' ->
  ledger (<[mn_investor a := v]> m) w'.
Proof.
  intros Hh Hv Hx. destruct (mint_aat_nft_effect a v w w' Hv Hx) as (Hn & Hn' & Ho & Ht & Hp).
  destruct Hm as [Ltot Lnft Lent Lpool]. rewrite Lnft in Hn by done. split.
  - rewrite Ht, sumM_insert by done. cbn. lia.
  - intros k Hk. destruct (decide (k = mn_investor a)) as [->|Hne]; [by rewrite lookup_insert_eq|].
    rewrite lookup_insert_ne by done. rewrite <- Lnft by done. by apply (others_volume (mn_investor a)).
  - intros k x [[<- <-]|[_ Hk]]%lookup_insert_Some; [|by apply Lent]. split; [done|range].
  - rewrite Hp. eapply Forall_impl; [exact Lpool|]. intros x Hx'. cbn in *.
    rewrite lookup_insert_ne; [done|congruence].
Qed.

Lemma update_aat_volume_ledger a v :
  holder (uv_investor a) -> in_range U64 v -> update_aat_volume a v w = Ok w' ->
  ledger (<[uv_investor a := v]> m) w'.
Proof.
  intros Hh Hv Hx. destruct (update_aat_volume_effect a v w w' Hv Hx) as (old & Hn & Hn' & Ho & Ht & Hp).
  pose proof (pi_wf _ _ _ (inv_pool _ _ Hi)) as Hwf.
  destruct Hm as [Ltot Lnft Lent Lpool]. rewrite Lnft in Hn by done. split.
  - rewrite Ht, (sumM_update _ _ _ old) by done. cbn. lia.
  - intros k Hk. destruct (decide (k = uv_investor a)) as [->|Hne]; [by rewrite lookup_insert_eq|].
    rewrite lookup_insert_ne by done. rewrite <- Lnft by done. by apply (others_volume (uv_investor a)).
  - intros k x [[<- <-]|[_ Hk]]%lookup_insert_Some; [|by apply Lent]. split; [done|range].
  - pose proof (update_aat_volume_inv a v w w' Hi Hv Hx) as Hi'.
    pose proof (update_pool_volume_ok w _ v _ Hi Hp) as Hmap.
    apply ratings_map; [apply Hi'|]. cbn. intros k r. rewrite Hmap.
    destruct (decide (k = uv_investor a)) as [->|Hne].
    + rewrite lookup_alter_eq, lookup_insert_eq. destruct (pool_map _ !! _); [|done]. by intros [= <-].
    + rewrite lookup_alter_ne, lookup_insert_ne by done. by apply (ratings_map _ (fun x => m !! x.1 = Some x.2) Hwf).
Qed.
End Instructions.

Lemma dispatch_ledger now i m w w' :
  inv w -> arguments_ok i -> (forall k, investor_of i = Some k -> holder k) ->
  dispatch now i w = Ok w' -> ledger m w -> exists m', ledger m' w'.
Proof.
  intros Hi [Ha _] Hh Hx Hm.
  destruct (writes_state i) eqn:Hw.
  { destruct (writes_state_ok now i w w' Hw Hx) as (Hc & Hp & Ht). exists m.
    apply (ledger_same m w); [done|by rewrite Hc|done|done]. }
  destruct i; try discriminate Hw; cbn in Hx, Ha, Hh.
  - exists m. exact (set_investor_usdc_unlock_ledger _ _ _ Hi Hm _ _ _ Hx).
  - exists m. exact (cancel_round_ledger _ _ _ Hi Hm _ Hx).
  - exists m. exact (remove_investor_ledger _ _ _ Hi Hm _ Hx).
  - exists m. exact (close_round_ledger _ _ _ Hi Hm _ _ Hx).
  - exists m. unfold fund_treasury in Hx. inv_ok. by eapply (treasury_ledger m w).
  - exists m. unfold withdraw_treasury in Hx. inv_ok. by eapply (treasury_ledger m w).
  - exists m. exact (deposit_usdc_ledger _ _ _ Hi Hm _ _ _ (Hh _ eq_refl) Hx).
  - exists m. exact (withdraw_usdc_ledger _ _ _ Hi Hm _ _ _ Hx).
  - exists m. exact (sell_waln_ledger _ _ _ Hi Hm _ _ _ Hx).
  - exists m. exact (claim_waln_ledger _ _ _ Hm _ _ _ Ha Hx).
  - eexists. exact (mint_aat_nft_ledger _ _ _ Hm _ _ (Hh _ eq_refl) Ha Hx).
  - eexists. exact (update_aat_volume_ledger _ _ _ Hi Hm _ _ (Hh _ eq_refl) Ha Hx).
  - exists m. exact (close_round_record_ledger _ _ _ Hm _ _ Ha Hx).
Qed.

Lemma initialize_ledger a price size period c w :
  initialize a price size period c = Ok w ->
  (forall k, holder k -> nft_fields (w_chain w) (aat_nft_address k) = None) -> ledger ∅ w.
Proof.
  unfold initialize. intros Hx Hn. apply bind_ok in Hx as ([[um wm] c1] & _ & Hx). inv_ok. split; cbn.
  - by rewrite sumM_empty.
  - intros k Hk. cbn in Hn. unfold nft_volume. by rewrite Hn.
  - done.
  - unfold ratings. by rewrite (proj2 initial_pool_wf).
Qed.

Lemma issued_ledger w : issued w -> exists m, ledger m w.
Proof.
  induction 1 as [a price size period c w _ Hx _ Hn|now i w w' Hr [m Hm] _ _ Ha Hh Hx|w c _ [m Hm] _ Hc].
  - exists ∅. by eapply initialize_ledger.
  - eapply dispatch_ledger; [by eapply reachable_inv, issued_reachable|done..].
  - exists m. by apply (ledger_same m w).
Qed.

(** ** What follows from it *)

Lemma pool_volumes_le m w :
  pool_wf (w_pool w) -> ledger m w ->
  0 <= sumZ ir_aat_volume (records (w_pool w)) <= ps_total_aat_volume (w_state w).
Proof.
  intros Hwf [Ltot _ Lent Lpool].
  assert (sumZ ir_aat_volume (records (w_pool w)) = sumZ (fun x : Pubkey * Z => id x.2) (ratings (w_pool w)))
    as -> by (unfold ratings; by rewrite (sumZ_map rating)).
  rewrite Forall_forall in Lpool. split.
  - apply sumZ_nonneg. intros x Hx. by apply (Lent x.1), Lpool.
  - rewrite Ltot. apply sumM_le_list.
    + unfold ratings. rewrite rating_keys. apply Hwf.
    + done.
    + intros k v Hv. by apply (Lent k).
Qed.

(** Between rounds nothing is locked, and the deposits fit a [u64] together. *)
Lemma idle_funds w :
  inv w -> ps_round_started (w_state w) = 0 ->
  Forall (fun r => ir_usdc_locked_current_round r = 0) (records (w_pool w))
  /\ sumZ ir_usdc_deposited (records (w_pool w)) <= u64_max.
Proof.
  intros Hi Hst. destruct (inv_pool _ _ Hi) as [_ Hrec _ Hl Hmax [(_ & _ & _ & Hz)|[(Hst' & _) _]] _ _ _ _];
    [|congruence].
  split; [by apply sumZ_zero_Forall; [apply locked_nonneg|]|].
  unfold total_locked in Hz. unfold lobby_usdc in Hl. lia.
Qed.

(** ** Properties *)

(** C6: the AAT volumes agree.  In every run that starts without AAT NFTs and in which only
    the program writes them there is one ledger: the NFT of an investor says what the
    ledger says, and there is one only if the investor is in it; every record of the pool
    has its investor's volume; and the recorded total is the ledger's sum. *)
Theorem aat_volumes_agree w :
  issued w ->
  exists m : gmap Pubkey Z,
    ps_total_aat_volume (w_state w) = sumM id m
    /\ (forall k v, holder k ->
          verify_aat_nft_and_get_allocation (w_chain w) (aat_nft_address k) k = Ok v <-> m !! k = Some v)
    /\ (forall k r, pool_map (w_pool w) !! k = Some r -> m !! k = Some (ir_aat_volume r)).
Proof.
  intros Hr. destruct (issued_ledger w Hr) as [m Hm]. pose proof (reachable_inv _ (issued_reachable _ _ Hr)) as Hi.
  exists m. split_and!; [apply Hm| |].
  - intros k v Hk. by rewrite nft_volume_verify, (lg_nfts _ _ _ Hm).
  - intros k r. apply (ledger_record m w); [apply Hi|done].
Qed.

(** C35: the volumes a round start adds up are small: those in the pool together are at
    most the recorded total, which is at most [MAX_TOTAL_AAT_VOLUME]. *)
Theorem pool_volumes_bounded w :
  issued w ->
  0 <= sumZ ir_aat_volume (records (w_pool w)) <= ps_total_aat_volume (w_state w)
  /\ ps_total_aat_volume (w_state w) <= MAX_TOTAL_AAT_VOLUME.
Proof.
  intros Hr. destruct (issued_ledger w Hr) as [m Hm]. apply issued_reachable in Hr.
  split; [|apply (reachable_params w Hr)].
  apply (pool_volumes_le m); [apply (reachable_inv _ Hr)|done].
Qed.

(** C21: between rounds the next round can always be started, or there is a reason not to.
    On the configured parameters a round start neither overflows nor aborts: it locks the
    round or reports [NoEligibleInvestors]; and it does not when the cap is at least
    [MAX_TOTAL_AAT_VOLUME] and a single investor with a volume has deposited all of it. *)
Theorem round_start_progress w :
  issued w -> ps_round_started (w_state w) = 0 ->
  let s := w_state w in
  exists cap, round_cap (ps_round_size_waln s) (ps_floor_price_usdc s) (ps_waln_decimals s) = Ok cap
  /\ ((exists res, execute_round_start (records (w_pool w)) (ps_round_size_waln s)
                     (ps_floor_price_usdc s) (ps_waln_decimals s) = Ok res)
      \/ execute_round_start (records (w_pool w)) (ps_round_size_waln s) (ps_floor_price_usdc s)
           (ps_waln_decimals s) = Err (Floor NoEligibleInvestors)
         /\ forall r, r ∈ records (w_pool w) -> 0 < ir_aat_volume r -> MAX_TOTAL_AAT_VOLUME <= cap ->
              ir_usdc_deposited r < cap).
Proof.
  intros Hr Hst s. destruct (issued_ledger w Hr) as [m Hm]. apply issued_reachable in Hr.
  pose proof (reachable_inv _ Hr) as Hi. pose proof (pi_records _ _ _ (inv_pool _ _ Hi)) as Hrec.
  pose proof (pi_wf _ _ _ (inv_pool _ _ Hi)) as Hwf.
  destruct (reachable_params w Hr) as [Hv [_ Hmax]]. fold s in Hv.
  unfold viable, require_viable_round_params in Hv. apply bind_ok in Hv as (cap & Hc & Hv).
  apply bind_ok in Hv as (u & Hpos%require_ok & _). exists cap. split; [done|].
  destruct (idle_funds w Hi Hst) as [Hfree Hdep]. pose proof (pool_volumes_le m w Hwf Hm) as Hvol.
  unfold MAX_TOTAL_AAT_VOLUME in *. fold s in Hmax, Hvol.
  destruct (execute_round_start_any_cap _ _ _ cap (records (w_pool w)) Hc Hpos) as [Hok|Hn];
    [by apply length_records_max|done|done|unfold u64_max; cbn; lia|done|by left|right].
  split; [done|]. intros r Hin Hrv Hcap. destruct (decide (cap <= ir_usdc_deposited r)); [exfalso|lia].
  refine (execute_round_start_rich _ _ _ cap _ r Hc Hpos Hrec Hin Hrv _ _ Hn); [done|lia].
Qed.
End Ledger.

(** ** Concrete runs *)

(** The investors of the cast. *)
Definition cast : list Pubkey := [investor_key 1; investor_key 2; investor_key 3].
Notation of_cast := (fun k => k ∈ cast).

Lemma sandbox_pda_of s b x :
  sandbox_create_pda (s ++ [[b]]) ID = Some x -> x = encode_seeds s.
Proof.
  unfold sandbox_create_pda. rewrite reverse_snoc. case_decide; [|done].
  rewrite reverse_involutive. by intros [= <-].
Qed.

(** Where the encoding of an NFT's seeds has the length of [AAT_NFT_SEED]. *)
Lemma program_seeds_byte s : program_seeds s -> encode_seeds s !! 15%nat <> Some 7.
Proof.
  intros [| | | | |i _|i _]; try (vm_compute; discriminate);
    destruct (eight_bytes (le_bytes 8 i) (length_le_bytes 8 i)) as (? & ? & ? & ? & ? & ? & ? & ? & ->);
    vm_compute; discriminate.
Qed.

#[export] Instance cast_addresses : NftAddresses of_cast.
Proof.
  split.
  - intros k1 k2 H1 H2.
    assert (Forall (fun k1 => Forall (fun k2 => aat_nft_address k1 = aat_nft_address k2 -> k1 = k2) cast) cast)
      as Hall by by_decide.
    rewrite Forall_forall in Hall. specialize (Hall k1 H1). rewrite Forall_forall in Hall. by apply Hall.
  - intros k s b x Hk Hs ->%sandbox_pda_of Heq.
    assert (Forall (fun k => aat_nft_address k !! 15%nat = Some 7) cast) as Hall by by_decide.
    rewrite Forall_forall in Hall. specialize (Hall k Hk). rewrite <- Heq in Hall.
    by apply program_seeds_byte in Hall.
Qed.

Lemma after_issued ixs w :
  Forall well_formed ixs -> Forall (fun i => default (investor_key 1) (investor_of i) ∈ cast) ixs ->
  after ixs = Ok w -> issued of_cast w.
Proof.
  unfold after. intros Hall Hc Hx. apply bind_ok in Hx as (w0 & Hw0 & Hx).
  assert (issued of_cast w0) as Hr0.
  { destruct (world0_ok w0 Hw0) as [Hok Hfee]. eapply issued_initialize; [exact Hok|exact Hw0|exact Hfee|].
    assert (field (fun w => bool_decide (Forall (fun k => nft_fields (w_chain w) (aat_nft_address k) = None) cast))
              world0 = Some true) as Hf by (vm_compute; reflexivity).
    apply (field_ok _ _ _ _ Hw0), bool_decide_eq_true in Hf. rewrite Forall_forall in Hf. exact Hf. }
  clear Hw0. revert w0 Hr0 Hx Hc. unfold run. induction Hall as [|i ixs [Hs Ha] _ IH]; intros w0 Hr0 Hx Hc.
  - by injection Hx as <-.
  - apply Forall_cons in Hc as [Hi Hc]. apply bind_ok in Hx as (w1 & Hx1 & Hx). apply (IH w1); [|done..].
    apply (issued_instruction _ sample_now i w0); [done|by_decide|done|done| |done].
    intros k Hk. by rewrite Hk in Hi.
Qed.

Lemma issued_setup : exists w, after setup = Ok w /\ issued of_cast w.
Proof.
  destruct setup_world as (w & Hw & _). exists w. split; [done|].
  by apply (after_issued setup); [by_decide|by_decide|].
Qed.

Lemma aat_volumes_agree_witness :
  exists w (m : gmap Pubkey Z), issued of_cast w /\ ps_total_aat_volume (w_state w) = 3
    /\ sumM id m = 3 /\ m !! investor_key 2 = Some 1.
Proof.
  destruct issued_setup as (w & Hw & Hr).
  assert (ps_total_aat_volume (w_state w) = 3) as Ht
    by (apply (field_ok (fun w => ps_total_aat_volume (w_state w)) _ _ _ Hw); vm_compute; reflexivity).
  assert (verify_aat_nft_and_get_allocation (w_chain w) (aat_nft_address (investor_key 2)) (investor_key 2)
          = Ok 1) as Hv
    by (apply (field_ok (fun w => verify_aat_nft_and_get_allocation (w_chain w)
          (aat_nft_address (investor_key 2)) (investor_key 2)) _ _ _ Hw); vm_compute; reflexivity).
  destruct (aat_volumes_agree of_cast w Hr) as (m & Hs & Hn & _).
  exists w, m. split_and!; [exact Hr|exact Ht|congruence|].
  apply Hn; [by_decide|exact Hv].
Defined.

Lemma pool_volumes_bounded_witness :
  exists w, issued of_cast w /\ sumZ ir_aat_volume (records (w_pool w)) = 3
    /\ 3 <= ps_total_aat_volume (w_state w) <= 1000000.
Proof.
  destruct issued_setup as (w & Hw & Hr).
  assert (sumZ ir_aat_volume (records (w_pool w)) = 3) as Hs
    by (apply (field_ok (fun w => sumZ ir_aat_volume (records (w_pool w))) _ _ _ Hw); vm_compute; reflexivity).
  exists w. split_and!; [exact Hr|exact Hs| |].
  - rewrite <- Hs. apply (pool_volumes_bounded of_cast w Hr).
  - apply (pool_volumes_bounded of_cast w Hr).
Defined.

Lemma round_start_progress_witness :
  exists w cap, issued of_cast w /\ round_cap 1000000000 5000003 9 = Ok cap
    /\ exists res, execute_round_start (records (w_pool w)) 1000000000 5000003 9 = Ok res.
Proof.
  destruct issued_setup as (w & Hw & Hr).
  assert (ps_round_started (w_state w) = 0) as Hst
    by (apply (field_ok (fun w => ps_round_started (w_state w)) _ _ _ Hw); vm_compute; reflexivity).
  assert ((ps_round_size_waln (w_state w), ps_floor_price_usdc (w_state w), ps_waln_decimals (w_state w))
          = (1000000000, 5000003, 9)) as [= E1 E2 E3]
    by (apply (field_ok (fun w => (ps_round_size_waln (w_state w), ps_floor_price_usdc (w_state w),
          ps_waln_decimals (w_state w))) _ _ _ Hw); vm_compute; reflexivity).
  assert (err_of (execute_round_start (records (w_pool w)) 1000000000 5000003 9) = None) as He
    by (apply (field_ok (fun w => err_of (execute_round_start (records (w_pool w)) 1000000000 5000003 9))
          _ _ _ Hw); vm_compute; reflexivity).
  destruct (round_start_progress of_cast w Hr Hst) as (cap & Hc & Hres). rewrite E1, E2, E3 in Hc, Hres.
  exists w, cap. split_and!; [exact Hr|exact Hc|].
  destruct Hres as [Hok|[Hn _]]; [exact Hok|]. rewrite Hn in He. discriminate He.
Defined.
