(* ===== verification/Closing.v ===== *)
(** * Closing a round in progress

    The admin's way out of a round that does not fill.  In a run whose AAT volumes are
    issued by the program, a round of a cap of at least 200 units that has bought something
    can be closed whenever the records have room for their shares: its payments are within
    its locks, every sum of the close fits, and only the creation of the two accounts is
    left to the runtime.  Below 200 units that need not be so: the file ends with a round
    of five units that can neither be closed nor cancelled. *)
From coqutil Require Import Datatypes.RecordSettersUsingExistingGetters.
From stdpp Require Import base gmap strings numbers list.
From S2P Require Import Prelude.
From S2P Require Import State.
From S2P Require Import Layout.
From S2P Require Import Pool.
From S2P Require Import Runtime.
From S2P Require Import Sandbox.
From S2P Require Import RoundStart.
From S2P Require Import Settlement.
From S2P Require Import RoundAccounts.
From S2P Require Import CloseRound.
From S2P Require Import Admin.
From S2P Require Import Aat.
From S2P Require Import Invariant.
From S2P Require Import System.
From S2P Require Import Scenario.
From S2P Require Import Typed.
From S2P Require Import Params.
From S2P Require Import Nft.
From S2P Require Import Ledger.
#[local] Open Scope Z_scope.

(** ** The totals of a round in progress *)

(** Floors of parts that fit together leave at least the floor of what is left. *)
Lemma div_split a b c d :
  0 < d -> c * d <= a -> 0 < b / d -> c + 1 <= (a + b) / d.
Proof. intros Hd Hc Hb. pose proof (div_mul_le b d Hd). apply Z.div_le_lower_bound; nia. Qed.

(** A round with a cap of 200 units or more has paid at most what it locks. *)
Lemma spent_within_locks s l cap :
  trading s l -> 0 < open_value s -> 200 <= cap ->
  round_cap (ps_current_round_size_waln s) (ps_current_round_floor_price s) (ps_waln_decimals s) = Ok cap ->
  ps_current_round_usdc_spent s <= total_locked l.
Proof.
  intros (_ & (cap' & Hc' & _ & Hl) & _ & Hp & _ & Hs & _) Hopen Hcap Hc.
  assert (cap' = cap) as -> by congruence. apply round_cap_ok in Hc as (Hc & Hsc & _ & Hne & _).
  assert (0 < 10 ^ ps_waln_decimals s) as H10 by (unfold_range; lia).
  unfold open_value, open_waln in Hopen. unfold max_gap in Hl. rewrite decide_True in Hl by done.
  pose proof (div_split (ps_current_round_waln s * ps_current_round_floor_price s) _ _ _ H10 Hs Hopen) as Hd.
  rewrite <- Z.mul_add_distr_r in Hd.
  replace (ps_current_round_waln s + (ps_current_round_size_waln s - ps_current_round_waln s))
    with (ps_current_round_size_waln s) in Hd by lia. lia.
Qed.

(** The wALN the locks would buy is at most the round's size. *)
Lemma full_total_bound scale price size l :
  0 < scale -> 0 < price -> Forall (fun r => 0 <= ir_usdc_locked_current_round r) l ->
  sumZ ir_usdc_locked_current_round l <= size * price / scale ->
  full_total scale price l <= size.
Proof.
  intros Hs Hp Hl Hle. unfold full_total, base_waln.
  pose proof (sumZ_div_le (fun r => ir_usdc_locked_current_round r * scale) price (lockers l) Hp) as Hd.
  pose proof (div_mul_le (size * price) scale Hs).
  assert (sumZ (fun r => ir_usdc_locked_current_round r * scale) (lockers l)
          = scale * sumZ ir_usdc_locked_current_round l) as He.
  { rewrite (sumZ_ext _ (fun r => scale * ir_usdc_locked_current_round r)) by (intros; lia).
    rewrite sumZ_scale. f_equal. by apply sumZ_lockers. }
  rewrite He in Hd. nia.
Qed.

(** A record whose lock buys one unit makes that total positive. *)
Lemma full_total_pos scale price l r :
  0 < scale -> 0 < price -> Forall (fun r => 0 <= ir_usdc_locked_current_round r) l ->
  r ∈ l -> price <= ir_usdc_locked_current_round r * scale -> 0 < full_total scale price l.
Proof.
  intros Hs Hp Hl Hr Hlk. unfold full_total.
  assert (0 < base_waln scale price r) as Hb by (apply Z.div_str_pos; lia).
  assert (r ∈ lockers l) as Hin by (apply list_elem_of_filter; split; [nia|done]).
  pose proof (sumZ_elem (base_waln scale price) (lockers l) r) as He.
  assert (base_waln scale price r <= sumZ (base_waln scale price) (lockers l)); [|lia].
  apply He; [|done]. intros r0 [_ H0]%list_elem_of_filter. rewrite Forall_forall in Hl.
  apply Z.div_pos; [|done]. specialize (Hl r0 H0). nia.
Qed.

Section Closing.
Context `{NftLaws} (holder : Pubkey -> Prop) `{!NftAddresses holder}.
Notation issued := (issued holder).

(** What is left to assume of the round and its records: a lock that buys at least one
    unit of wALN, and room in the counters. *)
Record closable (w : World) : Prop := {
  cb_started : ps_round_started (w_state w) = 1;
  cb_bought : 0 < ps_current_round_waln (w_state w);
  cb_value : exists r, r ∈ records (w_pool w)
    /\ ps_current_round_floor_price (w_state w)
       <= ir_usdc_locked_current_round r * 10 ^ ps_waln_decimals (w_state w);
  cb_count : ps_round_count (w_state w) < u64_max;
  cb_room : Forall (fun r => ir_usdc_committed r + ir_usdc_locked_current_round r <= u64_max
      /\ ir_waln_purchased_total r + ps_current_round_waln (w_state w) <= u64_max)
    (records (w_pool w));
}.

(** The volumes of the participants fit a [u64]. *)
Lemma lockers_volume w :
  issued w -> sumZ ir_aat_volume (lockers (records (w_pool w))) <= u64_max.
Proof.
  intros Hr. destruct (issued_ledger holder w Hr) as [m Hm]. apply issued_reachable in Hr.
  destruct (inv_pool _ _ (reachable_inv _ Hr)) as [Hwf Hrec _ _ _ _ _ _ _ _].
  pose proof (pool_volumes_le holder m w Hwf Hm) as Hvol.
  destruct (reachable_params w Hr) as [_ [_ Hmax]]. unfold MAX_TOTAL_AAT_VOLUME in Hmax.
  assert (sumZ ir_aat_volume (lockers (records (w_pool w))) <= sumZ ir_aat_volume (records (w_pool w))).
  { apply sumZ_filter_le. intros r Hin. rewrite Forall_forall in Hrec.
    destruct (Hrec r Hin) as (_ & _ & Hv). unfold_range. lia. }
  unfold u64_max. cbn. lia.
Qed.

Lemma issued_close_fits w cap :
  issued w -> closable w ->
  let s := w_state w in
  round_cap (ps_current_round_size_waln s) (ps_current_round_floor_price s) (ps_waln_decimals s) = Ok cap ->
  200 <= cap ->
  close_fits (10 ^ ps_waln_decimals s) (ps_current_round_floor_price s) (ps_current_round_waln s)
    (ps_current_round_usdc_spent s) (records (w_pool w)).
Proof.
  intros Hr [Hst Hb (rv & Hrv & Hval) Hcount Hroom] s Hc Hcap.
  pose proof (lockers_volume w Hr) as Hvol. apply issued_reachable in Hr.
  pose proof (reachable_records w Hr) as Hrec. destruct (reachable_counters w Hr) as (Hsize & _).
  destruct (inv_pool _ _ (reachable_inv _ Hr)) as [Hwf Hrwf _ Hlob Hmax Hph _ _ _ Hwaln].
  pose proof (locked_nonneg _ Hrwf) as Hl. pose proof (deposited_nonneg _ Hrwf) as Hd.
  destruct Hph as [(Hz & _)|[Htr Hopen]]; [lia|]. fold s in Htr, Hopen, Hwaln, Hb, Hst, Hsize.
  pose proof (spent_within_locks _ _ _ Htr Hopen Hcap Hc) as Hpaid.
  destruct Htr as (_ & (cap' & Hc' & _ & Hle) & Hw & Hp & _ & _ & Hspos).
  assert (cap' = cap) as -> by congruence. apply round_cap_ok in Hc as (-> & Hsc & Hprod & Hne & _).
  assert (0 < 10 ^ ps_waln_decimals s) as H10 by (unfold_range; lia).
  pose proof (full_total_bound _ _ (ps_current_round_size_waln s) _ H10 Hp Hl (proj1 Hle)) as Hfull.
  pose proof (full_total_pos _ _ _ _ H10 Hp Hl Hrv Hval) as Hfpos.
  pose proof (total_locked_nonneg _ Hrwf) as Htn. fold (lobby_usdc (records (w_pool w))) in *.
  unfold lobby_usdc in Hlob. unfold total_locked in Hle, Hpaid, Htn.
  assert (0 <= sumZ ir_usdc_deposited (records (w_pool w)))
    by (apply sumZ_nonneg; by rewrite Forall_forall in Hd).
  constructor; [by apply length_records_max|done|done|done| | | |done|].
  - split; [by apply Hspos|done].
  - unfold locked_total. lia.
  - unfold_range. lia.
  - rewrite Forall_forall in Hrec, Hroom, Hl, Hd. apply Forall_forall. intros r Hin.
    destruct (Hrec r Hin) as (Hrw & ? & ?). destruct (Hroom r Hin) as [? ?].
    pose proof (sumZ_elem _ _ _ Hl Hin) as E1. pose proof (sumZ_elem _ _ _ Hd Hin) as E2. cbn in E1, E2.
    split_and!; try done; [|lia].
    pose proof (div_mul_le (ps_current_round_size_waln s * ps_current_round_floor_price s) _ H10).
    transitivity (ps_current_round_size_waln s * ps_current_round_floor_price s); [nia|].
    apply Hprod.
Qed.

(** The new state, when the counters have room. *)
Lemma close_state_in waln spent s :
  in_range U64 waln -> in_range U64 (ps_round_count s + 1) ->
  in_range U64 (ps_total_usdc_in_lobby s - spent) -> in_range U64 (ps_waln_dust_carryover s) ->
  exists s', close_state waln spent waln s = Ok s'
    /\ ps_round_started s' = 0 /\ ps_round_count s' = ps_round_count s + 1
    /\ ps_total_usdc_in_lobby s' = ps_total_usdc_in_lobby s - spent
    /\ ps_waln_dust_carryover s' = ps_waln_dust_carryover s.
Proof.
  intros Hw Hc Hl Hd. unfold close_state. rewrite (csub_in _ waln waln) by range. cbn [mbind result_bind].
  rewrite (cadd_in _ _ 1) by done. cbn [mbind result_bind]. rewrite (csub_in _ _ spent) by done.
  cbn [mbind result_bind]. rewrite Z.sub_diag, (cadd_in _ _ 0) by (by rewrite Z.add_0_r).
  cbn [mbind result_bind]. eexists. split; [reflexivity|]. cbn. split_and!; lia.
Qed.

(** The passes over the pool and the new state. *)
Lemma close_parts w cap :
  issued w -> closable w ->
  let s := w_state w in
  round_cap (ps_current_round_size_waln s) (ps_current_round_floor_price s) (ps_waln_decimals s) = Ok cap ->
  200 <= cap ->
  exists t p s',
    close_pool (10 ^ ps_waln_decimals s) (ps_current_round_floor_price s) (ps_current_round_waln s)
      (ps_current_round_usdc_spent s) (w_pool w) = Ok (t, p)
    /\ close_state (ps_current_round_waln s) (ct_usdc_spent t) (ct_waln_purchased t) s = Ok s'
    /\ sumZ snd (ct_participants t) = ps_current_round_waln s
    /\ total_locked (records p) = 0
    /\ ps_round_started s' = 0 /\ ps_round_count s' = ps_round_count s + 1
    /\ ps_total_usdc_in_lobby s' = ps_total_usdc_in_lobby s - ps_current_round_usdc_spent s
    /\ ps_waln_dust_carryover s' = ps_waln_dust_carryover s.
Proof.
  intros Hr Hcb s Hc Hcap. pose proof (issued_close_fits w cap Hr Hcb Hc Hcap) as Hfits.
  pose proof (cb_count _ Hcb) as Hcount. apply issued_reachable in Hr.
  destruct (reachable_counters w Hr) as (_ & Hdust & _).
  destruct (inv_pool _ _ (reachable_inv _ Hr)) as [Hwf Hrwf _ Hlob Hmax _ _ Hrc Hd Hwaln].
  destruct (close_records_in _ _ _ _ _ Hfits) as (t & l' & Hx). fold s in Hx.
  assert (close_pool (10 ^ ps_waln_decimals s) (ps_current_round_floor_price s) (ps_current_round_waln s)
    (ps_current_round_usdc_spent s) (w_pool w) = Ok (t, write_active l' (w_pool w))) as Hp.
  { unfold close_pool. rewrite active_wf by done. cbn [mbind result_bind]. by rewrite Hx. }
  destruct (close_pool_ok _ _ _ _ _ _ _ Hwf Hrwf (cf_scale _ _ _ _ _ Hfits) (cf_price _ _ _ _ _ Hfits)
    Hwaln Hp) as (_ & _ & _ & Hz & Hu & Hw & _ & Hsum & _).
  pose proof (cf_paid _ _ _ _ _ Hfits) as Hpaid. pose proof (cf_locked _ _ _ _ _ Hfits).
  pose proof (deposited_nonneg _ Hrwf) as Hdep.
  assert (0 <= sumZ ir_usdc_deposited (records (w_pool w)))
    by (apply sumZ_nonneg; by rewrite Forall_forall in Hdep).
  unfold lobby_usdc in Hlob. unfold locked_total in Hpaid. fold s in Hpaid, Hw, Hsum, Hlob, Hmax, Hrc, Hwaln, Hcount, Hdust.
  destruct (close_state_in (ps_current_round_waln s) (ps_current_round_usdc_spent s) s)
    as (s' & Hs' & ? & ? & ? & ?); [done|unfold_range; lia|unfold_range; lia|done|].
  exists t, (write_active l' (w_pool w)), s'. rewrite Hu, Hw. split; [exact Hp|]. split; [exact Hs'|]. by split_and!.
Qed.

(** ** Property *)

(** C11: a round that does not fill can be closed.  Let a round with a cap of at least 200
    units have bought something, one lock be worth a unit of wALN, and the counters have
    room.  Then, with the accounts the instruction asks for, the close fails only if the
    runtime refuses to create the book or the record: all of its own checks and sums
    succeed, it hands out exactly the wALN bought, leaves no lock, takes exactly the
    payments off the lobby total and ends the round. *)
Theorem close_round_progress now a w cap rest :
  let s := w_state w in
  let i := ps_round_count s in
  issued w -> closable w ->
  round_cap (ps_current_round_size_waln s) (ps_current_round_floor_price s) (ps_waln_decimals s) = Ok cap ->
  200 <= cap ->
  CloseRound_accounts a w = Ok tt ->
  cr_remaining_accounts a = round_record_address i :: round_locked_waln_address i :: rest ->
  in_range I64 (now + ps_current_round_lock_period s) ->
  exists t p s',
    close_round now a w
      = (w2 ← write_closed_round now a (round_record_address i) (round_locked_waln_address i) i
                (find_program_address [ROUND_RECORD_SEED; le_bytes 8 i] ID).2
                (find_program_address [ROUND_LOCKED_WALN_SEED; le_bytes 8 i] ID).2
                (now + ps_current_round_lock_period s) t (w <| w_pool := p |>);
         Ok (w2 <| w_state := s' |>))
    /\ sumZ snd (ct_participants t) = ps_current_round_waln s
    /\ total_locked (records p) = 0
    /\ ps_round_started s' = 0 /\ ps_round_count s' = i + 1
    /\ ps_total_usdc_in_lobby s' = ps_total_usdc_in_lobby s - ps_current_round_usdc_spent s
    /\ ps_waln_dust_carryover s' = ps_waln_dust_carryover s.
Proof.
  intros s i Hr Hcb Hc Hcap Ha Hrest Hnow. subst s i.
  destruct (close_parts w cap Hr Hcb Hc Hcap) as (t & p & s' & Hp & Hs' & Hfacts).
  exists t, p, s'. split; [|exact Hfacts]. unfold close_round. rewrite Ha. cbn [mbind result_bind].
  rewrite (require_true (ps_round_started (w_state w) = 1)) by apply Hcb. cbn [mbind result_bind].
  rewrite (require_true (0 < ps_current_round_waln (w_state w))) by apply Hcb. cbn [mbind result_bind].
  rewrite Hrest. rewrite require_true by (cbn; lia). cbn [mbind result_bind lookup list_lookup ok_or].
  rewrite !require_true by done. cbn [mbind result_bind].
  apply round_cap_ok in Hc as (_ & Hsc & _).
  rewrite (proj2 (pow10_u128_ok _ (10 ^ ps_waln_decimals (w_state w)))) by done. cbn [mbind result_bind].
  rewrite cadd_in by done. cbn [mbind result_bind]. rewrite Hp. cbn [mbind result_bind].
  destruct (write_closed_round _ _ _ _ _ _ _ _ _ _) as [w2|e] eqn:Hw; [|done].
  cbn [mbind result_bind].
  assert (w_state w2 = w_state w) as ->.
  { unfold write_closed_round in Hw.
    apply bind_ok in Hw as (w1 & (E1 & _)%write_round_locked_waln_ok & (E2 & _)%write_round_record_ok).
    by rewrite E2, E1. }
  rewrite Hs'. done.
Qed.
End Closing.

(** ** Concrete runs *)

Definition sample_close : CloseRound :=
  mkCloseRound admin_key contract_state_address investor_pool_address treasury_address
    system_program_id [round_record_address 0; round_locked_waln_address 0].

Lemma issued_partial : exists w, after partial_round = Ok w /\ issued of_cast w.
Proof.
  destruct partial_world as (w & Hw & _). exists w. split; [done|].
  by apply (after_issued partial_round); [by_decide|by_decide|].
Qed.

(** What the theorem asks for, evaluated. *)
Definition ready_to_close (w : World) : bool :=
  let s := w_state w in
  bool_decide (ps_round_started s = 1) && bool_decide (0 < ps_current_round_waln s)
  && bool_decide (Exists (fun r => ps_current_round_floor_price s
       <= ir_usdc_locked_current_round r * 10 ^ ps_waln_decimals s) (records (w_pool w)))
  && bool_decide (ps_round_count s < u64_max)
  && bool_decide (Forall (fun r => ir_usdc_committed r + ir_usdc_locked_current_round r <= u64_max
       /\ ir_waln_purchased_total r + ps_current_round_waln s <= u64_max) (records (w_pool w))).

Lemma ready_closable `{Runtime} w : ready_to_close w = true -> closable w.
Proof.
  unfold ready_to_close. rewrite !andb_true_iff, !bool_decide_eq_true.
  intros ((((H1 & H2) & H3) & H4) & H5). split; [done..| |done|done]. by apply Exists_exists.
Qed.

(** The round of [partial_round] has bought one wALN of three for 5000003 units and is
    closed. *)
Lemma close_round_progress_witness :
  exists w t p s', issued of_cast w
    /\ sumZ snd (ct_participants t) = 1000000000 /\ total_locked (records p) = 0
    /\ ps_round_count s' = 1 /\ ps_total_usdc_in_lobby s' = 40000000 - 5000003
    /\ close_round sample_now sample_close w
       = (w2 ← write_closed_round sample_now sample_close (round_record_address 0)
                 (round_locked_waln_address 0) 0
                 (find_program_address [ROUND_RECORD_SEED; le_bytes 8 0] ID).2
                 (find_program_address [ROUND_LOCKED_WALN_SEED; le_bytes 8 0] ID).2
                 (sample_now + 100) t (w <| w_pool := p |>);
          Ok (w2 <| w_state := s' |>)).
Proof.
  destruct issued_partial as (w & Hw & Hr).
  assert (closable w) as Hcb
    by (apply ready_closable, (field_ok ready_to_close _ _ _ Hw); vm_compute; reflexivity).
  assert (CloseRound_accounts sample_close w = Ok tt) as Ha
    by (apply (field_ok (CloseRound_accounts sample_close) _ _ _ Hw); vm_compute; reflexivity).
  assert ((ps_current_round_size_waln (w_state w), ps_current_round_floor_price (w_state w),
           ps_waln_decimals (w_state w), ps_round_count (w_state w), ps_current_round_lock_period (w_state w),
           ps_current_round_waln (w_state w), ps_current_round_usdc_spent (w_state w),
           ps_total_usdc_in_lobby (w_state w))
          = (3000000000, 5000003, 9, 0, 100, 1000000000, 5000003, 40000000)) as [= E1 E2 E3 E4 E5 E6 E7 E8]
    by (apply (field_ok (fun w => (ps_current_round_size_waln (w_state w),
          ps_current_round_floor_price (w_state w), ps_waln_decimals (w_state w), ps_round_count (w_state w),
          ps_current_round_lock_period (w_state w), ps_current_round_waln (w_state w),
          ps_current_round_usdc_spent (w_state w), ps_total_usdc_in_lobby (w_state w))) _ _ _ Hw);
        vm_compute; reflexivity).
  destruct (close_round_progress of_cast sample_now sample_close w 15000009 [] Hr Hcb)
    as (t & p & s' & Hx & Hsum & Hz & _ & Hc & Hl & _); [by rewrite E1, E2, E3|lia|exact Ha|by rewrite E4
      |rewrite E5; by_decide|].
  rewrite E4, E5 in Hx. rewrite E6 in Hsum. rewrite E4 in Hc. rewrite E7, E8 in Hl.
  exists w, t, p, s'. split_and!; [exact Hr|exact Hsum|exact Hz|exact Hc|exact Hl|exact Hx].
Defined.

(** Below 200 units the locks can be two and more short of the cap.  Here the cap is five
    units and three investors of equal volume lock one each: after four sales of one wALN
    the round has paid four units for locks of three, so the close fails with
    [ArithmeticOverflow], and a round that has bought something is not cancelled. *)
Definition tiny_round : list Instruction :=
  [mint_for 1 1; mint_for 2 1; mint_for 3 1; fund 100000000000; set_size 5000000000; set_price 1;
   deposit_for 1 2; deposit_for 2 2; deposit_for 3 2;
   sell 0 1000000000; sell 0 1000000000; sell 0 1000000000; sell 0 1000000000].

Example tiny_round_stuck :
  exists w, after tiny_round = Ok w /\ reachable w
    /\ ps_round_started (w_state w) = 1 /\ ps_current_round_waln (w_state w) = 4000000000
    /\ ps_current_round_usdc_spent (w_state w) = 4 /\ total_locked (records (w_pool w)) = 3
    /\ err_of (close_round sample_now sample_close w) = Some (Floor ArithmeticOverflow)
    /\ err_of (cancel_round cancel w) = Some (Floor InvalidParameter).
Proof.
  assert (err_of (after tiny_round) = None) as Hn by (vm_compute; reflexivity).
  destruct (err_of_None _ Hn) as (w & Hw). exists w. split; [done|].
  split; [by apply (after_ok tiny_round); [|vm_compute]|].
  assert ((ps_round_started (w_state w), ps_current_round_waln (w_state w),
           ps_current_round_usdc_spent (w_state w), total_locked (records (w_pool w)),
           err_of (close_round sample_now sample_close w), err_of (cancel_round cancel w))
          = (1, 4000000000, 4, 3, Some (Floor ArithmeticOverflow), Some (Floor InvalidParameter)))
    as [= E1 E2 E3 E4 E5 E6]
    by (apply (field_ok (fun w => (ps_round_started (w_state w), ps_current_round_waln (w_state w),
          ps_current_round_usdc_spent (w_state w), total_locked (records (w_pool w)),
          err_of (close_round sample_now sample_close w), err_of (cancel_round cancel w))) _ _ _ Hw);
        vm_compute; reflexivity).
  by split_and!.
Qed.
