(* ===== verification/NoPanic.v ===== *)
(** * The program does not abort

    The model makes every abort of the code explicit: an index or slice out of range, an
    overflow of unchecked arithmetic, a loop bound.  The theorem of this file is that in
    reachable worlds they do not happen, but for two cases the code leaves open.  The
    lemmas go component by component, over [errs safe]: whatever a computation fails
    with is an error value and not an abort. *)
From coqutil Require Import Datatypes.RecordSettersUsingExistingGetters.
From stdpp Require Import base gmap strings numbers list.
From S2P Require Import Prelude.
From S2P Require Import State.
From S2P Require Import Layout.
From S2P Require Import Pool.
From S2P Require Import Runtime.
From S2P Require Import Sandbox.
From S2P Require Import Vaults.
From S2P Require Import Utils.
From S2P Require Import RoundStart.
From S2P Require Import Settlement.
From S2P Require Import AllocBook.
From S2P Require Import RoundAccounts.
From S2P Require Import Lobby.
From S2P Require Import Sell.
From S2P Require Import CloseRound.
From S2P Require Import Claim.
From S2P Require Import Admin.
From S2P Require Import Aat.
From S2P Require Import Init.
From S2P Require Import Invariant.
From S2P Require Import System.
From S2P Require Import Scenario.
From S2P Require Import Access.
From S2P Require Import Operations.
From S2P Require Import Params.
#[local] Open Scope Z_scope.

(** An error value, not an abort. *)
Definition safe (e : Error) : Prop := e <> Panic /\ e <> OutOfFuel.

Lemma safe_floor e : safe (Floor e).
Proof. done. Qed.
Lemma safe_anchor e : safe (Anchor e).
Proof. done. Qed.
#[local] Hint Resolve safe_floor safe_anchor : core.

Section Arith.
Context (ty : int_ty) (a b : Z).
Lemma safe_cadd : errs safe (cadd ty a b).
Proof. by apply errs_overflow; [|apply cadd_err]. Qed.
Lemma safe_csub : errs safe (csub ty a b).
Proof. by apply errs_overflow; [|apply csub_err]. Qed.
Lemma safe_cmul : errs safe (cmul ty a b).
Proof. by apply errs_overflow; [|apply cmul_err]. Qed.
Lemma safe_cdiv : errs safe (cdiv ty a b).
Proof. by apply errs_overflow; [|apply cdiv_err]. Qed.
Lemma safe_try_from : errs safe (try_from ty a).
Proof. by apply errs_overflow; [|apply try_from_err]. Qed.
End Arith.
#[local] Hint Resolve safe_cadd safe_csub safe_cmul safe_cdiv safe_try_from : errs.

(** [10 ^ d] fits [u128]: at most 38 decimals. *)
Definition scale_ok (d : Z) : Prop := in_range U128 (10 ^ d).

Lemma safe_pow10 d : scale_ok d -> errs safe (pow10_u128 d).
Proof. intros Hd. unfold pow10_u128. rewrite checked_in by done. apply errs_ok. Qed.
#[local] Hint Resolve safe_pow10 : errs.

(** ** The pool *)

(** The slice of the records in use is within the array. *)
Definition sliceable (p : InvestorPool) : Prop := (Z.to_nat (ip_count p) <= length (ip_investors p))%nat.

Lemma pool_wf_sliceable p : pool_wf p -> sliceable p.
Proof. intros [Hl Hc _]. unfold sliceable, MAX_INVESTORS in *. lia. Qed.

Lemma write_active_sliceable l p : sliceable p -> sliceable (write_active l p).
Proof. unfold sliceable. cbn. rewrite length_app, length_drop. lia. Qed.

Lemma safe_active p : sliceable p -> errs safe (active p).
Proof. intros Hp. unfold active, slice_to. rewrite decide_True by done. apply errs_ok. Qed.
#[local] Hint Resolve safe_active pool_wf_sliceable : errs.

Lemma safe_find_record k p : pool_wf p -> errs safe (find_record k p).
Proof. intros Hp. unfold find_record. errs. Qed.

Lemma safe_set_slot i r r' p : pool_wf p -> records p !! i = Some r -> errs safe (set_slot i r' p).
Proof.
  intros Hp Hi. destruct (records_lt p i r Hi) as [_ Hl%lookup_lt_Some].
  unfold set_slot. rewrite require_true by done. apply errs_ok.
Qed.

Lemma find_record_at k p i r :
  pool_wf p -> find_record k p = Ok (Some (i, r)) -> records p !! i = Some r /\ ir_investor r = k.
Proof.
  intros Hp Hx. destruct (find_record_cases p Hp k) as [(i' & r' & Hf & Hi & Hk & _)|(Hf & _)];
    [|congruence]. rewrite Hf in Hx. by injection Hx as -> ->.
Qed.
#[local] Hint Resolve safe_find_record : errs.

Lemma safe_remove_slot k p : pool_wf p -> errs safe (remove_slot k p).
Proof.
  intros Hp. unfold remove_slot. apply errs_bind; [errs|]. intros [[i r]|] Hf; cbn; [|errs].
  destruct (find_record_at _ _ _ _ Hp Hf) as [Hi _]. destruct (records_lt p i r Hi) as [Hlt Hin].
  destruct Hp as [Hl Hc _]. unfold MAX_INVESTORS in *. unfold checked_sub.
  rewrite checked_in by range. cbn [ok_or mbind result_bind].
  destruct (lookup_lt_is_Some_2 (ip_investors p) (Z.to_nat (ip_count p - 1))) as [m ->]; [lia|].
  cbn [ok_or mbind result_bind]. unfold set_slot.
  rewrite (require_true (i < length (ip_investors p))%nat) by lia. cbn.
  rewrite require_true by (rewrite length_insert; lia). apply errs_ok.
Qed.

Lemma safe_deposit_pool now lock v amt k p u :
  pool_wf p -> has_slot k p = Ok u -> errs safe (deposit_pool now lock v amt k p).
Proof.
  intros Hp Hs. unfold deposit_pool.
  destruct (find_record_cases p Hp k) as [(i & r & -> & Hi & Hk & _)|(Hf & Hk & _)].
  - cbn [mbind result_bind]. unfold deposit_record. errs; (by eapply safe_set_slot).
  - rewrite Hf. cbn [mbind result_bind].
    assert (ip_count p < Z.of_nat MAX_INVESTORS) as Hc.
    { unfold has_slot in Hs. case_decide; [done|]. rewrite Hf in Hs. cbn in Hs.
      apply require_ok in Hs as [? Hs]. done. }
    destruct (push_record_spec p Hp k Hc Hk) as (p' & -> & Hp' & Hr & _). cbn [mbind result_bind].
    assert (records p' !! length (records p) = Some (empty_record k)) as Hi
      by (rewrite Hr; by apply list_lookup_middle).
    unfold deposit_record. errs; (by eapply safe_set_slot).
Qed.

(** ** Rounds *)

Lemma safe_round_cap size price d : scale_ok d -> errs safe (round_cap size price d).
Proof. intros Hd. unfold round_cap. errs. Qed.

Lemma safe_sum_volumes l : errs safe (sum_volumes l).
Proof. apply errs_foldM. intros s x _. errs. Qed.

Lemma safe_recheck cap total b c : errs safe (recheck cap total b c).
Proof. unfold recheck, required_lock. errs. Qed.
#[local] Hint Resolve safe_round_cap safe_sum_volumes safe_recheck : errs.

Lemma loop_no_panic fuel cap l : eligibility_loop fuel cap l <> Err Panic.
Proof.
  revert l. induction fuel as [|fuel IH]; intros l; cbn; [done|].
  intros [Hx|(t & _ & Hx)]%bind_err; [by apply safe_sum_volumes in Hx as [? _]|].
  apply bind_err in Hx as [Hx|(u & _ & Hx)]; [by apply require_err in Hx as [_ Hx]|].
  apply bind_err in Hx as [Hx|([b l'] & _ & Hx)].
  - apply mapAccM_err in Hx as (s & c & _ & Hx). by apply safe_recheck in Hx as [? _].
  - destruct b; [by apply IH in Hx|done].
Qed.

Lemma safe_execute_round_start l size price d :
  scale_ok d -> (length l <= MAX_INVESTORS)%nat -> errs safe (execute_round_start l size price d).
Proof.
  intros Hd Hl e Hx. split; [|intros ->; by apply execute_round_start_terminates in Hx].
  intros ->. unfold execute_round_start in Hx. rewrite require_true in Hx by done.
  match type of Hx with ?m = _ => enough (errs (fun e => e <> Panic) m) as Hm by (by apply (Hm Panic)) end.
  clear Hx.
  assert (forall A (m : R A), errs safe m -> errs (fun e => e <> Panic) m) as Hs
    by (intros A m Hm e He; by apply Hm in He as [? _]).
  apply errs_bind; [by apply Hs, safe_round_cap|intros cap _].
  apply errs_bind; [by apply errs_require|intros _ _]. cbn [mbind result_bind].
  apply errs_bind; [intros e He ->; by apply loop_no_panic in He|intros [total el] _].
  apply errs_bind; [|intros [locked el2] _; apply errs_bind; [|intros [? ?] _; apply errs_ok]].
  - apply errs_mapAccM. intros s c _ e ->%lock_share_err. done.
  - case_decide; [|apply errs_ok]. apply errs_bind; [apply Hs, safe_try_from|intros gap _].
    by intros e ->%cover_gap_err.
Qed.
#[local] Hint Resolve safe_execute_round_start : errs.

Lemma safe_usdc_value d amt price : scale_ok d -> errs safe (usdc_value d amt price).
Proof. intros Hd. unfold usdc_value. errs. Qed.
#[local] Hint Resolve safe_usdc_value : errs.

Lemma records_max p l : pool_wf p -> active p = Ok l -> (length l <= MAX_INVESTORS)%nat.
Proof. intros Hp [-> _]%active_ok. by apply length_records_max. Qed.
#[local] Hint Resolve records_max : errs.

(** ** Settlements *)

Lemma safe_settle_records scale price l : errs safe (settle_records scale price l).
Proof. apply errs_mapAccM. intros s r _. unfold settle_record, full_waln. errs. Qed.

(** The winner of the dust is one of the participants. *)
Lemma safe_distribute_dust now dust scale price l0 t l :
  settle_records scale price l0 = Ok (t, l) -> errs safe (distribute_dust now dust t l).
Proof.
  intros (-> & _ & _)%settle_records_ok. unfold distribute_dust. case_decide as Hc; [|apply errs_ok].
  cbn in Hc. cbn [settle_totals st_participants st_participant_count].
  set (idx := Z.to_nat _). apply errs_bind.
  - apply errs_ok_or_some, lookup_lt_is_Some_2. rewrite length_map. unfold idx.
    pose proof (Z.mod_pos_bound (as_unsigned U64 now) (Z.of_nat (length (lockers l0)))). lia.
  - intros winner _. errs.
Qed.

Lemma safe_settle_pool now scale price dust p : sliceable p -> errs safe (settle_pool now scale price dust p).
Proof.
  intros Hp. unfold settle_pool. apply errs_bind; [errs|intros l _].
  apply errs_bind; [apply safe_settle_records|intros [t l1] H1].
  apply errs_bind; [by eapply safe_distribute_dust|intros [t2 l2] _]. apply errs_ok.
Qed.

Lemma safe_close_records scale price W paid l : errs safe (close_records scale price W paid l).
Proof.
  unfold close_records, measure_records, total_base_usdc_spent. apply errs_bind.
  { apply errs_foldM. intros s r _. unfold measure_record, full_waln. errs. }
  intros m _. do 3 (apply errs_bind; [errs|intros _ _]). apply errs_bind.
  { apply errs_foldM. intros s r _. unfold base_spent_record, base_usdc_spent. errs. }
  intros total _. apply errs_bind; [errs|intros rem _]. apply errs_bind; [|intros [t l'] _; errs].
  apply errs_mapAccM. intros s r _.
  unfold close_record, close_round_usdc_spent, base_usdc_spent, full_waln. errs.
Qed.

(** ** Accounts and invocations *)

Section Invocations.
Context `{RuntimeLaws}.

Lemma safe_invoke seeds i c : errs safe (invoke seeds i c).
Proof. intros e (code & ->)%invoke_error. done. Qed.
#[local] Hint Resolve safe_invoke : errs.

Lemma safe_check_token c k m a p : errs safe (check_token c k m a p).
Proof. unfold check_token. errs. Qed.
Lemma safe_check_associated c k m a p : errs safe (check_associated c k m a p).
Proof. unfold check_associated. errs. Qed.
Lemma safe_check_seeds s k : errs safe (check_seeds s k).
Proof. unfold check_seeds. errs. Qed.
Lemma safe_check_program k k' : errs safe (check_program k k').
Proof. unfold check_program. errs. Qed.
Lemma safe_check_token_program k : errs safe (check_token_program k).
Proof. unfold check_token_program. errs. Qed.
Lemma safe_check_address k k' : errs safe (check_address k k').
Proof. unfold check_address. errs. Qed.
Lemma safe_load_mint c k : errs safe (load_mint c k).
Proof. unfold load_mint. errs. Qed.
#[local] Hint Resolve safe_check_token safe_check_associated safe_check_seeds safe_check_program
  safe_check_token_program safe_check_address safe_load_mint : errs.

Lemma safe_check_admin a s w : errs safe (check_admin a s w).
Proof. unfold check_admin. errs. Qed.

Lemma safe_validate_hooks c l m o p : errs safe (validate_hook_accounts c l m o p).
Proof. unfold validate_hook_accounts. errs. Qed.

Lemma safe_find_aat_volume l : errs safe (find_aat_volume l).
Proof. induction l as [|[k v] l IH]; cbn; errs; done. Qed.
#[local] Hint Resolve safe_find_aat_volume : errs.

Lemma safe_verify_aat c k i : errs safe (verify_aat_nft_and_get_allocation c k i).
Proof. unfold verify_aat_nft_and_get_allocation. errs. Qed.

Lemma safe_fund_round_account t k s n c : errs safe (fund_round_account t k s n c).
Proof. unfold fund_round_account. errs. Qed.
#[local] Hint Resolve safe_check_admin safe_validate_hooks safe_verify_aat safe_fund_round_account : errs.

Lemma safe_write_round_locked_waln t k i b u l w : errs safe (write_round_locked_waln t k i b u l w).
Proof. unfold write_round_locked_waln. errs. Qed.
Lemma safe_write_round_record t k r w : errs safe (write_round_record t k r w).
Proof. unfold write_round_record. errs. Qed.
#[local] Hint Resolve safe_write_round_locked_waln safe_write_round_record : errs.

(** ** Sales *)

Lemma safe_sell_quote s wm um d n :
  (wm = ps_waln_mint s -> scale_ok d) -> errs safe (sell_quote s wm um d n).
Proof.
  intros Hd. unfold sell_quote. do 3 (apply errs_bind; [errs|intros _ _]).
  apply errs_bind; [errs|intros u Hm%require_ok]. specialize (Hd Hm). apply errs_bind; [errs|intros _ _].
  destruct (bool_decide _); cbn; errs.
Qed.

Lemma safe_sell_start q s d p : scale_ok d -> pool_wf p -> errs safe (sell_start q s d p).
Proof. intros Hd Hp. unfold sell_start. destruct (q_need_round_start q); errs. Qed.

Lemma safe_sell_usdc_out d q : scale_ok d -> errs safe (sell_usdc_out d q).
Proof. intros Hd. unfold sell_usdc_out. errs. Qed.

(** The transfer hook of the wALN mint is set and its eight accounts are not there. *)
Definition hook_accounts_missing (a : SellWaln) (c : Chain) : Prop :=
  is_Some (get_hook_program_id c (sw_waln_mint a)) /\ (length (sw_remaining_accounts a) < 8)%nat.

Lemma sell_hook_accounts_errs a c :
  errs (fun e => safe e \/ e = Panic /\ hook_accounts_missing a c) (sell_hook_accounts a c).
Proof.
  unfold sell_hook_accounts. destruct (get_hook_program_id c (sw_waln_mint a)) as [h|] eqn:Hh; [|errs].
  apply errs_bind.
  - unfold slice_to. case_decide; [apply errs_ok|]. apply errs_err. right. split; [done|].
    split; [by exists h|lia].
  - intros hooks _. apply (errs_impl _ safe); [auto|]. errs.
Qed.

Lemma safe_auto_start size price d s p :
  scale_ok d -> sliceable p -> (Z.to_nat (ip_count p) <= MAX_INVESTORS)%nat ->
  errs safe (auto_start size price d s p).
Proof.
  intros Hd Hp Hc. unfold auto_start. apply errs_bind; [errs|intros l Hl].
  apply active_ok in Hl as [_ Hlen]. rewrite Hlen in Hc.
  pose proof (safe_execute_round_start l size price d Hd Hc) as Hs.
  destruct (execute_round_start _ _ _ _) as [[[ta tl] l']|e] eqn:Hx; [errs|].
  pose proof (Hs e eq_refl). destruct e as [[]| | | |]; first [apply errs_ok|by apply errs_err].
Qed.

Lemma safe_complete_round now a rem price d sn pn w :
  scale_ok d -> sliceable (w_pool w) -> (Z.to_nat (ip_count (w_pool w)) <= MAX_INVESTORS)%nat ->
  errs safe (complete_round now a rem price d sn pn w).
Proof.
  intros Hd Hp Hc. unfold complete_round. apply errs_bind; [errs|intros u Hlen%require_ok].
  apply errs_bind; [errs|intros unlock _].
  apply errs_bind; [apply errs_ok_or_some, lookup_lt_is_Some_2; lia|intros k1 _].
  apply errs_bind; [apply errs_ok_or_some, lookup_lt_is_Some_2; lia|intros k2 _].
  do 3 (apply errs_bind; [errs|intros ? _]). apply errs_bind; [by apply safe_settle_pool|intros [t p1] H1].
  assert (ip_count p1 = ip_count (w_pool w) /\ sliceable p1) as [Hc1 Hp1].
  { unfold settle_pool in H1. inv_ok. split; [done|by apply write_active_sliceable]. }
  apply errs_bind; [errs|intros w2 H2]. apply errs_bind.
  { apply errs_foldM. intros log q _. unfold log_allocation. errs. }
  intros log _. apply errs_bind; [errs|intros w4 H4].
  apply errs_bind; [unfold finish_state; errs|intros s1 _].
  assert (w_pool w4 = p1) as ->.
  { unfold write_round_record in H4. unfold write_round_locked_waln in H2. inv_ok.
    case_decide; by inv_ok. }
  apply errs_bind; [apply safe_auto_start; [done|done|by rewrite Hc1]|intros [s2 p2] _]. errs.
Qed.

Lemma sell_waln_errs now a n w :
  inv w -> scale_ok (ps_waln_decimals (w_state w)) ->
  errs (fun e => safe e \/ e = Panic /\ hook_accounts_missing a (w_chain w)) (sell_waln now a n w).
Proof.
  intros Hi Hd. unfold sell_waln. pose proof (pi_wf _ _ _ (inv_pool _ _ Hi)) as Hp.
  assert (forall A (m : R A), errs safe m ->
    errs (fun e => safe e \/ e = Panic /\ hook_accounts_missing a (w_chain w)) m) as Hsafe
    by (intros A m; apply errs_impl; auto).
  apply errs_bind; [apply Hsafe; unfold SellWaln_accounts; errs|intros [wm um] Hacc].
  destruct (SellWaln_accounts_ok _ _ _ _ Hacc) as [_ _ _ _ Hwm _ _ _].
  assert (sw_waln_mint a = ps_waln_mint (w_state w) -> scale_ok (mi_decimals wm)) as Hdec.
  { intros Heq. destruct (va_decimals _ _ (inv_vaults _ _ Hi)) as (m & Hm & Hmd).
    rewrite Heq, Hm in Hwm. injection Hwm as <-. by rewrite Hmd. }
  apply errs_bind; [by apply Hsafe, safe_sell_quote|intros q Hq%sell_quote_ok].
  specialize (Hdec (proj1 (qs_mints _ _ _ _ _ _ Hq))).
  apply errs_bind; [by apply Hsafe, safe_sell_start|intros [tl p1] H1].
  assert (ip_count p1 = ip_count (w_pool w) /\ sliceable p1) as [Hc1 Hp1].
  { apply pool_wf_sliceable in Hp. unfold sell_start in H1.
    destruct (q_need_round_start q); inv_ok; [|done]. split; [done|by apply write_active_sliceable]. }
  apply errs_bind; [by apply Hsafe, safe_sell_usdc_out|intros out _].
  apply errs_bind; [apply sell_hook_accounts_errs|intros [hooks rem] _]. apply Hsafe.
  apply errs_bind; [unfold sell_exchange; errs|intros c _].
  apply errs_bind; [unfold record_sale; errs|intros s1 _]. case_decide; [|apply errs_ok].
  apply safe_complete_round; [done|done|]. cbn. rewrite Hc1. destruct Hp. unfold MAX_INVESTORS in *. lia.
Qed.

(** ** The other instructions *)

Lemma safe_claim_entry now k b : book_wf b -> errs safe (claim_entry now k b).
Proof.
  intros Hb. destruct (claim_entry_cases b Hb now k) as [(_ & ->)|[(_ & _ & ->)|[(_ & _ & ->)|(i & a & H1)]]];
    [by apply errs_err..|]. destruct H1 as (_ & _ & _ & _ & _ & ->). apply errs_ok.
Qed.

Lemma safe_claim_waln now a n w : inv w -> errs safe (claim_waln now a n w).
Proof.
  intros Hi. unfold claim_waln. apply errs_bind.
  { unfold ClaimWaln_accounts, init_associated. errs. }
  intros [[b m] c] Hacc. assert (book_wf b) as Hb.
  { unfold ClaimWaln_accounts in Hacc. inv_ok. by eapply (inv_books _ _ Hi). }
  do 2 (apply errs_bind; [errs|intros _ _]). apply errs_bind; [by apply safe_claim_entry|].
  intros [[amt closes] b'] _. unfold claim_hook_accounts, close_book. errs.
Qed.

Lemma safe_close_round now a w :
  pool_wf (w_pool w) -> scale_ok (ps_waln_decimals (w_state w)) -> errs safe (close_round now a w).
Proof.
  intros Hp Hd. unfold close_round. apply errs_bind; [unfold CloseRound_accounts; errs|intros _ _].
  do 2 (apply errs_bind; [errs|intros _ _]). apply errs_bind; [errs|intros u Hlen%require_ok].
  apply errs_bind; [apply errs_ok_or_some, lookup_lt_is_Some_2; lia|intros k1 _].
  apply errs_bind; [apply errs_ok_or_some, lookup_lt_is_Some_2; lia|intros k2 _].
  do 4 (apply errs_bind; [errs|intros ? _]). apply errs_bind.
  { unfold close_pool. apply errs_bind; [errs|intros l _].
    apply errs_bind; [apply safe_close_records|intros [t l'] _]. apply errs_ok. }
  intros [t p1] _. unfold write_closed_round, close_state. errs.
Qed.

Lemma update_pool_volume_safe k n p : pool_wf p -> errs safe (update_pool_volume k n p).
Proof.
  intros Hp. unfold update_pool_volume. apply errs_bind; [errs|intros [[i r]|] Hf]; [|errs].
  eapply safe_set_slot; [done|]. by eapply find_record_at.
Qed.

(** What closing the record of a round can abort on: the lamports of the two accounts
    together do not fit a [u64]. *)
Definition lamports_overflow (a : CloseRoundRecord) (c : Chain) : Prop :=
  ~ in_range U64 (lamports c (crr_treasury a) + lamports c (crr_round_record a)).

Lemma close_round_record_errs a n w :
  errs (fun e => safe e \/ e = Panic /\ lamports_overflow a (w_chain w)) (close_round_record a n w).
Proof.
  assert (forall A (m : R A), errs safe m ->
    errs (fun e => safe e \/ e = Panic /\ lamports_overflow a (w_chain w)) m) as Hsafe
    by (intros A m; apply errs_impl; auto).
  unfold close_round_record. do 4 (apply errs_bind; [apply Hsafe; errs|intros ? _]).
  apply errs_bind; [|intros c _; apply errs_ok]. unfold close_account.
  apply errs_bind; [|intros t _; apply errs_ok]. unfold checked_add, checked.
  case_decide; [apply errs_ok|]. apply errs_err. by right.
Qed.

Lemma safe_withdraw_pool now k n p : pool_wf p -> errs safe (withdraw_pool now k n p).
Proof.
  intros Hp. unfold withdraw_pool. apply errs_bind; [errs|intros [[i r]|] Hf]; cbn; [|errs].
  destruct (find_record_at _ _ _ _ Hp Hf) as [Hi _]. pose proof (fun r' => safe_set_slot i r r' p Hp Hi). errs.
Qed.

Lemma safe_unlock_records l : errs safe (unlock_records l).
Proof.
  unfold unlock_records. apply errs_bind; [|intros [? ?] _; apply errs_ok].
  apply errs_mapAccM. intros s r _. unfold unlock_record. errs.
Qed.

Lemma safe_has_slot k p : pool_wf p -> errs safe (has_slot k p).
Proof. intros Hp. unfold has_slot. errs. Qed.
#[local] Hint Resolve safe_unlock_records safe_has_slot safe_deposit_pool safe_withdraw_pool
  update_pool_volume_safe safe_remove_slot : errs.

Lemma other_safe now i w :
  inv w -> scale_ok (ps_waln_decimals (w_state w)) ->
  match i with SellWalnIx _ _ | CloseRoundIx _ | CloseRoundRecordIx _ _ => False | _ => True end ->
  errs safe (dispatch now i w).
Proof.
  intros Hi Hd Ho. pose proof (pi_wf _ _ _ (inv_pool _ _ Hi)) as Hp. destruct i; try done; cbn;
    [unfold set_floor_price, with_state, require_viable_round_params
    |unfold set_round_size, with_state, require_viable_round_params
    |unfold set_lock_period, with_state|unfold set_usdc_withdraw_lock, with_state
    |unfold set_investor_usdc_unlock|unfold set_sell_paused, with_state
    |unfold set_frozen, with_state|unfold cancel_round|unfold remove_investor_from_pool, RemoveInvestorFromPool_accounts
    |unfold fund_treasury, Treasury_accounts|unfold withdraw_treasury, Treasury_accounts
    |unfold deposit_usdc, DepositUsdc_accounts|unfold withdraw_usdc, WithdrawUsdc_accounts
    |by apply safe_claim_waln|unfold mint_aat_nft, MintAatNft_accounts, mint_total, create_nft_mint
    |unfold update_aat_volume, UpdateAatVolume_accounts, update_total
    |unfold transfer_authority, with_state|unfold accept_authority, with_state].
  all: errs.
  - inv_ok. subst. eapply safe_set_slot; [done|]. by eapply find_record_at.
  - apply safe_remove_slot. case_decide; by inv_ok.
  - apply errs_foldM. intros c j _. errs.
Qed.

Lemma reachable_scale w : reachable w -> scale_ok (ps_waln_decimals (w_state w)).
Proof.
  intros [Hv _]%reachable_params. unfold viable, require_viable_round_params, round_cap in Hv.
  apply bind_ok in Hv as (cap & Hv & _). by inv_arith.
Qed.

(** ** Property *)

(** C7: the program does not abort.  In a reachable world an instruction that fails, fails
    with an error of the program, of Anchor or of a program it invokes: no index, slice or
    unchecked sum goes out of range and no loop bound of the model is reached, but when a
    seller of a mint with a transfer hook passes fewer than its eight accounts, or when
    the lamports of a round's record and of the treasury do not fit together. *)
Theorem no_abort now i w e :
  reachable w -> dispatch now i w = Err e ->
  e <> OutOfFuel
  /\ (e = Panic ->
      (exists a n, i = SellWalnIx a n /\ hook_accounts_missing a (w_chain w))
      \/ (exists a n, i = CloseRoundRecordIx a n /\ lamports_overflow a (w_chain w))).
Proof.
  intros Hr Hx. pose proof (reachable_scale _ Hr) as Hd. apply reachable_inv in Hr as Hi.
  assert (forall e Q, safe e -> e <> OutOfFuel /\ (e = Panic -> Q)) as Hs by (intros e' Q []; by split).
  destruct i; try (apply Hs; by refine (other_safe now _ w Hi Hd _ e Hx)); cbn in Hx.
  - apply Hs. exact (safe_close_round _ _ _ (pi_wf _ _ _ (inv_pool _ _ Hi)) Hd _ Hx).
  - destruct (sell_waln_errs _ _ _ _ Hi Hd _ Hx) as [Hsafe|[-> Hh]]; [by apply Hs|]. eauto 10.
  - destruct (close_round_record_errs _ _ _ _ Hx) as [Hsafe|[-> Hh]]; [by apply Hs|]. eauto 10.
Qed.
End Invocations.

(** An investor who asks for more than the deposit gets an error. *)
Lemma no_abort_witness :
  exists w i e, reachable w /\ dispatch sample_now i w = Err e /\ e <> OutOfFuel /\ e <> Panic.
Proof.
  destruct setup_world as (w & Hw & Hr). exists w, (withdraw_for 3 999999999).
  assert (field (fun w => err_of (dispatch sample_now (withdraw_for 3 999999999) w)) (after setup)
    = Some (Some (Floor InsufficientFunds))) as Hf by (vm_compute; reflexivity).
  apply (field_ok _ _ _ _ Hw) in Hf. cbv beta in Hf.
  destruct (dispatch sample_now (withdraw_for 3 999999999) w) as [w'|e] eqn:Hx; [discriminate Hf|].
  injection Hf as ->. exists (Floor InsufficientFunds).
  split_and!; [exact Hr|reflexivity|exact (proj1 (no_abort _ _ _ _ Hr Hx))|done].
Defined.

(** Both exceptions happen. *)
Example sell_without_hook_accounts :
  forall a c, hook_accounts_missing a c -> sell_hook_accounts a c = Err Panic.
Proof.
  intros a c [[h Hh] Hl]. unfold sell_hook_accounts. rewrite Hh. unfold slice_to.
  by rewrite decide_False by lia.
Qed.
