(* ===== verification/Amounts.v ===== *)
(** * The floating-point amounts the admin's client prints

    [handle_info] scales integer amounts to [f64] and prints them with six or nine
    decimals.  This file has the part of IEEE 754 double precision that it uses, on
    numbers that are not negative and whose exponents stay in the normal range:
    conversion of an integer, product, quotient, [powi], and formatting with a fixed
    number of decimals.  The lemmas bound how far a printed amount is from the integer it
    stands for. *)
From coqutil Require Import Datatypes.RecordSettersUsingExistingGetters.
From stdpp Require Import base numbers list.
From S2P Require Import Prelude.
#[local] Open Scope Z_scope.

(** ** Doubles *)

(** The double [f_mantissa * 2 ^ f_exponent], as the quotient [f_num / f_den]. *)
Record f64 := mkF64 {
  f_mantissa : Z;
  f_exponent : Z;
}.

Definition f_num (f : f64) : Z := f_mantissa f * 2 ^ Z.max 0 (f_exponent f).
Definition f_den (f : f64) : Z := 2 ^ Z.max 0 (- f_exponent f).

(** The integer next to [num / den], the even one of two. *)
Definition half_even (num den : Z) : Z :=
  let q := num / den in
  let r := num mod den in
  if decide (2 * r < den) then q
  else if decide (den < 2 * r) then q + 1
  else if Z.even q then q else q + 1.

(** [num / den] in units of [2 ^ e], as a quotient. *)
Definition scaled_num (num e : Z) : Z := num * 2 ^ Z.max 0 (- e).
Definition scaled_den (den e : Z) : Z := den * 2 ^ Z.max 0 e.

(** The exponent with which the mantissa of [num / den] has 53 bits. *)
Definition exponent_of (num den : Z) : Z :=
  let e := Z.log2 num - Z.log2 den - 53 in
  if decide (2 ^ 53 * scaled_den den e <= scaled_num num e) then e + 1 else e.

(** The double nearest to [num / den], ties to even. *)
Definition round_f64 (num den : Z) : f64 :=
  if decide (num = 0) then mkF64 0 0
  else
    let e := exponent_of num den in
    mkF64 (half_even (scaled_num num e) (scaled_den den e)) e.

(** [x as f64] *)
Definition f64_of_u64 (x : Z) : f64 := round_f64 x 1.
Definition f64_mul (f g : f64) : f64 := round_f64 (f_num f * f_num g) (f_den f * f_den g).
Definition f64_div (f g : f64) : f64 := round_f64 (f_num f * f_den g) (f_den f * f_num g).

(** [f64::powi] with an exponent that is not negative: repeated squaring. *)
Fixpoint powi_loop (fuel : nat) (a r : f64) (b : Z) : f64 :=
  match fuel with
  | O => r
  | S fuel =>
      let r := if Z.odd b then f64_mul r a else r in
      let b := b / 2 in
      if decide (b = 0) then r else powi_loop fuel (f64_mul a a) r b
  end.
Definition powi (base : Z) (n : Z) : f64 := powi_loop 32 (f64_of_u64 base) (f64_of_u64 1) n.

(** [{:.decimals}]: the digits of the number rounded to that many decimals. *)
Definition fixed (decimals : Z) (f : f64) : Z := half_even (f_num f * 10 ^ decimals) (f_den f).

(** ** Rounding *)

Lemma half_even_near num den : 0 < den -> 2 * Z.abs (half_even num den * den - num) <= den.
Proof.
  intros Hd. unfold half_even. pose proof (Z.div_mod num den ltac:(lia)).
  pose proof (Z.mod_pos_bound num den Hd). repeat case_decide; try case_match; lia.
Qed.

Lemma f_den_pos f : 0 < f_den f.
Proof. unfold f_den. apply Z.pow_pos_nonneg; lia. Qed.

(** The mantissa of a rounded quotient has its 53 bits before rounding. *)
Lemma scaled_large num den e :
  0 < num -> 0 < den -> e = Z.log2 num - Z.log2 den - 53 ->
  2 ^ 52 * scaled_den den e <= scaled_num num e.
Proof.
  intros Hn Hd He. unfold scaled_den, scaled_num.
  destruct (Z.log2_spec num Hn) as [Hlo _]. destruct (Z.log2_spec den Hd) as [_ Hhi].
  pose proof (Z.log2_nonneg num). pose proof (Z.log2_nonneg den).
  set (p := Z.max 0 e) in *. set (n := Z.max 0 (- e)) in *.
  assert (0 < 2 ^ p) by (apply Z.pow_pos_nonneg; lia). assert (0 < 2 ^ n) by (apply Z.pow_pos_nonneg; lia).
  transitivity (2 ^ 52 * (2 ^ Z.succ (Z.log2 den) * 2 ^ p)); [nia|].
  transitivity (2 ^ Z.log2 num * 2 ^ n); [|nia].
  rewrite <- !Z.pow_add_r by lia. apply Z.pow_le_mono_r; lia.
Qed.

Lemma exponent_large num den :
  0 < num -> 0 < den ->
  let e := exponent_of num den in 2 ^ 52 * scaled_den den e <= scaled_num num e.
Proof.
  intros Hn Hd e. unfold e, exponent_of. case_decide as Hc; [|by apply scaled_large].
  set (e0 := Z.log2 num - Z.log2 den - 53) in *. unfold scaled_den, scaled_num in *.
  destruct (decide (0 <= e0)).
  - rewrite (Z.max_r 0 e0), (Z.max_l 0 (- e0)) in Hc by lia.
    rewrite (Z.max_r 0 (e0 + 1)), (Z.max_l 0 (- (e0 + 1))), Z.pow_add_r by lia.
    replace (2 ^ 52 * (den * (2 ^ e0 * 2 ^ 1))) with (2 ^ 53 * (den * 2 ^ e0)) by ring. done.
  - rewrite (Z.max_l 0 e0), (Z.max_r 0 (- e0)) in Hc by lia.
    rewrite (Z.max_l 0 (e0 + 1)), (Z.max_r 0 (- (e0 + 1))) by lia.
    replace (- e0) with (- (e0 + 1) + 1) in Hc by lia. rewrite Z.pow_add_r in Hc by lia.
    replace (2 ^ 53 * (den * 2 ^ 0)) with (2 * (2 ^ 52 * (den * 2 ^ 0))) in Hc by ring.
    change (2 ^ 1) with 2 in Hc. lia.
Qed.

(** A rounded quotient is within half a unit of its last bit: a relative error of at most
    [2 ^ -53]. *)
Lemma round_f64_near num den :
  0 <= num -> 0 < den ->
  let f := round_f64 num den in 2 ^ 53 * Z.abs (f_num f * den - num * f_den f) <= num * f_den f.
Proof.
  intros Hn Hd f. unfold f, round_f64. case_decide as Hz; [subst num; unfold f_num; cbn [f_mantissa]; lia|].
  pose proof (exponent_large num den ltac:(lia) Hd) as Hl. cbn zeta in Hl.
  set (e := exponent_of num den) in *. unfold f_num, f_den. cbn [f_mantissa f_exponent].
  assert (0 < scaled_den den e) as Hsd.
  { unfold scaled_den. apply Z.mul_pos_pos; [done|]. apply Z.pow_pos_nonneg; lia. }
  pose proof (half_even_near (scaled_num num e) _ Hsd) as Hh.
  set (m := half_even _ _) in *. fold (scaled_num num e).
  replace (m * 2 ^ Z.max 0 e * den) with (m * scaled_den den e) by (unfold scaled_den; lia). lia.
Qed.

Lemma round_f64_nonneg num den : 0 <= num -> 0 < den -> 0 <= f_num (round_f64 num den).
Proof.
  intros Hn Hd. pose proof (round_f64_near num den Hn Hd) as H. cbn zeta in H.
  pose proof (f_den_pos (round_f64 num den)). nia.
Qed.

(** The mantissa of a rounded quotient has 53 bits, or is [2 ^ 53] itself. *)
Lemma scaled_small num den e :
  0 < num -> 0 < den -> e = Z.log2 num - Z.log2 den - 53 ->
  scaled_num num e < 2 ^ 54 * scaled_den den e.
Proof.
  intros Hn Hd He. unfold scaled_den, scaled_num.
  destruct (Z.log2_spec num Hn) as [_ Hhi]. destruct (Z.log2_spec den Hd) as [Hlo _].
  pose proof (Z.log2_nonneg num). pose proof (Z.log2_nonneg den).
  set (p := Z.max 0 e) in *. set (n := Z.max 0 (- e)) in *.
  assert (0 < 2 ^ p) by (apply Z.pow_pos_nonneg; lia). assert (0 < 2 ^ n) by (apply Z.pow_pos_nonneg; lia).
  apply Z.lt_le_trans with (2 ^ Z.succ (Z.log2 num) * 2 ^ n); [nia|].
  transitivity (2 ^ 54 * (2 ^ Z.log2 den * 2 ^ p)); [|nia].
  rewrite <- !Z.pow_add_r by lia. apply Z.pow_le_mono_r; lia.
Qed.

Lemma exponent_small num den :
  0 < num -> 0 < den ->
  let e := exponent_of num den in scaled_num num e < 2 ^ 53 * scaled_den den e.
Proof.
  intros Hn Hd e. unfold e, exponent_of. case_decide as Hc; [|lia].
  pose proof (scaled_small num den _ Hn Hd eq_refl) as Hs.
  set (e0 := Z.log2 num - Z.log2 den - 53) in *. clear Hc. unfold scaled_den, scaled_num in *.
  destruct (decide (0 <= e0)).
  - rewrite (Z.max_r 0 e0), (Z.max_l 0 (- e0)) in Hs by lia.
    rewrite (Z.max_r 0 (e0 + 1)), (Z.max_l 0 (- (e0 + 1))), Z.pow_add_r by lia.
    replace (2 ^ 53 * (den * (2 ^ e0 * 2 ^ 1))) with (2 ^ 54 * (den * 2 ^ e0)) by ring. done.
  - rewrite (Z.max_l 0 e0), (Z.max_r 0 (- e0)) in Hs by lia.
    rewrite (Z.max_l 0 (e0 + 1)), (Z.max_r 0 (- (e0 + 1))) by lia.
    replace (- e0) with (- (e0 + 1) + 1) in Hs by lia. rewrite Z.pow_add_r in Hs by lia.
    replace (2 ^ 54 * (den * 2 ^ 0)) with (2 * (2 ^ 53 * (den * 2 ^ 0))) in Hs by ring.
    change (2 ^ 1) with 2 in Hs. lia.
Qed.

Lemma round_f64_mantissa num den :
  0 < num -> 0 < den -> 2 ^ 52 <= f_mantissa (round_f64 num den) <= 2 ^ 53.
Proof.
  intros Hn Hd. unfold round_f64. rewrite decide_False by lia. cbn [f_mantissa].
  pose proof (exponent_large num den Hn Hd) as Hl. pose proof (exponent_small num den Hn Hd) as Hs.
  cbn zeta in Hl, Hs. set (e := exponent_of num den) in *.
  assert (0 < scaled_den den e) as Hsd.
  { unfold scaled_den. apply Z.mul_pos_pos; [done|]. apply Z.pow_pos_nonneg; lia. }
  pose proof (half_even_near (scaled_num num e) _ Hsd) as Hh. nia.
Qed.

(** ** Scaled amounts *)

(** [{:.decimals}] of [x as f64 / scale] *)
Definition shown (decimals : Z) (scale : f64) (x : Z) : Z := fixed decimals (f64_div (f64_of_u64 x) scale).

(** The three roundings of a printed amount, added up. *)
Lemma errors_add_up P S x N1 D1 N2 D2 n :
  0 < P -> 0 < S -> 0 <= x -> 0 < D1 -> 0 < D2 -> x * P <= 2 ^ 50 * S ->
  2 ^ 53 * Z.abs (N1 - x * D1) <= x * D1 ->
  2 ^ 53 * Z.abs (N2 * D1 * S - N1 * D2) <= N1 * D2 ->
  2 * Z.abs (n * D2 - N2 * P) <= D2 ->
  Z.abs (n * S - x * P) < S.
Proof.
  intros HP HS Hx HD1 HD2 Hmax H1 H2 H3.
  set (a := n * D2 - N2 * P) in *. set (b := N2 * D1 * S - N1 * D2) in *. set (c := N1 - x * D1) in *.
  assert ((n * S - x * P) * (D1 * D2) = S * D1 * a + P * b + P * D2 * c) as Heq by (unfold a, b, c; ring).
  assert (0 < S * D1 /\ 0 < P * D2 /\ 0 < D1 * D2) as (HSD & HPD & HD) by (split_and!; by apply Z.mul_pos_pos).
  assert (N1 <= 2 * (x * D1)) as HN by (unfold c in H1; lia).
  assert (Z.abs (S * D1 * a + P * b + P * D2 * c)
          <= S * D1 * Z.abs a + P * Z.abs b + P * D2 * Z.abs c) as Htri.
  { etrans; [apply Z.abs_triangle|]. apply Z.add_le_mono; [etrans; [apply Z.abs_triangle|]|];
      rewrite !Z.abs_mul, ?(Z.abs_eq S), ?(Z.abs_eq D1), ?(Z.abs_eq D2), ?(Z.abs_eq P) by lia; lia. }
  pose proof (Z.mul_le_mono_nonneg_l _ _ (S * D1) ltac:(lia) H3) as Ea.
  pose proof (Z.mul_le_mono_nonneg_l _ _ P ltac:(lia) H2) as Eb.
  pose proof (Z.mul_le_mono_nonneg_l _ _ (P * D2) ltac:(lia) HN) as En.
  pose proof (Z.mul_le_mono_nonneg_l _ _ (P * D2) ltac:(lia) H1) as Ec.
  pose proof (Z.mul_le_mono_nonneg_r _ _ (D1 * D2) ltac:(lia) Hmax) as Em.
  assert (0 < S * (D1 * D2)) as HSDD by (by apply Z.mul_pos_pos).
  rewrite <- Heq, Z.abs_mul, (Z.abs_eq (D1 * D2)) in Htri by lia.
  apply (Z.mul_lt_mono_pos_r (D1 * D2)); [done|]. clear -Htri Ea Eb Ec Em En HSDD. lia.
Qed.

(** A printed amount is less than one unit of its last decimal away from the integer it
    stands for, if that has not more than [2 ^ 50] such units. *)
Lemma shown_near decimals scale S x :
  0 <= decimals -> 0 < S -> f_num scale = S * f_den scale -> 0 <= x ->
  x * 10 ^ decimals <= 2 ^ 50 * S ->
  Z.abs (shown decimals scale x * S - x * 10 ^ decimals) < S.
Proof.
  intros Hdec HS Hscale Hx Hmax. unfold shown, fixed.
  assert (0 < 10 ^ decimals) as HP by (apply Z.pow_pos_nonneg; lia).
  pose proof (round_f64_near x 1 Hx ltac:(lia)) as H1. pose proof (round_f64_nonneg x 1 Hx ltac:(lia)) as Hn1.
  fold (f64_of_u64 x) in H1, Hn1. cbn zeta in H1. set (f1 := f64_of_u64 x) in *.
  pose proof (f_den_pos f1) as Hd1. pose proof (f_den_pos scale) as Hds.
  assert (0 < f_den f1 * f_num scale) as Hden by (rewrite Hscale; nia).
  pose proof (round_f64_near (f_num f1 * f_den scale) _ ltac:(nia) Hden) as H2.
  fold (f64_div f1 scale) in H2. cbn zeta in H2. set (f2 := f64_div f1 scale) in *.
  pose proof (f_den_pos f2) as Hd2. rewrite Hscale in H2.
  apply (errors_add_up _ S x (f_num f1) (f_den f1) (f_num f2) (f_den f2)); try done; [lia| |by apply half_even_near].
  replace (f_num f2 * (f_den f1 * (S * f_den scale)) - f_num f1 * f_den scale * f_den f2)
    with (f_den scale * (f_num f2 * f_den f1 * S - f_num f1 * f_den f2)) in H2 by ring.
  rewrite Z.abs_mul, (Z.abs_eq (f_den scale)) in H2 by lia. nia.
Qed.

(** It is exact when the amount has that many decimals. *)
Lemma shown_exact decimals scale S x k :
  0 <= decimals -> 0 < S -> f_num scale = S * f_den scale -> 0 <= x ->
  x * 10 ^ decimals = k * S -> k <= 2 ^ 50 -> shown decimals scale x = k.
Proof.
  intros Hdec HS Hscale Hx Hk Hmax.
  pose proof (shown_near decimals scale S x Hdec HS Hscale Hx ltac:(nia)) as Hn. rewrite Hk in Hn. nia.
Qed.

(** The powers of ten up to [10 ^ 22] are doubles, and [powi] finds them. *)
Lemma powi_exact d : 0 <= d <= 22 -> f_num (powi 10 d) = 10 ^ d * f_den (powi 10 d).
Proof.
  intros Hd. assert (Forall (fun d => f_num (powi 10 d) = 10 ^ d * f_den (powi 10 d)) (seqZ 0 23)) as Hall
    by by_decide.
  rewrite Forall_forall in Hall. apply Hall, elem_of_seqZ. lia.
Qed.
