(* ===== verification/AdminCli.v ===== *)
(** * The admin's command-line client: [src/admin-cli]

    A command becomes at most one request to the program: an instruction with its
    accounts, derived from the program id and the payer's key.  The client's libraries
    (RPC, key files, transactions) are not part of the repository: [Client] is what it
    uses of them.  The theorems say that the program accepts the accounts the client
    derives, that its setters do what they say, and that what it reads of the accounts
    and prints is what the program stored, its floating-point amounts included. *)
From coqutil Require Import Datatypes.RecordSettersUsingExistingGetters.
From stdpp Require Import base gmap strings numbers list.
From S2P Require Import Prelude.
From S2P Require Import State.
From S2P Require Import Layout.
From S2P Require Import Pool.
From S2P Require Import Runtime.
From S2P Require Import Sandbox.
From S2P Require Import Vaults.
From S2P Require Import Utils.
From S2P Require Import RoundStart.
From S2P Require Import Settlement.
From S2P Require Import AllocBook.
From S2P Require Import RoundAccounts.
From S2P Require Import Lobby.
From S2P Require Import Sell.
From S2P Require Import CloseRound.
From S2P Require Import Claim.
From S2P Require Import Admin.
From S2P Require Import Aat.
From S2P Require Import Init.
From S2P Require Import Invariant.
From S2P Require Import System.
From S2P Require Import Scenario.
From S2P Require Import Typed.
From S2P Require Import Amounts.
#[local] Open Scope Z_scope.

(** [enum Commands] *)
Inductive Commands :=
| Info
| CliInitialize (usdc_mint waln_mint : string) (floor_price_usdc round_size_waln lock_period_seconds : Z)
| CliSetFloorPrice (new_price_usdc : Z)
| CliSetRoundSize (new_round_size_waln : Z)
| CliSetLockPeriod (new_lock_period : Z)
| CliSetUsdcWithdrawLock (new_lock_seconds : Z)
| CliSetInvestorUsdcUnlock (investor : string) (new_unlock_ts : Z)
| CliSetSellPaused (paused : bool)
| CliSetFrozen (frozen : bool)
| CliCancelRound
| CliFundTreasury (amount_lamports : Z)
| CliWithdrawTreasury (amount_lamports : Z)
| CliMintAatNft (investor : string) (aat_volume : Z)
| CliUpdateAatVolume (investor : string) (new_volume : Z)
| CliRemoveInvestorFromPool (investor : string)
| CliTransferAuthority (new_admin : string)
| CliAcceptAuthority.


(** [anchor_client::Cluster] *)
Inductive Cluster := Mainnet | Devnet | Localnet | Custom (url ws_url : string).

(** The errors of the client that this part of it can make; [CliPanic] is the slice of
    [handle_info] beyond the pool. *)
Inductive CliError :=
| InvalidKey (what : string)
| RpcError
| AccountTooSmall (len min_len : Z)
| FailedToDeserialize
| FailedToReadKeypair
| FailedToDecodeKeypair
| FailedToParseKeypair
| FailedToOpenProgram
| CliPanic.

#[export] Instance CliError_eq_dec : EqDecision CliError.
Proof. solve_decision. Defined.

(** An account as the RPC node returns it. *)
Record RpcAccount := mkRpcAccount {
  ra_lamports : Z;
  ra_data : list Z;
}.

(** The client's libraries, which are not part of the repository: the SDK's keys and key
    files, the file system, base58, the RPC node and the cast of [bytemuck].  Text read
    from a file is its list of characters. *)
Class Client := {
  Keypair : Type;
  Program : Type;
  parse_pubkey : string -> option Pubkey;
  tilde : string -> string;
  read_to_string : string -> option (list Z);
  bs58_decode : list Z -> option (list Z);
  keypair_try_from : list Z -> option Keypair;
  read_keypair_file : string -> option Keypair;
  keypair_pubkey : Keypair -> Pubkey;
  client_program : Cluster -> Keypair -> Pubkey -> option Program;
  program_id : Program -> Pubkey;
  program_payer : Program -> Pubkey;
  rpc_get_account : Pubkey -> option RpcAccount;
  rpc_get_token_account_balance : Pubkey -> option string;
  try_from_bytes : forall {A}, codec A -> list Z -> option A;
  bpf_loader_upgradeable : Pubkey;
}.

(** A program opened for a key pair has that payer; [bytemuck] reads a slice of exactly
    the type's size as the type lies in memory (the RPC's buffers are aligned). *)
Class ClientLaws `{Client} : Prop := {
  client_program_ok cluster keypair id p :
    client_program cluster keypair id = Some p ->
    program_id p = id /\ program_payer p = keypair_pubkey keypair;
  try_from_bytes_ok A (c : codec A) data a :
    c_dec c data = Some (a, []) -> try_from_bytes c data = Some a;
}.

(** What a command sends. *)
Inductive Request :=
| RequestInitialize (a : Initialize) (floor_price_usdc round_size_waln lock_period_seconds : Z)
| RequestInstruction (i : Instruction).

Section AdminCli.
Context `{Runtime} `{Client}.

(** ** Addresses ([utils.rs]) *)

Definition get_contract_state_address (program_id : Pubkey) : Pubkey * Z :=
  find_program_address [CONTRACT_STATE_SEED] program_id.
Definition get_usdc_vault_address (program_id : Pubkey) : Pubkey * Z :=
  find_program_address [USDC_VAULT_SEED] program_id.
Definition get_waln_vault_address (program_id : Pubkey) : Pubkey * Z :=
  find_program_address [WALN_VAULT_SEED] program_id.
Definition get_investor_pool_address (program_id : Pubkey) : Pubkey * Z :=
  find_program_address [INVESTOR_POOL_SEED] program_id.
Definition get_treasury_address (program_id : Pubkey) : Pubkey * Z :=
  find_program_address [TREASURY_SEED] program_id.
Definition get_aat_nft_mint_address (investor program_id : Pubkey) : Pubkey * Z :=
  find_program_address [AAT_NFT_SEED; investor] program_id.
Definition get_nft_authority_address (program_id : Pubkey) : Pubkey * Z :=
  find_program_address [NFT_AUTHORITY_SEED] program_id.
Definition get_program_data_address (program_id : Pubkey) : Pubkey * Z :=
  find_program_address [program_id] bpf_loader_upgradeable.

(** ** Reading accounts ([handlers.rs]) *)

Definition load_zero_copy {A} (c : codec A) (pubkey : Pubkey) : result CliError A :=
  account ← ok_or (rpc_get_account pubkey) RpcError;
  let min_len := 8 + c_size c in
  let len := Z.of_nat (length (ra_data account)) in
  _ ← require (min_len <= len) (AccountTooSmall len min_len);
  let data := take (Z.to_nat (c_size c)) (drop 8 (ra_data account)) in
  ok_or (try_from_bytes c data) FailedToDeserialize.

(** A printed line: its label and the values after it.  [Fixed d n] is a number with [d]
    decimals, whose digits are those of [n]. *)
Inductive Value := Key (k : Pubkey) | Int (n : Z) | Bool (b : bool) | Fixed (decimals n : Z).
Definition Line : Type := string * list Value.

Definition token_balance (vault : Pubkey) : Z :=
  match rpc_get_token_account_balance vault with
  | Some amount => default 0 (parse_u64 amount)
  | None => 0
  end.

(** [10_f64.powi(decimals)] *)
Definition usdc_scale (state : ProgramState) : f64 := powi 10 (ps_usdc_decimals state).
Definition waln_scale (state : ProgramState) : f64 := powi 10 (ps_waln_decimals state).

(** [{:.6}] of an amount over its scale. *)
Definition usdc_amount (state : ProgramState) (amount : Z) : Value :=
  Fixed 6 (shown 6 (usdc_scale state) amount).
Definition waln_amount (state : ProgramState) (amount : Z) : Value :=
  Fixed 6 (shown 6 (waln_scale state) amount).

Definition record_line (state : ProgramState) (r : InvestorRecord) : Line :=
  ("investor"%string,
   [Key (ir_investor r); usdc_amount state (ir_usdc_deposited r);
    usdc_amount state (ir_usdc_locked_current_round r); usdc_amount state (ir_usdc_committed r);
    waln_amount state (ir_waln_purchased_total r); Int (ir_aat_volume r);
    Int (ir_usdc_unlock_ts r)]).

(** The lines about the program, and the ones about its investors. *)
Definition program_lines (program_id : Pubkey) (state : ProgramState) (count : Z)
  (treasury_lamports : Z) : list Line :=
  let contract_state := (find_program_address [CONTRACT_STATE_SEED] program_id).1 in
  let usdc_vault := (find_program_address [USDC_VAULT_SEED] program_id).1 in
  let waln_vault := (find_program_address [WALN_VAULT_SEED] program_id).1 in
  let treasury := (find_program_address [TREASURY_SEED] program_id).1 in
  let usdc (amount : Z) := [Int amount; usdc_amount state amount] in
  let waln (amount : Z) := [Int amount; waln_amount state amount] in
  [("Program ID", [Key program_id]);
   ("Contract State", [Key contract_state]);
   ("Admin", [Key (ps_admin state)])]%string
  ++ (if decide (ps_pending_admin state = default_pubkey) then []
      else [("Pending Admin"%string, [Key (ps_pending_admin state)])])
  ++ [("USDC Mint", [Key (ps_usdc_mint state)]);
      ("WALN Mint", [Key (ps_waln_mint state)]);
      ("USDC Vault", Key usdc_vault :: usdc (token_balance usdc_vault));
      ("WALN Vault", Key waln_vault :: waln (token_balance waln_vault));
      ("Treasury", [Key treasury; Fixed 9 (shown 9 (f64_of_u64 1000000000) treasury_lamports)]);
      ("Floor Price", usdc (ps_floor_price_usdc state));
      ("Round Size", waln (ps_round_size_waln state));
      ("Lock Period", [Int (ps_lock_period_seconds state)]);
      ("USDC Withdraw Lock", [Int (ps_usdc_withdraw_lock_seconds state)]);
      ("Sell Paused", [Bool (bool_decide (ps_sell_paused state = 1))]);
      ("Frozen", [Bool (bool_decide (ps_frozen state = 1))]);
      ("Round Started", [Bool (bool_decide (ps_round_started state = 1))]);
      ("Round Count", [Int (ps_round_count state)]);
      ("Current Round WALN", waln (ps_current_round_waln state));
      ("Current Round Floor", usdc (ps_current_round_floor_price state));
      ("Current Round Size", waln (ps_current_round_size_waln state));
      ("USDC Locked for Round", usdc (ps_total_usdc_locked_for_round state));
      ("Total USDC in Lobby", usdc (ps_total_usdc_in_lobby state));
      ("Total AAT Volume", [Int (ps_total_aat_volume state)]);
      ("WALN Dust Carryover", waln (ps_waln_dust_carryover state));
      ("Investor Pool", [Int count])]%string.

Definition info_lines (program_id : Pubkey) (state : ProgramState) (count : Z)
  (investors : list InvestorRecord) (treasury_lamports : Z) : list Line :=
  program_lines program_id state count treasury_lamports
  ++ map (record_line state) (filter (fun r => ir_investor r <> default_pubkey) investors).

Definition handle_info (program_id : Pubkey) : result CliError (list Line) :=
  let contract_state_pubkey := (get_contract_state_address program_id).1 in
  let investor_pool_pubkey := (get_investor_pool_address program_id).1 in
  state ← load_zero_copy program_state contract_state_pubkey;
  pool ← load_zero_copy investor_pool investor_pool_pubkey;
  let treasury_lamports :=
    match rpc_get_account (get_treasury_address program_id).1 with
    | Some a => ra_lamports a
    | None => 0
    end in
  investors ← map_err (fun _ => CliPanic) (active pool);
  Ok (info_lines program_id state (ip_count pool) investors treasury_lamports).

(** ** Handlers ([handlers.rs]): the request each of them builds *)

Definition handle_initialize (program_id payer usdc_mint waln_mint : Pubkey)
  (floor_price_usdc round_size_waln lock_period_seconds : Z) : Request :=
  RequestInitialize
    {| in_admin := payer;
       in_contract_state := (get_contract_state_address program_id).1;
       in_usdc_mint := usdc_mint;
       in_waln_mint := waln_mint;
       in_usdc_vault := (get_usdc_vault_address program_id).1;
       in_waln_vault := (get_waln_vault_address program_id).1;
       in_investor_pool := (get_investor_pool_address program_id).1;
       in_system_program := system_program_id;
       in_usdc_token_program := token_id;
       in_waln_token_program := token_2022_id;
       in_program := program_id;
       in_program_data := (get_program_data_address program_id).1 |}
    floor_price_usdc round_size_waln lock_period_seconds.

(** [floor_program::accounts::AdminOnly { admin: program.payer(), contract_state }] *)
Definition admin_only (program_id payer : Pubkey) : AdminOnly :=
  mkAdminOnly payer (get_contract_state_address program_id).1.

Definition handle_set_floor_price (program_id payer : Pubkey) (new_price_usdc : Z) : Request :=
  RequestInstruction (SetFloorPrice (admin_only program_id payer) new_price_usdc).
Definition handle_set_round_size (program_id payer : Pubkey) (new_round_size_waln : Z) : Request :=
  RequestInstruction (SetRoundSize (admin_only program_id payer) new_round_size_waln).
Definition handle_set_lock_period (program_id payer : Pubkey) (new_lock_period : Z) : Request :=
  RequestInstruction (SetLockPeriod (admin_only program_id payer) new_lock_period).
Definition handle_set_sell_paused (program_id payer : Pubkey) (paused : bool) : Request :=
  RequestInstruction (SetSellPaused (admin_only program_id payer) paused).
Definition handle_set_frozen (program_id payer : Pubkey) (frozen : bool) : Request :=
  RequestInstruction (SetFrozen (admin_only program_id payer) frozen).

Definition handle_cancel_round (program_id payer : Pubkey) : Request :=
  RequestInstruction (CancelRoundIx
    (mkCancelRound payer (get_contract_state_address program_id).1
       (get_investor_pool_address program_id).1)).

Definition handle_fund_treasury (program_id payer : Pubkey) (amount_lamports : Z) : Request :=
  RequestInstruction (FundTreasuryIx
    (mkTreasury payer (get_contract_state_address program_id).1 (get_treasury_address program_id).1
       system_program_id) amount_lamports).
Definition handle_withdraw_treasury (program_id payer : Pubkey) (amount_lamports : Z) : Request :=
  RequestInstruction (WithdrawTreasuryIx
    (mkTreasury payer (get_contract_state_address program_id).1 (get_treasury_address program_id).1
       system_program_id) amount_lamports).

Definition handle_transfer_authority (program_id payer new_admin : Pubkey) : Request :=
  RequestInstruction (TransferAuthorityIx
    (mkTransferAuthority payer new_admin (get_contract_state_address program_id).1)).
Definition handle_accept_authority (program_id payer : Pubkey) : Request :=
  RequestInstruction (AcceptAuthorityIx
    (mkAcceptAuthority payer (get_contract_state_address program_id).1)).

Definition handle_set_usdc_withdraw_lock (program_id payer : Pubkey) (new_lock_seconds : Z) : Request :=
  RequestInstruction (SetUsdcWithdrawLock (admin_only program_id payer) new_lock_seconds).
Definition handle_set_investor_usdc_unlock (program_id payer investor : Pubkey) (new_unlock_ts : Z)
  : Request :=
  RequestInstruction (SetInvestorUsdcUnlockIx
    (mkSetInvestorUsdcUnlock payer (get_contract_state_address program_id).1
       (get_investor_pool_address program_id).1) investor new_unlock_ts).

Definition handle_update_aat_volume (program_id payer investor : Pubkey) (new_volume : Z) : Request :=
  RequestInstruction (UpdateAatVolumeIx
    (mkUpdateAatVolume payer (get_contract_state_address program_id).1
       (get_investor_pool_address program_id).1 investor
       (get_aat_nft_mint_address investor program_id).1
       (get_nft_authority_address program_id).1 token_2022_id system_program_id) new_volume).

(** The only handler that reads the chain first, for the USDC mint. *)
Definition handle_remove_investor_from_pool (program_id payer investor : Pubkey)
  : result CliError Request :=
  let contract_state := (get_contract_state_address program_id).1 in
  state ← load_zero_copy program_state contract_state;
  let usdc_mint := ps_usdc_mint state in
  let investor_usdc_account := associated_token_address investor usdc_mint token_id in
  Ok (RequestInstruction (RemoveInvestorIx
    (mkRemoveInvestorFromPool payer contract_state (get_investor_pool_address program_id).1
       investor usdc_mint investor_usdc_account (get_usdc_vault_address program_id).1 token_id))).

Definition handle_mint_aat_nft (program_id payer investor : Pubkey) (aat_volume : Z) : Request :=
  let mint := (get_aat_nft_mint_address investor program_id).1 in
  RequestInstruction (MintAatNftIx
    (mkMintAatNft payer mint (get_contract_state_address program_id).1 investor
       (associated_token_address investor mint token_2022_id)
       (get_nft_authority_address program_id).1 system_program_id token_2022_id
       associated_token_program_id) aat_volume).

(** ** [main]: the [match cli.command] *)

Definition key (what s : string) : result CliError Pubkey :=
  ok_or (parse_pubkey s) (InvalidKey what).

Definition command_request (program_id payer : Pubkey) (command : Commands)
  : result CliError (option Request) :=
  match command with
  | Info => _ ← handle_info program_id; Ok None
  | CliInitialize usdc_mint waln_mint floor_price_usdc round_size_waln lock_period_seconds =>
      usdc_mint ← key "USDC mint" usdc_mint;
      waln_mint ← key "WALN mint" waln_mint;
      Ok (Some (handle_initialize program_id payer usdc_mint waln_mint floor_price_usdc
                  round_size_waln lock_period_seconds))
  | CliSetFloorPrice new_price_usdc => Ok (Some (handle_set_floor_price program_id payer new_price_usdc))
  | CliSetRoundSize n => Ok (Some (handle_set_round_size program_id payer n))
  | CliSetLockPeriod n => Ok (Some (handle_set_lock_period program_id payer n))
  | CliSetUsdcWithdrawLock n => Ok (Some (handle_set_usdc_withdraw_lock program_id payer n))
  | CliSetInvestorUsdcUnlock investor new_unlock_ts =>
      investor ← key "investor pubkey" investor;
      Ok (Some (handle_set_investor_usdc_unlock program_id payer investor new_unlock_ts))
  | CliSetSellPaused paused => Ok (Some (handle_set_sell_paused program_id payer paused))
  | CliSetFrozen frozen => Ok (Some (handle_set_frozen program_id payer frozen))
  | CliCancelRound => Ok (Some (handle_cancel_round program_id payer))
  | CliFundTreasury n => Ok (Some (handle_fund_treasury program_id payer n))
  | CliWithdrawTreasury n => Ok (Some (handle_withdraw_treasury program_id payer n))
  | CliMintAatNft investor aat_volume =>
      investor ← key "investor pubkey" investor;
      Ok (Some (handle_mint_aat_nft program_id payer investor aat_volume))
  | CliUpdateAatVolume investor new_volume =>
      investor ← key "investor pubkey" investor;
      Ok (Some (handle_update_aat_volume program_id payer investor new_volume))
  | CliRemoveInvestorFromPool investor =>
      investor ← key "investor pubkey" investor;
      request ← handle_remove_investor_from_pool program_id payer investor;
      Ok (Some request)
  | CliTransferAuthority new_admin =>
      new_admin ← key "new admin pubkey" new_admin;
      Ok (Some (handle_transfer_authority program_id payer new_admin))
  | CliAcceptAuthority => Ok (Some (handle_accept_authority program_id payer))
  end.






(** The account constraints of an instruction the client sends. *)
Definition request_accounts (i : Instruction) (w : World) : R unit :=
  match i with
  | SetFloorPrice a _ | SetRoundSize a _ | SetLockPeriod a _ | SetUsdcWithdrawLock a _
  | SetSellPaused a _ | SetFrozen a _ => check_admin (ao_admin a) (ao_contract_state a) w
  | SetInvestorUsdcUnlockIx a _ _ =>
      _ ← check_admin (su_admin a) (su_contract_state a) w;
      check_seeds [INVESTOR_POOL_SEED] (su_investor_pool a)
  | CancelRoundIx a =>
      _ ← check_admin (ca_admin a) (ca_contract_state a) w;
      check_seeds [INVESTOR_POOL_SEED] (ca_investor_pool a)
  | FundTreasuryIx a _ | WithdrawTreasuryIx a _ => Treasury_accounts a w
  | RemoveInvestorIx a => _ ← RemoveInvestorFromPool_accounts a w; Ok tt
  | MintAatNftIx a _ => MintAatNft_accounts a w
  | UpdateAatVolumeIx a _ => UpdateAatVolume_accounts a w
  | TransferAuthorityIx a => check_admin (ta_admin a) (ta_contract_state a) w
  | AcceptAuthorityIx a =>
      _ ← check_seeds [CONTRACT_STATE_SEED] (aa_contract_state a);
      _ ← ensure (ps_pending_admin (w_state w) <> default_pubkey) NoPendingAdmin;
      ensure (ps_pending_admin (w_state w) = aa_pending_admin a) NotPendingAdmin
  | _ => Ok tt
  end.

End AdminCli.

(** ** Lemmas *)

Section AdminCliLemmas.
Context `{RuntimeLaws}.

(** The constraints come first: when they fail, so does the instruction, the same way. *)
Lemma request_accounts_first now i w e :
  request_accounts i w = Err e -> dispatch now i w = Err e.
Proof.
  intros Hx. destruct i; cbn in Hx |- *; try discriminate;
    [unfold set_floor_price|unfold set_round_size|unfold set_lock_period|unfold set_usdc_withdraw_lock
    |unfold set_investor_usdc_unlock|unfold set_sell_paused|unfold set_frozen|unfold cancel_round
    |unfold remove_investor_from_pool|unfold fund_treasury|unfold withdraw_treasury
    |unfold mint_aat_nft|unfold update_aat_volume|unfold transfer_authority|unfold accept_authority].
  all: try by rewrite Hx.
  - destruct (check_admin _ _ w); cbn in *; [by rewrite Hx|by injection Hx as ->].
  - destruct (check_admin _ _ w); cbn in *; [by rewrite Hx|by injection Hx as ->].
  - destruct (RemoveInvestorFromPool_accounts _ w); cbn in *; [discriminate|by injection Hx as ->].
  - change (request_accounts (AcceptAuthorityIx a) w = Err e) in Hx. unfold request_accounts in Hx.
    destruct (check_seeds _ (aa_contract_state a)); cbn [mbind result_bind] in *; [|by injection Hx as ->].
    destruct (ensure (ps_pending_admin (w_state w) <> default_pubkey) _); cbn [mbind result_bind] in *;
      [by rewrite Hx|by injection Hx as ->].
Qed.

Lemma check_admin_in w :
  check_admin (ps_admin (w_state w)) (find_program_address [CONTRACT_STATE_SEED] ID).1 w = Ok tt.
Proof. unfold check_admin, check_seeds. by rewrite !require_true. Qed.

Lemma check_seeds_in seeds : check_seeds seeds (find_program_address seeds ID).1 = Ok tt.
Proof. unfold check_seeds. by rewrite require_true. Qed.



(** The RPC node has an account with the bytes of [a] behind a discriminator. *)
Definition stored_at `{Client} {A} (key : Pubkey) (c : codec A) (a : A) : Prop :=
  exists account discriminator rest, rpc_get_account key = Some account
    /\ length discriminator = 8%nat /\ ra_data account = discriminator ++ c_enc c a ++ rest.

Lemma load_zero_copy_ok `{ClientLaws} {A} (c : codec A) `{!Lawful c} `{!Sized c} key a :
  c_ok c a -> stored_at key c a -> load_zero_copy c key = Ok a.
Proof.
  intros Ha (account & d & rest & Hk & Hd & Hdata). unfold load_zero_copy. rewrite Hk.
  pose proof (enc_size (c := c) a Ha) as Hsize. cbn [ok_or mbind result_bind]. rewrite Hdata.
  rewrite require_true by (rewrite !length_app, Hd; lia). cbn [mbind result_bind].
  rewrite drop_app_length', take_app_length' by lia.
  rewrite (try_from_bytes_ok _ c _ a); [done|]. rewrite <- (app_nil_r (c_enc c a)). by apply dec_enc.
Qed.

(** An account that is too short is an error, not an abort. *)
Lemma load_zero_copy_short `{Client} {A} (c : codec A) key account :
  rpc_get_account key = Some account -> Z.of_nat (length (ra_data account)) < 8 + c_size c ->
  load_zero_copy c key
  = Err (AccountTooSmall (Z.of_nat (length (ra_data account))) (8 + c_size c)).
Proof. intros Hk Hl. unfold load_zero_copy. rewrite Hk. cbn. by rewrite require_false by lia. Qed.
End AdminCliLemmas.

(** ** Properties *)

#[local] Arguments bytes_of : simpl never.

Section AdminCliProperties.
Context `{RuntimeLaws} `{ClientLaws}.


(** What a setter command of the admin is meant to do to the state. *)
Definition setter_spec (command : Commands) (state : ProgramState) : option (R ProgramState) :=
  let positive (n : Z) (r : R ProgramState) :=
    if decide (0 < n) then r else Err (Floor InvalidParameter) in
  let not_negative (n : Z) (r : R ProgramState) :=
    if decide (0 <= n) then r else Err (Floor InvalidParameter) in
  match command with
  | CliSetFloorPrice n =>
      Some (positive n (_ ← require_viable_round_params (ps_round_size_waln state) n (ps_waln_decimals state);
                        Ok (state <| ps_floor_price_usdc := n |>)))
  | CliSetRoundSize n =>
      Some (positive n (_ ← require_viable_round_params n (ps_floor_price_usdc state) (ps_waln_decimals state);
                        Ok (state <| ps_round_size_waln := n |>)))
  | CliSetLockPeriod n => Some (not_negative n (Ok (state <| ps_lock_period_seconds := n |>)))
  | CliSetUsdcWithdrawLock n =>
      Some (not_negative n (Ok (state <| ps_usdc_withdraw_lock_seconds := n |>)))
  | CliSetSellPaused b => Some (Ok (state <| ps_sell_paused := if b then 1 else 0 |>))
  | CliSetFrozen b => Some (Ok (state <| ps_frozen := if b then 1 else 0 |>))
  | CliTransferAuthority s =>
      k ← parse_pubkey s;
      Some (Ok (state <| ps_pending_admin := k |>))
  | _ => None
  end.

(** C37: end to end, a setter command of the admin does exactly what it says.  Whatever the
    world, the request built for the payer, executed by the program, changes the one field
    it names and nothing else, or fails with [InvalidParameter], or as the viability check
    of the resulting price and size does. *)
Theorem cli_setters_exact command w i now r :
  command_request ID (ps_admin (w_state w)) command = Ok (Some (RequestInstruction i)) ->
  setter_spec command (w_state w) = Some r ->
  dispatch now i w = (state ← r; Ok (w <| w_state := state |>)).
Proof.
  intros Hx Hr. destruct command; cbn [command_request setter_spec] in Hx, Hr; try discriminate;
    [..|unfold key in Hx; destruct (parse_pubkey _); [|discriminate]];
    injection Hx as <-; injection Hr as <-; cbn [dispatch];
    [unfold set_floor_price|unfold set_round_size|unfold set_lock_period
    |unfold set_usdc_withdraw_lock|unfold set_sell_paused|unfold set_frozen|unfold transfer_authority];
    unfold with_state; cbn; unfold get_contract_state_address; rewrite check_admin_in;
    cbn [mbind result_bind]; unfold require; try done; by case_decide.
Qed.

(** C40: when the client can remove an investor.  The accounts it derives pass the
    program's constraints exactly when the investor's associated account exists for the
    USDC mint and the vault is an account of the SPL token program: the client never
    works for a USDC mint of Token-2022, which the program itself supports. *)
Theorem cli_remove_accepted_iff s w investor :
  reachable w -> parse_pubkey s = Some investor ->
  stored_at contract_state_address program_state (w_state w) ->
  let account := associated_token_address investor (ps_usdc_mint (w_state w)) token_id in
  exists i, command_request ID (ps_admin (w_state w)) (CliRemoveInvestorFromPool s)
            = Ok (Some (RequestInstruction i))
    /\ (request_accounts i w = Ok tt <->
        (exists x, token_account (w_chain w) account = Some x
                   /\ ta_mint x = ps_usdc_mint (w_state w) /\ ta_owner x = investor
                   /\ ta_program x = token_id)
        /\ (exists v, token_account (w_chain w) usdc_vault_address = Some v /\ ta_program v = token_id)).
Proof.
  intros Hr Hs Hrpc account. pose proof (reachable_inv _ Hr) as Hi. cbn [command_request].
  unfold key. rewrite Hs. cbn [ok_or mbind result_bind]. unfold handle_remove_investor_from_pool.
  unfold get_contract_state_address. fold contract_state_address.
  rewrite (load_zero_copy_ok program_state _ (w_state w)) by (done || apply (reachable_typed _ Hr)).
  cbn [ok_or mbind result_bind].
  eexists. split; [done|].
  destruct (va_fee _ _ (inv_vaults _ _ Hi) _ is_vault_usdc) as (m & Hm & _). rewrite vault_mint_usdc in Hm.
  destruct (va_account _ _ (inv_vaults _ _ Hi) _ is_vault_usdc) as (v & Hv & Hvo & Hvm).
  rewrite vault_mint_usdc in Hvm.
  unfold request_accounts, RemoveInvestorFromPool_accounts; cbn.
  unfold get_investor_pool_address, get_usdc_vault_address, load_mint, contract_state_address.
  rewrite (check_admin_in w), !check_seeds_in, Hm. cbn [ok_or mbind result_bind].
  fold contract_state_address usdc_vault_address account. split.
  - intros Hx. inv_ok. repeat match goal with H : check_token _ _ _ _ _ = Ok _ |- _ =>
      apply check_token_ok in H as (? & ? & ? & ?) end. eauto 10.
  - intros [(x & Hx & Hxm & Hxo & Hxp) (v' & Hv' & Hvp)].
    rewrite (proj2 (check_token_ok _ account _ _ _ x)) by (split_and!; done). cbn [mbind result_bind].
    rewrite (proj2 (check_token_ok _ usdc_vault_address _ _ _ v)) by (split_and!; congruence). cbn [mbind result_bind].
    unfold check_token_program. rewrite require_true by auto. done.
Qed.









End AdminCliProperties.

(** ** Concrete instances *)


(** A client whose key files hold the admin's key and whose RPC node returns the accounts
    of a world. *)
Definition sample_rpc (w : World) (k : Pubkey) : option RpcAccount :=
  if decide (k = contract_state_address) then
    Some (mkRpcAccount 0 (replicate 8 7 ++ c_enc program_state (w_state w)))
  else if decide (k = investor_pool_address) then
    Some (mkRpcAccount 0 (replicate 8 7 ++ c_enc investor_pool (w_pool w)))
  else if decide (k = treasury_address) then
    Some (mkRpcAccount (lamports (w_chain w) treasury_address) [])
  else None.

Definition sample_client (w : World) : Client := {|
  Keypair := list Z;
  Program := Pubkey * Pubkey;
  parse_pubkey s := if decide (s = "investor-3"%string) then Some (investor_key 3) else None;
  tilde s := s;
  read_to_string _ := Some (32 :: admin_key ++ [10]);
  bs58_decode s := Some s;
  keypair_try_from s := Some s;
  read_keypair_file _ := Some admin_key;
  keypair_pubkey k := k;
  client_program _ k id := Some (id, k);
  program_id := fst;
  program_payer := snd;
  rpc_get_account := sample_rpc w;
  rpc_get_token_account_balance _ := Some "42"%string;
  try_from_bytes A c data := match c_dec c data with Some (a, []) => Some a | _ => None end;
  bpf_loader_upgradeable := key_of 9;
|}.

Lemma sample_client_laws w : @ClientLaws (sample_client w).
Proof.
  split; cbn.
  - by intros _ k id p [= <-].
  - by intros A c data a ->.
Qed.

Lemma sample_stored_state w : @stored_at (sample_client w) _ contract_state_address program_state (w_state w).
Proof. eexists _, (replicate 8 7), []. split_and!; [reflexivity..|]. by rewrite app_nil_r. Qed.




Lemma cli_setters_exact_witness :
  exists w i w', dispatch sample_now i w = Ok w' /\ ps_frozen (w_state w') = 1.
Proof.
  destruct setup_world as (w & Hw & _).
  pose proof (@cli_setters_exact _ (sample_client w) (CliSetFrozen true) w
    (SetFrozen (mkAdminOnly (ps_admin (w_state w)) contract_state_address) true) sample_now _
    eq_refl eq_refl) as Hx.
  do 3 eexists. split; [exact Hx|reflexivity].
Defined.

Lemma cli_remove_accepted_iff_witness :
  exists w i, @command_request _ (sample_client w) ID (ps_admin (w_state w))
                (CliRemoveInvestorFromPool "investor-3") = Ok (Some (RequestInstruction i)).
Proof.
  destruct setup_world as (w & Hw & Hr). exists w.
  destruct (@cli_remove_accepted_iff _ _ _ (sample_client_laws w) "investor-3" w (investor_key 3) Hr
    eq_refl (sample_stored_state w)) as (i & Hx & _).
  exists i. exact Hx.
Defined.

