(* ===== verification/Correctness.v ===== *)
(** * Theorems about runs of the program

    Solvency in USDC and in wALN, the lobby's books and the round's state machine in
    every reachable world, and a run that leaves the USDC vault short. *)
From coqutil Require Import Datatypes.RecordSettersUsingExistingGetters.
From stdpp Require Import base gmap strings numbers list.
From S2P Require Import Prelude.
From S2P Require Import State.
From S2P Require Import Pool.
From S2P Require Import Runtime.
From S2P Require Import Sandbox.
From S2P Require Import Vaults.
From S2P Require Import Utils.
From S2P Require Import RoundStart.
From S2P Require Import Settlement.
From S2P Require Import AllocBook.
From S2P Require Import RoundAccounts.
From S2P Require Import Lobby.
From S2P Require Import Sell.
From S2P Require Import CloseRound.
From S2P Require Import Claim.
From S2P Require Import Admin.
From S2P Require Import Aat.
From S2P Require Import Init.
From S2P Require Import Invariant.
From S2P Require Import System.
From S2P Require Import Scenario.
From S2P Require Import Access.
#[local] Open Scope Z_scope.

Section Solvency.
Context `{RuntimeLaws}.

(** C1: solvency in USDC.  In every run, whatever the order of the instructions and
    whatever the rest of the chain does in between, the USDC vault holds the lobby's
    deposits and locks, short of what the round in progress has already paid to sellers
    and, for every round that was filled, of the gap its cap allows: one unit, or up to 99
    for a cap under 200 units.  A run of rounds with caps of 200 units and more is short of
    at most a unit per filled round; in any case it is at most 99 per settled round. *)
Theorem usdc_solvency_by_cap caps w :
  history caps w ->
  ps_total_usdc_in_lobby (w_state w)
  <= token_amount (w_chain w) usdc_vault_address + ps_current_round_usdc_spent (w_state w)
     + sumZ max_gap caps
  /\ (Forall (fun cap => 200 <= cap) caps -> sumZ max_gap caps = Z.of_nat (length caps))
  /\ sumZ max_gap caps <= 99 * ps_round_count (w_state w).
Proof.
  intros Hi%history_inv. destruct (inv_usdc _ _ Hi) as [Hu Hs]. split_and!; [done| |done].
  intros Hcaps. rewrite (sumZ_ext _ (fun _ => 1)), sumZ_const; [lia|]. intros cap Hcap.
  rewrite Forall_forall in Hcaps. unfold max_gap. by rewrite decide_True by (by apply Hcaps).
Qed.

(** Solvency in USDC, in the number of rounds: in every reachable world, whatever the order of the
    instructions and whatever the rest of the chain does in between, the USDC vault
    holds the lobby's deposits and locks, short of what the round in progress has
    already paid to sellers and of at most 99 units per settled round. *)
Theorem usdc_solvency w :
  reachable w ->
  ps_total_usdc_in_lobby (w_state w)
  <= token_amount (w_chain w) usdc_vault_address + ps_current_round_usdc_spent (w_state w)
     + 99 * ps_round_count (w_state w).
Proof. intros Hi%reachable_inv. apply Hi. Qed.

(** C2: solvency in wALN.  In every reachable world the wALN vault covers the wALN
    sold into the current round, the carried dust and every unclaimed allocation of
    every settled round, all at the same time. *)
Theorem waln_solvency w :
  reachable w ->
  ps_current_round_waln (w_state w) + ps_waln_dust_carryover (w_state w)
  + reserved (w_round_locked_waln w) <= token_amount (w_chain w) waln_vault_address.
Proof. intros Hi%reachable_inv. apply Hi. Qed.

(** C5: the books of the lobby.  In every reachable world the pool holds at most 100
    records, no two of the same investor, all amounts fit their type, and the lobby
    total of the state is the sum of all deposits and locks. *)
Theorem lobby_accounting w :
  reachable w ->
  pool_wf (w_pool w) /\ Forall record_wf (records (w_pool w))
  /\ (length (records (w_pool w)) <= MAX_INVESTORS)%nat
  /\ ps_total_usdc_in_lobby (w_state w)
     = sumZ ir_usdc_deposited (records (w_pool w))
       + sumZ ir_usdc_locked_current_round (records (w_pool w)).
Proof.
  intros Hi%reachable_inv. destruct (inv_pool _ _ Hi). split_and!; [done|done| |done].
  by apply length_records_max.
Qed.

(** C4: the round's state machine.  In every reachable world either no round is in
    progress, and then nothing is locked, bought or paid; or a round is in progress
    whose locks lie within its cap and at most [max_gap] below it (one unit, or 99 for a cap
    under 200 units), whose payments are at most the value of the wALN bought, at the
    round's price, and not zero once something was bought, and whose open rest is worth
    something, so that it is not full. *)
Theorem round_state_machine w :
  reachable w -> resting (w_state w) (records (w_pool w)).
Proof. intros Hi%reachable_inv. apply (inv_pool _ _ Hi). Qed.
End Solvency.

(** One round with a cap of 5000003 units has been filled; the vault is one unit short. *)
Lemma usdc_solvency_by_cap_witness :
  exists w, history [5000003] w /\ ps_total_usdc_in_lobby (w_state w) = 1000000
    /\ token_amount (w_chain w) usdc_vault_address + ps_current_round_usdc_spent (w_state w) = 999999
    /\ 1000000 <= 999999 + sumZ max_gap [5000003].
Proof.
  destruct sold_world as (w & Hw & _).
  assert (history [5000003] w) as Hh
    by (apply (after_history (setup ++ [sell 0 1000000000])); [by_decide|exact Hw|vm_compute; reflexivity]).
  assert ((ps_total_usdc_in_lobby (w_state w),
           token_amount (w_chain w) usdc_vault_address + ps_current_round_usdc_spent (w_state w))
          = (1000000, 999999)) as [= E1 E2]
    by (apply (field_ok (fun w => (ps_total_usdc_in_lobby (w_state w),
          token_amount (w_chain w) usdc_vault_address + ps_current_round_usdc_spent (w_state w))) _ _ _ Hw);
        vm_compute; reflexivity).
  exists w. split_and!; [exact Hh|exact E1|exact E2|].
  destruct (usdc_solvency_by_cap [5000003] w Hh) as [Hs _]. rewrite E1, E2 in Hs. exact Hs.
Defined.

Lemma usdc_solvency_witness :
  exists w, ps_round_count (w_state w) = 1
    /\ ps_total_usdc_in_lobby (w_state w)
       <= token_amount (w_chain w) usdc_vault_address + ps_current_round_usdc_spent (w_state w) + 99 * 1.
Proof.
  destruct sold_world as (w & Hw & Hr).
  assert (ps_round_count (w_state w) = 1) as Hc
    by (apply (field_ok (fun w => ps_round_count (w_state w)) _ _ _ Hw); vm_compute; reflexivity).
  exists w. split; [done|]. pose proof (usdc_solvency w Hr) as Hs. rewrite Hc in Hs. exact Hs.
Defined.

Lemma waln_solvency_witness :
  exists w, reserved (w_round_locked_waln w) = 999999800
    /\ ps_current_round_waln (w_state w) + ps_waln_dust_carryover (w_state w) + 999999800
       <= token_amount (w_chain w) waln_vault_address.
Proof.
  destruct sold_world as (w & Hw & Hr).
  assert (reserved (w_round_locked_waln w) = 999999800) as Hc
    by (apply (field_ok (fun w => reserved (w_round_locked_waln w)) _ _ _ Hw); vm_compute; reflexivity).
  exists w. split; [done|]. pose proof (waln_solvency w Hr) as Hs. rewrite Hc in Hs. exact Hs.
Defined.

Lemma lobby_accounting_witness :
  exists w, ps_total_usdc_in_lobby (w_state w) = 6000002
    /\ sumZ ir_usdc_deposited (records (w_pool w))
       + sumZ ir_usdc_locked_current_round (records (w_pool w)) = 6000002.
Proof.
  destruct setup_world as (w & Hw & Hr).
  assert (ps_total_usdc_in_lobby (w_state w) = 6000002) as Hl
    by (apply (field_ok (fun w => ps_total_usdc_in_lobby (w_state w)) _ _ _ Hw); vm_compute; reflexivity).
  exists w. split; [done|]. destruct (lobby_accounting w Hr) as (_ & _ & _ & He). congruence.
Defined.

Lemma round_state_machine_witness :
  exists w, ps_round_started (w_state w) = 1 /\ resting (w_state w) (records (w_pool w)).
Proof.
  destruct partial_world as (w & Hw & Hr). exists w. split; [|exact (round_state_machine w Hr)].
  apply (field_ok (fun w => ps_round_started (w_state w)) _ _ _ Hw). vm_compute. reflexivity.
Defined.

(** The vault can run short.  The locks of a round need not reach its cap, but a
    full round pays out the cap: after a reachable run of three deposits and one sale no
    round is in progress, the lobby still owes one million units to an investor who took
    no part in the round, and the vault holds one unit less; withdrawing the whole
    deposit fails in the token program. *)
Theorem usdc_shortfall_reachable :
  exists w : World, reachable w /\ ps_round_started (w_state w) = 0
    /\ ps_total_usdc_in_lobby (w_state w) = 1000000
    /\ (ir_usdc_deposited <$> pool_map (w_pool w) !! investor_key 3) = Some 1000000
    /\ token_amount (w_chain w) usdc_vault_address = 999999
    /\ err_of (dispatch sample_now (withdraw_for 3 1000000) w) = Some sandbox_error.
Proof.
  destruct sold_world as (w & Hw & Hr). exists w. split; [exact Hr|].
  split_and!;
    [apply (field_ok (fun w => ps_round_started (w_state w)) _ _ _ Hw)
    |apply (field_ok (fun w => ps_total_usdc_in_lobby (w_state w)) _ _ _ Hw)
    |apply (field_ok (fun w => ir_usdc_deposited <$> pool_map (w_pool w) !! investor_key 3) _ _ _ Hw)
    |apply (field_ok (fun w => token_amount (w_chain w) usdc_vault_address) _ _ _ Hw)
    |apply (field_ok (fun w => err_of (dispatch sample_now (withdraw_for 3 1000000) w)) _ _ _ Hw)];
    vm_compute; reflexivity.
Qed.
